(* ===== verification/_CoqProject ===== *)
-Q . S2P
Prelude.v
Bytes.v
Text.v
Postcard.v
PostcardRef.v
Protocol.v
Wire.v
Framing.v
WireProps.v
PrivateFiles.v
PrivateFilesProps.v
Identifiers.v
Crypto.v
Transcripts.v
RelayWorker.v
RelayHub.v
RelaySessions.v
RelayStorage.v
RelayLimits.v
RelayRate.v
RelayAdmission.v
RelayDelivery.v
RelaySpec.v
Enrollment.v
RelayConnection.v
RelayInvariant.v
Sizes.v
RelayRun.v
RelayHistory.v
RelayDemo.v
RelayProps.v
RelayPaging.v
RelayAccess.v
RelayQuota.v
EnrollmentProps.v
RelayConnectionProps.v
RelayServe.v
TlsIdentity.v
TlsIdentityProps.v
RelayProcess.v
RelayProcessProps.v
RelayLoop.v
RelayLoopProps.v
ClientCommands.v
ClientStore.v
ClientContacts.v
ClientMls.v
ClientDelivery.v
ClientConnect.v
ClientSync.v
ClientService.v
ClientTx.v
ClientJournal.v
ClientRuns.v
ClientEngine.v
ClientFollows.v
ClientDemo.v
ClientEnds.v
ClientCache.v
ClientProps.v
ClientConnectProps.v
ClientServiceProps.v
Handshake.v
EndToEnd.v
ClientCacheProps.v
Agreement.v
