(* ===== verification/Prelude.v ===== *)
(** * Grotto: a verification development

    Grotto is a group messenger. Members' clients encrypt with MLS and talk to a relay
    over framed Postcard messages; the relay authenticates each connection, keeps an
    ordered log of opaque operations per room, hands out key packages and Welcomes, and
    never reads a message. The code is the Rust workspace src/crates: grotto-protocol
    (messages, frames, transcripts), grotto-relay (storage, delivery, enrollment,
    connections), grotto-client (local store, contacts, MLS sessions, delivery engine)
    and grotto-mls (the wire form of MLS messages).

    ** How the parts interact

    A client's engine journals a request in its own store, sends it as one frame and
    applies the answer in a transaction. The relay's session reads the frame, admits it,
    hands it to the database worker and answers; the worker runs [deliver], which looks
    the request up in its journal, performs it or refuses it, and saves the outcome in
    the same transaction. An accepted append is announced to the room's sessions, whose
    clients then synchronise: Welcomes, the index of rooms, the events after the cursor.

    ** Files and the code they model

    Foundations.
    - [Prelude]: results, machine-width integers, hint databases, tactics, list lemmas.
    - [Bytes], [Text]: arrays, big-endian integers, hexadecimal text, UTF-8.
    - [PrivateFiles], [PrivateFilesProps] (private_file.rs of both programs): the file
      system calls, owner-only files and their locks.
    - [Crypto]: the interfaces [Ed25519] and [Ed25519Signer] of ed25519_dalek.

    grotto-protocol (lib.rs, delivery.rs).
    - [Protocol]: constants, identifiers, messages. [Postcard]: the interface of the
      postcard crate and the Serde glue; [PostcardRef] discharges it.
    - [Wire]: every [Serialize] and [Deserialize], [encode_message], [decode_message];
      [WireProps]: round trips, bounds on decoded values, refusals, room names.
    - [Framing]: [read_frame], [write_frame] on scripted readers and writers.
    - [Identifiers]: [Display] and [FromStr] of identifiers, certificate fingerprints.
    - [Transcripts]: what is signed and hashed; [Sha256] is the digest's interface.

    grotto-relay.
    - [RelayStorage] (storage.rs), [RelayLimits] (limits.rs, metrics.rs),
      [RelayDelivery] (delivery.rs), [Enrollment] (enrollment.rs): the tables as the
      record [RelayDb], each SQL statement as a function of the tables that may fail.
    - [RelayWorker] (worker.rs), [RelayHub], [RelaySessions], [RelayRate],
      [RelayAdmission], [RelayConnection] (lib.rs): the bounded queue, the hub of
      sessions, rate and admission limits, [authenticate], [handle_connection].
    - [RelaySpec]: the specification of each request; [RelayInvariant]: the invariant of
      the tables and the step relation [relay_step]; [Sizes]: encoded sizes;
      [RelayRun], [RelayHistory], [RelayDemo]: runs without faults, what steps keep,
      concrete inputs.
    - [TlsIdentity], [TlsIdentityProps], [RelayProcess], [RelayProcessProps] (lib.rs,
      storage.rs): the certificate and key files, and [run] up to its accept loop.
    - [RelayLoop], [RelayLoopProps] (lib.rs, shutdown.rs): the accept loop, signals, the
      shutdown that is sent to the tasks, and the end of the process. [RelayAdmission] has
      each task at one of its awaits, with the shutdown branch of that await;
      [RelayServe.told_to_stop] shows the same of [connection_task] itself.
    - [RelayProps], [RelayPaging], [RelayAccess], [RelayQuota], [EnrollmentProps],
      [RelayConnectionProps], [RelayServe]: the properties.

    grotto-client and grotto-mls.
    - [ClientCommands] (lib.rs): the parser of command lines and what it accepts.
    - [ClientStore] (store.rs, and [ClientIdentity] of identity.rs): the tables as
      [ClientDb], the connection with its transaction, owner and poison flag as [Store],
      the operations in the monad [StoreM].
    - [ClientContacts] (contacts.rs): cards, import, the identity provider.
    - [ClientMls] (mls_storage.rs, mls_session.rs, grotto-mls/src/lib.rs): the storage
      callbacks, the cache of groups, the session's operations in the monad [ClientM];
      the class [Mls] is the mls-rs library.
    - [ClientDelivery], [ClientSync] (delivery.rs): requests and their journal, commands,
      completion; synchronisation, Welcomes, events, attempts, the service loop [run].
    - [ClientConnect], [ClientService] (lib.rs, [ClientStore::open]): the check of the
      relay's certificate and the pin file, the client's half of the handshake, opening the
      store, start-up, and the loop that connects, serves and reconnects.
    - [ClientTx], [ClientJournal], [ClientRuns], [ClientEngine]: a logic for these
      programs and one lemma per program; [ClientFollows]: what they receive is what
      they were told; [ClientEnds]: their loops end; [ClientDemo]:
      concrete inputs; [ClientCache]: what the session's programs do to the cached
      groups; [ClientProps], [ClientConnectProps], [ClientServiceProps],
      [ClientCacheProps]: the properties.

    Both sides.
    - [Handshake]: [connect] of the client against [authenticate] of the relay.
    - [EndToEnd]: [request] of the client against the relay's session and [deliver].
    - [Agreement]: the journals of clients against the relay's log.

    ** What the theorems show

    The relay implements its specification: every run of [deliver], whichever statement
    fails, replays a saved answer, refuses, or performs exactly the effect of the request
    with its charge and its journal entry. Logs are gapless sequences whose records
    decode to the events at their place; appends are accepted exactly on the head, from
    subscribers; retries repeat their answer; failures change nothing, and no change goes
    unjournalled; history is kept. Rooms are seen and
    extended by their subscribers only, key packages are used once and on a grant, quotas
    hold, pages progress. Identities are registered with single-use tokens bound to user
    and key. Sessions need a signature over a fresh challenge, are exclusive per
    identity, answer in order, and end clean; notifications reach them; the worker is
    serial; admission and rate limits hold. The relay starts only on a private, locked
    database of its own format, and never replaces its TLS identity; it serves until a
    signal stops it; then it tells every connection to stop, waits for their tasks and
    ends, whatever its peers do.

    The wire: messages round-trip exactly within the limits of the decoder, what decodes
    is bounded, junk is refused, frames
    survive every segmentation, transcripts are injective and
    separated by their domains.

    Files: what is opened is a regular owner-only file in an owner-only directory below
    safe ancestors, and it is opened exactly where that is possible.

    The client: on every run, with every answer of the relay and every failing statement,
    the durable journal of events stays sound, and what it holds of them stays; events are accepted only as
    authenticated at their place by a pinned member; rooms are joined only on a Welcome
    signed by a verified contact; contacts are pinned only on a confirmed fingerprint;
    retries are byte-exact; what becomes of a refused message is stated arm by arm; and
    every loop ends. The same holds of the whole process, from start-up through any number
    of reconnections; and the groups a process keeps in memory are those that it would
    load after a restart. A peer is taken for the relay only with the certificate that was
    given or is pinned to the relay's address, and commands are parsed as documented and
    within their limits.

    Both sides: given each other's bytes, the client's and the relay's halves of the
    handshake complete and agree; a durable request whose final answer was lost is
    answered, when it is sent again, as it was the first time, without any further effect; and what the
    members of a room have read of it are runs of the relay's one log, event by event the
    same for all.

    Four theorems state defects: [ClientConnectProps.handshake_signatures_are_ignored],
    [RelayPaging.welcome_page_overflows], [RelayQuota.refused_appends_charge_the_room] and,
    in its last arm, [ClientProps.failed_sends_are_settled].

    ** Parameters

    Code outside the repository is a class or an argument: [Postcard], [Sha256],
    [Ed25519], [Ed25519Signer], [Mls], [TlsLibrary]; [MlsLaws] says of the MLS library that
    groups keep their identifiers and are loaded as they were written. SQLite is its
    statements' effect on the tables, and [sql_fails] decides for each statement of a run whether it fails; a client's
    [World] and a connection's [ConnEnv] also decide randomness, clocks, timeouts, page
    counts and cancellation. Properties quantify over all of these; the witnesses fix
    them to the small instances of [RelayDemo] and [ClientDemo].

    ** Fuel

    [read_header] gets one more than the bytes and pauses of its script, and
    [Framing.read_frame_total] shows that this always suffices. The relay's readers get
    more than the messages of their script. A client's loops that wait for the relay get
    one more than the messages that will arrive, each turn taking at least one; its loops
    over a table get the number of the table's rows, each turn moving past one. Running
    out is the separate error [OutOfFuel], and [ClientProps.client_runs_end] shows that
    no run ends with it.

    ** Not modelled

    The TLS protocol (what rustls asks its verifier is a list of [VerifierCall]s), the
    scheduling of [tokio] (tasks interleave as steps; which of several ready branches a
    [select!] takes is open), the two [main] functions, the
    thread that reads the terminal, terminal output beyond the lines the engine shows, the text of error messages, and the builders of mls-rs clients:
    operating-system and library calls with no logic of their own. Files are seen by one
    process at a time. *)
From stdpp Require Export base option list gmap sets vector sorting strings.
From Stdlib Require Export ZArith Lia.
From Stdlib.Strings Require Export Byte.

#[global] Set Default Proof Using "Type".

Declare Scope grotto_scope.
Delimit Scope grotto_scope with grotto.
#[global] Open Scope Z_scope.

(** A pair from its first component. *)
Lemma pair_of_fst {A B} (p : A * B) a : p.1 = a → p = (a, p.2).
Proof. by intros <-; destruct p. Qed.

(** ** Rust's [Result] *)

Inductive result (E A : Type) : Type :=
| Ok (a : A)
| Err (e : E).
Arguments Ok {E A} a.
Arguments Err {E A} e.

#[global] Instance result_ret E : MRet (result E) := λ A a, Ok a.
#[global] Instance result_bind E : MBind (result E) :=
  λ A B f m, match m with Ok a => f a | Err e => Err e end.
#[global] Instance result_fmap E : FMap (result E) :=
  λ A B f m, match m with Ok a => Ok (f a) | Err e => Err e end.
#[global] Instance result_eq_dec E A `{EqDecision E, EqDecision A} : EqDecision (result E A).
Proof. solve_decision. Defined.

(** [Option::ok_or]. *)
Definition ok_or {E A} (e : E) (o : option A) : result E A :=
  match o with Some a => Ok a | None => Err e end.

(** [Result::map_err] to a fixed error. *)
Definition map_err {E E' A} (e : E') (r : result E A) : result E' A :=
  match r with Ok a => Ok a | Err _ => Err e end.

Definition is_ok {E A} (r : result E A) : bool :=
  match r with Ok _ => true | Err _ => false end.

(** ** Machine integers

    A [w]-bit integer is a [Z] with its range written out; the operations below
    are the ones the program calls on [u64] and [usize] (64 bits). *)

Definition u8_max : Z := 2 ^ 8 - 1.
Definition u16_max : Z := 2 ^ 16 - 1.
Definition u32_max : Z := 2 ^ 32 - 1.
Definition u64_max : Z := 2 ^ 64 - 1.
Definition i64_max : Z := 2 ^ 63 - 1.

(** [u64::saturating_add], [u64::saturating_mul], [u64::checked_add]. *)
Definition saturating_add (a b : Z) : Z := Z.min (a + b) u64_max.
Definition saturating_mul (a b : Z) : Z := Z.min (a * b) u64_max.
Definition checked_add (a b : Z) : option Z :=
  if decide (a + b ≤ u64_max) then Some (a + b) else None.

(** [AtomicU64::fetch_add] wraps around. *)
Definition wrapping_add64 (a b : Z) : Z := (a + b) `mod` 2 ^ 64.

(** [usize] length of a buffer. *)
Definition len {A} (l : list A) : Z := Z.of_nat (length l).

(** ** Automation *)

Create HintDb grotto.
Create Rewrite HintDb grotto.

Ltac case_matches :=
  repeat match goal with
  | H : context [ match ?x with _ => _ end ] |- _ => destruct x eqn:?; simplify_eq/=
  | |- context [ match ?x with _ => _ end ] => destruct x eqn:?; simplify_eq/=
  end.

(** Turns boolean tests of the code into the propositions they decide. *)
Ltac reflect_bools :=
  repeat match goal with
  | H : _ && _ = true |- _ => apply andb_true_iff in H as [? ?]
  | H : _ && _ = false |- _ => apply andb_false_iff in H
  | H : _ || _ = true |- _ => apply orb_true_iff in H
  | H : _ || _ = false |- _ => apply orb_false_iff in H as [? ?]
  | H : negb _ = true |- _ => apply negb_true_iff in H
  | H : negb _ = false |- _ => apply negb_false_iff in H
  | H : bool_decide _ = true |- _ => apply bool_decide_eq_true in H
  | H : bool_decide _ = false |- _ => apply bool_decide_eq_false in H
  | H : (_ <? _) = true |- _ => apply Z.ltb_lt in H
  | H : (_ <? _) = false |- _ => apply Z.ltb_ge in H
  | H : (_ <=? _) = true |- _ => apply Z.leb_le in H
  | H : (_ <=? _) = false |- _ => apply Z.leb_gt in H
  | H : (_ =? _) = true |- _ => apply Z.eqb_eq in H
  | H : (_ =? _) = false |- _ => apply Z.eqb_neq in H
  end.

(** Inverts a chain of binds that ended in a value. *)
Ltac inv_bind :=
  repeat match goal with
  | H : mbind _ ?m = Some _ |- _ => apply bind_Some in H as (? & ? & H)
  | H : _ <$> ?m = Some _ |- _ => apply fmap_Some in H as (? & ? & H)
  end; simplify_eq/=.

(** ** Shared lemmas *)

Lemma ok_or_Ok {E A} (e : E) (o : option A) a : ok_or e o = Ok a ↔ o = Some a.
Proof. destruct o; split; intros H; by simplify_eq/=. Qed.

Lemma map_err_Ok {E E' A} (e : E') (r : result E A) a : map_err e r = Ok a ↔ r = Ok a.
Proof. destruct r; simpl; naive_solver. Qed.

Lemma saturating_add_le a b : saturating_add a b ≤ a + b.
Proof. unfold saturating_add. lia. Qed.

Lemma saturating_add_below a b l :
  l < u64_max → saturating_add a b ≤ l → a + b ≤ l.
Proof. unfold saturating_add. lia. Qed.

Lemma checked_add_Some a b c :
  checked_add a b = Some c ↔ c = a + b ∧ a + b ≤ u64_max.
Proof. unfold checked_add. case_decide; split; [intros [= <-]; auto|by intros [-> _]|done|by intros []]. Qed.

Lemma len_nonneg {A} (l : list A) : 0 ≤ len l.
Proof. unfold len. lia. Qed.

Lemma len_nil {A} : len (@nil A) = 0.
Proof. done. Qed.

Lemma len_cons {A} (x : A) l : len (x :: l) = 1 + len l.
Proof. unfold len. simpl. lia. Qed.

Lemma len_app {A} (l k : list A) : len (l ++ k) = len l + len k.
Proof. unfold len. rewrite length_app. lia. Qed.

Lemma len_vec {A n} (v : vec A n) : len v = Z.of_nat n.
Proof. unfold len. by rewrite length_vec_to_list. Qed.

Lemma len_fmap {A B} (f : A → B) l : len (f <$> l) = len l.
Proof. unfold len. by rewrite length_fmap. Qed.

Lemma app_inj_len {A} (l1 l2 k1 k2 : list A) :
  length l1 = length l2 → l1 ++ k1 = l2 ++ k2 → l1 = l2 ∧ k1 = k2.
Proof. intros. by apply app_inj_1. Qed.

Lemma filter_all {A} (P : A → Prop) `{!∀ x, Decision (P x)} l : Forall P l → filter P l = l.
Proof. induction 1; [done|]. rewrite filter_cons_True by done. by f_equal. Qed.

Lemma filter_none {A} (P : A → Prop) `{!∀ x, Decision (P x)} l :
  Forall (λ x, ¬ P x) l → filter P l = [].
Proof. induction 1; [done|]. by rewrite filter_cons_False by done. Qed.

Lemma Forall_filter {A} (P Q : A → Prop) `{!∀ x, Decision (Q x)} l :
  Forall P l → Forall P (filter Q l).
Proof. rewrite !Forall_forall. intros Hl x Hx. apply Hl. by apply list_elem_of_filter in Hx as [_ ?]. Qed.

Lemma subset_snoc {A} (l : list A) a : l ⊆ l ++ [a].
Proof. intros x Hx. apply elem_of_app. by left. Qed.

Lemma elem_snoc {A} (l : list A) a : a ∈ l ++ [a].
Proof. apply elem_of_app. right. by apply list_elem_of_singleton. Qed.

(** Increasing keys. *)
Lemma increasing_snoc l z :
  StronglySorted Z.lt l → Forall (λ x, x < z) l → StronglySorted Z.lt (l ++ [z]).
Proof.
  induction 1 as [|a l Hs IH Ha]; intros Hf; simpl; [by repeat constructor|].
  inversion Hf; subst. constructor; [auto|]. apply Forall_app. split; [done|by constructor].
Qed.

Lemma increasing_filter {A} (key : A → Z) (P : A → Prop) `{!∀ x, Decision (P x)} l :
  StronglySorted Z.lt (key <$> l) → StronglySorted Z.lt (key <$> filter P l).
Proof.
  induction l as [|a l IH]; intros Hs; [constructor|].
  inversion Hs as [|? ? Hs' Ha]; subst. destruct (decide (P a)).
  - rewrite filter_cons_True by done. constructor; [auto|].
    apply Forall_fmap, Forall_filter. by rewrite Forall_fmap in Ha.
  - rewrite filter_cons_False by done. auto.
Qed.

Lemma increasing_inj {A} (key : A → Z) l x y :
  StronglySorted Z.lt (key <$> l) → x ∈ l → y ∈ l → key x = key y → x = y.
Proof.
  induction l as [|a l IH]; intros Hs Hx Hy E; [by apply not_elem_of_nil in Hx|].
  inversion Hs as [|? ? Hs' Ha]; subst. rewrite Forall_fmap, Forall_forall in Ha.
  apply elem_of_cons in Hx as [->|Hx], Hy as [->|Hy]; [done| | |auto].
  - specialize (Ha y Hy). simpl in Ha. lia.
  - specialize (Ha x Hx). simpl in Ha. lia.
Qed.

#[export] Hint Rewrite @len_nil @len_cons @len_app @len_vec @len_fmap : grotto.
#[export] Hint Resolve len_nonneg : grotto.
