(* ===== verification/Bytes.v ===== *)
(** * Bytes, fixed arrays, big-endian integers and hexadecimal text

    The parts of Rust's core library the protocol code is written with:
    [u8], [[u8; N]], [to_be_bytes], [from_be_bytes], [u8::from_str_radix] and the
    [{:02x}] formatter. Bytes are [Byte.byte]; a fixed array is a [vec]. *)
From S2P Require Import Prelude.

#[global] Instance byte_eq_decision : EqDecision byte := byte_eq_dec.

#[global] Program Instance byte_countable : Countable byte :=
  inj_countable Byte.to_N Byte.of_N _.
Next Obligation. intros b. apply Byte.of_to_N. Qed.

#[global] Instance byte_inhabited : Inhabited byte := populate x00.

(** A byte as a number, and [as u8] (wrapping). *)
Definition b2z (b : byte) : Z := Z.of_N (Byte.to_N b).
Definition z2b (z : Z) : byte := default x00 (Byte.of_N (Z.to_N (z `mod` 256))).

(** [[u8; n]] and [<[u8; n]>::try_from(&[u8])]. *)
Abbreviation bytes n := (vec byte n).

Fixpoint to_array (n : nat) (l : list byte) : option (bytes n) :=
  match n, l with
  | O, [] => Some [#]
  | S n, b :: l => vcons b <$> to_array n l
  | _, _ => None
  end.

(** [to_be_bytes] of an [8 * n]-bit integer and its inverse. *)
Fixpoint be_bytes (n : nat) (z : Z) : list byte :=
  match n with
  | O => []
  | S n => z2b (Z.shiftr z (8 * Z.of_nat n)) :: be_bytes n z
  end.

Definition from_be_bytes (l : list byte) : Z :=
  foldl (λ acc b, acc * 256 + b2z b) 0 l.

(** The lexicographic order of byte strings: [Ord] on [[u8; N]] and SQLite's
    order on BLOB columns of equal length. *)
Fixpoint bytes_leb (k l : list byte) : bool :=
  match k, l with
  | [], _ => true
  | _ :: _, [] => false
  | a :: k, b :: l =>
      if b2z a <? b2z b then true
      else if b2z a =? b2z b then bytes_leb k l else false
  end.

Definition bytes_ltb (k l : list byte) : bool :=
  bytes_leb k l && negb (bool_decide (k = l)).

(** [char::to_digit(radix)] on an ASCII byte. *)
Definition to_digit (radix : Z) (b : byte) : option Z :=
  let c := b2z b in
  let d :=
    if (48 <=? c) && (c <=? 57) then Some (c - 48)
    else if (97 <=? c) && (c <=? 122) then Some (c - 97 + 10)
    else if (65 <=? c) && (c <=? 90) then Some (c - 65 + 10)
    else None in
  match d with
  | Some d => if d <? radix then Some d else None
  | None => None
  end.

(** The digit loop of [from_str_radix] for an unsigned type with maximum [max]. *)
Fixpoint radix_digits (radix max acc : Z) (l : list byte) : option Z :=
  match l with
  | [] => Some acc
  | b :: l =>
      d ← to_digit radix b;
      let acc := acc * radix + d in
      if acc <=? max then radix_digits radix max acc l else None
  end.

(** [uN::from_str_radix]: an empty string, a lone sign and a minus sign are
    errors; a leading plus sign is skipped. *)
Definition from_str_radix (radix max : Z) (l : list byte) : option Z :=
  match l with
  | [] => None
  | [x2b] | [x2d] => None
  | x2b :: l => radix_digits radix max 0 l
  | l => radix_digits radix max 0 l
  end.

(** [format!("{byte:02x}")]. *)
Definition lower_hex_digit (d : Z) : byte :=
  z2b (if d <? 10 then 48 + d else 97 + (d - 10)).
Definition format_02x (b : byte) : list byte :=
  [lower_hex_digit (b2z b / 16); lower_hex_digit (b2z b mod 16)].
Definition hex_string (l : list byte) : list byte := l ≫= format_02x.

(** ** Lemmas *)

Lemma b2z_range b : 0 ≤ b2z b < 256.
Proof. unfold b2z. pose proof (Byte.to_N_bounded b). lia. Qed.

Lemma b2z_inj b c : b2z b = b2z c → b = c.
Proof.
  unfold b2z. intros H%N2Z.inj.
  apply (f_equal Byte.of_N) in H. rewrite !Byte.of_to_N in H. congruence.
Qed.

Lemma b2z_z2b z : b2z (z2b z) = z `mod` 256.
Proof.
  unfold z2b, b2z. pose proof (Z.mod_pos_bound z 256 eq_refl).
  destruct (Byte.of_N _) as [b|] eqn:E; simpl.
  - apply Byte.to_of_N in E. rewrite E, Z2N.id; lia.
  - apply Byte.of_N_None_iff in E. lia.
Qed.

Lemma z2b_b2z b : z2b (b2z b) = b.
Proof.
  apply b2z_inj. rewrite b2z_z2b. apply Z.mod_small, b2z_range.
Qed.

Lemma to_array_vec {n} (v : bytes n) : to_array n v = Some v.
Proof. induction v as [|b n v IH]; simpl; [done|]. by rewrite IH. Qed.

#[global] Instance bytes_countable n : Countable (bytes n) :=
  inj_countable vec_to_list (to_array n) to_array_vec.

Lemma to_array_Some n l (v : bytes n) : to_array n l = Some v → vec_to_list v = l.
Proof.
  revert l v. induction n as [|n IH]; intros [|b l] v; simpl; intros H; simplify_eq/=.
  - done.
  - apply fmap_Some in H as (w & Hw & ->). simpl. by rewrite (IH _ _ Hw).
Qed.

Lemma to_array_length n l : is_Some (to_array n l) ↔ length l = n.
Proof.
  split.
  - intros [v Hv]. apply to_array_Some in Hv. rewrite <- Hv. apply length_vec_to_list.
  - intros <-. induction l as [|b l [v Hv]]; simpl; [eauto|]. rewrite Hv. eauto.
Qed.

Lemma length_be_bytes n z : length (be_bytes n z) = n.
Proof. induction n; simpl; lia. Qed.

Lemma foldl_be_acc l acc :
  foldl (λ a b, a * 256 + b2z b) acc l = acc * 256 ^ len l + from_be_bytes l.
Proof.
  unfold from_be_bytes. revert acc. induction l as [|b l IH]; intros acc.
  - unfold len. simpl. lia.
  - simpl. rewrite (IH (acc * 256 + b2z b)), (IH (0 * 256 + b2z b)), len_cons.
    rewrite Z.pow_add_r by (pose proof (len_nonneg l); lia). lia.
Qed.

Lemma from_be_bytes_cons b l : from_be_bytes (b :: l) = b2z b * 256 ^ len l + from_be_bytes l.
Proof. unfold from_be_bytes at 1. simpl. rewrite foldl_be_acc. lia. Qed.

Lemma from_be_bytes_be_bytes n z :
  from_be_bytes (be_bytes n z) = z `mod` 256 ^ Z.of_nat n.
Proof.
  induction n as [|n IH]; [by rewrite Z.mod_1_r|].
  cbn [be_bytes]. rewrite from_be_bytes_cons, IH, b2z_z2b.
  unfold len. rewrite length_be_bytes.
  rewrite Z.shiftr_div_pow2 by lia.
  replace (2 ^ (8 * Z.of_nat n)) with (256 ^ Z.of_nat n)
    by (rewrite (Z.pow_mul_r 2 8) by lia; done).
  rewrite Nat2Z.inj_succ, Z.pow_succ_r by lia.
  rewrite (Z.mul_comm 256), Z.rem_mul_r by lia. lia.
Qed.

Lemma be_bytes_inj n y z :
  0 ≤ y < 256 ^ Z.of_nat n → 0 ≤ z < 256 ^ Z.of_nat n →
  be_bytes n y = be_bytes n z → y = z.
Proof.
  intros Hy Hz H. apply (f_equal from_be_bytes) in H.
  rewrite !from_be_bytes_be_bytes, !Z.mod_small in H by lia. done.
Qed.

Lemma from_be_bytes_range l : 0 ≤ from_be_bytes l < 256 ^ len l.
Proof.
  induction l as [|b l IH]; [unfold len; simpl; unfold from_be_bytes; simpl; lia|].
  rewrite from_be_bytes_cons, len_cons, Z.pow_add_r by (pose proof (len_nonneg l); lia).
  pose proof (b2z_range b). nia.
Qed.

Lemma be_bytes_from_be_bytes l : be_bytes (length l) (from_be_bytes l) = l.
Proof.
  assert (Hinj : ∀ k m : list byte, length k = length m → from_be_bytes k = from_be_bytes m → k = m).
  { induction k as [|a k IH]; intros [|b m] Hlen Heq; simplify_eq/=; [done|].
    rewrite !from_be_bytes_cons in Heq.
    assert (Hl : len k = len m) by (unfold len; lia).
    pose proof (from_be_bytes_range k). pose proof (from_be_bytes_range m).
    rewrite Hl in *.
    assert (b2z a = b2z b) by nia.
    f_equal; [by apply b2z_inj|apply IH; [done|nia]]. }
  apply Hinj; [apply length_be_bytes|].
  rewrite from_be_bytes_be_bytes. apply Z.mod_small, from_be_bytes_range.
Qed.

Lemma bytes_leb_refl l : bytes_leb l l = true.
Proof. induction l; simpl; [done|]. by rewrite Z.ltb_irrefl, Z.eqb_refl. Qed.

Lemma bytes_leb_antisym k l : bytes_leb k l = true → bytes_leb l k = true → k = l.
Proof.
  revert l. induction k as [|a k IH]; intros [|b l]; simpl; try done.
  destruct (b2z a <? b2z b) eqn:?, (b2z b <? b2z a) eqn:?, (b2z a =? b2z b) eqn:?,
    (b2z b =? b2z a) eqn:?; reflect_bools; try done; try lia.
  intros. f_equal; [by apply b2z_inj|auto].
Qed.

Lemma bytes_leb_trans k l m :
  bytes_leb k l = true → bytes_leb l m = true → bytes_leb k m = true.
Proof.
  revert l m. induction k as [|a k IH]; intros [|b l] [|c m]; simpl; try done.
  destruct (b2z a <? b2z b) eqn:?, (b2z b <? b2z c) eqn:?, (b2z a =? b2z b) eqn:?,
    (b2z b =? b2z c) eqn:?, (b2z a <? b2z c) eqn:?, (b2z a =? b2z c) eqn:?;
    reflect_bools; try done; try lia. eauto.
Qed.

Lemma bytes_leb_total k l : bytes_leb k l = true ∨ bytes_leb l k = true.
Proof.
  revert l. induction k as [|a k IH]; intros [|b l]; simpl; auto.
  destruct (b2z a <? b2z b) eqn:?, (b2z b <? b2z a) eqn:?, (b2z a =? b2z b) eqn:?,
    (b2z b =? b2z a) eqn:?; reflect_bools; first [by left | by right | apply IH | lia].
Qed.

Lemma to_digit_nonneg radix b d : to_digit radix b = Some d → 0 ≤ d.
Proof. unfold to_digit. intros H. repeat case_match; simplify_eq; reflect_bools; lia. Qed.

Lemma radix_digits_nonneg radix max l : ∀ acc z,
  0 ≤ radix → 0 ≤ acc → radix_digits radix max acc l = Some z → 0 ≤ z.
Proof.
  induction l as [|b l IH]; intros acc z Hr Ha; simpl; [by intros [= <-]|].
  intros (d & Hd%to_digit_nonneg & E)%bind_Some. destruct (_ <=? _); [|done].
  eapply IH; [done| |exact E]. nia.
Qed.

Lemma from_str_radix_nonneg radix max l z :
  0 ≤ radix → from_str_radix radix max l = Some z → 0 ≤ z.
Proof.
  intros Hr. unfold from_str_radix. intros H.
  repeat case_match; try done; by eapply radix_digits_nonneg in H.
Qed.

(** Every pair of digits printed by [{:02x}] is read back by [from_str_radix]. *)
Lemma from_str_radix_format_02x b :
  from_str_radix 16 u8_max (format_02x b) = Some (b2z b).
Proof. destruct b; vm_compute; reflexivity. Qed.

Lemma length_hex_string l : length (hex_string l) = (2 * length l)%nat.
Proof.
  unfold hex_string. induction l as [|b l IH]; [done|].
  rewrite bind_cons, length_app, IH. simpl. lia.
Qed.

Lemma format_02x_ascii b c : c ∈ format_02x b → b2z c < 128.
Proof.
  unfold format_02x. intros H.
  assert (Forall (λ c, b2z c < 128) (format_02x b)) as HF
    by (destruct b; vm_compute; repeat constructor).
  rewrite Forall_forall in HF. auto.
Qed.

Lemma hex_string_ascii l c : c ∈ hex_string l → b2z c < 128.
Proof.
  unfold hex_string. intros (b & Hc & _)%list_elem_of_bind. by eapply format_02x_ascii.
Qed.
