(* ===== verification/Text.v ===== *)
(** * Rust's [char], [str] and UTF-8

    A [str] is a sequence of Unicode scalar values; [str::len] is the length of its
    UTF-8 encoding. The decoder accepts exactly the encodings of scalar values, as
    [str::from_utf8] does (no overlong forms, no surrogates). *)
From S2P Require Import Prelude Bytes.

(** ** Scalar values *)

Definition scalar (c : Z) : bool :=
  (0 <=? c) && ((c <? 0xD800) || ((0xE000 <=? c) && (c <=? 0x10FFFF))).

Record char := Char { code : Z; code_scalar : Is_true (scalar code) }.

Abbreviation str := (list char).

#[global] Instance char_eq_decision : EqDecision char.
Proof.
  intros [c Hc] [d Hd]. destruct (decide (c = d)) as [<-|Hne].
  - left. f_equal. apply proof_irrel.
  - right. congruence.
Defined.

(** [char::from_u32]. *)
Definition char_from_u32 (c : Z) : option char :=
  match decide (Is_true (scalar c)) with
  | left H => Some (Char c H)
  | right _ => None
  end.

Definition replacement_character : char := Char 0xFFFD I.

(** A literal of the source (ASCII). *)
Definition lit (s : string) : str :=
  omap (λ b, char_from_u32 (b2z b)) (String.list_byte_of_string s).

(** ** UTF-8 *)

Definition utf8_char (c : char) : list byte :=
  let c := code c in
  if c <? 0x80 then [z2b c]
  else if c <? 0x800 then [z2b (0xC0 + c / 64); z2b (0x80 + c mod 64)]
  else if c <? 0x10000 then
    [z2b (0xE0 + c / 4096); z2b (0x80 + (c / 64) mod 64); z2b (0x80 + c mod 64)]
  else
    [z2b (0xF0 + c / 262144); z2b (0x80 + (c / 4096) mod 64);
     z2b (0x80 + (c / 64) mod 64); z2b (0x80 + c mod 64)].

Definition utf8 (s : str) : list byte := s ≫= utf8_char.

(** [str::len] counts bytes; [str::is_ascii] looks at them. *)
Definition str_len (s : str) : Z := len (utf8 s).
Definition is_ascii (s : str) : bool := forallb (λ c, code c <? 128) s.

(** The scalar value a lead byte and its continuation bytes stand for, with the
    number of bytes read. *)
Definition utf8_candidate (l : list byte) : option (Z * nat) :=
  match l with
  | [] => None
  | b0 :: l =>
      let b0 := b2z b0 in
      if b0 <? 0x80 then Some (b0, 1%nat)
      else if b0 <? 0xE0 then
        match l with
        | b1 :: _ => Some ((b0 - 0xC0) * 64 + (b2z b1 - 0x80), 2%nat)
        | _ => None
        end
      else if b0 <? 0xF0 then
        match l with
        | b1 :: b2 :: _ =>
            Some ((b0 - 0xE0) * 4096 + (b2z b1 - 0x80) * 64 + (b2z b2 - 0x80), 3%nat)
        | _ => None
        end
      else
        match l with
        | b1 :: b2 :: b3 :: _ =>
            Some ((b0 - 0xF0) * 262144 + (b2z b1 - 0x80) * 4096
                  + (b2z b2 - 0x80) * 64 + (b2z b3 - 0x80), 4%nat)
        | _ => None
        end
  end.

(** One scalar value from the front; the bytes read must be its encoding. *)
Definition utf8_next (l : list byte) : option (char * list byte) :=
  '(z, n) ← utf8_candidate l;
  c ← char_from_u32 z;
  if decide (utf8_char c = take n l) then Some (c, drop n l) else None.

Fixpoint utf8_scan (fuel : nat) (l : list byte) : option str :=
  match l, fuel with
  | [], _ => Some []
  | _ :: _, O => None
  | _ :: _, S fuel => '(c, l) ← utf8_next l; cons c <$> utf8_scan fuel l
  end.

(** [str::from_utf8]: every step reads at least one byte, so the length of the
    input is enough fuel. *)
Definition from_utf8 (l : list byte) : option str := utf8_scan (length l) l.

(** ** Character classes *)

(** [char::is_whitespace]: the Unicode property White_Space. *)
Definition is_whitespace (c : char) : bool :=
  let c := code c in
  ((9 <=? c) && (c <=? 13)) || (c =? 0x20) || (c =? 0x85) || (c =? 0xA0) ||
  (c =? 0x1680) || ((0x2000 <=? c) && (c <=? 0x200A)) || (c =? 0x2028) ||
  (c =? 0x2029) || (c =? 0x202F) || (c =? 0x205F) || (c =? 0x3000).

(** [char::is_control]: the Unicode category Cc. *)
Definition is_control (c : char) : bool :=
  let c := code c in (c <=? 0x1F) || ((0x7F <=? c) && (c <=? 0x9F)).

(** ** [str] methods *)

Fixpoint trim_start (s : str) : str :=
  match s with
  | c :: s' => if is_whitespace c then trim_start s' else s
  | [] => []
  end.
Definition trim_end (s : str) : str := rev (trim_start (rev s)).
Definition trim (s : str) : str := trim_end (trim_start s).

Fixpoint strip_prefix (p s : str) : option str :=
  match p, s with
  | [], _ => Some s
  | a :: p, b :: s => if decide (a = b) then strip_prefix p s else None
  | _ :: _, [] => None
  end.

(** [str::find(char::is_whitespace)] followed by a split there. *)
Fixpoint span_nonspace (s : str) : str * str :=
  match s with
  | c :: s' =>
      if is_whitespace c then ([], s)
      else let '(w, r) := span_nonspace s' in (c :: w, r)
  | [] => ([], [])
  end.

(** [str::split_whitespace]: the maximal runs of non-space characters. [word] is the
    run read so far. *)
Fixpoint split_words (word : str) (s : str) : list str :=
  match s with
  | [] => match word with [] => [] | _ => [word] end
  | c :: s =>
      if is_whitespace c
      then match word with [] => split_words [] s | _ => word :: split_words [] s end
      else split_words (word ++ [c]) s
  end.
Definition split_whitespace (s : str) : list str := split_words [] s.

(** ** Lemmas *)

Lemma char_eq c d : code c = code d → c = d.
Proof. destruct c, d; simpl; intros <-. f_equal. apply proof_irrel. Qed.

Lemma char_from_u32_code c : char_from_u32 (code c) = Some c.
Proof.
  unfold char_from_u32. destruct c as [c Hc]; simpl.
  case_match; [|done]. do 2 f_equal. apply proof_irrel.
Qed.

Lemma code_range c : 0 ≤ code c ≤ 0x10FFFF.
Proof.
  destruct c as [c Hc]; simpl. unfold scalar in Hc.
  apply Is_true_true_1 in Hc. reflect_bools.
  destruct H0 as [H0|H0]; reflect_bools; lia.
Qed.

Lemma length_utf8_char c : (1 ≤ length (utf8_char c) ≤ 4)%nat.
Proof. unfold utf8_char. repeat case_match; simpl; lia. Qed.

Lemma b2z_z2b_small z : 0 ≤ z < 256 → b2z (z2b z) = z.
Proof. intros. rewrite b2z_z2b. by apply Z.mod_small. Qed.

Lemma utf8_candidate_char c l :
  utf8_candidate (utf8_char c ++ l) = Some (code c, length (utf8_char c)).
Proof.
  pose proof (code_range c) as Hc. unfold utf8_char.
  repeat (case_match; reflect_bools); simpl;
    rewrite !b2z_z2b_small by (Z.div_mod_to_equations; lia);
    repeat (case_match; reflect_bools);
    try (do 2 f_equal); Z.div_mod_to_equations; lia.
Qed.

Lemma utf8_next_char c l : utf8_next (utf8_char c ++ l) = Some (c, l).
Proof.
  unfold utf8_next. rewrite utf8_candidate_char. simpl.
  rewrite char_from_u32_code. simpl.
  rewrite take_app_length, drop_app_length, decide_True; done.
Qed.

Lemma utf8_scan_utf8 s fuel : (length (utf8 s) ≤ fuel)%nat → utf8_scan fuel (utf8 s) = Some s.
Proof.
  revert fuel. unfold utf8. induction s as [|c s IH]; intros fuel Hf; [by destruct fuel|].
  rewrite bind_cons in *. rewrite length_app in Hf. pose proof (length_utf8_char c).
  destruct fuel as [|fuel]; [lia|].
  destruct (utf8_char c ++ (s ≫= utf8_char)) as [|b l] eqn:E.
  { apply (f_equal length) in E. rewrite length_app in E. simpl in E. lia. }
  cbn [utf8_scan]. rewrite <- E, utf8_next_char. simpl. rewrite IH by lia. done.
Qed.

(** Decoding the encoding of a string gives the string back. *)
Lemma from_utf8_utf8 s : from_utf8 (utf8 s) = Some s.
Proof. apply utf8_scan_utf8. lia. Qed.

Lemma utf8_next_sound l c l' : utf8_next l = Some (c, l') → l = utf8_char c ++ l'.
Proof.
  unfold utf8_next. intros H.
  destruct (utf8_candidate l) as [[z n]|]; simplify_eq/=.
  destruct (char_from_u32 z); simplify_eq/=. case_decide as Hd; simplify_eq/=.
  by rewrite Hd, take_drop.
Qed.

Lemma utf8_scan_sound fuel l s : utf8_scan fuel l = Some s → utf8 s = l.
Proof.
  revert l s. induction fuel as [|fuel IH]; intros [|b l] s; cbn [utf8_scan]; intros H;
    simplify_eq; try done.
  destruct (utf8_next (b :: l)) as [[c l']|] eqn:E; simplify_eq/=.
  apply fmap_Some in H as (s' & Hs & ->). apply utf8_next_sound in E.
  unfold utf8. rewrite bind_cons. rewrite E. f_equal. by apply IH.
Qed.

(** Only encodings decode. *)
Lemma from_utf8_sound l s : from_utf8 l = Some s → utf8 s = l.
Proof. apply utf8_scan_sound. Qed.

Lemma utf8_app s t : utf8 (s ++ t) = utf8 s ++ utf8 t.
Proof. unfold utf8. by rewrite <- bind_app. Qed.
Lemma utf8_inj s t : utf8 s = utf8 t → s = t.
Proof. intros H. apply (f_equal from_utf8) in H. rewrite !from_utf8_utf8 in H. congruence. Qed.

Lemma str_len_cons c s : str_len (c :: s) = len (utf8_char c) + str_len s.
Proof. unfold str_len, utf8. by rewrite bind_cons, len_app. Qed.

Lemma str_len_bound s : str_len s ≤ 4 * len s.
Proof.
  induction s as [|c s IH]; [done|]. rewrite str_len_cons, len_cons.
  pose proof (length_utf8_char c). unfold len in *. lia.
Qed.

Lemma str_len_nonneg s : 0 ≤ str_len s.
Proof. apply len_nonneg. Qed.

Lemma str_len_ascii s : is_ascii s = true → str_len s = len s.
Proof.
  induction s as [|c s IH]; [done|]. simpl. intros [Hc Hs]%andb_true_iff.
  rewrite str_len_cons, len_cons, IH by done. unfold utf8_char. by rewrite Hc.
Qed.

Lemma trim_start_suffix s : ∃ p, s = p ++ trim_start s ∧ forallb is_whitespace p = true.
Proof.
  induction s as [|c s (p & Hp & Hw)]; simpl; [by exists []|].
  case_match eqn:E; [|by exists []].
  exists (c :: p). simpl. by rewrite <- Hp, E, Hw.
Qed.

Lemma trim_start_head s : match trim_start s with [] => True | c :: _ => is_whitespace c = false end.
Proof. induction s as [|c s IH]; simpl; [done|]. by destruct (is_whitespace c) eqn:E. Qed.

Lemma trim_start_id s :
  match s with [] => True | c :: _ => is_whitespace c = false end → trim_start s = s.
Proof. destruct s as [|c s]; simpl; [done|]. by intros ->. Qed.

Lemma trim_start_idemp s : trim_start (trim_start s) = trim_start s.
Proof. apply trim_start_id, trim_start_head. Qed.

Lemma trim_end_prefix s : ∃ p, s = trim_end s ++ p ∧ forallb is_whitespace p = true.
Proof.
  unfold trim_end. destruct (trim_start_suffix (rev s)) as (p & Hp & Hw).
  exists (rev p). split.
  - rewrite <- rev_app_distr, <- Hp. by rewrite rev_involutive.
  - rewrite forallb_forall in Hw |- *. intros x Hx. apply Hw. by apply (proj2 (in_rev p x)).
Qed.

Lemma trim_end_idemp s : trim_end (trim_end s) = trim_end s.
Proof. unfold trim_end. by rewrite rev_involutive, trim_start_idemp. Qed.

Lemma trim_head s : match trim s with [] => True | c :: _ => is_whitespace c = false end.
Proof.
  unfold trim. pose proof (trim_start_head s) as H.
  destruct (trim_end_prefix (trim_start s)) as (p & Hp & _).
  destruct (trim_end (trim_start s)) as [|c t]; [done|].
  rewrite Hp in H. exact H.
Qed.

Lemma trim_idemp s : trim (trim s) = trim s.
Proof.
  unfold trim at 1. rewrite (trim_start_id (trim s)) by apply trim_head.
  apply trim_end_idemp.
Qed.

(** Trimming only removes white space at both ends. *)
Lemma trim_infix s : ∃ p q, s = p ++ trim s ++ q ∧
  forallb is_whitespace p = true ∧ forallb is_whitespace q = true.
Proof.
  destruct (trim_start_suffix s) as (p & Hp & Hpw).
  destruct (trim_end_prefix (trim_start s)) as (q & Hq & Hqw).
  exists p, q. split; [|done]. unfold trim. by rewrite <- Hq.
Qed.
