(* ===== verification/Postcard.v ===== *)
(** * The Postcard format and the Serde glue of [grotto-protocol]

    Postcard is a third-party crate: its primitives are the parameter [Postcard]
    below, whose laws are the documented wire format (varint integers, one-byte
    booleans and option tags). What the protocol crate adds on top of it is
    defined here from the source: [serialize_tagged], [required] over a bounded
    [SeqAccess], and the [bounded_vec] and [name] visitors. *)
From S2P Require Import Prelude Bytes Text.

(** ** Interface of the third-party crate *)

Inductive width := W16 | W32 | W64.

Definition width_max (w : width) : Z :=
  match w with W16 => u16_max | W32 => u32_max | W64 => u64_max end.

(** [varint]: the encoding of [u16], [u32] (enum discriminants), [u64] and [usize]
    (sequence lengths). An integer takes as many bytes as it has groups of seven bits:
    at most [k] when it is below [2 ^ (7 * k)], and more than [k] when it is not. *)
Class Postcard := {
  put_varint : width → Z → list byte;
  get_varint : width → list byte → option (Z * list byte);
  put_bool : bool → list byte;
  get_bool : list byte → option (bool * list byte);
  put_option_tag : bool → list byte;
  get_option_tag : list byte → option (bool * list byte);
  varint_roundtrip w z l :
    0 ≤ z ≤ width_max w → get_varint w (put_varint w z ++ l) = Some (z, l);
  varint_range w l z l' : get_varint w l = Some (z, l') → 0 ≤ z ≤ width_max w;
  varint_suffix w l z l' : get_varint w l = Some (z, l') → ∃ p, l = p ++ l';
  varint_length w z k :
    1 ≤ k → 0 ≤ z < 2 ^ (7 * k) → 1 ≤ len (put_varint w z) ≤ k;
  varint_longer w z k :
    0 ≤ k → 2 ^ (7 * k) ≤ z ≤ width_max w → k < len (put_varint w z);
  bool_roundtrip b l : get_bool (put_bool b ++ l) = Some (b, l);
  bool_suffix l b l' : get_bool l = Some (b, l') → ∃ p, l = p ++ l';
  bool_length b : len (put_bool b) = 1;
  option_tag_roundtrip b l : get_option_tag (put_option_tag b ++ l) = Some (b, l);
  option_tag_suffix l b l' : get_option_tag l = Some (b, l') → ∃ p, l = p ++ l';
  option_tag_length b : len (put_option_tag b) = 1;
}.

(** ** Codecs

    The [Serialize] and [Deserialize] implementations of one Rust type. [valid]
    holds of the values the deserializer can produce: the range of the Rust type
    and the collection limits of its visitors. *)
Record codec (A : Type) := Codec {
  put : A → list byte;
  get : list byte → option (A * list byte);
  valid : A → Prop;
  get_put a l : valid a → get (put a ++ l) = Some (a, l);
  get_valid l a l' : get l = Some (a, l') → valid a;
  get_suffix l a l' : get l = Some (a, l') → ∃ p, l = p ++ l';
}.
Arguments Codec {A} put get valid get_put get_valid get_suffix.
Arguments put {A} c a : rename.
Arguments get {A} c l : rename.
Arguments valid {A} c a : rename.
Arguments get_put {A} c a l : rename.
Arguments get_valid {A} c l a l' : rename.
Arguments get_suffix {A} c l a l' : rename.

(** [u8]: the byte itself. *)
Definition get_u8 (l : list byte) : option (byte * list byte) :=
  match l with b :: l => Some (b, l) | [] => None end.

Program Definition c_u8 : codec byte := Codec (λ b, [b]) get_u8 (λ _, True) _ _ _.
Next Obligation. done. Qed.
Next Obligation. done. Qed.
Next Obligation. intros [|b l] a l' H; simplify_eq/=. by exists [a]. Qed.

(** [[u8; n]]: a tuple of [n] bytes, with no length. *)
Definition get_array (n : nat) (l : list byte) : option (bytes n * list byte) :=
  a ← to_array n (take n l); Some (a, drop n l).

Program Definition c_array (n : nat) : codec (bytes n) :=
  Codec vec_to_list (get_array n) (λ _, True) _ _ _.
Next Obligation.
  intros n a l _. unfold get_array.
  rewrite take_app_length', drop_app_length' by (symmetry; apply length_vec_to_list).
  by rewrite to_array_vec.
Qed.
Next Obligation. done. Qed.
Next Obligation.
  intros n l a l' H. unfold get_array in H. inv_bind.
  eexists. symmetry. apply take_drop.
Qed.

(** Struct fields and tuple elements follow each other. *)
Definition get_pair {A B} (ga : list byte → option (A * list byte))
    (gb : list byte → option (B * list byte)) (l : list byte) : option (A * B * list byte) :=
  '(a, l) ← ga l; '(b, l) ← gb l; Some (a, b, l).

Program Definition c_pair {A B} (ca : codec A) (cb : codec B) : codec (A * B) :=
  Codec (λ '(a, b), put ca a ++ put cb b) (get_pair (get ca) (get cb))
    (λ '(a, b), valid ca a ∧ valid cb b) _ _ _.
Next Obligation.
  intros A B ca cb [a b] l [Ha Hb]. unfold get_pair.
  rewrite <- (assoc_L (++)), get_put by done. simpl. by rewrite get_put.
Qed.
Next Obligation.
  intros A B ca cb l [a b] l' H. unfold get_pair in H.
  apply bind_Some in H as ([a1 l1] & H1 & H). apply bind_Some in H as ([b1 l2] & H2 & H).
  simplify_eq/=. eauto using get_valid.
Qed.
Next Obligation.
  intros A B ca cb l [a b] l' H. unfold get_pair in H.
  apply bind_Some in H as ([a1 l1] & H1 & H). apply bind_Some in H as ([b1 l2] & H2 & H).
  simplify_eq/=. apply get_suffix in H1 as [p ->]. apply get_suffix in H2 as [q ->].
  exists (p ++ q). by rewrite (assoc_L (++)).
Qed.

(** A struct is the tuple of its fields: [derive(Serialize, Deserialize)]. *)
Program Definition c_struct {A B} (ca : codec A) (build : A → B) (fields : B → A)
    (build_fields : ∀ b, build (fields b) = b) (fields_build : ∀ a, fields (build a) = a) : codec B :=
  Codec (λ b, put ca (fields b)) (λ l, '(a, l) ← get ca l; Some (build a, l))
    (λ b, valid ca (fields b)) _ _ _.
Next Obligation.
  intros A B ca build fields build_fields fields_build b l Hv. simpl. rewrite get_put by done.
  simpl. by rewrite build_fields.
Qed.
Next Obligation.
  intros A B ca build fields build_fields fields_build l b l' H. simpl in H.
  apply bind_Some in H as ([a l1] & H1 & H). simplify_eq/=.
  rewrite fields_build. eauto using get_valid.
Qed.
Next Obligation.
  intros A B ca build fields build_fields fields_build l b l' H. simpl in H.
  apply bind_Some in H as ([a l1] & H1 & H). simplify_eq/=. eauto using get_suffix.
Qed.

(** ** [SeqAccess]

    Postcard hands a visitor at most [remaining] elements, then reports the end of
    the sequence. *)
Record SeqAccess := { remaining : nat; input : list byte }.

(** [SeqAccess::next_element]: [None] is an error, [Some (None, _)] the end. *)
Definition next_element {A} (c : codec A) (s : SeqAccess) : option (option A * SeqAccess) :=
  match remaining s with
  | O => Some (None, s)
  | S n => '(a, l) ← get c (input s); Some (Some a, {| remaining := n; input := l |})
  end.

(** A visitor's computation, threading the access. *)
Definition visit (A : Type) : Type := SeqAccess → option (A * SeqAccess).

#[global] Instance visit_ret : MRet visit := λ A a s, Some (a, s).
#[global] Instance visit_bind : MBind visit := λ A B f m s,
  match m s with Some (a, s) => f a s | None => None end.
Definition visit_fail {A} : visit A := λ _, None.

(** [fn required]: a missing element is an error. *)
Definition required {A} (c : codec A) : visit A := λ s,
  '(o, s) ← next_element c s;
  match o with Some a => Some (a, s) | None => None end.

(** [Deserializer::deserialize_tuple(n, visitor)]. *)
Definition deserialize_tuple {A} (n : nat) (v : visit A) (l : list byte) : option (A * list byte) :=
  '(a, s) ← v {| remaining := n; input := l |}; Some (a, input s).

(** [fn serialize_tagged]: a tuple of the tag and the tuple of the fields. *)
Definition serialize_tagged (tag : Z) (fields : list byte) : list byte := z2b tag :: fields.

Section codecs.
Context `{Postcard}.

(** ** Primitive codecs *)

Program Definition c_varint (w : width) : codec Z :=
  Codec (put_varint w) (get_varint w) (λ z, 0 ≤ z ≤ width_max w) _ _ _.
Next Obligation. intros. by apply varint_roundtrip. Qed.
Next Obligation. intros w l z l' Hg. by eapply varint_range. Qed.
Next Obligation. intros w l z l' Hg. by eapply varint_suffix. Qed.

Definition c_u16 : codec Z := c_varint W16.
Definition c_u64 : codec Z := c_varint W64.

Program Definition c_bool : codec bool := Codec put_bool get_bool (λ _, True) _ _ _.
Next Obligation. intros. apply bool_roundtrip. Qed.
Next Obligation. done. Qed.
Next Obligation. intros. by eapply bool_suffix. Qed.

(** [Option<T>]. *)
Definition put_option {A} (c : codec A) (o : option A) : list byte :=
  match o with
  | None => put_option_tag false
  | Some a => put_option_tag true ++ put c a
  end.
Definition get_option {A} (c : codec A) (l : list byte) : option (option A * list byte) :=
  '(b, l) ← get_option_tag l;
  if b : bool then '(a, l) ← get c l; Some (Some a, l) else Some (None, l).

Program Definition c_option {A} (c : codec A) : codec (option A) :=
  Codec (put_option c) (get_option c) (λ o, match o with Some a => valid c a | None => True end) _ _ _.
Next Obligation.
  intros A c [a|] l Hv; unfold put_option, get_option.
  - rewrite <- (assoc_L (++)), option_tag_roundtrip. simpl. by rewrite get_put.
  - rewrite option_tag_roundtrip. done.
Qed.
Next Obligation.
  intros A c l o l' Hg. unfold get_option in Hg.
  apply bind_Some in Hg as ([b l1] & H1 & Hg). destruct b; simplify_eq/=; [|done].
  apply bind_Some in Hg as ([a l2] & H2 & Hg). simplify_eq/=. eauto using get_valid.
Qed.
Next Obligation.
  intros A c l o l' Hg. unfold get_option in Hg.
  apply bind_Some in Hg as ([b l1] & H1 & Hg). apply option_tag_suffix in H1 as [p ->].
  destruct b; simplify_eq/=; [|eauto].
  apply bind_Some in Hg as ([a l2] & H2 & Hg). simplify_eq/=.
  apply get_suffix in H2 as [q ->]. exists (p ++ q). by rewrite (assoc_L (++)).
Qed.

(** ** [bounded_vec]

    The length prefix is the visitor's [size_hint]; the loop checks the limit
    again before each push. *)
Fixpoint bounded_loop {A} (N : Z) (c : codec A) (n : nat) (values : list A) (l : list byte)
    : option (list A * list byte) :=
  match n with
  | O => Some (values, l)
  | S n =>
      '(a, l) ← get c l;
      if decide (len values = N) then None
      else bounded_loop N c n (values ++ [a]) l
  end.

Definition bounded_vec {A} (N : Z) (c : codec A) (l : list byte) : option (list A * list byte) :=
  '(size_hint, l) ← get_varint W64 l;
  if decide (size_hint > N) then None
  else bounded_loop N c (Z.to_nat size_hint) [] l.

(** [Serialize for Vec<T>]: the length, then the elements. *)
Definition put_vec {A} (c : codec A) (v : list A) : list byte :=
  put_varint W64 (len v) ++ (v ≫= put c).

Lemma bounded_loop_put {A} N (c : codec A) v values l :
  Forall (valid c) v → len values + len v ≤ N →
  bounded_loop N c (length v) values ((v ≫= put c) ++ l) = Some (values ++ v, l).
Proof.
  intros Hv. revert values. induction Hv as [|a v Ha Hv IH]; intros values Hlen; simpl.
  - by rewrite app_nil_r.
  - rewrite <- (assoc_L (++)), get_put by done. simpl in *.
    rewrite len_cons in Hlen. pose proof (len_nonneg v).
    rewrite decide_False by lia. rewrite IH by (rewrite len_app; unfold len in *; simpl; lia).
    by rewrite <- (assoc_L (++)).
Qed.

Lemma bounded_loop_inv {A} N (c : codec A) n values l v l' :
  bounded_loop N c n values l = Some (v, l') →
  len values ≤ N → Forall (valid c) values →
  len v ≤ N ∧ Forall (valid c) v ∧ ∃ p, l = p ++ l'.
Proof.
  revert values l. induction n as [|n IH]; intros values l Hl Hn Hv; simplify_eq/=.
  - split_and!; [done..|by exists []].
  - apply bind_Some in Hl as ([a l1] & H1 & Hl). case_decide; simplify_eq/=.
    destruct (IH _ _ Hl) as (? & ? & q & ->).
    + rewrite len_app. unfold len in *. simpl. lia.
    + apply Forall_app. eauto using get_valid.
    + split_and!; [done..|]. apply get_suffix in H1 as [p ->].
      exists (p ++ q). by rewrite (assoc_L (++)).
Qed.

Definition valid_vec {A} (N : Z) (c : codec A) (v : list A) : Prop :=
  len v ≤ N ∧ Forall (valid c) v.

(** A limit above [usize::MAX] would make the length prefix wrap; every limit of
    the protocol is far below. *)
Program Definition c_bounded {A} (N : Z) (HN : Is_true (N <=? u64_max)) (c : codec A)
    : codec (list A) :=
  Codec (put_vec c) (bounded_vec N c) (valid_vec N c) _ _ _.
Next Obligation.
  intros A N HN c v l [Hlen Hv]. unfold put_vec, bounded_vec.
  apply Is_true_true_1 in HN. reflect_bools.
  rewrite <- (assoc_L (++)), varint_roundtrip by (pose proof (len_nonneg v); simpl; lia).
  simpl. rewrite decide_False by lia. unfold len at 1.
  rewrite Nat2Z.id, bounded_loop_put; done.
Qed.
Next Obligation.
  intros A N HN c l v l' Hg. unfold bounded_vec in Hg.
  apply bind_Some in Hg as ([z l1] & H1 & Hg). case_decide; simplify_eq/=.
  apply varint_range in H1.
  apply bounded_loop_inv in Hg as (? & ? & ?); [by split|unfold len; simpl; lia|done].
Qed.
Next Obligation.
  intros A N HN c l v l' Hg. unfold bounded_vec in Hg.
  apply bind_Some in Hg as ([z l1] & H1 & Hg). case_decide; simplify_eq/=.
  pose proof (varint_range _ _ _ _ H1).
  apply bounded_loop_inv in Hg as (? & ? & q & ->); [|unfold len; simpl; lia|done].
  apply varint_suffix in H1 as [p ->]. exists (p ++ q). by rewrite (assoc_L (++)).
Qed.

(** ** Strings

    [String] serializes as its byte length and its UTF-8 bytes; [fn name]
    deserializes a [&str] and refuses more than 400 bytes. *)
Definition put_string (s : str) : list byte := put_varint W64 (str_len s) ++ utf8 s.

Definition get_str (l : list byte) : option (str * list byte) :=
  '(n, l) ← get_varint W64 l;
  if decide (n ≤ len l)
  then s ← from_utf8 (take (Z.to_nat n) l); Some (s, drop (Z.to_nat n) l)
  else None.

Definition get_name (l : list byte) : option (str * list byte) :=
  '(text, l) ← get_str l;
  if decide (str_len text > 400) then None else Some (text, l).

Program Definition c_name : codec str :=
  Codec put_string get_name (λ s, str_len s ≤ 400) _ _ _.
Next Obligation.
  intros s l Hs. unfold put_string, get_name, get_str. simpl in Hs.
  pose proof (str_len_nonneg s).
  rewrite <- (assoc_L (++)), varint_roundtrip by (unfold width_max, u64_max; lia). simpl.
  unfold str_len in *. rewrite decide_True by (rewrite len_app; pose proof (len_nonneg l); lia).
  unfold len in *. rewrite Nat2Z.id, take_app_length, drop_app_length, from_utf8_utf8. simpl.
  rewrite decide_False; [done|]. unfold str_len, len. lia.
Qed.
Next Obligation.
  intros l s l' Hg. unfold get_name in Hg.
  apply bind_Some in Hg as ([t l1] & H1 & Hg). case_decide; simplify_eq/=. lia.
Qed.
Next Obligation.
  intros l s l' Hg. unfold get_name, get_str in Hg.
  apply bind_Some in Hg as ([t l1] & H1 & Hg). case_decide; simplify_eq/=.
  apply bind_Some in H1 as ([n l2] & H2 & H1). case_decide; simplify_eq/=.
  apply bind_Some in H1 as (s' & Hutf & H1). simplify_eq/=.
  apply varint_suffix in H2 as [p ->]. exists (p ++ take (Z.to_nat n) l2).
  by rewrite <- (assoc_L (++)), take_drop.
Qed.

(** ** Sizes *)

Lemma len_put_u64 z : 0 ≤ z ≤ u64_max → 1 ≤ len (put c_u64 z) ≤ 10.
Proof. intros. apply (varint_length W64 z 10); unfold u64_max in *; lia. Qed.

Lemma len_put_i64 z : 0 ≤ z ≤ i64_max → 1 ≤ len (put c_u64 z) ≤ 9.
Proof. intros. apply (varint_length W64 z 9); unfold i64_max in *; lia. Qed.

Lemma len_put_small w z k : 1 ≤ k → 0 ≤ z < 2 ^ (7 * k) → 1 ≤ len (put (c_varint w) z) ≤ k.
Proof. intros. by apply (varint_length w z k). Qed.

Lemma bind_put_u8 (v : list byte) : (v ≫= put c_u8) = v.
Proof. induction v as [|b v IH]; [done|]. rewrite bind_cons, IH. done. Qed.

Lemma len_put_bytes N HN (v : list byte) :
  len (put (c_bounded N HN c_u8) v) = len (put_varint W64 (len v)) + len v.
Proof.
  cbn [put c_bounded]. unfold put_vec. by rewrite len_app, bind_put_u8.
Qed.

End codecs.

(** ** Visitor lemmas *)

(** A visitor of [A] only returns values with [P], and only reads. *)
Definition visit_ok {A} (P : A → Prop) (v : visit A) : Prop :=
  ∀ s a s', v s = Some (a, s') → P a ∧ ∃ p, input s = p ++ input s'.

Lemma visit_ok_ret {A} (P : A → Prop) a : P a → visit_ok P (mret a).
Proof. intros HP s b s' E. injection E as <- <-. split; [done|by exists []]. Qed.

Lemma visit_ok_fail {A} (P : A → Prop) : visit_ok P visit_fail.
Proof. by intros s a s' E. Qed.

Lemma visit_ok_required {A B} (P : B → Prop) (c : codec A) (k : A → visit B) :
  (∀ a, valid c a → visit_ok P (k a)) → visit_ok P (a ← required c; k a).
Proof.
  intros Hk [n l] b s' E. unfold mbind, visit_bind, required, next_element in E. simpl in E.
  destruct n as [|n]; [done|]. destruct (get c l) as [[a l1]|] eqn:Eg; [|done]. simpl in E.
  apply Hk in E as [HP [q Hq]]; [|by eapply get_valid]. split; [done|].
  apply get_suffix in Eg as [p ->]. exists (p ++ q). simpl in *. by rewrite Hq, (assoc_L (++)).
Qed.

(** Reading back what was written. *)
Lemma visit_required {A B} (c : codec A) n a l (k : A → visit B) :
  valid c a →
  (a ← required c; k a) {| remaining := S n; input := put c a ++ l |}
  = k a {| remaining := n; input := l |}.
Proof.
  intros. unfold mbind, visit_bind, required, next_element. simpl.
  by rewrite get_put by done.
Qed.

Lemma visit_tag {B} n b l (k : byte → visit B) :
  (a ← required c_u8; k a) {| remaining := S n; input := b :: l |}
  = k b {| remaining := n; input := l |}.
Proof. done. Qed.

(** Asking for more elements than the tuple has is an error. *)
Lemma visit_exhausted {A B} (c : codec A) l (k : A → visit B) :
  (a ← required c; k a) {| remaining := 0; input := l |} = None.
Proof. done. Qed.

(** The codec of a hand-written tagged enum. *)
Program Definition c_tagged {A} (n : nat) (p : A → list byte) (v : visit A) (P : A → Prop)
    (Hput : ∀ a l, P a → deserialize_tuple n v (p a ++ l) = Some (a, l))
    (Hok : visit_ok P v) : codec A :=
  Codec p (deserialize_tuple n v) P Hput _ _.
Next Obligation.
  intros A n p v P Hput Hok l a l' E. unfold deserialize_tuple in E.
  apply bind_Some in E as ([b s] & E1 & E). simplify_eq/=. by eapply Hok.
Qed.
Next Obligation.
  intros A n p v P Hput Hok l a l' E. unfold deserialize_tuple in E.
  apply bind_Some in E as ([b s] & E1 & E). simplify_eq/=. by eapply Hok in E1 as [_ ?].
Qed.

(** Proves [visit_ok] of a visitor: one goal per arm, closed by the field codecs. *)
Ltac valid_fields := first [eassumption | exact I | split; valid_fields].
Ltac solve_visit_ok :=
  repeat first
    [ apply visit_ok_fail
    | apply visit_ok_required; intros
    | apply visit_ok_ret; valid_fields
    | case_match ].

(** Proves the round trip of one arm of a tagged enum. *)
Ltac solve_visit_put :=
  unfold deserialize_tuple, serialize_tagged; cbn [app];
  rewrite visit_tag, b2z_z2b_small by lia; cbn beta iota;
  rewrite <- ?(assoc_L (++));
  repeat (rewrite visit_required by tauto);
  reflexivity.
