(* ===== verification/PostcardRef.v ===== *)
(** * A reference implementation of the [Postcard] interface

    Little-endian base-128 integers and one-byte tags, as the crate documents its
    wire format. It shows that the laws of [Postcard] can hold, and the byte
    fixtures of the repository are computed with it in [Wire]. *)
From S2P Require Import Prelude Bytes Text Postcard.

Definition varint_bytes (w : width) : nat :=
  match w with W16 => 3 | W32 => 5 | W64 => 10 end.

Fixpoint leb128 (n : nat) (z : Z) : list byte :=
  match n with
  | O => []
  | S n => if z <? 128 then [z2b z] else z2b (128 + z mod 128) :: leb128 n (z / 128)
  end.

Fixpoint unleb128 (n : nat) (l : list byte) : option (Z * list byte) :=
  match n, l with
  | S n, b :: l =>
      if b2z b <? 128 then Some (b2z b, l)
      else '(z, l) ← unleb128 n l; Some (b2z b - 128 + 128 * z, l)
  | _, _ => None
  end.

Definition get_leb128 (w : width) (l : list byte) : option (Z * list byte) :=
  '(z, l) ← unleb128 (varint_bytes w) l;
  if decide (0 ≤ z ≤ width_max w) then Some (z, l) else None.

Definition put_flag (b : bool) : list byte := [if b then x01 else x00].

Definition get_flag (l : list byte) : option (bool * list byte) :=
  match l with
  | x00 :: l => Some (false, l)
  | x01 :: l => Some (true, l)
  | _ => None
  end.

Lemma unleb128_leb128 n z l :
  (1 ≤ n)%nat → 0 ≤ z < 2 ^ (7 * Z.of_nat n) → unleb128 n (leb128 n z ++ l) = Some (z, l).
Proof.
  revert z. induction n as [|n IH]; intros z Hn Hz; [lia|].
  cbn [leb128]. destruct (z <? 128) eqn:E; reflect_bools; cbn [unleb128 app].
  - rewrite b2z_z2b_small by lia. by rewrite (proj2 (Z.ltb_lt z 128)) by lia.
  - rewrite b2z_z2b_small by (pose proof (Z.mod_pos_bound z 128); lia).
    destruct (_ <? _) eqn:E2; reflect_bools; [pose proof (Z.mod_pos_bound z 128); lia|].
    rewrite IH.
    + simpl. do 2 f_equal. Z.div_mod_to_equations; lia.
    + destruct n; [simpl in Hz; lia|lia].
    + rewrite Nat2Z.inj_succ, Z.mul_succ_r, Z.pow_add_r in Hz by lia.
      Z.div_mod_to_equations; lia.
Qed.

Lemma unleb128_suffix n l z l' : unleb128 n l = Some (z, l') → ∃ p, l = p ++ l'.
Proof.
  revert l z. induction n as [|n IH]; intros [|b l] z H; simplify_eq/=.
  case_match; simplify_eq/=; [by eexists [_]|].
  apply bind_Some in H as ([z1 l1] & H1 & H). simplify_eq/=.
  apply IH in H1 as [p ->]. by exists (b :: p).
Qed.

Lemma length_leb128 n z k : (1 ≤ k)%nat → 0 ≤ z < 2 ^ (7 * Z.of_nat k) → (length (leb128 n z) ≤ k)%nat.
Proof.
  revert z k. induction n as [|n IH]; intros z k Hk Hz; simpl; [lia|].
  case_match eqn:E; reflect_bools; simpl; [lia|].
  destruct k as [|[|k]]; [lia|simpl in Hz; lia|]. apply le_n_S, IH; [lia|].
  rewrite (Nat2Z.inj_succ (S k)), Z.mul_succ_r, Z.pow_add_r in Hz by lia.
  Z.div_mod_to_equations; lia.
Qed.

Lemma length_leb128_ge n z k :
  (k < n)%nat → 2 ^ (7 * Z.of_nat k) ≤ z → (k < length (leb128 n z))%nat.
Proof.
  revert z k. induction n as [|n IH]; intros z k Hk Hz; [lia|]. cbn [leb128].
  destruct k as [|k]; [case_match; simpl; lia|].
  rewrite Nat2Z.inj_succ, Z.mul_succ_r, Z.pow_add_r in Hz by lia.
  pose proof (Z.pow_pos_nonneg 2 (7 * Z.of_nat k)).
  destruct (z <? 128) eqn:E; reflect_bools; [lia|]. simpl. apply -> Nat.succ_lt_mono.
  apply IH; [lia|]. Z.div_mod_to_equations; lia.
Qed.

#[global] Program Instance reference_postcard : Postcard := {|
  put_varint w z := leb128 (varint_bytes w) z;
  get_varint := get_leb128;
  put_bool := put_flag; get_bool := get_flag;
  put_option_tag := put_flag; get_option_tag := get_flag;
|}.
Next Obligation.
  intros w z l Hz. unfold get_leb128. rewrite unleb128_leb128; simpl.
  - by rewrite decide_True.
  - destruct w; simpl; lia.
  - destruct w; unfold width_max, u16_max, u32_max, u64_max in Hz; simpl; lia.
Qed.
Next Obligation.
  intros w l z l' H. unfold get_leb128 in H.
  apply bind_Some in H as ([z1 l1] & _ & H). case_decide; by simplify_eq/=.
Qed.
Next Obligation.
  intros w l z l' H. unfold get_leb128 in H.
  apply bind_Some in H as ([z1 l1] & H1 & H). case_decide; simplify_eq/=.
  by eapply unleb128_suffix.
Qed.
Next Obligation.
  intros w z k Hk Hz. unfold len. split.
  - destruct w; simpl; case_match; simpl; lia.
  - assert (length (leb128 (varint_bytes w) z) ≤ Z.to_nat k)%nat; [|lia].
    apply length_leb128; [lia|]. by rewrite Z2Nat.id by lia.
Qed.
Next Obligation.
  intros w z k Hk Hz. unfold len.
  assert (Z.to_nat k < varint_bytes w)%nat.
  { assert (k < Z.of_nat (varint_bytes w)); [|lia].
    apply Z.nle_gt. intros Hle.
    assert (2 ^ (7 * Z.of_nat (varint_bytes w)) ≤ 2 ^ (7 * k)) by (apply Z.pow_le_mono_r; lia).
    destruct w; simpl in *; unfold u16_max, u32_max, u64_max in *; lia. }
  assert (Z.to_nat k < length (leb128 (varint_bytes w) z))%nat; [|lia].
  apply length_leb128_ge; [done|]. rewrite Z2Nat.id by lia. apply Hz.
Qed.
Next Obligation. by intros []. Qed.
Next Obligation. intros [|[] l] b l' H; simplify_eq/=; by eexists [_]. Qed.
Next Obligation. done. Qed.
Next Obligation. by intros []. Qed.
Next Obligation. intros [|[] l] b l' H; simplify_eq/=; by eexists [_]. Qed.
Next Obligation. done. Qed.
