(* ===== verification/Protocol.v ===== *)
(** * The V9 protocol's data

    Constants, identifiers and messages of [grotto-protocol] (src/crates/
    grotto-protocol/src/lib.rs and delivery.rs), one module per Rust type, with the
    source's constructors and fields. *)
From S2P Require Import Prelude Bytes Text.

(** ** Constants *)

Definition MAX_FRAME_SIZE : Z := 1024 * 1024.
Definition MAX_ROOM_NAME_CHARS : Z := 100.
Definition MAX_MESSAGE_BODY_BYTES : Z := 64 * 1024.
Definition MAX_KEY_PACKAGE_BYTES : Z := 16 * 1024.
Definition MAX_KEY_PACKAGES_PER_PUBLISH : Z := 64.
Definition MAX_MLS_BLOB_BYTES : Z := 512 * 1024.
Definition PROTOCOL_VERSION : Z := 9.
Definition MAX_PAYLOAD : Z := 768 * 1024.
Definition PAGE_SIZE : Z := 100.

(** ** Identifiers and fixed-size keys *)

Record UserId := MkUserId { user_bytes : bytes 16 }.
Record RoomId := MkRoomId { room_bytes : bytes 16 }.
Record MessageId := MkMessageId { message_bytes : bytes 16 }.
Record Ed25519PublicKeyBytes := MkPublicKey { public_key_bytes : bytes 32 }.
Record AuthenticationChallenge := MkChallenge { challenge_bytes : bytes 32 }.
Record Ed25519SignatureBytes := MkSignature { signature_bytes : bytes 64 }.

#[global] Instance UserId_eq_dec : EqDecision UserId.
Proof. solve_decision. Defined.
#[global] Instance RoomId_eq_dec : EqDecision RoomId.
Proof. solve_decision. Defined.
#[global] Instance MessageId_eq_dec : EqDecision MessageId.
Proof. solve_decision. Defined.
#[global] Instance Ed25519PublicKeyBytes_eq_dec : EqDecision Ed25519PublicKeyBytes.
Proof. solve_decision. Defined.
#[global] Instance AuthenticationChallenge_eq_dec : EqDecision AuthenticationChallenge.
Proof. solve_decision. Defined.
#[global] Instance Ed25519SignatureBytes_eq_dec : EqDecision Ed25519SignatureBytes.
Proof. solve_decision. Defined.

#[global] Program Instance UserId_countable : Countable UserId :=
  inj_countable' user_bytes MkUserId _.
Next Obligation. by intros []. Qed.
#[global] Program Instance RoomId_countable : Countable RoomId :=
  inj_countable' room_bytes MkRoomId _.
Next Obligation. by intros []. Qed.
#[global] Program Instance MessageId_countable : Countable MessageId :=
  inj_countable' message_bytes MkMessageId _.
Next Obligation. by intros []. Qed.

(** ** Delivery records *)

Module MlsContentType.
Inductive t := Application | Proposal | Commit.
#[global] Instance eq_dec : EqDecision t.
Proof. solve_decision. Defined.
End MlsContentType.

Module WelcomeAttachment.
Record t := Mk {
  recipient : UserId;
  body : list byte;
  signature : Ed25519SignatureBytes;
}.
#[global] Instance eq_dec : EqDecision t.
Proof. solve_decision. Defined.
End WelcomeAttachment.

Module Append.
Record t := Mk {
  room : RoomId;
  parent : Z;
  epoch : Z;
  content_type : MlsContentType.t;
  body : list byte;
  welcome : option WelcomeAttachment.t;
}.
#[global] Instance eq_dec : EqDecision t.
Proof. solve_decision. Defined.
End Append.

Module Event.
Record t := Mk {
  id : MessageId;
  sender : UserId;
  operation : Append.t;
}.
#[global] Instance eq_dec : EqDecision t.
Proof. solve_decision. Defined.
(** [Event::sequence]. *)
Definition sequence (e : t) : option Z := checked_add (Append.parent (operation e)) 1.
End Event.

Module WelcomeDelivery.
Record t := Mk {
  room_name : str;
  cursor : Z;
  event : MessageId;
  room : RoomId;
  sequence : Z;
  inviter : UserId;
  attachment : WelcomeAttachment.t;
}.
#[global] Instance eq_dec : EqDecision t.
Proof. solve_decision. Defined.
End WelcomeDelivery.

Module RoomHead.
Record t := Mk {
  room : RoomId;
  name : str;
  sequence : Z;
}.
#[global] Instance eq_dec : EqDecision t.
Proof. solve_decision. Defined.
End RoomHead.

Module Rejection.
Inductive t :=
| Invalid
| Unauthorized
| NotFound
| RequestConflict
| Overloaded
| Quota
| Internal.
#[global] Instance eq_dec : EqDecision t.
Proof. solve_decision. Defined.
End Rejection.

Module Request.
Inductive t :=
| CreateRoom (name : str)
| PublishKeyPackages (packages : list (list byte))
| Acknowledge (events : list MessageId) (welcomes : list Z)
| AppendRoomOperation (operation : Append.t)
| FetchRoomEvents (room : RoomId) (after_sequence : Z)
| SyncIndex (after_room : option RoomId)
| FetchWelcomes (after_cursor : Z)
| ReserveKeyPackage (recipient : UserId)
| SetFetchGrant (requester : UserId) (allowed : bool).
#[global] Instance eq_dec : EqDecision t.
Proof. solve_decision. Defined.
End Request.

Module Response.
Inductive t :=
| RoomCreated (room : RoomId)
| KeyPackagesPublished (count : Z)
| Acknowledged
| AppendAccepted (event : Event.t)
| HeadConflict (room : RoomId) (head : Z)
| RoomEvents (room : RoomId) (after_sequence : Z) (events : list Event.t) (more : bool)
| SyncIndex (rooms : list RoomHead.t) (more : bool)
| Welcomes (after_cursor : Z) (welcomes : list WelcomeDelivery.t) (more : bool)
| KeyPackage (recipient : UserId) (package : list byte)
| FetchGrantSet
| Rejected (reason : Rejection.t).
#[global] Instance eq_dec : EqDecision t.
Proof. solve_decision. Defined.
End Response.

(** ** Session messages *)

Module ClientMessageKind.
Inductive t := ClientHello | ClientIdentify | ClientAuthenticationResponse | Delivery.
#[global] Instance eq_dec : EqDecision t.
Proof. solve_decision. Defined.
End ClientMessageKind.

Module ProtocolError.
Inductive t :=
| UnsupportedVersion (supported received : Z)
| UnexpectedMessage (expected received : ClientMessageKind.t)
| InvalidPublicKey
| IdentityKeyConflict
| AuthenticationFailed.
#[global] Instance eq_dec : EqDecision t.
Proof. solve_decision. Defined.
End ProtocolError.

Module ClientMessage.
Inductive t :=
| ClientHello (version : Z)
| ClientIdentify (user_id : UserId) (public_key : Ed25519PublicKeyBytes)
    (enrollment : option (bytes 32))
| ClientAuthenticationResponse (signature : Ed25519SignatureBytes)
| Delivery (request_id : MessageId) (request : Request.t).

(** [ClientMessage::kind]. *)
Definition kind (m : t) : ClientMessageKind.t :=
  match m with
  | ClientHello _ => ClientMessageKind.ClientHello
  | ClientIdentify _ _ _ => ClientMessageKind.ClientIdentify
  | ClientAuthenticationResponse _ => ClientMessageKind.ClientAuthenticationResponse
  | Delivery _ _ => ClientMessageKind.Delivery
  end.
End ClientMessage.

Module RelayMessage.
Inductive t :=
| ServerHello (version : Z)
| ServerIdentifyAccepted (user_id : UserId)
| ServerAuthenticationChallenge (challenge : AuthenticationChallenge)
| ProtocolError (request_id : option MessageId) (error : ProtocolError.t)
| Delivery (request_id : MessageId) (response : Response.t)
| DeliveryChanged.

(** [request_id_of]: the request a relay message answers. *)
Definition request_id_of (m : t) : option MessageId :=
  match m with
  | Delivery request_id _ => Some request_id
  | ProtocolError request_id _ => request_id
  | _ => None
  end.
End RelayMessage.

(** ** Room names *)

Module RoomNameError.
Inductive t := Empty | TooLong | ControlCharacter.
#[global] Instance eq_dec : EqDecision t.
Proof. solve_decision. Defined.
End RoomNameError.

(** [normalize_room_name]. *)
Definition normalize_room_name (name : str) : result RoomNameError.t str :=
  let normalized := trim name in
  if decide (normalized = []) then Err RoomNameError.Empty
  else if decide (len normalized > MAX_ROOM_NAME_CHARS) then Err RoomNameError.TooLong
  else if existsb is_control normalized then Err RoomNameError.ControlCharacter
  else Ok normalized.
