(* ===== verification/Wire.v ===== *)
(** * The V9 wire format

    The [Serialize] and [Deserialize] implementations of every protocol type and
    [encode_message]/[decode_message] (src/crates/grotto-protocol/src/lib.rs and
    delivery.rs), over the [Postcard] interface. *)
From S2P Require Import Prelude Bytes Text Postcard PostcardRef Protocol.

(** A struct and the tuple of its fields determine each other. *)
Ltac solve_fields :=
  let x := fresh in intros x;
  repeat match goal with p : (_ * _)%type |- _ => destruct p end;
  try destruct x; reflexivity.

#[local] Obligation Tactic := solve_fields.

Section wire.
Context `{Postcard}.

(** ** Derived codecs *)

Program Definition c_user_id : codec UserId := c_struct (c_array 16) MkUserId user_bytes _ _.
Program Definition c_room_id : codec RoomId := c_struct (c_array 16) MkRoomId room_bytes _ _.
Program Definition c_message_id : codec MessageId :=
  c_struct (c_array 16) MkMessageId message_bytes _ _.
Program Definition c_public_key : codec Ed25519PublicKeyBytes :=
  c_struct (c_array 32) MkPublicKey public_key_bytes _ _.
Program Definition c_challenge : codec AuthenticationChallenge :=
  c_struct (c_array 32) MkChallenge challenge_bytes _ _.
Program Definition c_signature : codec Ed25519SignatureBytes :=
  c_struct (c_array 64) MkSignature signature_bytes _ _.

(** The visitors [body], [package], [packages], [ids] and [cursors]. *)
Definition c_body : codec (list byte) := c_bounded (512 * 1024) I c_u8.
Definition c_package : codec (list byte) := c_bounded (16 * 1024) I c_u8.
Definition c_packages : codec (list (list byte)) := c_bounded 64 I c_package.
Definition c_ids : codec (list MessageId) := c_bounded 100 I c_message_id.
Definition c_cursors : codec (list Z) := c_bounded 100 I c_u64.

(** [derive] on a unit-only enum: the variant index. *)
Definition put_content_type (t : MlsContentType.t) : list byte :=
  put_varint W32 (match t with
    | MlsContentType.Application => 0
    | MlsContentType.Proposal => 1
    | MlsContentType.Commit => 2
    end).
Definition get_content_type (l : list byte) : option (MlsContentType.t * list byte) :=
  '(i, l) ← get_varint W32 l;
  match i with
  | 0 => Some (MlsContentType.Application, l)
  | 1 => Some (MlsContentType.Proposal, l)
  | 2 => Some (MlsContentType.Commit, l)
  | _ => None
  end.

Lemma get_put_content_type t l : True → get_content_type (put_content_type t ++ l) = Some (t, l).
Proof.
  intros _. unfold get_content_type, put_content_type.
  destruct t; rewrite varint_roundtrip by (simpl; unfold u32_max; lia); done.
Qed.

Lemma get_content_type_suffix l t l' : get_content_type l = Some (t, l') → ∃ p, l = p ++ l'.
Proof.
  unfold get_content_type. intros Hg. apply bind_Some in Hg as ([i l1] & H1 & Hg).
  apply varint_suffix in H1 as [p ->]. exists p. by case_matches.
Qed.

Definition c_content_type : codec MlsContentType.t :=
  Codec put_content_type get_content_type (λ _, True) get_put_content_type
    (λ _ _ _ _, I) get_content_type_suffix.

Program Definition c_welcome_attachment : codec WelcomeAttachment.t :=
  c_struct
    (c_pair (c_pair c_user_id c_body) c_signature)
    (λ '(recipient, body, signature), WelcomeAttachment.Mk recipient body signature)
    (λ w, (WelcomeAttachment.recipient w, WelcomeAttachment.body w,
           WelcomeAttachment.signature w)) _ _.

Program Definition c_append : codec Append.t :=
  c_struct
    (c_pair (c_pair (c_pair (c_pair (c_pair c_room_id c_u64) c_u64) c_content_type) c_body)
       (c_option c_welcome_attachment))
    (λ '(room, parent, epoch, content_type, body, welcome),
              Append.Mk room parent epoch content_type body welcome)
    (λ a, (Append.room a, Append.parent a, Append.epoch a, Append.content_type a,
           Append.body a, Append.welcome a)) _ _.

Program Definition c_event : codec Event.t :=
  c_struct
    (c_pair (c_pair c_message_id c_user_id) c_append)
    (λ '(id, sender, operation), Event.Mk id sender operation)
    (λ e, (Event.id e, Event.sender e, Event.operation e)) _ _.

Program Definition c_welcome_delivery : codec WelcomeDelivery.t :=
  c_struct
    (c_pair (c_pair (c_pair (c_pair (c_pair (c_pair c_name c_u64) c_message_id) c_room_id)
       c_u64) c_user_id) c_welcome_attachment)
    (λ '(room_name, cursor, event, room, sequence, inviter, attachment),
              WelcomeDelivery.Mk room_name cursor event room sequence inviter attachment)
    (λ w, (WelcomeDelivery.room_name w, WelcomeDelivery.cursor w, WelcomeDelivery.event w,
           WelcomeDelivery.room w, WelcomeDelivery.sequence w, WelcomeDelivery.inviter w,
           WelcomeDelivery.attachment w)) _ _.

Program Definition c_room_head : codec RoomHead.t :=
  c_struct
    (c_pair (c_pair c_room_id c_name) c_u64)
    (λ '(room, name, sequence), RoomHead.Mk room name sequence)
    (λ h, (RoomHead.room h, RoomHead.name h, RoomHead.sequence h)) _ _.

(** The visitors [events], [rooms] and [welcomes]. *)
Definition c_events : codec (list Event.t) := c_bounded 100 I c_event.
Definition c_rooms : codec (list RoomHead.t) := c_bounded 100 I c_room_head.
Definition c_welcomes : codec (list WelcomeDelivery.t) := c_bounded 100 I c_welcome_delivery.

(** ** Hand-written enums: one byte, or a tag and its fields *)

Definition rejection_tag (r : Rejection.t) : Z :=
  match r with
  | Rejection.Invalid => 0
  | Rejection.Unauthorized => 1
  | Rejection.NotFound => 2
  | Rejection.RequestConflict => 3
  | Rejection.Overloaded => 4
  | Rejection.Quota => 5
  | Rejection.Internal => 6
  end.
Definition put_rejection (r : Rejection.t) : list byte := [z2b (rejection_tag r)].
Definition get_rejection (l : list byte) : option (Rejection.t * list byte) :=
  '(tag, l) ← get_u8 l;
  match b2z tag with
  | 0 => Some (Rejection.Invalid, l)
  | 1 => Some (Rejection.Unauthorized, l)
  | 2 => Some (Rejection.NotFound, l)
  | 3 => Some (Rejection.RequestConflict, l)
  | 4 => Some (Rejection.Overloaded, l)
  | 5 => Some (Rejection.Quota, l)
  | 6 => Some (Rejection.Internal, l)
  | _ => None
  end.

Definition kind_tag (k : ClientMessageKind.t) : Z :=
  match k with
  | ClientMessageKind.ClientHello => 1
  | ClientMessageKind.ClientIdentify => 102
  | ClientMessageKind.ClientAuthenticationResponse => 3
  | ClientMessageKind.Delivery => 100
  end.
Definition put_kind (k : ClientMessageKind.t) : list byte := [z2b (kind_tag k)].
Definition get_kind (l : list byte) : option (ClientMessageKind.t * list byte) :=
  '(tag, l) ← get_u8 l;
  match b2z tag with
  | 1 => Some (ClientMessageKind.ClientHello, l)
  | 102 => Some (ClientMessageKind.ClientIdentify, l)
  | 3 => Some (ClientMessageKind.ClientAuthenticationResponse, l)
  | 100 => Some (ClientMessageKind.Delivery, l)
  | _ => None
  end.

Lemma get_put_rejection r l : True → get_rejection (put_rejection r ++ l) = Some (r, l).
Proof. by destruct r. Qed.
Lemma get_rejection_suffix l r l' : get_rejection l = Some (r, l') → ∃ p, l = p ++ l'.
Proof.
  unfold get_rejection. destruct l as [|b l]; intros Hg; simplify_eq/=.
  exists [b]. by case_matches.
Qed.
Definition c_rejection : codec Rejection.t :=
  Codec put_rejection get_rejection (λ _, True) get_put_rejection (λ _ _ _ _, I)
    get_rejection_suffix.

Lemma get_put_kind k l : True → get_kind (put_kind k ++ l) = Some (k, l).
Proof. by destruct k. Qed.
Lemma get_kind_suffix l r l' : get_kind l = Some (r, l') → ∃ p, l = p ++ l'.
Proof.
  unfold get_kind. destruct l as [|b l]; intros Hg; simplify_eq/=.
  exists [b]. by case_matches.
Qed.
Definition c_kind : codec ClientMessageKind.t :=
  Codec put_kind get_kind (λ _, True) get_put_kind (λ _ _ _ _, I) get_kind_suffix.

(** [RoomNameError] has a serialization too, though no message carries one. *)
Definition room_name_error_tag (e : RoomNameError.t) : Z :=
  match e with RoomNameError.Empty => 1 | RoomNameError.TooLong => 2 | RoomNameError.ControlCharacter => 3 end.
Definition put_room_name_error (e : RoomNameError.t) : list byte := [z2b (room_name_error_tag e)].
Definition get_room_name_error (l : list byte) : option (RoomNameError.t * list byte) :=
  '(tag, l) ← get_u8 l;
  match b2z tag with
  | 1 => Some (RoomNameError.Empty, l)
  | 2 => Some (RoomNameError.TooLong, l)
  | 3 => Some (RoomNameError.ControlCharacter, l)
  | _ => None
  end.
Lemma get_put_room_name_error e l : True → get_room_name_error (put_room_name_error e ++ l) = Some (e, l).
Proof. by destruct e. Qed.
Lemma get_room_name_error_suffix l e l' : get_room_name_error l = Some (e, l') → ∃ p, l = p ++ l'.
Proof.
  unfold get_room_name_error. destruct l as [|b l]; intros Hg; simplify_eq/=.
  exists [b]. by case_matches.
Qed.
Definition c_room_name_error : codec RoomNameError.t :=
  Codec put_room_name_error get_room_name_error (λ _, True) get_put_room_name_error (λ _ _ _ _, I)
    get_room_name_error_suffix.

(** *** [delivery::Request] *)

Definition put_request (r : Request.t) : list byte :=
  match r with
  | Request.CreateRoom name => serialize_tagged 0 (put_string name)
  | Request.PublishKeyPackages packages => serialize_tagged 1 (put c_packages packages)
  | Request.Acknowledge events welcomes =>
      serialize_tagged 2 (put c_ids events ++ put c_cursors welcomes)
  | Request.AppendRoomOperation operation => serialize_tagged 3 (put c_append operation)
  | Request.FetchRoomEvents room after_sequence =>
      serialize_tagged 4 (put c_room_id room ++ put c_u64 after_sequence)
  | Request.SyncIndex after_room => serialize_tagged 5 (put (c_option c_room_id) after_room)
  | Request.FetchWelcomes after_cursor => serialize_tagged 6 (put c_u64 after_cursor)
  | Request.ReserveKeyPackage recipient => serialize_tagged 7 (put c_user_id recipient)
  | Request.SetFetchGrant requester allowed =>
      serialize_tagged 8 (put c_user_id requester ++ put c_bool allowed)
  end.

Definition visit_request : visit Request.t :=
  tag ← required c_u8;
  match b2z tag with
  | 0 => name ← required c_name; mret (Request.CreateRoom name)
  | 1 => packages ← required c_packages; mret (Request.PublishKeyPackages packages)
  | 2 => events ← required c_ids; welcomes ← required c_cursors;
         mret (Request.Acknowledge events welcomes)
  | 3 => operation ← required c_append; mret (Request.AppendRoomOperation operation)
  | 4 => room ← required c_room_id; after_sequence ← required c_u64;
         mret (Request.FetchRoomEvents room after_sequence)
  | 5 => after_room ← required (c_option c_room_id); mret (Request.SyncIndex after_room)
  | 6 => after_cursor ← required c_u64; mret (Request.FetchWelcomes after_cursor)
  | 7 => recipient ← required c_user_id; mret (Request.ReserveKeyPackage recipient)
  | 8 => requester ← required c_user_id; allowed ← required c_bool;
         mret (Request.SetFetchGrant requester allowed)
  | _ => visit_fail
  end.

(** The requests the deserializer can produce. *)
Definition valid_request (r : Request.t) : Prop :=
  match r with
  | Request.CreateRoom name => valid c_name name
  | Request.PublishKeyPackages packages => valid c_packages packages
  | Request.Acknowledge events welcomes => valid c_ids events ∧ valid c_cursors welcomes
  | Request.AppendRoomOperation operation => valid c_append operation
  | Request.FetchRoomEvents room after_sequence =>
      valid c_room_id room ∧ valid c_u64 after_sequence
  | Request.SyncIndex after_room => valid (c_option c_room_id) after_room
  | Request.FetchWelcomes after_cursor => valid c_u64 after_cursor
  | Request.ReserveKeyPackage recipient => valid c_user_id recipient
  | Request.SetFetchGrant requester allowed => valid c_user_id requester ∧ valid c_bool allowed
  end.

Lemma get_put_request r l :
  valid_request r → deserialize_tuple 3 visit_request (put_request r ++ l) = Some (r, l).
Proof.
  intros Hv. unfold visit_request. destruct r; cbn [put_request valid_request] in *;
    [change (put_string name) with (put c_name name)|..]; solve_visit_put.
Qed.

Lemma visit_request_ok : visit_ok valid_request visit_request.
Proof. unfold visit_request. solve_visit_ok. Qed.

Definition c_request : codec Request.t :=
  c_tagged 3 put_request visit_request valid_request get_put_request visit_request_ok.

(** *** [delivery::Response] *)

Definition put_response (r : Response.t) : list byte :=
  match r with
  | Response.RoomCreated room => serialize_tagged 0 (put c_room_id room)
  | Response.KeyPackagesPublished count => serialize_tagged 1 (put c_u64 count)
  | Response.Acknowledged => serialize_tagged 2 []
  | Response.AppendAccepted event => serialize_tagged 3 (put c_event event)
  | Response.HeadConflict room head => serialize_tagged 4 (put c_room_id room ++ put c_u64 head)
  | Response.RoomEvents room after_sequence events more =>
      serialize_tagged 5 (put c_room_id room ++ put c_u64 after_sequence ++ put c_events events
                          ++ put c_bool more)
  | Response.SyncIndex rooms more => serialize_tagged 6 (put c_rooms rooms ++ put c_bool more)
  | Response.Welcomes after_cursor welcomes more =>
      serialize_tagged 7 (put c_u64 after_cursor ++ put c_welcomes welcomes ++ put c_bool more)
  | Response.KeyPackage recipient package =>
      serialize_tagged 8 (put c_user_id recipient ++ put c_package package)
  | Response.FetchGrantSet => serialize_tagged 9 []
  | Response.Rejected reason => serialize_tagged 10 (put c_rejection reason)
  end.

Definition visit_response : visit Response.t :=
  tag ← required c_u8;
  match b2z tag with
  | 0 => room ← required c_room_id; mret (Response.RoomCreated room)
  | 1 => count ← required c_u64; mret (Response.KeyPackagesPublished count)
  | 2 => mret Response.Acknowledged
  | 3 => event ← required c_event; mret (Response.AppendAccepted event)
  | 4 => room ← required c_room_id; head ← required c_u64; mret (Response.HeadConflict room head)
  | 5 => room ← required c_room_id; after_sequence ← required c_u64;
         events ← required c_events; more ← required c_bool;
         mret (Response.RoomEvents room after_sequence events more)
  | 6 => rooms ← required c_rooms; more ← required c_bool; mret (Response.SyncIndex rooms more)
  | 7 => after_cursor ← required c_u64; welcomes ← required c_welcomes;
         more ← required c_bool; mret (Response.Welcomes after_cursor welcomes more)
  | 8 => recipient ← required c_user_id; package ← required c_package;
         mret (Response.KeyPackage recipient package)
  | 9 => mret Response.FetchGrantSet
  | 10 => reason ← required c_rejection; mret (Response.Rejected reason)
  | _ => visit_fail
  end.

(** The responses the deserializer can produce. *)
Definition valid_response (r : Response.t) : Prop :=
  match r with
  | Response.RoomCreated room => valid c_room_id room
  | Response.KeyPackagesPublished count => valid c_u64 count
  | Response.Acknowledged | Response.FetchGrantSet => True
  | Response.AppendAccepted event => valid c_event event
  | Response.HeadConflict room head => valid c_room_id room ∧ valid c_u64 head
  | Response.RoomEvents room after_sequence events more =>
      valid c_room_id room ∧ valid c_u64 after_sequence ∧ valid c_events events ∧ valid c_bool more
  | Response.SyncIndex rooms more => valid c_rooms rooms ∧ valid c_bool more
  | Response.Welcomes after_cursor welcomes more =>
      valid c_u64 after_cursor ∧ valid c_welcomes welcomes ∧ valid c_bool more
  | Response.KeyPackage recipient package => valid c_user_id recipient ∧ valid c_package package
  | Response.Rejected reason => valid c_rejection reason
  end.

Lemma get_put_response r l :
  valid_response r → deserialize_tuple 5 visit_response (put_response r ++ l) = Some (r, l).
Proof.
  intros Hv. unfold visit_response.
  destruct r; cbn [put_response valid_response] in *; solve_visit_put.
Qed.

Lemma visit_response_ok : visit_ok valid_response visit_response.
Proof. unfold visit_response. solve_visit_ok. Qed.

Definition c_response : codec Response.t :=
  c_tagged 5 put_response visit_response valid_response get_put_response visit_response_ok.

(** *** [ProtocolError] *)

Definition put_protocol_error (e : ProtocolError.t) : list byte :=
  match e with
  | ProtocolError.UnsupportedVersion supported received =>
      serialize_tagged 1 (put c_u16 supported ++ put c_u16 received)
  | ProtocolError.UnexpectedMessage expected received =>
      serialize_tagged 2 (put c_kind expected ++ put c_kind received)
  | ProtocolError.InvalidPublicKey => serialize_tagged 3 []
  | ProtocolError.IdentityKeyConflict => serialize_tagged 4 []
  | ProtocolError.AuthenticationFailed => serialize_tagged 5 []
  end.

Definition visit_protocol_error : visit ProtocolError.t :=
  tag ← required c_u8;
  match b2z tag with
  | 1 => supported ← required c_u16; received ← required c_u16;
         mret (ProtocolError.UnsupportedVersion supported received)
  | 2 => expected ← required c_kind; received ← required c_kind;
         mret (ProtocolError.UnexpectedMessage expected received)
  | 3 => mret ProtocolError.InvalidPublicKey
  | 4 => mret ProtocolError.IdentityKeyConflict
  | 5 => mret ProtocolError.AuthenticationFailed
  | _ => visit_fail
  end.

Definition valid_protocol_error (e : ProtocolError.t) : Prop :=
  match e with
  | ProtocolError.UnsupportedVersion supported received =>
      valid c_u16 supported ∧ valid c_u16 received
  | ProtocolError.UnexpectedMessage expected received =>
      valid c_kind expected ∧ valid c_kind received
  | _ => True
  end.

Lemma get_put_protocol_error e l :
  valid_protocol_error e →
  deserialize_tuple 3 visit_protocol_error (put_protocol_error e ++ l) = Some (e, l).
Proof.
  intros Hv. unfold visit_protocol_error.
  destruct e; cbn [put_protocol_error valid_protocol_error] in *; solve_visit_put.
Qed.

Lemma visit_protocol_error_ok : visit_ok valid_protocol_error visit_protocol_error.
Proof. unfold visit_protocol_error. solve_visit_ok. Qed.

Definition c_protocol_error : codec ProtocolError.t :=
  c_tagged 3 put_protocol_error visit_protocol_error valid_protocol_error
    get_put_protocol_error visit_protocol_error_ok.

(** *** [ClientMessage] *)

Definition put_client_message (m : ClientMessage.t) : list byte :=
  match m with
  | ClientMessage.ClientHello version => serialize_tagged 1 (put c_u16 version)
  | ClientMessage.ClientIdentify user_id public_key enrollment =>
      serialize_tagged 102 (put c_user_id user_id ++ put c_public_key public_key
                            ++ put (c_option (c_array 32)) enrollment)
  | ClientMessage.ClientAuthenticationResponse signature =>
      serialize_tagged 3 (put c_signature signature)
  | ClientMessage.Delivery request_id request =>
      serialize_tagged 100 (put c_message_id request_id ++ put c_request request)
  end.

Definition visit_client_message : visit ClientMessage.t :=
  tag ← required c_u8;
  match b2z tag with
  | 1 => version ← required c_u16; mret (ClientMessage.ClientHello version)
  | 102 => user_id ← required c_user_id; public_key ← required c_public_key;
           enrollment ← required (c_option (c_array 32));
           mret (ClientMessage.ClientIdentify user_id public_key enrollment)
  | 3 => signature ← required c_signature;
         mret (ClientMessage.ClientAuthenticationResponse signature)
  | 100 => request_id ← required c_message_id; request ← required c_request;
           mret (ClientMessage.Delivery request_id request)
  | _ => visit_fail
  end.

Definition valid_client_message (m : ClientMessage.t) : Prop :=
  match m with
  | ClientMessage.ClientHello version => valid c_u16 version
  | ClientMessage.ClientIdentify user_id public_key enrollment =>
      valid c_user_id user_id ∧ valid c_public_key public_key
      ∧ valid (c_option (c_array 32)) enrollment
  | ClientMessage.ClientAuthenticationResponse signature => valid c_signature signature
  | ClientMessage.Delivery request_id request =>
      valid c_message_id request_id ∧ valid c_request request
  end.

Lemma get_put_client_message m l :
  valid_client_message m →
  deserialize_tuple 4 visit_client_message (put_client_message m ++ l) = Some (m, l).
Proof.
  intros Hv. unfold visit_client_message.
  destruct m; cbn [put_client_message valid_client_message] in *; solve_visit_put.
Qed.

Lemma visit_client_message_ok : visit_ok valid_client_message visit_client_message.
Proof. unfold visit_client_message. solve_visit_ok. Qed.

Definition c_client_message : codec ClientMessage.t :=
  c_tagged 4 put_client_message visit_client_message valid_client_message
    get_put_client_message visit_client_message_ok.

(** *** [RelayMessage] *)

Definition put_relay_message (m : RelayMessage.t) : list byte :=
  match m with
  | RelayMessage.ServerHello version => serialize_tagged 1 (put c_u16 version)
  | RelayMessage.ServerIdentifyAccepted user_id => serialize_tagged 2 (put c_user_id user_id)
  | RelayMessage.ServerAuthenticationChallenge challenge =>
      serialize_tagged 3 (put c_challenge challenge)
  | RelayMessage.ProtocolError request_id error =>
      serialize_tagged 4 (put (c_option c_message_id) request_id ++ put c_protocol_error error)
  | RelayMessage.Delivery request_id response =>
      serialize_tagged 100 (put c_message_id request_id ++ put c_response response)
  | RelayMessage.DeliveryChanged => serialize_tagged 101 []
  end.

Definition visit_relay_message : visit RelayMessage.t :=
  tag ← required c_u8;
  match b2z tag with
  | 1 => version ← required c_u16; mret (RelayMessage.ServerHello version)
  | 2 => user_id ← required c_user_id; mret (RelayMessage.ServerIdentifyAccepted user_id)
  | 3 => challenge ← required c_challenge;
         mret (RelayMessage.ServerAuthenticationChallenge challenge)
  | 4 => request_id ← required (c_option c_message_id); error ← required c_protocol_error;
         mret (RelayMessage.ProtocolError request_id error)
  | 100 => request_id ← required c_message_id; response ← required c_response;
           mret (RelayMessage.Delivery request_id response)
  | 101 => mret RelayMessage.DeliveryChanged
  | _ => visit_fail
  end.

Definition valid_relay_message (m : RelayMessage.t) : Prop :=
  match m with
  | RelayMessage.ServerHello version => valid c_u16 version
  | RelayMessage.ServerIdentifyAccepted user_id => valid c_user_id user_id
  | RelayMessage.ServerAuthenticationChallenge challenge => valid c_challenge challenge
  | RelayMessage.ProtocolError request_id error =>
      valid (c_option c_message_id) request_id ∧ valid c_protocol_error error
  | RelayMessage.Delivery request_id response =>
      valid c_message_id request_id ∧ valid c_response response
  | RelayMessage.DeliveryChanged => True
  end.

Lemma get_put_relay_message m l :
  valid_relay_message m →
  deserialize_tuple 4 visit_relay_message (put_relay_message m ++ l) = Some (m, l).
Proof.
  intros Hv. unfold visit_relay_message.
  destruct m; cbn [put_relay_message valid_relay_message] in *; solve_visit_put.
Qed.

Lemma visit_relay_message_ok : visit_ok valid_relay_message visit_relay_message.
Proof. unfold visit_relay_message. solve_visit_ok. Qed.

Definition c_relay_message : codec RelayMessage.t :=
  c_tagged 4 put_relay_message visit_relay_message valid_relay_message
    get_put_relay_message visit_relay_message_ok.

(** ** [encode_message] and [decode_message] *)

Inductive EncodeError := SerializeBufferFull.

(** [postcard::experimental::serialized_size]: the number of bytes the serializer
    produces. *)
Definition serialized_size {A} (c : codec A) (message : A) : Z := len (put c message).

Definition encode_message {A} (c : codec A) (message : A) : result EncodeError (list byte) :=
  let size := serialized_size c message in
  if decide (size > MAX_PAYLOAD) then Err SerializeBufferFull
  else Ok (put c message).

Inductive DecodeMessageError := PayloadLimit | PostcardError | TrailingBytes.

Definition decode_message {A} (c : codec A) (l : list byte) : result DecodeMessageError A :=
  if decide (len l > MAX_PAYLOAD) then Err PayloadLimit
  else match get c l with
       | None => Err PostcardError
       | Some (message, rest) =>
           if decide (rest ≠ []) then Err TrailingBytes else Ok message
       end.

(** ** Lemmas *)

Lemma encode_message_Ok {A} (c : codec A) m l :
  encode_message c m = Ok l ↔ l = put c m ∧ len l ≤ MAX_PAYLOAD.
Proof.
  unfold encode_message, serialized_size. case_decide; split; intros E; simplify_eq.
  - destruct E; subst; lia.
  - split; [done|lia].
  - by destruct E as [-> _].
Qed.

Lemma encode_message_fits {A} (c : codec A) m :
  len (put c m) ≤ MAX_PAYLOAD → encode_message c m = Ok (put c m).
Proof. intros. by apply encode_message_Ok. Qed.

(** What one side encodes, the other decodes to the same message. *)
Lemma decode_encode_message {A} (c : codec A) m l :
  valid c m → encode_message c m = Ok l → decode_message c l = Ok m.
Proof.
  intros Hv [-> Hl]%encode_message_Ok. unfold decode_message.
  rewrite decide_False by lia. rewrite <- (app_nil_r (put c m)), get_put by done. done.
Qed.

Lemma decode_message_Ok {A} (c : codec A) l m :
  decode_message c l = Ok m → valid c m ∧ len l ≤ MAX_PAYLOAD ∧ get c l = Some (m, []).
Proof.
  unfold decode_message. case_decide; [done|].
  destruct (get c l) as [[m' r]|] eqn:E; [|done]. case_decide as Hr; [done|].
  intros [= ->]. subst r. split_and!; [by eapply get_valid|lia|done].
Qed.

(** A payload that continues after a message is refused. *)
Lemma decode_message_trailing {A} (c : codec A) m l :
  valid c m → l ≠ [] → len (put c m ++ l) ≤ MAX_PAYLOAD →
  decode_message c (put c m ++ l) = Err TrailingBytes.
Proof.
  intros Hv Hl Hlen. unfold decode_message. rewrite decide_False by lia.
  rewrite get_put by done. by rewrite decide_True.
Qed.

End wire.

(** ** Tags *)

Definition client_tags : list Z := [1; 102; 3; 100].
Definition relay_tags : list Z := [1; 2; 3; 4; 100; 101].

(** Runs a visitor on a tag that is none of the listed ones. *)
Ltac solve_reserved_tag :=
  unfold c_client_message, c_relay_message, c_tagged; cbn [get];
  unfold deserialize_tuple, visit_client_message, visit_relay_message;
  rewrite visit_tag;
  repeat match goal with
  | Ht : ?z ∉ _ |- context [ match ?z with _ => _ end ] => destruct z
  | |- context [ match ?p with _ => _ end ] => is_var p; destruct p
  end; first [reflexivity | exfalso; set_solver].

Lemma get_client_message_tag `{Postcard} tag l :
  b2z tag ∉ client_tags → get c_client_message (tag :: l) = None.
Proof. unfold client_tags. intros Ht. solve_reserved_tag. Qed.

Lemma get_relay_message_tag `{Postcard} tag l :
  b2z tag ∉ relay_tags → get c_relay_message (tag :: l) = None.
Proof. unfold relay_tags. intros Ht. solve_reserved_tag. Qed.
