(* ===== verification/Framing.v ===== *)
(** * Length-prefixed frames

    [read_frame] and [write_frame] (src/crates/grotto-protocol/src/lib.rs). A reader is
    the script of what its [read] calls meet: data that arrives in chunks of any
    size, interruptions, failures, and the end of the stream. A writer is the bytes
    it took and, when it fails, how many more it takes before that. *)
From S2P Require Import Prelude Bytes Protocol.

(** [io::ErrorKind], the kinds the program names. *)
Inductive ErrorKind :=
| UnexpectedEof | InvalidData | InvalidInput | Interrupted | TimedOut
| AlreadyExists | WouldBlock | BrokenPipe | PermissionDenied | NotFound
| ConnectionReset | ConnectionRefused | ConnectionAborted | NotConnected | OtherKind.

#[global] Instance ErrorKind_eq_dec : EqDecision ErrorKind.
Proof. solve_decision. Defined.

(** ** Readers *)

Inductive ReadEvent :=
| Chunk (b : byte) (l : list byte)
| Failure (k : ErrorKind).

Definition stream := list ReadEvent.

Definition push_back (l : list byte) (s : stream) : stream :=
  match l with [] => s | b :: l => Chunk b l :: s end.

(** [AsyncReadExt::read] into a buffer of [n] bytes. *)
Definition read (n : nat) (s : stream) : result ErrorKind (list byte) * stream :=
  match s with
  | [] => (Ok [], [])
  | Failure k :: s => (Err k, s)
  | Chunk b l :: s => (Ok (take n (b :: l)), push_back (drop n (b :: l)) s)
  end.

(** [AsyncReadExt::read_exact]: reads until the buffer is full, and gives up on the
    end of the stream or any error. *)
Fixpoint read_exact (n : nat) (got : list byte) (s : stream)
    : result ErrorKind (list byte) * stream :=
  if decide (n ≤ length got)%nat then (Ok got, s)
  else match s with
  | [] => (Err UnexpectedEof, [])
  | Failure k :: s => (Err k, s)
  | Chunk b l :: s =>
      let need := (n - length got)%nat in
      if decide (need ≤ length (b :: l))%nat
      then (Ok (got ++ take need (b :: l)), push_back (drop need (b :: l)) s)
      else read_exact n (got ++ b :: l) s
  end.

(** What a header loop can end with. *)
Inductive header_result :=
| HeaderFull (header : list byte)
| HeaderEnd
| HeaderError (k : ErrorKind).

(** The [while header_bytes_read < header.len()] loop; an interrupted read is
    repeated. [None] is the exhausted fuel. *)
Fixpoint read_header (fuel : nat) (header : list byte) (s : stream)
    : option (header_result * stream) :=
  if decide (4 ≤ length header)%nat then Some (HeaderFull header, s)
  else match fuel with
  | O => None
  | S fuel =>
      match read (4 - length header) s with
      | (Ok [], s) =>
          if decide (header = []) then Some (HeaderEnd, s)
          else Some (HeaderError UnexpectedEof, s)
      | (Ok (b :: l), s) => read_header fuel (header ++ b :: l) s
      | (Err Interrupted, s) => read_header fuel header s
      | (Err k, s) => Some (HeaderError k, s)
      end
  end.

(** Every read takes an event or a byte of one. *)
Definition event_size (e : ReadEvent) : nat :=
  match e with Chunk _ l => 1 + length l | Failure _ => 1 end.
Definition stream_size (s : stream) : nat := sum_list_with event_size s.

(** The bytes a stream still delivers. *)
Definition contents (s : stream) : list byte :=
  s ≫= λ e, match e with Chunk b l => b :: l | Failure _ => [] end.

Definition read_frame (s : stream)
    : option (result ErrorKind (option (list byte)) * stream) :=
  '(h, s) ← read_header (1 + stream_size s) [] s;
  match h with
  | HeaderEnd => Some (Ok None, s)
  | HeaderError k => Some (Err k, s)
  | HeaderFull header =>
      let length := from_be_bytes header in
      if decide (length > MAX_FRAME_SIZE) then Some (Err InvalidData, s)
      else
        match read_exact (Z.to_nat length) [] s with
        | (Ok payload, s) => Some (Ok (Some payload), s)
        | (Err k, s) => Some (Err k, s)
        end
  end.

(** ** Writers *)

Record writer := Writer {
  written : list byte;
  fails_after : option (nat * ErrorKind);
}.

(** [AsyncWriteExt::write_all] (and [write_u32] of its four bytes). *)
Definition write_all (l : list byte) (w : writer) : result ErrorKind unit * writer :=
  match fails_after w with
  | Some (n, k) =>
      if decide (n < length l)%nat
      then (Err k, Writer (written w ++ take n l) (Some (0%nat, k)))
      else (Ok tt, Writer (written w ++ l) (Some ((n - length l)%nat, k)))
  | None => (Ok tt, Writer (written w ++ l) None)
  end.

Definition flush (w : writer) : result ErrorKind unit * writer :=
  match fails_after w with
  | Some (O, k) => (Err k, w)
  | _ => (Ok tt, w)
  end.

Definition write_frame (w : writer) (payload : list byte) : result ErrorKind unit * writer :=
  if decide (len payload > u32_max) then (Err InvalidInput, w)
  else if decide (len payload > MAX_FRAME_SIZE) then (Err InvalidInput, w)
  else
    match write_all (be_bytes 4 (len payload)) w with
    | (Err k, w) => (Err k, w)
    | (Ok _, w) =>
        match write_all payload w with
        | (Err k, w) => (Err k, w)
        | (Ok _, w) => flush w
        end
    end.

(** ** Lemmas *)

Definition faultless (s : stream) : Prop :=
  Forall (λ e, match e with Chunk _ _ => True | Failure _ => False end) s.

Lemma contents_cons_chunk b l s : contents (Chunk b l :: s) = b :: l ++ contents s.
Proof. done. Qed.

Lemma contents_push_back l s : contents (push_back l s) = l ++ contents s.
Proof. by destruct l. Qed.

Lemma faultless_push_back l s : faultless s → faultless (push_back l s).
Proof. destruct l; [done|]. intros. by constructor. Qed.

Lemma stream_size_push_back l s : stream_size (push_back l s) = (length l + stream_size s)%nat.
Proof. destruct l; simpl; lia. Qed.

Lemma read_size n s r s' :
  read (S n) s = (r, s') → (stream_size s' < stream_size s)%nat ∨ (s = [] ∧ r = Ok [] ∧ s' = []).
Proof.
  destruct s as [|[b l|k] s]; simpl; intros E; simplify_eq/=; [by right|left..]; [|lia].
  rewrite stream_size_push_back, length_drop. lia.
Qed.

Lemma read_header_total fuel header s :
  (stream_size s < fuel)%nat → is_Some (read_header fuel header s).
Proof.
  revert header s. induction fuel as [|fuel IH]; intros header s Hf; [lia|].
  cbn [read_header]. case_decide as Hd; [eauto|].
  destruct (4 - length header)%nat as [|n] eqn:En; [lia|].
  destruct (read (S n) s) as [r s'] eqn:Er.
  apply read_size in Er as [Hs|(-> & -> & ->)]; [|case_decide; eauto].
  destruct r as [[|b l]|k]; [case_decide; eauto|apply IH; lia|].
  destruct k; eauto. apply IH; lia.
Qed.

Lemma read_exact_ok n got s :
  faultless s → (length got ≤ n)%nat → (n ≤ length got + length (contents s))%nat →
  ∃ s', read_exact n got s = (Ok (got ++ take (n - length got) (contents s)), s') ∧
        contents s' = drop (n - length got) (contents s) ∧ faultless s'.
Proof.
  revert got. induction s as [|e s IH]; intros got Hs Hg Hn.
  - simpl in *. rewrite decide_True by lia. exists [].
    by rewrite take_nil, drop_nil, app_nil_r.
  - cbn [read_exact]. case_decide as Hd.
    { exists (e :: s). replace (n - length got)%nat with 0%nat by lia.
      rewrite take_0, app_nil_r, drop_0. done. }
    inversion Hs as [|? ? He Hs']; subst. destruct e as [b l|k]; [|done].
    rewrite contents_cons_chunk, (app_comm_cons l (contents s) b) in *. case_decide as Hl.
    + eexists. split; [by rewrite take_app_le|]. split; [|by apply faultless_push_back].
      by rewrite contents_push_back, drop_app_le.
    + rewrite length_app in Hn. destruct (IH (got ++ b :: l)) as (s' & E & Hc & Hf).
      * done.
      * rewrite length_app. lia.
      * rewrite length_app. lia.
      * exists s'. rewrite E, length_app in *. rewrite <- (assoc_L (++)).
        rewrite take_app_ge, drop_app_ge by lia.
        replace (n - length got - length (b :: l))%nat
          with (n - (length got + length (b :: l)))%nat by lia.
        done.
Qed.

(** A read that takes [n] bytes over two chunks. *)
Lemma take_resume {A} n (l k : list A) :
  take n l ++ take (n - length l) (drop n l ++ k) = take n (l ++ k).
Proof.
  destruct (decide (n ≤ length l)%nat).
  - replace (n - length l)%nat with 0%nat by lia. by rewrite take_0, app_nil_r, take_app_le.
  - by rewrite (drop_ge l n), (take_ge l n), (take_app_ge l k) by lia.
Qed.

Lemma drop_resume {A} n (l k : list A) :
  drop (n - length l) (drop n l ++ k) = drop n (l ++ k).
Proof.
  destruct (decide (n ≤ length l)%nat).
  - replace (n - length l)%nat with 0%nat by lia. by rewrite drop_0, drop_app_le.
  - by rewrite (drop_ge l n), (drop_app_ge l k) by lia.
Qed.

Lemma read_header_ok fuel header s :
  faultless s → (length header ≤ 4)%nat → (4 ≤ length header + length (contents s))%nat →
  (stream_size s < fuel)%nat →
  ∃ s', read_header fuel header s
        = Some (HeaderFull (header ++ take (4 - length header) (contents s)), s') ∧
        contents s' = drop (4 - length header) (contents s) ∧ faultless s'.
Proof.
  revert header s. induction fuel as [|fuel IH]; intros header s Hs Hh Hn Hf; [lia|].
  cbn [read_header]. case_decide as Hd.
  { exists s. replace (4 - length header)%nat with 0%nat by lia.
    by rewrite take_0, app_nil_r, drop_0. }
  destruct s as [|[b l|k] s]; [simpl in *; lia| |by inversion Hs].
  inversion Hs as [|? ? _ Hs']; subst. cbn [read].
  destruct (4 - length header)%nat as [|n] eqn:En; [lia|].
  rewrite firstn_cons. rewrite contents_cons_chunk in *.
  destruct (IH (header ++ b :: take n l) (push_back (drop n l) s)) as (s' & E & Hc & Hf').
  - by apply faultless_push_back.
  - rewrite length_app. simpl. rewrite length_take. lia.
  - rewrite length_app, contents_push_back, length_app. simpl in *.
    rewrite length_app in Hn. rewrite length_take, length_drop. lia.
  - rewrite stream_size_push_back, length_drop. simpl in Hf. lia.
  - exists s'. change (drop (S n) (b :: l)) with (drop n l). rewrite E.
    rewrite contents_push_back in *. rewrite length_app in *. simpl in *.
    rewrite length_take in *.
    replace (4 - (length header + S (n `min` length l)))%nat with (n - length l)%nat in * by lia.
    rewrite <- (assoc_L (++)). simpl. split_and!; [|rewrite Hc|done].
    + by rewrite take_resume.
    + by rewrite drop_resume.
Qed.

Lemma write_all_ok l w : fails_after w = None → write_all l w = (Ok tt, Writer (written w ++ l) None).
Proof. unfold write_all. by intros ->. Qed.

Lemma read_exact_short n got s :
  faultless s → (length got + length (contents s) < n)%nat →
  read_exact n got s = (Err UnexpectedEof, []).
Proof.
  revert got. induction s as [|e s IH]; intros got Hs Hn; cbn [read_exact].
  - rewrite decide_False by (simpl in *; lia). done.
  - rewrite decide_False by lia. inversion Hs as [|? ? He Hs']; subst.
    destruct e as [b l|k]; [|done].
    rewrite contents_cons_chunk, app_comm_cons, length_app in Hn.
    rewrite decide_False by lia. apply IH; [done|]. rewrite length_app. lia.
Qed.

Lemma read_header_short fuel header s :
  faultless s → (length header + length (contents s) < 4)%nat → (stream_size s < fuel)%nat →
  read_header fuel header s
  = Some (if decide (header ++ contents s = []) then HeaderEnd else HeaderError UnexpectedEof, []).
Proof.
  revert header s. induction fuel as [|fuel IH]; intros header s Hs Hn Hf; [lia|].
  cbn [read_header]. rewrite decide_False by lia.
  destruct s as [|[b l|k] s]; [| |by inversion Hs].
  - cbn [read]. rewrite app_nil_r. by case_decide.
  - inversion Hs as [|? ? _ Hs']; subst. cbn [read].
    rewrite contents_cons_chunk, app_comm_cons, length_app in *.
    rewrite take_ge, drop_ge by (simpl in *; lia). cbn [push_back].
    rewrite IH; [|done|rewrite length_app; simpl in *; lia|simpl in Hf; lia].
    by rewrite <- (assoc_L (++)).
Qed.

(** The bytes of a frame on the wire. *)
Lemma written_write_frame payload :
  len payload ≤ MAX_FRAME_SIZE →
  written (write_frame (Writer [] None) payload).2 = be_bytes 4 (len payload) ++ payload.
Proof.
  intros Hlen. unfold write_frame.
  rewrite decide_False by (unfold MAX_FRAME_SIZE, u32_max in *; lia).
  rewrite decide_False by lia. rewrite !write_all_ok by done. done.
Qed.

Lemma frame_length_fits (payload : list byte) :
  len payload ≤ MAX_FRAME_SIZE → from_be_bytes (be_bytes 4 (len payload)) = len payload.
Proof.
  intros H. pose proof (len_nonneg payload). rewrite from_be_bytes_be_bytes.
  apply Z.mod_small. unfold MAX_FRAME_SIZE in *. lia.
Qed.

(** [read_frame] once its header has arrived. *)
Lemma read_frame_header header rest s :
  faultless s → length header = 4%nat → contents s = header ++ rest →
  ∃ s1, faultless s1 ∧ contents s1 = rest ∧
    read_frame s =
      if decide (from_be_bytes header > MAX_FRAME_SIZE) then Some (Err InvalidData, s1)
      else match read_exact (Z.to_nat (from_be_bytes header)) [] s1 with
           | (Ok payload, s) => Some (Ok (Some payload), s)
           | (Err k, s) => Some (Err k, s)
           end.
Proof.
  intros Hs Hh Hc.
  destruct (read_header_ok (1 + stream_size s) [] s) as (s1 & E & Hc1 & Hs1);
    [done|simpl; lia|rewrite Hc, length_app; simpl; lia|lia|].
  exists s1. unfold read_frame. rewrite E. cbn [length app Nat.sub] in *.
  rewrite Hc in *. rewrite <- Hh, drop_app_length in Hc1.
  rewrite <- Hh at 1. by rewrite take_app_length.
Qed.

(** ** Properties *)

(** [read_frame] always comes to an end, whatever the reader does: the header
    loop repeats interrupted reads, and each repetition consumes part of the
    stream. *)
Theorem read_frame_total s : is_Some (read_frame s).
Proof.
  unfold read_frame. destruct (read_header_total (1 + stream_size s) [] s) as [[h s'] ->]; [lia|].
  simpl. destruct h; [|by eauto..]. case_decide; [by eauto|].
  destruct (read_exact _ _ _) as [[?|?] ?]; by eauto.
Qed.

(** The bytes of a frame. *)
Definition frame_bytes (payload : list byte) : list byte := be_bytes 4 (len payload) ++ payload.

Lemma read_frame_bytes payload rest s :
  len payload ≤ MAX_FRAME_SIZE → faultless s → contents s = frame_bytes payload ++ rest →
  ∃ s', read_frame s = Some (Ok (Some payload), s') ∧ contents s' = rest ∧ faultless s'.
Proof.
  intros Hlen Hs Hc. unfold frame_bytes in Hc. rewrite <- (assoc_L (++)) in Hc.
  apply read_frame_header in Hc as (s1 & Hs1 & Hc1 & ->); [|done|by rewrite length_be_bytes].
  rewrite frame_length_fits by done. rewrite decide_False by lia.
  replace (Z.to_nat (len payload)) with (length payload)
    by (unfold len; by rewrite Nat2Z.id).
  destruct (read_exact_ok (length payload) [] s1) as (s2 & -> & Hc2 & Hs2);
    [done|simpl; lia|rewrite Hc1, length_app; simpl; lia|].
  exists s2. cbn [length app] in *. rewrite Nat.sub_0_r, Hc1 in Hc2 |- *.
  rewrite drop_app_length in Hc2. by rewrite take_app_length.
Qed.

(** Writing a frame to a transport that does not fail. *)
Lemma write_frame_ok w payload :
  len payload ≤ MAX_FRAME_SIZE → fails_after w = None →
  write_frame w payload = (Ok tt, Writer (written w ++ frame_bytes payload) None).
Proof.
  intros Hlen Hw. unfold write_frame.
  rewrite decide_False by (unfold MAX_FRAME_SIZE, u32_max in *; lia).
  rewrite decide_False by lia. rewrite write_all_ok by done. rewrite write_all_ok by done.
  unfold frame_bytes. cbn [written flush fails_after]. by rewrite (assoc_L (++)).
Qed.

(** C39: a frame written by [write_frame] is read back by [read_frame] as the same
    payload, however the transport cuts the bytes into chunks, and the reader is
    left exactly after the frame, at whatever follows it. *)
Theorem read_frame_write_frame payload rest s :
  len payload ≤ MAX_FRAME_SIZE → faultless s →
  contents s = written (write_frame (Writer [] None) payload).2 ++ rest →
  ∃ s', read_frame s = Some (Ok (Some payload), s') ∧ contents s' = rest.
Proof.
  intros Hlen Hs Hc. rewrite written_write_frame in Hc by done.
  destruct (read_frame_bytes payload rest s) as (s' & ? & ? & _); eauto.
Qed.

(** A frame in three chunks, the first inside the header. *)
Definition chunked_frame : stream :=
  [Chunk x00 [x00]; Chunk x00 [x03; x61; x62]; Chunk x63 [x64]].

Lemma read_frame_write_frame_witness :
  ∃ s', read_frame chunked_frame = Some (Ok (Some [x61; x62; x63]), s') ∧ contents s' = [x64].
Proof.
  apply read_frame_write_frame; [by vm_compute|by repeat constructor|vm_compute; reflexivity].
Defined.

(** A frame cut short is never a payload: a stream that ends anywhere inside a
    written frame gives [UnexpectedEof], and only a stream that ends before the
    first byte gives the clean end [Ok None]. *)
Theorem read_frame_truncated payload n s :
  len payload ≤ MAX_FRAME_SIZE → faultless s →
  (n < length (written (write_frame (Writer [] None) payload).2))%nat →
  contents s = take n (written (write_frame (Writer [] None) payload).2) →
  read_frame s = Some (if decide (n = 0%nat) then Ok None else Err UnexpectedEof, []).
Proof.
  intros Hlen Hs Hn Hc. rewrite written_write_frame in * by done.
  pose proof (length_be_bytes 4 (len payload)) as Hb. rewrite length_app, Hb in Hn.
  destruct (decide (n < 4)%nat) as [H4|H4].
  - unfold read_frame. rewrite read_header_short; [|done| |lia].
    + rewrite Hc. cbn [app]. rewrite take_app_le by lia. destruct n; [done|].
      case_decide as E; [|done]. apply (f_equal length) in E. rewrite length_take in E. simpl in E. lia.
    + rewrite Hc, length_take. simpl. lia.
  - rewrite decide_False by lia. rewrite take_app_ge in Hc by lia.
    apply read_frame_header in Hc as (s1 & Hs1 & Hc1 & ->); [|done..].
    rewrite frame_length_fits by done. rewrite decide_False by lia.
    rewrite read_exact_short; [done|done|]. rewrite Hc1, length_take. unfold len.
    rewrite Nat2Z.id. simpl. lia.
Qed.

Lemma read_frame_truncated_witness :
  read_frame [Chunk x00 [x00]; Chunk x00 [x03; x61]] = Some (Err UnexpectedEof, []).
Proof.
  apply (read_frame_truncated [x61; x62; x63] 5); [by vm_compute|by repeat constructor|vm_compute; lia|vm_compute; reflexivity].
Defined.

(** An oversized frame is refused on both sides: [write_frame] fails with
    [InvalidInput] and writes nothing, and [read_frame] fails with [InvalidData] on
    the length alone, leaving every byte of the body unread. *)
Theorem oversized_frames_refused payload header rest s :
  len payload > MAX_FRAME_SIZE →
  faultless s → length header = 4%nat → from_be_bytes header > MAX_FRAME_SIZE →
  contents s = header ++ rest →
  (∀ w, write_frame w payload = (Err InvalidInput, w)) ∧
  ∃ s', read_frame s = Some (Err InvalidData, s') ∧ contents s' = rest.
Proof.
  intros Hp Hs Hh Hl Hc. split.
  - intros w. unfold write_frame. case_decide; [done|]. by rewrite decide_True by lia.
  - apply read_frame_header in Hc as (s1 & Hs1 & Hc1 & ->); [|done..].
    rewrite decide_True by lia. eauto.
Qed.

Lemma oversized_frames_refused_witness :
  (∀ w, write_frame w (replicate (Z.to_nat (1024 * 1024 + 1)) x00) = (Err InvalidInput, w)) ∧
  ∃ s', read_frame [Chunk x00 [x10; x00; x01; x61]] = Some (Err InvalidData, s')
        ∧ contents s' = [x61].
Proof.
  apply (oversized_frames_refused _ [x00; x10; x00; x01]); [|by repeat constructor|done|done|done].
  unfold len. rewrite length_replicate, Z2Nat.id by lia. unfold MAX_FRAME_SIZE. lia.
Defined.
