(* ===== verification/WireProps.v ===== *)
(** * What the wire format guarantees

    Round trips, bounds on everything a peer can make a decoder produce, refusal of
    reserved tags, trailing bytes and oversized payloads, the checked-in byte
    fixtures, and the room-name rules the wire limits rest on. *)
From S2P Require Import Prelude Bytes Text Postcard PostcardRef Protocol Wire.

(** ** What a decoded message is bounded by *)

Definition bounded_append (a : Append.t) : Prop :=
  len (Append.body a) ≤ MAX_MLS_BLOB_BYTES ∧
  0 ≤ Append.parent a ≤ u64_max ∧ 0 ≤ Append.epoch a ≤ u64_max ∧
  match Append.welcome a with
  | Some w => len (WelcomeAttachment.body w) ≤ MAX_MLS_BLOB_BYTES
  | None => True
  end.

Definition bounded_request (r : Request.t) : Prop :=
  match r with
  | Request.CreateRoom name => str_len name ≤ 4 * MAX_ROOM_NAME_CHARS
  | Request.PublishKeyPackages packages =>
      len packages ≤ MAX_KEY_PACKAGES_PER_PUBLISH ∧
      Forall (λ p, len p ≤ MAX_KEY_PACKAGE_BYTES) packages
  | Request.Acknowledge events welcomes =>
      len events ≤ PAGE_SIZE ∧ len welcomes ≤ PAGE_SIZE ∧
      Forall (λ c, 0 ≤ c ≤ u64_max) welcomes
  | Request.AppendRoomOperation operation => bounded_append operation
  | Request.FetchRoomEvents _ n | Request.FetchWelcomes n => 0 ≤ n ≤ u64_max
  | Request.SyncIndex _ | Request.ReserveKeyPackage _ | Request.SetFetchGrant _ _ => True
  end.

Definition bounded_response (r : Response.t) : Prop :=
  match r with
  | Response.AppendAccepted event => bounded_append (Event.operation event)
  | Response.RoomEvents _ _ events _ =>
      len events ≤ PAGE_SIZE ∧ Forall (λ e, bounded_append (Event.operation e)) events
  | Response.SyncIndex rooms _ =>
      len rooms ≤ PAGE_SIZE ∧
      Forall (λ h, str_len (RoomHead.name h) ≤ 4 * MAX_ROOM_NAME_CHARS) rooms
  | Response.Welcomes _ welcomes _ =>
      len welcomes ≤ PAGE_SIZE ∧
      Forall (λ w, len (WelcomeAttachment.body (WelcomeDelivery.attachment w))
                     ≤ MAX_MLS_BLOB_BYTES ∧
                   str_len (WelcomeDelivery.room_name w) ≤ 4 * MAX_ROOM_NAME_CHARS) welcomes
  | Response.KeyPackage _ package => len package ≤ MAX_KEY_PACKAGE_BYTES
  | _ => True
  end.

Section wire_properties.
Context `{Postcard}.

Lemma valid_append_bounded a : valid c_append a → bounded_append a.
Proof.
  destruct a as [room parent epoch ct body welcome].
  intros (((((_ & Hp) & He) & _) & [Hb _]) & Hw). unfold bounded_append. simpl in *.
  split_and!; [done|lia..|].
  destruct welcome as [[? wb ?]|]; [|done]. by destruct Hw as ((_ & [Hwb _]) & _).
Qed.

Lemma valid_event_bounded e : valid c_event e → bounded_append (Event.operation e).
Proof. destruct e. intros (_ & Ha). by apply valid_append_bounded. Qed.

Lemma valid_request_bounded r : valid c_request r → bounded_request r.
Proof.
  destruct r; simpl; intros Hv; try done.
  - destruct Hv as [Hl Hall]. split; [done|]. eapply Forall_impl; [exact Hall|]. by intros p [].
  - destruct Hv as [[? _] [? ?]]. done.
  - by apply valid_append_bounded.
  - by destruct Hv.
Qed.

Lemma valid_response_bounded r : valid c_response r → bounded_response r.
Proof.
  destruct r; simpl; intros Hv; try done.
  - by apply valid_event_bounded.
  - destruct Hv as (_ & _ & [Hl Hall] & _). split; [done|].
    eapply Forall_impl; [exact Hall|]. apply valid_event_bounded.
  - destruct Hv as ([Hl Hall] & _). split; [done|].
    eapply Forall_impl; [exact Hall|]. intros [] ((_ & Hn) & _). done.
  - destruct Hv as (_ & [Hl Hall] & _). split; [done|].
    eapply Forall_impl; [exact Hall|].
    intros [? ? ? ? ? ? []] ((((((Hn & _) & _) & _) & _) & _) & ((_ & [Hb _]) & _)). done.
  - by destruct Hv as (_ & ? & _).
Qed.

(** The client's messages that are within the limits of the decoder: names of 400 bytes,
    64 packages of 16 KiB, 100 identifiers, bodies of 512 KiB; the integers are those of
    their types. *)
Definition bounded_client_message (m : ClientMessage.t) : Prop :=
  match m with
  | ClientMessage.ClientHello version => 0 ≤ version ≤ u16_max
  | ClientMessage.Delivery _ request => bounded_request request
  | _ => True
  end.

Lemma valid_bytes N HN l : valid (c_bounded N HN c_u8) l ↔ len l ≤ N.
Proof. split; [by intros []|]. intros Hl. split; [done|]. by apply Forall_true. Qed.

Lemma bounded_append_valid a : bounded_append a → valid c_append a.
Proof.
  destruct a as [room parent epoch ct body welcome]. intros (Hb & Hp & He & Hw).
  refine (conj (conj (conj (conj (conj I Hp) He) I) _) _); [by apply valid_bytes|].
  destruct welcome as [[recipient wb signature]|]; [|exact I].
  refine (conj (conj I _) I). by apply valid_bytes.
Qed.

Lemma bounded_request_valid r : bounded_request r → valid c_request r.
Proof.
  destruct r; simpl; intros Hb; try done.
  - destruct Hb as [Hl Hall]. split; [done|]. eapply Forall_impl; [exact Hall|].
    intros p Hp. by apply (valid_bytes (16 * 1024) I).
  - destruct Hb as (? & ? & ?). split; split; try done. by apply Forall_true.
  - by apply bounded_append_valid.
  - by destruct after_room.
Qed.

Lemma client_message_valid m : valid c_client_message m ↔ bounded_client_message m.
Proof.
  split; destruct m; simpl; try done.
  - by intros [_ ?%valid_request_bounded].
  - intros _. by destruct enrollment.
  - intros Hb. split; [done|]. by apply bounded_request_valid.
Qed.

(** *** What is over the limits is refused *)

Lemma visit_refused {A B} (c : codec A) n l (k : A → visit B) :
  get c l = None → (a ← required c; k a) {| remaining := S n; input := l |} = None.
Proof. intros E. unfold mbind, visit_bind, required, next_element. simpl. by rewrite E. Qed.

Lemma get_long_name s l : 400 < str_len s ≤ u64_max → get c_name (put_string s ++ l) = None.
Proof.
  intros Hs. cbn [get c_name]. unfold put_string, get_name, get_str.
  pose proof (str_len_nonneg s). rewrite <- (assoc_L (++)), varint_roundtrip by (unfold width_max; lia).
  simpl. unfold str_len in *. rewrite decide_True by (rewrite len_app; pose proof (len_nonneg l); lia).
  unfold len in *. rewrite Nat2Z.id, take_app_length, from_utf8_utf8. simpl.
  rewrite decide_True; [done|]. unfold str_len, len. lia.
Qed.

Lemma get_many {A} N HN (c : codec A) v l : N < len v ≤ u64_max → get (c_bounded N HN c) (put_vec c v ++ l) = None.
Proof.
  intros Hv. cbn [get c_bounded]. unfold put_vec, bounded_vec. pose proof (len_nonneg v).
  rewrite <- (assoc_L (++)), varint_roundtrip by (unfold width_max; lia). simpl.
  by rewrite decide_True by lia.
Qed.

(** A request whose decoding stops is not decoded as part of any message. *)
Lemma decode_refused id request l :
  get c_request (put c_request request) = None →
  encode_message c_client_message (ClientMessage.Delivery id request) = Ok l →
  decode_message c_client_message l = Err PostcardError.
Proof.
  intros E [-> Hl]%encode_message_Ok. unfold decode_message. rewrite decide_False by lia.
  unfold c_client_message at 1, c_tagged. cbn [get].
  change (put c_client_message (ClientMessage.Delivery id request))
    with (z2b 100 :: put c_message_id id ++ put c_request request).
  unfold deserialize_tuple, visit_client_message. rewrite visit_tag, b2z_z2b_small by lia. cbn beta iota.
  rewrite visit_required by done. by rewrite visit_refused.
Qed.

Lemma long_name_refused name : 400 < str_len name ≤ u64_max →
  get c_request (put c_request (Request.CreateRoom name)) = None.
Proof.
  intros Hs. unfold c_request at 1, c_tagged. cbn [get].
  change (put c_request (Request.CreateRoom name)) with (z2b 0 :: put_string name).
  unfold deserialize_tuple, visit_request. rewrite visit_tag, b2z_z2b_small by lia. cbn beta iota.
  rewrite visit_refused; [done|]. rewrite <- (app_nil_r (put_string name)). by apply get_long_name.
Qed.

Lemma many_packages_refused packages : 64 < len packages ≤ u64_max →
  get c_request (put c_request (Request.PublishKeyPackages packages)) = None.
Proof.
  intros Hp. unfold c_request at 1, c_tagged. cbn [get].
  change (put c_request (Request.PublishKeyPackages packages)) with (z2b 1 :: put_vec c_package packages).
  unfold deserialize_tuple, visit_request. rewrite visit_tag, b2z_z2b_small by lia. cbn beta iota.
  rewrite visit_refused; [done|]. rewrite <- (app_nil_r (put_vec _ _)). by apply get_many.
Qed.

(** ** Properties *)

(** C37: both directions of the protocol round-trip, within the limits of the decoder
    and only there: a message that encodes is decoded by the other side as the same
    message exactly when the decoder's limits allow it. For the client's messages those
    limits are spelled out ([bounded_client_message]). The encoder does not check them,
    only the size of the whole: a room's name of more than 400 bytes and a publication
    of more than 64 packages may encode, and are refused. *)
Theorem messages_roundtrip (c : ClientMessage.t) (r : RelayMessage.t) lc lr :
  encode_message c_client_message c = Ok lc → encode_message c_relay_message r = Ok lr →
  (decode_message c_client_message lc = Ok c ↔ bounded_client_message c) ∧
  (decode_message c_relay_message lr = Ok r ↔ valid c_relay_message r) ∧
  (∀ id name, c = ClientMessage.Delivery id (Request.CreateRoom name) →
    400 < str_len name ≤ u64_max → decode_message c_client_message lc = Err PostcardError) ∧
  (∀ id packages, c = ClientMessage.Delivery id (Request.PublishKeyPackages packages) →
    64 < len packages ≤ u64_max → decode_message c_client_message lc = Err PostcardError).
Proof.
  intros Ec Er. split_and!.
  - rewrite <- client_message_valid. split; [by intros []%decode_message_Ok|by eauto using decode_encode_message].
  - split; [by intros []%decode_message_Ok|by eauto using decode_encode_message].
  - intros id name -> Hs. eapply decode_refused; [by apply long_name_refused|exact Ec].
  - intros id packages -> Hp. eapply decode_refused; [by apply many_packages_refused|exact Ec].
Qed.

(** C38: whatever bytes arrive, a decoded request or response holds at most what the
    protocol's limits allow: names of 400 bytes, 64 packages of 16 KiB, pages of 100
    entries, bodies of 512 KiB, 64-bit counters. *)
Theorem decoded_messages_bounded l :
  (∀ id r, decode_message c_client_message l = Ok (ClientMessage.Delivery id r) →
    bounded_request r) ∧
  (∀ id r, decode_message c_relay_message l = Ok (RelayMessage.Delivery id r) →
    bounded_response r).
Proof.
  split; intros id r [[_ Hv] _]%decode_message_Ok;
    [by apply valid_request_bounded|by apply valid_response_bounded].
Qed.

(** A decoder accepts nothing it should not: a payload over the cap is refused
    before it is parsed, a first byte that is no current tag (the tags of retired
    versions included) is refused whatever follows, and a well-formed message
    followed by further bytes is refused. *)
Theorem decode_message_refuses l tag m rest :
  (len l > MAX_PAYLOAD → decode_message c_client_message l = Err PayloadLimit) ∧
  (b2z tag ∉ client_tags → len (tag :: l) ≤ MAX_PAYLOAD →
    decode_message c_client_message (tag :: l) = Err PostcardError) ∧
  (b2z tag ∉ relay_tags → len (tag :: l) ≤ MAX_PAYLOAD →
    decode_message c_relay_message (tag :: l) = Err PostcardError) ∧
  (valid c_client_message m → rest ≠ [] →
    len (put c_client_message m ++ rest) ≤ MAX_PAYLOAD →
    decode_message c_client_message (put c_client_message m ++ rest) = Err TrailingBytes).
Proof.
  split_and!.
  - intros. unfold decode_message. by rewrite decide_True by lia.
  - intros Ht Hl. unfold decode_message. rewrite decide_False by lia.
    by rewrite get_client_message_tag.
  - intros Ht Hl. unfold decode_message. rewrite decide_False by lia.
    by rewrite get_relay_message_tag.
  - apply decode_message_trailing.
Qed.
End wire_properties.

(** ** The byte fixtures of tests/fixtures/v9.hex *)

Definition id_of (b : byte) : bytes 16 := vreplicate 16 b.
Definition fixture_append : Append.t :=
  Append.Mk (MkRoomId (id_of x22)) 7 3 MlsContentType.Commit [x01; x02; x03] None.
Definition fixture_event : Event.t :=
  Event.Mk (MkMessageId (id_of x44)) (MkUserId (id_of x33)) fixture_append.
Definition fixture_requests : list Request.t :=
  [ Request.CreateRoom (lit "Cave");
    Request.PublishKeyPackages [[xaa; xbb]];
    Request.Acknowledge [MkMessageId (id_of x44)] [];
    Request.AppendRoomOperation fixture_append;
    Request.FetchRoomEvents (MkRoomId (id_of x22)) 7;
    Request.SyncIndex (Some (MkRoomId (id_of x22)));
    Request.FetchWelcomes 7;
    Request.ReserveKeyPackage (MkUserId (id_of x33));
    Request.SetFetchGrant (MkUserId (id_of x33)) true ].
Definition fixture_responses : list Response.t :=
  [ Response.RoomCreated (MkRoomId (id_of x22));
    Response.KeyPackagesPublished 2;
    Response.Acknowledged;
    Response.AppendAccepted fixture_event;
    Response.HeadConflict (MkRoomId (id_of x22)) 9;
    Response.RoomEvents (MkRoomId (id_of x22)) 7 [fixture_event] false;
    Response.SyncIndex [RoomHead.Mk (MkRoomId (id_of x22)) (lit "Cave") 9] false;
    Response.Welcomes 0 [WelcomeDelivery.Mk (lit "Cave") 1 (MkMessageId (id_of x44))
      (MkRoomId (id_of x22)) 8 (MkUserId (id_of x33))
      (WelcomeAttachment.Mk (MkUserId (id_of x55)) [xaa; xbb]
         (MkSignature (vreplicate 64 x66)))] false;
    Response.KeyPackage (MkUserId (id_of x33)) [xaa; xbb];
    Response.FetchGrantSet;
    Response.Rejected Rejection.RequestConflict ].

(** The hex text of a fixture line. *)
Definition hex_text (l : list byte) : string := String.string_of_list_byte (hex_string l).

Definition fixture_request_id : MessageId := MkMessageId (id_of x11).

Example request_fixtures :
  (λ r, hex_text (put c_client_message (ClientMessage.Delivery fixture_request_id r)))
    <$> fixture_requests =
    [ "6411111111111111111111111111111111000443617665";
      "6411111111111111111111111111111111010102aabb";
      "641111111111111111111111111111111102014444444444444444444444444444444400";
      "641111111111111111111111111111111103222222222222222222222222222222220703020301020300";
      "6411111111111111111111111111111111042222222222222222222222222222222207";
      "6411111111111111111111111111111111050122222222222222222222222222222222";
      "64111111111111111111111111111111110607";
      "64111111111111111111111111111111110733333333333333333333333333333333";
      "6411111111111111111111111111111111083333333333333333333333333333333301" ]%string.
Proof. vm_compute. reflexivity. Qed.

Example response_fixtures :
  (λ r, hex_text (put c_relay_message (RelayMessage.Delivery fixture_request_id r)))
    <$> fixture_responses =
    [ "64111111111111111111111111111111110022222222222222222222222222222222";
      "64111111111111111111111111111111110102";
      "641111111111111111111111111111111102";
      "6411111111111111111111111111111111034444444444444444444444444444444433333333333333333333333333333333222222222222222222222222222222220703020301020300";
      "6411111111111111111111111111111111042222222222222222222222222222222209";
      "641111111111111111111111111111111105222222222222222222222222222222220701444444444444444444444444444444443333333333333333333333333333333322222222222222222222222222222222070302030102030000";
      "641111111111111111111111111111111106012222222222222222222222222222222204436176650900";
      "6411111111111111111111111111111111070001044361766501444444444444444444444444444444442222222222222222222222222222222208333333333333333333333333333333335555555555555555555555555555555502aabb6666666666666666666666666666666666666666666666666666666666666666666666666666666666666666666666666666666666666666666666666666666600";
      "6411111111111111111111111111111111083333333333333333333333333333333302aabb";
      "641111111111111111111111111111111109";
      "64111111111111111111111111111111110a03" ]%string.
Proof. vm_compute. reflexivity. Qed.

(** ** Witnesses *)

Lemma messages_roundtrip_witness :
  decode_message c_client_message [x01; x09] = Ok (ClientMessage.ClientHello 9) ∧
  decode_message c_relay_message [x65] = Ok RelayMessage.DeliveryChanged.
Proof.
  destruct (messages_roundtrip (ClientMessage.ClientHello 9) RelayMessage.DeliveryChanged [x01; x09] [x65])
    as (Hc & Hr & _); [vm_compute; reflexivity..|].
  split; [apply Hc; by vm_compute|by apply Hr].
Defined.

Lemma decoded_messages_bounded_witness :
  bounded_request (Request.CreateRoom (lit "Cave")).
Proof.
  apply (proj1 (decoded_messages_bounded
    (put c_client_message (ClientMessage.Delivery fixture_request_id
      (Request.CreateRoom (lit "Cave"))))) fixture_request_id).
  vm_compute. reflexivity.
Defined.

Lemma decode_message_refuses_witness :
  decode_message c_client_message [x01; x09; xff] = Err TrailingBytes.
Proof.
  destruct (decode_message_refuses [] x00 (ClientMessage.ClientHello 9) [xff])
    as (_ & _ & _ & Htrailing).
  change [x01; x09; xff] with (put c_client_message (ClientMessage.ClientHello 9) ++ [xff]).
  apply Htrailing; [by vm_compute|done|by vm_compute].
Defined.

(** ** Room names *)

(** A name [normalize_room_name] accepts is not empty, starts and ends with no
    white space, has at most 100 characters and no control character, is the given
    name less the white space around it, is stable under normalising again, and so
    fits the 400-byte limit every decoder of the protocol applies to names. *)
Theorem normalize_room_name_spec name n :
  normalize_room_name name = Ok n →
  n ≠ [] ∧ len n ≤ MAX_ROOM_NAME_CHARS ∧ Forall (λ c, is_control c = false) n ∧
  normalize_room_name n = Ok n ∧ str_len n ≤ 400 ∧
  ∃ p q, name = p ++ n ++ q ∧ forallb is_whitespace p = true ∧ forallb is_whitespace q = true.
Proof.
  unfold normalize_room_name. pose proof (trim_infix name) as Hinfix.
  case_decide; [done|]. case_decide as Hlen; [done|].
  destruct (existsb is_control (trim name)) eqn:Hc; [done|]. intros [= <-].
  pose proof (str_len_bound (trim name)). rewrite trim_idemp, Hc.
  split_and!; [done|lia| |by rewrite !decide_False|unfold MAX_ROOM_NAME_CHARS in *; lia|done].
  apply Forall_forall. intros c Hin. apply not_true_is_false. intros E.
  assert (existsb is_control (trim name) = true); [|congruence].
  apply existsb_exists. exists c. split; [by apply list_elem_of_In|done].
Qed.

Lemma normalize_room_name_spec_witness :
  normalize_room_name (lit "The Grotto") = Ok (lit "The Grotto").
Proof.
  apply (normalize_room_name_spec (lit "  The Grotto  ")). vm_compute. reflexivity.
Defined.
