(* ===== verification/PrivateFiles.v ===== *)
(** * Private files

    [private_file.rs], which the client and the relay each have a copy of
    (src/crates/grotto-client/src/private_file.rs, src/crates/grotto-relay/src/private_file.rs),
    on a model of the file system calls it makes. A path is its names, innermost first;
    names are ordinary ones, neither . nor .. *)
From S2P Require Import Prelude Bytes Text Framing.

(** ** Files *)

Abbreviation fname := (list byte).

Inductive NodeKind :=
| Regular (contents : list byte)
| Directory
| Symlink (leads_somewhere : bool)
| Special.

Record Node := MkNode { kind : NodeKind; uid : Z; mode : Z }.

Record Files := MkFiles { nodes : gmap (list fname) Node; locked : gset (list fname); calls : nat }.

(** Reasons for a call to fail that have nothing to do with what exists. *)
Inductive Fault := Denied | Failed.
Definition fault_kind (f : Fault) : ErrorKind := match f with Denied => PermissionDenied | Failed => OtherKind end.

(** The process and what the system decides: the user, the mask, the working directory,
    which calls fail, after how many bytes a write fails, and what lies behind symbolic
    links. *)
Record Os := MkOs {
  euid : Z;
  umask : Z;
  working_directory : list fname;
  call_fails : nat → option Fault;
  write_fails : nat → option nat;
  beyond_links : list fname → result ErrorKind Node;
}.

Definition FileM (A : Type) : Type := Os → Files → result ErrorKind A * Files.

#[global] Instance FileM_ret : MRet FileM := λ A a os fs, (Ok a, fs).
#[global] Instance FileM_bind : MBind FileM := λ A B f m os fs,
  match m os fs with
  | (Ok a, fs) => f a os fs
  | (Err k, fs) => (Err k, fs)
  end.

Definition io_error {A} (k : ErrorKind) : FileM A := λ _ fs, (Err k, fs).
Definition outcome {A} (m : FileM A) : FileM (result ErrorKind A) := λ os fs,
  let '(r, fs) := m os fs in (Ok r, fs).
Definition environment {A} (f : Os → A) : FileM A := λ os fs, (Ok (f os), fs).

Definition called (fs : Files) : Files := MkFiles (nodes fs) (locked fs) (S (calls fs)).
Definition with_nodes (m : gmap (list fname) Node) (fs : Files) : Files := MkFiles m (locked fs) (calls fs).

(** A system call: it fails, or its effect is [f]. *)
Definition syscall {A} (f : Os → Files → result ErrorKind A * Files) : FileM A := λ os fs,
  match call_fails os (calls fs) with
  | Some fault => (Err (fault_kind fault), called fs)
  | None => f os (called fs)
  end.

Definition is_file (n : Node) : bool := match kind n with Regular _ => true | _ => false end.
Definition is_dir (n : Node) : bool := match kind n with Directory => true | _ => false end.
Definition is_link (n : Node) : bool := match kind n with Symlink _ => true | _ => false end.

(** Some node above [p] satisfies [f]. *)
Fixpoint above (f : Node → bool) (m : gmap (list fname) Node) (p : list fname) : bool :=
  match p with
  | [] => false
  | _ :: q => from_option f false (m !! q) || above f m q
  end.

(** What a path names. Links above it are followed; below a file there is nothing. *)
Definition node_at (os : Os) (fs : Files) (p : list fname) : result ErrorKind Node :=
  if above is_link (nodes fs) p then beyond_links os p
  else if above (λ n, negb (is_dir n)) (nodes fs) p then Err OtherKind
  else ok_or NotFound (nodes fs !! p).

(** [fs::symlink_metadata], and [File::metadata] of an open file. *)
Definition symlink_metadata (p : list fname) : FileM Node := syscall (λ os fs, (node_at os fs p, fs)).

(** A new node below an existing directory. Nothing is created behind a link:
    [check_ancestors] runs before. *)
Definition create_node (p : list fname) (n : Os → Node) : FileM () := syscall (λ os fs,
  match node_at os fs p with
  | Ok _ => (Err AlreadyExists, fs)
  | Err NotFound =>
      match p with
      | _ :: q =>
          if above is_link (nodes fs) p then (Err OtherKind, fs)
          else match nodes fs !! q with
          | Some _ => (Ok tt, with_nodes (<[p := n os]> (nodes fs)) fs)
          | None => (Err NotFound, fs)
          end
      | [] => (Err NotFound, fs)
      end
  | Err k => (Err k, fs)
  end).

Definition masked (os : Os) (m : Z) : Z := Z.ldiff m (umask os).
Arguments masked : simpl never.

(** With mode 0700. *)
Definition mkdir (p : list fname) : FileM () :=
  create_node p (λ os, MkNode Directory (euid os) (masked os 0x1C0)).

(** [Path::is_dir]: any error is a no. *)
Definition path_is_dir (p : list fname) : FileM bool :=
  r ← outcome (symlink_metadata p); mret (match r with Ok n => is_dir n | Err _ => false end).

(** [DirBuilder::create] with [recursive]. *)
Fixpoint create_dir_all (p : list fname) : FileM () :=
  r ← outcome (mkdir p);
  match r with
  | Ok _ => mret tt
  | Err NotFound =>
      match p with
      | [] => io_error OtherKind
      | _ :: q =>
          create_dir_all q;;
          r ← outcome (mkdir p);
          match r with
          | Ok _ => mret tt
          | Err k => d ← path_is_dir p; if (d : bool) then mret tt else io_error k
          end
      end
  | Err k => d ← path_is_dir p; if (d : bool) then mret tt else io_error k
  end.

(** [OpenOptions] with [read], [write], [create], mode 0600 and [O_NOFOLLOW]. *)
Definition open_or_create (p : list fname) : FileM () :=
  r ← outcome (symlink_metadata p);
  match r with
  | Ok n =>
      match kind n with
      | Regular _ | Special => mret tt
      | Directory | Symlink _ => io_error OtherKind
      end
  | Err NotFound => create_node p (λ os, MkNode (Regular []) (euid os) (masked os 0x180))
  | Err k => io_error k
  end.

(** [File::try_lock]; the lock lasts as long as the file is open. *)
Definition try_lock (p : list fname) : FileM () := syscall (λ os fs,
  if decide (p ∈ locked fs) then (Err WouldBlock, fs)
  else (Ok tt, MkFiles (nodes fs) ({[p]} ∪ locked fs) (calls fs))).

(** ** [private_file.rs] *)

Record Path := MkPath { is_absolute : bool; names : list fname }.

(** The names from the root, as the system finds them. *)
Definition resolve (os : Os) (p : Path) : list fname :=
  if is_absolute p then names p else names p ++ working_directory os.

(** [path.parent()], or the working directory. *)
Definition parent_or_here (p : Path) : Path :=
  match names p with
  | [] => MkPath false []
  | _ :: q => MkPath (is_absolute p) q
  end.

(** Modes: 0x3F is 0o077, 0x12 is 0o022, 0x200 the sticky bit 0o1000. *)
Definition private_mode (os : Os) (n : Node) : bool := (uid n =? euid os) && (Z.land (mode n) 0x3F =? 0).
Definition private_file (os : Os) (n : Node) : bool := is_file n && private_mode os n.
Definition private_dir (os : Os) (n : Node) : bool := is_dir n && private_mode os n.
Definition safe_ancestor (n : Node) : bool :=
  is_dir n && ((Z.land (mode n) 0x12 =? 0) || negb (Z.land (mode n) 0x200 =? 0)).

Fixpoint check_names (p : list fname) : FileM () :=
  r ← outcome (symlink_metadata p);
  match r with
  | Ok n =>
      if safe_ancestor n then match p with [] => mret tt | _ :: q => check_names q end
      else io_error PermissionDenied
  | Err NotFound => match p with [] => mret tt | _ :: q => check_names q end
  | Err k => io_error k
  end.

(** [env::current_dir] may fail. *)
Definition absolute_names (p : Path) : FileM (list fname) :=
  if is_absolute p then mret (names p)
  else syscall (λ os fs, (Ok (names p ++ working_directory os), fs)).

Definition check_ancestors (p : Path) : FileM () := absolute ← absolute_names p; check_names absolute.

Definition ensure_parent (p : Path) : FileM () :=
  let parent := parent_or_here p in
  check_ancestors parent;;
  where_ ← environment (λ os, resolve os parent);
  create_dir_all where_;;
  check_ancestors parent;;
  meta ← symlink_metadata where_;
  private ← environment (λ os, private_dir os meta);
  if (private : bool) then mret tt else io_error PermissionDenied.

Definition sidecar (suffix : list byte) (p : list fname) : list fname :=
  match p with [] => [suffix] | n :: q => (n ++ suffix) :: q end.
Definition suffixes : list (list byte) := utf8 <$> [lit "-wal"; lit "-shm"; lit "-journal"].

Definition check_sidecar (p : list fname) (suffix : list byte) : FileM () :=
  r ← outcome (symlink_metadata (sidecar suffix p));
  match r with
  | Ok n =>
      private ← environment (λ os, private_file os n);
      if (private : bool) then mret tt else io_error PermissionDenied
  | Err NotFound => mret tt
  | Err k => io_error k
  end.
Fixpoint check_sidecars (p : list fname) (l : list (list byte)) : FileM () :=
  match l with [] => mret tt | suffix :: l => check_sidecar p suffix;; check_sidecars p l end.

(** The open, locked file, by its place. *)
Definition open_locked (path : Path) : FileM (list fname) :=
  ensure_parent path;;
  p ← environment (λ os, resolve os path);
  check_sidecars p suffixes;;
  open_or_create p;;
  meta ← symlink_metadata p;
  private ← environment (λ os, private_file os meta);
  (if (private : bool) then mret tt else io_error PermissionDenied);;
  r ← outcome (try_lock p);
  match r with Ok _ => mret p | Err _ => io_error WouldBlock end.

(** ** Where files are *)

(** The variables that name files and directories. *)
Definition PathVars := string → option Path.

Definition path_join (p : Path) (n : str) : Path := MkPath (is_absolute p) (utf8 n :: names p).

(** [directory] below the data directory of the user, or the error of a missing [HOME]. *)
Definition data_directory (vars : PathVars) (directory : str) : option Path :=
  match vars "XDG_DATA_HOME" ≫= (λ p, if is_absolute p then Some p else None) with
  | Some path => Some (path_join path directory)
  | None => (λ home, foldl path_join home [lit ".local"; lit "share"; directory]) <$> vars "HOME"
  end.

(** [unwrap_or] has computed the default, and failed with it, before it looks. *)
Definition path_or {E} (var : option Path) (directory : result E Path) (n : str) : result E Path :=
  directory ← directory; Ok (default (path_join directory n) var).
