(* ===== verification/PrivateFilesProps.v ===== *)
(** * What private files guarantee

    [open_locked] gives a file only where nobody else can read, write or replace it, and
    gives it to one holder at a time; on a file system that works it does so exactly where
    that is possible. *)
From S2P Require Import Prelude Bytes Text Framing PrivateFiles.

(** ** What the calls change *)

(** Every node but the root has its directory. *)
Definition tree (fs : Files) : Prop := ∀ x q, is_Some (nodes fs !! (x :: q)) → is_Some (nodes fs !! q).

(** Nodes are only ever added, and added ones are the user's own. *)
Record only_adds (os : Os) (fs fs' : Files) : Prop := {
  adds_kept : nodes fs ⊆ nodes fs';
  adds_new : ∀ p n, nodes fs !! p = None → nodes fs' !! p = Some n → private_mode os n = true;
  adds_locks : locked fs ⊆ locked fs';
  adds_tree : tree fs → tree fs';
}.

#[global] Instance only_adds_preorder os : PreOrder (only_adds os).
Proof.
  split.
  - intros fs. split; [done|congruence|done|done].
  - intros f1 f2 f3 [K1 N1 L1 T1] [K2 N2 L2 T2]. split; [by etrans| |set_solver|eauto].
    intros p n E1 E3. destruct (nodes f2 !! p) as [n2|] eqn:E2; [|eauto].
    rewrite (lookup_weaken _ _ _ _ E2 K2) in E3. injection E3 as <-. eauto.
Qed.

Definition same (fs fs' : Files) : Prop := nodes fs' = nodes fs ∧ locked fs' = locked fs.

#[global] Instance same_preorder : PreOrder same.
Proof. unfold same. split; [done|]. intros ? ? ? [] []. split; congruence. Qed.

Lemma same_adds os fs fs' : same fs fs' → only_adds os fs fs'.
Proof.
  intros [E1 E2]. split; [by rewrite E1|rewrite E1; congruence|by rewrite E2|].
  intros Ht x q. rewrite E1. apply Ht.
Qed.

Definition only_adding {A} (m : FileM A) : Prop := ∀ os fs, only_adds os fs (m os fs).2.
Definition looks {A} (m : FileM A) : Prop := ∀ os fs, same fs (m os fs).2.

Lemma looks_adding {A} (m : FileM A) : looks m → only_adding m.
Proof. intros Hm os fs. apply same_adds, Hm. Qed.
Lemma only_adding_bind {A B} (m : FileM A) (k : A → FileM B) : only_adding m → (∀ a, only_adding (k a)) → only_adding (m ≫= k).
Proof.
  intros Hm Hk os fs. unfold mbind, FileM_bind. specialize (Hm os fs).
  destruct (m os fs) as [[a|e] fs1]; [|done]. etrans; [exact Hm|apply Hk].
Qed.
Lemma looks_bind {A B} (m : FileM A) (k : A → FileM B) : looks m → (∀ a, looks (k a)) → looks (m ≫= k).
Proof.
  intros Hm Hk os fs. unfold mbind, FileM_bind. specialize (Hm os fs).
  destruct (m os fs) as [[a|e] fs1]; [|done]. etrans; [exact Hm|apply Hk].
Qed.
Lemma outcome_state {A} (m : FileM A) os fs : (outcome m os fs).2 = (m os fs).2.
Proof. unfold outcome. by destruct (m os fs). Qed.
Lemma looks_outcome {A} (m : FileM A) : looks m → looks (outcome m).
Proof. intros Hm os fs. rewrite outcome_state. apply Hm. Qed.
Lemma only_adding_outcome {A} (m : FileM A) : only_adding m → only_adding (outcome m).
Proof. intros Hm os fs. rewrite outcome_state. apply Hm. Qed.
Lemma looks_metadata p : looks (symlink_metadata p).
Proof. intros os fs. unfold symlink_metadata, syscall. by case_match. Qed.
Lemma looks_ret {A} (a : A) : looks (mret a).
Proof. by intros os fs. Qed.
Lemma looks_error {A} k : looks (io_error (A := A) k).
Proof. by intros os fs. Qed.
Lemma looks_environment {A} (f : Os → A) : looks (environment f).
Proof. by intros os fs. Qed.
Lemma looks_absolute p : looks (absolute_names p).
Proof. unfold absolute_names. case_match; [apply looks_ret|]. intros os fs. unfold syscall. by case_match. Qed.

Lemma masked_clear os m k : Z.land m k = 0 → Z.land (masked os m) k = 0.
Proof.
  intros Hm. unfold masked. apply Z.bits_inj'. intros i Hi. apply (f_equal (λ z, Z.testbit z i)) in Hm.
  rewrite Z.land_spec, Z.bits_0 in *. rewrite Z.ldiff_spec. by destruct (Z.testbit m i), (Z.testbit k i), (Z.testbit _ i).
Qed.

Lemma create_node_cases p n os fs :
  (same fs (create_node p n os fs).2 ∧ ∃ k, (create_node p n os fs).1 = Err k) ∨
  (create_node p n os fs).1 = Ok tt ∧ nodes fs !! p = None ∧ is_Some (nodes fs !! tail p) ∧
  nodes (create_node p n os fs).2 = <[p := n os]> (nodes fs) ∧ locked (create_node p n os fs).2 = locked fs.
Proof.
  unfold create_node, syscall. case_match; [left; by split; eauto|]. simpl.
  destruct (node_at os (called fs) p) as [?|k] eqn:E; [left; by split; eauto|]. destruct k; try (left; by split; eauto).
  destruct p as [|x q]; [left; by split; eauto|]. simpl in *. destruct (from_option _ _ _ || _) eqn:El; [left; by split; eauto|].
  assert (nodes fs !! (x :: q) = None) as En.
  { unfold node_at in E. simpl in E. rewrite El in E. case_match; [done|]. by destruct (nodes fs !! (x :: q)). }
  destruct (nodes fs !! q); [right; split_and!; eauto; done|left; by split; eauto].
Qed.

Lemma only_adding_create p n : (∀ os, private_mode os (n os) = true) → only_adding (create_node p n).
Proof.
  intros Hn os fs. destruct (create_node_cases p n os fs) as [[Hs _]|(_ & E1 & Ep & E2 & E3)]; [by apply same_adds|].
  split; rewrite ?E2, ?E3; [by apply insert_subseteq| |done|]; cycle 1.
  { intros Ht x q. rewrite E2. intros Hx. destruct (decide (p = q)) as [->|]; [rewrite lookup_insert, decide_True by done; by eexists|].
    rewrite lookup_insert_ne by done. destruct (decide (p = x :: q)) as [->|]; [done|]. rewrite lookup_insert_ne in Hx by done. by apply (Ht x). }
  intros q m Eq. destruct (decide (p = q)) as [<-|]; [rewrite lookup_insert|rewrite lookup_insert_ne by done; congruence].
  rewrite decide_True by done. intros [= <-]. apply Hn.
Qed.

Lemma new_private os k m : Z.land m 0x3F = 0 → private_mode os (MkNode k (euid os) (masked os m)) = true.
Proof. intros Hm. unfold private_mode. simpl. by rewrite Z.eqb_refl, masked_clear. Qed.

Create HintDb files discriminated.
#[export] Hint Resolve looks_metadata looks_ret looks_error looks_environment looks_absolute
  looks_outcome only_adding_outcome : files.
#[export] Hint Extern 5 (only_adding _) => apply looks_adding : files.
(** Follows a program's structure. *)
Ltac files := repeat first
  [ progress (intros)
  | lazymatch goal with
    | |- only_adding (_ ≫= _) => apply only_adding_bind
    | |- looks (_ ≫= _) => apply looks_bind
    | |- only_adding (match ?x with _ => _ end) => destruct x
    | |- looks (match ?x with _ => _ end) => destruct x
    | |- _ => solve [auto with files]
    end ].

Lemma looks_check_names p : looks (check_names p).
Proof. induction p; cbn [check_names]; files. Qed.
#[export] Hint Resolve looks_check_names : files.
Lemma looks_check_ancestors p : looks (check_ancestors p).
Proof. unfold check_ancestors. files. Qed.
Lemma only_adding_mkdir p : only_adding (mkdir p).
Proof. apply only_adding_create. intros os. by apply new_private. Qed.
Lemma looks_is_dir p : looks (path_is_dir p).
Proof. unfold path_is_dir. files. Qed.
#[export] Hint Resolve looks_check_ancestors only_adding_mkdir looks_is_dir : files.
Lemma only_adding_create_dir_all p : only_adding (create_dir_all p).
Proof. induction p; cbn [create_dir_all]; files. Qed.
#[export] Hint Resolve only_adding_create_dir_all : files.
Lemma only_adding_ensure_parent p : only_adding (ensure_parent p).
Proof. unfold ensure_parent. files. Qed.
Lemma looks_check_sidecars p l : looks (check_sidecars p l).
Proof. induction l; cbn [check_sidecars]; unfold check_sidecar; files. Qed.
Lemma only_adding_open_or_create p : only_adding (open_or_create p).
Proof. unfold open_or_create. files. apply only_adding_create. intros os. by apply new_private. Qed.
Lemma only_adding_try_lock p : only_adding (try_lock p).
Proof.
  intros os fs. unfold try_lock, syscall. case_match; [by apply same_adds|].
  case_match; [by apply same_adds|]. split; simpl; [done|congruence|set_solver|done].
Qed.
#[export] Hint Resolve only_adding_ensure_parent looks_check_sidecars only_adding_open_or_create only_adding_try_lock : files.
Lemma only_adding_open_locked p : only_adding (open_locked p).
Proof. unfold open_locked. files. Qed.

(** ** What success means *)

Lemma file_bind_Ok {A B} (m : FileM A) (k : A → FileM B) os fs b fs' :
  (m ≫= k) os fs = (Ok b, fs') → ∃ a fs1, m os fs = (Ok a, fs1) ∧ k a os fs1 = (Ok b, fs').
Proof. unfold mbind, FileM_bind. destruct (m os fs) as [[a|e] fs1]; [eauto|done]. Qed.
Lemma outcome_Ok {A} (m : FileM A) os fs r fs' : outcome m os fs = (Ok r, fs') → m os fs = (r, fs').
Proof. unfold outcome. destruct (m os fs). by intros [= -> ->]. Qed.
Lemma metadata_inv p os fs r fs' : symlink_metadata p os fs = (r, fs') →
  same fs fs' ∧ (r = node_at os fs p ∨ ∃ f, r = Err (fault_kind f)).
Proof. unfold symlink_metadata, syscall. case_match; intros [= <- <-]; split; [done|eauto|done|by left]. Qed.

(** Every node on the way to [p], itself included, satisfies [P]. *)
Definition on_the_way (P : Node → Prop) (fs : Files) (p : list fname) : Prop :=
  ∀ q n, q `suffix_of` p → nodes fs !! q = Some n → P n.

Lemma suffix_of_cons {A} (q p : list A) x : q `suffix_of` x :: p → q = x :: p ∨ q `suffix_of` p.
Proof. destruct q; [right; apply suffix_nil|apply suffix_cons_inv]. Qed.
Lemma on_the_way_cons P fs x p : on_the_way P fs p → (∀ n, nodes fs !! (x :: p) = Some n → P n) → on_the_way P fs (x :: p).
Proof. intros Hp Hx q n [->|Hq]%suffix_of_cons; eauto. Qed.
Lemma on_the_way_nil (P : Node → Prop) fs : (∀ n, nodes fs !! [] = Some n → P n) → on_the_way P fs [].
Proof. intros Hn q n ->%suffix_nil_inv. apply Hn. Qed.
Lemma on_the_way_same P fs fs' p : same fs fs' → on_the_way P fs p → on_the_way P fs' p.
Proof. intros [E _] Hp q n. rewrite E. apply Hp. Qed.

Lemma above_none f fs x p : on_the_way (λ n, f n = false) fs p → above f (nodes fs) (x :: p) = false.
Proof.
  revert x. induction p as [|y p IH]; intros x Hp.
  - simpl. destruct (nodes fs !! []) eqn:E; [|done]. simpl. rewrite (Hp _ _ (reflexivity _) E). done.
  - change (from_option f false (nodes fs !! (y :: p)) || above f (nodes fs) (y :: p) = false).
    rewrite IH by (intros q n Hq; apply Hp; by apply suffix_cons_r).
    destruct (nodes fs !! (y :: p)) eqn:E; [|done]. simpl. by rewrite (Hp _ _ (reflexivity _) E).
Qed.

Lemma node_at_below os fs x p :
  on_the_way (λ n, is_dir n = true) fs p → node_at os fs (x :: p) = ok_or NotFound (nodes fs !! (x :: p)).
Proof.
  intros Hp. unfold node_at. rewrite !above_none; [done| |].
  - intros q n Hq En. by rewrite (Hp q n Hq En).
  - intros q n Hq En. specialize (Hp q n Hq En). unfold is_dir, is_link in *. by destruct (kind n).
Qed.
Lemma node_at_root os fs : node_at os fs [] = ok_or NotFound (nodes fs !! []).
Proof. done. Qed.

Lemma safe_is_dir n : safe_ancestor n = true → is_dir n = true.
Proof. unfold safe_ancestor. by intros [? _]%andb_true_iff. Qed.
Lemma on_the_way_dirs fs p :
  on_the_way (λ n, safe_ancestor n = true) fs p → on_the_way (λ n, is_dir n = true) fs p.
Proof. intros Hp q n Hq En. by apply safe_is_dir, (Hp q n). Qed.

Lemma check_names_Ok p : ∀ os fs u fs', check_names p os fs = (Ok u, fs') →
  same fs fs' ∧ on_the_way (λ n, safe_ancestor n = true) fs p.
Proof.
  induction p as [|x p IH]; intros os fs u fs' E; cbn [check_names] in E;
    apply file_bind_Ok in E as (r & fs1 & E1%outcome_Ok & E); apply metadata_inv in E1 as [Hs Hr].
  - assert (on_the_way (λ n, safe_ancestor n = true) fs [] ∧ fs' = fs1) as [? ->]; [|done].
    split; [apply on_the_way_nil; intros n En|repeat case_match; (done || by injection E)].
    rewrite node_at_root, En in Hr. simpl in Hr. destruct Hr as [->|[f ->]]; [|by destruct f]. by case_match.
  - assert (check_names p os fs1 = (Ok u, fs')) as E' by (by repeat case_match).
    apply IH in E' as [Hs' Hp]. apply (on_the_way_same _ fs1 fs) in Hp; [|by destruct Hs; split].
    split; [by etrans|]. apply on_the_way_cons; [done|]. intros n En.
    rewrite node_at_below, En in Hr by by apply on_the_way_dirs. simpl in Hr.
    destruct Hr as [->|[f ->]]; [|by destruct f]. by case_match.
Qed.

Lemma absolute_names_Ok p os fs l fs' : absolute_names p os fs = (Ok l, fs') → same fs fs' ∧ l = resolve os p.
Proof.
  unfold absolute_names, resolve. destruct (is_absolute p); [by intros [= <- <-]|].
  unfold syscall. case_match; [done|]. by intros [= <- <-].
Qed.
Lemma check_ancestors_Ok p os fs u fs' : check_ancestors p os fs = (Ok u, fs') →
  same fs fs' ∧ on_the_way (λ n, safe_ancestor n = true) fs (resolve os p).
Proof.
  unfold check_ancestors. intros (l & fs1 & [Hs ->]%absolute_names_Ok & E)%file_bind_Ok.
  apply check_names_Ok in E as [Hs' Hp]. split; [by etrans|]. eapply on_the_way_same; [|done]. by destruct Hs.
Qed.

(** A parent that only its owner can enter, below directories that are safe. *)
Definition private_place (os : Os) (fs : Files) (q : list fname) : Prop :=
  on_the_way (λ n, safe_ancestor n = true) fs q ∧ ∃ d, nodes fs !! q = Some d ∧ private_dir os d = true.

Lemma ensure_parent_Ok path os fs u fs' : ensure_parent path os fs = (Ok u, fs') →
  private_place os fs' (resolve os (parent_or_here path)) ∧ only_adds os fs fs'.
Proof.
  intros E. split; [|pose proof (only_adding_ensure_parent path os fs) as Ha; by rewrite E in Ha].
  unfold ensure_parent in E. set (p := resolve _ _). apply file_bind_Ok in E as (u1 & fs1 & _ & E).
  apply file_bind_Ok in E as (where_ & fs2 & [= <- <-] & E). apply file_bind_Ok in E as (u2 & fs3 & _ & E).
  apply file_bind_Ok in E as (u3 & fs4 & [Hs Hp]%check_ancestors_Ok & E).
  apply file_bind_Ok in E as (n & fs5 & E1%metadata_inv & E). apply file_bind_Ok in E as (b & fs6 & [= <- <-] & E).
  destruct E1 as [Hs5 [Hn|[f ?]]]; [|done]. case_match eqn:Hb; [|done]. injection E as <- <-.
  fold p in Hp, Hn. apply (on_the_way_same _ _ _ _ Hs) in Hp.
  split; [by eapply on_the_way_same|]. exists n. split; [|done]. destruct Hs5 as [-> _].
  destruct p as [|x p]; [rewrite node_at_root in Hn|rewrite node_at_below in Hn].
  - by destruct (nodes fs4 !! []); simplify_eq/=.
  - by destruct (nodes fs4 !! (x :: p)); simplify_eq/=.
  - apply on_the_way_dirs. intros q m Hq. apply Hp. by apply suffix_cons_r.
Qed.

Lemma check_sidecars_Ok x q l os : ∀ fs u fs', on_the_way (λ n, is_dir n = true) fs q →
  check_sidecars (x :: q) l os fs = (Ok u, fs') →
  same fs fs' ∧ ∀ s n, s ∈ l → nodes fs !! sidecar s (x :: q) = Some n → private_file os n = true.
Proof.
  induction l as [|s l IH]; intros fs u fs' Hq E; cbn [check_sidecars] in E.
  { injection E as _ <-. split; [done|]. by intros s n ?%not_elem_of_nil. }
  apply file_bind_Ok in E as (u1 & fs1 & E1 & E). unfold check_sidecar in E1.
  apply file_bind_Ok in E1 as (r & fs2 & [Hs Hr]%outcome_Ok%metadata_inv & E1).
  assert (fs1 = fs2 ∧ ∀ n, r = Ok n → private_file os n = true) as [-> Hn].
  { destruct r as [n|[]]; try done; [|by injection E1].
    apply file_bind_Ok in E1 as (b & fs3 & [= <- <-] & E1). case_match; [|done]. injection E1 as _ <-.
    split; [done|]. by intros ? [= <-]. }
  destruct (IH fs2 u fs') as [Hs' Hl]; [by eapply on_the_way_same|done|].
  split; [by etrans|]. destruct Hs as [En _]. intros s' n [->|Hin]%elem_of_cons E'; [|rewrite <- En in E'; eauto].
  change (sidecar s (x :: q)) with ((x ++ s) :: q) in *. rewrite (node_at_below os fs (x ++ s) q Hq) in Hr. rewrite E' in Hr. simpl in Hr.
  destruct Hr as [->|[f ->]]; [by apply Hn|by destruct f].
Qed.

Lemma open_or_create_Ok x q os fs u fs' : on_the_way (λ n, is_dir n = true) fs q →
  open_or_create (x :: q) os fs = (Ok u, fs') →
  locked fs' = locked fs ∧ is_Some (nodes fs' !! (x :: q)) ∧
  (nodes fs' = nodes fs ∨ ∃ n, nodes fs' = <[x :: q := n]> (nodes fs)).
Proof.
  intros Hq E. unfold open_or_create in E.
  apply file_bind_Ok in E as (r & fs1 & [[Hs Hl] Hr]%outcome_Ok%metadata_inv & E).
  destruct r as [n|[]]; try done.
  - assert (fs' = fs1) as -> by (destruct (kind n); by simplify_eq/=; injection E).
    destruct Hr as [Hr|[f ?]]; [|done]. rewrite node_at_below in Hr by done.
    rewrite Hs. destruct (nodes fs !! (x :: q)); [|done]. eauto.
  - pose proof (create_node_cases (x :: q) (λ os, MkNode (Regular []) (euid os) (masked os 0x180)) os fs1) as Hc.
    rewrite E in Hc. simpl in Hc. destruct Hc as [[_ [k ?]]|(_ & _ & _ & En & El)]; [done|].
    rewrite En, El, Hs. split_and!; [done| |eauto]. rewrite lookup_insert, decide_True by done. eauto.
Qed.

(** ** A file system that works *)

Lemma file_bind_run {A B os} (m : FileM A) (k : A → FileM B) fs a fs1 :
  m os fs = (Ok a, fs1) → (m ≫= k) os fs = k a os fs1.
Proof. unfold mbind, FileM_bind. by intros ->. Qed.

Section calm.
Context (os : Os) (Hcalm : ∀ n, call_fails os n = None).
#[local] Set Default Proof Using "Hcalm".

Lemma syscall_calm {A} (f : Os → Files → result ErrorKind A * Files) fs : syscall f os fs = f os (called fs).
Proof. unfold syscall. by rewrite Hcalm. Qed.
Lemma metadata_calm p fs : symlink_metadata p os fs = (node_at os (called fs) p, called fs).
Proof. unfold symlink_metadata. by rewrite syscall_calm. Qed.
Lemma outcome_metadata_calm p fs : outcome (symlink_metadata p) os fs = (Ok (node_at os (called fs) p), called fs).
Proof. unfold outcome. by rewrite metadata_calm. Qed.

Abbreviation safe_way := (on_the_way (λ n, safe_ancestor n = true)).

Lemma on_the_way_below (P : Node → Prop) fs x p : on_the_way P fs (x :: p) → on_the_way P fs p.
Proof. intros Hp q n Hq. apply Hp. by apply suffix_cons_r. Qed.

Lemma check_names_calm p : ∀ fs, safe_way fs p → ∃ fs', check_names p os fs = (Ok tt, fs') ∧ same fs fs'.
Proof.
  induction p as [|x p IH]; intros fs Hp; cbn [check_names];
    rewrite (file_bind_run _ _ _ _ _ (outcome_metadata_calm _ _)).
  - rewrite node_at_root. simpl. destruct (nodes fs !! []) as [n|] eqn:En; simpl; [|by eexists].
    rewrite (Hp [] n (reflexivity _) En). by eexists.
  - rewrite node_at_below by by apply on_the_way_dirs, (on_the_way_below _ fs x). simpl.
    destruct (IH (called fs)) as (fs' & E & Hs); [by apply (on_the_way_below _ fs x)|].
    destruct (nodes fs !! (x :: p)) as [n|] eqn:En; simpl; [|by eexists].
    rewrite (Hp (x :: p) n (reflexivity _) En). by eexists.
Qed.
Lemma check_ancestors_calm p fs : safe_way fs (resolve os p) → ∃ fs', check_ancestors p os fs = (Ok tt, fs') ∧ same fs fs'.
Proof.
  intros Hp. unfold check_ancestors. assert (∃ fs1, absolute_names p os fs = (Ok (resolve os p), fs1) ∧ same fs fs1) as (fs1 & E1 & Hs).
  { unfold absolute_names, resolve. destruct (is_absolute p); [by eexists|]. rewrite syscall_calm. by eexists. }
  rewrite (file_bind_run _ _ _ _ _ E1). destruct (check_names_calm (resolve os p) fs1) as (fs' & E & Hs').
  { by eapply on_the_way_same. }
  exists fs'. split; [done|]. by etrans.
Qed.

Definition new_dir : Node := MkNode Directory (euid os) (masked os 0x1C0).
Lemma new_dir_private : private_dir os new_dir = true.
Proof. unfold private_dir. by apply new_private. Qed.
Lemma new_dir_safe : safe_ancestor new_dir = true.
Proof. unfold safe_ancestor, new_dir. cbn [is_dir kind mode]. by rewrite (masked_clear os 0x1C0 0x12). Qed.

Lemma create_node_calm x q n fs : on_the_way (λ n, is_dir n = true) fs q →
  outcome (create_node (x :: q) n) os fs =
  match nodes fs !! (x :: q), nodes fs !! q with
  | Some _, _ => (Ok (Err AlreadyExists), called fs)
  | None, Some _ => (Ok (Ok tt), with_nodes (<[x :: q := n os]> (nodes fs)) (called fs))
  | None, None => (Ok (Err NotFound), called fs)
  end.
Proof.
  intros Hq. unfold outcome, create_node. rewrite syscall_calm, node_at_below by done. simpl nodes.
  destruct (nodes fs !! (x :: q)) eqn:E1; [done|]. simpl ok_or. cbv iota.
  rewrite above_none; [by destruct (nodes fs !! q)|]. intros p m Hp Em. specialize (Hq p m Hp Em).
  unfold is_dir, is_link in *. by destruct (kind m).
Qed.

Lemma path_is_dir_calm p fs n : node_at os (called fs) p = Ok n → path_is_dir p os fs = (Ok (is_dir n), called fs).
Proof. intros E. unfold path_is_dir. by rewrite (file_bind_run _ _ _ _ _ (outcome_metadata_calm _ _)), E. Qed.

(** What [create_dir_all] leaves of the way to [p]. *)
Definition made (fs fs' : Files) (p : list fname) : Prop :=
  locked fs' = locked fs ∧ (∀ q, ¬ q `suffix_of` p → nodes fs' !! q = nodes fs !! q) ∧ safe_way fs' p ∧
  (nodes fs' !! p = nodes fs !! p ∧ is_Some (nodes fs !! p) ∨ nodes fs !! p = None ∧ nodes fs' !! p = Some new_dir).

Lemma made_insert fs x p : safe_way fs p → nodes fs !! (x :: p) = None →
  made fs (with_nodes (<[x :: p := new_dir]> (nodes fs)) (called fs)) (x :: p).
Proof.
  intros Hp En. split_and!; simpl; [done| | |right; split; [done|]].
  - intros q Hq. rewrite lookup_insert_ne; [done|]. intros <-. by apply Hq.
  - apply on_the_way_cons; simpl.
    + intros q n Hq. simpl. rewrite lookup_insert_ne; [by apply Hp|]. intros <-.
      apply suffix_length in Hq. simpl in Hq. lia.
    + intros n. rewrite lookup_insert, decide_True by done. intros [= <-]. apply new_dir_safe.
  - by rewrite lookup_insert, decide_True.
Qed.

Lemma create_dir_all_calm p : ∀ fs, safe_way fs p → is_Some (nodes fs !! []) →
  ∃ fs', create_dir_all p os fs = (Ok tt, fs') ∧ made fs fs' p.
Proof.
  induction p as [|x p IH]; intros fs Hp [root Hroot]; cbn [create_dir_all].
  { assert (outcome (mkdir []) os fs = (Ok (Err AlreadyExists), called fs)) as E.
    { unfold mkdir, create_node, outcome. rewrite syscall_calm, node_at_root. simpl. by rewrite Hroot. }
    rewrite (file_bind_run _ _ _ _ _ E). cbv beta iota. rewrite (file_bind_run _ _ _ _ _ (path_is_dir_calm [] (called fs) root ltac:(rewrite node_at_root; simpl; by rewrite Hroot))).
    rewrite (safe_is_dir root) by by eapply Hp. eexists. split; [done|]. split_and!; [done|done|done|]. left. split; [done|by eexists]. }
  pose proof (on_the_way_below _ _ _ _ Hp) as Hq.
  pose proof (create_node_calm x p (λ os, MkNode Directory (euid os) (masked os 0x1C0)) fs (on_the_way_dirs _ _ Hq)) as Emk.
  fold (mkdir (x :: p)) in Emk. destruct (nodes fs !! (x :: p)) as [n|] eqn:En.
  { rewrite (file_bind_run _ _ _ _ _ Emk). cbv beta iota.
    rewrite (file_bind_run _ _ _ _ _ (path_is_dir_calm (x :: p) (called fs) n ltac:(rewrite node_at_below by (by apply on_the_way_dirs); simpl; by rewrite En))).
    rewrite (safe_is_dir n) by by eapply Hp. eexists. split; [done|]. split_and!; [done|done|done|]. left. split; [done|by eexists]. }
  destruct (nodes fs !! p) as [d|] eqn:Ed.
  { rewrite (file_bind_run _ _ _ _ _ Emk). eexists. split; [done|]. by apply made_insert. }
  rewrite (file_bind_run _ _ _ _ _ Emk). cbv beta iota.
  destruct (IH (called fs)) as (fs1 & E1 & Hl & Hother & Hway & Hnew); [done|by exists root|].
  rewrite (file_bind_run _ _ _ _ _ E1).
  pose proof (create_node_calm x p (λ os, MkNode Directory (euid os) (masked os 0x1C0)) fs1 (on_the_way_dirs _ _ Hway)) as Emk1.
  fold (mkdir (x :: p)) in Emk1.
  assert (nodes fs1 !! (x :: p) = None) as En1.
  { rewrite Hother; [done|]. intros Hs%suffix_length. simpl in Hs. lia. }
  assert (∃ d, nodes fs1 !! p = Some d) as [d Ed1] by (destruct Hnew as [[_ [d Hd]]|[_ Hd]]; [by simpl in Hd; congruence|eauto]).
  rewrite En1, Ed1 in Emk1. rewrite (file_bind_run _ _ _ _ _ Emk1). eexists. split; [done|].
  destruct (made_insert fs1 x p Hway En1) as (Hl2 & Hother2 & Hway2 & Hnew2). split_and!; [exact Hl| |done|].
  - intros q Hq'. rewrite Hother2 by done. apply Hother. intros Hs. apply Hq'. by apply suffix_cons_r.
  - right. split; [done|]. destruct Hnew2 as [[_ [? Hbad]]|[_ Hd2]]; [congruence|done].
Qed.

Lemma ensure_parent_calm path fs : let q := resolve os (parent_or_here path) in
  safe_way fs q → is_Some (nodes fs !! []) → (∀ d, nodes fs !! q = Some d → private_dir os d = true) →
  ∃ fs', ensure_parent path os fs = (Ok tt, fs') ∧ made fs fs' q.
Proof.
  intros q Hq Hroot Hd. unfold ensure_parent.
  destruct (check_ancestors_calm _ _ Hq) as (fs1 & E1 & Hs1). rewrite (file_bind_run _ _ _ _ _ E1).
  rewrite (file_bind_run _ _ fs1 q fs1) by done. destruct Hs1 as [En1 El1].
  destruct (create_dir_all_calm q fs1) as (fs2 & E2 & Hl & Hother & Hway & Hnew); [by intros p n; rewrite En1; apply Hq|by rewrite En1|].
  rewrite (file_bind_run _ _ _ _ _ E2). destruct (check_ancestors_calm (parent_or_here path) fs2 Hway) as (fs3 & E3 & [En3 El3]).
  rewrite (file_bind_run _ _ _ _ _ E3). rewrite En1 in *.
  assert (∃ d, nodes fs2 !! q = Some d ∧ private_dir os d = true) as (d & Ed & Hpd).
  { destruct Hnew as [[Heq [d Ed]]|[_ Ed]]; [|exists new_dir; split; [done|apply new_dir_private]].
    exists d. rewrite Heq. eauto. }
  assert (node_at os (called fs3) q = Ok d) as Hn.
  { destruct q as [|x q']; [rewrite node_at_root|rewrite node_at_below]; simpl; rewrite ?En3, ?Ed; try done.
    apply on_the_way_dirs. intros p n Hp. simpl. rewrite En3. by apply (on_the_way_below _ _ _ _ Hway). }
  pose proof (metadata_calm q fs3) as Em. rewrite Hn in Em.
  rewrite (file_bind_run _ _ _ _ _ Em). rewrite (file_bind_run _ _ (called fs3) (private_dir os d) (called fs3)) by done.
  rewrite Hpd. eexists. split; [done|]. unfold made. simpl. rewrite En3, El3, Hl, El1. split_and!; try done.
  intros p n Hp. simpl. rewrite En3. by apply Hway.
Qed.

Lemma check_sidecars_calm x q l fs : on_the_way (λ n, is_dir n = true) fs q →
  (∀ s n, s ∈ l → nodes fs !! sidecar s (x :: q) = Some n → private_file os n = true) →
  ∃ fs', check_sidecars (x :: q) l os fs = (Ok tt, fs') ∧ same fs fs'.
Proof.
  revert fs. induction l as [|s l IH]; intros fs Hq Hl; cbn [check_sidecars]; [by eexists|].
  assert (check_sidecar (x :: q) s os fs = (Ok tt, called fs)) as E.
  { unfold check_sidecar. rewrite (file_bind_run _ _ _ _ _ (outcome_metadata_calm _ _)).
    pose proof (Hl s) as Hs. change (sidecar s (x :: q)) with ((x ++ s) :: q) in *. rewrite node_at_below by done. simpl.
    destruct (nodes fs !! ((x ++ s) :: q)) as [n|]; simpl; [|done].
    rewrite (file_bind_run _ _ (called fs) (private_file os n) (called fs)) by done.
    rewrite (Hs n); [done|by left|done]. }
  rewrite (file_bind_run _ _ _ _ _ E). destruct (IH (called fs) Hq) as (fs' & E' & Hs); [|by exists fs'].
  intros s' n Hin. apply Hl. by right.
Qed.

Lemma private_file_opens n : private_file os n = true → match kind n with Regular _ => True | _ => False end.
Proof. unfold private_file, is_file. by destruct (kind n). Qed.

Lemma open_or_create_calm x q fs : on_the_way (λ n, is_dir n = true) fs q → is_Some (nodes fs !! q) →
  (∀ n, nodes fs !! (x :: q) = Some n → private_file os n = true) →
  ∃ fs' n, open_or_create (x :: q) os fs = (Ok tt, fs') ∧ locked fs' = locked fs ∧
    nodes fs' = <[x :: q := n]> (nodes fs) ∧ private_file os n = true.
Proof.
  intros Hq [d Hd] Hn. unfold open_or_create. rewrite (file_bind_run _ _ _ _ _ (outcome_metadata_calm _ _)).
  rewrite node_at_below by done. simpl. destruct (nodes fs !! (x :: q)) as [n|] eqn:En; simpl.
  - exists (called fs), n. specialize (Hn n eq_refl). pose proof (private_file_opens n Hn). destruct (kind n); try done.
    split_and!; try done. simpl. by rewrite insert_id.
  - pose (new := λ os, MkNode (Regular []) (euid os) (masked os 0x180)). pose proof (create_node_calm x q new (called fs) Hq) as E. simpl in E. rewrite En, Hd in E.
    apply outcome_Ok in E. exists (with_nodes (<[x :: q := new os]> (nodes fs)) (called (called fs))), (new os).
    split_and!; try done. unfold private_file. simpl. by apply new_private.
Qed.
End calm.

(** ** Opening *)

(** Where a private file can be opened, or made. *)
Record openable (os : Os) (fs : Files) (x : fname) (q : list fname) : Prop := {
  openable_way : on_the_way (λ n, safe_ancestor n = true) fs q;
  openable_dir : ∀ d, nodes fs !! q = Some d → private_dir os d = true;
  openable_file : ∀ n, nodes fs !! (x :: q) = Some n → private_file os n = true;
  openable_sidecars : ∀ s n, s ∈ suffixes → nodes fs !! sidecar s (x :: q) = Some n → private_file os n = true;
  openable_lock : x :: q ∉ locked fs;
}.

Lemma resolve_file os b x q : resolve os (MkPath b (x :: q)) = x :: resolve os (MkPath b q).
Proof. by destruct b. Qed.

Lemma suffixes_apart s x : s ∈ suffixes → x ++ s ≠ (x : list byte).
Proof.
  intros Hs E. apply (f_equal length) in E. rewrite length_app in E.
  assert (s = []) as -> by (destruct s; [done|simpl in E; lia]). 
  revert Hs. apply (bool_decide_eq_false _). vm_compute. reflexivity.
Qed.

Lemma open_locked_Ok os fs b x q p fs' :
  open_locked (MkPath b (x :: q)) os fs = (Ok p, fs') →
  p = resolve os (MkPath b (x :: q)) ∧
  (∃ n, nodes fs' !! p = Some n ∧ private_file os n = true) ∧
  private_place os fs' (tail p) ∧
  (∀ s n, s ∈ suffixes → nodes fs' !! sidecar s p = Some n → private_file os n = true) ∧
  (p ∉ locked fs) ∧ p ∈ locked fs'.
Proof.
  intros E. unfold open_locked in E.
  pose proof (only_adding_ensure_parent (MkPath b (x :: q)) os fs) as Ha1.
  apply file_bind_Ok in E as (u & fs1 & E1 & E). rewrite E1 in Ha1. apply ensure_parent_Ok in E1 as [[Hway (d & Ed & Hd)] _].
  unfold parent_or_here in *. cbn [names is_absolute] in *. set (q' := resolve os (MkPath b q)) in *.
  apply file_bind_Ok in E as (p1 & fs2 & [= <- <-] & E). rewrite resolve_file in *. fold q' in E |- *.
  apply file_bind_Ok in E as (u2 & fs3 & E2 & E). apply check_sidecars_Ok in E2 as [[En3 El3] Hside]; [|by apply on_the_way_dirs].
  apply file_bind_Ok in E as (u3 & fs4 & E3 & E).
  apply open_or_create_Ok in E3 as (El4 & _ & En4); [|apply on_the_way_dirs; intros p' n'; rewrite En3; apply Hway].
  rewrite En3 in En4.
  assert (∀ p', p' ≠ x :: q' → nodes fs4 !! p' = nodes fs1 !! p') as Hsame.
  { intros p' Hp'. destruct En4 as [->|[n ->]]; [done|]. by rewrite lookup_insert_ne. }
  assert (on_the_way (λ n, safe_ancestor n = true) fs4 q') as Hway4.
  { intros p' n' Hp'. rewrite Hsame; [by apply Hway|]. intros ->. apply suffix_length in Hp'. simpl in Hp'. lia. }
  apply file_bind_Ok in E as (meta & fs5 & [[En5 El5] Hm]%metadata_inv & E). destruct Hm as [Hm|[f ?]]; [|done].
  apply file_bind_Ok in E as (b0 & fs6 & [= <- <-] & E). apply file_bind_Ok in E as (u4 & fs7 & E4 & E).
  case_match eqn:Hpriv; [|done]. injection E4 as <- <-. apply file_bind_Ok in E as (r5 & fs8 & E5%outcome_Ok & E).
  destruct r5; [|done]. injection E as <- <-. unfold try_lock, syscall in E5. case_match; [done|]. case_decide as Hfree; [done|].
  injection E5 as <- <-. simpl in *. rewrite En5. split_and!; [done| | | | |set_solver].
  - exists meta. split; [|done]. rewrite node_at_below in Hm by by apply on_the_way_dirs.
    by destruct (nodes fs4 !! (x :: q')); simplify_eq/=.
  - split; [exact Hway4|]. exists d. split; [|done]. simpl.
    rewrite Hsame; [done|]. intros Hx. apply (f_equal length) in Hx. simpl in Hx. lia.
  - intros s n Hs. rewrite Hsame; [by apply Hside|]. intros [= Hx]. by eapply suffixes_apart.
  - rewrite El5, El4, El3 in Hfree. intros Hin. apply Hfree. by apply (adds_locks _ _ _ Ha1).
Qed.


(** On a file system whose calls work, [open_locked] succeeds exactly where a private file
    can be. *)
Lemma open_locked_exactly os fs b x q :
  (∀ n, call_fails os n = None) → is_Some (nodes fs !! []) →
  (∃ p fs', open_locked (MkPath b (x :: q)) os fs = (Ok p, fs')) ↔ openable os fs x (resolve os (MkPath b q)).
Proof.
  intros Hcalm Hroot. set (q' := resolve os (MkPath b q)). split.
  - intros (p & fs' & E).
    assert (only_adds os fs fs') as [Hsub _ _ _].
    { pose proof (only_adding_open_locked (MkPath b (x :: q)) os fs) as Ha. by rewrite E in Ha. }
    destruct (open_locked_Ok _ _ _ _ _ _ _ E) as (-> & (n & En & Hn) & [Hway (d & Ed & Hd)] & Hside & Hfree & _).
    assert (∀ p n, nodes fs !! p = Some n → nodes fs' !! p = Some n) as Hk by (intros; by eapply lookup_weaken).
    rewrite resolve_file in *. fold q' in Hway, Ed, En, Hside, Hfree. simpl in Hway, Ed. split; [|..|done].
    + intros p m Hp Em. by eapply Hway, Hk.
    + intros d' Ed'. apply Hk in Ed'. congruence.
    + intros n' En'. apply Hk in En'. congruence.
    + intros s m Hs Em. eauto.
  - intros [Hway Hdir Hfile Hside Hfree]. unfold open_locked.
    destruct (ensure_parent_calm os Hcalm (MkPath b (x :: q)) fs) as (fs1 & E1 & Hl & Hother & Hway1 & Hnew); [done..|].
    unfold parent_or_here in Hother, Hway1, Hnew. cbn [names is_absolute] in *. fold q' in Hother, Hway1, Hnew.
    rewrite (file_bind_run _ _ _ _ _ E1). rewrite (file_bind_run _ _ fs1 (x :: q') fs1) by (unfold environment; by rewrite resolve_file).
    assert (∀ y, nodes fs1 !! (y :: q') = nodes fs !! (y :: q')) as Hfiles.
    { intros y. apply Hother. intros Hs%suffix_length. simpl in Hs. lia. }
    destruct (check_sidecars_calm os Hcalm x q' suffixes fs1) as (fs2 & E2 & [En2 El2]); [by apply on_the_way_dirs| |].
    { intros s n Hs. change (sidecar s (x :: q')) with ((x ++ s) :: q'). rewrite Hfiles. by apply Hside. }
    rewrite (file_bind_run _ _ _ _ _ E2).
    destruct (open_or_create_calm os Hcalm x q' fs2) as (fs3 & n & E3 & El3 & En3 & Hn).
    { apply on_the_way_dirs. intros p m. rewrite En2. apply Hway1. }
    { rewrite En2. destruct Hnew as [[-> ?]|[_ ->]]; [done|by eexists]. }
    { intros m. rewrite En2, Hfiles. apply Hfile. }
    rewrite (file_bind_run _ _ _ _ _ E3). pose proof (metadata_calm os Hcalm (x :: q') fs3) as Em.
    rewrite node_at_below in Em; cycle 1.
    { apply on_the_way_dirs. intros p m Hp. simpl. rewrite En3, lookup_insert_ne, En2; [by apply Hway1|].
      intros <-. apply suffix_length in Hp. simpl in Hp. lia. }
    simpl in Em. rewrite En3, lookup_insert, decide_True in Em by done. rewrite (file_bind_run _ _ _ _ _ Em).
    rewrite (file_bind_run _ _ (called fs3) (private_file os n) (called fs3)) by done. rewrite Hn.
    rewrite (file_bind_run _ _ (called fs3) tt (called fs3)) by done. unfold try_lock.
    unfold outcome, mbind, FileM_bind. rewrite syscall_calm, decide_False; [by do 2 eexists| |done].
    simpl. by rewrite El3, El2, Hl.
Qed.

(** C26: a file that [open_locked] opens is private. Whatever calls of the file system
    fail, when it succeeds the file is a regular file of the user's that nobody else may
    read or write; so is its directory, no directory above which anybody else can write to
    unless its entries are protected, and none of which is a symbolic link; the database's
    sidecar files are private where they exist; and the lock was free and is taken. When
    it fails too, nothing that existed has been changed, and what was created is the
    user's own. And where every call works it succeeds exactly where a private file can
    be: every directory on the way that exists is safe, the file, its directory and its
    sidecars, where they exist, are private, and nobody holds the lock. *)
Theorem private_files_are_private os fs b x q r fs' :
  open_locked (MkPath b (x :: q)) os fs = (r, fs') →
  only_adds os fs fs' ∧
  ((∀ n, call_fails os n = None) → is_Some (nodes fs !! []) →
     (∃ p, r = Ok p) ↔ openable os fs x (resolve os (MkPath b q))) ∧
  ∀ p, r = Ok p → p = resolve os (MkPath b (x :: q)) ∧
    (∃ n, nodes fs' !! p = Some n ∧ private_file os n = true) ∧
    private_place os fs' (tail p) ∧
    (∀ s n, s ∈ suffixes → nodes fs' !! sidecar s p = Some n → private_file os n = true) ∧
    (p ∉ locked fs) ∧ p ∈ locked fs'.
Proof.
  intros E. split_and!; [pose proof (only_adding_open_locked (MkPath b (x :: q)) os fs) as Ha; by rewrite E in Ha| |].
  - intros Hc Hroot. rewrite <- (open_locked_exactly os fs b x q Hc Hroot). rewrite E. naive_solver.
  - intros p ->. by eapply open_locked_Ok.
Qed.

(** A home directory in which nothing has been made yet. *)
Definition home_os : Os := MkOs 1000 0x12 [] (λ _, None) (λ _, None) (λ _, Err NotFound).
Definition home : list fname := utf8 <$> [lit "alice"; lit "home"].
Definition home_files : Files :=
  MkFiles (<[home := MkNode Directory 1000 0x1C0]> (<[tail home := MkNode Directory 0 0x1ED]>
             {[[] := MkNode Directory 0 0x1ED]})) ∅ 0.
Definition database_path : Path := MkPath true (utf8 <$> [lit "client.db"; lit "grotto"; lit "alice"; lit "home"]).

Lemma private_files_are_private_witness :
  ∃ p fs', open_locked database_path home_os home_files = (Ok p, fs') ∧
    (∃ n, nodes fs' !! p = Some n ∧ private_file home_os n = true) ∧ p ∈ locked fs' ∧
    openable home_os home_files (utf8 (lit "client.db")) (utf8 (lit "grotto") :: home) ∧
    (open_locked database_path home_os fs').1 = Err WouldBlock.
Proof.
  destruct (open_locked database_path home_os home_files) as [r fs'] eqn:E.
  assert ((open_locked database_path home_os home_files).1 = Ok (names database_path)) as Er by (vm_compute; reflexivity).
  rewrite E in Er. simpl in Er. subst r.
  destruct (private_files_are_private _ _ _ _ _ _ _ E) as (_ & Hex & H).
  destruct (H _ eq_refl) as (_ & Hn & _ & _ & _ & Hl).
  exists (names database_path), fs'. split; [reflexivity|]. split; [exact Hn|]. split; [exact Hl|].
  split; [apply Hex; [reflexivity|vm_compute; eexists; reflexivity|eexists; reflexivity]|].
  assert (fs' = (open_locked database_path home_os home_files).2) as -> by (rewrite E; reflexivity).
  vm_compute. reflexivity.
Defined.
