(* ===== verification/Identifiers.v ===== *)
(** * Identifiers and fingerprints as text

    [Display] and [FromStr] of the identifier types ([impl_id!]), and the hex form
    of certificate fingerprints ([cert_fingerprint_sha256_hex],
    [parse_fingerprint_hex]) of src/crates/grotto-protocol/src/lib.rs. SHA-256 is
    the [sha2] crate's and enters as an interface with no laws: nothing here
    depends on what the digest is. *)
From S2P Require Import Prelude Bytes Text Protocol.

(** [Sha256::digest]. *)
Class Sha256 := sha256 : list byte → bytes 32.

Module ParseIdError.
Inductive t := InvalidLength | InvalidHex.
#[global] Instance eq_dec : EqDecision t.
Proof. solve_decision. Defined.
End ParseIdError.

Module ParseFingerprintError.
Inductive t := InvalidLength | InvalidHex.
#[global] Instance eq_dec : EqDecision t.
Proof. solve_decision. Defined.
End ParseFingerprintError.

(** The string of ASCII bytes. *)
Definition ascii_str (l : list byte) : str := omap (λ b, char_from_u32 (b2z b)) l.

(** ** Identifiers *)

(** [Display for UserId] and the other identifiers. *)
Definition id_to_string {n} (id : bytes n) : str := ascii_str (hex_string id).

(** The loop over [&value[2 * index..2 * index + 2]]; an ASCII string is indexed by
    its bytes. *)
Fixpoint parse_pairs (n : nat) (l : list byte) : option (bytes n) :=
  match n with
  | O => Some [#]
  | S n =>
      v ← from_str_radix 16 u8_max (take 2 l);
      rest ← parse_pairs n (drop 2 l);
      Some (z2b v ::: rest)
  end.

(** [FromStr for UserId] and the other identifiers. *)
Definition id_from_str (value : str) : result ParseIdError.t (bytes 16) :=
  if decide (str_len value ≠ 32) then Err ParseIdError.InvalidLength
  else if negb (is_ascii value) then Err ParseIdError.InvalidLength
  else ok_or ParseIdError.InvalidHex (parse_pairs 16 (utf8 value)).

(** ** Fingerprints *)

(** [b'0' + value] and [b'a' + (value - 10)] on [u8]. *)
Definition hex_nibble (value : Z) : option char :=
  if decide (0 ≤ value ≤ 9) then char_from_u32 (48 + value)
  else char_from_u32 ((97 + (value - 10)) `mod` 256).

Fixpoint fingerprint_digits (digest : list byte) : option str :=
  match digest with
  | [] => Some []
  | b :: digest =>
      high ← hex_nibble (Z.shiftr (b2z b) 4);
      low ← hex_nibble (Z.land (b2z b) 0x0f);
      rest ← fingerprint_digits digest;
      Some (high :: low :: rest)
  end.

Definition cert_fingerprint_sha256_hex `{Sha256} (cert_der : list byte) : option str :=
  fingerprint_digits (sha256 cert_der).

Definition parse_fingerprint_hex (encoded : str) : result ParseFingerprintError.t (bytes 32) :=
  let encoded := trim encoded in
  if decide (str_len encoded ≠ 64) then Err ParseFingerprintError.InvalidLength
  else if negb (is_ascii encoded) then Err ParseFingerprintError.InvalidLength
  else ok_or ParseFingerprintError.InvalidHex (parse_pairs 32 (utf8 encoded)).

(** ** Lemmas *)

Lemma parse_pairs_hex_string n (v : bytes n) l : parse_pairs n (hex_string v ++ l) = Some v.
Proof.
  induction v as [|b n v IH]; [done|]. cbn [parse_pairs vec_to_list].
  unfold hex_string in *. rewrite bind_cons, <- (assoc_L (++)).
  rewrite take_app_length', drop_app_length' by done.
  rewrite from_str_radix_format_02x. cbn [mbind option_bind]. rewrite IH. simpl.
  by rewrite z2b_b2z.
Qed.

Lemma ascii_char b : b2z b < 128 → ∃ c, char_from_u32 (b2z b) = Some c ∧ utf8_char c = [b] ∧ code c = b2z b.
Proof.
  intros Hb. pose proof (b2z_range b). unfold char_from_u32.
  destruct (decide (Is_true (scalar (b2z b)))) as [Hs|Hs].
  - eexists. split; [done|]. split; [|done]. unfold utf8_char. simpl.
    destruct (b2z b <? 128) eqn:E; reflect_bools; [|lia]. by rewrite z2b_b2z.
  - destruct Hs. unfold scalar. apply Is_true_true.
    rewrite (proj2 (Z.leb_le _ _)), (proj2 (Z.ltb_lt _ _)) by lia. done.
Qed.

Lemma utf8_ascii_str l : Forall (λ b, b2z b < 128) l → utf8 (ascii_str l) = l ∧ is_ascii (ascii_str l) = true.
Proof.
  induction 1 as [|b l Hb _ [IHu IHa]]; [done|].
  destruct (ascii_char b Hb) as (c & Hc & Hu & Hcode). unfold ascii_str in *. cbn [omap list_omap].
  rewrite Hc. split.
  - unfold utf8 in *. rewrite bind_cons, Hu, IHu. done.
  - simpl. rewrite IHa, Hcode. by rewrite (proj2 (Z.ltb_lt _ _)).
Qed.

Lemma utf8_hex_text l :
  utf8 (ascii_str (hex_string l)) = hex_string l ∧ is_ascii (ascii_str (hex_string l)) = true.
Proof. apply utf8_ascii_str, Forall_forall, hex_string_ascii. Qed.

Lemma str_len_hex_text l : str_len (ascii_str (hex_string l)) = 2 * len l.
Proof. unfold str_len. rewrite (proj1 (utf8_hex_text l)). unfold len. rewrite length_hex_string. lia. Qed.

Lemma fingerprint_byte b :
  (high ← hex_nibble (Z.shiftr (b2z b) 4); low ← hex_nibble (Z.land (b2z b) 0x0f);
   Some [high; low]) = Some (ascii_str (format_02x b)).
Proof. destruct b; vm_compute; reflexivity. Qed.

(** The digits of a fingerprint are the lower-case hex of the digest. *)
Lemma fingerprint_digits_hex l : fingerprint_digits l = Some (ascii_str (hex_string l)).
Proof.
  induction l as [|b l IH]; [done|]. cbn [fingerprint_digits]. rewrite IH.
  unfold hex_string. rewrite bind_cons. unfold ascii_str. rewrite omap_app.
  fold (ascii_str (format_02x b)). pose proof (fingerprint_byte b) as Hb.
  set (digits := ascii_str (format_02x b)) in *. clearbody digits.
  destruct (hex_nibble (Z.shiftr _ _)); [|done]. destruct (hex_nibble (Z.land _ _)); [|done].
  injection Hb as Hb. cbn [mbind option_bind]. by rewrite <- Hb.
Qed.

Lemma hex_byte_no_space b :
  forallb (λ c, negb (is_whitespace c)) (ascii_str (format_02x b)) = true.
Proof. destruct b; vm_compute; reflexivity. Qed.

Lemma hex_text_no_space l : Forall (λ c, is_whitespace c = false) (ascii_str (hex_string l)).
Proof.
  induction l as [|b l IH]; [constructor|].
  unfold hex_string. rewrite bind_cons. unfold ascii_str in *. rewrite omap_app.
  apply Forall_app. split; [|done]. fold (ascii_str (format_02x b)).
  pose proof (hex_byte_no_space b) as Hb. rewrite forallb_forall in Hb.
  apply Forall_forall. intros c Hc%list_elem_of_In. by apply negb_true_iff, Hb.
Qed.

Lemma trim_start_space p s : forallb is_whitespace p = true → trim_start (p ++ s) = trim_start s.
Proof. induction p as [|c p IH]; simpl; [done|]. intros [-> Hp]%andb_true_iff. auto. Qed.

Lemma forallb_rev {A} (f : A → bool) l : forallb f (rev l) = forallb f l.
Proof.
  induction l as [|a l IH]; [done|]. simpl. rewrite forallb_app, IH. simpl.
  rewrite andb_true_r. apply andb_comm.
Qed.

(** White space around a text without white space is what [trim] removes. *)
Lemma trim_around p s q :
  forallb is_whitespace p = true → forallb is_whitespace q = true →
  Forall (λ c, is_whitespace c = false) s → s ≠ [] → trim (p ++ s ++ q) = s.
Proof.
  intros Hp Hq Hs Hne. unfold trim, trim_end. rewrite trim_start_space by done.
  rewrite (trim_start_id (s ++ q)) by (destruct Hs; done).
  rewrite rev_app_distr, trim_start_space by (by rewrite forallb_rev).
  rewrite trim_start_id; [apply rev_involutive|].
  apply Forall_rev in Hs. destruct Hs; done.
Qed.

(** A 64-digit lower-case hex text parses to its bytes. *)
Lemma parse_fingerprint_hex_around p (v : bytes 32) q :
  forallb is_whitespace p = true → forallb is_whitespace q = true →
  parse_fingerprint_hex (p ++ ascii_str (hex_string v) ++ q) = Ok v.
Proof.
  intros Hp Hq. destruct (utf8_hex_text v) as [Hu Ha].
  assert (ascii_str (hex_string v) ≠ []) as Hne.
  { intros E. pose proof (str_len_hex_text v) as Hl. rewrite E, len_vec in Hl. done. }
  unfold parse_fingerprint_hex. rewrite trim_around; [|done|done|apply hex_text_no_space|done].
  rewrite str_len_hex_text, len_vec. rewrite decide_False by lia. rewrite Ha, Hu.
  cbn [negb]. by rewrite <- (app_nil_r (hex_string _)), parse_pairs_hex_string.
Qed.

Lemma parse_fingerprint_hex_text (v : bytes 32) : parse_fingerprint_hex (ascii_str (hex_string v)) = Ok v.
Proof. rewrite <- (app_nil_r (ascii_str _)). by apply (parse_fingerprint_hex_around []). Qed.

(** ** Properties *)

(** Identifiers and certificate fingerprints survive their text form: what
    [Display] prints for an identifier parses back to it, and the fingerprint the
    relay prints for a certificate parses, with any surrounding white space, to the
    certificate's SHA-256 digest. *)
Theorem printed_ids_and_fingerprints_parse `{Sha256} (id : bytes 16) cert p q :
  forallb is_whitespace p = true → forallb is_whitespace q = true →
  id_from_str (id_to_string id) = Ok id ∧
  ∃ text, cert_fingerprint_sha256_hex cert = Some text ∧ len text = 64 ∧
    parse_fingerprint_hex (p ++ text ++ q) = Ok (sha256 cert).
Proof.
  intros Hp Hq. destruct (utf8_hex_text id) as [Hu Ha]. split.
  - unfold id_from_str, id_to_string. rewrite str_len_hex_text, len_vec.
    rewrite decide_False by lia. rewrite Ha, Hu. cbn [negb].
    by rewrite <- (app_nil_r (hex_string id)), parse_pairs_hex_string.
  - unfold cert_fingerprint_sha256_hex. rewrite fingerprint_digits_hex.
    eexists. split; [done|]. destruct (utf8_hex_text (sha256 cert)) as [Hu' Ha'].
    split; [|by apply parse_fingerprint_hex_around].
    rewrite <- str_len_ascii by done. by rewrite str_len_hex_text, len_vec.
Qed.

Lemma printed_ids_and_fingerprints_parse_witness :
  ∃ text, @cert_fingerprint_sha256_hex (λ _, vreplicate 32 x5a) [x30] = Some text ∧
    len text = 64 ∧ parse_fingerprint_hex (text ++ lit " ") = Ok (vreplicate 32 x5a).
Proof.
  apply (@printed_ids_and_fingerprints_parse (λ _, vreplicate 32 x5a)
           (vreplicate 16 x00) [x30] [] (lit " ")); reflexivity.
Defined.

(** [from_str_radix] skips a plus sign, so a pair of characters may be a plus sign
    and one digit: such a string is no hex text of an identifier or a fingerprint,
    and both parsers accept it. *)
Lemma id_from_str_accepts_plus :
  id_from_str (lit "+f+f+f+f+f+f+f+f+f+f+f+f+f+f+f+f") = Ok (vreplicate 16 x0f) ∧
  parse_fingerprint_hex
    (lit "+f+f+f+f+f+f+f+f+f+f+f+f+f+f+f+f+f+f+f+f+f+f+f+f+f+f+f+f+f+f+f+f")
  = Ok (vreplicate 32 x0f).
Proof. split; vm_compute; reflexivity. Qed.
