(* ===== verification/Crypto.v ===== *)
(** * Signatures

    What the program uses of the [ed25519_dalek] crate: interfaces, since the crate is
    not part of it. *)
From S2P Require Import Prelude Bytes.

(** [VerifyingKey::from_bytes] and [VerifyingKey::verify_strict]. *)
Class Ed25519 := {
  key_from_bytes : bytes 32 → bool;
  verify_strict : bytes 32 → list byte → bytes 64 → bool;
}.

(** [SigningKey::verifying_key] and [Signer::sign] for the signing key of a seed. A
    derived key is a valid one and verifies the signatures of its seed. *)
Class Ed25519Signer `{Ed25519} := {
  verifying_key : bytes 32 → bytes 32;
  sign : bytes 32 → list byte → bytes 64;
  verifying_key_valid seed : key_from_bytes (verifying_key seed) = true;
  sign_verifies seed message : verify_strict (verifying_key seed) message (sign seed message) = true;
}.
