(* ===== verification/Transcripts.v ===== *)
(** * Signed and hashed transcripts

    [authentication_transcript] (src/crates/grotto-protocol/src/lib.rs),
    [event_authenticated_data], [welcome_transcript], [payload_hash] and
    [acknowledgement_id] (delivery.rs): the byte strings the two sides sign, bind
    into MLS messages and hash. *)
From S2P Require Import Prelude Bytes Text Postcard Protocol Wire Identifiers.

(** A byte-string literal [b"..."] of the source. *)
Definition bytes_lit (s : string) : list byte := String.list_byte_of_string s.

(** ** [authentication_transcript] *)

Definition AUTHENTICATION_DOMAIN : list byte := bytes_lit "GROTTO-AUTH-V1".
Definition AUTHENTICATION_TRANSCRIPT_LENGTH : nat := 14 + 2 + 16 + 32 + 32.

(** [transcript[offset..end].copy_from_slice(field)]; [None] is the panic of a
    slice out of range. *)
Definition copy_from_slice (transcript : list byte) (offset : nat) (field : list byte)
    : option (list byte) :=
  let stop := (offset + length field)%nat in
  if decide (stop ≤ length transcript)%nat
  then Some (take offset transcript ++ field ++ drop stop transcript)
  else None.

Fixpoint copy_fields (transcript : list byte) (offset : nat) (fields : list (list byte))
    : option (list byte) :=
  match fields with
  | [] => Some transcript
  | field :: fields =>
      transcript ← copy_from_slice transcript offset field;
      copy_fields transcript (offset + length field) fields
  end.

Definition authentication_transcript (protocol_version : Z) (user_id : UserId)
    (public_key : Ed25519PublicKeyBytes) (challenge : AuthenticationChallenge)
    : option (list byte) :=
  copy_fields (replicate AUTHENTICATION_TRANSCRIPT_LENGTH x00) 0
    [ AUTHENTICATION_DOMAIN;
      be_bytes 2 protocol_version;
      vec_to_list (user_bytes user_id);
      vec_to_list (public_key_bytes public_key);
      vec_to_list (challenge_bytes challenge) ].

(** ** Event and Welcome transcripts *)

Definition event_authenticated_data (room : RoomId) (event : MessageId) (parent : Z)
    : list byte :=
  concat [ bytes_lit "GROTTO-EVENT-V9" ++ [x00];
           vec_to_list (room_bytes room);
           vec_to_list (message_bytes event);
           be_bytes 8 parent ].

Section hashed.
Context `{Sha256}.

Definition welcome_transcript (recipient : UserId) (room : RoomId) (event : MessageId)
    (sequence : Z) (body : list byte) : list byte :=
  concat [ bytes_lit "GROTTO-WELCOME-V9" ++ [x00];
           vec_to_list (user_bytes recipient);
           vec_to_list (room_bytes room);
           vec_to_list (message_bytes event);
           be_bytes 8 sequence;
           vec_to_list (sha256 body) ].

(** [payload_hash]: a request that does not encode has no hash. *)
Definition payload_hash `{Postcard} (request : Request.t) : result EncodeError (bytes 32) :=
  encoded ← encode_message c_request request;
  mret (sha256 encoded).

(** ** [acknowledgement_id] *)

(** Everything [hash.update] received. *)
Definition receipt_preimage (user : UserId) (events : list MessageId) (welcomes : list Z)
    : list byte :=
  (bytes_lit "GROTTO-RECEIPT-V9" ++ [x00])
  ++ user_bytes user
  ++ be_bytes 8 (len events) ++ (events ≫= λ event, vec_to_list (message_bytes event))
  ++ be_bytes 8 (len welcomes) ++ (welcomes ≫= be_bytes 8).

(** [id.copy_from_slice(&digest[..16])]. *)
Definition first16 (digest : bytes 32) : bytes 16 :=
  fst (Vector.splitat 16 (digest : bytes (16 + 16))).

Definition acknowledgement_id (user : UserId) (events : list MessageId) (welcomes : list Z)
    : MessageId :=
  MkMessageId (first16 (sha256 (receipt_preimage user events welcomes))).
End hashed.

(** ** Lemmas *)

Lemma copy_fields_concat transcript offset fields :
  length transcript = (offset + length (concat fields))%nat →
  copy_fields transcript offset fields = Some (take offset transcript ++ concat fields).
Proof.
  revert transcript offset. induction fields as [|f fields IH]; intros t o Hl; simpl in *.
  - by rewrite app_nil_r, take_ge by lia.
  - rewrite length_app in Hl. unfold copy_from_slice. rewrite decide_True by lia. simpl.
    assert (length (take o t) = o) as Ho by (rewrite length_take; lia).
    rewrite IH.
    + rewrite (assoc_L (++)), take_app_length' by (rewrite length_app; lia).
      by rewrite <- (assoc_L (++)).
    + rewrite !length_app, length_drop. lia.
Qed.

(** The transcript is the concatenation of its fields and fills its buffer exactly. *)
Lemma authentication_transcript_concat version user key challenge :
  authentication_transcript version user key challenge =
  Some (AUTHENTICATION_DOMAIN ++ be_bytes 2 version ++ user_bytes user ++
        public_key_bytes key ++ challenge_bytes challenge).
Proof.
  unfold authentication_transcript. rewrite copy_fields_concat.
  - rewrite take_0. cbn [concat app]. by rewrite app_nil_r.
  - cbn [concat]. rewrite !length_app, !length_vec_to_list, length_be_bytes. done.
Qed.

(** Equal concatenations of fields of equal lengths have equal fields. *)
Ltac split_fields E :=
  repeat (let H1 := fresh "Hf" in
    apply app_inj_len in E as [H1 E];
    [|by rewrite ?length_app, ?length_vec_to_list, ?length_be_bytes]).

Lemma be_bytes_8_inj y z :
  0 ≤ y ≤ u64_max → 0 ≤ z ≤ u64_max → be_bytes 8 y = be_bytes 8 z → y = z.
Proof. intros. apply (be_bytes_inj 8); [unfold u64_max in *; lia..|done]. Qed.

(** A sequence of elements of a fixed width is determined by its length and bytes. *)
Lemma bind_fixed_inj {A} (f : A → list byte) (n : nat) (P : A → Prop) l k r s :
  (∀ a, length (f a) = n) → (∀ a b, P a → P b → f a = f b → a = b) →
  Forall P l → Forall P k → length l = length k →
  (l ≫= f) ++ r = (k ≫= f) ++ s → l = k ∧ r = s.
Proof.
  intros Hn Hinj Hl. revert k. induction Hl as [|a l Ha _ IH]; intros [|b k] Hk E Heq; try done.
  inversion Hk as [|? ? Hb Hk']; subst. rewrite !bind_cons, <- !(assoc_L (++)) in Heq.
  apply app_inj_len in Heq as [Hf Heq]; [|by rewrite !Hn].
  apply IH in Heq as [-> ->]; [|done|by simpl in E; lia]. split; [|done]. f_equal. auto.
Qed.

Lemma receipt_preimage_inj u1 u2 e1 e2 w1 w2 :
  len e1 ≤ u64_max → len e2 ≤ u64_max → len w1 ≤ u64_max → len w2 ≤ u64_max →
  Forall (λ c, 0 ≤ c ≤ u64_max) w1 → Forall (λ c, 0 ≤ c ≤ u64_max) w2 →
  receipt_preimage u1 e1 w1 = receipt_preimage u2 e2 w2 → u1 = u2 ∧ e1 = e2 ∧ w1 = w2.
Proof.
  intros He1 He2 Hw1 Hw2 Hc1 Hc2 E. unfold receipt_preimage in E.
  apply app_inv_head in E. apply app_inj_len in E as [Hu E]; [|by rewrite !length_vec_to_list].
  apply app_inj_len in E as [He E]; [|by rewrite !length_be_bytes].
  apply be_bytes_8_inj in He; [|by split; [apply len_nonneg|]..].
  apply (bind_fixed_inj _ 16 (λ _, True)) in E as [-> E].
  - apply app_inj_len in E as [Hw E]; [|by rewrite !length_be_bytes].
    apply be_bytes_8_inj in Hw; [|by split; [apply len_nonneg|]..].
    rewrite <- (app_nil_r (w1 ≫= _)), <- (app_nil_r (w2 ≫= _)) in E.
    apply (bind_fixed_inj _ 8 (λ c, 0 ≤ c ≤ u64_max)) in E as [-> _].
    + apply vec_to_list_inj2 in Hu. destruct u1, u2. by simplify_eq/=.
    + intros. apply length_be_bytes.
    + apply be_bytes_8_inj.
    + done.
    + done.
    + unfold len in Hw. lia.
  - intros. apply length_vec_to_list.
  - intros [a] [b] _ _ Hab. simpl in Hab. by apply vec_to_list_inj2 in Hab as ->.
  - by apply Forall_true.
  - by apply Forall_true.
  - unfold len in He. lia.
Qed.

(** The eighth byte of a transcript tells its domain. *)
Lemma domain_lookup (domain rest : list byte) b :
  domain !! 7%nat = Some b → (domain ++ rest) !! 7%nat = Some b.
Proof. apply lookup_app_l_Some. Qed.

Ltac vec_fields :=
  repeat match goal with
  | H : vec_to_list _ = vec_to_list _ |- _ => apply vec_to_list_inj2 in H
  | H : be_bytes 8 _ = be_bytes 8 _ |- _ => apply be_bytes_8_inj in H; [|done..]
  | H : _ ++ [] = _ ++ [] |- _ => rewrite !app_nil_r in H
  end.

(** Byte strings of which none is a prefix of another. *)
Definition prefix_free {A} (l : list (list A)) : Prop :=
  ∀ i j x y, l !! i = Some x → l !! j = Some y → x `prefix_of` y → i = j.

Lemma prefix_free_lookup {A} (n : nat) (l : list (list A)) (marks : list A) :
  NoDup marks → Forall2 (λ x c, x !! n = Some c) l marks → prefix_free l.
Proof.
  intros Hn Hl i j x y Hi Hj Hxy.
  destruct (Forall2_lookup_l _ _ _ _ _ Hl Hi) as (c & Hc & Hx).
  destruct (Forall2_lookup_l _ _ _ _ _ Hl Hj) as (d & Hd & Hy).
  eapply prefix_lookup_Some in Hxy; [|exact Hx]. rewrite Hy in Hxy. simplify_eq.
  by eapply NoDup_lookup.
Qed.

Lemma transcripts_apart `{Sha256} version user key challenge room event parent
    recipient sequence body events cursors :
  ∃ authentication, authentication_transcript version user key challenge = Some authentication ∧
  prefix_free [authentication; event_authenticated_data room event parent;
    welcome_transcript recipient room event sequence body;
    receipt_preimage user events cursors].
Proof.
  eexists. split; [apply authentication_transcript_concat|].
  apply (prefix_free_lookup 7 _ [x41; x45; x57; x52]); [by apply (bool_decide_unpack _)|].
  repeat constructor; by apply domain_lookup.
Qed.

(** ** Properties *)

(** C40: what is signed or hashed determines what it speaks of: equal authentication
    transcripts have the same version, user, key and challenge; equal event bindings
    the same room, event and parent; equal Welcome transcripts the same recipient,
    room, event, sequence and body digest; equal receipt preimages the same user,
    events and cursors. And they are separated by their domains: the authentication
    transcript always exists, and no transcript is a prefix of one of another kind, so a
    signature or hash made for one purpose stands for no other. *)
Theorem transcripts_are_unambiguous `{Sha256} :
  (∀ v1 v2 u1 u2 k1 k2 c1 c2,
    0 ≤ v1 ≤ u16_max → 0 ≤ v2 ≤ u16_max →
    authentication_transcript v1 u1 k1 c1 = authentication_transcript v2 u2 k2 c2 →
    v1 = v2 ∧ u1 = u2 ∧ k1 = k2 ∧ c1 = c2) ∧
  (∀ r1 r2 e1 e2 p1 p2,
    0 ≤ p1 ≤ u64_max → 0 ≤ p2 ≤ u64_max →
    event_authenticated_data r1 e1 p1 = event_authenticated_data r2 e2 p2 →
    r1 = r2 ∧ e1 = e2 ∧ p1 = p2) ∧
  (∀ u1 u2 r1 r2 e1 e2 s1 s2 b1 b2,
    0 ≤ s1 ≤ u64_max → 0 ≤ s2 ≤ u64_max →
    welcome_transcript u1 r1 e1 s1 b1 = welcome_transcript u2 r2 e2 s2 b2 →
    u1 = u2 ∧ r1 = r2 ∧ e1 = e2 ∧ s1 = s2 ∧ sha256 b1 = sha256 b2) ∧
  (∀ u1 u2 e1 e2 w1 w2,
    len e1 ≤ u64_max → len e2 ≤ u64_max → len w1 ≤ u64_max → len w2 ≤ u64_max →
    Forall (λ c, 0 ≤ c ≤ u64_max) w1 → Forall (λ c, 0 ≤ c ≤ u64_max) w2 →
    receipt_preimage u1 e1 w1 = receipt_preimage u2 e2 w2 → u1 = u2 ∧ e1 = e2 ∧ w1 = w2) ∧
  (∀ version user key challenge room event parent recipient sequence body events cursors,
    ∃ authentication, authentication_transcript version user key challenge = Some authentication ∧
    prefix_free [authentication; event_authenticated_data room event parent;
      welcome_transcript recipient room event sequence body; receipt_preimage user events cursors]).
Proof.
  split_and!; [| | | |by intros; apply transcripts_apart].
  - intros v1 v2 [u1] [u2] [k1] [k2] [c1] [c2] H1 H2 E.
    rewrite !authentication_transcript_concat in E. apply (inj Some) in E.
    cbn [user_bytes public_key_bytes challenge_bytes] in E. apply app_inv_head in E.
    apply app_inj_len in E as [Hv E]; [|by rewrite !length_be_bytes].
    apply be_bytes_inj in Hv as ->; [|unfold u16_max in *; lia..].
    split_fields E. vec_fields. by subst.
  - intros [r1] [r2] [e1] [e2] p1 p2 H1 H2 E. unfold event_authenticated_data in E.
    cbn [concat room_bytes message_bytes] in E. apply app_inv_head in E. split_fields E.
    vec_fields. by subst.
  - intros [u1] [u2] [r1] [r2] [e1] [e2] s1 s2 b1 b2 H1 H2 E. unfold welcome_transcript in E.
    cbn [concat user_bytes room_bytes message_bytes] in E. apply app_inv_head in E.
    split_fields E. vec_fields. by subst.
  - apply receipt_preimage_inj.
Qed.
