(* ===== verification/RelayWorker.v ===== *)
(** * The database worker

    [DatabaseWorker] of src/crates/grotto-relay/src/worker.rs: one thread, a bounded
    queue of commands, and a result channel per command. Callers admit commands without
    waiting; the thread runs them one at a time. *)
From S2P Require Import Prelude Bytes Protocol Framing.

Section worker.
Context {S R : Type}.

(** [Box<dyn FnOnce(&RelayState)>]: the operation and the caller its result goes to. *)
Record Command := MkCommand { caller : nat; operation : S → R * S }.

(** The queue, whether the thread is still there to receive from it, the state it owns,
    the results sent back so far, and the [QUEUE_PRESSURE] counter. *)
Record DatabaseWorker := MkWorker {
  queue_capacity : Z;
  command_queue : list Command;
  thread_alive : bool;
  database : S;
  results : list (nat * R);
  pressure : Z;
}.

(** [DatabaseWorker::start]. *)
Definition start (state : S) (capacity : Z) : result ErrorKind DatabaseWorker :=
  if decide (capacity = 0) then Err InvalidInput
  else Ok (MkWorker capacity [] true state [] 0).

(** The [try_send] of [DatabaseWorker::execute] and its errors. *)
Definition admit_command (command : Command) (w : DatabaseWorker)
    : result ErrorKind () * DatabaseWorker :=
  if negb (thread_alive w) then (Err BrokenPipe, w)
  else if decide (queue_capacity w ≤ len (command_queue w))
  then (Err WouldBlock, MkWorker (queue_capacity w) (command_queue w) (thread_alive w) (database w)
                          (results w) (wrapping_add64 (pressure w) 1))
  else (Ok tt, MkWorker (queue_capacity w) (command_queue w ++ [command]) (thread_alive w)
                 (database w) (results w) (pressure w)).

(** A turn of the thread: [blocking_recv], the command, and its [sender.send(result)]. *)
Definition run_next (w : DatabaseWorker) : DatabaseWorker :=
  match command_queue w with
  | [] => w
  | command :: queue =>
      let '(r, state) := operation command (database w) in
      MkWorker (queue_capacity w) queue (thread_alive w) state (results w ++ [(caller command, r)])
        (pressure w)
  end.

(** Dropping the last handle closes the queue; what was admitted is still run. *)
Fixpoint drain (n : nat) (w : DatabaseWorker) : DatabaseWorker :=
  match n with O => w | Datatypes.S n => drain n (run_next w) end.

(** ** Serial execution *)

(** The commands one after the other. *)
Fixpoint serial (commands : list Command) (state : S) : list (nat * R) * S :=
  match commands with
  | [] => ([], state)
  | command :: commands =>
      let '(r, state) := operation command state in
      let '(rs, state) := serial commands state in
      ((caller command, r) :: rs, state)
  end.

(** What callers and the thread do, in any order. *)
Inductive Act := Admit (command : Command) | Turn.

(** The worker after the acts, and the commands that were admitted, in order. *)
Fixpoint acts (l : list Act) (w : DatabaseWorker) : list Command * DatabaseWorker :=
  match l with
  | [] => ([], w)
  | Turn :: l => acts l (run_next w)
  | Admit command :: l =>
      let '(r, w) := admit_command command w in
      let '(admitted, w) := acts l w in
      (if is_ok r then command :: admitted else admitted, w)
  end.

Lemma serial_app l k state :
  serial (l ++ k) state =
    let '(rs, state) := serial l state in
    let '(rs', state) := serial k state in (rs ++ rs', state).
Proof.
  revert state. induction l as [|c l IH]; intros state; simpl; [by destruct (serial k state)|].
  destruct (operation c state) as [r s]. rewrite IH. destruct (serial l s) as [rs s1].
  by destruct (serial k s1).
Qed.

(** The worker has run [ran] serially from [state], and holds [waiting]. *)
Record worker_inv (state : S) (ran waiting : list Command) (w : DatabaseWorker) : Prop := {
  inv_queue : command_queue w = waiting;
  inv_serial : serial ran state = (results w, database w);
  inv_capacity : len (command_queue w) ≤ queue_capacity w ∧ thread_alive w = true;
}.

Lemma run_next_inv state ran c waiting w :
  worker_inv state ran (c :: waiting) w → worker_inv state (ran ++ [c]) waiting (run_next w).
Proof.
  intros [Hq Hs [Hl Ha]]. unfold run_next. rewrite Hq in *.
  destruct (operation c (database w)) as [r s] eqn:E. split; simpl; [done| |].
  - rewrite serial_app, Hs. simpl. by rewrite E.
  - rewrite len_cons in Hl. split; [lia|done].
Qed.

(** A command joins the end of the queue or leaves the worker as it is. *)
Lemma admit_inv state ran waiting c w r w' :
  worker_inv state ran waiting w → admit_command c w = (r, w') →
  worker_inv state ran (waiting ++ (if is_ok r then [c] else [])) w' ∧
  queue_capacity w' = queue_capacity w.
Proof.
  intros [Hq Hs [Hl Ha]] E. unfold admit_command in E. rewrite Ha in E. simpl in E.
  case_decide; injection E as <- <-; (split; [|done]); simpl; rewrite ?app_nil_r; split; simpl; try done.
  - by rewrite Hq.
  - rewrite len_app, len_cons, len_nil. split; [lia|done].
Qed.

Lemma acts_inv state l : ∀ ran waiting w admitted w',
  worker_inv state ran waiting w → acts l w = (admitted, w') →
  ∃ ran' waiting', ran' ++ waiting' = ran ++ waiting ++ admitted ∧
    (∃ more, ran' = ran ++ more) ∧ worker_inv state ran' waiting' w' ∧
    queue_capacity w' = queue_capacity w.
Proof.
  induction l as [|[c|] l IH]; intros ran waiting w admitted w' Hw E; simpl in E.
  - injection E as <- <-. exists ran, waiting. rewrite app_nil_r. split_and!; try done.
    exists []. by rewrite app_nil_r.
  - destruct (admit_command c w) as [r w1] eqn:E1. destruct (acts l w1) as [adm w2] eqn:E2.
    injection E as <- <-. destruct (admit_inv _ _ _ _ _ _ _ Hw E1) as [Hw1 Hc1].
    destruct (IH _ _ _ _ _ Hw1 E2) as (ran' & waiting' & E & ? & ? & Hc2).
    exists ran', waiting'. split_and!; [|done|done|by rewrite Hc2].
    rewrite E. destruct (is_ok r); simpl; by rewrite <- ?(assoc_L (++)), ?app_nil_r.
  - destruct waiting as [|c waiting].
    + assert (run_next w = w) as Hn by (unfold run_next; by rewrite (inv_queue _ _ _ _ Hw)).
      rewrite Hn in E. by apply (IH ran [] w).
    + pose proof (run_next_inv _ _ _ _ _ Hw) as Hw1.
      destruct (IH _ _ _ _ _ Hw1 E) as (ran' & waiting' & Happ & (more & ->) & Hw' & Hc).
      exists ((ran ++ [c]) ++ more), waiting'. split_and!; [|exists ([c] ++ more); by rewrite (assoc_L (++))|done|].
      * rewrite Happ. by rewrite <- !(assoc_L (++)).
      * rewrite Hc. unfold run_next. rewrite (inv_queue _ _ _ _ Hw). by destruct (operation _ _).
Qed.

Lemma drain_inv state waiting : ∀ ran w,
  worker_inv state ran waiting w → worker_inv state (ran ++ waiting) [] (drain (length waiting) w).
Proof.
  induction waiting as [|c waiting IH]; intros ran w Hw; simpl; [by rewrite app_nil_r|].
  replace (ran ++ c :: waiting) with ((ran ++ [c]) ++ waiting) by (by rewrite <- (assoc_L (++))).
  apply IH. by apply run_next_inv.
Qed.
End worker.

Arguments Command : clear implicits.
Arguments DatabaseWorker : clear implicits.
Arguments Act : clear implicits.

(** C34: the worker is a serial queue. However admissions and turns of the thread
    interleave, the commands that have run are a prefix of the admitted ones, in the
    order of admission, each once; state and results are those of running this prefix
    one command after the other; at most [capacity] commands wait; and once the queue is
    closed, draining it runs exactly the rest. A worker with no room is not started. *)
Theorem worker_is_serial {S R} (state : S) capacity (w : DatabaseWorker S R) l admitted w' :
  0 ≤ capacity → start state capacity = Ok w → acts l w = (admitted, w') →
  capacity ≠ 0 ∧ len (command_queue w') ≤ capacity ∧
  ∃ ran, ran ++ command_queue w' = admitted ∧ serial ran state = (results w', database w') ∧
    let done_ := drain (length (command_queue w')) w' in
    serial admitted state = (results done_, database done_) ∧ command_queue done_ = [].
Proof.
  intros Hc Hs E. unfold start in Hs. case_decide; [done|]. injection Hs as <-.
  assert (worker_inv state [] [] (@MkWorker S R capacity [] true state [] 0)) as Hw
    by (split; simpl; [done|done|by rewrite len_nil]).
  destruct (acts_inv state l [] [] _ _ _ Hw E) as (ran & waiting & Happ & _ & Hw' & Hcap). simpl in *.
  pose proof (drain_inv state waiting ran w' Hw') as [Hq Hser _].
  destruct Hw' as [Hq' Hs' [Hl _]]. rewrite Hcap in Hl. split_and!; [done|done|].
  exists ran. rewrite Hq'. split_and!; [done|done| |]; [|by rewrite Hq].
  by rewrite <- Happ.
Qed.

Lemma worker_is_serial_witness :
  ∃ ran, ran ++ [MkCommand 8%nat (λ n : Z, (n, n * 2))] =
    [MkCommand 7%nat (λ n : Z, (n, n + 1)); MkCommand 8%nat (λ n : Z, (n, n * 2))] ∧
    serial ran 5 = ([(7%nat, 5)], 6).
Proof.
  set (c1 := MkCommand 7%nat (λ n : Z, (n, n + 1))). set (c2 := MkCommand 8%nat (λ n : Z, (n, n * 2))).
  destruct (worker_is_serial 5 2 (MkWorker 2 [] true 5 [] 0) [Admit c1; Admit c2; Admit c1; Turn]
    [c1; c2] (MkWorker 2 [c2] true 6 [(7%nat, 5)] 1)) as (_ & _ & ran & E & Hs & _);
    [lia|reflexivity|reflexivity|]. exists ran. exact (conj E Hs).
Defined.
