(* ===== verification/RelayHub.v ===== *)
(** * The connection hub

    [ConnectionHub] and [ConnectionRegistration] of src/crates/grotto-relay/src/lib.rs:
    which identities have a session, and the outbound channel of each connection. A
    channel is an entry of a store that senders and receivers refer to by number.
    Sessions run concurrently, so the second half of the file is a step relation whose
    steps are the critical sections of the hub's locks, with its invariant. *)
From S2P Require Import Prelude Bytes Protocol Framing.

Definition OUTBOUND_CHANNEL_CAPACITY : Z := 64.

(** ** Channels *)

(** An [mpsc] channel: what is queued, and whether its receiver is still there. *)
Record Channel := MkChannel { queue : list RelayMessage.t; receiver_alive : bool }.

(** A [mpsc::Sender]: the number of its channel. *)
Definition Sender := nat.

Definition capacity (c : Channel) : Z := OUTBOUND_CHANNEL_CAPACITY - len (queue c).

(** [Sender::try_send]: [None] is [Closed] or [Full]. *)
Definition try_send (message : RelayMessage.t) (c : Channel) : option Channel :=
  if negb (receiver_alive c) then None
  else if decide (capacity c = 0) then None
  else Some (MkChannel (queue c ++ [message]) true).

(** ** The hub *)

Record ConnectionHub := MkHub {
  active_identities : gset UserId;
  next_connection_id : Z;
  connections : gmap UserId (gmap Z Sender);
  channels : list Channel;
}.

Definition default_hub : ConnectionHub := MkHub ∅ 0 ∅ [].

Definition set_active f hub :=
  MkHub (f (active_identities hub)) (next_connection_id hub) (connections hub) (channels hub).
Definition set_connections f hub :=
  MkHub (active_identities hub) (next_connection_id hub) (f (connections hub)) (channels hub).
Definition set_channels f hub :=
  MkHub (active_identities hub) (next_connection_id hub) (connections hub) (f (channels hub)).

Record ConnectionRegistration := MkRegistration {
  registered_user : UserId; connection_id : Z }.

(** The first lock of [register]: [HashSet::insert] says whether the user was new. *)
Definition reserve_identity (user : UserId) (hub : ConnectionHub)
    : result ErrorKind ConnectionHub :=
  if decide (user ∈ active_identities hub) then Err AlreadyExists
  else Ok (set_active (λ s, {[user]} ∪ s) hub).

(** The rest of [register]: [fetch_add], a new channel, the second lock. *)
Definition insert_connection (user : UserId) (hub : ConnectionHub)
    : ConnectionRegistration * Sender * ConnectionHub :=
  let id := next_connection_id hub in
  let sender := length (channels hub) in
  let user_connections := default ∅ (connections hub !! user) in
  (MkRegistration user id, sender,
   MkHub (active_identities hub) (wrapping_add64 id 1)
     (<[user := <[id := sender]> user_connections]> (connections hub))
     (channels hub ++ [MkChannel [] true])).

Definition register (user : UserId) (hub : ConnectionHub)
    : result ErrorKind (ConnectionRegistration * Sender) * ConnectionHub :=
  match reserve_identity user hub with
  | Err k => (Err k, hub)
  | Ok hub =>
      let '(registration, receiver, hub) := insert_connection user hub in
      (Ok (registration, receiver), hub)
  end.

(** The removal of one connection, of [unregister] and of the evictions of [notify]. *)
Definition remove_connection (user : UserId) (id : Z)
    (connections : gmap UserId (gmap Z Sender)) : gmap UserId (gmap Z Sender) :=
  match connections !! user with
  | Some user_connections =>
      let user_connections := delete id user_connections in
      if decide (user_connections = ∅) then delete user connections
      else <[user := user_connections]> connections
  | None => connections
  end.

Definition unregister (user : UserId) (id : Z) (hub : ConnectionHub) : ConnectionHub :=
  set_connections (remove_connection user id) hub.

Definition deactivate (user : UserId) (hub : ConnectionHub) : ConnectionHub :=
  set_active (λ s, s ∖ {[user]}) hub.

(** [Drop for ConnectionRegistration]. *)
Definition drop_registration (r : ConnectionRegistration) (hub : ConnectionHub) : ConnectionHub :=
  deactivate (registered_user r) (unregister (registered_user r) (connection_id r) hub).

(** ** [notify] *)

Definition Target : Type := UserId * Z * Sender.

(** Under the lock: the senders of the recipients, cloned. *)
Definition notify_targets (recipients : list UserId) (hub : ConnectionHub) : list Target :=
  recipients ≫= λ recipient,
    match connections hub !! recipient with
    | Some user_connections =>
        (λ '(id, sender), (recipient, id, sender)) <$> map_to_list user_connections
    | None => []
    end.

(** One turn of the loop over the targets: the channels, and whether the target failed. *)
Definition notify_one (message : RelayMessage.t) (sender : Sender) (channels : list Channel)
    : list Channel * bool :=
  match channels !! sender with
  | None => (channels, true)
  | Some c =>
      if match message with RelayMessage.DeliveryChanged => true | _ => false end
         && bool_decide (capacity c < OUTBOUND_CHANNEL_CAPACITY)
      then (channels, false)
      else if negb (receiver_alive c) || bool_decide (capacity c = 0) then (channels, true)
      else match try_send message c with
           | Some c => (<[sender := c]> channels, false)
           | None => (channels, true)
           end
  end.

Fixpoint notify_all (message : RelayMessage.t) (targets : list Target) (channels : list Channel)
    : list Channel * list (UserId * Z) :=
  match targets with
  | [] => (channels, [])
  | (user, id, sender) :: targets =>
      let '(channels, failure) := notify_one message sender channels in
      let '(channels, failed) := notify_all message targets channels in
      (channels, if (failure : bool) then (user, id) :: failed else failed)
  end.

Definition evict (failed : list (UserId * Z)) (connections : gmap UserId (gmap Z Sender))
    : gmap UserId (gmap Z Sender) :=
  foldl (λ m '(user, id), remove_connection user id m) connections failed.

Definition notify (recipients : list UserId) (message : RelayMessage.t) (hub : ConnectionHub)
    : ConnectionHub :=
  let targets := notify_targets recipients hub in
  let '(channels, failed) := notify_all message targets (channels hub) in
  set_connections (evict failed) (set_channels (λ _, channels) hub).

(** ** Receivers *)

Inductive Recv := Received (m : RelayMessage.t) | ChannelClosed | Waiting.

(** Whether a sender of the channel is left in the hub. *)
Definition has_sender (s : Sender) (hub : ConnectionHub) : bool :=
  existsb (λ '(_, user_connections), existsb (λ '(_, s'), bool_decide (s = s'))
    (map_to_list user_connections)) (map_to_list (connections hub)).

(** [Receiver::recv]. *)
Definition recv (s : Sender) (hub : ConnectionHub) : Recv * ConnectionHub :=
  match channels hub !! s with
  | Some (MkChannel (m :: q) alive) => (Received m, set_channels <[s := MkChannel q alive]> hub)
  | _ => (if has_sender s hub then Waiting else ChannelClosed, hub)
  end.

(** Dropping a receiver closes the channel and drains it. *)
Definition drop_receiver (s : Sender) (hub : ConnectionHub) : ConnectionHub :=
  set_channels <[s := MkChannel [] false]> hub.
