(* ===== verification/RelaySessions.v ===== *)
(** * Concurrent sessions on the hub

    Every session of the relay is a task; the hub is shared, and each of its methods
    takes its locks one after the other. The steps below are those critical sections
    and the channel operations between them, so that a run is any interleaving of
    sessions that register, receive, close and unregister and of notifications on their
    way ([ConnectionHub] of src/crates/grotto-relay/src/lib.rs). The only message the
    relay sends through the hub is [DeliveryChanged]. *)
From S2P Require Import Prelude Bytes Protocol Framing RelayHub.

(** ** Worlds *)

(** How far a registered session is from its end: receiving, receiver dropped,
    unregistered, identity released. *)
Inductive Progress := Live | Dropped | Unlisted | Gone.

#[global] Instance Progress_eq_dec : EqDecision Progress.
Proof. solve_decision. Defined.

Inductive Stage :=
| Reserved
| Registered (k : Progress) (id : Z) (s : Sender).

Record Session := MkSession { session_user : UserId; stage : Stage }.

(** A [notify] on its way: the targets it has not reached, and those that failed. *)
Definition Notice : Type := list Target * list (UserId * Z).

Record World := MkWorld {
  hub : ConnectionHub;
  sessions : gmap nat Session;
  notices : gmap nat Notice;
  registrations : Z;
}.

Definition initial : World := MkWorld default_hub ∅ ∅ 0.

Inductive hub_step (w : World) : World → Prop :=
| step_reserve n user hub' :
    sessions w !! n = None → reserve_identity user (hub w) = Ok hub' →
    hub_step w (MkWorld hub' (<[n := MkSession user Reserved]> (sessions w))
                  (notices w) (registrations w))
| step_connect n user r s hub' :
    sessions w !! n = Some (MkSession user Reserved) →
    insert_connection user (hub w) = (r, s, hub') →
    hub_step w (MkWorld hub'
                  (<[n := MkSession user (Registered Live (connection_id r) s)]> (sessions w))
                  (notices w) (registrations w + 1))
| step_recv n user id s r hub' :
    sessions w !! n = Some (MkSession user (Registered Live id s)) →
    recv s (hub w) = (r, hub') →
    hub_step w (MkWorld hub' (sessions w) (notices w) (registrations w))
| step_drop n user id s :
    sessions w !! n = Some (MkSession user (Registered Live id s)) →
    hub_step w (MkWorld (drop_receiver s (hub w))
                  (<[n := MkSession user (Registered Dropped id s)]> (sessions w))
                  (notices w) (registrations w))
| step_unregister n user id s :
    sessions w !! n = Some (MkSession user (Registered Dropped id s)) →
    hub_step w (MkWorld (unregister user id (hub w))
                  (<[n := MkSession user (Registered Unlisted id s)]> (sessions w))
                  (notices w) (registrations w))
| step_deactivate n user id s :
    sessions w !! n = Some (MkSession user (Registered Unlisted id s)) →
    hub_step w (MkWorld (deactivate user (hub w))
                  (<[n := MkSession user (Registered Gone id s)]> (sessions w))
                  (notices w) (registrations w))
| step_notify n recipients :
    notices w !! n = None →
    hub_step w (MkWorld (hub w) (sessions w)
                  (<[n := (notify_targets recipients (hub w), [])]> (notices w)) (registrations w))
| step_send n user id s targets failed channels' failure :
    notices w !! n = Some ((user, id, s) :: targets, failed) →
    notify_one RelayMessage.DeliveryChanged s (channels (hub w)) = (channels', failure) →
    hub_step w (MkWorld (set_channels (λ _, channels') (hub w)) (sessions w)
                  (<[n := (targets, if failure then failed ++ [(user, id)] else failed)]> (notices w))
                  (registrations w))
| step_evict n failed :
    notices w !! n = Some ([], failed) →
    hub_step w (MkWorld (set_connections (evict failed) (hub w)) (sessions w)
                  (delete n (notices w)) (registrations w)).

Definition occurs (w : World) : Prop := rtc hub_step initial w.

(** ** Listed connections *)

Definition listed (m : gmap UserId (gmap Z Sender)) (user : UserId) (id : Z) (s : Sender) : Prop :=
  ∃ user_connections, m !! user = Some user_connections ∧ user_connections !! id = Some s.

Lemma listed_insert m user id s user' id' s' :
  listed (<[user := <[id := s]> (default ∅ (m !! user))]> m) user' id' s' ↔
  (user' = user ∧ id' = id ∧ s' = s) ∨ (¬ (user' = user ∧ id' = id) ∧ listed m user' id' s').
Proof.
  unfold listed. destruct (decide (user' = user)) as [->|Hu].
  - setoid_rewrite lookup_insert_eq. split.
    + intros (uc & [= <-] & H). apply lookup_insert_Some in H as [[-> ->]|[? H]]; [by left|].
      right. split; [naive_solver|]. destruct (m !! user) as [uc|] eqn:E; simpl in H; [eauto|].
      by apply lookup_empty_Some in H.
    + intros [(_ & -> & ->)|[Hne (uc & E & H)]]; eexists; (split; [done|]).
      * by rewrite lookup_insert_eq.
      * rewrite lookup_insert_ne by naive_solver. by rewrite E.
  - setoid_rewrite lookup_insert_ne; [|done]. naive_solver.
Qed.

Lemma listed_remove m user id user' id' s :
  listed (remove_connection user id m) user' id' s ↔
  listed m user' id' s ∧ (user', id') ≠ (user, id).
Proof.
  unfold remove_connection, listed.
  destruct (m !! user) as [uc|] eqn:E; [|naive_solver].
  destruct (decide (user' = user)) as [->|Hu]; cycle 1.
  { case_decide; [setoid_rewrite lookup_delete_ne; [|done]|setoid_rewrite lookup_insert_ne; [|done]];
      naive_solver. }
  rewrite E. case_decide as He.
  - setoid_rewrite lookup_delete_eq. split; [naive_solver|].
    intros [(uc' & [= <-] & H) Hne]. assert (delete id uc !! id' = Some s) as H'.
    { by rewrite lookup_delete_ne by congruence. }
    by rewrite He in H'.
  - setoid_rewrite lookup_insert_eq. split.
    + intros (uc' & [= <-] & [? H]%lookup_delete_Some). split; [eauto|congruence].
    + intros [(uc' & [= <-] & H) Hne]. eexists. split; [done|].
      by rewrite lookup_delete_ne by congruence.
Qed.

Lemma listed_evict failed m user id s :
  listed (evict failed m) user id s ↔ listed m user id s ∧ (user, id) ∉ failed.
Proof.
  revert m. induction failed as [|[u i] failed IH]; intros m; simpl; [set_solver|].
  rewrite IH, listed_remove, not_elem_of_cons. naive_solver.
Qed.

Lemma notify_targets_listed recipients hub user id s :
  (user, id, s) ∈ notify_targets recipients hub ↔
  user ∈ recipients ∧ listed (connections hub) user id s.
Proof.
  unfold notify_targets, listed. rewrite list_elem_of_bind. split.
  - intros (r & H & Hr). destruct (connections hub !! r) as [uc|] eqn:E; [|set_solver].
    apply list_elem_of_fmap in H as ([i' s'] & [= -> -> ->] & H). apply elem_of_map_to_list in H.
    eauto.
  - intros [Hr (uc & E & H)]. exists user. split; [|done]. rewrite E.
    apply list_elem_of_fmap. exists (id, s). split; [done|by apply elem_of_map_to_list].
Qed.

(** ** The invariant *)

(** The session still holds its identity. *)
Definition holds (a : Session) : Prop :=
  match stage a with Registered Gone _ _ => False | _ => True end.

(** A session of the world, by what it is registered as. *)
Definition session (w : World) (n : nat) (user : UserId) (k : Progress) (id : Z) (s : Sender) : Prop :=
  sessions w !! n = Some (MkSession user (Registered k id s)).

Record hub_inv (w : World) : Prop := {
  inv_unique n n' a a' :
    sessions w !! n = Some a → sessions w !! n' = Some a' →
    session_user a = session_user a' → holds a → holds a' → n = n';
  inv_active user :
    user ∈ active_identities (hub w) ↔
    ∃ n a, sessions w !! n = Some a ∧ session_user a = user ∧ holds a;
  inv_listed user id s :
    listed (connections (hub w)) user id s →
    ∃ n k, session w n user k id s ∧ (k = Live ∨ k = Dropped);
  inv_live n user id s :
    session w n user Live id s →
    listed (connections (hub w)) user id s ∧
    ∃ q, channels (hub w) !! s = Some (MkChannel q true) ∧
         (q = [] ∨ q = [RelayMessage.DeliveryChanged]);
  inv_closed n user k id s :
    session w n user k id s → k ≠ Live → channels (hub w) !! s = Some (MkChannel [] false);
  inv_ids n n' user user' k k' id id' s s' :
    session w n user k id s → session w n' user' k' id' s' → id = id' ∨ s = s' → n = n';
  inv_fresh n user k id s :
    session w n user k id s → 0 ≤ id < registrations w ∧ (s < length (channels (hub w)))%nat;
  inv_next : next_connection_id (hub w) = registrations w ∧ 0 ≤ registrations w;
  inv_targets m targets failed user id s :
    notices w !! m = Some (targets, failed) → (user, id, s) ∈ targets →
    ∃ n k, session w n user k id s;
  inv_failed m targets failed user id :
    notices w !! m = Some (targets, failed) → (user, id) ∈ failed →
    ∃ n k s, session w n user k id s ∧ k ≠ Live;
}.

Lemma hub_inv_initial : hub_inv initial.
Proof.
  split; unfold session; simpl; try (intros; set_solver).
  intros user id s (uc & H & _). set_solver.
Qed.

Ltac on_maps :=
  repeat match goal with
  | H : <[_:=_]> _ !! _ = Some _ |- _ => apply lookup_insert_Some in H as [[? ?]|[? H]]
  | H : delete _ _ !! _ = Some _ |- _ => apply lookup_delete_Some in H as [? H]
  end; simplify_eq/=.

(** What a step of one registered session keeps of the others. *)
Lemma session_moved w n user k k' id s m user' j id' s' :
  session w n user k id s →
  <[n := MkSession user (Registered k' id s)]> (sessions w) !! m =
    Some (MkSession user' (Registered j id' s')) →
  ∃ j0, session w m user' j0 id' s' ∧
    ((m = n ∧ j0 = k ∧ j = k' ∧ user' = user ∧ id' = id ∧ s' = s) ∨ (m ≠ n ∧ j0 = j)).
Proof. unfold session. intros Hn H. on_maps; eauto 10. Qed.

Lemma session_moves w n user k k' id s m user' j id' s' :
  session w n user k id s → session w m user' j id' s' →
  ∃ j', <[n := MkSession user (Registered k' id s)]> (sessions w) !! m =
    Some (MkSession user' (Registered j' id' s')) ∧ (j' = j ∨ (m = n ∧ j = k ∧ j' = k')).
Proof.
  unfold session. intros Hn Hm. destruct (decide (m = n)) as [->|].
  - rewrite lookup_insert_eq. simplify_eq. eauto 10.
  - rewrite lookup_insert_ne by done. eauto.
Qed.

Section steps.
Context (w : World) (Hw : hub_inv w).
#[local] Set Default Proof Using "Type*".

Lemma reserve_inv n user hub' :
  sessions w !! n = None → reserve_identity user (hub w) = Ok hub' →
  hub_inv (MkWorld hub' (<[n := MkSession user Reserved]> (sessions w)) (notices w) (registrations w)).
Proof.
  intros Hn Hr. unfold reserve_identity in Hr. case_decide as Hu; [done|]. simplify_eq.
  rewrite (inv_active w Hw) in Hu.
  assert (∀ m u k id s, session w m u k id s →
    <[n := MkSession user Reserved]> (sessions w) !! m = Some (MkSession u (Registered k id s))) as Hkeep.
  { unfold session. intros m u k id s Hm. rewrite lookup_insert_ne; [done|congruence]. }
  split; unfold session; simpl.
  - intros m m' a a' H H'. on_maps; intros E Ha Ha'; [done| | |by eapply (inv_unique w Hw)];
      destruct Hu; eauto.
  - intros u. rewrite elem_of_union, elem_of_singleton, (inv_active w Hw). split.
    + intros [->|(m & a & Hm & E & Ha)]; [exists n, (MkSession user Reserved); by rewrite lookup_insert_eq|].
      exists m, a. rewrite lookup_insert_ne by congruence. done.
    + intros (m & a & H & E & Ha). on_maps; [by left|right; eauto].
  - intros u id s H. apply (inv_listed w Hw) in H as (m & k & Hm & Hk). eauto.
  - intros m u id s H. on_maps. by eapply (inv_live w Hw).
  - intros m u k id s H. on_maps. by eapply (inv_closed w Hw).
  - intros m m' u u' k k' id id' s s' H H'. on_maps. by eapply (inv_ids w Hw).
  - intros m u k id s H. on_maps. by eapply (inv_fresh w Hw).
  - apply (inv_next w Hw).
  - intros m ts f u id s H Hin. edestruct (inv_targets w Hw) as (i & k & Hi); eauto.
  - intros m ts f u id H Hin. edestruct (inv_failed w Hw) as (i & k & s & Hi & ?); eauto 10.
Qed.

Lemma connect_inv n user r s hub' :
  sessions w !! n = Some (MkSession user Reserved) →
  insert_connection user (hub w) = (r, s, hub') → registrations w + 1 < 2 ^ 64 →
  hub_inv (MkWorld hub' (<[n := MkSession user (Registered Live (connection_id r) s)]> (sessions w))
             (notices w) (registrations w + 1)).
Proof.
  intros Hn Hr Hbound. unfold insert_connection in Hr. simplify_eq.
  destruct (inv_next w Hw) as [Hnext Hpos].
  assert (∀ m u k id s, session w m u k id s → m ≠ n) as Hne.
  { unfold session. intros m u k id s Hm ->. congruence. }
  set (a := MkSession user _).
  assert (∀ m u k id s, session w m u k id s →
    <[n := a]> (sessions w) !! m = Some (MkSession u (Registered k id s))) as Hkeep.
  { intros m u k id s Hm. pose proof (Hne _ _ _ _ _ Hm). by rewrite lookup_insert_ne. }
  assert (∀ m u k id s, session w m u k id s →
    id ≠ next_connection_id (hub w) ∧ s ≠ length (channels (hub w)) ∧
    (channels (hub w) ++ [MkChannel [] true]) !! s = channels (hub w) !! s) as Hold.
  { intros m u k id s Hm. apply (inv_fresh w Hw) in Hm as [? ?]. split_and!; [lia|lia|].
    by apply lookup_app_l. }
  split; unfold session; simpl.
  - intros m m' b b' H H'. on_maps; intros E Hb Hb'; [done| | |by eapply (inv_unique w Hw)];
      eapply (inv_unique w Hw); eauto; done.
  - intros u. rewrite (inv_active w Hw). split.
    + intros (m & b & Hm & E & Hb). destruct (decide (m = n)) as [->|].
      * exists n, a. rewrite lookup_insert_eq. simplify_eq. done.
      * exists m, b. by rewrite lookup_insert_ne.
    + intros (m & b & H & E & Hb). on_maps; [|eauto]. exists m. by eauto.
  - intros u id s H. apply listed_insert in H as [(-> & -> & ->)|[_ H]].
    + exists n, Live. rewrite lookup_insert_eq. auto.
    + apply (inv_listed w Hw) in H as (m & k & Hm & Hk). eauto.
  - intros m u id s H. rewrite listed_insert. subst a. on_maps.
    + split; [by left|]. exists []. rewrite list_lookup_middle by done. auto.
    + destruct (Hold _ _ _ _ _ H) as (Hid & _ & ->).
      destruct (inv_live w Hw _ _ _ _ H) as [? ?]. split; [right; naive_solver|done].
  - intros m u k id s H Hk. subst a. on_maps. destruct (Hold _ _ _ _ _ H) as (_ & _ & ->).
    by eapply (inv_closed w Hw).
  - intros m m' u u' k k' id id' s s' H H' E. subst a. on_maps; [done|..].
    + apply Hold in H. naive_solver.
    + apply Hold in H'. naive_solver.
    + by eapply (inv_ids w Hw).
  - intros m u k id s H. subst a. rewrite length_app. simpl. on_maps; [lia|].
    apply (inv_fresh w Hw) in H. lia.
  - unfold wrapping_add64. rewrite Hnext, Z.mod_small by lia. lia.
  - intros m ts f u id s H Hin. edestruct (inv_targets w Hw) as (i & k & Hi); eauto.
  - intros m ts f u id H Hin. edestruct (inv_failed w Hw) as (i & k & s & Hi & ?); eauto 10.
Qed.

(** A session that moves on without touching its connection id or channel number. *)
Lemma moved_unique n user k k' id s m m' a a' :
  session w n user k id s → k ≠ Gone →
  <[n := MkSession user (Registered k' id s)]> (sessions w) !! m = Some a →
  <[n := MkSession user (Registered k' id s)]> (sessions w) !! m' = Some a' →
  session_user a = session_user a' → holds a → holds a' → m = m'.
Proof.
  intros Hn Hk H H' E Ha Ha'. assert (holds (MkSession user (Registered k id s))) by (by destruct k).
  on_maps; [done| | |by eapply (inv_unique w Hw)]; symmetry || idtac;
    eapply (inv_unique w Hw); eauto.
Qed.

Lemma moved_active n user k k' id s u :
  session w n user k id s → k ≠ Gone → k' ≠ Gone →
  u ∈ active_identities (hub w) ↔
  ∃ m a, <[n := MkSession user (Registered k' id s)]> (sessions w) !! m = Some a ∧
         session_user a = u ∧ holds a.
Proof.
  intros Hn Hk Hk'. rewrite (inv_active w Hw). split.
  - intros (m & a & Hm & E & Ha). destruct (decide (m = n)) as [->|].
    + eexists n, _. rewrite lookup_insert_eq. unfold session in Hn. simplify_eq.
      split_and!; [done|done|by destruct k'].
    + exists m, a. by rewrite lookup_insert_ne.
  - intros (m & a & H & E & Ha). on_maps; [|eauto]. eexists m, _. split_and!; [exact Hn|done|].
    by destruct k.
Qed.

Lemma drop_inv n user id s :
  session w n user Live id s →
  hub_inv (MkWorld (drop_receiver s (hub w))
             (<[n := MkSession user (Registered Dropped id s)]> (sessions w))
             (notices w) (registrations w)).
Proof.
  intros Hn. pose proof (proj2 (inv_fresh w Hw _ _ _ _ _ Hn)) as Hs.
  split; unfold session; simpl.
  - intros. by eapply moved_unique.
  - intros. by eapply moved_active.
  - intros u i t H. apply (inv_listed w Hw) in H as (m & k & Hm & Hk).
    destruct (session_moves w n user Live Dropped id s _ _ _ _ _ Hn Hm) as (j' & ? & ?). naive_solver.
  - intros m u i t H. destruct (session_moved w _ _ _ _ _ _ _ _ _ _ _ Hn H) as (j & Hj & [?|[? ->]]);
      [naive_solver|]. rewrite list_lookup_insert_ne; [by eapply (inv_live w Hw)|].
    intros ->. by assert (m = n) by (eapply (inv_ids w Hw); eauto).
  - intros m u k i t H Hk.
    destruct (session_moved w _ _ _ _ _ _ _ _ _ _ _ Hn H) as (j & Hj & [?|[? ->]]).
    { destruct_and!; subst. by rewrite list_lookup_insert_eq. }
    rewrite list_lookup_insert_ne; [by eapply (inv_closed w Hw)|].
    intros ->. by assert (m = n) by (eapply (inv_ids w Hw); eauto).
  - intros m m' u u' k k' i i' t t' H H'.
    destruct (session_moved w _ _ _ _ _ _ _ _ _ _ _ Hn H) as (j & Hj & _).
    destruct (session_moved w _ _ _ _ _ _ _ _ _ _ _ Hn H') as (j' & Hj' & _).
    by eapply (inv_ids w Hw).
  - intros m u k i t H. destruct (session_moved w _ _ _ _ _ _ _ _ _ _ _ Hn H) as (j & Hj & _).
    rewrite length_insert. by eapply (inv_fresh w Hw).
  - apply (inv_next w Hw).
  - intros m ts f u i t H Hin. edestruct (inv_targets w Hw) as (m' & k & Hm); [done..|].
    destruct (session_moves w n user Live Dropped id s _ _ _ _ _ Hn Hm) as (j' & ? & ?). eauto.
  - intros m ts f u i H Hin. edestruct (inv_failed w Hw) as (m' & k & t & Hm & ?); [done..|].
    destruct (session_moves w n user Live Dropped id s _ _ _ _ _ Hn Hm) as (j' & ? & ?).
    do 3 eexists. split; [done|]. naive_solver.
Qed.

(** A closed session moves on. *)
Lemma advance_inv n user k k' id s hub' :
  session w n user k id s → k ≠ Live → k ≠ Gone → k' ≠ Live →
  channels hub' = channels (hub w) → next_connection_id hub' = next_connection_id (hub w) →
  (∀ u, u ∈ active_identities hub' ↔
    ∃ m a, <[n := MkSession user (Registered k' id s)]> (sessions w) !! m = Some a ∧
           session_user a = u ∧ holds a) →
  (∀ u i t, listed (connections hub') u i t ↔
            listed (connections (hub w)) u i t ∧ (u, i) ≠ (user, id)) →
  hub_inv (MkWorld hub' (<[n := MkSession user (Registered k' id s)]> (sessions w))
             (notices w) (registrations w)).
Proof.
  intros Hn Hk Hg Hk' Hch Hnx Hact Hli. split; unfold session; simpl; rewrite ?Hch, ?Hnx.
  - intros. by eapply moved_unique.
  - done.
  - intros u i t [H Hne]%Hli. apply (inv_listed w Hw) in H as (m & j & Hm & Hj).
    destruct (session_moves w n user k k' id s _ _ _ _ _ Hn Hm) as (j' & ? & [->|(-> & -> & ->)]); [eauto|].
    unfold session in *. naive_solver.
  - intros m u i t H. destruct (session_moved w _ _ _ _ _ _ _ _ _ _ _ Hn H) as (j & Hj & [?|[? ->]]);
      [naive_solver|]. destruct (inv_live w Hw _ _ _ _ Hj) as [Hl Hc]. split; [|done].
    rewrite Hli. split; [done|]. intros [= -> ->].
    by assert (m = n) by (eapply (inv_ids w Hw); eauto).
  - intros m u j i t H Hj.
    destruct (session_moved w _ _ _ _ _ _ _ _ _ _ _ Hn H) as (j0 & Hj0 & Hor).
    eapply (inv_closed w Hw); [done|]. naive_solver.
  - intros m m' u u' j j' i i' t t' H H'.
    destruct (session_moved w _ _ _ _ _ _ _ _ _ _ _ Hn H) as (j0 & Hj & _).
    destruct (session_moved w _ _ _ _ _ _ _ _ _ _ _ Hn H') as (j0' & Hj' & _).
    by eapply (inv_ids w Hw).
  - intros m u j i t H. destruct (session_moved w _ _ _ _ _ _ _ _ _ _ _ Hn H) as (j0 & Hj & _).
    by eapply (inv_fresh w Hw).
  - apply (inv_next w Hw).
  - intros m ts f u i t H Hin. edestruct (inv_targets w Hw) as (m' & j & Hm); [done..|].
    destruct (session_moves w n user k k' id s _ _ _ _ _ Hn Hm) as (j' & ? & ?). eauto.
  - intros m ts f u i H Hin. edestruct (inv_failed w Hw) as (m' & j & t & Hm & ?); [done..|].
    destruct (session_moves w n user k k' id s _ _ _ _ _ Hn Hm) as (j' & ? & ?).
    do 3 eexists. split; [done|]. naive_solver.
Qed.

Lemma unregister_inv n user id s :
  session w n user Dropped id s →
  hub_inv (MkWorld (unregister user id (hub w))
             (<[n := MkSession user (Registered Unlisted id s)]> (sessions w))
             (notices w) (registrations w)).
Proof.
  intros Hn. eapply advance_inv; [exact Hn|done..| |].
  - intros u. by apply (moved_active n user Dropped).
  - intros. apply listed_remove.
Qed.

Lemma deactivate_inv n user id s :
  session w n user Unlisted id s →
  hub_inv (MkWorld (deactivate user (hub w))
             (<[n := MkSession user (Registered Gone id s)]> (sessions w))
             (notices w) (registrations w)).
Proof.
  intros Hn. eapply advance_inv; [exact Hn|done..| |].
  - intros u. simpl. rewrite elem_of_difference, elem_of_singleton, (inv_active w Hw). split.
    + intros [(m & a & Hm & E & Ha) Hne]. exists m, a. rewrite lookup_insert_ne; [done|].
      intros ->. unfold session in Hn. by simplify_eq/=.
    + intros (m & a & H & E & Ha). on_maps; [done|]. split; [eauto|]. intros E'.
      assert (m = n); [|done]. by eapply (inv_unique w Hw).
  - intros u i t. simpl. split; [|by intros []]. intros H. split; [done|]. intros [= -> ->].
    apply (inv_listed w Hw) in H as (m & k & Hm & Hk).
    assert (m = n) as -> by (eapply (inv_ids w Hw); eauto). unfold session in *. naive_solver.
Qed.

(** Steps that change one channel in a way its session allows. *)
Lemma channels_inv (s : Sender) q q' alive notices' :
  channels (hub w) !! s = Some (MkChannel q alive) →
  (alive = true → q' = [] ∨ q' = [RelayMessage.DeliveryChanged]) →
  (alive = false → q' = []) →
  (∀ m ts f, notices' !! m = Some (ts, f) →
    (∀ u i t, (u, i, t) ∈ ts → ∃ n k, session w n u k i t) ∧
    (∀ u i, (u, i) ∈ f → ∃ n k t, session w n u k i t ∧ k ≠ Live)) →
  hub_inv (MkWorld (set_channels <[s := MkChannel q' alive]> (hub w)) (sessions w) notices'
             (registrations w)).
Proof.
  intros Hs Hl Hd Hno. pose proof (lookup_lt_Some _ _ _ Hs) as Hlt.
  split; unfold session; simpl.
  - apply (inv_unique w Hw).
  - apply (inv_active w Hw).
  - apply (inv_listed w Hw).
  - intros n u i t H. destruct (inv_live w Hw _ _ _ _ H) as [? (q0 & Hq & ?)]. split; [done|].
    destruct (decide (t = s)) as [->|]; [|rewrite list_lookup_insert_ne by done; eauto].
    rewrite list_lookup_insert_eq by done. simplify_eq. exists q'. split; [done|]. by apply Hl.
  - intros n u k i t H Hk. pose proof (inv_closed w Hw _ _ _ _ _ H Hk) as Hc.
    destruct (decide (t = s)) as [->|]; [|by rewrite list_lookup_insert_ne].
    rewrite list_lookup_insert_eq by done. simplify_eq. by rewrite Hd.
  - apply (inv_ids w Hw).
  - intros n u k i t H. rewrite length_insert. by eapply (inv_fresh w Hw).
  - apply (inv_next w Hw).
  - intros m ts f u i t H. by eapply (Hno m).
  - intros m ts f u i H. by eapply (Hno m).
Qed.

Lemma notices_ok m ts f :
  notices w !! m = Some (ts, f) →
  (∀ u i t, (u, i, t) ∈ ts → ∃ n k, session w n u k i t) ∧
  (∀ u i, (u, i) ∈ f → ∃ n k t, session w n u k i t ∧ k ≠ Live).
Proof. intros H. split; intros; [by eapply (inv_targets w Hw)|by eapply (inv_failed w Hw)]. Qed.

Lemma recv_inv n user id s r hub' :
  session w n user Live id s → recv s (hub w) = (r, hub') →
  hub_inv (MkWorld hub' (sessions w) (notices w) (registrations w)).
Proof.
  intros Hn Hr. destruct (inv_live w Hw _ _ _ _ Hn) as [_ (q & Hq & Hor)].
  unfold recv in Hr. rewrite Hq in Hr. destruct Hor as [->| ->]; simplify_eq; [by destruct w|].
  eapply channels_inv; [exact Hq|auto..|exact notices_ok].
Qed.

Lemma notify_inv n recipients :
  hub_inv (MkWorld (hub w) (sessions w)
             (<[n := (notify_targets recipients (hub w), [])]> (notices w)) (registrations w)).
Proof.
  destruct Hw. split; try done; unfold session; simpl.
  - intros m ts f u i t H Hin. on_maps; [|by eauto].
    apply notify_targets_listed in Hin as [_ Hin]. apply (inv_listed w Hw) in Hin as (j & k & ? & _).
    eauto.
  - intros m ts f u i H Hin. on_maps; [by apply not_elem_of_nil in Hin|by eauto].
Qed.

(** [notify_one] with [DeliveryChanged]: an idle channel gets the message, a channel
    that has one is left alone, and only a closed channel fails. *)
Lemma notify_one_cases (s : Sender) q alive channels channels' failure :
  channels !! s = Some (MkChannel q alive) → q = [] ∨ (alive = true ∧ q = [RelayMessage.DeliveryChanged]) →
  notify_one RelayMessage.DeliveryChanged s channels = (channels', failure) →
  if alive
  then failure = false ∧ channels' = <[s := MkChannel [RelayMessage.DeliveryChanged] true]> channels
  else failure = true ∧ channels' = channels.
Proof.
  intros Hs Hq. unfold notify_one. rewrite Hs. unfold capacity. simpl.
  destruct Hq as [->|[-> ->]].
  - rewrite bool_decide_eq_false_2 by done. destruct alive; simpl; intros; simplify_eq; done.
  - intros E. vm_compute in E. simplify_eq. by rewrite list_insert_id.
Qed.

Lemma send_inv n user id s targets failed channels' failure :
  notices w !! n = Some ((user, id, s) :: targets, failed) →
  notify_one RelayMessage.DeliveryChanged s (channels (hub w)) = (channels', failure) →
  hub_inv (MkWorld (set_channels (λ _, channels') (hub w)) (sessions w)
             (<[n := (targets, if failure then failed ++ [(user, id)] else failed)]> (notices w))
             (registrations w)).
Proof.
  intros Hn Hone. destruct (notices_ok _ _ _ Hn) as [Ht Hf].
  destruct (Ht user id s) as (m & k & Hm); [by left|].
  assert (∃ q alive, channels (hub w) !! s = Some (MkChannel q alive) ∧
    (if alive then k = Live else k ≠ Live) ∧
    (q = [] ∨ (alive = true ∧ q = [RelayMessage.DeliveryChanged]))) as (q & alive & Hc & Hk & Hq).
  { destruct (decide (k = Live)) as [->|Hk].
    - destruct (inv_live w Hw _ _ _ _ Hm) as [_ (q & Hq & ?)]. exists q, true. naive_solver.
    - exists [], false. split_and!; [by eapply (inv_closed w Hw)|done|by left]. }
  pose proof (notify_one_cases _ _ _ _ _ _ Hc Hq Hone) as Hcase.
  destruct alive; destruct Hcase as [-> ->].
  - eapply channels_inv; [exact Hc|auto|done|].
    intros j ts f H. on_maps; [|by eapply notices_ok].
    split; [|done]. intros u i t Hin. apply Ht. by right.
  - assert (q = []) as -> by naive_solver.
    replace (set_channels (λ _, channels (hub w)) (hub w))
      with (set_channels <[s := MkChannel [] false]> (hub w))
      by (unfold set_channels; by rewrite list_insert_id).
    eapply channels_inv; [exact Hc|done|done|].
    intros j ts f H. on_maps; [|by eapply notices_ok]. split.
    + intros u i t Hin. apply Ht. by right.
    + intros u i [Hin|Hin]%elem_of_app; [by apply Hf|].
      apply list_elem_of_singleton in Hin. simplify_eq. eauto.
Qed.

Lemma evict_inv n failed :
  notices w !! n = Some ([], failed) →
  hub_inv (MkWorld (set_connections (evict failed) (hub w)) (sessions w)
             (delete n (notices w)) (registrations w)).
Proof.
  intros Hn. destruct (notices_ok _ _ _ Hn) as [_ Hf].
  destruct Hw. split; try done; unfold session; simpl.
  - intros u i t [H _]%listed_evict. by apply (inv_listed w Hw).
  - intros m u i t H. destruct (inv_live w Hw _ _ _ _ H) as [? ?]. split; [|done].
    apply listed_evict. split; [done|]. intros (m' & k & t' & Hm & Hk)%Hf.
    assert (m = m') as <- by (eapply (inv_ids w Hw); [done|done|by left]).
    unfold session in *. by simplify_eq.
  - intros m ts f u i t H. on_maps. by eauto.
  - intros m ts f u i H. on_maps. by eauto.
Qed.
End steps.

(** ** Runs *)

Lemma hub_step_inv w w' :
  hub_step w w' → registrations w ≤ registrations w' ∧
  (hub_inv w → registrations w' < 2 ^ 64 → hub_inv w').
Proof.
  intros [n u h|n u r s h|n u i s r h|n u i s|n u i s|n u i s|n rs|n u i s ts f c b|n f];
    (split; [simpl; lia|]); intros Hw Hb; simpl in Hb.
  - by apply reserve_inv.
  - by apply connect_inv.
  - by eapply recv_inv.
  - by apply drop_inv.
  - by apply unregister_inv.
  - by apply deactivate_inv.
  - by apply notify_inv.
  - by eapply send_inv.
  - by apply evict_inv.
Qed.

Lemma hub_inv_steps w w' :
  rtc hub_step w w' → hub_inv w → registrations w' < 2 ^ 64 → hub_inv w'.
Proof.
  induction 1 as [|w w1 w' Hstep Hsteps IH]; [done|]. intros Hw Hb.
  assert (registrations w1 ≤ registrations w') as Hle.
  { clear -Hsteps. induction Hsteps as [|a b c Hab _ IH]; [done|].
    apply hub_step_inv in Hab as [? _]. lia. }
  apply hub_step_inv in Hstep as [_ Hinv]. apply IH; [apply Hinv; [done|lia]|done].
Qed.

Lemma hub_inv_occurs w : occurs w → registrations w < 2 ^ 64 → hub_inv w.
Proof. intros Hw. by apply (hub_inv_steps initial), hub_inv_initial. Qed.

(** The loop of [notify] on channels as sessions leave them. *)
Definition proper (channels : list Channel) (s : Sender) : Prop :=
  ∃ q alive, channels !! s = Some (MkChannel q alive) ∧
    (q = [] ∨ (alive = true ∧ q = [RelayMessage.DeliveryChanged])).

Definition alive_at (channels : list Channel) (s : Sender) : Prop :=
  ∃ q, channels !! s = Some (MkChannel q true).

Lemma notify_all_spec targets channels channels' failed :
  Forall (λ t, proper channels t.2) targets →
  notify_all RelayMessage.DeliveryChanged targets channels = (channels', failed) →
  (∀ s, alive_at channels s → s ∈ targets.*2 →
    channels' !! s = Some (MkChannel [RelayMessage.DeliveryChanged] true)) ∧
  (∀ s, s ∉ targets.*2 → channels' !! s = channels !! s) ∧
  (∀ user id, (user, id) ∈ failed →
    ∃ s, (user, id, s) ∈ targets ∧ ¬ alive_at channels s).
Proof.
  revert channels failed. induction targets as [|[[u i] s] targets IH]; intros channels failed Ht E.
  { simpl in E. simplify_eq. set_solver. }
  apply Forall_cons in Ht as [(q & alive & Hs & Hq) Ht]. simpl in Hs, E.
  destruct (notify_one _ s channels) as [channels1 failure] eqn:H1.
  destruct (notify_all _ targets channels1) as [channels2 failed2] eqn:H2. simplify_eq.
  pose proof (lookup_lt_Some _ _ _ Hs) as Hlt.
  pose proof (notify_one_cases _ _ _ _ _ _ Hs Hq H1) as Hcase.
  assert (∀ t, alive_at channels t ↔ alive_at channels1 t) as Halive.
  { intros t. unfold alive_at. destruct alive; destruct Hcase as [-> ->]; [|done].
    destruct (decide (t = s)) as [->|]; [|by rewrite list_lookup_insert_ne].
    rewrite list_lookup_insert_eq by done. split; eauto. }
  assert (Forall (λ t, proper channels1 t.2) targets) as Ht1.
  { eapply Forall_impl; [exact Ht|]. intros [v t] (q' & b & Hb & Hq'). simpl in *.
    destruct alive; destruct Hcase as [-> ->]; [|by exists q', b].
    destruct (decide (t = s)) as [->|].
    - exists [RelayMessage.DeliveryChanged], true. rewrite list_lookup_insert_eq by done. auto.
    - exists q', b. by rewrite list_lookup_insert_ne. }
  destruct (IH _ _ Ht1 H2) as (IH1 & IH2 & IH3). rewrite fmap_cons. simpl. split_and!.
  - intros t Ha Hin. destruct (decide (t ∈ targets.*2)) as [Hin'|Hin']; [apply IH1; [by apply Halive|done]|].
    apply elem_of_cons in Hin as [->|?]; [|done]. rewrite IH2 by done.
    destruct Ha as [q' Ha]. rewrite Hs in Ha. injection Ha as -> ->. destruct Hcase as [_ ->].
    by rewrite list_lookup_insert_eq.
  - intros t [Hne Hin]%not_elem_of_cons. rewrite IH2 by done.
    destruct alive; destruct Hcase as [_ ->]; [|done]. by rewrite list_lookup_insert_ne.
  - intros v j Hin. assert ((∃ t, (v, j, t) ∈ targets ∧ ¬ alive_at channels1 t) ∨
      (failure = true ∧ v = u ∧ j = i)) as [(t & Hin' & Hna)|(-> & -> & ->)].
    { destruct failure; [|by left; apply IH3]. apply elem_of_cons in Hin as [[= -> ->]|?]; [by right|].
      left. by apply IH3. }
    + exists t. split; [by right|]. by rewrite Halive.
    + exists s. split; [by left|]. destruct alive; [by destruct Hcase|].
      intros [q' Ha]. congruence.
Qed.

Lemma target_proper w user id s :
  hub_inv w → listed (connections (hub w)) user id s → proper (channels (hub w)) s.
Proof.
  intros Hw Hl. apply (inv_listed w Hw) in Hl as (n & k & Hn & [-> | ->]).
  - destruct (inv_live w Hw _ _ _ _ Hn) as [_ (q & ? & ?)]. exists q, true. naive_solver.
  - exists [], false. split; [by eapply (inv_closed w Hw)|by left].
Qed.

(** C30: however sessions and notifications interleave, an identity has at most one
    session that has not given it up; the identities the hub holds as active are
    exactly those sessions'; a session that still receives is listed under its
    connection id with an open channel of at most one waiting message, so it is never
    evicted; and a connection that is listed belongs to a session that has yet to
    unregister it: nothing is left behind by sessions that ended. *)
Theorem sessions_are_exclusive_and_reachable w :
  occurs w → registrations w < 2 ^ 64 →
  (∀ n n' a a', sessions w !! n = Some a → sessions w !! n' = Some a' →
    session_user a = session_user a' → holds a → holds a' → n = n') ∧
  (∀ user, user ∈ active_identities (hub w) ↔
    ∃ n a, sessions w !! n = Some a ∧ session_user a = user ∧ holds a) ∧
  (∀ n user id s, session w n user Live id s →
    listed (connections (hub w)) user id s ∧
    ∃ q, channels (hub w) !! s = Some (MkChannel q true) ∧ len q ≤ 1) ∧
  (∀ user id s, listed (connections (hub w)) user id s →
    ∃ n k, session w n user k id s ∧ (k = Live ∨ k = Dropped)).
Proof.
  intros Ho Hb. pose proof (hub_inv_occurs w Ho Hb) as Hw. split_and!.
  - apply (inv_unique w Hw).
  - apply (inv_active w Hw).
  - intros n user id s Hn. destruct (inv_live w Hw _ _ _ _ Hn) as [? (q & ? & Hq)].
    split; [done|]. exists q. split; [done|]. by destruct Hq as [->| ->].
  - apply (inv_listed w Hw).
Qed.

(** C31: a notification is not lost. When the relay announces a change to the active
    identities, every session that still receives finds [DeliveryChanged] as its next
    message, whether or not one was waiting already, and stays connected; channels of
    users that are not addressed are as before. *)
Theorem notifications_reach_every_session w recipients n user id s :
  occurs w → registrations w < 2 ^ 64 →
  session w n user Live id s →
  let hub' := notify recipients RelayMessage.DeliveryChanged (hub w) in
  listed (connections hub') user id s ∧
  (user ∈ recipients → (recv s hub').1 = Received RelayMessage.DeliveryChanged) ∧
  (user ∉ recipients → channels hub' !! s = channels (hub w) !! s).
Proof.
  intros Ho Hb Hn hub'. pose proof (hub_inv_occurs w Ho Hb) as Hw.
  destruct (inv_live w Hw _ _ _ _ Hn) as [Hl (q & Hq & _)].
  subst hub'. unfold notify. set (targets := notify_targets recipients (hub w)).
  destruct (notify_all _ targets (channels (hub w))) as [channels' failed] eqn:E.
  assert (∀ u i, (u, i, s) ∈ targets → u = user ∧ i = id ∧ user ∈ recipients) as Hown.
  { intros u i [Hr Hin]%notify_targets_listed. apply (inv_listed w Hw) in Hin as (m & k & Hm & _).
    assert (m = n) as -> by (eapply (inv_ids w Hw); [exact Hm|exact Hn|by right]).
    unfold session in *. by simplify_eq. }
  destruct (notify_all_spec targets (channels (hub w)) channels' failed) as (H1 & H2 & H3); [|done|].
  { apply Forall_forall. intros [[u i] t] [_ Hin]%notify_targets_listed. by eapply target_proper. }
  split_and!.
  - simpl. apply listed_evict. split; [done|]. intros (t & [_ Hin]%notify_targets_listed & Hna)%H3.
    destruct Hl as (uc & ? & ?), Hin as (uc' & ? & ?). simplify_eq. destruct Hna. by exists q.
  - intros Hr. unfold recv. simpl. rewrite H1; [done|by exists q|].
    apply list_elem_of_fmap. exists (user, id, s). split; [done|]. by apply notify_targets_listed.
  - intros Hr. simpl. apply H2. intros ([[u i] t] & -> & Hin)%list_elem_of_fmap.
    by apply Hown in Hin as (_ & _ & ?).
Qed.

(** Two sessions, one of which has closed its channel, and a notification that took
    its targets before. *)
Definition alice_id : UserId := MkUserId (vreplicate 16 x0a).
Definition bob_id : UserId := MkUserId (vreplicate 16 x0b).

Definition two_sessions : World :=
  MkWorld
    (MkHub {[alice_id; bob_id]} 2
       (<[bob_id := {[1 := 1%nat]}]> (<[alice_id := {[0 := 0%nat]}]> ∅))
       [MkChannel [] true; MkChannel [] false])
    (<[1%nat := MkSession bob_id (Registered Dropped 1 1%nat)]>
       (<[0%nat := MkSession alice_id (Registered Live 0 0%nat)]> ∅))
    ∅ 2.

Lemma two_sessions_occur : occurs two_sessions.
Proof.
  eapply rtc_l; [eapply (step_reserve _ 0 alice_id); reflexivity|].
  eapply rtc_l; [eapply (step_reserve _ 1 bob_id); reflexivity|].
  eapply rtc_l; [eapply (step_connect _ 0 alice_id); reflexivity|].
  eapply rtc_l; [eapply (step_connect _ 1 bob_id); reflexivity|].
  eapply rtc_l; [eapply (step_drop _ 1 bob_id 1 1%nat); reflexivity|].
  vm_compute. apply rtc_refl.
Qed.

Lemma sessions_are_exclusive_and_reachable_witness :
  listed (connections (hub two_sessions)) alice_id 0 0%nat ∧
  ∃ q, channels (hub two_sessions) !! 0%nat = Some (MkChannel q true) ∧ len q ≤ 1.
Proof.
  apply (sessions_are_exclusive_and_reachable two_sessions two_sessions_occur)
    with (n := 0%nat) (user := alice_id) (id := 0) (s := 0%nat); vm_compute; reflexivity.
Defined.

Lemma notifications_reach_every_session_witness :
  (recv 0%nat (notify [alice_id; bob_id] RelayMessage.DeliveryChanged (hub two_sessions))).1 =
  Received RelayMessage.DeliveryChanged.
Proof.
  apply (notifications_reach_every_session two_sessions [alice_id; bob_id] 0 alice_id 0 0%nat
    two_sessions_occur); [vm_compute; reflexivity..|by left].
Defined.
