(* ===== verification/RelayStorage.v ===== *)
(** * The relay's SQLite repository

    The tables of src/crates/grotto-relay/src/storage.rs as a record, [initialize],
    and the transactions the operations run in. SQLite is not part of the program:
    what is modelled is each statement the program issues, as a function of the
    tables, with the constraint violations and conversions that make it fail; on top
    of that any statement may fail at any point, as [sql_fails] decides. *)
From S2P Require Import Prelude Bytes Text Protocol Framing.

(** ** Tables *)

Record Room := { name : str; created_by : UserId; created_at : Z }.

Record PackageRow := MkPackageRow {
  rowid : Z; package_user : UserId; key_package : list byte; published_at : Z }.

Record TokenRow := MkTokenRow {
  token_user : UserId; token_fingerprint : bytes 32; expires : Z; consumed : bool }.

Record JournalRow := MkJournalRow { journal_hash : bytes 32; journal_response : list byte }.

Record EventRow := MkEventRow {
  event_room : RoomId; event_sequence : Z; event_id : MessageId;
  event_sender : UserId; event_record : list byte }.

Record WelcomeRow := MkWelcomeRow {
  welcome_cursor : Z; welcome_recipient : UserId; welcome_record : list byte }.

Record Allocation := MkAllocation {
  allocation_requester : UserId; allocation_recipient : UserId; allocated_at : Z }.

(** A table keyed by its columns is a map or a set; a table read in rowid or
    sequence order is the list of its rows. [welcome_autoincrement] is the
    [sqlite_sequence] entry of [delivery_welcomes]. *)
Record RelayDb := MkRelayDb {
  identities : gmap UserId (bytes 32);
  rooms : gmap RoomId Room;
  room_subscribers : gset (RoomId * UserId);
  key_packages : list PackageRow;
  enrollment_tokens : gmap (bytes 32) TokenRow;
  usage_sender : gmap UserId Z;
  usage_room : gmap RoomId Z;
  delivery_requests : gmap (UserId * MessageId) JournalRow;
  delivery_events : list EventRow;
  delivery_welcomes : list WelcomeRow;
  welcome_autoincrement : Z;
  fetch_grants : gset (UserId * UserId);
  package_allocations : list Allocation;
}.

Definition empty_db : RelayDb :=
  MkRelayDb ∅ ∅ ∅ [] ∅ ∅ ∅ ∅ [] [] 0 ∅ [].

(** Record updates, one per table. *)
Definition set_identities f db := MkRelayDb (f (identities db)) (rooms db) (room_subscribers db) (key_packages db) (enrollment_tokens db) (usage_sender db) (usage_room db) (delivery_requests db) (delivery_events db) (delivery_welcomes db) (welcome_autoincrement db) (fetch_grants db) (package_allocations db).
Definition set_rooms f db := MkRelayDb (identities db) (f (rooms db)) (room_subscribers db) (key_packages db) (enrollment_tokens db) (usage_sender db) (usage_room db) (delivery_requests db) (delivery_events db) (delivery_welcomes db) (welcome_autoincrement db) (fetch_grants db) (package_allocations db).
Definition set_subscribers f db := MkRelayDb (identities db) (rooms db) (f (room_subscribers db)) (key_packages db) (enrollment_tokens db) (usage_sender db) (usage_room db) (delivery_requests db) (delivery_events db) (delivery_welcomes db) (welcome_autoincrement db) (fetch_grants db) (package_allocations db).
Definition set_packages f db := MkRelayDb (identities db) (rooms db) (room_subscribers db) (f (key_packages db)) (enrollment_tokens db) (usage_sender db) (usage_room db) (delivery_requests db) (delivery_events db) (delivery_welcomes db) (welcome_autoincrement db) (fetch_grants db) (package_allocations db).
Definition set_tokens f db := MkRelayDb (identities db) (rooms db) (room_subscribers db) (key_packages db) (f (enrollment_tokens db)) (usage_sender db) (usage_room db) (delivery_requests db) (delivery_events db) (delivery_welcomes db) (welcome_autoincrement db) (fetch_grants db) (package_allocations db).
Definition set_usage_sender f db := MkRelayDb (identities db) (rooms db) (room_subscribers db) (key_packages db) (enrollment_tokens db) (f (usage_sender db)) (usage_room db) (delivery_requests db) (delivery_events db) (delivery_welcomes db) (welcome_autoincrement db) (fetch_grants db) (package_allocations db).
Definition set_usage_room f db := MkRelayDb (identities db) (rooms db) (room_subscribers db) (key_packages db) (enrollment_tokens db) (usage_sender db) (f (usage_room db)) (delivery_requests db) (delivery_events db) (delivery_welcomes db) (welcome_autoincrement db) (fetch_grants db) (package_allocations db).
Definition set_requests f db := MkRelayDb (identities db) (rooms db) (room_subscribers db) (key_packages db) (enrollment_tokens db) (usage_sender db) (usage_room db) (f (delivery_requests db)) (delivery_events db) (delivery_welcomes db) (welcome_autoincrement db) (fetch_grants db) (package_allocations db).
Definition set_events f db := MkRelayDb (identities db) (rooms db) (room_subscribers db) (key_packages db) (enrollment_tokens db) (usage_sender db) (usage_room db) (delivery_requests db) (f (delivery_events db)) (delivery_welcomes db) (welcome_autoincrement db) (fetch_grants db) (package_allocations db).
Definition set_welcomes f n db := MkRelayDb (identities db) (rooms db) (room_subscribers db) (key_packages db) (enrollment_tokens db) (usage_sender db) (usage_room db) (delivery_requests db) (delivery_events db) (f (delivery_welcomes db)) n (fetch_grants db) (package_allocations db).
Definition set_grants f db := MkRelayDb (identities db) (rooms db) (room_subscribers db) (key_packages db) (enrollment_tokens db) (usage_sender db) (usage_room db) (delivery_requests db) (delivery_events db) (delivery_welcomes db) (welcome_autoincrement db) (f (fetch_grants db)) (package_allocations db).
Definition set_allocations f db := MkRelayDb (identities db) (rooms db) (room_subscribers db) (key_packages db) (enrollment_tokens db) (usage_sender db) (usage_room db) (delivery_requests db) (delivery_events db) (delivery_welcomes db) (welcome_autoincrement db) (fetch_grants db) (f (package_allocations db)).

(** ** Errors *)

Inductive Registration := New | Existing.

Inductive StorageError :=
| File (k : ErrorKind)
| Database
| InvalidStoredData (what : string)
| LockPoisoned
| Random
| IdentityKeyConflict
| EnrollmentRequired.

#[global] Instance StorageError_eq_dec : EqDecision StorageError.
Proof. solve_decision. Defined.

(** ** [initialize]

    The parts of a database file it looks at: [PRAGMA user_version],
    [PRAGMA application_id], the objects of [sqlite_schema], and the tables. *)
Record DbFile := MkDbFile {
  user_version : Z; application_id : Z; schema_objects : Z; tables : RelayDb }.

Definition initialize (file : DbFile) : result StorageError DbFile :=
  if (user_version file =? 9) && (application_id file =? 0x4752523a) then Ok file
  else if negb (user_version file =? 0) || negb (application_id file =? 0)
          || negb (schema_objects file =? 0)
  then Err (InvalidStoredData "unsupported relay schema; choose a fresh database (no migrations)")
  else (* 13 tables of the schema batch and their 5 explicit indexes *)
    Ok (MkDbFile 9 1196577338 18 empty_db).

(** ** Transactions *)

(** What an operation meets outside the database: the clock of [unixepoch()], the
    mutex, which SQL statements fail (numbered within the operation), randomness,
    and the sizes [StorageLimits::admit] asks the system for. *)
Record Env := MkEnv {
  now : Z;
  lock_poisoned : bool;
  sql_fails : nat → bool;
  random16 : option (bytes 16);
  random32 : option (bytes 32);
  page_size : Z;
  page_count : Z;
  wal_metadata : result ErrorKind Z;
  path_has_nul : bool;
  statvfs : result ErrorKind (Z * Z);
}.

(** The counters of metrics.rs that storage operations touch. *)
Record Metrics := MkMetrics { quota_rejections : Z; commit_conflicts : Z }.

(** [committed] is the database; [working] is what the open transaction sees. *)
Record Tx := MkTx { committed : RelayDb; working : RelayDb; step : nat; metrics : Metrics }.

Definition TxM (A : Type) : Type := Env → Tx → result StorageError A * Tx.

#[global] Instance TxM_ret : MRet TxM := λ A a env tx, (Ok a, tx).
#[global] Instance TxM_bind : MBind TxM := λ A B f m env tx,
  match m env tx with
  | (Ok a, tx) => f a env tx
  | (Err e, tx) => (Err e, tx)
  end.

Definition fail {A} (e : StorageError) : TxM A := λ _ tx, (Err e, tx).
Definition lift {A} (r : result StorageError A) : TxM A := λ _ tx, (r, tx).
Definition ask {A} (f : Env → A) : TxM A := λ env tx, (Ok (f env), tx).

(** One SQL statement; [None] is a statement SQLite or rusqlite refuses. *)
Definition statement {A} (f : RelayDb → option (A * RelayDb)) : TxM A := λ env tx,
  let failed := (Err Database, MkTx (committed tx) (working tx) (S (step tx)) (metrics tx)) in
  if sql_fails env (step tx) then failed
  else match f (working tx) with
       | Some (a, db) => (Ok a, MkTx (committed tx) db (S (step tx)) (metrics tx))
       | None => failed
       end.

Definition query {A} (f : RelayDb → A) : TxM A := statement (λ db, Some (f db, db)).
Definition try_query {A} (f : RelayDb → option A) : TxM A :=
  statement (λ db, a ← f db; Some (a, db)).
Definition execute_sql (f : RelayDb → option RelayDb) : TxM () :=
  statement (λ db, db ← f db; Some (tt, db)).

(** [rows.next()]: stepping the cursor may fail as well. *)
Definition next_row : TxM () := statement (λ db, Some (tt, db)).

(** [Transaction::commit]. *)
Definition commit : TxM () := λ env tx,
  if sql_fails env (step tx)
  then (Err Database, MkTx (committed tx) (working tx) (S (step tx)) (metrics tx))
  else (Ok tt, MkTx (working tx) (working tx) (S (step tx)) (metrics tx)).

Definition increment_quota_rejections : TxM () := λ _ tx,
  (Ok tt, MkTx (committed tx) (working tx) (step tx)
    (MkMetrics (wrapping_add64 (quota_rejections (metrics tx)) 1) (commit_conflicts (metrics tx)))).
Definition increment_commit_conflicts : TxM () := λ _ tx,
  (Ok tt, MkTx (committed tx) (working tx) (step tx)
    (MkMetrics (quota_rejections (metrics tx)) (wrapping_add64 (commit_conflicts (metrics tx)) 1))).

(** [lock_connection()?] and [transaction_with_behavior(Immediate)?] around a body;
    a transaction that was not committed rolls back when it is dropped. *)
Definition transaction {A} (body : TxM A) (env : Env) (db : RelayDb) (m : Metrics)
    : result StorageError A * RelayDb * Metrics :=
  if lock_poisoned env then (Err LockPoisoned, db, m)
  else
    let '(r, tx) := (query (λ _, tt);; body) env (MkTx db db 0 m) in
    (r, committed tx, metrics tx).

(** ** Column conversions *)

(** [u64] as a parameter: rusqlite refuses what an [i64] cannot hold. *)
Definition to_sql_u64 (z : Z) : option Z := if decide (z ≤ i64_max) then Some z else None.

(** A [u64] out of a column: an integer that left the [i64] range in an addition was
    stored as a REAL, and reading it back as an integer fails. *)
Definition from_sql_u64 (z : Z) : option Z := if decide (z ≤ i64_max) then Some z else None.

(** ** Lemmas *)

Lemma bind_inv {A B} (m : TxM A) (k : A → TxM B) env tx b tx' :
  (m ≫= k) env tx = (Ok b, tx') →
  ∃ a tx1, m env tx = (Ok a, tx1) ∧ k a env tx1 = (Ok b, tx').
Proof. unfold mbind, TxM_bind. destruct (m env tx) as [[a|e] tx1]; naive_solver. Qed.

Lemma ret_inv {A} (a b : A) env tx tx' :
  (mret a : TxM A) env tx = (Ok b, tx') → b = a ∧ tx' = tx.
Proof. unfold mret, TxM_ret. naive_solver. Qed.

Lemma lift_inv {A} (r : result StorageError A) env tx b tx' :
  lift r env tx = (Ok b, tx') → r = Ok b ∧ tx' = tx.
Proof. unfold lift. naive_solver. Qed.

Lemma ask_inv {A} (f : Env → A) env tx b tx' :
  ask f env tx = (Ok b, tx') → b = f env ∧ tx' = tx.
Proof. unfold ask. naive_solver. Qed.

(** A transaction state after a statement that left the tables as [db]. *)
Definition after (db : RelayDb) (tx : Tx) : Tx :=
  MkTx (committed tx) db (S (step tx)) (metrics tx).

Lemma statement_inv {A} (f : RelayDb → option (A * RelayDb)) env tx b tx' :
  statement f env tx = (Ok b, tx') → ∃ db, f (working tx) = Some (b, db) ∧ tx' = after db tx.
Proof.
  unfold statement. destruct (sql_fails env (step tx)); [done|].
  destruct (f (working tx)) as [[a db]|]; [|done]. intros [= <- <-]. eauto.
Qed.

Lemma query_inv {A} (f : RelayDb → A) env tx b tx' :
  query f env tx = (Ok b, tx') → b = f (working tx) ∧ tx' = after (working tx) tx.
Proof. intros (db & E & ->)%statement_inv. by simplify_eq/=. Qed.

Lemma try_query_inv {A} (f : RelayDb → option A) env tx b tx' :
  try_query f env tx = (Ok b, tx') → f (working tx) = Some b ∧ tx' = after (working tx) tx.
Proof. intros (db & E & ->)%statement_inv. apply bind_Some in E as (a & ? & ?). by simplify_eq/=. Qed.

Lemma execute_inv f env tx b tx' :
  execute_sql f env tx = (Ok b, tx') → ∃ db, f (working tx) = Some db ∧ tx' = after db tx.
Proof. intros (db & E & ->)%statement_inv. apply bind_Some in E as (a & ? & ?). simplify_eq/=. eauto. Qed.

Lemma next_row_inv env tx b tx' :
  next_row env tx = (Ok b, tx') → tx' = after (working tx) tx.
Proof. intros (db & E & ->)%statement_inv. by simplify_eq/=. Qed.

Lemma commit_inv env tx b tx' :
  commit env tx = (Ok b, tx') → committed tx' = working tx ∧ metrics tx' = metrics tx.
Proof. unfold commit. destruct (sql_fails env (step tx)); [done|]. by intros [= <- <-]. Qed.

(** Computations that leave the database alone: everything but [commit]. *)
Definition uncommitting {A} (m : TxM A) : Prop :=
  ∀ env tx, committed (m env tx).2 = committed tx.

Lemma uncommitting_ret {A} (a : A) : uncommitting (mret a).
Proof. done. Qed.
Lemma uncommitting_bind {A B} (m : TxM A) (k : A → TxM B) :
  uncommitting m → (∀ a, uncommitting (k a)) → uncommitting (m ≫= k).
Proof.
  intros Hm Hk env tx. unfold mbind, TxM_bind. pose proof (Hm env tx).
  destruct (m env tx) as [[a|e] tx1]; simpl in *; [|done]. by rewrite (Hk a env tx1).
Qed.
Lemma uncommitting_statement {A} (f : RelayDb → option (A * RelayDb)) : uncommitting (statement f).
Proof.
  intros env tx. unfold statement. destruct (sql_fails env (step tx)); [done|].
  by destruct (f (working tx)) as [[a db]|].
Qed.
Lemma uncommitting_lift {A} (r : result StorageError A) : uncommitting (lift r).
Proof. done. Qed.
Lemma uncommitting_fail {A} e : uncommitting (fail e : TxM A).
Proof. done. Qed.
Lemma uncommitting_ask {A} (f : Env → A) : uncommitting (ask f).
Proof. done. Qed.
Lemma uncommitting_if {A} (b : bool) (m n : TxM A) :
  uncommitting m → uncommitting n → uncommitting (if b then m else n).
Proof. by destruct b. Qed.
Lemma uncommitting_quota : uncommitting increment_quota_rejections.
Proof. done. Qed.
Lemma uncommitting_conflicts : uncommitting increment_commit_conflicts.
Proof. done. Qed.

#[export] Hint Resolve uncommitting_ret uncommitting_statement uncommitting_lift
  uncommitting_fail uncommitting_ask uncommitting_if uncommitting_quota uncommitting_conflicts : grotto.

(** Walks through the binds and branches of an operation. *)
Ltac solve_uncommitting :=
  repeat first
    [ solve [auto with grotto]
    | apply uncommitting_bind; [|intros ?]
    | apply uncommitting_statement
    | case_match ].

(** Up to the commit, an operation that stops leaves the database as it was. *)
Lemma bind_committed {A B} (m : TxM A) (k : A → TxM B) env tx r tx' :
  uncommitting m → (m ≫= k) env tx = (r, tx') →
  committed tx' = committed tx ∨
  ∃ a tx1, m env tx = (Ok a, tx1) ∧ committed tx1 = committed tx ∧ k a env tx1 = (r, tx').
Proof.
  intros Hm E. unfold mbind, TxM_bind in E. specialize (Hm env tx).
  destruct (m env tx) as [[a|e] tx1] eqn:Em; simpl in *; [right|left; by simplify_eq].
  eauto.
Qed.

Lemma uncommitted {A} (m : TxM A) env tx r tx' :
  uncommitting m → m env tx = (r, tx') → committed tx' = committed tx.
Proof. intros Hm E. specialize (Hm env tx). by rewrite E in Hm. Qed.

Lemma transaction_inv {A} (body : TxM A) env db m r db' m' :
  transaction body env db m = (r, db', m') →
  (∃ e, r = Err e ∧ (e = LockPoisoned ∨ e = Database) ∧ db' = db) ∨
  ∃ tx', body env (MkTx db db 1 m) = (r, tx') ∧ db' = committed tx' ∧ m' = metrics tx'.
Proof.
  unfold transaction. destruct (lock_poisoned env); [intros [= <- <- <-]; left; naive_solver|].
  unfold mbind, TxM_bind, query, statement. simpl.
  destruct (sql_fails env 0); [intros [= <- <- <-]; left; naive_solver|].
  destruct (body env _) as [r1 tx1]. intros [= <- <- <-]. eauto.
Qed.

Lemma bind_err_inv {A B} (m : TxM A) (k : A → TxM B) env tx e tx' :
  (m ≫= k) env tx = (Err e, tx') →
  m env tx = (Err e, tx') ∨ ∃ a tx1, m env tx = (Ok a, tx1) ∧ k a env tx1 = (Err e, tx').
Proof.
  unfold mbind, TxM_bind. destruct (m env tx) as [[a|e'] tx1]; [right; eauto|].
  intros. simplify_eq. by left.
Qed.

Lemma statement_err {A} (f : RelayDb → option (A * RelayDb)) env tx e tx' :
  statement f env tx = (Err e, tx') → e = Database.
Proof.
  unfold statement. destruct (sql_fails env (step tx)); [by intros; simplify_eq|].
  destruct (f (working tx)) as [[]|]; intros; by simplify_eq.
Qed.

Lemma commit_err env tx e tx' : commit env tx = (Err e, tx') → e = Database.
Proof. unfold commit. destruct (sql_fails env (step tx)); intros; by simplify_eq. Qed.

(** Computations that leave the database as it was whenever they fail. *)
Definition atomic {A} (m : TxM A) : Prop :=
  ∀ env tx e tx', m env tx = (Err e, tx') → committed tx' = committed tx.

Lemma atomic_uncommitting {A} (m : TxM A) : uncommitting m → atomic m.
Proof. intros Hm env tx e tx' E. by eapply uncommitted in E. Qed.

Lemma atomic_bind {A B} (m : TxM A) (k : A → TxM B) :
  uncommitting m → (∀ a, atomic (k a)) → atomic (m ≫= k).
Proof.
  intros Hm Hk env tx e tx' E.
  apply bind_committed in E as [?|(a & tx1 & _ & <- & E)]; [done| |done]. by eapply Hk.
Qed.

Lemma atomic_commit {A} (a : A) : atomic (commit;; mret a).
Proof.
  intros env tx e tx' E. unfold mbind, TxM_bind, commit in E.
  by destruct (sql_fails env (step tx)); simplify_eq.
Qed.

Ltac solve_atomic :=
  repeat first
    [ apply atomic_commit
    | solve [apply atomic_uncommitting; auto with grotto]
    | apply atomic_bind; [solve [auto with grotto | solve_uncommitting]|intros ?]
    | case_match ].

(** Computations that leave the tables alone. *)
Definition reading {A} (m : TxM A) : Prop := ∀ env tx, working (m env tx).2 = working tx.

Lemma reading_ret {A} (a : A) : reading (mret a).
Proof. done. Qed.
Lemma reading_bind {A B} (m : TxM A) (k : A → TxM B) :
  reading m → (∀ a, reading (k a)) → reading (m ≫= k).
Proof.
  intros Hm Hk env tx. unfold mbind, TxM_bind. pose proof (Hm env tx).
  destruct (m env tx) as [[a|e] tx1]; simpl in *; [|done]. by rewrite (Hk a env tx1).
Qed.
Lemma reading_try_query {A} (f : RelayDb → option A) : reading (try_query f).
Proof.
  intros env tx. unfold try_query, statement. destruct (sql_fails env (step tx)); [done|].
  by destruct (f (working tx)).
Qed.
Lemma reading_query {A} (f : RelayDb → A) : reading (query f).
Proof. intros env tx. unfold query, statement. by destruct (sql_fails env (step tx)). Qed.
Lemma reading_next_row : reading next_row.
Proof. intros env tx. unfold next_row, statement. by destruct (sql_fails env (step tx)). Qed.
Lemma reading_lift {A} (r : result StorageError A) : reading (lift r).
Proof. done. Qed.
Lemma reading_fail {A} e : reading (fail e : TxM A).
Proof. done. Qed.
Lemma reading_ask {A} (f : Env → A) : reading (ask f).
Proof. done. Qed.
Lemma reading_if {A} (b : bool) (m n : TxM A) :
  reading m → reading n → reading (if b then m else n).
Proof. by destruct b. Qed.
Lemma reading_quota : reading increment_quota_rejections.
Proof. done. Qed.
Lemma reading_conflicts : reading increment_commit_conflicts.
Proof. done. Qed.

Lemma reading_inv {A} (m : TxM A) env tx r tx' : reading m → m env tx = (r, tx') → working tx' = working tx.
Proof. intros Hm E. specialize (Hm env tx). by rewrite E in Hm. Qed.

#[export] Hint Resolve reading_ret reading_try_query reading_query reading_next_row reading_lift
  reading_fail reading_ask reading_if reading_quota reading_conflicts : grotto.

Ltac solve_reading :=
  repeat first
    [ solve [auto with grotto]
    | apply reading_bind; [|intros ?]
    | case_match ].

(** Inverts an operation that returned a value, statement by statement. *)
Ltac inv_tx :=
  repeat match goal with
  | H : mbind _ _ _ _ = (Ok _, _) |- _ => apply bind_inv in H as (? & ? & ? & H); cbn beta in H
  | H : mret _ _ _ = (Ok _, _) |- _ => apply ret_inv in H as [? ?]
  | H : lift _ _ _ = (Ok _, _) |- _ => apply lift_inv in H as [? ?]
  | H : ask _ _ _ = (Ok _, _) |- _ => apply ask_inv in H as [? ?]
  | H : fail _ _ _ = (Ok _, _) |- _ => discriminate H
  | H : query _ _ _ = (Ok _, _) |- _ => apply query_inv in H as [? ?]
  | H : try_query _ _ _ = (Ok _, _) |- _ => apply try_query_inv in H as [? ?]
  | H : execute_sql _ _ _ = (Ok _, _) |- _ => apply execute_inv in H as (? & ? & ?)
  | H : next_row _ _ = (Ok _, _) |- _ => apply next_row_inv in H
  end; subst; cbn [working after] in *.
