(* ===== verification/RelayLimits.v ===== *)
(** * Storage admission and runtime limits

    [StorageLimits] and [RuntimeLimits] of src/crates/grotto-relay/src/limits.rs. *)
From S2P Require Import Prelude Bytes Text Postcard Protocol Wire Framing RelayStorage.

(** ** [StorageLimits] *)

Record StorageLimits := MkStorageLimits { global : Z; sender : Z; room : Z; reserve : Z }.

Definition default_storage_limits : StorageLimits :=
  MkStorageLimits (1024 * 1024 * 1024) (100 * 1024 * 1024) (100 * 1024 * 1024)
    (64 * 1024 * 1024).

(** [str::parse::<u64>]. *)
Definition parse_u64 (text : str) : option Z := from_str_radix 10 u64_max (utf8 text).

(** The environment variables of the process. *)
Definition Vars := string → option str.

(** One entry of the loop: an unset variable keeps the default. *)
Definition storage_var (vars : Vars) (name : string) (value : Z) : result StorageError Z :=
  match vars name with
  | Some text => ok_or (InvalidStoredData "invalid storage limit") (parse_u64 text)
  | None => Ok value
  end.

Definition storage_limits_environment (vars : Vars) : result StorageError StorageLimits :=
  let limits := default_storage_limits in
  global ← storage_var vars "GROTTO_STORAGE_GLOBAL_BYTES" (global limits);
  sender ← storage_var vars "GROTTO_STORAGE_SENDER_BYTES" (sender limits);
  room ← storage_var vars "GROTTO_STORAGE_ROOM_BYTES" (room limits);
  reserve ← storage_var vars "GROTTO_RECOVERY_RESERVE_BYTES" (reserve limits);
  mret (MkStorageLimits global sender room reserve).

(** What a durable request is charged: three times its wire size and 16 KiB. *)
Definition charge (wire : list byte) : Z :=
  saturating_add (saturating_mul (len wire) 3) (16 * 1024).

Section admission.
Context `{Postcard}.

(** [StorageLimits::admit]: [false] is a refusal. *)
Definition admit_request (limits : StorageLimits) (user : UserId) (request : Request.t)
    : TxM bool :=
  wire ← lift (map_err (InvalidStoredData "cannot encode request")
                 (encode_message c_request request));
  if decide (len wire > MAX_PAYLOAD) then mret false else
  let required := charge wire in
  env ← ask id;
  page_size ← query (λ _, page_size env);
  page_count ← query (λ _, page_count env);
  let logical := saturating_mul page_size page_count in
  if decide (saturating_add logical required > global limits) then mret false else
  wal ← lift (match wal_metadata env with
              | Ok wal => Ok wal
              | Err NotFound => Ok 0
              | Err k => Err (File k)
              end);
  if decide (saturating_add (saturating_add logical wal) required
             > saturating_add (global limits) (reserve limits)) then mret false else
  used ← try_query (λ db, from_sql_u64 (default 0 (usage_sender db !! user)));
  if decide (saturating_add used required > sender limits) then mret false else
  room_full ←
    match request with
    | Request.AppendRoomOperation operation =>
        used ← try_query (λ db, from_sql_u64 (default 0 (usage_room db !! Append.room operation)));
        mret (bool_decide (saturating_add used required > room limits))
    | _ => mret false
    end;
  if (room_full : bool) then mret false else
  if path_has_nul env then fail (InvalidStoredData "invalid database path") else
  '(bavail, frsize) ← lift (match statvfs env with Ok space => Ok space | Err k => Err (File k) end);
  mret (bool_decide (saturating_add (reserve limits) required ≤ bavail * frsize)).

Lemma uncommitting_admit_request limits user request :
  uncommitting (admit_request limits user request).
Proof. unfold admit_request. solve_uncommitting. Qed.

Lemma reading_admit_request limits user request : reading (admit_request limits user request).
Proof. unfold admit_request. solve_reading. Qed.
End admission.

#[export] Hint Resolve uncommitting_admit_request reading_admit_request : grotto.

(** ** [RuntimeLimits] *)

Record RuntimeLimits := MkRuntimeLimits {
  connections : Z; handshakes : Z; handshakes_per_ip : Z; database_queue : Z;
  handshake_seconds : Z; frame_seconds : Z; write_seconds : Z;
  requests_per_second : Z; request_burst : Z; payload_bytes : Z }.

Definition default_runtime_limits : RuntimeLimits :=
  MkRuntimeLimits 128 16 4 128 10 15 10 20 40 (64 * 1024 * 1024).

(** An entry of the first loop of [configure]; the range is checked whether or not
    the variable is set. *)
Definition count_var (vars : Vars) (name : string) (value : Z) : result StorageError Z :=
  value ← match vars name with
          | Some text => ok_or (InvalidStoredData "invalid runtime limit") (parse_u64 text)
          | None => Ok value
          end;
  if decide (value = 0 ∨ value > u32_max)
  then Err (InvalidStoredData "runtime limit out of range") else Ok value.

(** An entry of the second loop. *)
Definition deadline_var (vars : Vars) (name : string) (value : Z) : result StorageError Z :=
  value ← match vars name with
          | Some text => ok_or (InvalidStoredData "invalid deadline") (parse_u64 text)
          | None => Ok value
          end;
  if decide (value = 0 ∨ value > 3600)
  then Err (InvalidStoredData "deadline out of range") else Ok value.

(** [configure]: the configuration it would install. *)
Definition configured_limits (vars : Vars) : result StorageError RuntimeLimits :=
  let config := default_runtime_limits in
  connections ← count_var vars "GROTTO_MAX_CONNECTIONS" (connections config);
  handshakes ← count_var vars "GROTTO_MAX_HANDSHAKES" (handshakes config);
  handshakes_per_ip ← count_var vars "GROTTO_MAX_HANDSHAKES_PER_IP" (handshakes_per_ip config);
  database_queue ← count_var vars "GROTTO_DATABASE_QUEUE" (database_queue config);
  requests_per_second ← count_var vars "GROTTO_REQUESTS_PER_SECOND" (requests_per_second config);
  request_burst ← count_var vars "GROTTO_REQUEST_BURST" (request_burst config);
  payload_bytes ← count_var vars "GROTTO_PAYLOAD_BYTES" (payload_bytes config);
  handshake_seconds ← deadline_var vars "GROTTO_HANDSHAKE_SECONDS" (handshake_seconds config);
  frame_seconds ← deadline_var vars "GROTTO_FRAME_SECONDS" (frame_seconds config);
  write_seconds ← deadline_var vars "GROTTO_WRITE_SECONDS" (write_seconds config);
  if decide (payload_bytes < 2 * 1024 * 1024)
  then Err (InvalidStoredData "payload budget needs at least one 2 MiB operation")
  else mret (MkRuntimeLimits connections handshakes handshakes_per_ip database_queue
               handshake_seconds frame_seconds write_seconds requests_per_second
               request_burst payload_bytes).

(** [configure] and [runtime] on the [OnceLock]: the first value set stays. *)
Definition configure (vars : Vars) (cell : option RuntimeLimits)
    : result StorageError () * option RuntimeLimits :=
  match configured_limits vars with
  | Err e => (Err e, cell)
  | Ok config => (Ok tt, match cell with None => Some config | Some c => Some c end)
  end.

Definition runtime (cell : option RuntimeLimits) : RuntimeLimits * option RuntimeLimits :=
  let config := default default_runtime_limits cell in (config, Some config).

(** ** Lemmas *)

Lemma count_var_range vars name value n :
  0 ≤ value → count_var vars name value = Ok n → 1 ≤ n ≤ u32_max.
Proof.
  intros Hv H. unfold count_var in H.
  destruct (vars name) as [text|]; [destruct (parse_u64 text) as [z|] eqn:E; [|done]|];
    cbn [mbind result_bind ok_or] in H; case_decide; try done; simplify_eq; [|lia].
  apply from_str_radix_nonneg in E; lia.
Qed.

Lemma deadline_var_range vars name value n :
  0 ≤ value → deadline_var vars name value = Ok n → 1 ≤ n ≤ 3600.
Proof.
  intros Hv H. unfold deadline_var in H.
  destruct (vars name) as [text|]; [destruct (parse_u64 text) as [z|] eqn:E; [|done]|];
    cbn [mbind result_bind ok_or] in H; case_decide; try done; simplify_eq; [|lia].
  apply from_str_radix_nonneg in E; lia.
Qed.

(** What [configure] accepts. *)
Lemma configured_limits_range vars c :
  configured_limits vars = Ok c →
  1 ≤ connections c ≤ u32_max ∧ 1 ≤ handshakes c ≤ u32_max ∧ 1 ≤ handshakes_per_ip c ≤ u32_max ∧
  1 ≤ database_queue c ≤ u32_max ∧ 1 ≤ requests_per_second c ≤ u32_max ∧
  1 ≤ request_burst c ≤ u32_max ∧ 2 * 1024 * 1024 ≤ payload_bytes c ≤ u32_max ∧
  1 ≤ handshake_seconds c ≤ 3600 ∧ 1 ≤ frame_seconds c ≤ 3600 ∧ 1 ≤ write_seconds c ≤ 3600.
Proof.
  unfold configured_limits. intros H.
  repeat match goal with
  | H : (count_var ?v ?n ?d ≫= _) = Ok _ |- _ =>
      let E := fresh "E" in destruct (count_var v n d) eqn:E; [|done];
      apply count_var_range in E; [|by vm_compute]; cbn [mbind result_bind] in H
  | H : (deadline_var ?v ?n ?d ≫= _) = Ok _ |- _ =>
      let E := fresh "E" in destruct (deadline_var v n d) eqn:E; [|done];
      apply deadline_var_range in E; [|by vm_compute]; cbn [mbind result_bind] in H
  end.
  case_decide; [done|]. unfold mret, result_ret in H. simplify_eq. cbn. lia.
Qed.
