(* ===== verification/RelayRate.v ===== *)
(** * Request rates

    [ConnectionHub::admit_request] of src/crates/grotto-relay/src/lib.rs: a token bucket
    per user. Tokens are [f64]: the IEEE binary64 operations are the Standard Library's
    specification of them. An [Instant] is a number of nanoseconds. *)
From Stdlib.Floats Require Import SpecFloat.
From S2P Require Import Prelude Bytes Protocol Framing RelayStorage RelayLimits.

(** ** [f64] *)

Definition f64 := spec_float.

Definition f64_of_Z (z : Z) : f64 := binary_normalize 53 1024 z 0 false.
Definition f64_add (a b : f64) : f64 := SFadd 53 1024 a b.
Definition f64_sub (a b : f64) : f64 := SFsub 53 1024 a b.
Definition f64_mul (a b : f64) : f64 := SFmul 53 1024 a b.
Definition f64_div (a b : f64) : f64 := SFdiv 53 1024 a b.
Definition f64_lt (a b : f64) : bool := SFltb a b.

Definition is_nan (a : f64) : bool := match a with S754_nan => true | _ => false end.

(** [f64::min] ignores a NaN. *)
Definition f64_min (a b : f64) : f64 :=
  if is_nan a then b else if is_nan b then a else if f64_lt b a then b else a.

(** ** Time *)

Definition nanos_per_sec : Z := 1000000000.

(** [Instant::duration_since] saturates at zero. *)
Definition duration_since (now last : Z) : Z := Z.max 0 (now - last).
Definition as_secs (d : Z) : Z := d `div` nanos_per_sec.
(** [Duration::as_secs_f64]. *)
Definition as_secs_f64 (d : Z) : f64 :=
  f64_add (f64_of_Z (as_secs d))
    (f64_div (f64_of_Z (d `mod` nanos_per_sec)) (f64_of_Z nanos_per_sec)).

(** ** The buckets *)

(** When the user was last seen, and the tokens left then. *)
Abbreviation Rates := (gmap UserId (Z * f64)).

(** [rates.retain]: a user not seen for a minute is forgotten. *)
Definition retain_recent (now : Z) (rates : Rates) : Rates :=
  filter (λ r, as_secs (duration_since now r.2.1) < 60) rates.

(** The tokens of a bucket after the time since [last]. *)
Definition refill (config : RuntimeLimits) (now last : Z) (tokens : f64) : f64 :=
  f64_min (f64_add tokens (f64_mul (as_secs_f64 (duration_since now last))
                             (f64_of_Z (requests_per_second config))))
    (f64_of_Z (request_burst config)).

Definition rate_admit (config : RuntimeLimits) (now : Z) (user : UserId) (rates : Rates)
    : bool * Rates :=
  let rates := retain_recent now rates in
  let '(last, tokens) := default (now, f64_of_Z (request_burst config)) (rates !! user) in
  let tokens := refill config now last tokens in
  if f64_lt tokens (f64_of_Z 1) then (false, <[user := (now, tokens)]> rates)
  else (true, <[user := (now, f64_sub tokens (f64_of_Z 1))]> rates).

(** ** Bursts *)

(** [n] requests at the same instant: the answers in order. *)
Fixpoint admit_many (config : RuntimeLimits) (now : Z) (user : UserId) (n : nat) (rates : Rates)
    : list bool * Rates :=
  match n with
  | O => ([], rates)
  | S n =>
      let '(admitted, rates) := rate_admit config now user rates in
      let '(rest, rates) := admit_many config now user n rates in
      (admitted :: rest, rates)
  end.

Lemma retain_recent_lookup now user rates last tokens :
  retain_recent now rates !! user = Some (last, tokens) ↔
  rates !! user = Some (last, tokens) ∧ as_secs (duration_since now last) < 60.
Proof. unfold retain_recent. by rewrite map_lookup_filter_Some. Qed.

(** A bucket touched at this instant survives the sweep. *)
Lemma retain_recent_now now user tokens rates :
  retain_recent now (<[user := (now, tokens)]> rates) !! user = Some (now, tokens).
Proof.
  apply retain_recent_lookup. rewrite lookup_insert_eq. split; [done|].
  unfold as_secs, duration_since. by rewrite Z.sub_diag.
Qed.

(** Without time passing, a bucket of whole tokens keeps them, and pays one exactly. *)
Lemma refill_now now k :
  (k ≤ 40)%nat →
  refill default_runtime_limits now now (f64_of_Z (Z.of_nat k)) = f64_of_Z (Z.of_nat k).
Proof.
  intros Hk. unfold refill, duration_since. rewrite Z.sub_diag.
  do 41 (destruct k as [|k]; [vm_compute; reflexivity|]). lia.
Qed.

Lemma pay_one k :
  (k < 40)%nat →
  f64_lt (f64_of_Z (Z.of_nat (S k))) (f64_of_Z 1) = false ∧
  f64_sub (f64_of_Z (Z.of_nat (S k))) (f64_of_Z 1) = f64_of_Z (Z.of_nat k).
Proof. intros Hk. do 40 (destruct k as [|k]; [vm_compute; done|]). lia. Qed.

Lemma admit_from_bucket now user k rates :
  (k ≤ 40)%nat → retain_recent now rates !! user = Some (now, f64_of_Z (Z.of_nat k)) →
  rate_admit default_runtime_limits now user rates =
    (bool_decide (0 < k)%nat,
     <[user := (now, f64_of_Z (Z.of_nat (k - 1)))]> (retain_recent now rates)).
Proof.
  intros Hk Hu. unfold rate_admit. rewrite Hu. cbn [from_option id].
  rewrite refill_now by done. destruct k as [|k]; [done|].
  destruct (pay_one k) as [-> ->]; [lia|]. by replace (S k - 1)%nat with k by lia.
Qed.

Lemma admit_many_from_bucket now user n : ∀ k rates,
  (k ≤ 40)%nat → retain_recent now rates !! user = Some (now, f64_of_Z (Z.of_nat k)) →
  (admit_many default_runtime_limits now user n rates).1 =
    replicate (n `min` k) true ++ replicate (n - k) false.
Proof.
  induction n as [|n IH]; intros k rates Hk Hu; [done|]. simpl.
  rewrite (admit_from_bucket now user k) by done.
  pose proof (IH (k - 1)%nat (<[user := (now, f64_of_Z (Z.of_nat (k - 1)))]> (retain_recent now rates)))
    as Hn. destruct (admit_many _ _ _ n _) as [rest rates']. simpl in *.
  rewrite Hn; [|lia|apply retain_recent_now]. destruct k as [|k]; simpl.
  - rewrite Nat.min_0_r, Nat.sub_0_r. done.
  - by rewrite Nat.sub_0_r.
Qed.

(** The rate limit of the default configuration. A user not seen for a minute has a
    burst of exactly 40 requests: of any number of requests at one instant the first 40
    are admitted and the others refused; and a request of one user leaves the buckets
    of all others seen in the last minute as they are. *)
Theorem request_bursts_are_bounded now user n rates :
  retain_recent now rates !! user = None →
  (admit_many default_runtime_limits now user n rates).1 =
    replicate (n `min` 40) true ++ replicate (n - 40) false ∧
  ∀ other config, other ≠ user →
    (rate_admit config now user rates).2 !! other = retain_recent now rates !! other.
Proof.
  intros Hu. split.
  - destruct n as [|n]; [done|]. cbn [admit_many]. unfold rate_admit at 1. rewrite Hu. cbn [from_option id].
    change (f64_of_Z (request_burst default_runtime_limits)) with (f64_of_Z (Z.of_nat 40)).
    rewrite refill_now by done. destruct (pay_one 39) as [-> ->]; [lia|].
    pose proof (admit_many_from_bucket now user n 39
      (<[user := (now, f64_of_Z (Z.of_nat 39))]> (retain_recent now rates))) as Hn.
    destruct (admit_many _ _ _ n _) as [rest rates']. cbn [fst] in *.
    rewrite Hn; [done|lia|apply retain_recent_now].
  - intros other config Hne. unfold rate_admit.
    destruct (default _ _) as [last tokens]. case_match; simpl; by rewrite lookup_insert_ne.
Qed.

Lemma request_bursts_are_bounded_witness :
  (admit_many default_runtime_limits 7 (MkUserId (vreplicate 16 x0a)) 42 ∅).1 =
  replicate 40 true ++ [false; false].
Proof. apply (request_bursts_are_bounded 7 (MkUserId (vreplicate 16 x0a)) 42 ∅). reflexivity. Defined.
