(* ===== verification/RelayAdmission.v ===== *)
(** * Admission of connections

    What the accept loop of [run], [HandshakeLease] and [PayloadLease] of
    src/crates/grotto-relay/src/lib.rs count: connections, unfinished handshakes per
    address and in all, and the memory reserved for payloads. Each accepted connection
    is a task; the steps are the points at which tasks take and give back capacity. *)
From S2P Require Import Prelude Bytes Protocol Framing RelayStorage RelayLimits.

(** [std::net::IpAddr]. *)
Definition IpAddr : Type := bytes 4 + bytes 16.

(** ** [HandshakeLease] *)

(** [counts.values().sum::<usize>()]. *)
Definition sum_values (counts : gmap IpAddr Z) : Z := foldr Z.add 0 (map_to_list counts).*2.

(** [HandshakeLease::acquire]; [None] refuses, as does a poisoned lock. *)
Definition lease_acquire (config : RuntimeLimits) (poisoned : bool) (ip : IpAddr)
    (counts : gmap IpAddr Z) : option (gmap IpAddr Z) :=
  if poisoned then None
  else if bool_decide (handshakes config ≤ sum_values counts)
          || bool_decide (handshakes_per_ip config ≤ default 0 (counts !! ip))
  then None
  else Some (<[ip := default 0 (counts !! ip) + 1]> counts).

(** [Drop for HandshakeLease]; [None] is the underflow of [*count -= 1]. *)
Definition lease_drop (ip : IpAddr) (counts : gmap IpAddr Z) : option (gmap IpAddr Z) :=
  match counts !! ip with
  | Some count =>
      if decide (count = 0) then None
      else if decide (count - 1 = 0) then Some (delete ip counts)
      else Some (<[ip := count - 1]> counts)
  | None => Some counts
  end.

(** ** Tasks *)

(** The permits [acquire_many_owned] takes for one payload. *)
Definition PAYLOAD_PERMITS : Z := 2 * 1024 * 1024.

(** The awaits of the task of a connection: the payload permit of its handshake and the
    TLS handshake ([run]), [authenticate], and from then on the [select!] of the session
    loop, [state.execute], the writes of an answer and of a notification, a write outside
    of any [select!] (the answer to a request over the rate, a protocol error), and
    [reader_tasks.shutdown()] ([handle_connection]). *)
Inductive TaskPoint :=
| AtPermit | AtTls | AtAuthenticate
| AtSelect | AtExecute | AtAnswer | AtNotify | AtPlainWrite
| AtClosing.

#[global] Instance TaskPoint_eq_dec : EqDecision TaskPoint.
Proof. solve_decision. Defined.

(** What the task of a connection holds besides its connection permit: the handshake
    lease and its payload permit, by where it is; the global half of a [PayloadLease]
    while the reader waits for the other half ([reading]); the whole lease of a message
    that the reader reads, decodes or has sent to the session ([received]); and the lease
    of the message in progress ([processing]). *)
Record Task := MkTask {
  task_ip : IpAddr; task_point : TaskPoint; reading : bool; received : bool; processing : bool }.

(** A handshake may fail, be over without a session, or reach its deadline. *)
Definition handshake_ends (pt : TaskPoint) : bool :=
  match pt with AtPermit | AtTls | AtAuthenticate => true | _ => false end.
Definition in_handshake (t : Task) : bool := handshake_ends (task_point t).
Definition handshake_payload (t : Task) : bool :=
  match task_point t with AtTls | AtAuthenticate => true | _ => false end.

(** [in_worker] counts the leases that went with a command to the database worker and
    whose task is gone. *)
Record Admission := MkAdmission {
  free_connections : Z;
  pending : gmap IpAddr Z;
  payload_budget : Z;
  in_worker : Z;
  tasks : list Task;
}.

Definition idle (config : RuntimeLimits) : Admission :=
  MkAdmission (connections config) ∅ (payload_bytes config) 0 [].

(** The accept loop, from [try_acquire_owned] to [sessions.spawn]; [None] is its
    [continue], which drops what was taken. *)
Definition accept (config : RuntimeLimits) (poisoned : bool) (ip : IpAddr) (a : Admission)
    : option Admission :=
  if decide (free_connections a ≤ 0) then None else
  counts ← lease_acquire config poisoned ip (pending a);
  Some (MkAdmission (free_connections a - 1) counts (payload_budget a) (in_worker a)
          (tasks a ++ [MkTask ip AtPermit false false false])).

(** The permits of the payload budget a task holds. *)
Definition permits (t : Task) : Z :=
  PAYLOAD_PERMITS * (Z.b2z (handshake_payload t) + Z.b2z (reading t) + Z.b2z (received t) + Z.b2z (processing t)).

(** What a task gives back when its lease is dropped. *)
Definition drop_lease (t : Task) (counts : gmap IpAddr Z) : option (gmap IpAddr Z) :=
  if in_handshake t then lease_drop (task_ip t) counts else Some counts.

(** A task at [t] goes on as [t'], and the budget follows. *)
Definition moved (a : Admission) (l : list Task) (t t' : Task) (r : list Task) : Admission :=
  MkAdmission (free_connections a) (pending a) (payload_budget a + permits t - permits t')
    (in_worker a) (l ++ t' :: r).

(** The session loop is left, and the message in progress is dropped with it. *)
Definition closing (t : Task) : Task := MkTask (task_ip t) AtClosing (reading t) (received t) false.

(** *** What tasks do with their peers, the worker and the hub *)

(** [moves t t']: an await is over, and the task goes on to the next; or its reader
    reserves memory for a message, or gives it back. The connection's half of the lease
    is free when no message of the connection has it. *)
Inductive moves : Task → Task → Prop :=
| handshake_permit ip : moves (MkTask ip AtPermit false false false) (MkTask ip AtTls false false false)
| tls_accepted ip : moves (MkTask ip AtTls false false false) (MkTask ip AtAuthenticate false false false)
| reader_reserves ip pt (received processing : bool) :
    handshake_ends pt = false →
    moves (MkTask ip pt false received processing) (MkTask ip pt true received processing)
| reader_leased ip pt :
    moves (MkTask ip pt true false false) (MkTask ip pt false true false)
| reader_times_out ip pt (received processing : bool) :
    moves (MkTask ip pt true received processing) (MkTask ip pt false received processing)
| reader_fails ip pt (reading processing : bool) :
    moves (MkTask ip pt reading true processing) (MkTask ip pt reading false processing)
| message_received ip pt (reading : bool) :
    pt = AtExecute ∨ pt = AtPlainWrite → moves (MkTask ip AtSelect reading true false) (MkTask ip pt reading false true)
| executed ip (reading received kept : bool) :
    moves (MkTask ip AtExecute reading received true) (MkTask ip AtAnswer reading received kept)
| answered ip (reading received processing : bool) :
    moves (MkTask ip AtAnswer reading received processing) (MkTask ip AtSelect reading received false)
| outbound_received ip (reading received : bool) :
    moves (MkTask ip AtSelect reading received false) (MkTask ip AtNotify reading received false)
| notified ip (reading received : bool) :
    moves (MkTask ip AtNotify reading received false) (MkTask ip AtSelect reading received false)
| session_fails t :
    task_point t ∈ [AtSelect; AtExecute; AtAnswer; AtNotify] → moves t (closing t).

Inductive task_step (a : Admission) : Admission → Prop :=
| task_moves l t t' r :
    tasks a = l ++ t :: r → moves t t' → permits t' - permits t ≤ payload_budget a →
    task_step a (moved a l t t' r)
| task_authenticated l ip counts r :
    tasks a = l ++ MkTask ip AtAuthenticate false false false :: r →
    lease_drop ip (pending a) = Some counts →
    task_step a (MkAdmission (free_connections a) counts
      (payload_budget a + PAYLOAD_PERMITS) (in_worker a) (l ++ MkTask ip AtSelect false false false :: r))
| worker_done :
    0 < in_worker a →
    task_step a (MkAdmission (free_connections a) (pending a)
      (payload_budget a + PAYLOAD_PERMITS) (in_worker a - 1) (tasks a)).

(** *** What a task does whatever its peer does *)

(** The shutdown branch of an await, where it has one: [return], or [break] out of the
    session loop. *)
Inductive Leaving := Returns | Breaks.

#[global] Instance Leaving_eq_dec : EqDecision Leaving.
Proof. solve_decision. Defined.

Definition on_shutdown (pt : TaskPoint) : option Leaving :=
  match pt with
  | AtPermit | AtTls | AtAuthenticate => Some Returns
  | AtSelect | AtExecute | AtAnswer | AtNotify => Some Breaks
  | AtPlainWrite | AtClosing => None
  end.

(** [shutdown] is the value of the watch channel. A write outside of any [select!] is
    over after [write_seconds] at the latest; a command that is left alone keeps its
    lease until the worker has run it. *)
Inductive task_alone (shutdown : bool) (a : Admission) : Admission → Prop :=
| alone_breaks l t r :
    tasks a = l ++ t :: r → shutdown = true → on_shutdown (task_point t) = Some Breaks →
    task_alone shutdown a
      (if bool_decide (task_point t = AtExecute) && processing t
       then MkAdmission (free_connections a) (pending a) (payload_budget a) (in_worker a + 1) (l ++ closing t :: r)
       else moved a l t (closing t) r)
| alone_written l t r (written : bool) :
    tasks a = l ++ t :: r → task_point t = AtPlainWrite →
    task_alone shutdown a
      (moved a l t (if written then MkTask (task_ip t) AtSelect (reading t) (received t) false else closing t) r).

(** *** The end of a task *)

(** Everything it holds is dropped. *)
Inductive task_end (leaves : TaskPoint → bool) (a : Admission) : Admission → Prop :=
| task_ends l t counts r :
    tasks a = l ++ t :: r → leaves (task_point t) = true → drop_lease t (pending a) = Some counts →
    task_end leaves a (MkAdmission (free_connections a + 1) counts
      (payload_budget a + permits t) (in_worker a) (l ++ r)).

(** The reader is gone, or the shutdown branch of the handshake returns. *)
Definition leaves_alone (shutdown : bool) (pt : TaskPoint) : bool :=
  match pt with
  | AtClosing => true
  | _ => shutdown && bool_decide (on_shutdown pt = Some Returns)
  end.

Inductive admission_step (config : RuntimeLimits) (a : Admission) : Admission → Prop :=
| admit_accept poisoned ip a' : accept config poisoned ip a = Some a' → admission_step config a a'
| admit_step a' : task_step a a' → admission_step config a a'
| admit_alone shutdown a' : task_alone shutdown a a' → admission_step config a a'
| admit_fails a' : task_end handshake_ends a a' → admission_step config a a'
| admit_leaves shutdown a' : task_end (leaves_alone shutdown) a a' → admission_step config a a'.

Definition admits (config : RuntimeLimits) : Admission → Prop :=
  rtc (admission_step config) (idle config).

(** ** Counting *)

Definition total_of (f : Task → Z) (l : list Task) : Z := foldr (λ t n, f t + n) 0 l.

Definition handshake (t : Task) : Z := Z.b2z (in_handshake t).
Definition handshake_from (ip : IpAddr) (t : Task) : Z :=
  Z.b2z (in_handshake t && bool_decide (task_ip t = ip)).

Lemma total_of_app f l r : total_of f (l ++ r) = total_of f l + total_of f r.
Proof. unfold total_of. induction l; simpl; lia. Qed.

Lemma total_of_cons f t l : total_of f (t :: l) = f t + total_of f l.
Proof. done. Qed.

Lemma total_of_nonneg f l : (∀ t, 0 ≤ f t) → 0 ≤ total_of f l.
Proof. intros Hf. unfold total_of. induction l as [|t l IH]; simpl; [done|]. specialize (Hf t). lia. Qed.

Lemma sum_perm (l k : list Z) : l ≡ₚ k → foldr Z.add 0 l = foldr Z.add 0 k.
Proof. induction 1; simpl; lia. Qed.

Lemma sum_values_insert ip n counts :
  sum_values (<[ip := n]> counts) = sum_values counts - default 0 (counts !! ip) + n.
Proof.
  unfold sum_values. rewrite <- insert_delete_eq.
  rewrite (sum_perm _ _ (fmap_Permutation snd _ _
    (map_to_list_insert (delete ip counts) ip n (lookup_delete_eq _ _)))), fmap_cons. cbn [foldr snd].
  destruct (counts !! ip) as [c|] eqn:E; simpl.
  - rewrite <- (sum_perm _ _ (fmap_Permutation snd _ _ (map_to_list_delete counts ip c E))), fmap_cons. cbn [foldr snd]. lia.
  - rewrite delete_id by done. lia.
Qed.

Lemma sum_values_delete ip counts :
  sum_values (delete ip counts) = sum_values counts - default 0 (counts !! ip).
Proof.
  unfold sum_values. destruct (counts !! ip) as [c|] eqn:E; simpl.
  - rewrite <- (sum_perm _ _ (fmap_Permutation snd _ _ (map_to_list_delete counts ip c E))), fmap_cons. cbn [foldr snd]. lia.
  - rewrite delete_id by done. lia.
Qed.

(** ** The invariant *)

Definition exact (counts : gmap IpAddr Z) (l : list Task) : Prop :=
  (∀ ip, default 0 (counts !! ip) = total_of (handshake_from ip) l ∧ counts !! ip ≠ Some 0) ∧
  sum_values counts = total_of handshake l.

Record admission_inv (config : RuntimeLimits) (a : Admission) : Prop := {
  inv_connections : free_connections a + len (tasks a) = connections config ∧ 0 ≤ free_connections a;
  inv_exact : exact (pending a) (tasks a);
  inv_handshakes : total_of handshake (tasks a) ≤ handshakes config;
  inv_per_ip ip : total_of (handshake_from ip) (tasks a) ≤ handshakes_per_ip config;
  inv_payload : payload_budget a + total_of permits (tasks a) + PAYLOAD_PERMITS * in_worker a = payload_bytes config ∧
                0 ≤ payload_budget a ∧ 0 ≤ in_worker a;
}.

Lemma handshake_from_nonneg ip t : 0 ≤ handshake_from ip t.
Proof. unfold handshake_from. destruct (_ && _); simpl; lia. Qed.

Lemma handshake_nonneg t : 0 ≤ handshake t.
Proof. unfold handshake. destruct (in_handshake t); simpl; lia. Qed.

Lemma permits_nonneg t : 0 ≤ permits t.
Proof. unfold permits, PAYLOAD_PERMITS. destruct t as [? [] [] [] []]; simpl; lia. Qed.

(** Dropping the lease of a task that holds one never underflows, and keeps the counts
    exact for the tasks that are left. *)
Lemma lease_drop_exact counts l t r :
  exact counts (l ++ t :: r) → in_handshake t = true →
  ∃ counts', lease_drop (task_ip t) counts = Some counts' ∧
    ∀ t', in_handshake t' = false → exact counts' (l ++ t' :: r) ∧ exact counts' (l ++ r).
Proof.
  intros [Hex Hsum] Ht. destruct (Hex (task_ip t)) as [Hip Hz].
  assert (∀ ip, 0 ≤ total_of (handshake_from ip) l ∧ 0 ≤ total_of (handshake_from ip) r) as Hnn.
  { intros ip. split; apply total_of_nonneg, handshake_from_nonneg. }
  rewrite total_of_app, total_of_cons in Hip, Hsum. unfold handshake_from in Hip at 2.
  unfold handshake in Hsum at 2. rewrite Ht in Hip, Hsum. rewrite bool_decide_eq_true_2 in Hip by done.
  cbn [andb Z.b2z] in *. specialize (Hnn (task_ip t)) as Hnt.
  assert (∃ counts', lease_drop (task_ip t) counts = Some counts' ∧ exact counts' (l ++ r))
    as (counts' & Hd & He).
  { unfold lease_drop. destruct (counts !! task_ip t) as [c|] eqn:E; cbn [from_option id] in Hip; [|lia].
    rewrite decide_False by congruence.
    assert (∀ ip, ip ≠ task_ip t → default 0 (counts !! ip) = total_of (handshake_from ip) (l ++ r)
      ∧ counts !! ip ≠ Some 0) as Hother.
    { intros ip Hne. destruct (Hex ip) as [Hi ?]. split; [|done].
      rewrite total_of_app, total_of_cons in Hi. unfold handshake_from in Hi at 2.
      rewrite bool_decide_eq_false_2, andb_false_r in Hi by done. rewrite total_of_app. done. }
    case_decide as Hc; (eexists; split; [done|]; split).
    - intros ip. destruct (decide (ip = task_ip t)) as [->|Hne].
      + rewrite lookup_delete_eq, total_of_app. simpl. split; [lia|done].
      + rewrite lookup_delete_ne by done. by apply Hother.
    - rewrite sum_values_delete, E, total_of_app. cbn [from_option id]. lia.
    - intros ip. destruct (decide (ip = task_ip t)) as [->|Hne].
      + rewrite lookup_insert_eq, total_of_app. simpl. split; [lia|]. intros [= ?]. lia.
      + rewrite lookup_insert_ne by done. by apply Hother.
    - rewrite sum_values_insert, E, total_of_app. cbn [from_option id]. lia. }
  exists counts'. split; [done|]. intros t' Ht'. split; [|done]. destruct He as [He Hs].
  assert (∀ f : Task → Z, f t' = 0 → total_of f (l ++ t' :: r) = total_of f (l ++ r)) as Heq.
  { intros f Hf. rewrite !total_of_app, total_of_cons. lia. }
  split; [|rewrite Heq; [done|by unfold handshake; rewrite Ht']].
  intros ip. rewrite Heq; [apply He|]. unfold handshake_from. by rewrite Ht'.
Qed.

Lemma lease_acquire_exact config poisoned ip counts counts' l :
  exact counts l → lease_acquire config poisoned ip counts = Some counts' →
  let l' := l ++ [MkTask ip AtPermit false false false] in
  exact counts' l' ∧ total_of handshake l' ≤ handshakes config ∧
  total_of (handshake_from ip) l' ≤ handshakes_per_ip config ∧
  ∀ ip', ip' ≠ ip → total_of (handshake_from ip') l' = total_of (handshake_from ip') l.
Proof.
  intros [Hex Hsum] H. unfold lease_acquire in H. destruct poisoned; [done|].
  destruct (_ || _) eqn:E; [done|]. simplify_eq. reflect_bools. destruct (Hex ip) as [Hip _].
  assert (0 ≤ total_of (handshake_from ip) l) by apply total_of_nonneg, handshake_from_nonneg.
  assert (∀ i, total_of (handshake_from i) (l ++ [MkTask ip AtPermit false false false]) =
    total_of (handshake_from i) l + Z.b2z (bool_decide (ip = i))) as Hadd.
  { intros i. rewrite total_of_app, total_of_cons. unfold handshake_from at 2. simpl. lia. }
  assert (total_of handshake (l ++ [MkTask ip AtPermit false false false]) = total_of handshake l + 1) as Hall.
  { rewrite total_of_app, total_of_cons. unfold handshake at 2. simpl. lia. }
  cbn zeta. rewrite Hall, Hadd, bool_decide_eq_true_2 by done. simpl. split_and!; [|lia|lia|].
  - split; [|rewrite sum_values_insert; lia]. intros i. rewrite Hadd.
    destruct (decide (ip = i)) as [<-|Hne].
    + rewrite lookup_insert_eq, bool_decide_eq_true_2 by done. simpl. split; [lia|]. intros [= ?]. lia.
    + rewrite lookup_insert_ne, bool_decide_eq_false_2 by done. simpl. rewrite Z.add_0_r. apply Hex.
  - intros i Hne. rewrite Hadd, bool_decide_eq_false_2 by done. simpl. lia.
Qed.

(** A task that changes what it reserves, and nothing else. *)
Lemma swap_inv config a l t t' r budget leases :
  admission_inv config a → tasks a = l ++ t :: r →
  task_ip t' = task_ip t → in_handshake t' = in_handshake t →
  budget + permits t' + PAYLOAD_PERMITS * leases = payload_budget a + permits t + PAYLOAD_PERMITS * in_worker a →
  0 ≤ budget → 0 ≤ leases →
  admission_inv config (MkAdmission (free_connections a) (pending a) budget leases (l ++ t' :: r)).
Proof.
  intros [[H1 H1'] [H2 H2'] H3 H4 (H5 & H5' & H5w)] E Hip Hh Hb Hb' Hw. rewrite E in *.
  assert (∀ f : Task → Z, f t' = f t → total_of f (l ++ t' :: r) = total_of f (l ++ t :: r)) as Heq.
  { intros f Hf. rewrite !total_of_app, !total_of_cons. lia. }
  assert (∀ ip, handshake_from ip t' = handshake_from ip t) as Hf
    by (intros ip; unfold handshake_from; by rewrite Hip, Hh).
  assert (handshake t' = handshake t) as Hf' by (unfold handshake; by rewrite Hh).
  split; simpl.
  - split; [|done]. autorewrite with grotto in *. lia.
  - split; [intros ip; rewrite (Heq _ (Hf ip)); apply H2|by rewrite (Heq _ Hf')].
  - by rewrite (Heq _ Hf').
  - intros ip. by rewrite (Heq _ (Hf ip)).
  - split; [|done]. rewrite total_of_app, total_of_cons in *. lia.
Qed.

Lemma moved_inv config a l t t' r :
  admission_inv config a → tasks a = l ++ t :: r → task_ip t' = task_ip t → in_handshake t' = in_handshake t →
  permits t' - permits t ≤ payload_budget a → admission_inv config (moved a l t t' r).
Proof. intros Ha E Hip Hh Hb. destruct (inv_payload _ _ Ha) as (_ & _ & ?). eapply swap_inv; try done; lia. Qed.

Lemma moves_same t t' : moves t t' → task_ip t' = task_ip t ∧ in_handshake t' = in_handshake t.
Proof.
  destruct 1 as [| | | | | |? ? ? [-> | ->]| | | | |[? pt ? ? ?] Hpt]; try done. cbn [task_point] in Hpt.
  repeat (apply elem_of_cons in Hpt as [->|Hpt]; [done|]). by apply elem_of_nil in Hpt.
Qed.

Lemma permits_closing t : permits (closing t) ≤ permits t.
Proof. unfold permits, PAYLOAD_PERMITS. destruct t as [? [] [] [] []]; simpl; lia. Qed.

(** What a session that is told to stop has reserved beyond its reader's memory. *)
Lemma permits_executing t : task_point t = AtExecute → processing t = true → permits t = permits (closing t) + PAYLOAD_PERMITS.
Proof. destruct t as [? [] [] [] []]; try done; unfold permits, PAYLOAD_PERMITS; simpl; lia. Qed.

(** A task that gives up its lease, or ends. *)
Lemma released_inv config a l t r counts budget l' free :
  admission_inv config a → tasks a = l ++ t :: r → exact counts l' →
  free + len l' = connections config → 0 ≤ free →
  budget + total_of permits l' = payload_budget a + total_of permits (l ++ t :: r) → 0 ≤ budget →
  (∀ f : Task → Z, (∀ t, 0 ≤ f t) → (∀ t, in_handshake t = false → f t = 0) →
    total_of f l' ≤ total_of f (l ++ t :: r)) →
  admission_inv config (MkAdmission free counts budget (in_worker a) l').
Proof.
  intros [_ _ H3 H4 (H5 & _ & H5w)] E Hc Hf Hf' Hb Hb' Hle. rewrite E in *. split; simpl; try done.
  - etrans; [|exact H3]. apply Hle; [apply handshake_nonneg|]. intros t' Ht'. unfold handshake. by rewrite Ht'.
  - intros ip. etrans; [|exact (H4 ip)]. apply Hle; [apply handshake_from_nonneg|].
    intros t' Ht'. unfold handshake_from. by rewrite Ht'.
  - split_and!; [lia|done|done].
Qed.

Lemma accept_inv config a poisoned ip a' :
  admission_inv config a → accept config poisoned ip a = Some a' → admission_inv config a'.
Proof.
  intros [[H1 H1'] H2 H3 H4 (H5 & H5' & H5w)] E. unfold accept in E. case_decide; [done|].
  apply bind_Some in E as (counts & Hl & [= <-]).
  destruct (lease_acquire_exact _ _ _ _ _ _ H2 Hl) as (He & Hh & Hi & Ho).
  split; simpl; [autorewrite with grotto; lia|done|done| |].
  - intros i. destruct (decide (i = ip)) as [->|Hne]; [done|]. by rewrite Ho.
  - rewrite total_of_app. change (total_of permits [MkTask ip AtPermit false false false]) with 0. split_and!; [lia|done|done].
Qed.

Lemma authenticated_inv config a l ip counts r :
  admission_inv config a → tasks a = l ++ MkTask ip AtAuthenticate false false false :: r →
  lease_drop ip (pending a) = Some counts →
  admission_inv config (MkAdmission (free_connections a) counts (payload_budget a + PAYLOAD_PERMITS)
    (in_worker a) (l ++ MkTask ip AtSelect false false false :: r)).
Proof.
  intros Ha E Hd. pose proof Ha as [[H1 H1'] H2 _ _ (H5 & H5' & _)]. rewrite E in H1, H2.
  destruct (lease_drop_exact _ _ _ _ H2 eq_refl) as (counts' & Hd' & He).
  simpl in Hd'. rewrite Hd in Hd'. injection Hd' as <-. autorewrite with grotto in H1.
  eapply released_inv; [done|exact E|by apply He|autorewrite with grotto; lia|done| | |].
  - rewrite !total_of_app, !total_of_cons. unfold permits, PAYLOAD_PERMITS. simpl. lia.
  - unfold PAYLOAD_PERMITS. lia.
  - intros f Hf0 Hf1. rewrite !total_of_app, !total_of_cons, (Hf1 (MkTask ip AtSelect false false false)) by done.
    specialize (Hf0 (MkTask ip AtAuthenticate false false false)). lia.
Qed.

Lemma task_end_inv config leaves a a' : admission_inv config a → task_end leaves a a' → admission_inv config a'.
Proof.
  intros Ha [l t counts r E _ Hd]. pose proof Ha as [[H1 H1'] H2 _ _ (H5 & H5' & _)].
  pose proof (permits_nonneg t). rewrite E in H1, H2. autorewrite with grotto in H1.
  eapply released_inv; [done|exact E| |autorewrite with grotto; lia|lia| |lia|].
  - unfold drop_lease in Hd. destruct (in_handshake t) eqn:Ht.
    + destruct (lease_drop_exact _ _ _ _ H2 Ht) as (counts' & Hd' & He).
      rewrite Hd in Hd'. injection Hd' as <-. by apply (He (MkTask (task_ip t) AtSelect false false false)).
    + injection Hd as <-. destruct H2 as [H2 H2'].
      assert (∀ f : Task → Z, f t = 0 → total_of f (l ++ t :: r) = total_of f (l ++ r)) as Heq.
      { intros f Hf. rewrite !total_of_app, total_of_cons. lia. }
      rewrite Heq in H2' by (unfold handshake; by rewrite Ht). split; [|done].
      intros ip. rewrite <- Heq; [apply H2|]. unfold handshake_from. by rewrite Ht.
  - rewrite !total_of_app, total_of_cons. lia.
  - intros f Hf0 _. rewrite !total_of_app, total_of_cons. specialize (Hf0 t). lia.
Qed.

Lemma task_alone_inv config shutdown a a' : admission_inv config a → task_alone shutdown a a' → admission_inv config a'.
Proof.
  intros Ha Hs. destruct (inv_payload _ _ Ha) as (_ & Hb & Hw). destruct Hs as [l t r E _ Hpt|l t r written E Hpt].
  - assert (in_handshake (closing t) = in_handshake t) as Hh by (unfold in_handshake; by destruct (task_point t)).
    destruct (bool_decide _ && processing t) eqn:Ht.
    + apply andb_true_iff in Ht as [Hx%bool_decide_eq_true Hp]. pose proof (permits_executing t Hx Hp).
      eapply swap_inv; [done|exact E|done|done|lia..].
    + apply moved_inv; [done|done|done|done|]. pose proof (permits_closing t). lia.
  - apply moved_inv; [done|done|by destruct written|unfold in_handshake; rewrite Hpt; by destruct written|].
    destruct t as [? ? reading received processing]. simpl in Hpt. subst. unfold permits, PAYLOAD_PERMITS.
    destruct written, reading, received, processing; simpl; lia.
Qed.

Lemma admission_step_inv config a a' :
  admission_inv config a → admission_step config a a' → admission_inv config a'.
Proof.
  intros Ha Hs. destruct Hs as [poisoned ip a' E|a' [l t t' r E Hm Hb|l ip counts r E Hd|Hw]|shutdown a' Hs|a' Hs|shutdown a' Hs].
  - by eapply accept_inv.
  - apply moves_same in Hm as [??]. by apply moved_inv.
  - by apply authenticated_inv.
  - destruct Ha as [H1 H2 H3 H4 (H5 & H5' & H5w)].
    split; simpl; try done. unfold PAYLOAD_PERMITS in *. split_and!; lia.
  - by eapply task_alone_inv.
  - by eapply task_end_inv.
  - by eapply task_end_inv.
Qed.

Lemma admission_inv_steps config a b :
  rtc (admission_step config) a b → admission_inv config a → admission_inv config b.
Proof. induction 1; [done|]. intros. eauto using admission_step_inv. Qed.

Lemma admission_inv_idle config :
  0 ≤ connections config → 0 ≤ handshakes config → 0 ≤ handshakes_per_ip config →
  0 ≤ payload_bytes config → admission_inv config (idle config).
Proof.
  intros. split; simpl; rewrite ?len_nil; try lia.
  split; [|done]. intros ip. by rewrite lookup_empty.
Qed.

Lemma admits_inv vars config a : configured_limits vars = Ok config → admits config a → admission_inv config a.
Proof.
  intros (? & ? & ? & _ & _ & _ & ? & _)%configured_limits_range Ha.
  eapply admission_inv_steps; [exact Ha|apply admission_inv_idle; lia].
Qed.

(** A connection for which there is room is taken. *)
Lemma accept_room config ip a :
  admission_inv config a → len (tasks a) < connections config → total_of handshake (tasks a) < handshakes config →
  total_of (handshake_from ip) (tasks a) < handshakes_per_ip config →
  ∃ a', accept config false ip a = Some a' ∧ tasks a' = tasks a ++ [MkTask ip AtPermit false false false].
Proof.
  intros [[H1 _] [Hex Hsum] _ _ _] Hc Hh Hi. destruct (Hex ip) as [Hip _]. unfold accept, lease_acquire.
  rewrite decide_False by lia. rewrite (bool_decide_eq_false_2 (_ ≤ sum_values _)) by lia.
  rewrite bool_decide_eq_false_2 by lia. by eexists.
Qed.

(** Nobody left, nothing counted. *)
Lemma exact_nil counts : exact counts [] → counts = ∅.
Proof.
  intros [He _]. apply map_eq. intros ip. rewrite lookup_empty. destruct (He ip) as [H H'].
  simpl in H. destruct (counts !! ip) as [c|]; [|done]. simpl in H. congruence.
Qed.

(** The relay stays within its configured capacity: at most [connections] connections,
    at most [handshakes] unfinished handshakes and [handshakes_per_ip] from one address,
    and at most [payload_bytes] reserved for payloads, those of abandoned commands
    included. The counters are exact: giving back a lease never underflows, and once every
    connection has ended and the worker has run what it was left all capacity is back.
    Whenever nothing is reserved there is room for a payload. *)
Definition within_capacity (config : RuntimeLimits) (a : Admission) : Prop :=
  len (tasks a) ≤ connections config ∧
  total_of handshake (tasks a) ≤ handshakes config ∧
  (∀ ip, total_of (handshake_from ip) (tasks a) ≤ handshakes_per_ip config) ∧
  0 ≤ in_worker a ∧ 0 ≤ total_of permits (tasks a) ∧
  total_of permits (tasks a) + PAYLOAD_PERMITS * in_worker a ≤ payload_bytes config ∧
  (∀ t, t ∈ tasks a → is_Some (drop_lease t (pending a))) ∧
  (tasks a = [] → a = MkAdmission (connections config) ∅ (payload_bytes config - PAYLOAD_PERMITS * in_worker a) (in_worker a) []) ∧
  (total_of permits (tasks a) = 0 → in_worker a = 0 → PAYLOAD_PERMITS ≤ payload_budget a).

(** With limits that [configure] accepts, at every point. *)
Theorem admission_limits_hold vars config a :
  configured_limits vars = Ok config → admits config a → within_capacity config a.
Proof.
  intros Hr%configured_limits_range Ha. destruct Hr as (Hc & Hh & Hi & _ & _ & _ & Hp & _).
  eapply admission_inv_steps in Ha; [|apply admission_inv_idle; lia].
  destruct Ha as [[H1 H1'] H2 H3 H4 (H5 & H5' & H5w)]. split_and!; try done; try lia.
  - apply total_of_nonneg, permits_nonneg.
  - intros t (l & r & E)%list_elem_of_split. unfold drop_lease.
    destruct (in_handshake t) eqn:Ht; [|by eexists]. rewrite E in H2.
    destruct (lease_drop_exact _ _ _ _ H2 Ht) as (c & -> & _). by eexists.
  - intros E. rewrite E in *. apply exact_nil in H2. destruct a as [f p b w ts]. simpl in *. subst.
    autorewrite with grotto in *. f_equal; lia.
  - intros E Ew. rewrite E, Ew in H5. unfold PAYLOAD_PERMITS. lia.
Qed.

(** An address with one handshake finished and one waiting. *)
Definition loopback : IpAddr := inl [# x7f; x00; x00; x01].
Definition two_tasks : Admission :=
  MkAdmission 126 {[loopback := 1]} (64 * 1024 * 1024 - PAYLOAD_PERMITS) 0
    [MkTask loopback AtSelect true false false; MkTask loopback AtPermit false false false].

Lemma two_tasks_admits : admits default_runtime_limits two_tasks.
Proof.
  eapply rtc_l; [by apply (admit_accept _ _ false loopback)|].
  eapply rtc_l; [by apply (admit_accept _ _ false loopback)|].
  eapply rtc_l; [eapply admit_step, (task_moves _ [] _ _ [MkTask loopback AtPermit false false false]); [reflexivity|apply handshake_permit|vm_compute; done]|].
  eapply rtc_l; [eapply admit_step, (task_moves _ [] _ _ [MkTask loopback AtPermit false false false]); [reflexivity|apply tls_accepted|vm_compute; done]|].
  eapply rtc_l; [eapply admit_step; by eapply (task_authenticated _ [] loopback)|].
  eapply rtc_l; [eapply admit_step, (task_moves _ [] _ _ [MkTask loopback AtPermit false false false]); [reflexivity|by apply reader_reserves|vm_compute; done]|].
  vm_compute. apply rtc_refl.
Qed.

Lemma admission_limits_hold_witness :
  total_of (handshake_from loopback) (tasks two_tasks) ≤ 4.
Proof.
  refine (proj1 (proj2 (proj2 (admission_limits_hold (λ _, None) default_runtime_limits
    two_tasks _ two_tasks_admits))) loopback). vm_compute. reflexivity.
Defined.
