(* ===== verification/RelayDelivery.v ===== *)
(** * Conditional ordered delivery

    [RelayState::deliver] and [execute] of src/crates/grotto-relay/src/delivery.rs:
    one definition per arm of [execute], each a transaction body. *)
From S2P Require Import Prelude Bytes Text Postcard Protocol Wire Identifiers Transcripts.
From S2P Require Import Framing RelayStorage RelayLimits.

Definition corrupt : StorageError := InvalidStoredData "invalid V9 delivery record".

(** ** Statements *)

(** SQL's [max]: NULL on no rows. *)
Definition sql_max (l : list Z) : option Z :=
  match l with [] => None | z :: l => Some (foldl Z.max z l) end.

(** The events of a room, in table order. *)
Definition room_events (room : RoomId) (db : RelayDb) : list EventRow :=
  filter (λ e, event_room e = room) (delivery_events db).

(** [SELECT coalesce(max(sequence),0) FROM delivery_events WHERE room=?1]. *)
Definition head_of (room : RoomId) (db : RelayDb) : Z :=
  default 0 (sql_max (event_sequence <$> room_events room db)).

Definition sequence_le (e f : EventRow) : Prop := event_sequence e ≤ event_sequence f.
Definition cursor_le (v w : WelcomeRow) : Prop := welcome_cursor v ≤ welcome_cursor w.
Definition rowid_le (p q : PackageRow) : Prop := rowid p ≤ rowid q.
Definition room_id_le (r s : RoomId * Room) : Prop :=
  bytes_leb (room_bytes r.1) (room_bytes s.1) = true.

#[global] Instance sequence_le_dec e f : Decision (sequence_le e f).
Proof. unfold sequence_le. apply _. Defined.
#[global] Instance cursor_le_dec v w : Decision (cursor_le v w).
Proof. unfold cursor_le. apply _. Defined.
#[global] Instance rowid_le_dec p q : Decision (rowid_le p q).
Proof. unfold rowid_le. apply _. Defined.
#[global] Instance room_id_le_dec r s : Decision (room_id_le r s).
Proof. unfold room_id_le. apply _. Defined.

(** [SELECT record ... WHERE room=?1 AND sequence>?2 ORDER BY sequence LIMIT 101]. *)
Definition select_events (room : RoomId) (after_sequence : Z) (db : RelayDb) : list EventRow :=
  take 101 (merge_sort sequence_le
    (filter (λ e, event_room e = room ∧ after_sequence < event_sequence e) (delivery_events db))).

(** [SELECT cursor,record ... WHERE recipient=?1 AND cursor>?2 ORDER BY cursor LIMIT 101]. *)
Definition select_welcomes (user : UserId) (after_cursor : Z) (db : RelayDb) : list WelcomeRow :=
  take 101 (merge_sort cursor_le
    (filter (λ w, welcome_recipient w = user ∧ after_cursor < welcome_cursor w)
       (delivery_welcomes db))).

(** [?2 IS NULL OR r.room_id>?2]. *)
Definition room_after (after_room : option RoomId) (room : RoomId) : bool :=
  match after_room with
  | None => true
  | Some after_room => bytes_ltb (room_bytes after_room) (room_bytes room)
  end.

(** The join of [rooms] and [room_subscribers] of [SyncIndex], by room id. *)
Definition select_rooms (user : UserId) (after_room : option RoomId) (db : RelayDb)
    : list (RoomId * Room) :=
  take 101 (merge_sort room_id_le
    (filter (λ r, (r.1, user) ∈ room_subscribers db ∧ room_after after_room r.1 = true)
       (map_to_list (rooms db)))).

(** The rooms a user created and the packages a user published. *)
Definition rooms_created (user : UserId) (db : RelayDb) : list (RoomId * Room) :=
  filter (λ r, created_by r.2 = user) (map_to_list (rooms db)).
Definition packages_of (user : UserId) (db : RelayDb) : list PackageRow :=
  filter (λ p, package_user p = user) (key_packages db).

(** [SELECT rowid,key_package ... ORDER BY rowid LIMIT 1]. *)
Definition first_package (user : UserId) (db : RelayDb) : option PackageRow :=
  head (merge_sort rowid_le (packages_of user db)).

(** A new rowid is one more than the greatest one in the table. (At the end of the
    [i64] range SQLite would look for an unused one at random; the statement fails
    here.) *)
Definition insert_package (now : Z) (user : UserId) (package : list byte) (db : RelayDb)
    : option RelayDb :=
  row ← to_sql_u64 (default 0 (sql_max (rowid <$> key_packages db)) + 1);
  Some (set_packages (λ l, l ++ [MkPackageRow row user package now]) db).

Definition insert_room (now : Z) (room : RoomId) (name : str) (user : UserId) (db : RelayDb)
    : option RelayDb :=
  match rooms db !! room with
  | Some _ => None
  | None => Some (set_rooms <[room := {| name := name; created_by := user; created_at := now |}]> db)
  end.

(** PRIMARY KEY(room,sequence) and UNIQUE(event_id). *)
Definition insert_event (row : EventRow) (db : RelayDb) : option RelayDb :=
  if decide (Exists (λ e, event_id e = event_id row ∨
               (event_room e = event_room row ∧ event_sequence e = event_sequence row))
             (delivery_events db))
  then None
  else Some (set_events (λ l, l ++ [row]) db).

(** AUTOINCREMENT: one more than any cursor ever used. *)
Definition insert_welcome (recipient : UserId) (record : list byte) (db : RelayDb)
    : option RelayDb :=
  cursor ← to_sql_u64 (welcome_autoincrement db + 1);
  Some (set_welcomes (λ l, l ++ [MkWelcomeRow cursor recipient record]) cursor db).

(** [INSERT ... ON CONFLICT DO UPDATE SET bytes=bytes+excluded.bytes]. *)
Definition add_usage `{Countable K} (key : K) (bytes : Z) (usage : gmap K Z) : gmap K Z :=
  <[key := default 0 (usage !! key) + bytes]> usage.

Definition insert_request (user : UserId) (id : MessageId) (row : JournalRow) (db : RelayDb)
    : option RelayDb :=
  match delivery_requests db !! (user, id) with
  | Some _ => None
  | None => Some (set_requests <[(user, id) := row]> db)
  end.

(** The row count and [sum(requester=?2)] of the last hour's allocations. *)
Definition recent_allocations (now : Z) (recipient : UserId) (db : RelayDb) : list Allocation :=
  filter (λ a, allocation_recipient a = recipient ∧ now - 3600 < allocated_at a)
    (package_allocations db).
Definition by_requester (user : UserId) (l : list Allocation) : list Allocation :=
  filter (λ a, allocation_requester a = user) l.

(** ** [subscribed] and [subscribe] *)

Definition subscribed (room : RoomId) (user : UserId) : TxM bool :=
  query (λ db, bool_decide ((room, user) ∈ room_subscribers db)).

Definition subscribe (room : RoomId) (user : UserId) : TxM () :=
  execute_sql (λ db, Some (set_subscribers (λ s, {[(room, user)]} ∪ s) db)).

Definition rejected (r : Rejection.t) : TxM Response.t := mret (Response.Rejected r).
Definition denied : TxM Response.t := rejected Rejection.Unauthorized.

(** ** The page loop of [FetchRoomEvents] and [FetchWelcomes]

    [record] is the stored bytes of a row, [build] decodes one. *)
Fixpoint page {R A} (record : R → list byte) (build : R → TxM A) (rows : list R)
    (items : list A) (bytes : Z) : TxM (list A * bool) :=
  match rows with
  | [] => mret (items, false)
  | row :: rows =>
      next_row;;
      if decide (len items = PAGE_SIZE ∨ bytes + len (record row) > MAX_PAYLOAD - 96)
      then mret (items, true)
      else
        item ← build row;
        page record build rows (items ++ [item]) (bytes + len (record row))
  end.

Section delivery.
Context `{Postcard} `{Sha256}.

(** ** The arms of [execute] *)

Definition create_room (user : UserId) (name : str) : TxM Response.t :=
  match normalize_room_name name with
  | Err _ => rejected Rejection.Invalid
  | Ok name =>
      count ← query (λ db, len (rooms_created user db));
      if decide (64 ≤ count) then rejected Rejection.Quota else
      room ← ask random16;
      room ← lift (ok_or Random room);
      now ← ask now;
      execute_sql (insert_room now (MkRoomId room) name user);;
      subscribe (MkRoomId room) user;;
      mret (Response.RoomCreated (MkRoomId room))
  end.

Fixpoint insert_packages (now : Z) (user : UserId) (packages : list (list byte)) : TxM () :=
  match packages with
  | [] => mret tt
  | package :: packages =>
      execute_sql (insert_package now user package);;
      insert_packages now user packages
  end.

Definition packages_invalid (packages : list (list byte)) : bool :=
  bool_decide (packages = []) || bool_decide (len packages > 64)
  || existsb (λ p, bool_decide (p = []) || bool_decide (len p > MAX_KEY_PACKAGE_BYTES)) packages
  || bool_decide (foldr Z.add 0 (len <$> packages) > MAX_PAYLOAD).

Definition publish_key_packages (user : UserId) (packages : list (list byte)) : TxM Response.t :=
  if packages_invalid packages then rejected Rejection.Invalid else
  count ← query (λ db, len (packages_of user db));
  if decide (count + len packages > 64) then rejected Rejection.Quota else
  now ← ask now;
  insert_packages now user packages;;
  mret (Response.KeyPackagesPublished (len packages)).

Definition set_fetch_grant (user requester : UserId) (allowed : bool) : TxM Response.t :=
  (if allowed
   then execute_sql (λ db, Some (set_grants (λ s, {[(user, requester)]} ∪ s) db))
   else execute_sql (λ db, Some (set_grants (λ s, s ∖ {[(user, requester)]}) db)));;
  mret Response.FetchGrantSet.

Definition reserve_key_package (user recipient : UserId) : TxM Response.t :=
  allowed ← query (λ db, bool_decide ((recipient, user) ∈ fetch_grants db));
  if negb allowed then denied else
  now ← ask now;
  '(total, pair_total) ← query (λ db,
    let recent := recent_allocations now recipient db in
    (len recent, len (by_requester user recent)));
  if decide (16 ≤ total ∨ 4 ≤ pair_total) then rejected Rejection.Overloaded else
  row ← query (first_package recipient);
  match row with
  | None => rejected Rejection.NotFound
  | Some row =>
      execute_sql (λ db, Some (set_packages (filter (λ p, rowid p ≠ rowid row)) db));;
      execute_sql (λ db, Some (set_allocations
        (λ l, l ++ [MkAllocation user recipient now]) db));;
      mret (Response.KeyPackage recipient (key_package row))
  end.

Definition append_invalid (operation : Append.t) : bool :=
  bool_decide (Append.body operation = [])
  || bool_decide (len (Append.body operation) > MAX_MLS_BLOB_BYTES)
  || bool_decide (i64_max ≤ Append.parent operation)
  || match Append.welcome operation with
     | Some w => bool_decide (WelcomeAttachment.body w = [])
                 || bool_decide (len (WelcomeAttachment.body w) > MAX_MLS_BLOB_BYTES)
     | None => false
     end
  || bool_decide (len (Append.body operation)
       + match Append.welcome operation with
         | Some w => len (WelcomeAttachment.body w)
         | None => 0
         end + 256 > MAX_PAYLOAD).

(** [if let Some(welcome)]: the Welcome is stored and its recipient subscribed. *)
Definition append_welcome (user : UserId) (id : MessageId) (operation : Append.t) (head : Z)
    : TxM () :=
  match Append.welcome operation with
  | None => mret tt
  | Some welcome =>
      room_name ← try_query (λ db, name <$> rooms db !! Append.room operation);
      let delivery := WelcomeDelivery.Mk room_name 0 id (Append.room operation) (head + 1)
                        user welcome in
      record ← lift (map_err corrupt (encode_message c_welcome_delivery delivery));
      execute_sql (insert_welcome (WelcomeAttachment.recipient welcome) record);;
      subscribe (Append.room operation) (WelcomeAttachment.recipient welcome)
  end.

Definition append_room_operation (user : UserId) (id : MessageId) (operation : Append.t)
    : TxM Response.t :=
  allowed ← subscribed (Append.room operation) user;
  if negb allowed then denied else
  if append_invalid operation then rejected Rejection.Invalid else
  head ← query (head_of (Append.room operation));
  if decide (head ≠ Append.parent operation)
  then mret (Response.HeadConflict (Append.room operation) head) else
  exists_ ← query (λ db, bool_decide (Exists (λ e, event_id e = id) (delivery_events db)));
  if (exists_ : bool) then rejected Rejection.RequestConflict else
  let event := Event.Mk id user operation in
  bytes ← lift (map_err corrupt (encode_message c_event event));
  execute_sql (λ db,
    sequence ← to_sql_u64 (head + 1);
    insert_event (MkEventRow (Append.room operation) sequence id user bytes) db);;
  append_welcome user id operation head;;
  mret (Response.AppendAccepted event).

Definition fetch_room_events (user : UserId) (room : RoomId) (after_sequence : Z)
    : TxM Response.t :=
  if decide (after_sequence > i64_max) then rejected Rejection.Invalid else
  allowed ← subscribed room user;
  if negb allowed then denied else
  rows ← query (select_events room after_sequence);
  '(events, more) ←
    page event_record (λ row, lift (map_err corrupt (decode_message c_event (event_record row))))
      rows [] 0;
  mret (Response.RoomEvents room after_sequence events more).

Fixpoint each_row {R} (rows : list R) : TxM () :=
  match rows with [] => mret tt | _ :: rows => next_row;; each_row rows end.

Definition sync_index (user : UserId) (after_room : option RoomId) : TxM Response.t :=
  rows ← query (λ db,
    (λ r, RoomHead.Mk r.1 (name r.2) (head_of r.1 db)) <$> select_rooms user after_room db);
  each_row rows;;
  let more := bool_decide (len rows > PAGE_SIZE) in
  mret (Response.SyncIndex (take (Z.to_nat PAGE_SIZE) rows) more).

Definition with_cursor (cursor : Z) (w : WelcomeDelivery.t) : WelcomeDelivery.t :=
  WelcomeDelivery.Mk (WelcomeDelivery.room_name w) cursor (WelcomeDelivery.event w)
    (WelcomeDelivery.room w) (WelcomeDelivery.sequence w) (WelcomeDelivery.inviter w)
    (WelcomeDelivery.attachment w).

Definition fetch_welcomes (user : UserId) (after_cursor : Z) : TxM Response.t :=
  if decide (after_cursor > i64_max) then rejected Rejection.Invalid else
  rows ← query (select_welcomes user after_cursor);
  '(welcomes, more) ←
    page welcome_record
      (λ row, welcome ← lift (map_err corrupt
                (decode_message c_welcome_delivery (welcome_record row)));
              mret (with_cursor (welcome_cursor row) welcome))
      rows [] 0;
  mret (Response.Welcomes after_cursor welcomes more).

(** The two loops of [Acknowledge]; [false] is the early return of [denied()]. *)
Fixpoint events_allowed (user : UserId) (events : list MessageId) : TxM bool :=
  match events with
  | [] => mret true
  | event :: events =>
      allowed ← query (λ db, bool_decide (Exists (λ e, event_id e = event ∧
        (event_room e, user) ∈ room_subscribers db) (delivery_events db)));
      if (allowed : bool) then events_allowed user events else mret false
  end.

Fixpoint welcomes_allowed (user : UserId) (cursors : list Z) : TxM bool :=
  match cursors with
  | [] => mret true
  | cursor :: cursors =>
      allowed ← try_query (λ db,
        cursor ← to_sql_u64 cursor;
        Some (bool_decide (Exists (λ w, welcome_cursor w = cursor ∧
          welcome_recipient w = user) (delivery_welcomes db))));
      if (allowed : bool) then welcomes_allowed user cursors else mret false
  end.

Definition acknowledge (user : UserId) (events : list MessageId) (welcomes : list Z)
    : TxM Response.t :=
  if decide (len events + len welcomes > PAGE_SIZE) then rejected Rejection.Invalid else
  allowed ← events_allowed user events;
  if negb allowed then denied else
  allowed ← welcomes_allowed user welcomes;
  if negb allowed then denied else
  mret Response.Acknowledged.

Definition execute (user : UserId) (id : MessageId) (request : Request.t) : TxM Response.t :=
  match request with
  | Request.CreateRoom name => create_room user name
  | Request.PublishKeyPackages packages => publish_key_packages user packages
  | Request.SetFetchGrant requester allowed => set_fetch_grant user requester allowed
  | Request.ReserveKeyPackage recipient => reserve_key_package user recipient
  | Request.AppendRoomOperation operation => append_room_operation user id operation
  | Request.FetchRoomEvents room after_sequence => fetch_room_events user room after_sequence
  | Request.SyncIndex after_room => sync_index user after_room
  | Request.FetchWelcomes after_cursor => fetch_welcomes user after_cursor
  | Request.Acknowledge events welcomes => acknowledge user events welcomes
  end.

(** ** [deliver] *)

Definition is_receipt (request : Request.t) : bool :=
  match request with Request.Acknowledge _ _ => true | _ => false end.

Definition is_durable (request : Request.t) : bool :=
  match request with
  | Request.FetchRoomEvents _ _ | Request.FetchWelcomes _ | Request.SyncIndex _ => false
  | _ => true
  end.

(** Outcomes that are not saved, so that the same attempt may be made again. *)
Definition is_transient (response : Response.t) : bool :=
  match response with
  | Response.Rejected (Rejection.Quota | Rejection.Overloaded | Rejection.Internal) => true
  | _ => false
  end.

(** A receipt is for one record and its id is the canonical one. *)
Definition receipt_invalid (user : UserId) (id : MessageId) (request : Request.t) : bool :=
  match request with
  | Request.Acknowledge events welcomes =>
      bool_decide (len events + len welcomes ≠ 1)
      || bool_decide (id ≠ acknowledgement_id user events welcomes)
  | _ => false
  end.

Definition count_outcome (response : Response.t) : TxM () :=
  match response with
  | Response.HeadConflict _ _ => increment_commit_conflicts
  | Response.Rejected Rejection.Quota => increment_quota_rejections
  | _ => mret tt
  end.

(** The two usage upserts and the journal entry. *)
Definition save_outcome (user : UserId) (id : MessageId) (request : Request.t)
    (charge_bytes : Z) (hash : bytes 32) (response : Response.t) : TxM () :=
  (if is_receipt request then mret tt else
     execute_sql (λ db, bytes ← to_sql_u64 charge_bytes;
                        Some (set_usage_sender (add_usage user bytes) db));;
     match request with
     | Request.AppendRoomOperation operation =>
         execute_sql (λ db, bytes ← to_sql_u64 charge_bytes;
                            Some (set_usage_room (add_usage (Append.room operation) bytes) db))
     | _ => mret tt
     end);;
  bytes ← lift (map_err corrupt (encode_message c_response response));
  execute_sql (insert_request user id (MkJournalRow hash bytes)).

(** A request that is not in the journal. *)
Definition deliver_new (limits : StorageLimits) (user : UserId) (id : MessageId)
    (request : Request.t) (hash : bytes 32) : TxM Response.t :=
  if receipt_invalid user id request then rejected Rejection.Invalid else
  admitted ← (if is_durable request && negb (is_receipt request)
              then admit_request limits user request else mret true);
  if negb admitted then increment_quota_rejections;; rejected Rejection.Quota else
  wire ← lift (map_err corrupt (encode_message c_request request));
  let charge_bytes := charge wire in
  response ← execute user id request;
  count_outcome response;;
  if is_receipt request && negb (bool_decide (response = Response.Acknowledged))
  then mret response else
  (if is_durable request && negb (is_transient response)
   then save_outcome user id request charge_bytes hash response else mret tt);;
  commit;;
  mret response.

Definition deliver_body (limits : StorageLimits) (user : UserId) (id : MessageId)
    (request : Request.t) : TxM Response.t :=
  hash ← lift (map_err corrupt (payload_hash request));
  saved ← query (λ db, delivery_requests db !! (user, id));
  match saved with
  | Some row =>
      if decide (journal_hash row ≠ hash) then rejected Rejection.RequestConflict
      else lift (map_err corrupt (decode_message c_response (journal_response row)))
  | None => deliver_new limits user id request hash
  end.

Definition deliver (limits : StorageLimits) (user : UserId) (id : MessageId)
    (request : Request.t) (env : Env) (db : RelayDb) (m : Metrics)
    : result StorageError Response.t * RelayDb * Metrics :=
  transaction (deliver_body limits user id request) env db m.
End delivery.
