(* ===== verification/RelaySpec.v ===== *)
(** * What each request may do to the tables

    [effect] is the specification of [execute]: which tables a request changes, with
    which response, under which conditions; [outcome] is the specification of
    [deliver] as a whole: nothing, or one effect together with its ledger and journal
    entries. [execute_effect] and [deliver_outcome] prove that the code implements
    them, whatever fails on the way. *)
From S2P Require Import Prelude Bytes Text Postcard Protocol Wire Identifiers Transcripts.
From S2P Require Import Framing RelayStorage RelayLimits RelayDelivery.

(** ** Specification *)

(** The requests that only read. *)
Definition is_read (request : Request.t) : bool :=
  match request with
  | Request.FetchRoomEvents _ _ | Request.SyncIndex _ | Request.FetchWelcomes _
  | Request.Acknowledge _ _ => true
  | _ => false
  end.

(** The page loop without the cursor: the items that fit, and whether rows are left. *)
Fixpoint page_items {R A} (record : R → list byte) (build : R → option A) (rows : list R)
    (items : list A) (bytes : Z) : option (list A * bool) :=
  match rows with
  | [] => Some (items, false)
  | row :: rows =>
      if decide (len items = PAGE_SIZE ∨ bytes + len (record row) > MAX_PAYLOAD - 96)
      then Some (items, true)
      else
        item ← build row;
        page_items record build rows (items ++ [item]) (bytes + len (record row))
  end.

Definition ok_value {E A} (r : result E A) : option A :=
  match r with Ok a => Some a | Err _ => None end.

Definition add_subscriber (room : RoomId) (user : UserId) : RelayDb → RelayDb :=
  set_subscribers (λ s, {[(room, user)]} ∪ s).

Definition add_room (room : RoomId) (r : Room) : RelayDb → RelayDb := set_rooms <[room := r]>.

(** Rows for [packages] with increasing rowids from [row] on. *)
Fixpoint package_rows (row now : Z) (user : UserId) (packages : list (list byte)) : list PackageRow :=
  match packages with
  | [] => []
  | p :: packages => MkPackageRow row user p now :: package_rows (row + 1) now user packages
  end.

Definition last_rowid (db : RelayDb) : Z := default 0 (sql_max (rowid <$> key_packages db)).

Definition add_welcome (recipient : UserId) (record : list byte) (db : RelayDb) : RelayDb :=
  let cursor := welcome_autoincrement db + 1 in
  set_welcomes (λ l, l ++ [MkWelcomeRow cursor recipient record]) cursor db.

Section spec.
Context `{Postcard} `{Sha256}.

(** The row an accepted append stores. *)
Definition event_row (user : UserId) (id : MessageId) (op : Append.t) : EventRow :=
  MkEventRow (Append.room op) (Append.parent op + 1) id user (put c_event (Event.Mk id user op)).

Definition welcome_delivery (user : UserId) (id : MessageId) (op : Append.t) (room_name : str)
    (w : WelcomeAttachment.t) : WelcomeDelivery.t :=
  WelcomeDelivery.Mk room_name 0 id (Append.room op) (Append.parent op + 1) user w.

(** What a successful read answers. *)
Definition reads (user : UserId) (db : RelayDb) (request : Request.t) (response : Response.t)
    : Prop :=
  match request, response with
  | Request.FetchRoomEvents room after, Response.RoomEvents room' after' events more =>
      room' = room ∧ after' = after ∧ after ≤ i64_max ∧ (room, user) ∈ room_subscribers db ∧
      page_items event_record (λ row, ok_value (decode_message c_event (event_record row)))
        (select_events room after db) [] 0 = Some (events, more)
  | Request.FetchWelcomes after, Response.Welcomes after' welcomes more =>
      after' = after ∧ after ≤ i64_max ∧
      page_items welcome_record
        (λ row, with_cursor (welcome_cursor row) <$>
                  ok_value (decode_message c_welcome_delivery (welcome_record row)))
        (select_welcomes user after db) [] 0 = Some (welcomes, more)
  | Request.SyncIndex after, Response.SyncIndex rooms more =>
      let heads := (λ r, RoomHead.Mk r.1 (name r.2) (head_of r.1 db)) <$> select_rooms user after db in
      rooms = take 100 heads ∧ more = bool_decide (len heads > PAGE_SIZE)
  | Request.Acknowledge events welcomes, Response.Acknowledged =>
      Forall (λ id, Exists (λ e, event_id e = id ∧ (event_room e, user) ∈ room_subscribers db)
                      (delivery_events db)) events ∧
      Forall (λ c, Exists (λ w, welcome_cursor w = c ∧ welcome_recipient w = user)
                     (delivery_welcomes db)) welcomes
  | _, _ => False
  end.

Inductive append_effect (user : UserId) (id : MessageId) (op : Append.t) (db : RelayDb)
    : RelayDb → Prop :=
| append_plain :
    Append.welcome op = None →
    append_effect user id op db (set_events (λ l, l ++ [event_row user id op]) db)
| append_with_welcome w r :
    Append.welcome op = Some w →
    rooms db !! Append.room op = Some r →
    welcome_autoincrement db < i64_max →
    append_effect user id op db
      (add_subscriber (Append.room op) (WelcomeAttachment.recipient w)
        (add_welcome (WelcomeAttachment.recipient w)
          (put c_welcome_delivery (welcome_delivery user id op (name r) w))
          (set_events (λ l, l ++ [event_row user id op]) db))).

Inductive effect (now : Z) (user : UserId) (id : MessageId) (db : RelayDb)
    : Request.t → Response.t → RelayDb → Prop :=
| effect_rejected request reason :
    effect now user id db request (Response.Rejected reason) db
| effect_read request response :
    reads user db request response → effect now user id db request response db
| effect_conflict op :
    (Append.room op, user) ∈ room_subscribers db →
    head_of (Append.room op) db ≠ Append.parent op →
    effect now user id db (Request.AppendRoomOperation op)
      (Response.HeadConflict (Append.room op) (head_of (Append.room op) db)) db
| effect_create_room name n room :
    normalize_room_name name = Ok n →
    rooms db !! room = None →
    len (rooms_created user db) < 64 →
    effect now user id db (Request.CreateRoom name) (Response.RoomCreated room)
      (add_subscriber room user
        (add_room room {| name := n; created_by := user; created_at := now |} db))
| effect_publish packages :
    packages_invalid packages = false →
    len (packages_of user db) + len packages ≤ 64 →
    effect now user id db (Request.PublishKeyPackages packages)
      (Response.KeyPackagesPublished (len packages))
      (set_packages (λ l, l ++ package_rows (last_rowid db + 1) now user packages) db)
| effect_grant requester :
    effect now user id db (Request.SetFetchGrant requester true) Response.FetchGrantSet
      (set_grants (λ s, {[(user, requester)]} ∪ s) db)
| effect_revoke requester :
    effect now user id db (Request.SetFetchGrant requester false) Response.FetchGrantSet
      (set_grants (λ s, s ∖ {[(user, requester)]}) db)
| effect_reserve recipient row :
    (recipient, user) ∈ fetch_grants db →
    len (recent_allocations now recipient db) < 16 →
    len (by_requester user (recent_allocations now recipient db)) < 4 →
    first_package recipient db = Some row →
    effect now user id db (Request.ReserveKeyPackage recipient)
      (Response.KeyPackage recipient (key_package row))
      (set_allocations (λ l, l ++ [MkAllocation user recipient now])
        (set_packages (filter (λ p, rowid p ≠ rowid row)) db))
| effect_append op db' :
    (Append.room op, user) ∈ room_subscribers db →
    append_invalid op = false →
    head_of (Append.room op) db = Append.parent op →
    Forall (λ e, event_id e ≠ id) (delivery_events db) →
    len (put c_event (Event.Mk id user op)) ≤ MAX_PAYLOAD →
    append_effect user id op db db' →
    effect now user id db (Request.AppendRoomOperation op)
      (Response.AppendAccepted (Event.Mk id user op)) db'.

(** The ledgers and the journal entry of a saved outcome. *)
Definition charge_usage (user : UserId) (request : Request.t) (bytes : Z) (db : RelayDb) : RelayDb :=
  match request with
  | Request.Acknowledge _ _ => db
  | Request.AppendRoomOperation op =>
      set_usage_room (add_usage (Append.room op) bytes) (set_usage_sender (add_usage user bytes) db)
  | _ => set_usage_sender (add_usage user bytes) db
  end.

Definition save_tables (user : UserId) (id : MessageId) (request : Request.t)
    (response : Response.t) (db : RelayDb) : RelayDb :=
  set_requests <[(user, id) :=
      MkJournalRow (sha256 (put c_request request)) (put c_response response)]>
    (charge_usage user request (charge (put c_request request)) db).

(** What [admit] guarantees about the ledgers. *)
Definition within_limits (limits : StorageLimits) (user : UserId) (request : Request.t)
    (db : RelayDb) : Prop :=
  let required := charge (put c_request request) in
  saturating_add (default 0 (usage_sender db !! user)) required ≤ sender limits ∧
  match request with
  | Request.AppendRoomOperation op =>
      saturating_add (default 0 (usage_room db !! Append.room op)) required ≤ room limits
  | _ => True
  end.

(** A request that was carried out: its effect, saved unless it is a read or a
    transient refusal. *)
Inductive performed (limits : StorageLimits) (now : Z) (user : UserId) (id : MessageId)
    (request : Request.t) (db : RelayDb) (response : Response.t) : RelayDb → Prop :=
| performed_saved db1 :
    delivery_requests db !! (user, id) = None →
    effect now user id db request response db1 →
    is_durable request = true → is_transient response = false →
    (is_receipt request = false → within_limits limits user request db) →
    (is_receipt request = true → receipt_invalid user id request = false ∧ response = Response.Acknowledged) →
    len (put c_request request) ≤ MAX_PAYLOAD →
    len (put c_response response) ≤ MAX_PAYLOAD →
    performed limits now user id request db response (save_tables user id request response db1)
| performed_unsaved :
    delivery_requests db !! (user, id) = None →
    effect now user id db request response db →
    is_durable request = false ∨ is_transient response = true →
    performed limits now user id request db response db.

(** A request is answered from the journal, refused before it is tried, or performed;
    a receipt for something the user may not acknowledge is not saved. *)
Inductive answered (limits : StorageLimits) (now : Z) (user : UserId) (id : MessageId)
    (request : Request.t) (db : RelayDb) (response : Response.t) : RelayDb → Prop :=
| answered_conflict row :
    delivery_requests db !! (user, id) = Some row →
    journal_hash row ≠ sha256 (put c_request request) →
    response = Response.Rejected Rejection.RequestConflict →
    answered limits now user id request db response db
| answered_saved row :
    delivery_requests db !! (user, id) = Some row →
    journal_hash row = sha256 (put c_request request) →
    decode_message c_response (journal_response row) = Ok response →
    answered limits now user id request db response db
| answered_receipt reason :
    delivery_requests db !! (user, id) = None →
    is_receipt request = true →
    response = Response.Rejected reason →
    answered limits now user id request db response db
| answered_quota :
    delivery_requests db !! (user, id) = None →
    is_durable request = true →
    response = Response.Rejected Rejection.Quota →
    answered limits now user id request db response db
| answered_performed db' :
    performed limits now user id request db response db' →
    answered limits now user id request db response db'.

(** [deliver] answers and changes the database as [answered] says; when it fails, the
    database is as it was. *)
Definition outcome (limits : StorageLimits) (now : Z) (user : UserId) (id : MessageId)
    (request : Request.t) (db : RelayDb) (r : result StorageError Response.t) (db' : RelayDb)
    : Prop :=
  match r with
  | Ok response =>
      len (put c_request request) ≤ MAX_PAYLOAD ∧
      answered limits now user id request db response db'
  | Err _ => db' = db
  end.

(** ** [execute] implements [effect] *)

Lemma subscribed_inv room user env tx b tx' :
  subscribed room user env tx = (Ok b, tx') →
  b = bool_decide ((room, user) ∈ room_subscribers (working tx)) ∧ working tx' = working tx.
Proof. unfold subscribed. intros E. by inv_tx. Qed.

Lemma rejected_inv reason env tx r tx' :
  rejected reason env tx = (Ok r, tx') → r = Response.Rejected reason ∧ tx' = tx.
Proof. unfold rejected. intros E. by inv_tx. Qed.

Lemma create_room_effect user id name env tx r tx' :
  create_room user name env tx = (Ok r, tx') →
  effect (now env) user id (working tx) (Request.CreateRoom name) r (working tx').
Proof.
  unfold create_room. destruct (normalize_room_name name) as [n|e] eqn:Hn; intros E.
  - apply bind_inv in E as (count & tx1 & Hc & E). inv_tx.
    case_decide as Hq; [apply rejected_inv in E as [-> ->]; by constructor|].
    unfold subscribe in E. inv_tx.
    match goal with H : ok_or _ _ = Ok _ |- _ => apply ok_or_Ok in H end.
    match goal with H : insert_room _ _ _ _ _ = Some _ |- _ => unfold insert_room in H end.
    case_match; simplify_eq/=. apply effect_create_room; [done|done|]. lia.
  - apply rejected_inv in E as [-> ->]. by constructor.
Qed.

Lemma last_rowid_snoc user p t db :
  last_rowid (set_packages (λ l, l ++ [MkPackageRow (last_rowid db + 1) user p t]) db)
  = last_rowid db + 1.
Proof.
  unfold last_rowid, sql_max. cbn [set_packages key_packages].
  destruct (key_packages db) as [|q l]; [done|].
  cbn [app fmap list_fmap]. rewrite fmap_app, foldl_app. cbn [fmap list_fmap foldl rowid default].
  unfold id. lia.
Qed.

Lemma insert_packages_inv t user packages env tx r tx' :
  insert_packages t user packages env tx = (Ok r, tx') →
  working tx' = set_packages
    (λ l, l ++ package_rows (last_rowid (working tx) + 1) t user packages) (working tx).
Proof.
  revert tx. induction packages as [|p packages IH]; intros tx E; cbn [insert_packages] in E.
  - inv_tx. destruct (working tx). unfold set_packages. simpl. by rewrite app_nil_r.
  - apply bind_inv in E as (u & tx1 & E1 & E). apply execute_inv in E1 as (db & E1 & ->).
    apply IH in E. rewrite E. cbn [working after].
    unfold insert_package in E1. apply bind_Some in E1 as (row & Hr & E1).
    unfold to_sql_u64 in Hr. case_decide; [|done]. simplify_eq.
    fold (last_rowid (working tx)). rewrite last_rowid_snoc.
    unfold set_packages. simpl. by rewrite <- (assoc_L (++)).
Qed.

Lemma publish_effect user id packages env tx r tx' :
  publish_key_packages user packages env tx = (Ok r, tx') →
  effect (now env) user id (working tx) (Request.PublishKeyPackages packages) r (working tx').
Proof.
  unfold publish_key_packages. destruct (packages_invalid packages) eqn:Hp; intros E.
  { apply rejected_inv in E as [-> ->]. by constructor. }
  apply bind_inv in E as (count & tx1 & Hc & E). inv_tx.
  case_decide; [apply rejected_inv in E as [-> ->]; by constructor|].
  apply bind_inv in E as (t & tx1 & Ht & E). inv_tx.
  match goal with H : insert_packages _ _ _ _ _ = _ |- _ => apply insert_packages_inv in H as -> end.
  cbn [working after]. apply effect_publish; [done|lia].
Qed.

Lemma grant_effect user id requester allowed env tx r tx' :
  set_fetch_grant user requester allowed env tx = (Ok r, tx') →
  effect (now env) user id (working tx) (Request.SetFetchGrant requester allowed) r (working tx').
Proof. unfold set_fetch_grant. intros E. destruct allowed; inv_tx; simplify_eq/=; by constructor. Qed.

Lemma reserve_effect user id recipient env tx r tx' :
  reserve_key_package user recipient env tx = (Ok r, tx') →
  effect (now env) user id (working tx) (Request.ReserveKeyPackage recipient) r (working tx').
Proof.
  unfold reserve_key_package, denied. intros E.
  apply bind_inv in E as (b & tx1 & Hb & E). inv_tx. case_bool_decide as Hg; simpl in E.
  2:{ apply rejected_inv in E as [-> ->]. by constructor. }
  inv_tx.
  case_decide as Hq; [apply rejected_inv in E as [-> ->]; by constructor|].
  inv_tx. destruct (first_package recipient (working tx)) as [row|] eqn:Hrow.
  - inv_tx. simplify_eq/=. apply effect_reserve; [done|lia|lia|done].
  - apply rejected_inv in E as [-> ->]. by constructor.
Qed.

Lemma reading_page {R A} (record : R → list byte) (build : R → TxM A) rows items bytes :
  (∀ row, reading (build row)) → reading (page record build rows items bytes).
Proof.
  intros Hb. revert items bytes. induction rows as [|row rows IH]; intros items bytes; simpl.
  - apply reading_ret.
  - apply reading_bind; [auto with grotto|intros _]. case_decide; [auto with grotto|].
    apply reading_bind; auto.
Qed.

Lemma uncommitting_page {R A} (record : R → list byte) (build : R → TxM A) rows items bytes :
  (∀ row, uncommitting (build row)) → uncommitting (page record build rows items bytes).
Proof.
  intros Hb. revert items bytes. induction rows as [|row rows IH]; intros items bytes; simpl.
  - apply uncommitting_ret.
  - apply uncommitting_bind; [apply uncommitting_statement|intros _].
    case_decide; [auto with grotto|]. apply uncommitting_bind; auto.
Qed.

Lemma reading_each_row {R} (rows : list R) : reading (each_row rows).
Proof. induction rows; simpl; solve_reading. Qed.
Lemma uncommitting_each_row {R} (rows : list R) : uncommitting (each_row rows).
Proof. induction rows; simpl; solve_uncommitting. Qed.
Lemma reading_events_allowed user events : reading (events_allowed user events).
Proof. induction events; simpl; solve_reading. Qed.
Lemma uncommitting_events_allowed user events : uncommitting (events_allowed user events).
Proof. induction events; simpl; solve_uncommitting. Qed.
Lemma reading_welcomes_allowed user cursors : reading (welcomes_allowed user cursors).
Proof. induction cursors; simpl; solve_reading. Qed.
Lemma uncommitting_welcomes_allowed user cursors : uncommitting (welcomes_allowed user cursors).
Proof. induction cursors; simpl; solve_uncommitting. Qed.
Lemma uncommitting_insert_packages t user packages : uncommitting (insert_packages t user packages).
Proof. induction packages; simpl; solve_uncommitting. Qed.

#[local] Hint Resolve reading_page uncommitting_page reading_each_row uncommitting_each_row
  reading_events_allowed uncommitting_events_allowed reading_welcomes_allowed
  uncommitting_welcomes_allowed uncommitting_insert_packages : grotto.

Lemma reading_execute user id request :
  is_read request = true → reading (execute user id request).
Proof.
  destruct request; intros Hr; try discriminate Hr; simpl;
    unfold acknowledge, fetch_room_events, sync_index, fetch_welcomes, denied, rejected,
      subscribed; solve_reading.
  all: apply reading_page; intros; solve_reading.
Qed.

Lemma uncommitting_execute user id request : uncommitting (execute user id request).
Proof.
  destruct request; simpl;
    unfold create_room, publish_key_packages, set_fetch_grant, reserve_key_package,
      append_room_operation, append_welcome, subscribe, acknowledge, fetch_room_events,
      sync_index, fetch_welcomes, denied, rejected, subscribed; solve_uncommitting.
  all: apply uncommitting_page; intros; solve_uncommitting.
Qed.

Lemma page_inv {R A} (record : R → list byte) (build : R → TxM A) f rows items bytes env tx r tx' :
  (∀ row env tx a tx', build row env tx = (Ok a, tx') → f row = Some a) →
  page record build rows items bytes env tx = (Ok r, tx') →
  page_items record f rows items bytes = Some r.
Proof.
  intros Hb. revert items bytes tx. induction rows as [|row rows IH]; intros items bytes tx E;
    cbn [page page_items] in *; [by inv_tx|].
  apply bind_inv in E as (u & tx1 & _ & E). case_decide; [by inv_tx|].
  apply bind_inv in E as (a & tx2 & Ha & E). rewrite (Hb _ _ _ _ _ Ha). simpl. by eapply IH.
Qed.

Lemma events_allowed_inv user events env tx tx' :
  events_allowed user events env tx = (Ok true, tx') →
  Forall (λ id, Exists (λ e, event_id e = id ∧ (event_room e, user) ∈ room_subscribers (working tx))
                  (delivery_events (working tx))) events.
Proof.
  revert tx. induction events as [|id events IH]; intros tx E; simpl in E; [constructor|].
  inv_tx. case_bool_decide; [|by inv_tx]. constructor; [done|]. by apply IH in E.
Qed.

Lemma welcomes_allowed_inv user cursors env tx tx' :
  welcomes_allowed user cursors env tx = (Ok true, tx') →
  Forall (λ c, Exists (λ w, welcome_cursor w = c ∧ welcome_recipient w = user)
                 (delivery_welcomes (working tx))) cursors.
Proof.
  revert tx. induction cursors as [|c cursors IH]; intros tx E; simpl in E; [constructor|].
  apply bind_inv in E as (b & tx1 & Hb & E). apply try_query_inv in Hb as [Hb ->].
  unfold to_sql_u64 in Hb. case_decide; [|done]. simplify_eq/=.
  case_bool_decide; [|by inv_tx]. constructor; [done|]. by apply IH in E.
Qed.

(** A read answers what [reads] says or is rejected. *)
Lemma execute_reads user id request env tx r tx' :
  is_read request = true → execute user id request env tx = (Ok r, tx') →
  (∃ reason, r = Response.Rejected reason) ∨ reads user (working tx) request r.
Proof.
  destruct request as [| |events welcomes| |room after|after|after| |]; intros Hr E;
    try discriminate Hr; simpl in E; clear Hr.
  - unfold acknowledge, denied, rejected in E. case_decide as Hq; [inv_tx; eauto|].
    apply bind_inv in E as (b1 & tx1 & H1 & E). destruct b1; simpl in E; [|inv_tx; eauto].
    apply bind_inv in E as (b2 & tx2 & H2 & E). destruct b2; simpl in E; [|inv_tx; eauto].
    inv_tx. right. split; [by apply events_allowed_inv in H1|].
    apply reading_inv in H1; [|auto with grotto]. apply welcomes_allowed_inv in H2. by rewrite H1 in H2.
  - unfold fetch_room_events, denied, rejected in E. case_decide; [inv_tx; eauto|].
    apply bind_inv in E as (b & tx1 & [-> Hw]%subscribed_inv & E). rewrite <- Hw in *.
    case_bool_decide; simpl in E; [|inv_tx; eauto]. inv_tx. right.
    match goal with p : (list _ * bool)%type |- _ => destruct p as [events more] end. inv_tx.
    split_and!; try done. eapply page_inv; [|eassumption].
    intros row env' t a t' Hl. cbn beta in Hl. inv_tx.
    match goal with H : map_err _ _ = Ok _ |- _ => apply map_err_Ok in H; by rewrite H end.
  - unfold sync_index in E. inv_tx. right. done.
  - unfold fetch_welcomes, rejected in E. case_decide; [inv_tx; eauto|]. inv_tx. right.
    match goal with p : (list _ * bool)%type |- _ => destruct p as [events more] end. inv_tx.
    split_and!; try done. eapply page_inv; [|eassumption].
    intros row env' t a t' Hl. cbn beta in Hl. inv_tx.
    match goal with H : map_err _ _ = Ok _ |- _ => apply map_err_Ok in H; by rewrite H end.
Qed.

Lemma append_welcome_inv user id op env tx r tx' :
  append_welcome user id op (Append.parent op) env tx = (Ok r, tx') →
  (Append.welcome op = None ∧ working tx' = working tx) ∨
  ∃ w room, Append.welcome op = Some w ∧ rooms (working tx) !! Append.room op = Some room ∧
    welcome_autoincrement (working tx) < i64_max ∧
    working tx' = add_subscriber (Append.room op) (WelcomeAttachment.recipient w)
      (add_welcome (WelcomeAttachment.recipient w)
        (put c_welcome_delivery (welcome_delivery user id op (name room) w)) (working tx)).
Proof.
  unfold append_welcome. destruct (Append.welcome op) as [w|]; intros E; [right|left].
  - unfold subscribe in E. inv_tx. exists w.
    match goal with H : _ <$> _ = Some _ |- _ => apply fmap_Some in H as (room & ? & ->) end.
    match goal with H : map_err _ _ = Ok _ |- _ =>
      apply map_err_Ok, encode_message_Ok in H as [-> _] end.
    match goal with H : insert_welcome _ _ _ = Some _ |- _ =>
      unfold insert_welcome, to_sql_u64 in H; case_decide; [|done]; simplify_eq/= end.
    exists room. split_and!; [done|done|lia|done].
  - by inv_tx.
Qed.

Lemma append_room_effect user id op env tx r tx' :
  append_room_operation user id op env tx = (Ok r, tx') →
  effect (now env) user id (working tx) (Request.AppendRoomOperation op) r (working tx').
Proof.
  unfold append_room_operation, denied. intros E.
  apply bind_inv in E as (b & tx1 & [-> Hw1]%subscribed_inv & E). rewrite <- Hw1 in *. clear Hw1.
  case_bool_decide as Hs; simpl in E.
  2:{ apply rejected_inv in E as [-> ->]. by constructor. }
  destruct (append_invalid op) eqn:Hi.
  { apply rejected_inv in E as [-> ->]. by constructor. }
  inv_tx. case_decide as Hh; [inv_tx; by constructor|].
  inv_tx. case_bool_decide as He.
  { apply rejected_inv in E as [-> ->]. by constructor. }
  rewrite Hh in *. inv_tx.
  match goal with H : map_err _ _ = Ok _ |- _ =>
    apply map_err_Ok, encode_message_Ok in H as [-> Hlen] end.
  match goal with H : mbind _ (to_sql_u64 _) = Some _ |- _ =>
    apply bind_Some in H as (sequence & Hseq & Hins) end.
  unfold to_sql_u64 in Hseq. case_decide; [|done]. simplify_eq/=.
  unfold insert_event in Hins. case_decide; [done|]. simplify_eq/=.
  fold (event_row user id op) in *.
  apply effect_append; [done|done|done|by apply not_Exists_Forall in He; [|apply _]|done|].
  match goal with H : append_welcome _ _ _ _ _ _ = _ |- _ =>
    apply append_welcome_inv in H as [[Hn ->]|(w & room & Hw & Hr & Ha & ->)] end.
  - by constructor.
  - by eapply append_with_welcome.
Qed.

(** Whatever [execute] answers, the tables changed as [effect] allows. *)
Lemma execute_effect user id request env tx r tx' :
  execute user id request env tx = (Ok r, tx') →
  effect (now env) user id (working tx) request r (working tx').
Proof.
  intros E. destruct (is_read request) eqn:Hr.
  { rewrite (reading_inv _ _ _ _ _ (reading_execute user id request Hr) E).
    apply execute_reads in E as [[reason ->]|Hreads]; [..|done]; by constructor. }
  destruct request; try discriminate Hr; simpl in E.
  - by apply create_room_effect.
  - by apply publish_effect.
  - by apply append_room_effect.
  - by apply reserve_effect.
  - by apply grant_effect.
Qed.

(** ** [deliver] implements [outcome] *)

Lemma admit_request_inv limits user request env tx tx' :
  admit_request limits user request env tx = (Ok true, tx') →
  working tx' = working tx ∧ within_limits limits user request (working tx).
Proof.
  intros E. split; [by eapply reading_inv in E; [|auto with grotto]|].
  unfold admit_request in E. inv_tx.
  match goal with H : map_err _ _ = Ok _ |- _ =>
    apply map_err_Ok, encode_message_Ok in H as [-> Hlen] end.
  rewrite decide_False in E by lia. unfold within_limits.
  set (required := charge (put c_request request)) in *.
  repeat (inv_tx; case_decide; [by inv_tx|]). inv_tx.
  destruct x1; [by inv_tx|].
  match goal with H : from_sql_u64 _ = Some _ |- _ =>
    unfold from_sql_u64 in H; case_decide; [simplify_eq|done] end.
  split; [lia|].
  match goal with H : _ env _ = (Ok false, _) |- _ => rename H into Hroom end.
  destruct request; try done. inv_tx. case_bool_decide; [done|].
  match goal with H : from_sql_u64 _ = Some _ |- _ =>
    unfold from_sql_u64 in H; case_decide; [simplify_eq|done] end.
  lia.
Qed.

Lemma save_outcome_inv user id request response env tx r tx' :
  save_outcome user id request (charge (put c_request request))
    (sha256 (put c_request request)) response env tx = (Ok r, tx') →
  delivery_requests (working tx) !! (user, id) = None ∧
  len (put c_response response) ≤ MAX_PAYLOAD ∧
  working tx' = save_tables user id request response (working tx).
Proof.
  unfold save_outcome. intros E. apply bind_inv in E as (u & tx1 & Hcharge & E). inv_tx.
  match goal with H : map_err _ _ = Ok _ |- _ =>
    apply map_err_Ok, encode_message_Ok in H as [-> Hlen] end.
  assert (working tx1 = charge_usage user request (charge (put c_request request)) (working tx))
    as Hw.
  { destruct request; simpl in Hcharge; inv_tx; unfold to_sql_u64 in *;
      repeat (case_decide; [|done]); by simplify_eq/=. }
  match goal with H : insert_request _ _ _ _ = Some _ |- _ => unfold insert_request in H end.
  assert (delivery_requests (working tx1) = delivery_requests (working tx)) as Hq
    by (rewrite Hw; by destruct request).
  rewrite Hq in *. case_match; simplify_eq/=. split_and!; [done|done|].
  unfold save_tables. by rewrite Hw.
Qed.

Lemma effect_requests now user id db request response db' :
  effect now user id db request response db' → delivery_requests db' = delivery_requests db.
Proof. destruct 1; try done. by match goal with H : append_effect _ _ _ _ _ |- _ => destruct H end. Qed.

Lemma reading_count_outcome response : reading (count_outcome response).
Proof. unfold count_outcome. solve_reading. Qed.
Lemma uncommitting_count_outcome response : uncommitting (count_outcome response).
Proof. unfold count_outcome. solve_uncommitting. Qed.
Lemma uncommitting_save_outcome user id request c h response :
  uncommitting (save_outcome user id request c h response).
Proof. unfold save_outcome. solve_uncommitting. Qed.

#[local] Hint Resolve reading_count_outcome uncommitting_count_outcome uncommitting_save_outcome
  uncommitting_execute : grotto.

(** A response that is not saved goes with unchanged tables. *)
Lemma effect_unsaved_same now user id db request response db' :
  effect now user id db request response db' →
  is_durable request = false ∨ is_transient response = true → db' = db.
Proof. destruct 1; intros [|]; done. Qed.

Lemma reads_receipt user db request response :
  reads user db request response → is_receipt request = true → response = Response.Acknowledged.
Proof. destruct request, response; simpl; intros; try done; by destruct_and?. Qed.

Lemma effect_receipt now user id db request response db' :
  effect now user id db request response db' → is_receipt request = true →
  response = Response.Acknowledged ∨ ∃ reason, response = Response.Rejected reason.
Proof. destruct 1; try done; eauto using reads_receipt. Qed.

Lemma deliver_new_answered limits user id request env tx response tx' :
  delivery_requests (working tx) !! (user, id) = None →
  committed tx = working tx →
  deliver_new limits user id request (sha256 (put c_request request)) env tx = (Ok response, tx') →
  answered limits (now env) user id request (working tx) response (committed tx').
Proof.
  intros Hj Hc E. unfold deliver_new in E.
  destruct (receipt_invalid user id request) eqn:Hri.
  { apply rejected_inv in E as [-> ->]. rewrite Hc. eapply answered_receipt; [done| |done].
    by destruct request. }
  apply bind_inv in E as (admitted & tx1 & Ha & E).
  assert (working tx1 = working tx ∧ committed tx1 = committed tx) as [Hw1 Hc1].
  { split; [eapply reading_inv; [|exact Ha]|eapply uncommitted; [|exact Ha]]; auto with grotto. }
  destruct admitted; simpl in E.
  2:{ apply bind_inv in E as (u & tx2 & Hq & [-> ->]%rejected_inv).
      apply uncommitted in Hq; [|auto with grotto]. rewrite Hq, Hc1, Hc.
      apply answered_quota; try done. destruct (is_durable request); [done|]. by simpl in Ha; inv_tx. }
  apply bind_inv in E as (wire & tx2 & Hwire & E).
  apply lift_inv in Hwire as [[-> Hlen]%map_err_Ok%encode_message_Ok ->].
  apply bind_inv in E as (response' & tx3 & Hx & E).
  apply execute_effect in Hx as Heff. apply uncommitted in Hx as Hc3; [|auto with grotto].
  rewrite Hw1 in Heff.
  apply bind_inv in E as (u & tx4 & Ho & E). apply reading_inv in Ho as Hw4; [|auto with grotto].
  apply uncommitted in Ho as Hc4; [|auto with grotto].
  destruct (is_receipt request && negb (bool_decide (response' = Response.Acknowledged))) eqn:Hrec.
  { inv_tx. apply andb_true_iff in Hrec as [Hrec Hne%negb_true_iff%bool_decide_eq_false].
    destruct (effect_receipt _ _ _ _ _ _ _ Heff Hrec) as [?|[reason ->]]; [done|].
    rewrite Hc4, Hc3, Hc1, Hc. by eapply answered_receipt. }
  apply bind_inv in E as (v & tx5 & Hs & E). inv_tx.
  match goal with H : commit _ _ = _ |- _ => apply commit_inv in H as [Hcm _] end.
  apply answered_performed. rewrite Hcm.
  destruct (is_durable request && negb (is_transient response')) eqn:Hd.
  - apply andb_true_iff in Hd as [Hd Ht%negb_true_iff].
    apply save_outcome_inv in Hs as (_ & Hresp & ->). rewrite Hw4.
    apply performed_saved; try done.
    + intros Hnr. rewrite Hd, Hnr in Ha. simpl in Ha. by apply admit_request_inv in Ha as [_ ?].
    + intros Hr. rewrite Hr in Hrec. simpl in Hrec. split; [done|].
      by apply negb_false_iff, bool_decide_eq_true in Hrec.
  - inv_tx. rewrite Hw4.
    assert (is_durable request = false ∨ is_transient response' = true) as Hun.
    { apply andb_false_iff in Hd as [Hd|Ht%negb_false_iff]; auto. }
    pose proof (effect_unsaved_same _ _ _ _ _ _ _ Heff Hun) as Hsame. rewrite Hsame in Heff |- *.
    by apply performed_unsaved.
Qed.

Lemma atomic_deliver_body limits user id request : atomic (deliver_body limits user id request).
Proof. unfold deliver_body, deliver_new, rejected. solve_atomic. Qed.

(** Whatever the request, the faults and the state: the answer and the database
    afterwards are as specified. *)
Lemma deliver_outcome limits user id request env db m r db' m' :
  deliver limits user id request env db m = (r, db', m') →
  outcome limits (now env) user id request db r db'.
Proof.
  intros [(e & -> & _ & ->)|(tx' & E & -> & ->)]%transaction_inv; [done|].
  destruct r as [response|e]; [|by eapply atomic_deliver_body in E].
  unfold deliver_body in E. inv_tx.
  match goal with H : map_err _ (payload_hash _) = Ok _ |- _ => rename H into Hh end.
  apply map_err_Ok in Hh. unfold payload_hash in Hh.
  destruct (encode_message c_request request) as [l|] eqn:Henc; simpl in Hh; [|done].
  apply encode_message_Ok in Henc as [-> Hlen]. injection Hh as <-. split; [exact Hlen|].
  destruct (delivery_requests db !! (user, id)) as [row|] eqn:Hj.
  - case_decide as Hne.
    + apply rejected_inv in E as [-> ->]. by eapply answered_conflict.
    + inv_tx. apply answered_saved with row; [done|done|].
      by eapply map_err_Ok.
  - by apply deliver_new_answered in E.
Qed.
End spec.
