(* ===== verification/Enrollment.v ===== *)
(** * Private enrollment

    [issue_enrollment] and [register_enrolled_identity] of
    src/crates/grotto-relay/src/enrollment.rs. *)
From S2P Require Import Prelude Bytes Text Protocol Identifiers Framing RelayStorage.

Section enrollment.
Context `{Sha256}.

(** [hash]: [None] is the panic of its [expect]. *)
Definition enrollment_hash (l : list byte) : option (bytes 32) :=
  text ← cert_fingerprint_sha256_hex l;
  match parse_fingerprint_hex text with
  | Ok digest => Some digest
  | Err _ => None
  end.

(** The panic of [enrollment_hash], which [enrollment_hash_sha256] excludes. *)
Definition hash_panic : StorageError := InvalidStoredData "generated SHA256 hex".

Definition insert_token (hash : bytes 32) (row : TokenRow) (db : RelayDb) : option RelayDb :=
  match enrollment_tokens db !! hash with
  | Some _ => None
  | None => Some (set_tokens <[hash := row]> db)
  end.

(** A single INSERT outside a transaction commits by itself. *)
Definition issue_enrollment (user : UserId) (fingerprint : bytes 32) (env : Env) (db : RelayDb)
    (m : Metrics) : result StorageError str * RelayDb * Metrics :=
  match random32 env with
  | None => (Err Random, db, m)
  | Some token =>
      if lock_poisoned env then (Err LockPoisoned, db, m) else
      let body :=
        hash ← lift (ok_or hash_panic (enrollment_hash (vec_to_list token)));
        execute_sql (insert_token hash
          (MkTokenRow user fingerprint (now env + 86400) false)) in
      match body env (MkTx db db 0 m) with
      | (Ok _, tx) => (Ok (ascii_str (hex_string token)), working tx, m)
      | (Err e, _) => (Err e, db, m)
      end
  end.

(** The WHERE clause of the UPDATE. *)
Definition token_matches (now : Z) (user : UserId) (fingerprint : bytes 32) (row : TokenRow) : bool :=
  bool_decide (token_user row = user) && bool_decide (token_fingerprint row = fingerprint)
  && bool_decide (now < expires row) && negb (consumed row).

(** [UPDATE enrollment_tokens SET consumed=1 WHERE ...]: the number of rows changed;
    [hash] is the primary key. *)
Definition consume_token (now : Z) (hash : bytes 32) (user : UserId) (fingerprint : bytes 32)
    (db : RelayDb) : option (Z * RelayDb) :=
  match enrollment_tokens db !! hash with
  | Some row =>
      if token_matches now user fingerprint row
      then Some (1, set_tokens <[hash := MkTokenRow (token_user row) (token_fingerprint row)
                                           (expires row) true]> db)
      else Some (0, db)
  | None => Some (0, db)
  end.

Definition insert_identity (user : UserId) (key : bytes 32) (db : RelayDb) : option RelayDb :=
  match identities db !! user with
  | Some _ => None
  | None => Some (set_identities <[user := key]> db)
  end.

Definition register_body (user : UserId) (key : Ed25519PublicKeyBytes) (token : option (bytes 32))
    : TxM Registration :=
  existing ← query (λ db, identities db !! user);
  match existing with
  | Some existing =>
      if decide (existing ≠ public_key_bytes key) then fail IdentityKeyConflict
      else mret Existing
  | None =>
      token ← lift (ok_or EnrollmentRequired token);
      now ← ask now;
      hash ← lift (ok_or hash_panic (enrollment_hash (vec_to_list token)));
      fingerprint ← lift (ok_or hash_panic (enrollment_hash (vec_to_list (public_key_bytes key))));
      consumed ← statement (consume_token now hash user fingerprint);
      if decide (consumed ≠ 1) then fail EnrollmentRequired else
      execute_sql (insert_identity user (public_key_bytes key));;
      commit;;
      mret New
  end.

Definition register_enrolled_identity (user : UserId) (key : Ed25519PublicKeyBytes)
    (token : option (bytes 32)) (env : Env) (db : RelayDb) (m : Metrics)
    : result StorageError Registration * RelayDb * Metrics :=
  transaction (register_body user key token) env db m.

(** ** Lemmas *)

Lemma enrollment_hash_sha256 l : enrollment_hash l = Some (sha256 l).
Proof.
  unfold enrollment_hash, cert_fingerprint_sha256_hex. rewrite fingerprint_digits_hex.
  cbn [mbind option_bind]. by rewrite parse_fingerprint_hex_text.
Qed.

(** A registration that changes the database consumes a matching token and adds the
    identity; everything else leaves it as it was. *)
Definition registered (now : Z) (user : UserId) (key : Ed25519PublicKeyBytes)
    (token : option (bytes 32)) (db db' : RelayDb) : Prop :=
  ∃ t row, token = Some t ∧ identities db !! user = None ∧
    enrollment_tokens db !! sha256 (vec_to_list t) = Some row ∧
    token_matches now user (sha256 (public_key_bytes key)) row = true ∧
    db' = set_identities <[user := public_key_bytes key]>
            (set_tokens <[sha256 (vec_to_list t) := MkTokenRow (token_user row) (token_fingerprint row)
                                        (expires row) true]> db).

Lemma atomic_register_body user key token : atomic (register_body user key token).
Proof. unfold register_body. solve_atomic. Qed.

Lemma register_outcome user key token env db m r db' m' :
  register_enrolled_identity user key token env db m = (r, db', m') →
  db' = db ∨ (r = Ok New ∧ registered (now env) user key token db db').
Proof.
  intros [(e & -> & _ & ->)|(tx' & E & -> & ->)]%transaction_inv; [by left|].
  destruct r as [r|e]; [|left; by eapply atomic_register_body in E].
  unfold register_body in E.
  apply bind_committed in E as [?|(ex & tx1 & H1 & Hc2 & E)];
    [by left| |apply uncommitting_statement].
  apply query_inv in H1 as [-> ->]. simpl in *.
  destruct (identities db !! user) as [k|] eqn:Hid.
  { left. case_decide; apply uncommitted in E;
      try apply uncommitting_fail; try apply uncommitting_ret; done. }
  right. inv_tx. rewrite enrollment_hash_sha256 in *. simplify_eq/=.
  match goal with H : ok_or _ token = Ok _ |- _ => apply ok_or_Ok in H as -> end.
  match goal with H : statement _ _ _ = _ |- _ => apply statement_inv in H as (d & Hcons & ->) end.
  case_decide as Hone; [done|]. inv_tx.
  match goal with H : commit _ _ = _ |- _ => apply commit_inv in H as [Hcm _] end.
  split; [done|]. unfold consume_token in Hcons. simpl in *.
  case_match; [|simplify_eq/=; lia]. case_match; simplify_eq/=.
  match goal with H : insert_identity _ _ _ = Some _ |- _ => unfold insert_identity in H end.
  simpl in *. rewrite Hid in *. simplify_eq/=.
  do 2 eexists. split_and!; [done|done|done|done|done].
Qed.

Lemma issue_outcome user fingerprint env db m r db' m' :
  issue_enrollment user fingerprint env db m = (r, db', m') →
  (db' = db ∧ ∃ e, r = Err e) ∨
  ∃ token, random32 env = Some token ∧ r = Ok (ascii_str (hex_string token)) ∧
    enrollment_tokens db !! sha256 (vec_to_list token) = None ∧
    db' = set_tokens <[sha256 (vec_to_list token) :=
      MkTokenRow user fingerprint (now env + 86400) false]> db.
Proof.
  unfold issue_enrollment. destruct (random32 env) as [token|]; [|intros; simplify_eq; eauto].
  destruct (lock_poisoned env); [intros; simplify_eq; eauto|].
  match goal with |- context [ mbind ?k ?q env ?tx ] =>
    destruct (mbind k q env tx) as [[u|e] tx'] eqn:E end; [|intros; simplify_eq; eauto].
  intros. simplify_eq. right. exists token. inv_tx. rewrite enrollment_hash_sha256 in *.
  simplify_eq/=. match goal with H : insert_token _ _ _ = Some _ |- _ => unfold insert_token in H end.
  case_match; by simplify_eq.
Qed.
End enrollment.
