(* ===== verification/RelayConnection.v ===== *)
(** * Connections of the relay

    [authenticate], [handle_connection], [read_inbound_with_budget] and their helpers
    (src/crates/grotto-relay/src/lib.rs), and [DatabaseWorker::execute]
    (src/crates/grotto-relay/src/worker.rs) as they see it. A connection is a program
    over its socket, the relay's database, its hub and its counters; what the world
    decides (the worker's queue, time, randomness, cancellation) is the environment of
    a run. Ed25519 is the [ed25519_dalek] crate's and enters as an interface. *)
From S2P Require Import Prelude Bytes Text Postcard Protocol Wire Identifiers Transcripts.
From S2P Require Import Crypto Framing RelayHub RelayStorage RelayLimits RelayRate RelayDelivery Enrollment.

(** ** State, environment, errors *)

(** The boxed errors a connection ends with. *)
Inductive ConnectionError :=
| IoError (k : ErrorKind)
| DecodeFailed (e : DecodeMessageError)
| EncodeFailed
| ProtocolFailed (e : ProtocolError.t)
| StorageFailed (e : StorageError)
| RandomFailed
| ChannelEnded
| Cancelled.

Record Conn := MkConn {
  input : stream;
  output : writer;
  relay_db : RelayDb;
  storage_metrics : Metrics;
  relay_hub : ConnectionHub;
  rates : Rates;
  queue_pressure : Z;
  timeouts : Z;
  recovery_failures : Z;
  awaits : nat;
}.

(** How [DatabaseWorker::execute] goes: the command runs and its result comes back,
    the queue is full, the worker has stopped, or the command was admitted and its
    result never came ([ran] says whether it was run). *)
Inductive WorkerOutcome := Answers | QueueFull | Stopped | ResultLost (ran : bool).

(** [cancelled n] is [Some k] when the task is dropped at its [n]-th await, a write
    having sent [k] bytes. *)
Record ConnEnv := MkConnEnv {
  config : RuntimeLimits;
  storage_limits : StorageLimits;
  storage_env : Env;
  worker : WorkerOutcome;
  instant : Z;
  challenge_bytes_of : option (bytes 32);
  cancelled : nat → option nat;
}.

Definition ConnM (A : Type) : Type := ConnEnv → Conn → result ConnectionError A * Conn.

#[global] Instance ConnM_ret : MRet ConnM := λ A a env c, (Ok a, c).
#[global] Instance ConnM_bind : MBind ConnM := λ A B f m env c,
  match m env c with
  | (Ok a, c) => f a env c
  | (Err e, c) => (Err e, c)
  end.

Definition raise {A} (e : ConnectionError) : ConnM A := λ _ c, (Err e, c).
Definition lift_conn {A} (r : result ConnectionError A) : ConnM A := λ _ c, (r, c).
Definition ask_conn {A} (f : ConnEnv → A) : ConnM A := λ env c, (Ok (f env), c).

(** Record updates. *)
Definition set_input s c := MkConn s (output c) (relay_db c) (storage_metrics c) (relay_hub c) (rates c) (queue_pressure c) (timeouts c) (recovery_failures c) (awaits c).
Definition set_output w c := MkConn (input c) w (relay_db c) (storage_metrics c) (relay_hub c) (rates c) (queue_pressure c) (timeouts c) (recovery_failures c) (awaits c).
Definition set_storage db m c := MkConn (input c) (output c) db m (relay_hub c) (rates c) (queue_pressure c) (timeouts c) (recovery_failures c) (awaits c).
Definition set_hub h c := MkConn (input c) (output c) (relay_db c) (storage_metrics c) h (rates c) (queue_pressure c) (timeouts c) (recovery_failures c) (awaits c).
Definition set_rates r c := MkConn (input c) (output c) (relay_db c) (storage_metrics c) (relay_hub c) r (queue_pressure c) (timeouts c) (recovery_failures c) (awaits c).
Definition add_pressure c := MkConn (input c) (output c) (relay_db c) (storage_metrics c) (relay_hub c) (rates c) (wrapping_add64 (queue_pressure c) 1) (timeouts c) (recovery_failures c) (awaits c).
Definition add_timeout c := MkConn (input c) (output c) (relay_db c) (storage_metrics c) (relay_hub c) (rates c) (queue_pressure c) (wrapping_add64 (timeouts c) 1) (recovery_failures c) (awaits c).
Definition add_failure c := MkConn (input c) (output c) (relay_db c) (storage_metrics c) (relay_hub c) (rates c) (queue_pressure c) (timeouts c) (wrapping_add64 (recovery_failures c) 1) (awaits c).
Definition next_await c := MkConn (input c) (output c) (relay_db c) (storage_metrics c) (relay_hub c) (rates c) (queue_pressure c) (timeouts c) (recovery_failures c) (S (awaits c)).

Definition modify (f : Conn → Conn) : ConnM () := λ _ c, (Ok tt, f c).

(** An await: the task may be dropped there, having sent [k] more bytes of [l]. *)
Definition await_io {A} (l : list byte) (m : ConnM A) : ConnM A := λ env c,
  match cancelled env (awaits c) with
  | Some k => (Err Cancelled,
      next_await (set_output (Writer (written (output c) ++ take k l) (fails_after (output c))) c))
  | None => m env (next_await c)
  end.

(** A wait under [timeout_at] and [select!] with the shutdown channel. *)
Inductive Waited (A : Type) := Finished (a : A) | Elapsed | ShutDown.
Arguments Finished {A} _.
Arguments Elapsed {A}.
Arguments ShutDown {A}.

(** What the task of a connection says when it ends. *)
Inductive TaskReport :=
| Silent
| TlsHandshakeFailed (k : ErrorKind)
| TlsHandshakeTimedOut
| ConnectionFailed (e : ConnectionError).

Section connection.
Context `{Postcard} `{Sha256} `{Ed25519}.

(** ** Frames *)

(** [write_frame] of the relay: the deadline is a [TimedOut] of the transport, and is
    counted. *)
Definition send_frame (l : list byte) : ConnM () :=
  await_io (be_bytes 4 (len l) ++ l) (λ _ c,
    match write_frame (output c) l with
    | (Ok _, w) => (Ok tt, set_output w c)
    | (Err k, w) =>
        let c := set_output w c in
        (Err (IoError k), if decide (k = TimedOut) then add_timeout c else c)
    end).

(** [read_handshake_frame]: here too the deadline is a [TimedOut] of the transport.
    [read_frame] has enough fuel on every stream ([read_frame_total]). *)
Definition read_handshake_frame : ConnM (option (list byte)) :=
  await_io [] (λ _ c,
    let '(r, s) := default (Err OtherKind, input c) (read_frame (input c)) in
    (match r with Ok f => Ok f | Err k => Err (IoError k) end, set_input s c)).

Definition encode_relay (m : RelayMessage.t) : ConnM (list byte) :=
  lift_conn (map_err EncodeFailed (encode_message c_relay_message m)).

Definition decode_client (l : list byte) : ConnM ClientMessage.t :=
  lift_conn (match decode_message c_client_message l with
             | Ok m => Ok m
             | Err e => Err (DecodeFailed e)
             end).

Definition send_message (m : RelayMessage.t) : ConnM () :=
  encoded ← encode_relay m;
  send_frame encoded.

Definition send_request_error (request_id : option MessageId) (error : ProtocolError.t) : ConnM () :=
  send_message (RelayMessage.ProtocolError request_id error).

Definition send_protocol_error (error : ProtocolError.t) : ConnM () :=
  send_request_error None error.

(** [send_protocol_error(..).await?; return Err(error.into())]. *)
Definition refuse {A} (error : ProtocolError.t) : ConnM A :=
  send_protocol_error error;; raise (ProtocolFailed error).

(** ** [DatabaseWorker::execute]

    An admitted command runs even when its caller is gone. *)
Definition run_command {A} (operation : Env → RelayDb → Metrics → A * RelayDb * Metrics)
    (env : ConnEnv) (c : Conn) : A * Conn :=
  let '(r, db, m) := operation (storage_env env) (relay_db c) (storage_metrics c) in
  (r, set_storage db m c).

Definition worker_execute {A} (operation : Env → RelayDb → Metrics → A * RelayDb * Metrics)
    : ConnM (result ErrorKind A) := λ env c,
  match worker env with
  | QueueFull => (Ok (Err WouldBlock), add_pressure c)
  | Stopped => (Ok (Err BrokenPipe), c)
  | ResultLost ran =>
      let c := if ran then (run_command operation env c).2 else c in
      match cancelled env (awaits c) with
      | Some _ => (Err Cancelled, next_await c)
      | None => (Ok (Err BrokenPipe), next_await c)
      end
  | Answers =>
      let '(r, c) := run_command operation env c in
      match cancelled env (awaits c) with
      | Some _ => (Err Cancelled, next_await c)
      | None => (Ok (Ok r), next_await c)
      end
  end.

(** ** [authenticate] *)

Definition verify_authentication_signature (key : Ed25519PublicKeyBytes) (user : UserId)
    (challenge : AuthenticationChallenge) (signature : Ed25519SignatureBytes) : bool :=
  match authentication_transcript PROTOCOL_VERSION user key challenge with
  | Some transcript => verify_strict (public_key_bytes key) transcript (signature_bytes signature)
  | None => false
  end.

(** An early return out of the handshake because the peer hung up. *)
Definition or_disconnected {A} (frame : option (list byte)) (k : list byte → ConnM (option A))
    : ConnM (option A) :=
  match frame with Some frame => k frame | None => mret None end.

Definition receive_hello (frame : list byte) : ConnM () :=
  message ← decode_client frame;
  match message with
  | ClientMessage.ClientHello version =>
      if decide (version ≠ PROTOCOL_VERSION)
      then refuse (ProtocolError.UnsupportedVersion PROTOCOL_VERSION version)
      else send_message (RelayMessage.ServerHello PROTOCOL_VERSION)
  | other =>
      refuse (ProtocolError.UnexpectedMessage ClientMessageKind.ClientHello (ClientMessage.kind other))
  end.

Definition receive_identify (frame : list byte)
    : ConnM (UserId * Ed25519PublicKeyBytes * option (bytes 32)) :=
  message ← decode_client frame;
  match message with
  | ClientMessage.ClientIdentify user_id public_key enrollment =>
      if negb (key_from_bytes (public_key_bytes public_key))
      then refuse ProtocolError.InvalidPublicKey
      else mret (user_id, public_key, enrollment)
  | other =>
      refuse (ProtocolError.UnexpectedMessage ClientMessageKind.ClientIdentify (ClientMessage.kind other))
  end.

Definition receive_signature (user : UserId) (key : Ed25519PublicKeyBytes)
    (challenge : AuthenticationChallenge) (frame : list byte) : ConnM () :=
  message ← decode_client frame;
  match message with
  | ClientMessage.ClientAuthenticationResponse signature =>
      if verify_authentication_signature key user challenge signature then mret tt
      else refuse ProtocolError.AuthenticationFailed
  | other =>
      refuse (ProtocolError.UnexpectedMessage ClientMessageKind.ClientAuthenticationResponse
                (ClientMessage.kind other))
  end.

(** The registration of the identity, in the database and then in the hub. *)
Definition register_identity (user : UserId) (key : Ed25519PublicKeyBytes)
    (enrollment : option (bytes 32)) : ConnM Registration :=
  result ← worker_execute (register_enrolled_identity user key enrollment);
  match result with
  | Err k => raise (IoError k)
  | Ok (Ok registration) => mret registration
  | Ok (Err error) =>
      match error with
      | IdentityKeyConflict => send_protocol_error ProtocolError.IdentityKeyConflict
      | EnrollmentRequired => send_protocol_error ProtocolError.AuthenticationFailed
      | _ => mret tt
      end;;
      raise (StorageFailed error)
  end.

Definition register_session (user : UserId) : ConnM (ConnectionRegistration * Sender) := λ env c,
  match register user (relay_hub c) with
  | (Ok session, hub) => (Ok session, set_hub hub c)
  | (Err k, hub) =>
      (send_protocol_error ProtocolError.AuthenticationFailed;; raise (IoError k)) env (set_hub hub c)
  end.

(** The end of a session: the receiver is dropped, then the registration. *)
Definition drop_session (registration : ConnectionRegistration) (receiver : Sender) (c : Conn) : Conn :=
  set_hub (drop_registration registration (drop_receiver receiver (relay_hub c))) c.

(** What is dropped when [m] returns early with an error. *)
Definition or_drop {A} (cleanup : Conn → Conn) (m : ConnM A) : ConnM A := λ env c,
  match m env c with
  | (Ok a, c) => (Ok a, c)
  | (Err e, c) => (Err e, cleanup c)
  end.

Definition Authenticated : Type := UserId * ConnectionRegistration * Sender.

(** From the verified signature on. *)
Definition finish_authentication (user : UserId) (key : Ed25519PublicKeyBytes)
    (enrollment : option (bytes 32)) : ConnM (option Authenticated) :=
  register_identity user key enrollment;;
  '(registration, receiver) ← register_session user;
  or_drop (drop_session registration receiver)
    (send_message (RelayMessage.ServerIdentifyAccepted user));;
  mret (Some (user, registration, receiver)).

Definition authenticate : ConnM (option Authenticated) :=
  frame ← read_handshake_frame;
  or_disconnected frame (λ frame,
  receive_hello frame;;
  frame ← read_handshake_frame;
  or_disconnected frame (λ frame,
  '(user_id, public_key, enrollment) ← receive_identify frame;
  generated ← ask_conn challenge_bytes_of;
  generated ← lift_conn (ok_or RandomFailed generated);
  let challenge := MkChallenge generated in
  send_message (RelayMessage.ServerAuthenticationChallenge challenge);;
  frame ← read_handshake_frame;
  or_disconnected frame (λ frame,
  receive_signature user_id public_key challenge frame;;
  finish_authentication user_id public_key enrollment))).

(** ** The reader task *)

Inductive InboundEvent :=
| Message (m : ClientMessage.t)
| Disconnected
| InboundError (e : ConnectionError).

(** One turn of the loop of [read_inbound_with_budget]: the first byte of a frame is
    waited for without a deadline and then chained to the rest of the stream. *)
Definition read_inbound (s : stream) : InboundEvent * stream :=
  match read 1 s with
  | (Ok [], s) => (Disconnected, s)
  | (Err k, s) => (InboundError (IoError k), s)
  | (Ok (b :: _), s) =>
      let '(r, s) := default (Err OtherKind, s) (read_frame (Chunk b [] :: s)) in
      (match r with
       | Err k => InboundError (IoError k)
       | Ok None => InboundError (IoError UnexpectedEof)
       | Ok (Some frame) =>
           match decode_message c_client_message frame with
           | Ok m => Message m
           | Err e => InboundError (DecodeFailed e)
           end
       end, s)
  end.

(** The events sent to the session, up to the terminal one. *)
Fixpoint read_inbound_with_budget (fuel : nat) (s : stream) : option (list InboundEvent) :=
  match fuel with
  | O => None
  | S fuel =>
      match read_inbound s with
      | (Message m, s) => (Message m ::.) <$> read_inbound_with_budget fuel s
      | (event, _) => Some [event]
      end
  end.

(** ** The session loop *)

(** [tokio::select!] with [wait_shutdown]: [None] breaks out of the loop. *)
Definition or_break {A} (m : ConnM A) : ConnM (option A) := λ env c,
  match m env c with
  | (Ok a, c) => (Ok (Some a), c)
  | (Err Cancelled, c) => (Ok None, c)
  | (Err e, c) => (Err e, c)
  end.

(** An await outside of any [select!]: nothing interrupts it. *)
Definition uninterrupted {A} (m : ConnM A) : ConnM A := λ env c,
  m (MkConnEnv (config env) (storage_limits env) (storage_env env) (worker env) (instant env)
       (challenge_bytes_of env) (λ _, None)) c.

(** [hub.admit_request(user_id)]. *)
Definition admit_session_request (user : UserId) : ConnM bool := λ env c,
  let '(admitted, r) := rate_admit (config env) (instant env) user (rates c) in
  (Ok admitted, set_rates r c).

Definition is_recovery (request : Request.t) : bool :=
  match request with
  | Request.FetchRoomEvents _ _ | Request.FetchWelcomes _ | Request.SyncIndex _ => true
  | _ => false
  end.

(** [hub.notify] of every active identity when an event was accepted. *)
Definition announce (response : Response.t) : ConnM () :=
  match response with
  | Response.AppendAccepted _ =>
      modify (λ c, set_hub (notify (elements (active_identities (relay_hub c)))
                              RelayMessage.DeliveryChanged (relay_hub c)) c)
  | _ => mret tt
  end.

(** The answer to what came back from the worker. *)
Definition response_of (request : Request.t) (outcome : result ErrorKind (result StorageError Response.t))
    : ConnM Response.t :=
  match outcome with
  | Ok (Ok response) => mret response
  | Ok (Err _) =>
      (if is_recovery request then modify add_failure else mret tt);;
      mret (Response.Rejected Rejection.Internal)
  | Err _ => mret (Response.Rejected Rejection.Overloaded)
  end.

(** The [ClientMessage::Delivery] arm; [false] is [break]. *)
Definition serve_delivery (user : UserId) (request_id : MessageId) (request : Request.t) : ConnM bool :=
  admitted ← admit_session_request user;
  if negb admitted then
    modify add_pressure;;
    uninterrupted (send_message (RelayMessage.Delivery request_id
                                   (Response.Rejected Rejection.Overloaded)));;
    mret true
  else
    limits ← ask_conn storage_limits;
    outcome ← or_break (worker_execute (deliver limits user request_id request));
    match outcome with
    | None => mret false
    | Some outcome =>
        response ← response_of request outcome;
        announce response;;
        encoded ← encode_relay (RelayMessage.Delivery request_id response);
        sent ← or_break (send_frame encoded);
        mret (match sent with Some _ => true | None => false end)
    end.

(** Which branch of the [select!] is taken. *)
Inductive Selected :=
| OnShutdown
| OnInbound (event : option InboundEvent)
| OnOutbound.

Definition session_step (user : UserId) (receiver : Sender) (selected : Selected) : ConnM bool :=
  match selected with
  | OnShutdown => mret false
  | OnInbound None => raise ChannelEnded
  | OnInbound (Some Disconnected) => mret false
  | OnInbound (Some (InboundError e)) => raise e
  | OnInbound (Some (Message (ClientMessage.Delivery request_id request))) =>
      serve_delivery user request_id request
  | OnInbound (Some (Message other)) =>
      uninterrupted (send_protocol_error
        (ProtocolError.UnexpectedMessage ClientMessageKind.Delivery (ClientMessage.kind other)));;
      mret true
  | OnOutbound => λ env c,
      match recv receiver (relay_hub c) with
      | (Received m, hub) =>
          (encoded ← encode_relay m;
           sent ← or_break (send_frame encoded);
           mret (match sent with Some _ => true | None => false end)) env (set_hub hub c)
      | (ChannelClosed, _) => (Err ChannelEnded, c)
      | (Waiting, _) => (Ok true, c)
      end
  end.

(** The loop on the branches it is given; [None] is a session that still runs. *)
Fixpoint serve (user : UserId) (receiver : Sender) (script : list (ConnEnv * Selected)) (c : Conn)
    : option (result ConnectionError ()) * Conn :=
  match script with
  | [] => (None, c)
  | (env, selected) :: script =>
      match session_step user receiver selected env c with
      | (Ok true, c) => serve user receiver script c
      | (Ok false, c) => (Some (Ok tt), c)
      | (Err e, c) => (Some (Err e), c)
      end
  end.

(** [handle_connection]; a handshake that is cut short is cut by the deadline or by
    shutdown. *)
Definition handle_connection (env : ConnEnv) (by_shutdown : bool) (script : list (ConnEnv * Selected))
    (c : Conn) : option (result ConnectionError ()) * Conn :=
  match authenticate env c with
  | (Err Cancelled, c) => (Some (if by_shutdown then Ok tt else Err (IoError TimedOut)), c)
  | (Err e, c) => (Some (Err e), c)
  | (Ok None, c) => (Some (Ok tt), c)
  | (Ok (Some (user, registration, receiver)), c) =>
      match serve user receiver script c with
      | (Some r, c) => (Some r, drop_session registration receiver c)
      | (None, c) => (None, c)
      end
  end.

(** The task of a connection, from the accept loop's [sessions.spawn]: it waits for the
    payload permit of its handshake and for the TLS handshake, each until the deadline or
    shutdown, and then serves the connection. [None] is a task that still runs. *)
Definition connection_task (permit : Waited (result () ())) (tls : Waited (result ErrorKind ()))
    (env : ConnEnv) (by_shutdown : bool) (script : list (ConnEnv * Selected)) (c : Conn)
    : option TaskReport * Conn :=
  match permit with
  | ShutDown => (Some Silent, c)
  | Elapsed | Finished (Err _) => (Some Silent, add_timeout c)
  | Finished (Ok _) =>
      match tls with
      | ShutDown => (Some Silent, c)
      | Elapsed => (Some TlsHandshakeTimedOut, c)
      | Finished (Err k) => (Some (TlsHandshakeFailed k), c)
      | Finished (Ok _) =>
          match handle_connection env by_shutdown script c with
          | (Some (Ok _), c) => (Some Silent, c)
          | (Some (Err e), c) => (Some (ConnectionFailed e), c)
          | (None, c) => (None, c)
          end
      end
  end.
End connection.
