(* ===== verification/RelayInvariant.v ===== *)
(** * What holds of every database the relay can reach

    [relay_step] is one operation of the relay on its database: a delivery, an
    enrollment issued or an identity registered, with any clock, any randomness and
    any failing statement. The invariants below hold initially and every step
    preserves them. *)
From S2P Require Import Prelude Bytes Text Postcard Protocol Wire Identifiers Transcripts.
From S2P Require Import Framing RelayStorage RelayLimits RelayDelivery RelaySpec Enrollment.

Section invariant.
Context `{Postcard} `{Sha256}.

(** ** Steps *)

Inductive relay_step (limits : StorageLimits) (db : RelayDb) : RelayDb → Prop :=
| deliver_step user id request env m r db' m' :
    valid c_request request →
    deliver limits user id request env db m = (r, db', m') →
    relay_step limits db db'
| issue_step user fingerprint env m r db' m' :
    issue_enrollment user fingerprint env db m = (r, db', m') →
    relay_step limits db db'
| register_step user key token env m r db' m' :
    register_enrolled_identity user key token env db m = (r, db', m') →
    relay_step limits db db'.

Definition reachable (limits : StorageLimits) : RelayDb → Prop := rtc (relay_step limits) empty_db.

(** The steps, seen through the specifications of their operations. *)
Lemma relay_step_cases limits db db' :
  relay_step limits db db' →
  db' = db ∨
  (∃ now user id request response db1,
    valid c_request request ∧ effect now user id db request response db1 ∧
    delivery_requests db !! (user, id) = None ∧
    is_durable request = true ∧ is_transient response = false ∧
    (is_receipt request = false → within_limits limits user request db) ∧
    (is_receipt request = true → response = Response.Acknowledged) ∧
    len (put c_response response) ≤ MAX_PAYLOAD ∧
    db' = save_tables user id request response db1) ∨
  (∃ hash row, enrollment_tokens db !! hash = None ∧ consumed row = false ∧
    db' = set_tokens <[hash := row]> db) ∨
  (∃ now user key token, registered now user key token db db').
Proof.
  destruct 1 as [user id request env m r db' m' Hv E|user fp env m r db' m' E|user key token env m r db' m' E].
  - apply deliver_outcome in E. destruct r as [response|e]; simpl in E; [|by left].
    destruct E as [_ [| | | |d' Hp]]; try (by left).
    destruct Hp as [db1 Hj Heff Hd Ht Hl Hrec _ Hlen|]; [|by left]. right; left.
    exists (now env), user, id, request, response, db1. split_and!; try done.
    intros Hr. by apply Hrec in Hr as [_ ?].
  - apply issue_outcome in E as [[-> _]|(token & _ & _ & Hn & ->)]; [by left|].
    right; right; left. eexists _, (MkTokenRow user fp (now env + 86400) false). by split_and!.
  - apply register_outcome in E as [->|[_ Hr]]; [by left|]. right; right; right. eauto.
Qed.

(** Two databases with the same rooms, logs, Welcomes, packages and grants; they may
    differ in the ledgers, the journal, the tokens and the identities. *)
Record same_data (db db' : RelayDb) : Prop := {
  same_rooms : rooms db' = rooms db;
  same_subscribers : room_subscribers db' = room_subscribers db;
  same_packages : key_packages db' = key_packages db;
  same_events : delivery_events db' = delivery_events db;
  same_welcomes : delivery_welcomes db' = delivery_welcomes db;
  same_autoincrement : welcome_autoincrement db' = welcome_autoincrement db;
  same_grants : fetch_grants db' = fetch_grants db;
  same_allocations : package_allocations db' = package_allocations db;
}.

#[export] Instance same_data_equivalence : Equivalence same_data.
Proof.
  split.
  - by constructor.
  - intros x y []. by constructor.
  - intros x y z [] []. constructor; congruence.
Qed.

Lemma save_tables_same user id request response db :
  same_data db (save_tables user id request response db).
Proof. destruct request; by constructor. Qed.

(** An invariant of the data is preserved by every step if every effect preserves
    it. *)
Lemma step_preserves (I : RelayDb → Prop) `{!Proper (same_data ==> impl) I} limits :
  (∀ now user id request response db db',
     valid c_request request → effect now user id db request response db' → I db → I db') →
  ∀ db db', relay_step limits db db' → I db → I db'.
Proof.
  intros He db db' Hs HI. apply relay_step_cases in Hs as
    [->|[(now & user & id & req & resp & db1 & Hv & Heff & _ & _ & _ & _ & _ & _ & ->)
        |[(h & row & _ & _ & ->)|(now & user & key & token & t & row & _ & _ & _ & _ & ->)]]].
  - done.
  - rewrite <- save_tables_same. by eapply He.
  - assert (same_data db (set_tokens <[h := row]> db)) as <- by done. done.
  - match goal with |- I ?d => assert (same_data db d) as <- by done end. done.
Qed.

Lemma reachable_invariant (I : RelayDb → Prop) limits :
  I empty_db → (∀ db db', relay_step limits db db' → I db → I db') →
  ∀ db, reachable limits db → I db.
Proof.
  intros Hinit Hs db Hr. unfold reachable in Hr. remember empty_db as d eqn:Hd.
  assert (I d) as Hi by (by subst). clear Hd. induction Hr; eauto.
Qed.

(** ** The room logs *)

Definition event_row_ok (row : EventRow) : Prop :=
  ∃ op, valid c_append op ∧ append_invalid op = false ∧
        row = event_row (event_sender row) (event_id row) op.

Record log_inv (db : RelayDb) : Prop := {
  log_sequences room :
    event_sequence <$> room_events room db = seqZ 1 (len (room_events room db));
  log_ids : NoDup (event_id <$> delivery_events db);
  log_rows : Forall event_row_ok (delivery_events db);
}.

Lemma sql_max_snoc l z : 
  sql_max (l ++ [z]) = Some (match sql_max l with Some m => Z.max m z | None => z end).
Proof. destruct l as [|a l]; simpl; [done|]. by rewrite foldl_app. Qed.

Lemma sql_max_seqZ n : sql_max (seqZ 1 (Z.of_nat (S n))) = Some (Z.of_nat (S n)).
Proof.
  induction n as [|n IH]; [done|]. rewrite seqZ_S, sql_max_snoc, IH. f_equal. lia.
Qed.

(** The head of a room is the number of its events. *)
Lemma head_of_len room db : log_inv db → head_of room db = len (room_events room db).
Proof.
  intros Hl. unfold head_of. rewrite (log_sequences db Hl). unfold len.
  destruct (length (room_events room db)) as [|n]; [done|]. by rewrite sql_max_seqZ.
Qed.

Lemma room_events_snoc room row db :
  room_events room (set_events (λ l, l ++ [row]) db) =
  room_events room db ++ if decide (event_room row = room) then [row] else [].
Proof.
  unfold room_events. simpl. by rewrite filter_app.
Qed.

Lemma append_effect_events user id op db db' :
  append_effect user id op db db' →
  delivery_events db' = delivery_events db ++ [event_row user id op].
Proof. by destruct 1. Qed.

Lemma room_events_ext room db db' :
  delivery_events db' = delivery_events db → room_events room db' = room_events room db.
Proof. unfold room_events. by intros ->. Qed.

Lemma log_inv_ext db db' : delivery_events db' = delivery_events db → log_inv db → log_inv db'.
Proof.
  intros He [Hs Hi Hr]. constructor; [|by rewrite He..].
  intros room. by rewrite (room_events_ext _ _ _ He).
Qed.

#[local] Instance log_inv_proper : Proper (same_data ==> impl) log_inv.
Proof. intros x y Hs Hx. exact (log_inv_ext x y (same_events x y Hs) Hx). Qed.

Lemma log_inv_append user id op db :
  valid c_append op → append_invalid op = false →
  head_of (Append.room op) db = Append.parent op →
  Forall (λ e, event_id e ≠ id) (delivery_events db) →
  log_inv db → log_inv (set_events (λ l, l ++ [event_row user id op]) db).
Proof.
  intros Hv Hi Hh Hid Hlog. rewrite (head_of_len _ _ Hlog) in Hh.
  destruct Hlog as [Hs Hn Hr]. constructor.
  - intros room. rewrite room_events_snoc. case_decide as Hroom; simpl in Hroom.
    + subst room. rewrite fmap_app, Hs, len_app. cbn [fmap list_fmap event_row event_sequence].
      rewrite seqZ_app by auto using len_nonneg, Z.le_0_1. rewrite <- Hh. f_equal.
      change (len [event_row user id op]) with 1. rewrite seqZ_cons by lia. simpl.
      rewrite seqZ_nil by lia. f_equal. lia.
    + by rewrite app_nil_r.
  - simpl. rewrite fmap_app. apply NoDup_app. split_and!; [done| |apply NoDup_singleton].
    intros x Hx Hx'. simpl in Hx'. apply list_elem_of_singleton in Hx' as ->.
    apply list_elem_of_fmap in Hx as (e & -> & He). rewrite Forall_forall in Hid. by apply (Hid e).
  - simpl. apply Forall_app. split; [done|]. apply Forall_singleton. by exists op.
Qed.

Lemma effect_events now user id db request response db' :
  effect now user id db request response db' →
  delivery_events db' = delivery_events db ∨
  ∃ op, request = Request.AppendRoomOperation op ∧ delivery_events db' = delivery_events db ++ [event_row user id op] ∧
    response = Response.AppendAccepted (Event.Mk id user op) ∧
    append_invalid op = false ∧ head_of (Append.room op) db = Append.parent op ∧
    Forall (λ e, event_id e ≠ id) (delivery_events db).
Proof.
  destruct 1; try (by left). right. eexists. split_and!; try done. by eapply append_effect_events.
Qed.

Lemma log_inv_effect now user id request response db db' :
  valid c_request request → effect now user id db request response db' → log_inv db → log_inv db'.
Proof.
  intros Hv Heff Hl. apply effect_events in Heff as [He|(op & -> & He & _ & Hi & Hh & Hid)].
  - by eapply log_inv_ext.
  - apply (log_inv_ext (set_events (λ l, l ++ [event_row user id op]) db)); [done|].
    by apply log_inv_append.
Qed.

Lemma log_row_bound db e : log_inv db → e ∈ delivery_events db → 1 ≤ event_sequence e ≤ i64_max.
Proof.
  intros [Hs Hn Hr] He. rewrite Forall_forall in Hr. destruct (Hr e He) as (op & Hv & Hi & ->).
  destruct op as [room parent epoch ct body welcome].
  destruct Hv as (((((_ & Hp) & _) & _) & _) & _). simpl in *.
  unfold append_invalid in Hi. simpl in Hi. reflect_bools. lia.
Qed.

Lemma head_of_bound room db : log_inv db → 0 ≤ head_of room db ≤ i64_max.
Proof.
  intros Hl. rewrite (head_of_len room db Hl). pose proof (log_sequences db Hl room) as Hs.
  split; [apply len_nonneg|]. unfold len in *.
  destruct (length (room_events room db)) as [|n] eqn:Hlen; [by vm_compute|].
  assert (Z.of_nat (S n) ∈ seqZ 1 (Z.of_nat (S n))) as Hin by (apply elem_of_seqZ; lia).
  rewrite <- Hs in Hin. apply list_elem_of_fmap in Hin as (e & -> & He).
  unfold room_events in He. apply list_elem_of_filter in He as [_ He].
  by apply (log_row_bound db).
Qed.

(** ** Rooms and their subscribers *)

Record membership_inv (db : RelayDb) : Prop := {
  subscribers_rooms room user : (room, user) ∈ room_subscribers db → is_Some (rooms db !! room);
  room_names room r : rooms db !! room = Some r → normalize_room_name (name r) = Ok (name r);
  senders_subscribed :
    Forall (λ e, (event_room e, event_sender e) ∈ room_subscribers db) (delivery_events db);
}.

Lemma membership_inv_ext db db' :
  rooms db' = rooms db → room_subscribers db' = room_subscribers db →
  delivery_events db' = delivery_events db → membership_inv db → membership_inv db'.
Proof. intros Hr Hs He [H1 H2 H3]. constructor; by rewrite ?Hr, ?Hs, ?He. Qed.

#[local] Instance membership_inv_proper : Proper (same_data ==> impl) membership_inv.
Proof. intros x y [] ?. by apply (membership_inv_ext x). Qed.

Lemma normalize_idemp n m : normalize_room_name n = Ok m → normalize_room_name m = Ok m.
Proof.
  unfold normalize_room_name. case_decide; [done|]. case_decide; [done|].
  destruct (existsb _ _) eqn:Hc; [done|]. intros [= <-]. rewrite trim_idemp.
  rewrite !decide_False by done. by rewrite Hc.
Qed.

Lemma senders_weaken db s :
  room_subscribers db ⊆ s →
  Forall (λ e, (event_room e, event_sender e) ∈ room_subscribers db) (delivery_events db) →
  Forall (λ e, (event_room e, event_sender e) ∈ s) (delivery_events db).
Proof. intros Hs Hf. eapply Forall_impl; [exact Hf|]. set_solver. Qed.

Lemma membership_inv_effect now user id request response db db' :
  valid c_request request → effect now user id db request response db' →
  membership_inv db → membership_inv db'.
Proof.
  intros _ Heff Hm. destruct Heff as [| | |name n room Hn Hfresh _|p _ _|req|req|rec row|op db' Hsub Hi Hh Hid _ Ha];
    try (by apply (membership_inv_ext db)).
  - destruct Hm as [H1 H2 H3]. constructor; simpl.
    + intros room' user' Hin. destruct (decide (room' = room)) as [->|Hne].
      * rewrite lookup_insert_eq. eauto.
      * rewrite lookup_insert_ne by done. apply (H1 room' user').
        by apply elem_of_union in Hin as [[= -> ->]%elem_of_singleton|?].
    + intros room' r. destruct (decide (room' = room)) as [->|Hne].
      * rewrite lookup_insert_eq. intros [= <-]. simpl. by eapply normalize_idemp.
      * rewrite lookup_insert_ne by done. apply H2.
    + apply senders_weaken; [set_solver|done].
  - destruct Hm as [H1 H2 H3].
    destruct Ha as [Hw|w r Hw Hr Haut]; constructor; simpl; try done.
    + apply Forall_app. split; [done|]. by apply Forall_singleton.
    + intros room' user' [[= -> ->]%elem_of_singleton|Hin]%elem_of_union; eauto.
    + apply Forall_app. split; [apply senders_weaken; [set_solver|done]|].
      apply Forall_singleton. simpl. set_solver.
Qed.

(** ** Welcomes *)

(** The Welcome of an accepted event, stored for its recipient, who is a subscriber
    of the room. *)
Definition welcome_row_ok (db : RelayDb) (row : WelcomeRow) : Prop :=
  ∃ user id op w n,
    event_row user id op ∈ delivery_events db ∧ Append.welcome op = Some w ∧
    valid c_append op ∧ append_invalid op = false ∧ str_len n ≤ 400 ∧
    welcome_recipient row = WelcomeAttachment.recipient w ∧
    (Append.room op, WelcomeAttachment.recipient w) ∈ room_subscribers db ∧
    welcome_record row = put c_welcome_delivery (welcome_delivery user id op n w).

(** Every stored event that carries a Welcome has its row. *)
Definition welcome_stored (db : RelayDb) (user : UserId) (id : MessageId) (op : Append.t) : Prop :=
  match Append.welcome op with
  | Some w => ∃ row n, row ∈ delivery_welcomes db ∧
      welcome_recipient row = WelcomeAttachment.recipient w ∧
      welcome_record row = put c_welcome_delivery (welcome_delivery user id op n w)
  | None => True
  end.

Record welcome_inv (db : RelayDb) : Prop := {
  welcome_cursors : StronglySorted Z.lt (welcome_cursor <$> delivery_welcomes db);
  welcome_range :
    Forall (λ w, 1 ≤ welcome_cursor w ≤ welcome_autoincrement db) (delivery_welcomes db);
  autoincrement_range : 0 ≤ welcome_autoincrement db ≤ i64_max;
  welcome_rows : Forall (welcome_row_ok db) (delivery_welcomes db);
  welcomes_complete user id op :
    valid c_append op → event_row user id op ∈ delivery_events db → welcome_stored db user id op;
}.

Lemma welcome_row_ok_mono db db' row :
  delivery_events db ⊆ delivery_events db' → room_subscribers db ⊆ room_subscribers db' →
  welcome_row_ok db row → welcome_row_ok db' row.
Proof.
  intros He Hs (user & id & op & w & n & H1 & H2 & H3 & H4 & H5 & H6 & H7 & H8).
  exists user, id, op, w, n. split_and!; try done; [by apply He|by apply Hs].
Qed.

Lemma welcome_inv_ext db db' :
  delivery_events db' = delivery_events db → delivery_welcomes db' = delivery_welcomes db →
  welcome_autoincrement db' = welcome_autoincrement db →
  room_subscribers db ⊆ room_subscribers db' → welcome_inv db → welcome_inv db'.
Proof.
  intros He Hw Ha Hs [H1 H2 H3 H4 H5].
  constructor; rewrite ?Hw, ?Ha; try done.
  - eapply Forall_impl; [exact H4|]. intros row. by apply welcome_row_ok_mono; [rewrite He|].
  - intros user id op Hv Hin. rewrite He in Hin. specialize (H5 user id op Hv Hin).
    unfold welcome_stored in *. by rewrite Hw.
Qed.

#[local] Instance welcome_inv_proper : Proper (same_data ==> impl) welcome_inv.
Proof. intros x y [] ?. apply (welcome_inv_ext x); try done. by rewrite same_subscribers0. Qed.

(** A row of the log determines the operation it was made from. *)
Lemma event_row_inj u1 i1 o1 u2 i2 o2 :
  valid c_append o1 → valid c_append o2 →
  event_row u1 i1 o1 = event_row u2 i2 o2 → u1 = u2 ∧ i1 = i2 ∧ o1 = o2.
Proof.
  intros V1 V2 E. apply (f_equal event_record) in E. simpl in E.
  assert (valid c_event (Event.Mk i1 u1 o1)) as W1 by done.
  assert (valid c_event (Event.Mk i2 u2 o2)) as W2 by done.
  pose proof (get_put c_event _ [] W1) as G1. pose proof (get_put c_event _ [] W2) as G2.
  change (put c_event (Event.Mk i1 u1 o1) = put c_event (Event.Mk i2 u2 o2)) in E.
  rewrite E in G1. rewrite G1 in G2. by injection G2 as -> -> ->.
Qed.

Lemma normalized_name_fits n : normalize_room_name n = Ok n → str_len n ≤ 400.
Proof.
  unfold normalize_room_name. case_decide; [done|]. case_decide as Hl; [done|].
  case_match; [done|]. intros [= Hn]. rewrite Hn in Hl. pose proof (str_len_bound n).
  unfold MAX_ROOM_NAME_CHARS in *. lia.
Qed.

Lemma welcome_inv_append user id op db db' :
  valid c_append op → append_invalid op = false → membership_inv db →
  append_effect user id op db db' → welcome_inv db → welcome_inv db'.
Proof.
  intros Hv Hi Hm Ha [H1 H2 H3 H4 H5].
  destruct Ha as [Hw|w r Hw Hr Haut]; constructor; simpl; try done.
  - eapply Forall_impl; [exact H4|]. intros row. apply welcome_row_ok_mono; [|done].
    apply subset_snoc.
  - intros u i o Vo [Hin|Hin]%elem_of_app; [by apply H5|].
    apply list_elem_of_singleton, event_row_inj in Hin as (-> & -> & ->); [|done..].
    unfold welcome_stored. by rewrite Hw.
  - rewrite fmap_app. apply increasing_snoc; [done|]. apply Forall_fmap.
    eapply Forall_impl; [exact H2|]. intros row. simpl. lia.
  - apply Forall_app. split; [|apply Forall_singleton; simpl; lia].
    eapply Forall_impl; [exact H2|]. intros row. simpl. lia.
  - lia.
  - apply Forall_app. split.
    + eapply Forall_impl; [exact H4|]. intros row.
      apply welcome_row_ok_mono; [apply subset_snoc|apply union_subseteq_r].
    + apply Forall_singleton. exists user, id, op, w, (name r).
      pose proof (normalized_name_fits _ (room_names db Hm _ _ Hr)).
      split_and!; try done; [apply elem_snoc|by apply elem_of_union_l, elem_of_singleton].
  - intros u i o Vo [Hin|Hin]%elem_of_app.
    + specialize (H5 u i o Vo Hin). unfold welcome_stored in *. destruct (Append.welcome o); [|done].
      destruct H5 as (row & n & ? & ? & ?). exists row, n. split_and!; [|done..].
      apply elem_of_app. by left.
    + apply list_elem_of_singleton, event_row_inj in Hin as (-> & -> & ->); [|done..].
      unfold welcome_stored. rewrite Hw. eexists _, (name r). split_and!; [apply elem_snoc|done..].
Qed.

Lemma welcome_inv_effect now user id request response db db' :
  valid c_request request → effect now user id db request response db' →
  membership_inv db → welcome_inv db → welcome_inv db'.
Proof.
  intros Hv Heff Hm Hw. destruct Heff; 
    try (apply (welcome_inv_ext db); [done|done|done|reflexivity|done]).
  - apply (welcome_inv_ext db); try done. apply union_subseteq_r.
  - by apply (welcome_inv_append user id op db).
Qed.

(** ** Key packages *)

Record package_inv (db : RelayDb) : Prop := {
  package_rowids : StronglySorted Z.lt (rowid <$> key_packages db);
  package_sizes :
    Forall (λ p, key_package p ≠ [] ∧ len (key_package p) ≤ MAX_KEY_PACKAGE_BYTES)
      (key_packages db);
  package_pool user : len (packages_of user db) ≤ 64;
}.

Lemma package_inv_ext db db' : key_packages db' = key_packages db → package_inv db → package_inv db'.
Proof. intros Hk [H1 H2 H3]. constructor; unfold packages_of in *; by rewrite Hk. Qed.

(** The greatest of an increasing list is above every element. *)
Lemma sql_max_above l z : z ∈ l → z ≤ default 0 (sql_max l).
Proof.
  intros Hz. destruct l as [|a l]; [by apply not_elem_of_nil in Hz|]. simpl.
  assert (∀ l a, a ≤ foldl Z.max a l) as Hge.
  { clear. intros l. induction l as [|b l IH]; intros a; simpl; [lia|].
    specialize (IH (Z.max a b)). lia. }
  revert a Hz. induction l as [|b l IH]; intros a Hz; simpl.
  - apply list_elem_of_singleton in Hz. lia.
  - apply elem_of_cons in Hz as [->|Hz]; [pose proof (Hge l (Z.max a b)); lia|].
    apply elem_of_cons in Hz as [->|Hz]; [pose proof (Hge l (Z.max a b)); lia|].
    apply (IH (Z.max a b)). apply elem_of_cons. by right.
Qed.

Lemma package_rows_sorted db t user packages row :
  StronglySorted Z.lt (rowid <$> key_packages db) →
  Forall (λ p, rowid p < row) (key_packages db) →
  StronglySorted Z.lt (rowid <$> key_packages db ++ package_rows row t user packages).
Proof.
  revert row. generalize (key_packages db) as l. induction packages as [|p packages IH];
    intros l row Hs Hf; simpl; [by rewrite app_nil_r|].
  rewrite cons_middle, (assoc_L (++)). apply IH.
  - rewrite fmap_app. apply increasing_snoc; [done|]. by apply Forall_fmap.
  - apply Forall_app. split; [|apply Forall_singleton; simpl; lia].
    eapply Forall_impl; [exact Hf|]. intros q. simpl. lia.
Qed.

Lemma package_rows_user row t user packages :
  Forall (λ p, package_user p = user) (package_rows row t user packages).
Proof. revert row. induction packages; intros row; simpl; constructor; auto. Qed.

Lemma length_package_rows row t user packages :
  length (package_rows row t user packages) = length packages.
Proof. revert row. induction packages; intros row; simpl; auto. Qed.

Lemma package_rows_sizes row t user packages :
  packages_invalid packages = false →
  Forall (λ p, key_package p ≠ [] ∧ len (key_package p) ≤ MAX_KEY_PACKAGE_BYTES)
    (package_rows row t user packages).
Proof.
  unfold packages_invalid. intros Hp. reflect_bools.
  match goal with H : existsb _ _ = false |- _ => rename H into Hex end. clear - Hex.
  revert row. induction packages as [|p packages IH]; intros row; simpl; constructor.
  - simpl in Hex. reflect_bools. simpl. split; [done|lia].
  - simpl in Hex. reflect_bools. by apply IH.
Qed.

Lemma packages_of_publish user' row t user packages db :
  packages_of user' (set_packages (λ l, l ++ package_rows row t user packages) db) =
  packages_of user' db ++ if decide (user = user') then package_rows row t user packages else [].
Proof.
  unfold packages_of. simpl. rewrite filter_app. f_equal.
  pose proof (package_rows_user row t user packages) as Hu. case_decide as Hd.
  - subst. by apply filter_all.
  - apply filter_none. eapply Forall_impl; [exact Hu|]. simpl. congruence.
Qed.

Lemma packages_of_remove user' row db :
  packages_of user' (set_packages (filter (λ p, rowid p ≠ row)) db) =
  filter (λ p, rowid p ≠ row) (packages_of user' db).
Proof. unfold packages_of. simpl. rewrite !list_filter_filter. apply list_filter_iff. intros p. tauto. Qed.

Lemma package_inv_effect now user id request response db db' :
  effect now user id db request response db' → package_inv db → package_inv db'.
Proof.
  intros Heff Hp. destruct Heff as [| | |name n room _ _ _|packages Hv Hc|req|req|rec row _ _ _ _|op db' _ _ _ _ _ Ha];
    try (by apply (package_inv_ext db)).
  - destruct Hp as [H1 H2 H3]. constructor.
    + simpl. apply package_rows_sorted; [done|]. apply Forall_forall. intros p Hp.
      pose proof (sql_max_above (rowid <$> key_packages db) (rowid p)) as Hm.
      unfold last_rowid. apply Z.lt_succ_r, Hm. by apply list_elem_of_fmap_2.
    + simpl. apply Forall_app. split; [done|by apply package_rows_sizes].
    + intros u. rewrite packages_of_publish, len_app. specialize (H3 u).
      case_decide; subst; [|rewrite len_nil; lia]. unfold len in *. rewrite length_package_rows. lia.
  - destruct Hp as [H1 H2 H3]. constructor; simpl.
    + by apply increasing_filter.
    + by apply Forall_filter.
    + intros u. specialize (H3 u). change (packages_of u (set_allocations _ ?d)) with (packages_of u d).
      rewrite packages_of_remove. unfold len in *.
      pose proof (length_filter (λ p, rowid p ≠ rowid row) (packages_of u db)). lia.
  - apply (package_inv_ext db); [by destruct Ha|done].
Qed.

(** ** Together *)

Record data_inv (db : RelayDb) : Prop := {
  data_log : log_inv db;
  data_membership : membership_inv db;
  data_welcomes : welcome_inv db;
  data_packages : package_inv db;
}.

#[local] Instance data_inv_proper : Proper (same_data ==> impl) data_inv.
Proof.
  intros x y Hs [H1 H2 H3 H4]. constructor; [by rewrite <- Hs..|].
  apply (package_inv_ext x); [apply Hs|done].
Qed.

Lemma data_inv_effect now user id request response db db' :
  valid c_request request → effect now user id db request response db' → data_inv db → data_inv db'.
Proof.
  intros Hv Heff [H1 H2 H3 H4]. constructor;
    eauto using log_inv_effect, membership_inv_effect, welcome_inv_effect, package_inv_effect.
Qed.

Lemma data_inv_empty : data_inv empty_db.
Proof.
  constructor; constructor; simpl; try done; try constructor; try set_solver; by vm_compute.
Qed.

Lemma data_inv_step limits db db' : relay_step limits db db' → data_inv db → data_inv db'.
Proof. apply (step_preserves data_inv). exact data_inv_effect. Qed.

Lemma data_inv_reachable limits db : reachable limits db → data_inv db.
Proof. apply reachable_invariant; [apply data_inv_empty|apply data_inv_step]. Qed.

(** ** The journal *)

Definition journal_row_ok (db : RelayDb) (key : UserId * MessageId) (row : JournalRow) : Prop :=
  ∃ request response,
    valid c_request request ∧ valid c_response response ∧
    row = MkJournalRow (sha256 (put c_request request)) (put c_response response) ∧
    len (put c_response response) ≤ MAX_PAYLOAD ∧ is_transient response = false ∧
    match response with
    | Response.AppendAccepted event =>
        request = Request.AppendRoomOperation (Event.operation event) ∧
        event = Event.Mk key.2 key.1 (Event.operation event) ∧
        event_row key.1 key.2 (Event.operation event) ∈ delivery_events db
    | Response.HeadConflict room _ => (room, key.1) ∈ room_subscribers db
    | Response.RoomEvents _ _ _ _ | Response.SyncIndex _ _ | Response.Welcomes _ _ _ => False
    | _ => True
    end.

Definition journal_inv (db : RelayDb) : Prop :=
  ∀ key row, delivery_requests db !! key = Some row → journal_row_ok db key row.

Lemma journal_row_ok_mono db db' key row :
  delivery_events db ⊆ delivery_events db' → room_subscribers db ⊆ room_subscribers db' →
  journal_row_ok db key row → journal_row_ok db' key row.
Proof.
  intros He Hs (req & resp & H1 & H2 & H3 & H4 & H5 & H6). exists req, resp. split_and!; try done.
  destruct resp; try done; [|by apply Hs].
  destruct H6 as (? & ? & ?). split_and!; [done|done|by apply He].
Qed.

Lemma first_package_elem user db row :
  first_package user db = Some row → row ∈ key_packages db ∧ package_user row = user.
Proof.
  unfold first_package. intros Hh. apply head_Some_elem_of in Hh.
  rewrite merge_sort_Permutation in Hh. unfold packages_of in Hh.
  by apply list_elem_of_filter in Hh as [? ?].
Qed.

(** Every response that is saved can be decoded again. *)
Lemma effect_response_valid now user id request response db db' :
  valid c_request request → data_inv db → effect now user id db request response db' →
  is_durable request = true → (is_receipt request = true → response = Response.Acknowledged) →
  valid c_response response.
Proof.
  intros Hv Hd Heff Hdur Hrec.
  destruct Heff as [| request r Hr|op|name n room _ _ _|packages Hp Hc|req|req
                    |rec row _ _ _ Hrow|op db' _ _ _ _ _ _]; try done.
  - assert (is_receipt request = true) as Hreceipt by (by destruct request).
    by rewrite (Hrec Hreceipt).
  - pose proof (head_of_bound (Append.room op) db (data_log db Hd)). split; [done|].
    simpl. unfold i64_max, u64_max in *. lia.
  - destruct Hv as [Hl _]. simpl. pose proof (len_nonneg packages). unfold u64_max. lia.
  - apply first_package_elem in Hrow as [Hrow _]. pose proof (package_sizes db (data_packages db Hd)) as Hs.
    rewrite Forall_forall in Hs. destruct (Hs row Hrow) as [_ Hlen]. split; [done|].
    split; [done|by apply Forall_true].
Qed.

Lemma effect_events_grow now user id request response db db' :
  effect now user id db request response db' → delivery_events db ⊆ delivery_events db'.
Proof.
  intros Heff. apply effect_events in Heff as [->|(op & _ & -> & _)]; [done|apply subset_snoc].
Qed.

Lemma effect_subscribers_grow now user id request response db db' :
  effect now user id db request response db' → room_subscribers db ⊆ room_subscribers db'.
Proof.
  destruct 1; try done; simpl; [apply union_subseteq_r|].
  match goal with H : append_effect _ _ _ _ _ |- _ => destruct H end; [done|apply union_subseteq_r].
Qed.

Lemma save_tables_requests user id request response db :
  delivery_requests (save_tables user id request response db) =
  <[(user, id) := MkJournalRow (sha256 (put c_request request)) (put c_response response)]>
    (delivery_requests db).
Proof. by destruct request. Qed.

Lemma journal_inv_step limits db db' :
  relay_step limits db db' → data_inv db → journal_inv db → journal_inv db'.
Proof.
  intros Hs Hd Hj. apply relay_step_cases in Hs as
    [->|[(now & user & id & req & resp & db1 & Hv & Heff & Hfresh & Hdur & Ht & _ & Hrec & Hlen & ->)
        |[(h & row & _ & _ & ->)|(now & user & key & token & t & row & _ & _ & _ & _ & ->)]]];
    [done| |done..].
  intros key row. rewrite save_tables_requests, (effect_requests _ _ _ _ _ _ _ Heff).
  destruct (save_tables_same user id req resp db1) as [_ Hsub _ Hev _ _ _ _].
  pose proof (effect_events_grow _ _ _ _ _ _ _ Heff) as Hgrow.
  pose proof (effect_subscribers_grow _ _ _ _ _ _ _ Heff) as Hgrows.
  destruct (decide (key = (user, id))) as [->|Hne].
  - rewrite lookup_insert_eq. intros [= <-]. exists req, resp.
    split_and!; try done; [by eapply effect_response_valid|].
    rewrite Hsub, Hev.
    inversion Heff as [|? ? Hreads|? Hin| | | | | |? ? ? ? ? ? ? Ha]; subst; try done.
    + by rewrite Hrec by (by destruct req).
    + simpl. split_and!; [done|done|]. rewrite (append_effect_events _ _ _ _ _ Ha). apply elem_snoc.
  - rewrite lookup_insert_ne by done. intros Hk.
    apply (journal_row_ok_mono db); [by rewrite Hev|by rewrite Hsub|by apply Hj].
Qed.
End invariant.
