(* ===== verification/Sizes.v ===== *)
(** * Encoded sizes

    Upper bounds on the serialized size of the records the relay stores and of the
    responses it builds from them. *)
From S2P Require Import Prelude Bytes Text Postcard Protocol Wire.

Section sizes.
Context `{Postcard}.

Lemma len_put_user u : len (put c_user_id u) = 16.
Proof. exact (len_vec (user_bytes u)). Qed.
Lemma len_put_room r : len (put c_room_id r) = 16.
Proof. exact (len_vec (room_bytes r)). Qed.
Lemma len_put_message i : len (put c_message_id i) = 16.
Proof. exact (len_vec (message_bytes i)). Qed.
Lemma len_put_signature s : len (put c_signature s) = 64.
Proof. exact (len_vec (signature_bytes s)). Qed.

Lemma len_put_content_type t : 1 ≤ len (put c_content_type t) ≤ 1.
Proof. apply (varint_length W32); [lia|]. by destruct t. Qed.

Lemma len_put_body v :
  len v ≤ 512 * 1024 → len v + 1 ≤ len (put c_body v) ≤ len v + 3.
Proof.
  intros Hv. unfold c_body. rewrite len_put_bytes. pose proof (len_nonneg v).
  pose proof (varint_length W64 (len v) 3). lia.
Qed.

Lemma len_put_name s : str_len s ≤ 400 → len (put c_name s) ≤ str_len s + 2.
Proof.
  intros Hs. cbn [put c_name]. unfold put_string. rewrite len_app. pose proof (str_len_nonneg s).
  pose proof (varint_length W64 (str_len s) 2). unfold str_len in *. lia.
Qed.

Lemma len_put_attachment w :
  valid c_welcome_attachment w →
  len (put c_welcome_attachment w) ≤ len (WelcomeAttachment.body w) + 83.
Proof.
  destruct w as [r b s]. intros ((_ & Hb & _) & _). simpl in Hb.
  change (len ((put c_user_id r ++ put c_body b) ++ put c_signature s) ≤ len b + 83).
  rewrite !len_app, len_put_user, len_put_signature. pose proof (len_put_body b Hb). lia.
Qed.

(** The body of the Welcome, if any. *)
Definition welcome_len (op : Append.t) : Z :=
  match Append.welcome op with Some w => len (WelcomeAttachment.body w) | None => 0 end.

Lemma len_put_append op :
  valid c_append op →
  len (put c_append op) ≤ len (Append.body op) + welcome_len op + 124.
Proof.
  destruct op as [r p e t b w]. intros (((((_ & Hp) & He) & _) & Hb & _) & Hw).
  change (len (((((put c_room_id r ++ put c_u64 p) ++ put c_u64 e) ++ put c_content_type t)
    ++ put c_body b) ++ put (c_option c_welcome_attachment) w) ≤
    len b + welcome_len (Append.Mk r p e t b w) + 124).
  rewrite !len_app, len_put_room.
  pose proof (len_put_u64 p Hp). pose proof (len_put_u64 e He).
  pose proof (len_put_content_type t). pose proof (len_put_body b Hb).
  assert (len (put (c_option c_welcome_attachment) w) ≤ welcome_len (Append.Mk r p e t b w) + 84).
  { destruct w as [w|]; unfold welcome_len; cbn [put c_option put_option Append.welcome].
    - rewrite len_app, option_tag_length. pose proof (len_put_attachment w Hw). lia.
    - rewrite option_tag_length. lia. }
  lia.
Qed.

Lemma len_put_event e :
  valid c_event e →
  len (put c_event e) ≤
    len (Append.body (Event.operation e)) + welcome_len (Event.operation e) + 156.
Proof.
  destruct e as [i u op]. intros (_ & Hop). cbn [Event.operation].
  change (put c_event (Event.Mk i u op))
    with ((put c_message_id i ++ put c_user_id u) ++ put c_append op).
  rewrite !len_app, len_put_message, len_put_user. pose proof (len_put_append op Hop). lia.
Qed.

Lemma len_put_welcome w :
  valid c_welcome_delivery w →
  len (put c_welcome_delivery w) ≤
    len (WelcomeAttachment.body (WelcomeDelivery.attachment w)) + 553.
Proof.
  destruct w as [n c i r s u a]. intros ((((((Hn & Hc) & _) & _) & Hs) & _) & Ha). cbn [WelcomeDelivery.attachment].
  change (len ((((((put c_name n ++ put c_u64 c) ++ put c_message_id i) ++ put c_room_id r)
    ++ put c_u64 s) ++ put c_user_id u) ++ put c_welcome_attachment a) ≤
    len (WelcomeAttachment.body a) + 553).
  rewrite !len_app, len_put_message, len_put_room, len_put_user.
  pose proof (len_put_name n Hn). simpl in Hn. pose proof (len_put_u64 c Hc). pose proof (len_put_u64 s Hs).
  pose proof (len_put_attachment a Ha). lia.
Qed.

(** A bounded collection is its length prefix and its elements. *)
Lemma len_put_bounded {A} N HN (c : codec A) v :
  len v < 128 →
  len (put (c_bounded N HN c) v) = len (put_varint W64 (len v)) + foldr Z.add 0 ((λ a, len (put c a)) <$> v)
  ∧ len (put_varint W64 (len v)) = 1.
Proof.
  intros Hv. pose proof (len_nonneg v). pose proof (varint_length W64 (len v) 1). split; [|lia].
  cbn [put c_bounded]. unfold put_vec. rewrite len_app. f_equal.
  clear. induction v as [|a v IH]; [done|]. rewrite bind_cons, len_app, IH. done.
Qed.
End sizes.
