(* ===== verification/RelayRun.v ===== *)
(** * Running the relay's operations

    When the mutex is sound and no statement fails, an operation is a function of the
    tables. [runs] says what it computes; its rules follow the code statement by
    statement, and [deliver_runs] puts them together for [deliver]. *)
From S2P Require Import Prelude Bytes Text Postcard Protocol Wire Identifiers Transcripts.
From S2P Require Import Framing RelayStorage RelayLimits RelayDelivery RelaySpec Sizes.

(** Nothing fails but what the code itself refuses. *)
Record healthy (env : Env) : Prop := {
  healthy_lock : lock_poisoned env = false;
  healthy_sql n : sql_fails env n = false;
}.

#[local] Set Default Proof Using "Type*".

Section run.
Context (env : Env) (Henv : healthy env).

Definition runs {A} (m : TxM A) (d : RelayDb) (a : A) (d' : RelayDb) : Prop :=
  ∀ c n mt, ∃ n' mt', m env (MkTx c d n mt) = (Ok a, MkTx c d' n' mt').

Lemma runs_ret {A} (a : A) d : runs (mret a) d a d.
Proof using Type. intros c n mt. by exists n, mt. Qed.

Lemma runs_bind {A B} (m : TxM A) (k : A → TxM B) d1 a d2 b d3 :
  runs m d1 a d2 → runs (k a) d2 b d3 → runs (m ≫= k) d1 b d3.
Proof using Type.
  intros Hm Hk c n mt. destruct (Hm c n mt) as (n1 & mt1 & E1).
  destruct (Hk c n1 mt1) as (n2 & mt2 & E2). exists n2, mt2.
  unfold mbind, TxM_bind. by rewrite E1.
Qed.

Lemma runs_statement {A} (f : RelayDb → option (A * RelayDb)) d a d' :
  f d = Some (a, d') → runs (statement f) d a d'.
Proof.
  intros E c n mt. unfold statement. simpl. rewrite (healthy_sql env Henv), E. eauto.
Qed.

Lemma runs_query {A} (f : RelayDb → A) d : runs (query f) d (f d) d.
Proof. by apply runs_statement. Qed.

Lemma runs_try_query {A} (f : RelayDb → option A) d a : f d = Some a → runs (try_query f) d a d.
Proof. intros E. apply runs_statement. by rewrite E. Qed.

Lemma runs_execute f d d' : f d = Some d' → runs (execute_sql f) d tt d'.
Proof. intros E. apply runs_statement. by rewrite E. Qed.

Lemma runs_next_row d : runs next_row d tt d.
Proof. by apply runs_statement. Qed.

Lemma runs_lift {A} (r : result StorageError A) a d : r = Ok a → runs (lift r) d a d.
Proof using Type. intros -> c n mt. unfold lift. eauto. Qed.

Lemma runs_ask {A} (f : Env → A) d : runs (ask f) d (f env) d.
Proof using Type. intros c n mt. unfold ask. eauto. Qed.

Lemma runs_if_true {A} (b : bool) (m n : TxM A) d a d' :
  b = true → runs m d a d' → runs (if b then m else n) d a d'.
Proof using Type. by intros ->. Qed.

Lemma runs_if_false {A} (b : bool) (m n : TxM A) d a d' :
  b = false → runs n d a d' → runs (if b then m else n) d a d'.
Proof using Type. by intros ->. Qed.

Lemma runs_decide_false {A} (P : Prop) `{Decision P} (m n : TxM A) d a d' :
  ¬ P → runs n d a d' → runs (if decide P then m else n) d a d'.
Proof using Type. intros HP. by rewrite decide_False. Qed.

Lemma runs_decide_true {A} (P : Prop) `{Decision P} (m n : TxM A) d a d' :
  P → runs m d a d' → runs (if decide P then m else n) d a d'.
Proof using Type. intros HP. by rewrite decide_True. Qed.

Lemma runs_count_outcome response d : runs (count_outcome response) d tt d.
Proof using Type.
  intros c n mt. unfold count_outcome, increment_commit_conflicts, increment_quota_rejections.
  destruct response as [| | | | | | | | | |[]]; simpl; eauto.
Qed.

(** The end of an operation: its tables become the database. *)
Definition ends {A} (m : TxM A) (d : RelayDb) (a : A) (d' : RelayDb) : Prop :=
  ∀ c n mt, ∃ n' mt', m env (MkTx c d n mt) = (Ok a, MkTx d' d' n' mt').

Lemma ends_bind {A B} (m : TxM A) (k : A → TxM B) d1 a d2 b d3 :
  runs m d1 a d2 → ends (k a) d2 b d3 → ends (m ≫= k) d1 b d3.
Proof using Type.
  intros Hm Hk c n mt. destruct (Hm c n mt) as (n1 & mt1 & E1).
  destruct (Hk c n1 mt1) as (n2 & mt2 & E2). exists n2, mt2.
  unfold mbind, TxM_bind. by rewrite E1.
Qed.

Lemma ends_commit {A} (a : A) d : ends (commit;; mret a) d a d.
Proof.
  intros c n mt. unfold mbind, TxM_bind, commit. simpl. rewrite (healthy_sql env Henv). eauto.
Qed.

Lemma transaction_run {A} (body : TxM A) d m :
  transaction body env d m =
  let '(r, tx) := body env (MkTx d d 1 m) in (r, committed tx, metrics tx).
Proof.
  unfold transaction. rewrite (healthy_lock env Henv). unfold mbind, TxM_bind, query, statement.
  simpl. by rewrite (healthy_sql env Henv).
Qed.

(** The room the system leaves: what [admit] needs besides the ledgers. *)
Record spacious `{Postcard} (limits : StorageLimits) (request : Request.t) : Prop := {
  spacious_global :
    saturating_add (saturating_mul (page_size env) (page_count env))
      (charge (put c_request request)) ≤ global limits;
  spacious_wal : ∃ wal,
    (wal_metadata env = Ok wal ∨ wal_metadata env = Err NotFound ∧ wal = 0) ∧
    saturating_add (saturating_add (saturating_mul (page_size env) (page_count env)) wal)
      (charge (put c_request request)) ≤ saturating_add (global limits) (reserve limits);
  spacious_path : path_has_nul env = false;
  spacious_disk : ∃ bavail frsize, statvfs env = Ok (bavail, frsize) ∧
    saturating_add (reserve limits) (charge (put c_request request)) ≤ bavail * frsize;
}.

Context `{Postcard} `{Sha256}.

(** A usage column that still holds an integer. *)
Definition ledger_readable (user : UserId) (request : Request.t) (db : RelayDb) : Prop :=
  default 0 (usage_sender db !! user) ≤ i64_max ∧
  match request with
  | Request.AppendRoomOperation op => default 0 (usage_room db !! Append.room op) ≤ i64_max
  | _ => True
  end.

Lemma runs_admit limits user request d :
  len (put c_request request) ≤ MAX_PAYLOAD → spacious limits request →
  ledger_readable user request d → within_limits limits user request d →
  runs (admit_request limits user request) d true d.
Proof.
  intros Hlen [Hg (wal & Hwal & Hw) Hpath (ba & fr & Hst & Hdisk)] [Hus Hur] Hl.
  unfold within_limits in Hl. cbn zeta in Hl. destruct Hl as [Hs Hr].
  unfold admit_request.
  eapply runs_bind; [apply runs_lift; by rewrite encode_message_fits|].
  apply runs_decide_false; [lia|]. eapply runs_bind; [apply runs_ask|]. change (id env) with env.
  eapply runs_bind; [apply runs_query|]. eapply runs_bind; [apply runs_query|]. cbn beta zeta.
  apply runs_decide_false; [lia|].
  apply (runs_bind _ _ _ wal d).
  { apply runs_lift. by destruct Hwal as [->|[-> ->]]. }
  apply runs_decide_false; [lia|].
  eapply runs_bind; [apply runs_try_query; unfold from_sql_u64; by rewrite decide_True|].
  apply runs_decide_false; [lia|].
  apply (runs_bind _ _ _ false d).
  { destruct request; try apply runs_ret.
    eapply runs_bind; [apply runs_try_query; unfold from_sql_u64; by rewrite decide_True|].
    rewrite bool_decide_eq_false_2 by lia. apply runs_ret. }
  rewrite Hpath. eapply runs_bind; [apply runs_lift; by rewrite Hst|]. simpl.
  rewrite bool_decide_eq_true_2 by done. apply runs_ret.
Qed.

Lemma charge_small request :
  len (put c_request request) ≤ MAX_PAYLOAD → 0 ≤ charge (put c_request request) ≤ 4 * MAX_PAYLOAD.
Proof using Type.
  intros Hlen. pose proof (len_nonneg (put c_request request)).
  unfold charge, saturating_add, saturating_mul, MAX_PAYLOAD, u64_max in *. lia.
Qed.

Lemma runs_save user id request response d :
  delivery_requests d !! (user, id) = None →
  len (put c_request request) ≤ MAX_PAYLOAD → len (put c_response response) ≤ MAX_PAYLOAD →
  runs (save_outcome user id request (charge (put c_request request))
          (sha256 (put c_request request)) response) d tt
    (save_tables user id request response d).
Proof.
  intros Hj Hreq Hresp. pose proof (charge_small request Hreq) as Hc.
  assert (to_sql_u64 (charge (put c_request request)) = Some (charge (put c_request request))) as Hsql.
  { unfold to_sql_u64. rewrite decide_True; [done|]. unfold i64_max, MAX_PAYLOAD in *. lia. }
  unfold save_outcome, save_tables.
  apply (runs_bind _ _ _ tt (charge_usage user request (charge (put c_request request)) d)).
  { clear Hc Hreq. revert Hsql. generalize (charge (put c_request request)) as q. intros q Hsql.
    destruct request; simpl; try apply runs_ret;
      (eapply runs_bind; [apply runs_execute; by rewrite Hsql|]);
      try apply runs_ret; apply runs_execute; by rewrite Hsql. }
  eapply runs_bind; [apply runs_lift; by rewrite encode_message_fits|].
  apply runs_execute. unfold insert_request.
  replace (delivery_requests (charge_usage user request _ d)) with (delivery_requests d)
    by (by destruct request).
  by rewrite Hj.
Qed.

(** What [deliver] computes for a request that is not in the journal. *)
Lemma deliver_runs limits user id request response d d1 m :
  delivery_requests d !! (user, id) = None →
  len (put c_request request) ≤ MAX_PAYLOAD →
  receipt_invalid user id request = false →
  (is_durable request = true → is_receipt request = false →
    spacious limits request ∧ ledger_readable user request d ∧ within_limits limits user request d) →
  runs (execute user id request) d response d1 →
  (is_receipt request = true → response = Response.Acknowledged) →
  delivery_requests d1 = delivery_requests d →
  (is_durable request && negb (is_transient response) = true →
    len (put c_response response) ≤ MAX_PAYLOAD) →
  ∃ m', deliver limits user id request env d m =
    (Ok response,
     if is_durable request && negb (is_transient response)
     then save_tables user id request response d1 else d1, m').
Proof.
  intros Hj Hlen Hri Hadm Hx Hrec Hj1 Hresp.
  assert (ends (deliver_body limits user id request) d response
    (if is_durable request && negb (is_transient response)
     then save_tables user id request response d1 else d1)) as Hends.
  { unfold deliver_body, payload_hash. rewrite encode_message_fits by done.
    eapply ends_bind; [by apply runs_lift|]. eapply ends_bind; [apply runs_query|].
    rewrite Hj. unfold deliver_new. rewrite Hri. apply (ends_bind _ _ _ true d).
    { destruct (is_durable request) eqn:Hd, (is_receipt request) eqn:Hr; simpl; try apply runs_ret.
      destruct (Hadm eq_refl eq_refl) as (? & ? & ?). by apply runs_admit. }
    cbn [negb]. eapply ends_bind; [apply runs_lift; by rewrite encode_message_fits|].
    eapply ends_bind; [exact Hx|]. eapply ends_bind; [apply runs_count_outcome|].
    replace (is_receipt request && negb (bool_decide (response = Response.Acknowledged))) with false.
    2:{ destruct (is_receipt request); [|done]. rewrite Hrec by done. by rewrite bool_decide_eq_true_2. }
    eapply ends_bind; [|apply ends_commit].
    destruct (is_durable request && negb (is_transient response)); [|apply runs_ret].
    apply runs_save; [by rewrite Hj1|done|auto]. }
  destruct (Hends d 1%nat m) as (n' & m' & E). exists m'. unfold deliver.
  by rewrite transaction_run, E.
Qed.
End run.
