(* ===== verification/RelayHistory.v ===== *)
(** * The relay's history

    What every step keeps: logs and Welcomes only grow, and saved outcomes, rooms,
    subscriptions and identities stay as they are. *)
From S2P Require Import Prelude Bytes Text Postcard Protocol Wire Identifiers Transcripts.
From S2P Require Import Framing RelayStorage RelayLimits RelayDelivery RelaySpec Enrollment.
From S2P Require Import RelayInvariant Sizes.

Section history.
Context `{Postcard} `{Sha256}.

(** ** The decoded log *)

(** The events of a room as a client decodes them. *)
Definition log_of (room : RoomId) (db : RelayDb) : list (result DecodeMessageError Event.t) :=
  (λ row, decode_message c_event (event_record row)) <$> room_events room db.

Lemma append_size op user id :
  valid c_append op → append_invalid op = false →
  len (put c_event (Event.Mk id user op)) ≤ MAX_PAYLOAD - 100.
Proof.
  intros Hv Hi. pose proof (len_put_event (Event.Mk id user op) (conj (conj I I) Hv)) as Hl.
  cbn [Event.operation] in Hl. unfold append_invalid in Hi. unfold welcome_len in Hl.
  reflect_bools. lia.
Qed.

Lemma decode_event_row user id op :
  valid c_append op → append_invalid op = false →
  decode_message c_event (event_record (event_row user id op)) = Ok (Event.Mk id user op).
Proof.
  intros Hv Hi. pose proof (append_size op user id Hv Hi).
  eapply decode_encode_message; [exact (conj (conj I I) Hv)|]. apply encode_message_fits. lia.
Qed.

(** Every row of the log is what some accepted operation stored. *)
Lemma room_event_inv room db row :
  log_inv db → row ∈ room_events room db →
  ∃ op, valid c_append op ∧ append_invalid op = false ∧ Append.room op = room ∧
        row = event_row (event_sender row) (event_id row) op.
Proof.
  intros Hl Hin. unfold room_events in Hin. apply list_elem_of_filter in Hin as [Hr Hin].
  pose proof (log_rows db Hl) as Hrows. rewrite Forall_forall in Hrows.
  destruct (Hrows row Hin) as (op & Hv & Hi & Hrow). exists op. split_and!; try done.
  rewrite Hrow in Hr. done.
Qed.

Lemma room_events_lookup room db n row :
  log_inv db → room_events room db !! n = Some row → event_sequence row = Z.of_nat n + 1.
Proof.
  intros Hl Hn. pose proof (log_sequences db Hl room) as Hs.
  assert ((event_sequence <$> room_events room db) !! n = Some (event_sequence row)) as E
    by (by rewrite list_lookup_fmap, Hn).
  rewrite Hs in E. apply lookup_seqZ in E. lia.
Qed.

(** ** History *)

(** What is never taken back. *)
Record history_kept (db db' : RelayDb) : Prop := {
  kept_logs room : room_events room db `prefix_of` room_events room db';
  kept_welcomes : delivery_welcomes db `prefix_of` delivery_welcomes db';
  kept_journal : delivery_requests db ⊆ delivery_requests db';
  kept_rooms : rooms db ⊆ rooms db';
  kept_subscribers : room_subscribers db ⊆ room_subscribers db';
  kept_identities : identities db ⊆ identities db';
}.

#[export] Instance history_kept_preorder : PreOrder history_kept.
Proof.
  split.
  - by constructor.
  - intros x y z [] []. constructor; intros; etrans; eauto.
Qed.

Lemma history_kept_data db db' :
  (∀ room, room_events room db `prefix_of` room_events room db') →
  delivery_welcomes db `prefix_of` delivery_welcomes db' →
  delivery_requests db' = delivery_requests db → rooms db ⊆ rooms db' →
  room_subscribers db ⊆ room_subscribers db' → identities db' = identities db →
  history_kept db db'.
Proof. intros. constructor; try done; by match goal with H : _ = ?x |- ?x ⊆ _ => rewrite H end. Qed.

Lemma append_effect_kept user id op db db' : append_effect user id op db db' → history_kept db db'.
Proof.
  destruct 1; apply history_kept_data; try done; simpl.
  - intros room. rewrite room_events_snoc. by eexists.
  - intros room. change (room_events room (add_subscriber _ _ (add_welcome _ _ ?d)))
      with (room_events room d). rewrite room_events_snoc. by eexists.
  - by eexists.
  - apply union_subseteq_r.
Qed.

Lemma effect_kept now user id request response db db' :
  effect now user id db request response db' → history_kept db db'.
Proof.
  destruct 1; try (by apply history_kept_data); try reflexivity.
  - apply history_kept_data; try done; simpl; [by apply insert_subseteq|apply union_subseteq_r].
  - by eapply append_effect_kept.
Qed.

Lemma save_tables_kept user id request response db :
  delivery_requests db !! (user, id) = None →
  history_kept db (save_tables user id request response db).
Proof.
  intros Hj. destruct (save_tables_same user id request response db).
  assert (identities (save_tables user id request response db) = identities db) as Hid
    by (by destruct request).
  constructor; rewrite ?same_rooms, ?same_subscribers, ?same_welcomes, ?Hid; try done.
  - intros room. by rewrite (room_events_ext room _ _ same_events).
  - rewrite save_tables_requests. by apply insert_subseteq.
Qed.

Lemma relay_step_kept limits db db' : relay_step limits db db' → history_kept db db'.
Proof.
  intros Hs. apply relay_step_cases in Hs as
    [->|[(now & user & id & req & resp & db1 & Hv & Heff & Hfresh & _ & _ & _ & _ & _ & ->)
        |[(h & row & _ & _ & ->)|(now & user & key & token & t & row & _ & Hnew & _ & _ & ->)]]].
  - reflexivity.
  - etrans; [by eapply effect_kept|]. apply save_tables_kept.
    by rewrite (effect_requests _ _ _ _ _ _ _ Heff).
  - by apply history_kept_data.
  - constructor; try done. simpl. by apply insert_subseteq.
Qed.

Lemma reachable_kept limits db db' : rtc (relay_step limits) db db' → history_kept db db'.
Proof. induction 1; [reflexivity|]. etrans; [by eapply relay_step_kept|done]. Qed.

Lemma journal_inv_reachable limits db : reachable limits db → journal_inv db.
Proof.
  intros Hr. cut (data_inv db ∧ journal_inv db); [tauto|]. revert db Hr.
  apply reachable_invariant; [split; [apply data_inv_empty|by intros key row]|].
  intros db db' Hs [Hd Hj]. split; [by eapply data_inv_step|by eapply journal_inv_step].
Qed.
End history.
