(* ===== verification/RelayDemo.v ===== *)
(** * A small history

    Concrete inputs for the relay: an environment in which nothing fails, two users,
    and the databases after Alice created a room and after she added Bob to it. The
    digest of these examples is the last 32 bytes of the input. *)
From S2P Require Import Prelude Bytes Text Postcard PostcardRef Protocol Wire Identifiers.
From S2P Require Import Transcripts Framing RelayStorage RelayLimits RelayDelivery RelaySpec.
From S2P Require Import Enrollment RelayInvariant RelayRun.

#[global] Instance demo_sha256 : Sha256 := λ l,
  default (vreplicate 32 x00) (to_array 32 (be_bytes 32 (from_be_bytes l))).

Definition demo_env : Env :=
  MkEnv 1000000 false (λ _, false) (Some (vreplicate 16 x22)) (Some (vreplicate 32 x77))
    4096 32 (Err NotFound) false (Ok (1000000, 4096)).

Definition demo_metrics : Metrics := MkMetrics 0 0.
Definition demo_limits : StorageLimits := default_storage_limits.

Definition alice : UserId := MkUserId (vreplicate 16 xa1).
Definition bob : UserId := MkUserId (vreplicate 16 xb0).
Definition mallory : UserId := MkUserId (vreplicate 16 x66).
Definition cave : RoomId := MkRoomId (vreplicate 16 x22).
Definition attempt (b : byte) : MessageId := MkMessageId (vreplicate 16 b).

Definition demo_deliver (user : UserId) (id : MessageId) (request : Request.t) (db : RelayDb)
    : result StorageError Response.t * RelayDb * Metrics :=
  deliver demo_limits user id request demo_env db demo_metrics.

Definition create_cave : Request.t := Request.CreateRoom (lit "Cave").
Definition db_created : RelayDb := (demo_deliver alice (attempt x01) create_cave empty_db).1.2.

(** Alice's commit that adds Bob, with his Welcome. *)
Definition add_bob : Append.t :=
  Append.Mk cave 0 1 MlsContentType.Commit [x0a; x0b]
    (Some (WelcomeAttachment.Mk bob [x0c] (MkSignature (vreplicate 64 x05)))).
Definition db_added : RelayDb :=
  (demo_deliver alice (attempt x02) (Request.AppendRoomOperation add_bob) db_created).1.2.

(** Bob's message after it. *)
Definition bob_says : Append.t :=
  Append.Mk cave 1 2 MlsContentType.Application [x68; x69] None.

Lemma demo_healthy : healthy demo_env.
Proof. by constructor. Qed.

Lemma demo_step user id request db :
  valid c_request request →
  relay_step demo_limits db (demo_deliver user id request db).1.2.
Proof.
  intros Hv. destruct (demo_deliver user id request db) as [[r db'] m'] eqn:E.
  by eapply deliver_step.
Qed.

Lemma create_cave_valid : valid c_request create_cave.
Proof. by vm_compute. Qed.

Lemma add_bob_valid : valid c_append add_bob.
Proof.
  repeat split; try done; try (by vm_compute); repeat constructor.
Qed.

Lemma bob_says_valid : valid c_append bob_says.
Proof. repeat split; try done; try (by vm_compute); repeat constructor. Qed.

Lemma db_created_reachable : reachable demo_limits db_created.
Proof. apply rtc_once, demo_step, create_cave_valid. Qed.

Lemma db_added_reachable : reachable demo_limits db_added.
Proof.
  eapply rtc_r; [exact db_created_reachable|]. apply demo_step. exact add_bob_valid.
Qed.

Lemma db_created_room : (cave, alice) ∈ room_subscribers db_created.
Proof. apply (bool_decide_unpack _). vm_compute. exact I. Qed.

Lemma db_added_room : (cave, bob) ∈ room_subscribers db_added ∧ head_of cave db_added = 1.
Proof. split; [apply (bool_decide_unpack _); vm_compute; exact I|by vm_compute]. Qed.

Lemma demo_spacious request :
  len (put c_request request) ≤ 1000 → spacious demo_env demo_limits request.
Proof.
  intros Hl. pose proof (len_nonneg (put c_request request)) as Hp.
  assert (0 ≤ charge (put c_request request) ≤ 20000) as Hc.
  { unfold charge, saturating_add, saturating_mul, u64_max. lia. }
  assert (saturating_mul (page_size demo_env) (page_count demo_env) = 131072) as Hlog by done.
  constructor.
  - rewrite Hlog. change (global demo_limits) with 1073741824.
    unfold saturating_add, u64_max. lia.
  - exists 0. split; [by right|]. rewrite Hlog. change (global demo_limits) with 1073741824.
    change (reserve demo_limits) with 67108864. unfold saturating_add, u64_max. lia.
  - done.
  - exists 1000000, 4096. split; [done|]. change (reserve demo_limits) with 67108864.
    unfold saturating_add, u64_max. lia.
Qed.
