(* ===== verification/RelayProps.v ===== *)
(** * Properties of the relay's storage

    The ordered log, conditional append, idempotent retries, atomicity and
    authorization. *)
From S2P Require Import Prelude Bytes Text Postcard PostcardRef Protocol Wire Identifiers.
From S2P Require Import Transcripts Framing RelayStorage RelayLimits RelayDelivery RelaySpec.
From S2P Require Import Enrollment RelayInvariant Sizes RelayRun RelayHistory RelayDemo.

Section lemmas.
Context `{Postcard} `{Sha256}.

Lemma deliver_reaches limits user id request env db m :
  valid c_request request →
  relay_step limits db (deliver limits user id request env db m).1.2.
Proof.
  intros Hv. destruct (deliver limits user id request env db m) as [[r db'] m'] eqn:E.
  by eapply deliver_step.
Qed.

Lemma append_request_size op :
  valid c_append op → append_invalid op = false →
  len (put c_request (Request.AppendRoomOperation op)) ≤ MAX_PAYLOAD.
Proof.
  intros Hv Hi. change (put c_request (Request.AppendRoomOperation op))
    with (z2b 3 :: put c_append op). rewrite len_cons.
  pose proof (len_put_append op Hv) as Hl. unfold append_invalid in Hi.
  unfold welcome_len in Hl. reflect_bools. lia.
Qed.

Lemma append_response_size op user id :
  valid c_append op → append_invalid op = false →
  len (put c_response (Response.AppendAccepted (Event.Mk id user op))) ≤ MAX_PAYLOAD.
Proof.
  intros Hv Hi. change (put c_response (Response.AppendAccepted ?e)) with (z2b 3 :: put c_event e).
  rewrite len_cons. pose proof (append_size op user id Hv Hi). lia.
Qed.

Lemma conflict_response_size room head :
  0 ≤ head ≤ i64_max → len (put c_response (Response.HeadConflict room head)) ≤ MAX_PAYLOAD.
Proof.
  intros Hh. change (put c_response (Response.HeadConflict room head))
    with (z2b 4 :: put c_room_id room ++ put c_u64 head).
  rewrite len_cons, len_app, len_put_room. pose proof (len_put_i64 head Hh).
  unfold MAX_PAYLOAD. lia.
Qed.

Lemma welcome_delivery_valid user id op n w :
  valid c_append op → append_invalid op = false → Append.welcome op = Some w → str_len n ≤ 400 →
  valid c_welcome_delivery (welcome_delivery user id op n w).
Proof.
  destruct op as [r p e t b wo]. intros (((((_ & Hp) & _) & _) & _) & Hw) Hi E Hn.
  simpl in E. subst wo. unfold append_invalid in Hi. simpl in Hi. reflect_bools.
  split; [|exact Hw]. split; [|done]. split; [split; [split; [split; [exact Hn|]|done]|done]|].
  - simpl. unfold u64_max. lia.
  - simpl in *. unfold i64_max, u64_max in *. lia.
Qed.

Lemma welcome_record_size user id op n w :
  valid c_append op → append_invalid op = false → Append.welcome op = Some w → str_len n ≤ 400 →
  len (put c_welcome_delivery (welcome_delivery user id op n w)) ≤ MAX_PAYLOAD.
Proof.
  intros Hv Hi Hw Hn.
  pose proof (len_put_welcome _ (welcome_delivery_valid user id op n w Hv Hi Hw Hn)) as Hl.
  unfold welcome_delivery in Hl at 2. cbn [WelcomeDelivery.attachment] in Hl.
  unfold append_invalid in Hi. rewrite Hw in Hi. reflect_bools.
  unfold MAX_MLS_BLOB_BYTES, MAX_PAYLOAD in *; lia.
Qed.

Lemma event_below_head e db :
  e ∈ delivery_events db → event_sequence e ≤ head_of (event_room e) db.
Proof.
  intros He. apply sql_max_above. apply list_elem_of_fmap_2.
  unfold room_events. by apply list_elem_of_filter.
Qed.

Lemma NoDup_fmap_filter {A B} (f : A → B) (P : A → Prop) `{!∀ x, Decision (P x)} l :
  NoDup (f <$> l) → NoDup (f <$> filter P l).
Proof.
  induction l as [|a l IH]; [done|]. rewrite fmap_cons, NoDup_cons. intros [Ha Hl].
  destruct (decide (P a)); [|rewrite filter_cons_False by done; auto].
  rewrite filter_cons_True, fmap_cons, NoDup_cons by done. split; [|auto].
  intros (x & Hx & Hin)%list_elem_of_fmap. apply Ha.
  apply list_elem_of_filter in Hin as [_ Hin]. rewrite Hx. by apply list_elem_of_fmap_2.
Qed.

(** The rows of a room decode to events that agree with their columns. *)
Lemma decoded_rows rows :
  (∀ row, row ∈ rows → ∃ op, valid c_append op ∧ append_invalid op = false ∧
     row = event_row (event_sender row) (event_id row) op) →
  ∃ events : list Event.t,
    (λ row, decode_message c_event (event_record row)) <$> rows = Ok <$> events ∧
    Event.id <$> events = event_id <$> rows ∧
    (∀ n e, events !! n = Some e → ∃ row, rows !! n = Some row ∧
       Event.sequence e = Some (event_sequence row) ∧
       Append.room (Event.operation e) = event_room row).
Proof.
  induction rows as [|row rows IH]; intros Hrows; [by exists []|].
  destruct IH as (events & Hd & Hi & Hl); [intros; apply Hrows; by apply elem_of_cons; right|].
  destruct (Hrows row) as (op & Hv & Hinv & Hrow); [by apply elem_of_cons; left|].
  exists (Event.Mk (event_id row) (event_sender row) op :: events).
  rewrite Hrow, !fmap_cons, Hd, Hi, decode_event_row by done. split_and!; [done|done|].
  intros [|n] e; [|apply Hl]. intros [= <-]. exists row. rewrite Hrow. split_and!; [done| |done].
  apply checked_add_Some. simpl. split; [done|].
  unfold append_invalid in Hinv. reflect_bools. unfold i64_max, u64_max in *. lia.
Qed.

Lemma decoded_log room db :
  log_inv db →
  ∃ events : list Event.t,
    log_of room db = Ok <$> events ∧ Event.id <$> events = event_id <$> room_events room db ∧
    (∀ n e, events !! n = Some e →
      Event.sequence e = Some (Z.of_nat n + 1) ∧ Append.room (Event.operation e) = room).
Proof.
  intros Hl. destruct (decoded_rows (room_events room db)) as (events & Hd & Hi & Hn).
  { intros row Hrow. apply (room_event_inv room db row Hl) in Hrow as (op & ? & ? & _ & ?). eauto. }
  exists events. split_and!; [done|done|]. intros n e He.
  destruct (Hn n e He) as (row & Hrow & Hs & Hr). rewrite Hs, Hr. split.
  - f_equal. by apply (room_events_lookup room db).
  - apply list_elem_of_lookup_2 in Hrow. unfold room_events in Hrow.
    by apply list_elem_of_filter in Hrow as [? _].
Qed.
End lemmas.

Section append.
Context (env : Env) (Henv : healthy env) `{Postcard} `{Sha256}.
#[local] Set Default Proof Using "Type*".

Lemma runs_append_welcome user id op db d :
  valid c_append op → append_invalid op = false → membership_inv db →
  (Append.room op, user) ∈ room_subscribers db → welcome_autoincrement db < i64_max →
  d = set_events (λ l, l ++ [event_row user id op]) db →
  ∃ db', append_effect user id op db db' ∧
    runs env (append_welcome user id op (Append.parent op)) d tt db'.
Proof.
  intros Hv Hi Hm Hsub Haut ->. unfold append_welcome.
  destruct (Append.welcome op) as [w|] eqn:Hw.
  - destruct (subscribers_rooms db Hm _ _ Hsub) as [r Hr].
    pose proof (normalized_name_fits _ (room_names db Hm _ _ Hr)) as Hn.
    pose proof (welcome_record_size user id op (name r) w Hv Hi Hw Hn) as Hsize.
    eexists. split; [by eapply append_with_welcome|].
    eapply runs_bind; [apply runs_try_query; [done|]; simpl; by rewrite Hr|]. cbn zeta.
    eapply runs_bind; [apply runs_lift; by rewrite encode_message_fits|].
    eapply runs_bind; [apply runs_execute; [done|]|by apply runs_execute].
    unfold insert_welcome, to_sql_u64. simpl. by rewrite decide_True by lia.
  - eexists. split; [by apply append_plain|]. apply runs_ret.
Qed.

Lemma runs_append user id op db :
  valid c_append op → append_invalid op = false → data_inv db →
  (Append.room op, user) ∈ room_subscribers db → welcome_autoincrement db < i64_max →
  Forall (λ e, event_id e ≠ id) (delivery_events db) →
  head_of (Append.room op) db = Append.parent op →
  ∃ db', append_effect user id op db db' ∧
    runs env (append_room_operation user id op) db (Response.AppendAccepted (Event.Mk id user op)) db'.
Proof.
  intros Hv Hi Hd Hsub Haut Hid Hh.
  destruct (runs_append_welcome user id op db _ Hv Hi (data_membership db Hd) Hsub Haut eq_refl)
    as (db' & Heff & Hrun).
  exists db'. split; [done|]. unfold append_room_operation, subscribed.
  eapply runs_bind; [by apply runs_query|]. rewrite bool_decide_eq_true_2 by done. cbn [negb].
  rewrite Hi. eapply runs_bind; [by apply runs_query|]. rewrite Hh.
  apply runs_decide_false; [tauto|]. eapply runs_bind; [by apply runs_query|].
  rewrite bool_decide_eq_false_2 by (rewrite <- Forall_Exists_neg; done).
  pose proof (append_size op user id Hv Hi) as Hsize. cbn zeta.
  eapply runs_bind; [apply runs_lift; by rewrite encode_message_fits by lia|].
  eapply runs_bind; [apply runs_execute; [done|]|].
  - pose proof (head_of_bound (Append.room op) db (data_log db Hd)) as Hb.
    assert (Append.parent op < i64_max) by (unfold append_invalid in Hi; reflect_bools; lia).
    unfold to_sql_u64. rewrite decide_True by lia. simpl. unfold insert_event.
    rewrite decide_False; [done|]. rewrite <- Forall_Exists_neg.
    apply Forall_forall. intros e He. rewrite Forall_forall in Hid. intros [?|[Hr Hs]].
    + by apply (Hid e).
    + pose proof (event_below_head e db He) as Hle. simpl in *. rewrite Hr, Hh in Hle. lia.
  - eapply runs_bind; [exact Hrun|]. apply runs_ret.
Qed.

Lemma runs_append_conflict user id op db :
  append_invalid op = false → (Append.room op, user) ∈ room_subscribers db →
  head_of (Append.room op) db ≠ Append.parent op →
  runs env (append_room_operation user id op) db
    (Response.HeadConflict (Append.room op) (head_of (Append.room op) db)) db.
Proof.
  intros Hi Hsub Hh. unfold append_room_operation, subscribed.
  eapply runs_bind; [by apply runs_query|]. rewrite bool_decide_eq_true_2 by done. cbn [negb].
  rewrite Hi. eapply runs_bind; [by apply runs_query|].
  apply runs_decide_true; [done|]. apply runs_ret.
Qed.
End append.

(** ** Changes *)

(** What was answered has changed nothing, or is in the journal. *)
Lemma answered_journalled `{Postcard} `{Sha256} limits now user id request db response db' :
  answered limits now user id request db response db' →
  db' = db ∨
  is_durable request = true ∧ is_transient response = false ∧
  delivery_requests db !! (user, id) = None ∧
  delivery_requests db' = <[(user, id) :=
    MkJournalRow (sha256 (put c_request request)) (put c_response response)]> (delivery_requests db).
Proof.
  destruct 1 as [| | | |db' [db1 Hn Heff Hd Ht _ _ _ _|]]; [by left..| |by left].
  right. split_and!; [done|done|done|]. by rewrite save_tables_requests, (effect_requests _ _ _ _ _ _ _ Heff).
Qed.

(** The log and the Welcomes after an accepted append: the event is the last of its room
    and of no other, and its Welcome is stored for a recipient who is subscribed. *)
Definition appended `{Postcard} (user : UserId) (id : MessageId) (op : Append.t) (db db' : RelayDb) : Prop :=
  (∀ room, room_events room db' =
    room_events room db ++ if decide (Append.room op = room) then [event_row user id op] else []) ∧
  match Append.welcome op with
  | Some w => (Append.room op, WelcomeAttachment.recipient w) ∈ room_subscribers db' ∧
              welcome_stored db' user id op
  | None => delivery_welcomes db' = delivery_welcomes db
  end.

Lemma append_effect_appended `{Postcard} `{Sha256} user id op request response db db1 :
  append_effect user id op db db1 → appended user id op db (save_tables user id request response db1).
Proof.
  intros Heff. destruct (save_tables_same user id request response db1) as [_ Hsubs _ Hev Hwel _ _ _].
  split.
  - intros room. rewrite (room_events_ext room _ _ Hev), <- (room_events_snoc room (event_row user id op)).
    apply room_events_ext. by rewrite (append_effect_events _ _ _ _ _ Heff).
  - rewrite Hsubs, Hwel. destruct Heff as [Hw|w r Hw Hroom Haut]; rewrite Hw; [done|].
    split; [by apply elem_of_union_l, elem_of_singleton|]. unfold welcome_stored. rewrite Hw, Hwel.
    eexists _, (name r). split_and!; [apply elem_snoc|done..].
Qed.

(** What a new append request was answered, and what that says. *)
Lemma append_answered `{Postcard} `{Sha256} limits now user id op db response db' :
  answered limits now user id (Request.AppendRoomOperation op) db response db' →
  delivery_requests db !! (user, id) = None →
  match response with
  | Response.AppendAccepted e =>
      (Append.room op, user) ∈ room_subscribers db ∧ append_invalid op = false ∧
      head_of (Append.room op) db = Append.parent op ∧
      Forall (λ e, event_id e ≠ id) (delivery_events db) ∧
      within_limits limits user (Request.AppendRoomOperation op) db ∧
      e = Event.Mk id user op ∧ appended user id op db db'
  | _ => delivery_events db' = delivery_events db ∧ delivery_welcomes db' = delivery_welcomes db
  end.
Proof.
  intros Ha Hn. destruct Ha as [row ? _ ->|row ? _ _|reason _ Hr _|_ _ ->|db' Hp]; try congruence; try done.
  destruct Hp as [db1 _ Heff _ _ Hlim _ _ _|_ Heff [?|Ht]]; [|done|].
  - destruct (save_tables_same user id (Request.AppendRoomOperation op) response db1) as [_ _ _ Hev Hwel _ _ _].
    inversion Heff as [?|request' response' Hread|? Hsub Hhead| | | | | |? db2 Hsub Hi Hhead Hid Hl Happ]; subst; try done.
    split_and!; try done; [by apply Hlim|by apply append_effect_appended].
  - by destruct response.
Qed.

(** ** Properties *)

(** C2: the log of every room is a sequence: in every database the relay can reach,
    whatever failed on the way, the stored records of a room decode to its events,
    numbered 1, 2, 3, ... without gap or repetition, each naming its predecessor as
    its parent; the head is their number, and no two events of the relay share an
    id. *)
Theorem room_logs_are_sequences `{Postcard} `{Sha256} limits db room :
  reachable limits db →
  ∃ events : list Event.t,
    log_of room db = Ok <$> events ∧
    head_of room db = len events ∧
    NoDup (Event.id <$> events) ∧
    (∀ n e, events !! n = Some e →
      Event.sequence e = Some (Z.of_nat n + 1) ∧ Append.room (Event.operation e) = room) ∧
    NoDup (event_id <$> delivery_events db).
Proof.
  intros Hr%data_inv_reachable. apply data_log in Hr as Hl.
  destruct (decoded_log room db Hl) as (events & Hdec & Hids & Hev).
  exists events. split_and!; [done| | |done|apply Hl].
  - rewrite (head_of_len room db Hl). apply (f_equal length) in Hdec. unfold log_of in Hdec.
    rewrite !length_fmap in Hdec. unfold len. by rewrite Hdec.
  - rewrite Hids. unfold room_events. apply NoDup_fmap_filter, Hl.
Qed.


Lemma room_logs_are_sequences_witness :
  ∃ events : list Event.t,
    log_of cave db_added = Ok <$> events ∧ head_of cave db_added = len events ∧
    NoDup (Event.id <$> events) ∧
    (∀ n e, events !! n = Some e →
      Event.sequence e = Some (Z.of_nat n + 1) ∧ Append.room (Event.operation e) = cave) ∧
    NoDup (event_id <$> delivery_events db_added).
Proof. apply (room_logs_are_sequences demo_limits db_added cave), db_added_reachable. Defined.

(** C3: nothing the relay has accepted is ever taken back: over any further
    operations, with any failures, the log of each room and the stored Welcomes only
    grow at the end, and saved outcomes, rooms, subscriptions and identities stay. *)
Theorem history_is_kept `{Postcard} `{Sha256} limits db db' :
  rtc (relay_step limits) db db' → history_kept db db'.
Proof. apply reachable_kept. Qed.

Lemma history_is_kept_witness : history_kept db_created db_added.
Proof.
  apply (history_is_kept demo_limits). apply rtc_once, demo_step, add_bob_valid.
Defined.

(** C4: an operation that fails leaves no trace in the database: whichever statement,
    conversion, random read or file check fails, and wherever, a delivery, an
    enrollment or a registration that returns an error has changed nothing. A delivery
    that is answered has changed nothing either, or the request is one whose outcome is
    kept, the answer is not a transient refusal, and the answer is now in the journal,
    where there was none, under the request's identifier: no change goes unjournalled,
    and a request answered by a transient refusal (overload, quota, internal error) has
    changed nothing. *)
Theorem failures_change_nothing `{Postcard} `{Sha256} env db m :
  (∀ limits user id request e db' m',
    deliver limits user id request env db m = (Err e, db', m') → db' = db) ∧
  (∀ limits user id request response db' m',
    deliver limits user id request env db m = (Ok response, db', m') →
    db' = db ∨
    is_durable request = true ∧ is_transient response = false ∧
    delivery_requests db !! (user, id) = None ∧
    delivery_requests db' = <[(user, id) :=
      MkJournalRow (sha256 (put c_request request)) (put c_response response)]> (delivery_requests db)) ∧
  (∀ user fingerprint e db' m',
    issue_enrollment user fingerprint env db m = (Err e, db', m') → db' = db) ∧
  (∀ user key token e db' m',
    register_enrolled_identity user key token env db m = (Err e, db', m') → db' = db).
Proof.
  split_and!.
  - intros * E. by apply deliver_outcome in E.
  - intros * [_ E]%deliver_outcome. by apply answered_journalled in E.
  - intros * E. by apply issue_outcome in E as [[-> _]|(t & _ & ? & _)].
  - intros * E. by apply register_outcome in E as [->|[? _]].
Qed.

(** The environment of the examples with the [n]th statement failing. *)
Definition failing_env (n : nat) : Env :=
  MkEnv 1000000 false (λ k, bool_decide (k = n)) (Some (vreplicate 16 x22))
    (Some (vreplicate 32 x77)) 4096 32 (Err NotFound) false (Ok (1000000, 4096)).

(** The commit of the delivery fails; nothing is stored. *)
Lemma failures_change_nothing_witness :
  (deliver demo_limits alice (attempt x02) (Request.AppendRoomOperation add_bob)
     (failing_env 16) db_created demo_metrics).1.2 = db_created.
Proof.
  destruct (deliver demo_limits alice (attempt x02) (Request.AppendRoomOperation add_bob)
     (failing_env 16) db_created demo_metrics) as [[r db'] m'] eqn:E.
  assert (r = Err Database) as ->.
  { apply (f_equal (fst ∘ fst)) in E. vm_compute in E. by symmetry. }
  by apply (proj1 (failures_change_nothing _ _ _)) in E.
Defined.

(** C1: [deliver] implements its specification in every state, for every request and
    every pattern of failures: what it answers and what it stores is what [outcome]
    allows, that is: the saved response of the attempt, a refusal that changes
    nothing, or the effect of the request on the tables together with its ledger
    entries and its journal entry. *)
Theorem deliver_implements_outcome `{Postcard} `{Sha256} limits user id request env db m :
  let '(r, db', _) := deliver limits user id request env db m in
  outcome limits (now env) user id request db r db'.
Proof.
  destruct (deliver limits user id request env db m) as [[r db'] m'] eqn:E.
  by apply deliver_outcome in E.
Qed.

(** What a run of [deliver] on a fresh append needs from its surroundings. *)
Record append_ready `{Postcard} `{Sha256} (limits : StorageLimits) (env : Env) (db : RelayDb)
    (user : UserId) (id : MessageId) (op : Append.t) : Prop := {
  ready_env : healthy env;
  ready_valid : valid c_append op;
  ready_body : append_invalid op = false;
  ready_subscribed : (Append.room op, user) ∈ room_subscribers db;
  ready_fresh : delivery_requests db !! (user, id) = None;
  ready_event : Forall (λ e, event_id e ≠ id) (delivery_events db);
  ready_cursor : welcome_autoincrement db < i64_max;
  ready_space : spacious env limits (Request.AppendRoomOperation op);
  ready_readable : ledger_readable user (Request.AppendRoomOperation op) db;
  ready_limits : within_limits limits user (Request.AppendRoomOperation op) db;
}.

Lemma deliver_append `{Postcard} `{Sha256} limits env db user id op m response db1 :
  append_ready limits env db user id op →
  runs env (append_room_operation user id op) db response db1 →
  delivery_requests db1 = delivery_requests db → is_transient response = false →
  len (put c_response response) ≤ MAX_PAYLOAD →
  ∃ m', deliver limits user id (Request.AppendRoomOperation op) env db m =
    (Ok response, save_tables user id (Request.AppendRoomOperation op) response db1, m').
Proof.
  intros [Hh Hv Hi Hsub Hf He Hc Hsp Hrd Hl] Hrun Hj Ht Hlen.
  destruct (deliver_runs env Hh limits user id (Request.AppendRoomOperation op) response db db1 m)
    as [m' E]; try done; [by apply append_request_size|].
  exists m'. rewrite E. by rewrite Ht.
Qed.

(** C5: an append is accepted exactly when it may be. Whatever fails, a new append
    request is answered as accepted only if its sender is subscribed to the room, the
    operation is well formed, its parent is the head of the room, its identifier names
    no event yet, and the quotas allow it; then the event is the last of that room and
    of no other, and its Welcome is stored with its recipient subscribed; with any other
    answer no log and no Welcome has changed. Conversely, for a subscriber's well-formed
    operation with a fresh identifier, on a relay where nothing fails and within the
    quotas: if its parent is the head of the room, the operation is accepted; if the
    parent is any other number, the answer is the current head. *)
Theorem append_is_conditional `{Postcard} `{Sha256} limits env db user id op m :
  reachable limits db →
  (∀ response db' m', delivery_requests db !! (user, id) = None →
    deliver limits user id (Request.AppendRoomOperation op) env db m = (Ok response, db', m') →
    match response with
    | Response.AppendAccepted e =>
        (Append.room op, user) ∈ room_subscribers db ∧ append_invalid op = false ∧
        head_of (Append.room op) db = Append.parent op ∧
        Forall (λ e, event_id e ≠ id) (delivery_events db) ∧
        within_limits limits user (Request.AppendRoomOperation op) db ∧
        e = Event.Mk id user op ∧ appended user id op db db'
    | _ => delivery_events db' = delivery_events db ∧ delivery_welcomes db' = delivery_welcomes db
    end) ∧
  (append_ready limits env db user id op →
   if decide (head_of (Append.room op) db = Append.parent op) then
     ∃ db' m', deliver limits user id (Request.AppendRoomOperation op) env db m =
         (Ok (Response.AppendAccepted (Event.Mk id user op)), db', m') ∧ appended user id op db db'
   else
     ∃ db' m', deliver limits user id (Request.AppendRoomOperation op) env db m =
         (Ok (Response.HeadConflict (Append.room op) (head_of (Append.room op) db)), db', m') ∧
       delivery_events db' = delivery_events db ∧ delivery_welcomes db' = delivery_welcomes db).
Proof.
  intros Hr%data_inv_reachable. split.
  { intros response db' m' Hn [_ E]%deliver_outcome. by eapply append_answered. }
  intros Hready. pose proof Hready as [Hh Hv Hi Hsub Hf He Hc Hsp Hrd Hl].
  case_decide as Hhead.
  - destruct (runs_append env Hh user id op db) as (db1 & Heff & Hrun); try done.
    assert (delivery_requests db1 = delivery_requests db) as Hj by (by destruct Heff).
    destruct (deliver_append limits env db user id op m _ db1 Hready Hrun Hj) as [m' E];
      [done|by apply append_response_size|].
    eexists _, m'. split; [exact E|]. by apply append_effect_appended.
  - pose proof (runs_append_conflict env Hh user id op db Hi Hsub Hhead) as Hrun.
    destruct (deliver_append limits env db user id op m _ db Hready Hrun) as [m' E]; try done.
    { apply conflict_response_size, head_of_bound, Hr. }
    eexists _, m'. split; [exact E|]. done.
Qed.

Lemma add_bob_ready : append_ready demo_limits demo_env db_created alice (attempt x02) add_bob.
Proof.
  constructor;
    [apply demo_healthy|apply add_bob_valid|by vm_compute|apply db_created_room|by vm_compute
    |by vm_compute|by vm_compute|apply demo_spacious; by vm_compute|by vm_compute|by vm_compute].
Qed.

Lemma append_is_conditional_witness :
  ∃ db' m', demo_deliver alice (attempt x02) (Request.AppendRoomOperation add_bob) db_created =
      (Ok (Response.AppendAccepted (Event.Mk (attempt x02) alice add_bob)), db', m') ∧
    room_events cave db' = [event_row alice (attempt x02) add_bob] ∧
    (cave, bob) ∈ room_subscribers db'.
Proof.
  destruct (append_is_conditional demo_limits demo_env db_created alice (attempt x02) add_bob
    demo_metrics db_created_reachable) as [_ Happ].
  specialize (Happ add_bob_ready).
  rewrite decide_True in Happ by (by vm_compute).
  destruct Happ as (db' & m' & E & Hlog & Hwelcome). destruct Hwelcome as [Hbob _]. exists db', m'. split_and!; [exact E| |exact Hbob].
  rewrite Hlog. by vm_compute.
Defined.

(** ** Retries *)

(** Outcomes a client may rely on: an acknowledged receipt, or any answer to another
    durable request that is not a transient refusal. *)
Definition is_final (request : Request.t) (response : Response.t) : bool :=
  is_durable request &&
  if is_receipt request then bool_decide (response = Response.Acknowledged)
  else negb (is_transient response).

Section retries.
Context `{Postcard} `{Sha256}.

(** What a journal row answers to a request. *)
Definition row_answers (row : JournalRow) (request : Request.t) (response : Response.t) : Prop :=
  (journal_hash row ≠ sha256 (put c_request request) ∧
    response = Response.Rejected Rejection.RequestConflict) ∨
  (journal_hash row = sha256 (put c_request request) ∧
    decode_message c_response (journal_response row) = Ok response).

Lemma final_saved limits db user id request response env m db1 m1 :
  reachable limits db → valid c_request request →
  deliver limits user id request env db m = (Ok response, db1, m1) →
  is_final request response = true →
  len (put c_request request) ≤ MAX_PAYLOAD ∧
  ∃ row, delivery_requests db1 !! (user, id) = Some row ∧ row_answers row request response.
Proof.
  intros Hr Hv [Hlen E]%deliver_outcome Hf. split; [done|].
  apply andb_true_iff in Hf as [Hd Hf].
  destruct E as [row Hrow Hh ->|row Hrow Hh Hdec|reason Hn Hrec ->|Hn _ ->|db1 Hp].
  - exists row. split; [done|by left].
  - exists row. split; [done|by right].
  - rewrite Hrec in Hf. by apply bool_decide_eq_true in Hf.
  - destruct (is_receipt request); [|done]. by apply bool_decide_eq_true in Hf.
  - destruct Hp as [db2 Hn Heff _ Ht Hl Hrec _ Hsize|Hn Heff [Hd'|Ht]].
    + rewrite save_tables_requests, lookup_insert_eq. eexists. split; [done|right].
      split; [done|]. eapply decode_encode_message; [|by apply encode_message_fits].
      apply data_inv_reachable in Hr. eapply effect_response_valid; try done.
      intros Hreceipt. by apply Hrec in Hreceipt as [_ ?].
    + congruence.
    + destruct (is_receipt request); [|by rewrite Ht in Hf].
      apply bool_decide_eq_true in Hf as ->. done.
Qed.

Lemma deliver_from_journal limits user id request response row env db m :
  healthy env → len (put c_request request) ≤ MAX_PAYLOAD →
  delivery_requests db !! (user, id) = Some row → row_answers row request response →
  deliver limits user id request env db m = (Ok response, db, m).
Proof.
  intros Henv Hlen Hrow Hans. unfold deliver. rewrite transaction_run by done.
  unfold deliver_body, payload_hash. rewrite encode_message_fits by done.
  unfold mbind, TxM_bind, lift, query, statement. simpl. rewrite (healthy_sql env Henv). simpl.
  rewrite Hrow. destruct Hans as [[Hh ->]|[Hh Hdec]].
  - by rewrite decide_True.
  - rewrite decide_False by tauto. by rewrite Hdec.
Qed.
End retries.

(** C6: attempts are idempotent. Once a durable request has a final answer, repeating
    it with the same id gives that answer again and changes nothing, after any number
    of operations of any users and any failures in between; the same id with a
    payload of another hash is refused as a conflict and changes nothing. *)
Theorem retries_repeat_the_answer `{Postcard} `{Sha256} limits db user id request response
    env m db1 m1 db2 env2 m2 :
  reachable limits db → valid c_request request →
  deliver limits user id request env db m = (Ok response, db1, m1) →
  is_final request response = true →
  rtc (relay_step limits) db1 db2 → healthy env2 →
  deliver limits user id request env2 db2 m2 = (Ok response, db2, m2) ∧
  ∀ other, len (put c_request other) ≤ MAX_PAYLOAD →
    sha256 (put c_request other) ≠ sha256 (put c_request request) →
    response ≠ Response.Rejected Rejection.RequestConflict →
    deliver limits user id other env2 db2 m2 =
      (Ok (Response.Rejected Rejection.RequestConflict), db2, m2).
Proof.
  intros Hr Hv E Hf Hsteps Henv.
  destruct (final_saved _ _ _ _ _ _ _ _ _ _ Hr Hv E Hf) as (Hlen & row & Hrow & Hans).
  apply reachable_kept, kept_journal in Hsteps.
  eapply lookup_weaken in Hrow; [|exact Hsteps]. split.
  - by eapply deliver_from_journal.
  - intros other Hlen' Hne Hresp. eapply deliver_from_journal; try done.
    left. destruct Hans as [[_ ?]|[-> _]]; [done|]. done.
Qed.

Lemma retries_repeat_the_answer_witness :
  demo_deliver alice (attempt x01) create_cave db_added =
    (Ok (Response.RoomCreated cave), db_added, demo_metrics) ∧
  demo_deliver alice (attempt x01) (Request.CreateRoom (lit "Hall")) db_added =
    (Ok (Response.Rejected Rejection.RequestConflict), db_added, demo_metrics).
Proof.
  destruct (demo_deliver alice (attempt x01) create_cave empty_db) as [[r db'] m'] eqn:E.
  assert (r = Ok (Response.RoomCreated cave)) as ->.
  { apply (f_equal (fst ∘ fst)) in E. vm_compute in E. by symmetry. }
  assert (db' = db_created) as -> by (unfold db_created; by rewrite E).
  destruct (retries_repeat_the_answer demo_limits empty_db alice (attempt x01) create_cave
    (Response.RoomCreated cave) demo_env demo_metrics db_created m' db_added demo_env demo_metrics)
    as [Hsame Hother].
  - apply rtc_refl.
  - apply create_cave_valid.
  - exact E.
  - done.
  - apply rtc_once, demo_step, add_bob_valid.
  - apply demo_healthy.
  - split; [exact Hsame|]. apply Hother; [by vm_compute| |done].
    apply (bool_decide_eq_false_1 _). by vm_compute.
Defined.
