(* ===== verification/RelayPaging.v ===== *)
(** * Pages

    What [FetchRoomEvents], [FetchWelcomes] and [SyncIndex] return: the loops that
    fill a page, the rows they run over, and that every page makes progress and fits
    a frame. *)
From S2P Require Import Prelude Bytes Text Postcard PostcardRef Protocol Wire Identifiers.
From S2P Require Import Transcripts Framing RelayStorage RelayLimits RelayDelivery RelaySpec.
From S2P Require Import Enrollment RelayInvariant Sizes RelayRun RelayHistory RelayDemo.
From S2P Require Import RelayProps.

(** ** The page loop *)

Definition total {R} (record : R → list byte) (rows : list R) : Z :=
  foldr Z.add 0 ((λ row, len (record row)) <$> rows).

Lemma total_nil {R} (record : R → list byte) : total record [] = 0.
Proof. done. Qed.

Lemma total_cons {R} (record : R → list byte) row rows :
  total record (row :: rows) = len (record row) + total record rows.
Proof. done. Qed.

Lemma total_nonneg {R} (record : R → list byte) rows : 0 ≤ total record rows.
Proof.
  induction rows as [|row rows IH]; [done|]. rewrite total_cons.
  pose proof (len_nonneg (record row)). lia.
Qed.

(** A page is a run of rows from the first on that fits the limits, decoded; the loop
    stops before a row only when that row would not fit or the page is full. *)
Lemma page_items_spec {R A} (record : R → list byte) (f : R → option A) rows items bytes out more :
  len items ≤ PAGE_SIZE → bytes ≤ MAX_PAYLOAD - 96 →
  page_items record f rows items bytes = Some (out, more) →
  ∃ taken rest new,
    rows = taken ++ rest ∧ out = items ++ new ∧ Forall2 (λ row a, f row = Some a) taken new ∧
    bytes + total record taken ≤ MAX_PAYLOAD - 96 ∧ len out ≤ PAGE_SIZE ∧
    if more then ∃ row rest', rest = row :: rest' ∧
      (len out = PAGE_SIZE ∨ bytes + total record taken + len (record row) > MAX_PAYLOAD - 96)
    else rest = [].
Proof.
  revert items bytes. induction rows as [|row rows IH]; intros items bytes Hi Hb E.
  - injection E as <- <-. exists [], [], []. rewrite total_nil.
    split_and!; try done; [by rewrite app_nil_r|lia].
  - cbn [page_items] in E. case_decide as Hd.
    + injection E as <- <-. exists [], (row :: rows), []. rewrite total_nil.
      split_and!; try done; [by rewrite app_nil_r|lia|]. exists row, rows. split; [done|].
      destruct Hd; [by left|right; lia].
    + apply bind_Some in E as (a & Ha & E). assert (len items ≠ PAGE_SIZE ∧ bytes + len (record row) ≤ MAX_PAYLOAD - 96) as [Hd1 Hd2] by lia.
      apply IH in E as (taken & rest & new & -> & -> & Hf & Ht & Hl & Hm);
        [|rewrite len_app, len_cons, len_nil; lia|lia].
      exists (row :: taken), rest, (a :: new). rewrite total_cons.
      split_and!; try done; [by rewrite <- (assoc_L (++))|by constructor|lia|].
      destruct more; [|done]. destruct Hm as (row' & rest' & -> & Hm). exists row', rest'.
      split; [done|]. destruct Hm; [by left|right; lia].
Qed.

(** The loop gives a page whenever every row decodes. *)
Lemma page_items_total {R A} (record : R → list byte) (f : R → option A) rows items bytes :
  Forall (λ row, is_Some (f row)) rows → is_Some (page_items record f rows items bytes).
Proof.
  intros Hf. revert items bytes. induction Hf as [|row rows [a Ha] _ IH]; intros items bytes; [by eexists|].
  cbn [page_items]. case_decide; [by eexists|]. rewrite Ha. simpl. apply IH.
Qed.

(** ** The rows *)

Lemma merge_sort_increasing {A} (key : A → Z) (R : relation A) `{!RelDecision R} l :
  (∀ x y, R x y ↔ key x ≤ key y) →
  StronglySorted Z.lt (key <$> l) → merge_sort R l = l.
Proof.
  intros HR Hs.
  assert (Transitive R) by (intros x y z; rewrite !HR; lia).
  assert (Total R) by (intros x y; rewrite !HR; lia).
  assert (Sorted R l) as Hl.
  { clear -HR Hs. induction l as [|a l IH]; [constructor|].
    inversion Hs as [|? ? Hs' Ha]; subst. constructor; [by apply IH|].
    destruct l as [|b l]; constructor. apply HR. inversion Ha; subst. lia. }
  apply (Sorted_unique_strong R).
  - intros x y Hx Hy Hxy Hyx. rewrite merge_sort_Permutation in Hx.
    rewrite HR in Hxy, Hyx. apply (increasing_inj key l); [done|done|done|lia].
  - apply Sorted_merge_sort; apply _.
  - done.
  - apply merge_sort_Permutation.
Qed.

(** Consecutive numbers from [k] on: those above [after] are the ones past it. *)
Lemma filter_above {A} (key : A → Z) l k after :
  key <$> l = seqZ k (len l) → k - 1 ≤ after →
  filter (λ x, after < key x) l = drop (Z.to_nat (after - k + 1)) l.
Proof.
  revert k. induction l as [|a l IH]; intros k E Hk; [by rewrite drop_nil|].
  rewrite len_cons, seqZ_cons in E by (pose proof (len_nonneg l); lia). injection E as Ea El.
  change (key <$> l = seqZ (Z.succ k) (Z.pred (1 + len l))) in El.
  replace (Z.pred (1 + len l)) with (len l) in El by lia.
  destruct (decide (after < key a)) as [Hlt|Hge].
  - replace (Z.to_nat (after - k + 1)) with 0%nat by lia. rewrite drop_0. apply filter_all.
    rewrite Forall_forall. intros x Hx. assert (key x ∈ key <$> a :: l) as Hin
      by (by apply list_elem_of_fmap_2).
    rewrite fmap_cons, El, Ea in Hin. apply elem_of_cons in Hin as [?|Hin]; [lia|].
    apply elem_of_seqZ in Hin. lia.
  - rewrite filter_cons_False by lia. rewrite (IH (Z.succ k)) by (done || lia).
    replace (Z.to_nat (after - k + 1)) with (S (Z.to_nat (after - Z.succ k + 1))) by lia. done.
Qed.

Section rows.
Context `{Postcard} `{Sha256}.

Lemma increasing_seqZ k n : StronglySorted Z.lt (seqZ k (Z.of_nat n)).
Proof.
  revert k. induction n as [|n IH]; intros k; [constructor|].
  rewrite seqZ_cons by lia. replace (Z.pred (Z.of_nat (S n))) with (Z.of_nat n) by lia.
  constructor; [apply IH|]. apply Forall_forall. intros x Hx%elem_of_seqZ. lia.
Qed.

Lemma increasing_drop n l : StronglySorted Z.lt l → StronglySorted Z.lt (drop n l).
Proof.
  revert n. induction l as [|a l IH]; intros [|n] Hs; simpl; try done. inversion Hs; subst. auto.
Qed.

(** [select_events] reads the log of the room from the given number on. *)
Lemma select_events_drop room after db :
  log_inv db → 0 ≤ after →
  select_events room after db = take 101 (drop (Z.to_nat after) (room_events room db)).
Proof.
  intros Hl Ha. pose proof (log_sequences db Hl room) as Hs. unfold select_events. f_equal.
  assert (filter (λ e, event_room e = room ∧ after < event_sequence e) (delivery_events db)
          = drop (Z.to_nat after) (room_events room db)) as Hf.
  { pose proof (filter_above event_sequence (room_events room db) 1 after Hs) as Hd.
    replace (after - 1 + 1) with after in Hd by lia. rewrite <- Hd by lia.
    unfold room_events. rewrite list_filter_filter. apply list_filter_iff. tauto. }
  rewrite Hf. apply (merge_sort_increasing event_sequence); [done|].
  rewrite fmap_drop, Hs. apply increasing_drop, increasing_seqZ.
Qed.
Definition decode_row (row : EventRow) : option Event.t :=
  ok_value (decode_message c_event (event_record row)).

(** The rows of the log decode to what they were made from. *)
Lemma decode_row_spec room db row :
  log_inv db → row ∈ room_events room db →
  ∃ e, decode_row row = Some e ∧ put c_event e = event_record row ∧ valid c_event e ∧
       Event.sequence e = Some (event_sequence row) ∧ Append.room (Event.operation e) = room ∧
       len (event_record row) ≤ MAX_PAYLOAD - 100.
Proof.
  intros Hl Hin. destruct (room_event_inv room db row Hl Hin) as (op & Hv & Hi & Hr & Hrow).
  exists (Event.Mk (event_id row) (event_sender row) op). unfold decode_row.
  rewrite Hrow, decode_event_row by done. split_and!; try done.
  - apply checked_add_Some. split; [done|]. unfold append_invalid in Hi. reflect_bools.
    unfold i64_max, u64_max in *. simpl. lia.
  - by apply append_size.
Qed.

Lemma decode_row_inv room db row e :
  log_inv db → row ∈ room_events room db → decode_row row = Some e →
  put c_event e = event_record row ∧ valid c_event e ∧
  Event.sequence e = Some (event_sequence row) ∧ Append.room (Event.operation e) = room.
Proof.
  intros Hl Hin E. destruct (decode_row_spec room db row Hl Hin) as (e' & E' & ? & ? & ? & ? & _).
  rewrite E in E'. by simplify_eq.
Qed.

Lemma total_events taken events :
  Forall2 (λ row e, put c_event e = event_record row) taken events →
  foldr Z.add 0 ((λ e, len (put c_event e)) <$> events) = total event_record taken.
Proof. induction 1 as [|row e taken events E _ IH]; [done|]. rewrite total_cons, <- IH, <- E. done. Qed.

(** One page of a room's log. *)
Record event_page (room : RoomId) (after : Z) (db : RelayDb) (events : list Event.t) (more : bool)
    : Prop := {
  page_numbered i e : events !! i = Some e →
    Event.sequence e = Some (after + 1 + Z.of_nat i) ∧ Append.room (Event.operation e) = room;
  page_progress : after < head_of room db → events ≠ [];
  page_more : more = bool_decide (after + len events < head_of room db);
  page_valid : len events ≤ PAGE_SIZE ∧ Forall (valid c_event) events;
  page_bytes : foldr Z.add 0 ((λ e, len (put c_event e)) <$> events) ≤ MAX_PAYLOAD - 96;
}.

Lemma event_page_ok room after db events more :
  log_inv db → 0 ≤ after →
  page_items event_record decode_row (select_events room after db) [] 0 = Some (events, more) →
  event_page room after db events more.
Proof.
  intros Hl Ha E. rewrite select_events_drop in E by done.
  set (rows := drop (Z.to_nat after) (room_events room db)) in *.
  apply page_items_spec in E as (taken & rest & new & Hrows & Hnew & Hf & Hb & Hlen & Hm); [|done..].
  simpl in Hnew. subst new. pose proof (Forall2_length _ _ _ Hf) as Hlens.
  assert (∀ i row, taken !! i = Some row →
    room_events room db !! (Z.to_nat after + i)%nat = Some row) as Htaken.
  { intros i row Hi. rewrite <- lookup_drop. fold rows.
    assert (take 101 rows !! i = Some row) as Ht by (rewrite Hrows; by apply lookup_app_l_Some).
    by apply lookup_take_Some in Ht as [? _]. }
  assert (len (room_events room db) = head_of room db) as Hhead by (by rewrite head_of_len).
  assert (length rows = (length (room_events room db) - Z.to_nat after)%nat) as Hlr
    by (unfold rows; apply length_drop).
  pose proof (f_equal length Hrows) as Hlt. rewrite length_take, length_app in Hlt.
  unfold len in *. unfold PAGE_SIZE in *.
  assert (Forall2 (λ row e, put c_event e = event_record row ∧ valid c_event e) taken events) as Hputs.
  { apply Forall2_same_length_lookup_2; [done|]. intros i row e Hi He.
    pose proof (proj1 (Forall2_lookup _ _ _) Hf i) as Hfi. rewrite Hi, He in Hfi. inversion Hfi; subst.
    apply Htaken, list_elem_of_lookup_2 in Hi.
    destruct (decode_row_inv room db row e) as (? & ? & _ & _); done. }
  constructor.
  - intros i e He. pose proof (proj1 (Forall2_lookup _ _ _) Hf i) as Hfi. rewrite He in Hfi.
    destruct (taken !! i) as [row|] eqn:Hi; inversion Hfi; subst. apply Htaken in Hi as Hrow.
    destruct (decode_row_inv room db row e) as (_ & _ & Hs & Hr); [done| |done|].
    { by eapply list_elem_of_lookup_2. }
    split; [|done]. rewrite Hs. f_equal. rewrite (room_events_lookup room db _ row Hl Hrow). lia.
  - intros Hlt' ->. simpl in Hlens. destruct taken; [|done]. simpl in Hrows.
    destruct more; [|rewrite Hm in Hlt; cbn [length] in Hlt; lia].
    destruct Hm as (row & rest' & -> & [Hm|Hm]); [done|].
    assert (row ∈ room_events room db) as Hin.
    { assert (row ∈ take 101 rows) as Hin by (rewrite Hrows; by apply elem_of_cons; left).
      apply (subseteq_take 101 rows) in Hin. by apply (subseteq_drop (Z.to_nat after)) in Hin. }
    destruct (decode_row_spec room db row Hl Hin) as (_ & _ & _ & _ & _ & _ & Hsize).
    rewrite total_nil in Hm. unfold len in Hsize. lia.
  - symmetry. unfold len. destruct more.
    + apply bool_decide_eq_true_2. destruct Hm as (row & rest' & -> & _). cbn [length] in Hlt. lia.
    + apply bool_decide_eq_false_2. rewrite Hm in Hlt. cbn [length] in Hlt. lia.
  - split; [unfold len, PAGE_SIZE; lia|]. apply Forall2_Forall_r with (Q := valid c_event) in Hputs; [done|].
    apply Forall_true. by intros row e [_ ?].
  - rewrite (total_events taken); [lia|]. eapply Forall2_impl; [exact Hputs|]. by intros ? ? [? _].
Qed.
End rows.

Section pages.
Context (env : Env) (Henv : healthy env) `{Postcard} `{Sha256}.
#[local] Set Default Proof Using "Type*".

Lemma runs_page {R A} (record : R → list byte) (build : R → TxM A) f rows items bytes r d :
  (∀ row a, f row = Some a → runs env (build row) d a d) →
  page_items record f rows items bytes = Some r →
  runs env (page record build rows items bytes) d r d.
Proof.
  intros Hb. revert items bytes. induction rows as [|row rows IH]; intros items bytes E;
    cbn [page page_items] in *.
  - injection E as <-. apply runs_ret.
  - eapply runs_bind; [by apply runs_next_row|]. case_decide.
    + injection E as <-. apply runs_ret.
    + apply bind_Some in E as (a & Ha & E). eapply runs_bind; [by apply Hb|]. by apply IH.
Qed.

Lemma runs_fetch user room after events more d :
  after ≤ i64_max → (room, user) ∈ room_subscribers d →
  page_items event_record decode_row (select_events room after d) [] 0 = Some (events, more) →
  runs env (fetch_room_events user room after) d (Response.RoomEvents room after events more) d.
Proof.
  intros Ha Hs E. unfold fetch_room_events, subscribed. apply runs_decide_false; [lia|].
  eapply runs_bind; [by apply runs_query|]. rewrite bool_decide_eq_true_2 by done. cbn [negb].
  eapply runs_bind; [by apply runs_query|].
  eapply runs_bind; [eapply runs_page; [|exact E]|apply runs_ret].
  intros row a Hrow. apply runs_lift. unfold decode_row in Hrow.
  destruct (decode_message c_event (event_record row)); by simplify_eq/=.
Qed.

Lemma fetch_request_size room after :
  0 ≤ after ≤ i64_max → len (put c_request (Request.FetchRoomEvents room after)) ≤ MAX_PAYLOAD.
Proof.
  intros Ha. change (put c_request (Request.FetchRoomEvents room after))
    with (z2b 4 :: put c_room_id room ++ put c_u64 after).
  rewrite len_cons, len_app, len_put_room. pose proof (len_put_i64 after Ha). unfold MAX_PAYLOAD. lia.
Qed.

(** A page and its envelope fit the payload cap. *)
Lemma events_message_size id room after db events more :
  0 ≤ after ≤ i64_max → event_page room after db events more →
  len (put c_relay_message (RelayMessage.Delivery id (Response.RoomEvents room after events more)))
    ≤ MAX_PAYLOAD.
Proof.
  intros Ha [_ _ _ [Hlen _] Hb].
  change (put c_relay_message (RelayMessage.Delivery id (Response.RoomEvents room after events more)))
    with (z2b 100 :: put c_message_id id ++ z2b 5 :: put c_room_id room ++ put c_u64 after
            ++ put c_events events ++ put c_bool more).
  rewrite len_cons, !len_app, len_cons, !len_app, len_put_message, len_put_room.
  destruct (len_put_bounded 100 I c_event events) as [Hev Hone]; [unfold PAGE_SIZE in *; lia|].
  unfold c_events. rewrite Hev, Hone. pose proof (len_put_i64 after Ha).
  cbn [put c_bool]. rewrite bool_length. lia.
Qed.
End pages.

(** C10: recovery by pages works. For a subscriber of a room, at any reachable state
    where nothing fails, [FetchRoomEvents] answers with events numbered consecutively
    from the requested one on; the page is not empty while there are later events,
    [more] says exactly whether some are left, the database is unchanged, and the
    answer encodes within the payload cap. *)
Theorem event_pages_progress `{Postcard} `{Sha256} limits db user id room after env m :
  reachable limits db → healthy env → (room, user) ∈ room_subscribers db →
  delivery_requests db !! (user, id) = None → 0 ≤ after ≤ i64_max →
  ∃ events more m' l,
    deliver limits user id (Request.FetchRoomEvents room after) env db m =
      (Ok (Response.RoomEvents room after events more), db, m') ∧
    (∀ i e, events !! i = Some e →
      Event.sequence e = Some (after + 1 + Z.of_nat i) ∧ Append.room (Event.operation e) = room) ∧
    (after < head_of room db → events ≠ []) ∧
    more = bool_decide (after + len events < head_of room db) ∧
    encode_message c_relay_message
      (RelayMessage.Delivery id (Response.RoomEvents room after events more)) = Ok l.
Proof.
  intros Hr%data_inv_reachable%data_log Henv Hs Hj Ha.
  destruct (page_items_total event_record decode_row (select_events room after db) [] 0)
    as [[events more] Hp].
  { apply Forall_forall. intros row Hin. rewrite select_events_drop in Hin by (done || lia).
    apply subseteq_take, subseteq_drop in Hin.
    destruct (decode_row_spec room db row Hr Hin) as (e & -> & _). by eexists. }
  pose proof (event_page_ok room after db events more Hr (proj1 Ha) Hp) as Hpage.
  destruct (deliver_runs env Henv limits user id (Request.FetchRoomEvents room after)
    (Response.RoomEvents room after events more) db db m) as [m' E]; try done.
  { by apply fetch_request_size. }
  { apply runs_fetch; [done|lia|done|done]. }
  exists events, more, m', (put c_relay_message
    (RelayMessage.Delivery id (Response.RoomEvents room after events more))).
  split_and!; [exact E|apply Hpage|apply Hpage|apply Hpage|].
  apply encode_message_fits. by eapply events_message_size.
Qed.

Lemma event_pages_progress_witness :
  ∃ events more m' l,
    demo_deliver bob (attempt x07) (Request.FetchRoomEvents cave 0) db_added =
      (Ok (Response.RoomEvents cave 0 events more), db_added, m') ∧
    (∀ i e, events !! i = Some e →
      Event.sequence e = Some (0 + 1 + Z.of_nat i) ∧ Append.room (Event.operation e) = cave) ∧
    (0 < head_of cave db_added → events ≠ []) ∧
    more = bool_decide (0 + len events < head_of cave db_added) ∧
    encode_message c_relay_message
      (RelayMessage.Delivery (attempt x07) (Response.RoomEvents cave 0 events more)) = Ok l.
Proof.
  apply (event_pages_progress demo_limits db_added bob (attempt x07) cave 0 demo_env demo_metrics);
    [apply db_added_reachable|apply demo_healthy|apply db_added_room|by vm_compute|by vm_compute].
Defined.

(** ** Welcome pages *)

Section welcomes.
Context `{Postcard}.

Definition decode_welcome_row (row : WelcomeRow) : option WelcomeDelivery.t :=
  with_cursor (welcome_cursor row) <$>
    ok_value (decode_message c_welcome_delivery (welcome_record row)).

(** A stored Welcome: its record holds the cursor 0, its row the real one. *)
Definition stored_welcome (row : WelcomeRow) (w : WelcomeDelivery.t) : Prop :=
  valid c_welcome_delivery w ∧ WelcomeDelivery.cursor w = 0 ∧
  welcome_record row = put c_welcome_delivery w ∧ len (welcome_record row) ≤ MAX_PAYLOAD.

Lemma decode_stored_welcome row w :
  stored_welcome row w → decode_welcome_row row = Some (with_cursor (welcome_cursor row) w).
Proof.
  intros (Hv & _ & Hr & Hlen). unfold decode_welcome_row. rewrite Hr.
  erewrite decode_encode_message; [done|exact Hv|]. apply encode_message_fits. by rewrite <- Hr.
Qed.

Lemma len_with_cursor c w :
  len (put c_welcome_delivery (with_cursor c w)) + len (put c_u64 (WelcomeDelivery.cursor w))
  = len (put c_welcome_delivery w) + len (put c_u64 c).
Proof.
  destruct w as [n c0 i r s u a]. unfold with_cursor.
  cbn [WelcomeDelivery.room_name WelcomeDelivery.event WelcomeDelivery.room
       WelcomeDelivery.sequence WelcomeDelivery.inviter WelcomeDelivery.attachment
       WelcomeDelivery.cursor].
  assert (∀ c, put c_welcome_delivery (WelcomeDelivery.Mk n c i r s u a) =
    (((((put c_name n ++ put c_u64 c) ++ put c_message_id i) ++ put c_room_id r)
      ++ put c_u64 s) ++ put c_user_id u) ++ put c_welcome_attachment a) as Hput by done.
  rewrite !Hput, !len_app. lia.
Qed.

(** Rows that all fit make one page. *)
Lemma page_items_all {R A} (record : R → list byte) (f : R → option A) rows new items bytes :
  Forall2 (λ row a, f row = Some a) rows new →
  len items + len rows ≤ PAGE_SIZE → bytes + total record rows ≤ MAX_PAYLOAD - 96 →
  page_items record f rows items bytes = Some (items ++ new, false).
Proof.
  intros Hf. revert items bytes. induction Hf as [|row a rows new Ha Hf IH]; intros items bytes Hi Hb.
  - by rewrite app_nil_r.
  - rewrite len_cons in Hi. rewrite total_cons in Hb. pose proof (len_nonneg rows).
    pose proof (total_nonneg record rows).
    cbn [page_items]. rewrite decide_False by lia. rewrite Ha. cbn [mbind option_bind].
    rewrite IH; [by rewrite <- (assoc_L (++))|rewrite len_app, len_cons, len_nil; lia|lia].
Qed.

(** The cursors add what the stored zeros did not take. *)
Lemma total_with_cursors k rows ws :
  0 ≤ k → Forall2 stored_welcome rows ws →
  Forall (λ row, 2 ^ (7 * k) ≤ welcome_cursor row ≤ i64_max) rows →
  total welcome_record rows + k * len rows ≤
  foldr Z.add 0 ((λ w, len (put c_welcome_delivery w)) <$>
    zip_with (λ row w, with_cursor (welcome_cursor row) w) rows ws).
Proof.
  intros Hk Hf. induction Hf as [|row w rows ws (Hv & Hc & Hr & _) _ IH]; intros Hall.
  - unfold total, len. simpl. lia.
  - inversion Hall as [|? ? Hcur Hall']; subst. specialize (IH Hall').
    rewrite total_cons, len_cons. cbn [zip_with fmap list_fmap foldr].
    pose proof (len_with_cursor (welcome_cursor row) w) as Hl. rewrite Hc in Hl.
    pose proof (len_put_small W64 0 1) as H0. unfold c_u64 in Hl.
    pose proof (varint_longer W64 (welcome_cursor row) k) as Hlong.
    cbn [put c_varint] in *. unfold width_max, u64_max, i64_max in *. rewrite Hr. lia.
Qed.
End welcomes.

Section welcome_pages.
Context (env : Env) (Henv : healthy env) `{Postcard} `{Sha256}.
#[local] Set Default Proof Using "Type*".

Lemma runs_fetch_welcomes user after welcomes more d :
  after ≤ i64_max →
  page_items welcome_record decode_welcome_row (select_welcomes user after d) [] 0
    = Some (welcomes, more) →
  runs env (fetch_welcomes user after) d (Response.Welcomes after welcomes more) d.
Proof.
  intros Ha E. unfold fetch_welcomes. apply runs_decide_false; [lia|].
  eapply runs_bind; [by apply runs_query|].
  eapply runs_bind; [eapply runs_page; [done| |exact E]|apply runs_ret].
  intros row a Hrow. unfold decode_welcome_row in Hrow.
  destruct (decode_message c_welcome_delivery (welcome_record row)) eqn:Hdec; simplify_eq/=.
  eapply runs_bind; [by apply runs_lift|apply runs_ret].
Qed.
End welcome_pages.

(** C11: a page of Welcomes can be too large to send. The loop of [FetchWelcomes] counts
    the stored records, which hold the cursor 0 in one byte, while the answer carries
    the real cursors. When a recipient's records fill the page to within the budget and
    the cursors need three bytes or more, the relay builds the answer, and the answer
    does not encode: recovery of these Welcomes cannot proceed. *)
Theorem welcome_page_overflows `{Postcard} `{Sha256} limits env db m user id after ws :
  healthy env → delivery_requests db !! (user, id) = None → 0 ≤ after ≤ i64_max →
  len (select_welcomes user after db) ≤ PAGE_SIZE →
  Forall2 stored_welcome (select_welcomes user after db) ws →
  Forall (λ row, 2 ^ (7 * 2) ≤ welcome_cursor row ≤ i64_max) (select_welcomes user after db) →
  total welcome_record (select_welcomes user after db) ≤ MAX_PAYLOAD - 96 →
  MAX_PAYLOAD < total welcome_record (select_welcomes user after db)
                + 2 * len (select_welcomes user after db) + 21 →
  ∃ welcomes m',
    deliver limits user id (Request.FetchWelcomes after) env db m =
      (Ok (Response.Welcomes after welcomes false), db, m') ∧
    encode_message c_relay_message
      (RelayMessage.Delivery id (Response.Welcomes after welcomes false)) = Err SerializeBufferFull.
Proof.
  intros Henv Hj Ha Hlen Hst Hcur Htot Hover.
  set (rows := select_welcomes user after db) in *.
  set (welcomes := zip_with (λ row w, with_cursor (welcome_cursor row) w) rows ws).
  assert (page_items welcome_record decode_welcome_row rows [] 0 = Some (welcomes, false)) as Hp.
  { rewrite (page_items_all _ _ _ welcomes); [done| |by rewrite len_nil|lia].
    unfold welcomes. clear - Hst. induction Hst; constructor; [by apply decode_stored_welcome|done]. }
  destruct (deliver_runs env Henv limits user id (Request.FetchWelcomes after)
    (Response.Welcomes after welcomes false) db db m) as [m' E]; try done.
  { change (put c_request (Request.FetchWelcomes after)) with (z2b 6 :: put c_u64 after).
    rewrite len_cons. pose proof (len_put_i64 after Ha). unfold MAX_PAYLOAD. lia. }
  { apply runs_fetch_welcomes; [done|lia|done]. }
  exists welcomes, m'. split; [exact E|].
  unfold encode_message, serialized_size. rewrite decide_True; [done|].
  change (put c_relay_message (RelayMessage.Delivery id (Response.Welcomes after welcomes false)))
    with (z2b 100 :: put c_message_id id ++ z2b 7 :: put c_u64 after ++ put c_welcomes welcomes
            ++ put c_bool false).
  rewrite len_cons, len_app, len_cons, !len_app, len_put_message.
  pose proof (total_with_cursors 2 rows ws ltac:(lia) Hst Hcur) as Hsum. fold welcomes in Hsum.
  assert (len welcomes = len rows) as Hlw.
  { unfold welcomes, len. rewrite length_zip_with, <- (Forall2_length _ _ _ Hst). lia. }
  destruct (len_put_bounded 100 I c_welcome_delivery welcomes) as [Hw Hone];
    [rewrite Hlw; unfold PAGE_SIZE in *; lia|].
  unfold c_welcomes. rewrite Hw, Hone. pose proof (len_put_i64 after Ha).
  cbn [put c_bool]. rewrite bool_length. lia.
Qed.

(** Sixty Welcomes for Bob of 13105 bytes each, with cursors from 20000 on. *)
Definition large_welcome : WelcomeDelivery.t :=
  WelcomeDelivery.Mk (lit "Cave") 0 (attempt x02) cave 1 alice
    (WelcomeAttachment.Mk bob (replicate (Z.to_nat 12968) x00) (MkSignature (vreplicate 64 x05))).
Definition large_welcome_rows (record : list byte) : list WelcomeRow :=
  (λ i, MkWelcomeRow (20000 + i) bob record) <$> seqZ 0 60.
Definition welcome_db (record : list byte) : RelayDb :=
  set_welcomes (λ _, large_welcome_rows record) 30000 empty_db.

Lemma select_welcome_db record : select_welcomes bob 0 (welcome_db record) = large_welcome_rows record.
Proof. vm_compute. reflexivity. Qed.

Lemma total_large_welcome_rows record : total welcome_record (large_welcome_rows record) = 60 * len record.
Proof. unfold total, large_welcome_rows. rewrite <- list_fmap_compose. simpl. lia. Qed.

Lemma large_welcome_stored c :
  stored_welcome (MkWelcomeRow c bob (put c_welcome_delivery large_welcome)) large_welcome.
Proof.
  split_and!; [|done|done|by vm_compute].
  split; [split; [split; [split; [split; [split; [by vm_compute|by vm_compute]|done]|done]
    |by vm_compute]|done]|].
  split; [split; [done|split; [by vm_compute|by apply Forall_true]]|done].
Qed.

Lemma welcome_page_overflows_witness :
  ∃ welcomes m',
    demo_deliver bob (attempt x09) (Request.FetchWelcomes 0)
        (welcome_db (put c_welcome_delivery large_welcome)) =
      (Ok (Response.Welcomes 0 welcomes false),
       welcome_db (put c_welcome_delivery large_welcome), m') ∧
    encode_message c_relay_message
      (RelayMessage.Delivery (attempt x09) (Response.Welcomes 0 welcomes false))
    = Err SerializeBufferFull.
Proof.
  assert (len (put c_welcome_delivery large_welcome) = 13105) as Hlen by (vm_compute; reflexivity).
  pose proof large_welcome_stored as Hst. revert Hlen Hst.
  generalize (put c_welcome_delivery large_welcome) as record. intros record Hlen Hst.
  unfold demo_deliver. generalize large_welcome, Hst. clear Hst. intros w Hst.
  apply (welcome_page_overflows demo_limits demo_env (welcome_db record) demo_metrics bob
    (attempt x09) 0 ((λ _, w) <$> seqZ 0 60));
    rewrite ?select_welcome_db, ?total_large_welcome_rows, ?Hlen.
  - apply demo_healthy.
  - done.
  - by vm_compute.
  - by vm_compute.
  - unfold large_welcome_rows. apply Forall2_fmap_2, Forall_Forall2_diag, Forall_forall.
    intros i _. apply Hst.
  - unfold large_welcome_rows. apply Forall_fmap, Forall_forall. intros i Hi%elem_of_seqZ. simpl.
    unfold i64_max. lia.
  - by vm_compute.
  - by vm_compute.
Defined.
