(* ===== verification/RelayAccess.v ===== *)
(** * Access, key packages and quotas

    Who may see and extend what, how key packages are handed out, and what the
    ledgers bound. *)
From S2P Require Import Prelude Bytes Text Postcard PostcardRef Protocol Wire Identifiers.
From S2P Require Import Transcripts Framing RelayStorage RelayLimits RelayDelivery RelaySpec.
From S2P Require Import Enrollment RelayInvariant Sizes RelayRun RelayHistory RelayDemo.
From S2P Require Import RelayProps RelayPaging.

(** ** Access *)

(** What a user may be told. *)
Definition may_see (db : RelayDb) (user : UserId) (response : Response.t) : Prop :=
  match response with
  | Response.RoomEvents room _ _ _ | Response.HeadConflict room _ =>
      (room, user) ∈ room_subscribers db
  | Response.AppendAccepted e =>
      Event.sender e = user ∧ (Append.room (Event.operation e), user) ∈ room_subscribers db
  | Response.SyncIndex rooms _ =>
      Forall (λ h, (RoomHead.room h, user) ∈ room_subscribers db) rooms
  | Response.Welcomes _ welcomes _ =>
      Forall (λ w, WelcomeAttachment.recipient (WelcomeDelivery.attachment w) = user) welcomes
  | _ => True
  end.

Section access.
Context `{Postcard} `{Sha256}.

Lemma decode_put_response resp l :
  valid c_response resp → len (put c_response resp) ≤ MAX_PAYLOAD →
  decode_message c_response (put c_response resp) = Ok l → l = resp.
Proof.
  intros Hv Hl E. rewrite (decode_encode_message c_response resp) in E; [|done|by apply encode_message_fits].
  by simplify_eq.
Qed.

Lemma select_welcomes_recipient user after db row :
  row ∈ select_welcomes user after db → row ∈ delivery_welcomes db ∧ welcome_recipient row = user.
Proof.
  intros Hin%subseteq_take. rewrite merge_sort_Permutation in Hin.
  by apply list_elem_of_filter in Hin as [[? _] ?].
Qed.

Lemma welcome_row_decodes db row w :
  welcome_row_ok db row → decode_welcome_row row = Some w →
  WelcomeAttachment.recipient (WelcomeDelivery.attachment w) = welcome_recipient row.
Proof.
  intros (user & id & op & a & n & _ & Hw & Hv & Hi & Hn & Hr & _ & Hrec) E.
  rewrite (decode_stored_welcome row (welcome_delivery user id op n a)) in E; [|split_and!; try done].
  - injection E as <-. by rewrite Hr.
  - by apply welcome_delivery_valid.
  - rewrite Hrec. by apply welcome_record_size.
Qed.

Lemma reads_may_see db user request response :
  data_inv db → reads user db request response → may_see db user response.
Proof.
  intros Hd Hr. destruct request, response; simpl in Hr; try done.
  - by destruct Hr as (-> & _ & _ & Hin & _).
  - destruct Hr as [-> _]. simpl. apply Forall_take, Forall_fmap, Forall_forall. intros [r q] Hin.
    apply subseteq_take in Hin. rewrite merge_sort_Permutation in Hin.
    by apply list_elem_of_filter in Hin as [[? _] _].
  - destruct Hr as (_ & _ & Hp). simpl.
    apply page_items_spec in Hp as (taken & rest & new & Hrows & -> & Hf & _); [|done..].
    apply Forall2_Forall_r with (Q := λ w, WelcomeAttachment.recipient (WelcomeDelivery.attachment w) = user)
      in Hf; [done|].
    apply Forall_forall. intros row Hin w Hw.
    assert (row ∈ select_welcomes user after_cursor db) as Hsel by (rewrite Hrows; apply elem_of_app; by left).
    apply select_welcomes_recipient in Hsel as [Hsel <-].
    pose proof (welcome_rows db (data_welcomes db Hd)) as Hok. rewrite Forall_forall in Hok.
    apply (welcome_row_decodes db); [by apply Hok|done].
Qed.

Lemma effect_may_see now user id db request response db' :
  data_inv db → effect now user id db request response db' → may_see db user response.
Proof. intros Hd. destruct 1; try done. by eapply reads_may_see. Qed.

Lemma journal_may_see db user id row response :
  data_inv db → journal_inv db → delivery_requests db !! (user, id) = Some row →
  decode_message c_response (journal_response row) = Ok response → may_see db user response.
Proof.
  intros Hd Hj Hrow Hdec. destruct (Hj _ _ Hrow) as (req & resp & _ & Hv & -> & Hlen & _ & Hresp).
  apply decode_put_response in Hdec as ->; [|done..].
  destruct resp; try done. destruct Hresp as (_ & He & Hin). rewrite He. simpl. split; [done|].
  pose proof (senders_subscribed db (data_membership db Hd)) as Hs. rewrite Forall_forall in Hs.
  by apply Hs in Hin.
Qed.

Lemma effect_extends now user id db request response db' room :
  effect now user id db request response db' →
  room_events room db' ≠ room_events room db → (room, user) ∈ room_subscribers db.
Proof.
  intros Heff Hne. destruct Heff as [| | | | | | | |op db' Hs _ _ _ _ Ha]; try done.
  apply append_effect_events in Ha. destruct (decide (Append.room op = room)) as [<-|Hr]; [done|].
  destruct Hne. rewrite (room_events_ext room (set_events (λ l, l ++ [event_row user id op]) db)) by done.
  rewrite room_events_snoc. rewrite decide_False by done. by rewrite app_nil_r.
Qed.
End access.



(** ** Key packages *)

Section packages.
Context `{Postcard} `{Sha256}.

Lemma packages_of_increasing user db :
  package_inv db → StronglySorted Z.lt (rowid <$> packages_of user db).
Proof. intros Hp. apply increasing_filter, Hp. Qed.

(** The package handed out is the oldest of its owner. *)
Lemma first_package_head user db :
  package_inv db → first_package user db = head (packages_of user db).
Proof.
  intros Hp. unfold first_package.
  f_equal. apply (merge_sort_increasing rowid); [done|by apply packages_of_increasing].
Qed.

Lemma filter_other_rowids row rows :
  Forall (λ p, rowid row < rowid p) rows → filter (λ p, rowid p ≠ rowid row) rows = rows.
Proof. intros Hf. apply filter_all. eapply Forall_impl; [exact Hf|]. simpl. lia. Qed.

Lemma packages_after_reserve row rest user db :
  package_inv db → packages_of user db = row :: rest →
  packages_of user (set_packages (filter (λ p, rowid p ≠ rowid row)) db) = rest ∧
  ∀ other, other ≠ user →
    packages_of other (set_packages (filter (λ p, rowid p ≠ rowid row)) db) = packages_of other db.
Proof.
  intros Hp Hrow. split.
  - rewrite packages_of_remove, Hrow, filter_cons_False by tauto. apply filter_other_rowids.
    pose proof (packages_of_increasing user db Hp) as Hs. rewrite Hrow in Hs.
    inversion Hs as [|? ? _ Hf]; subst. by rewrite Forall_fmap in Hf.
  - intros other Hne. rewrite packages_of_remove. apply filter_all, Forall_forall.
    intros p Hin Heq. assert (row ∈ packages_of user db) as Hin' by (rewrite Hrow; by apply elem_of_cons; left).
    unfold packages_of in Hin, Hin'. apply list_elem_of_filter in Hin as [Hu Hin].
    apply list_elem_of_filter in Hin' as [Hu' Hin']. destruct Hne. rewrite <- Hu, <- Hu'. f_equal.
    by apply (increasing_inj rowid (key_packages db)); [apply Hp|..].
Qed.
End packages.

(** C8: a key package is handed out once, in order, and only by permission. A
    reservation that gives a package comes from a requester the recipient has granted,
    within the hourly limits of 16 per recipient and 4 per requester; the package is
    the oldest of the recipient's pool and is gone from it afterwards, nobody else's
    pool changes, and the allocation is recorded. *)
Theorem key_packages_are_single_use `{Postcard} `{Sha256} limits db user id recipient env m
    recipient' package db' m' :
  reachable limits db → delivery_requests db !! (user, id) = None →
  deliver limits user id (Request.ReserveKeyPackage recipient) env db m =
    (Ok (Response.KeyPackage recipient' package), db', m') →
  recipient' = recipient ∧ (recipient, user) ∈ fetch_grants db ∧
  len (recent_allocations (now env) recipient db) < 16 ∧
  len (by_requester user (recent_allocations (now env) recipient db)) < 4 ∧
  (∃ row rest, packages_of recipient db = row :: rest ∧ package = key_package row ∧
     packages_of recipient db' = rest) ∧
  (∀ other, other ≠ recipient → packages_of other db' = packages_of other db) ∧
  package_allocations db' = package_allocations db ++ [MkAllocation user recipient (now env)].
Proof.
  intros Hr%data_inv_reachable%data_packages Hj [_ E]%deliver_outcome.
  destruct E as [row Hrow|row Hrow|reason _ Hrec|_ _ ?|db' Hp]; try congruence; try done.
  destruct Hp as [db1 _ Heff _ _ _ _ _ _|_ Heff [|]]; try done.
  destruct (save_tables_same user id (Request.ReserveKeyPackage recipient)
    (Response.KeyPackage recipient' package) db1) as [_ _ Hpk _ _ _ _ Hal].
  inversion Heff as [|? ? Hreads| | | | | |? row Hg H16 H4 Hfirst|]; subst; [done|].
  rewrite first_package_head in Hfirst by done.
  destruct (packages_of recipient' db) as [|row' rest] eqn:Hpool; [done|]. simpl in Hfirst. simplify_eq.
  destruct (packages_after_reserve row rest recipient' db Hr Hpool) as [Hown Hother].
  assert (∀ u, packages_of u (save_tables user id (Request.ReserveKeyPackage recipient')
      (Response.KeyPackage recipient' (key_package row))
      (set_allocations (λ l, l ++ [MkAllocation user recipient' (now env)])
        (set_packages (filter (λ p, rowid p ≠ rowid row)) db)))
    = packages_of u (set_packages (filter (λ p, rowid p ≠ rowid row)) db)) as Hsame.
  { intros u. unfold packages_of. by rewrite Hpk. }
  split_and!; try done.
  - exists row, rest. split_and!; [done|done|]. by rewrite Hsame.
Qed.

(** Bob publishes two packages and lets Alice reserve one. *)
Definition db_granted : RelayDb :=
  (demo_deliver bob (attempt x11) (Request.SetFetchGrant alice true)
    (demo_deliver bob (attempt x10) (Request.PublishKeyPackages [[x01]; [x02]]) db_added).1.2).1.2.

Lemma db_granted_reachable : reachable demo_limits db_granted.
Proof.
  eapply rtc_r; [eapply rtc_r; [exact db_added_reachable|]|]; apply demo_step; [|done].
  split; [by vm_compute|]. by repeat (constructor; [split; [by vm_compute|by apply Forall_true]|]).
Qed.

Lemma key_packages_are_single_use_witness :
  ∃ row rest, packages_of bob db_granted = row :: rest ∧ [x01] = key_package row ∧
    packages_of bob (demo_deliver alice (attempt x12) (Request.ReserveKeyPackage bob) db_granted).1.2
      = rest.
Proof.
  destruct (demo_deliver alice (attempt x12) (Request.ReserveKeyPackage bob) db_granted)
    as [[r db'] m'] eqn:E.
  assert (r = Ok (Response.KeyPackage bob [x01])) as ->.
  { apply (f_equal (fst ∘ fst)) in E. vm_compute in E. by symmetry. }
  apply (key_packages_are_single_use demo_limits db_granted alice (attempt x12) bob demo_env
    demo_metrics bob [x01] db' m'); [apply db_granted_reachable|by vm_compute|exact E].
Defined.
