(* ===== verification/RelayQuota.v ===== *)
(** * Quotas

    The ledgers of [deliver] bound what each sender and each room may store, and
    account for every event in the logs; the fixed limits on rooms and key packages
    hold as well. *)
From S2P Require Import Prelude Bytes Text Postcard PostcardRef Protocol Wire Identifiers.
From S2P Require Import Transcripts Framing RelayStorage RelayLimits RelayDelivery RelaySpec.
From S2P Require Import Enrollment RelayInvariant Sizes RelayRun RelayHistory RelayDemo.
From S2P Require Import RelayProps RelayPaging.

Section quota.
Context `{Postcard} `{Sha256}.

(** The ledgers stay within the limits and cover the stored events. *)
Record ledger_inv (limits : StorageLimits) (db : RelayDb) : Prop := {
  ledger_sender user : 0 ≤ default 0 (usage_sender db !! user) ≤ sender limits;
  ledger_room room_id : 0 ≤ default 0 (usage_room db !! room_id) ≤ room limits;
  ledger_covers room_id :
    total event_record (room_events room_id db) ≤ default 0 (usage_room db !! room_id);
}.

Lemma effect_usage now user id db request response db' :
  effect now user id db request response db' →
  usage_sender db' = usage_sender db ∧ usage_room db' = usage_room db.
Proof. destruct 1; try done. by match goal with H : append_effect _ _ _ _ _ |- _ => destruct H end. Qed.

Lemma add_usage_lookup `{Countable K} (key key' : K) b (usage : gmap K Z) :
  default 0 (add_usage key b usage !! key') =
  default 0 (usage !! key') + if decide (key = key') then b else 0.
Proof.
  unfold add_usage. case_decide as Hk.
  - subst. by rewrite lookup_insert_eq.
  - rewrite lookup_insert_ne by done. lia.
Qed.

Lemma total_app {R} (record : R → list byte) l k : total record (l ++ k) = total record l + total record k.
Proof. induction l as [|r l IH]; [done|]. cbn [app]. rewrite !total_cons, IH. lia. Qed.

(** What one request adds to the ledgers. *)
Definition sender_charge (user : UserId) (request : Request.t) (user' : UserId) : Z :=
  if is_receipt request then 0
  else if decide (user = user') then charge (put c_request request) else 0.
Definition room_charge (request : Request.t) (room_id : RoomId) : Z :=
  match request with
  | Request.AppendRoomOperation op =>
      if decide (Append.room op = room_id) then charge (put c_request request) else 0
  | _ => 0
  end.

Lemma save_tables_usage user id request response db user' room_id :
  default 0 (usage_sender (save_tables user id request response db) !! user') =
    default 0 (usage_sender db !! user') + sender_charge user request user' ∧
  default 0 (usage_room (save_tables user id request response db) !! room_id) =
    default 0 (usage_room db !! room_id) + room_charge request room_id.
Proof.
  unfold save_tables, charge_usage, sender_charge, room_charge.
  generalize (charge (put c_request request)) as q. intros q.
  destruct request; cbn [is_receipt usage_sender usage_room set_requests set_usage_sender
    set_usage_room]; rewrite ?add_usage_lookup; split; lia.
Qed.

Lemma charge_covers op user id :
  valid c_append op → append_invalid op = false →
  len (event_record (event_row user id op)) ≤ charge (put c_request (Request.AppendRoomOperation op)).
Proof.
  intros Hv Hi. pose proof (append_request_size op Hv Hi) as Hsize.
  change (event_record (event_row user id op))
    with ((put c_message_id id ++ put c_user_id user) ++ put c_append op).
  rewrite !len_app, len_put_message, len_put_user.
  change (put c_request (Request.AppendRoomOperation op)) with (z2b 3 :: put c_append op) in *.
  pose proof (len_nonneg (put c_append op)). unfold charge, saturating_add, saturating_mul.
  rewrite len_cons in *. unfold MAX_PAYLOAD, u64_max in *. lia.
Qed.

Lemma charge_nonneg l : 0 ≤ charge l.
Proof. pose proof (len_nonneg l). unfold charge, saturating_add, saturating_mul, u64_max. lia. Qed.

Lemma room_events_growth now user id db request response db1 room_id :
  valid c_request request → effect now user id db request response db1 →
  total event_record (room_events room_id db1) ≤
    total event_record (room_events room_id db) + room_charge request room_id.
Proof.
  intros Hv Heff. apply effect_events in Heff as [He|(op & -> & He & _ & Hi & _ & _)].
  - rewrite (room_events_ext room_id db db1 He). unfold room_charge. pose proof charge_nonneg.
    destruct request; try lia. case_decide; [|lia].
    match goal with |- context [ charge ?l ] => specialize (H1 l) end. lia.
  - rewrite (room_events_ext room_id (set_events (λ l, l ++ [event_row user id op]) db)) by done.
    rewrite room_events_snoc, total_app. pose proof (charge_covers op user id Hv Hi).
    unfold room_charge. change (event_room (event_row user id op)) with (Append.room op).
    case_decide; rewrite ?total_cons, total_nil; lia.
Qed.

Lemma ledger_inv_step limits db db' :
  sender limits < u64_max → room limits < u64_max →
  relay_step limits db db' → ledger_inv limits db → ledger_inv limits db'.
Proof.
  intros Hsl Hrl Hs Hi. apply relay_step_cases in Hs as
    [->|[(now & user & id & req & resp & db1 & Hv & Heff & _ & _ & _ & Hlim & _ & _ & ->)
        |[(h & row & _ & _ & ->)|(now & user & key & token & t & row & _ & _ & _ & _ & ->)]]];
    [done| |by destruct Hi..].
  destruct (effect_usage _ _ _ _ _ _ _ Heff) as [Hus Hur]. destruct Hi as [H1 H2 H3].
  pose proof (charge_nonneg (put c_request req)) as Hc.
  assert (∀ u, sender_charge user req u + default 0 (usage_sender db !! u) ≤ sender limits) as Hsend.
  { intros u. specialize (H1 u). unfold sender_charge. destruct (is_receipt req) eqn:Hrec; [lia|].
    destruct (Hlim eq_refl) as [Hl _]. case_decide; [subst|lia].
    apply saturating_add_below in Hl; [|done]. lia. }
  assert (∀ r, room_charge req r + default 0 (usage_room db !! r) ≤ room limits) as Hroom.
  { intros r. specialize (H2 r). unfold room_charge. destruct req; try lia.
    destruct (Hlim eq_refl) as [_ Hl]. case_decide; [subst|lia].
    apply saturating_add_below in Hl; [|done]. lia. }
  constructor.
  - intros u. destruct (save_tables_usage user id req resp db1 u (MkRoomId (vreplicate 16 x00))) as [-> _].
    rewrite Hus. specialize (Hsend u). specialize (H1 u). unfold sender_charge in *.
    repeat case_match; lia.
  - intros r. destruct (save_tables_usage user id req resp db1 user r) as [_ ->].
    rewrite Hur. specialize (Hroom r). specialize (H2 r). unfold room_charge in *.
    repeat case_match; lia.
  - intros r. destruct (save_tables_usage user id req resp db1 user r) as [_ ->].
    rewrite (room_events_ext r db1 _ (same_events _ _ (save_tables_same user id req resp db1))), Hur.
    pose proof (room_events_growth _ _ _ _ _ _ _ r Hv Heff). specialize (H3 r). lia.
Qed.

(** At most 64 rooms per creator. *)
Definition rooms_inv (db : RelayDb) : Prop := ∀ user, len (rooms_created user db) ≤ 64.

Lemma rooms_created_insert user room_id r db :
  rooms db !! room_id = None →
  len (rooms_created user (add_room room_id r db)) =
  len (rooms_created user db) + if decide (created_by r = user) then 1 else 0.
Proof.
  intros Hn. unfold rooms_created, len. simpl. rewrite map_to_list_insert by done.
  rewrite filter_cons. simpl. case_decide; simpl; lia.
Qed.

Lemma rooms_inv_effect now user id request response db db' :
  valid c_request request → effect now user id db request response db' → rooms_inv db → rooms_inv db'.
Proof.
  intros _ Heff Hi u. specialize (Hi u).
  destruct Heff as [| | |name n room_id _ Hn Hc| | | | |op db' _ _ _ _ _ Ha]; try done.
  - change (rooms_created u (add_subscriber _ _ ?d)) with (rooms_created u d).
    rewrite rooms_created_insert by done. simpl. case_decide; [subst; lia|lia].
  - unfold rooms_created in *. by destruct Ha.
Qed.

#[local] Instance rooms_inv_proper : Proper (same_data ==> impl) rooms_inv.
Proof. intros x y Hs Hi u. specialize (Hi u). unfold rooms_created in *. by rewrite (same_rooms x y Hs). Qed.

Lemma rooms_inv_reachable limits db : reachable limits db → rooms_inv db.
Proof.
  apply reachable_invariant; [by intros u|]. apply (step_preserves rooms_inv). exact rooms_inv_effect.
Qed.

Lemma ledger_inv_reachable limits db :
  0 ≤ sender limits < u64_max → 0 ≤ room limits < u64_max →
  reachable limits db → ledger_inv limits db.
Proof.
  intros Hs Hr. apply reachable_invariant.
  - constructor; intros; cbn [empty_db usage_sender usage_room];
      rewrite ?lookup_empty; [simpl; lia|simpl; lia|done].
  - intros db1 db2. apply ledger_inv_step; lia.
Qed.
End quota.

(** C9: the quotas hold at every reachable state. With limits below [u64::MAX], no
    sender's and no room's ledger exceeds its limit; the ledger of a room is at least
    the size of the event records stored for it, so these too stay within the room's
    limit; no user has more than 64 rooms or 64 pooled key packages, and each package
    has between 1 byte and 16 KiB. *)
Theorem quotas_hold `{Postcard} `{Sha256} limits db :
  0 ≤ sender limits < u64_max → 0 ≤ room limits < u64_max → reachable limits db →
  (∀ user, default 0 (usage_sender db !! user) ≤ sender limits ∧
           len (rooms_created user db) ≤ 64 ∧ len (packages_of user db) ≤ 64) ∧
  (∀ room_id, total event_record (room_events room_id db) ≤ default 0 (usage_room db !! room_id)
              ≤ room limits) ∧
  Forall (λ p, 1 ≤ len (key_package p) ≤ MAX_KEY_PACKAGE_BYTES) (key_packages db).
Proof.
  intros Hs Hr Hreach. pose proof (ledger_inv_reachable limits db Hs Hr Hreach) as [H1 H2 H3].
  pose proof (rooms_inv_reachable limits db Hreach) as H4.
  apply data_inv_reachable, data_packages in Hreach as [_ H5 H6]. split_and!.
  - intros user. split_and!; [apply H1|apply H4|apply H6].
  - intros room_id. split; [apply H3|apply H2].
  - eapply Forall_impl; [exact H5|]. intros p [Hne Hlen]. simpl.
    destruct (key_package p) as [|b l]; [done|]. pose proof (len_nonneg l). rewrite len_cons in *. lia.
Qed.

Lemma quotas_hold_witness :
  total event_record (room_events cave db_added)
    ≤ default 0 (usage_room db_added !! cave) ≤ 104857600.
Proof.
  apply (quotas_hold demo_limits db_added); [by vm_compute|by vm_compute|apply db_added_reachable].
Defined.

(** ** Refused appends are charged to the room *)

Section outsiders.
Context (env : Env) (Henv : healthy env) `{Postcard} `{Sha256}.
#[local] Set Default Proof Using "Type*".

Lemma runs_append_denied user id op d :
  (Append.room op, user) ∉ room_subscribers d →
  runs env (append_room_operation user id op) d (Response.Rejected Rejection.Unauthorized) d.
Proof.
  intros Hs. unfold append_room_operation, subscribed.
  eapply runs_bind; [by apply runs_query|]. rewrite bool_decide_eq_false_2 by done. cbn [negb].
  apply runs_ret.
Qed.
End outsiders.

(** C12: an append the relay refuses because its sender does not subscribe to the room is
    nevertheless charged to that room's ledger: anyone enrolled who knows a room's id
    uses up the storage its members are allowed. *)
Theorem refused_appends_charge_the_room `{Postcard} `{Sha256} limits env db m user id op :
  healthy env → (Append.room op, user) ∉ room_subscribers db →
  delivery_requests db !! (user, id) = None →
  len (put c_request (Request.AppendRoomOperation op)) ≤ MAX_PAYLOAD →
  spacious env limits (Request.AppendRoomOperation op) →
  ledger_readable user (Request.AppendRoomOperation op) db →
  within_limits limits user (Request.AppendRoomOperation op) db →
  ∃ db' m',
    deliver limits user id (Request.AppendRoomOperation op) env db m =
      (Ok (Response.Rejected Rejection.Unauthorized), db', m') ∧
    default 0 (usage_room db' !! Append.room op) =
      default 0 (usage_room db !! Append.room op)
      + charge (put c_request (Request.AppendRoomOperation op)).
Proof.
  intros Henv Hs Hj Hlen Hsp Hrd Hl.
  destruct (deliver_runs env Henv limits user id (Request.AppendRoomOperation op)
    (Response.Rejected Rejection.Unauthorized) db db m) as [m' E]; try done.
  { by apply runs_append_denied. }
  eexists _, m'. split; [exact E|]. simpl is_durable. cbn [andb negb is_transient].
  destruct (save_tables_usage user id (Request.AppendRoomOperation op)
    (Response.Rejected Rejection.Unauthorized) db user (Append.room op)) as [_ ->].
  unfold room_charge. by rewrite decide_True.
Qed.

Lemma refused_appends_charge_the_room_witness :
  ∃ db' m',
    demo_deliver mallory (attempt x0e) (Request.AppendRoomOperation bob_says) db_added =
      (Ok (Response.Rejected Rejection.Unauthorized), db', m') ∧
    default 0 (usage_room db' !! cave) =
      default 0 (usage_room db_added !! cave)
      + charge (put c_request (Request.AppendRoomOperation bob_says)).
Proof.
  apply (refused_appends_charge_the_room demo_limits demo_env db_added demo_metrics mallory
    (attempt x0e) bob_says);
    [apply demo_healthy|apply (bool_decide_unpack _); by vm_compute|by vm_compute|by vm_compute
    |apply demo_spacious; by vm_compute|by vm_compute|by vm_compute].
Defined.
