(* ===== verification/EnrollmentProps.v ===== *)
(** * Properties of enrollment

    Identities are registered with a single-use token bound to the user and the key,
    and keep their key for ever. *)
From S2P Require Import Prelude Bytes Text Postcard PostcardRef Protocol Wire Identifiers.
From S2P Require Import Transcripts Framing RelayStorage RelayLimits RelayDelivery RelaySpec.
From S2P Require Import Enrollment RelayInvariant RelayRun RelayHistory RelayDemo.

Section enrollment_facts.
Context `{Postcard} `{Sha256}.

(** A consumed token stays consumed. *)
Definition token_spent (hash : bytes 32) (db : RelayDb) : Prop :=
  ∃ row, enrollment_tokens db !! hash = Some row ∧ consumed row = true.

Lemma effect_tokens now user id db request response db' :
  effect now user id db request response db' → enrollment_tokens db' = enrollment_tokens db.
Proof. destruct 1; try done. by match goal with H : append_effect _ _ _ _ _ |- _ => destruct H end. Qed.

Lemma token_spent_step limits hash db db' :
  relay_step limits db db' → token_spent hash db → token_spent hash db'.
Proof.
  intros Hs (row & Hrow & Hc). apply relay_step_cases in Hs as
    [->|[(now & user & id & req & resp & db1 & _ & Heff & _ & _ & _ & _ & _ & _ & ->)
        |[(h & r & Hn & _ & ->)|(now & user & key & token & t & r & _ & _ & Hr & _ & ->)]]].
  - by exists row.
  - exists row. split; [|done]. rewrite <- Hrow, <- (effect_tokens _ _ _ _ _ _ _ Heff).
    by destruct req.
  - exists row. split; [|done]. simpl. rewrite lookup_insert_ne by congruence. done.
  - unfold token_spent. simpl. destruct (decide (sha256 (vec_to_list t) = hash)) as [<-|Hne].
    + rewrite lookup_insert_eq. eauto.
    + rewrite lookup_insert_ne by done. eauto.
Qed.

Lemma token_spent_steps limits hash db db' :
  rtc (relay_step limits) db db' → token_spent hash db → token_spent hash db'.
Proof. induction 1; eauto using token_spent_step. Qed.

Lemma register_New user key token env db m db' m' :
  register_enrolled_identity user key token env db m = (Ok New, db', m') →
  registered (now env) user key token db db'.
Proof.
  intros E. apply register_outcome in E as Hout. destruct Hout as [Hsame|[_ ?]]; [|done]. exfalso.
  apply transaction_inv in E as [(e & ? & _)|(tx' & E & Hdb & _)]; [done|].
  rewrite Hsame in Hdb. clear Hsame. revert Hdb. unfold register_body in E. inv_tx.
  destruct (identities db !! user) as [k|] eqn:Hid; [case_decide; inv_tx; done|].
  inv_tx. match goal with H : statement _ _ _ = _ |- _ => apply statement_inv in H as (d & Hcons & ->) end.
  case_decide; [done|]. inv_tx.
  match goal with H : commit _ _ = _ |- _ => apply commit_inv in H as [-> _] end.
  match goal with H : insert_identity _ _ _ = Some _ |- _ => unfold insert_identity in H end.
  simpl in *. case_match; [done|]. simplify_eq/=. intros Hdb. rewrite Hdb in Hid.
  simpl in Hid. by rewrite lookup_insert_eq in Hid.
Qed.

Lemma register_Existing user key token env db m db' m' :
  register_enrolled_identity user key token env db m = (Ok Existing, db', m') →
  identities db !! user = Some (public_key_bytes key).
Proof.
  intros [(e & ? & _)|(tx' & E & _ & _)]%transaction_inv; [done|].
  unfold register_body in E. inv_tx. destruct (identities db !! user) as [k|] eqn:Hid.
  - by case_decide; inv_tx.
  - inv_tx. case_decide; inv_tx; done.
Qed.

Lemma register_conflict user key token env db m db' m' :
  register_enrolled_identity user key token env db m = (Err IdentityKeyConflict, db', m') →
  ∃ k, identities db !! user = Some k ∧ k ≠ public_key_bytes key.
Proof.
  intros [(e & ? & [-> | ->] & _)|(tx' & E & _ & _)]%transaction_inv; [done|done|].
  unfold register_body in E. apply bind_err_inv in E as [?%statement_err|(ex & tx1 & Hq & E)]; [done|].
  apply query_inv in Hq as [-> ->]. simpl in E.
  destruct (identities db !! user) as [k|] eqn:Hid; [case_decide; [eauto|done]|]. exfalso.
  apply bind_err_inv in E as [E|(t & tx2 & _ & E)]; [by destruct token|].
  apply bind_err_inv in E as [E|(nw & tx3 & _ & E)]; [done|].
  rewrite !enrollment_hash_sha256 in E.
  apply bind_err_inv in E as [E|(h & tx4 & _ & E)]; [done|].
  apply bind_err_inv in E as [E|(f & tx5 & _ & E)]; [done|].
  apply bind_err_inv in E as [E%statement_err|(c & tx6 & _ & E)]; [done|].
  case_decide; [done|].
  apply bind_err_inv in E as [E%statement_err|(u & tx7 & _ & E)]; [done|].
  apply bind_err_inv in E as [E%commit_err|(v & tx8 & _ & E)]; done.
Qed.
End enrollment_facts.

(** A token enrolls one identity. *)
Lemma token_is_spent `{Postcard} `{Sha256} limits user key t env db m db1 m1 db2
    user2 key2 env2 m2 :
  register_enrolled_identity user key (Some t) env db m = (Ok New, db1, m1) →
  rtc (relay_step limits) db1 db2 →
  (register_enrolled_identity user2 key2 (Some t) env2 db2 m2).1.1 ≠ Ok New ∧
  identities db2 !! user = Some (public_key_bytes key).
Proof.
  intros (t' & row & [= <-] & Hid & Hrow & Hm & ->)%register_New Hsteps. split.
  - intros E. destruct (register_enrolled_identity user2 key2 (Some t) env2 db2 m2)
      as [[r db3] m3] eqn:Ereg. simpl in E. subst r.
    apply register_New in Ereg as (t2 & row2 & [= <-] & _ & Hrow2 & Hm2 & _).
    apply (token_spent_steps limits (sha256 (vec_to_list t))) in Hsteps as (row3 & Hrow3 & Hc).
    + rewrite Hrow2 in Hrow3. simplify_eq. unfold token_matches in Hm2. rewrite Hc in Hm2.
      by rewrite andb_false_r in Hm2.
    + eexists. simpl. by rewrite lookup_insert_eq.
  - apply reachable_kept, kept_identities in Hsteps. eapply lookup_weaken; [|exact Hsteps].
    simpl. by rewrite lookup_insert_eq.
Qed.

(** C36: registration needs the right token. A new identity is stored only when the
    request carries a token whose hash is on file for this very user and the
    fingerprint of this very key, neither expired nor used; the token is used up in
    the same commit, and whatever happens from then on no request with it registers anyone
    again, and the user keeps the key. An existing identity is confirmed only for its own key, and any
    other key is refused. *)
Theorem registration_needs_its_token `{Postcard} `{Sha256} user key token env db m r db' m' :
  register_enrolled_identity user key token env db m = (r, db', m') →
  match r with
  | Ok New =>
      ∃ t row, token = Some t ∧ identities db !! user = None ∧
        enrollment_tokens db !! sha256 (vec_to_list t) = Some row ∧
        token_user row = user ∧ token_fingerprint row = sha256 (public_key_bytes key) ∧
        now env < expires row ∧ consumed row = false ∧
        token_spent (sha256 (vec_to_list t)) db' ∧
        identities db' = <[user := public_key_bytes key]> (identities db) ∧
        ∀ limits db2 user2 key2 env2 m2, rtc (relay_step limits) db' db2 →
          (register_enrolled_identity user2 key2 (Some t) env2 db2 m2).1.1 ≠ Ok New ∧
          identities db2 !! user = Some (public_key_bytes key)
  | Ok Existing => identities db !! user = Some (public_key_bytes key) ∧ db' = db
  | Err IdentityKeyConflict => (∃ k, identities db !! user = Some k ∧ k ≠ public_key_bytes key) ∧ db' = db
  | Err _ => db' = db
  end.
Proof.
  intros E. destruct r as [[|]|e].
  - pose proof E as (t & row & -> & Hid & Hrow & Hm & ->)%register_New.
    unfold token_matches in Hm. reflect_bools. exists t, row. split_and!; try done.
    + eexists. simpl. rewrite lookup_insert_eq. done.
    + intros limits db2 user2 key2 env2 m2 Hsteps. by eapply token_is_spent.
  - split; [|by apply register_outcome in E as [?|[? _]]]. by eapply register_Existing.
  - assert (db' = db) as Hsame by (by apply register_outcome in E as [?|[? _]]).
    destruct e; try done. split; [by eapply register_conflict|done].
Qed.

(** The transport key of the examples, and the database after a token was issued for
    Alice's key. *)
Definition alice_key : Ed25519PublicKeyBytes := MkPublicKey (vreplicate 32 x0a).
Definition alice_fingerprint : bytes 32 := sha256 (vec_to_list (public_key_bytes alice_key)).
Definition demo_token : bytes 32 := vreplicate 32 x77.
Definition db_issued : RelayDb :=
  (issue_enrollment alice alice_fingerprint demo_env empty_db demo_metrics).1.2.
Definition db_enrolled : RelayDb :=
  (register_enrolled_identity alice alice_key (Some demo_token) demo_env db_issued demo_metrics).1.2.

Lemma register_demo :
  ∃ m', register_enrolled_identity alice alice_key (Some demo_token) demo_env db_issued demo_metrics
    = (Ok New, db_enrolled, m').
Proof.
  destruct (register_enrolled_identity alice alice_key (Some demo_token) demo_env db_issued
    demo_metrics) as [[r db'] m'] eqn:E.
  exists m'. unfold db_enrolled. rewrite E. simpl. do 2 f_equal.
  apply (f_equal (fst ∘ fst)) in E. vm_compute in E. by symmetry.
Qed.

Lemma registration_needs_its_token_witness :
  identities db_enrolled = <[alice := public_key_bytes alice_key]> (identities db_issued).
Proof.
  destruct register_demo as [m' E].
  pose proof (registration_needs_its_token _ _ _ _ _ _ _ _ _ E) as (t & row & H). apply H.
Defined.

(** ** Enrolling succeeds *)

Section enrolling.
Context (env : Env) (Henv : healthy env) `{Sha256}.
#[local] Set Default Proof Using "Type*".

Lemma ends_register user key t row d :
  identities d !! user = None → enrollment_tokens d !! sha256 (vec_to_list t) = Some row →
  token_matches (now env) user (sha256 (vec_to_list (public_key_bytes key))) row = true →
  ∃ d', ends env (register_body user key (Some t)) d New d'.
Proof.
  intros Hid Hrow Hm. eexists. unfold register_body.
  eapply ends_bind; [by apply runs_query|]. rewrite Hid.
  eapply ends_bind; [by apply runs_lift|]. eapply ends_bind; [apply runs_ask|].
  rewrite !enrollment_hash_sha256.
  eapply ends_bind; [by apply runs_lift|]. eapply ends_bind; [by apply runs_lift|].
  eapply ends_bind; [apply runs_statement; [done|]; unfold consume_token; by rewrite Hrow, Hm|].
  rewrite decide_False by tauto.
  eapply ends_bind; [apply runs_execute; [done|]; unfold insert_identity; simpl; by rewrite Hid|].
  by apply ends_commit.
Qed.
End enrolling.

(** enrollment works. A token the operator issues for a user and a key fingerprint
    lets that user register that key at any time in the following 24 hours, in any
    state reached since in which the token is unused and the user not yet registered. *)
Theorem issued_tokens_enroll `{Postcard} `{Sha256} user key env m db text db1 m1 env2 db2 m2 token :
  issue_enrollment user (sha256 (vec_to_list (public_key_bytes key))) env db m = (Ok text, db1, m1) →
  random32 env = Some token →
  enrollment_tokens db2 !! sha256 (vec_to_list token) = enrollment_tokens db1 !! sha256 (vec_to_list token) →
  identities db2 !! user = None → healthy env2 → now env2 < now env + 86400 →
  parse_fingerprint_hex text = Ok token ∧
  ∃ db3 m3, register_enrolled_identity user key (Some token) env2 db2 m2 = (Ok New, db3, m3).
Proof.
  intros E Hrand Htok Hid Henv Hnow.
  apply issue_outcome in E as [[_ [e ?]]|(t & Ht & Htext & _ & ->)]; [done|].
  rewrite Hrand in Ht. injection Ht as <-. injection Htext as ->.
  split; [apply parse_fingerprint_hex_text|].
  simpl in Htok. rewrite lookup_insert_eq in Htok.
  destruct (ends_register env2 Henv user key token _ db2 Hid Htok) as [d' Hends].
  { unfold token_matches. simpl. rewrite !bool_decide_eq_true_2 by done. done. }
  unfold register_enrolled_identity. rewrite transaction_run by done.
  destruct (Hends db2 1%nat m2) as (n' & mt' & ->). eauto.
Qed.

Lemma issued_tokens_enroll_witness :
  ∃ text, parse_fingerprint_hex text = Ok demo_token ∧
  ∃ db3 m3, register_enrolled_identity alice alice_key (Some demo_token) demo_env db_issued
    demo_metrics = (Ok New, db3, m3).
Proof.
  destruct (issue_enrollment alice alice_fingerprint demo_env empty_db demo_metrics)
    as [[r db'] m'] eqn:E.
  destruct r as [text|e].
  2:{ apply (f_equal (fst ∘ fst)) in E. vm_compute in E. discriminate E. }
  exists text. assert (db' = db_issued) as -> by (unfold db_issued; by rewrite E).
  eapply (issued_tokens_enroll alice alice_key demo_env demo_metrics empty_db text db_issued m'
    demo_env db_issued demo_metrics demo_token);
    [exact E|reflexivity|reflexivity|by vm_compute|apply demo_healthy|by vm_compute].
Defined.
