(* ===== verification/RelayConnectionProps.v ===== *)
(** * Properties of connections

    Who gets a session, what a refused peer leaves behind, what a session reads from
    its socket and what it answers. *)
From S2P Require Import Crypto Prelude Bytes Text Postcard PostcardRef Protocol Wire Identifiers.
From S2P Require Import Transcripts Framing RelayHub RelayStorage RelayLimits RelayRate.
From S2P Require Import RelayDelivery RelaySpec Enrollment RelayConnection RelayInvariant Sizes.
From S2P Require Import RelayRun RelayHistory RelayDemo EnrollmentProps RelaySessions RelayHub.

(** ** What a piece of a connection leaves alone *)

Definition keeps {A X} (f : Conn → X) (m : ConnM A) : Prop := ∀ env c, f (m env c).2 = f c.

Section keeps.
Context {X : Type} (f : Conn → X).

Lemma keeps_ret {A} (a : A) : keeps f (mret a).
Proof. done. Qed.
Lemma keeps_raise {A} e : keeps f (@raise A e).
Proof. done. Qed.
Lemma keeps_lift {A} r : keeps f (@lift_conn A r).
Proof. done. Qed.
Lemma keeps_ask {A} g : keeps f (@ask_conn A g).
Proof. done. Qed.
Lemma keeps_modify g : (∀ c, f (g c) = f c) → keeps f (modify g).
Proof. intros Hg env c. apply Hg. Qed.

Lemma keeps_bind {A B} (m : ConnM A) (k : A → ConnM B) :
  keeps f m → (∀ a, keeps f (k a)) → keeps f (m ≫= k).
Proof.
  intros Hm Hk env c. unfold mbind, ConnM_bind. specialize (Hm env c).
  destruct (m env c) as [[a|e] c1]; simpl in *; [by rewrite (Hk a)|done].
Qed.

Lemma keeps_if {A} (b : bool) (m k : ConnM A) : keeps f m → keeps f k → keeps f (if b then m else k).
Proof. by destruct b. Qed.

Lemma keeps_decide {A} (P : Prop) `{Decision P} (m k : ConnM A) :
  keeps f m → keeps f k → keeps f (if decide P then m else k).
Proof. by case_decide. Qed.

Lemma keeps_await {A} l (m : ConnM A) :
  (∀ c, f (next_await c) = f c) → (∀ w c, f (set_output w c) = f c) →
  keeps f m → keeps f (await_io l m).
Proof.
  intros Hn Ho Hm env c. unfold await_io. destruct (cancelled env (awaits c)); simpl.
  - by rewrite Hn, Ho.
  - by rewrite Hm, Hn.
Qed.

Lemma keeps_or_break {A} (m : ConnM A) : keeps f m → keeps f (or_break m).
Proof.
  intros Hm env c. unfold or_break. specialize (Hm env c).
  by destruct (m env c) as [[a|[]] c1].
Qed.

Lemma keeps_uninterrupted {A} (m : ConnM A) : keeps f m → keeps f (uninterrupted m).
Proof. intros Hm env c. apply Hm. Qed.
End keeps.

Create HintDb keeps.
#[export] Hint Resolve keeps_ret keeps_raise keeps_lift keeps_ask : keeps.

(** Goes through the structure of a definition; the leaves are hints. *)
Ltac solve_keeps :=
  repeat first
    [ progress intros
    | solve [auto 1 with keeps nocore]
    | apply keeps_bind | apply keeps_or_break | apply keeps_uninterrupted
    | match goal with |- keeps _ (match ?x with _ => _ end) => destruct x end
    | apply keeps_modify ].

(** The parts of a connection that only the socket operations leave to others. *)
Definition shared (c : Conn) := (relay_db c, storage_metrics c, relay_hub c, rates c).

Section pieces.
Context `{Postcard} `{Sha256} `{Ed25519}.

Lemma keeps_send_frame l : keeps shared (send_frame l).
Proof.
  apply keeps_await; [done|done|]. intros env c. destruct (write_frame _ _) as [[u|k] w]; [done|].
  simpl. by case_decide.
Qed.

Lemma keeps_read_handshake : keeps shared read_handshake_frame.
Proof. apply keeps_await; [done|done|]. intros env c. by destruct (default _ _) as [r s]. Qed.

Hint Resolve keeps_send_frame keeps_read_handshake : keeps.

Lemma keeps_send_message m : keeps shared (send_message m).
Proof. unfold send_message, encode_relay. solve_keeps. Qed.
Hint Resolve keeps_send_message : keeps.

Lemma keeps_send_protocol_error e : keeps shared (send_protocol_error e).
Proof. apply keeps_send_message. Qed.
Hint Resolve keeps_send_protocol_error : keeps.

Lemma keeps_refuse {A} e : keeps shared (@refuse _ A e).
Proof. unfold refuse. solve_keeps. Qed.
Hint Resolve keeps_refuse : keeps.

Lemma keeps_receive_hello l : keeps shared (receive_hello l).
Proof. unfold receive_hello, decode_client. solve_keeps. Qed.

Lemma keeps_receive_identify l : keeps shared (receive_identify l).
Proof. unfold receive_identify, decode_client. solve_keeps. Qed.

Lemma keeps_receive_signature u k ch l : keeps shared (receive_signature u k ch l).
Proof. unfold receive_signature, decode_client. solve_keeps. Qed.

Lemma kept {A X} (f : Conn → X) (m : ConnM A) env c r c' :
  keeps f m → m env c = (r, c') → f c' = f c.
Proof. intros Hm E. specialize (Hm env c). by rewrite E in Hm. Qed.

Lemma conn_bind_inv {A B} (m : ConnM A) (k : A → ConnM B) env c r c' :
  (m ≫= k) env c = (r, c') →
  (∃ a c1, m env c = (Ok a, c1) ∧ k a env c1 = (r, c')) ∨
  (∃ e, m env c = (Err e, c') ∧ r = Err e).
Proof. unfold mbind, ConnM_bind. destruct (m env c) as [[a|e] c1]; intros; simplify_eq; eauto 6. Qed.

(** What a signature that authenticates is. *)
Definition signed (user : UserId) (key : Ed25519PublicKeyBytes) (env : ConnEnv) : Prop :=
  key_from_bytes (public_key_bytes key) = true ∧
  ∃ generated transcript signature,
    challenge_bytes_of env = Some generated ∧
    authentication_transcript PROTOCOL_VERSION user key (MkChallenge generated) = Some transcript ∧
    verify_strict (public_key_bytes key) transcript (signature_bytes signature) = true.

Lemma receive_identify_Ok frame env c user key enrollment c' :
  receive_identify frame env c = (Ok (user, key, enrollment), c') →
  key_from_bytes (public_key_bytes key) = true.
Proof.
  intros [(m & c1 & Em & E)|(e & _ & ?)]%conn_bind_inv; [|done].
  assert (∀ err, refuse err env c1 ≠ (Ok (user, key, enrollment), c')) as Hr.
  { intros err E'. apply conn_bind_inv in E' as [(u & c2 & _ & ?)|(e & _ & ?)]; done. }
  destruct m; try by apply Hr in E. destruct (key_from_bytes (public_key_bytes public_key)) eqn:Hk;
    [|by apply Hr in E]. unfold mret, ConnM_ret in E. by simplify_eq/=.
Qed.

Lemma receive_signature_Ok user key challenge frame env c c' :
  receive_signature user key challenge frame env c = (Ok tt, c') →
  ∃ transcript signature,
    authentication_transcript PROTOCOL_VERSION user key challenge = Some transcript ∧
    verify_strict (public_key_bytes key) transcript (signature_bytes signature) = true.
Proof.
  intros [(m & c1 & Em & E)|(e & _ & ?)]%conn_bind_inv; [|done].
  assert (∀ err, refuse err env c1 ≠ (Ok tt, c')) as Hr.
  { intros err E'. apply conn_bind_inv in E' as [(u & c2 & _ & ?)|(e & _ & ?)]; done. }
  destruct m; try by apply Hr in E.
  destruct (verify_authentication_signature key user challenge signature) eqn:Hv; [|by apply Hr in E].
  unfold verify_authentication_signature in Hv.
  destruct (authentication_transcript _ _ _ _) as [t|]; [eauto|done].
Qed.

(** One bind of a handshake in [E]; when it fails the handshake is over. *)
Ltac next_bind E a c1 Em :=
  apply conn_bind_inv in E as [(a & c1 & Em & E)|(? & Em & ->)];
  (eapply (kept shared) in Em as ?; [|solve [auto 1 with keeps nocore]]);
  [|left; split; [congruence|done]].

Ltac stop_here E :=
  unfold or_disconnected, mret, ConnM_ret in E; injection E as <- <-; left; split; [congruence|done].

(** A handshake ends before anything shared is touched, or goes on with a verified
    signature. *)
Lemma authenticate_cases env c r c' :
  authenticate env c = (r, c') →
  (shared c' = shared c ∧ ∀ a, r ≠ Ok (Some a)) ∨
  ∃ user key enrollment c1,
    signed user key env ∧ shared c1 = shared c ∧
    finish_authentication user key enrollment env c1 = (r, c').
Proof.
  intros E. unfold authenticate in E.
  pose proof keeps_receive_hello. pose proof keeps_receive_identify.
  pose proof keeps_receive_signature.
  next_bind E f1 c1 E1. destruct f1 as [f1|]; [|stop_here E]. next_bind E u1 c2 E2.
  next_bind E f2 c3 E3. destruct f2 as [f2|]; [|stop_here E].
  next_bind E who c4 E4. destruct who as [[user key] enrollment].
  next_bind E g0 c5 E5. injection E5 as <- <-. next_bind E g c6 E6.
  unfold lift_conn in E6. injection E6 as Hgen <-. apply ok_or_Ok in Hgen.
  next_bind E u2 c7 E7. next_bind E f3 c8 E8. destruct f3 as [f3|]; [|stop_here E].
  next_bind E u3 c9 E9. destruct u3.
  apply receive_identify_Ok in E4. apply receive_signature_Ok in E9 as (t & sg & Ht & Hv).
  right. exists user, key, enrollment, c9. split; [|split; [congruence|done]].
  split; [done|]. eauto 10.
Qed.

(** [worker_execute]: the database changes as the operation says or not at all. *)
Lemma worker_execute_inv {A} (operation : Env → RelayDb → Metrics → A * RelayDb * Metrics) env c r c' :
  worker_execute operation env c = (r, c') →
  relay_hub c' = relay_hub c ∧ rates c' = rates c ∧ output c' = output c ∧
  ((∃ a m', operation (storage_env env) (relay_db c) (storage_metrics c) = (a, relay_db c', m') ∧
     ∀ a', r = Ok (Ok a') → a' = a) ∨
   (relay_db c' = relay_db c ∧ ∀ a, r ≠ Ok (Ok a))).
Proof.
  unfold worker_execute, run_command. intros E.
  destruct (operation _ _ _) as [[a db] m] eqn:Eop.
  destruct (worker env) as [| | |[]]; simpl in E; simplify_eq/=; try case_match; simplify_eq/=;
    split_and!; try done; try (by right); left; exists a, m; split; naive_solver.
Qed.

Lemma register_identity_inv user key enrollment env c r c' :
  register_identity user key enrollment env c = (r, c') →
  relay_hub c' = relay_hub c ∧
  ((∃ rr m', register_enrolled_identity user key enrollment (storage_env env) (relay_db c)
              (storage_metrics c) = (rr, relay_db c', m') ∧ ∀ a, r = Ok a → rr = Ok a) ∨
   (relay_db c' = relay_db c ∧ ∀ a, r ≠ Ok a)).
Proof.
  intros [(out & c1 & E1 & E)|(e & E1 & ->)]%conn_bind_inv;
    apply worker_execute_inv in E1 as (Hh & _ & _ & Hw).
  - destruct out as [[reg|e]|k].
    + unfold mret, ConnM_ret in E. simplify_eq/=. split; [done|]. left.
      destruct Hw as [(a & m' & Eop & Ha)|[_ Hne]]; [|by destruct (Hne (Ok reg))].
      exists a, m'. split; [done|]. intros a' [= <-]. symmetry. by apply Ha.
    + assert (shared c' = shared c1 ∧ ∀ a, r ≠ Ok a) as [Hs Hr].
      { split; [eapply kept; [|exact E]; solve_keeps|].
        apply conn_bind_inv in E as [(? & ? & _ & E)|(? & _ & ->)]; [|done].
        unfold raise in E. by simplify_eq. }
      unfold shared in Hs. injection Hs as Hdb _ Hhub _. rewrite Hdb, Hhub. split; [done|].
      destruct Hw as [(a & m' & Eop & _)|[? _]]; [left|by right].
      exists a, m'. split; [done|]. naive_solver.
    + unfold raise in E. simplify_eq/=. split; [done|].
      destruct Hw as [(a & m' & Eop & _)|[? _]]; [left; naive_solver|by right].
  - split; [done|]. destruct Hw as [(a & m' & Eop & _)|[? _]]; [left; naive_solver|by right].
Qed.

Lemma register_session_inv user env c r c' :
  register_session user env c = (r, c') →
  relay_db c' = relay_db c ∧
  match r with
  | Ok (registration, receiver) =>
      register user (relay_hub c) = (Ok (registration, receiver), relay_hub c')
  | Err _ => relay_hub c' = relay_hub c
  end.
Proof.
  unfold register_session, register, reserve_identity. case_decide; intros E.
  - assert (shared c' = shared (set_hub (relay_hub c) c)) as Hs.
    { eapply kept; [|exact E]. solve_keeps. }
    unfold shared in Hs. injection Hs as Hdb _ Hhub _. split; [done|]. destruct r as [[? ?]|]; [|done].
    by apply conn_bind_inv in E as [(? & ? & _ & ?)|(? & _ & ?)].
  - by simplify_eq/=.
Qed.

(** The end of a handshake: an established session, or a hub as it was up to the
    session that was dropped. *)
Lemma finish_authentication_inv user key enrollment env c r c' :
  finish_authentication user key enrollment env c = (r, c') →
  (∃ rr m', register_enrolled_identity user key enrollment (storage_env env) (relay_db c)
              (storage_metrics c) = (rr, relay_db c', m') ∧
     ((∃ a, rr = Ok a) ∨ ∀ a, r ≠ Ok (Some a))) ∨ relay_db c' = relay_db c ∧ (∀ a, r ≠ Ok (Some a)).
Proof.
  intros [(reg & c1 & E1 & E)|(e & E1 & ->)]%conn_bind_inv;
    apply register_identity_inv in E1 as [_ Hreg].
  - assert (relay_db c' = relay_db c1) as ->.
    { apply conn_bind_inv in E as [([registration receiver] & c2 & E2 & E)|(e & E2 & ->)];
        apply register_session_inv in E2 as [E2 _]; [|done]. rewrite <- E2.
      apply conn_bind_inv in E as [(u & c3 & E3 & E)|(e & E3 & ->)]; unfold or_drop in E3;
        destruct (send_message _ env c2) as [[u'|e'] c4] eqn:E4; simplify_eq;
        pose proof (kept shared _ _ _ _ _ (keeps_send_message _) E4) as Hs;
        unfold shared in Hs; injection Hs as Hdb _ _ _; [|done].
      unfold mret, ConnM_ret in E. by simplify_eq. }
    destruct Hreg as [(rr & m' & Eop & Hrr)|[_ Hne]]; [|by destruct (Hne reg)].
    left. exists rr, m'. split; [done|]. left. exists reg. by apply Hrr.
  - destruct Hreg as [(rr & m' & Eop & Hrr)|[? Hne]]; [left|by right].
    exists rr, m'. split; [done|]. by right.
Qed.

Lemma finish_authentication_hub user key enrollment env c r c' :
  finish_authentication user key enrollment env c = (r, c') →
  match r with
  | Ok (Some (user', registration, receiver)) =>
      user' = user ∧ register user (relay_hub c) = (Ok (registration, receiver), relay_hub c')
  | _ =>
      relay_hub c' = relay_hub c ∨
      ∃ registration receiver hub,
        register user (relay_hub c) = (Ok (registration, receiver), hub) ∧
        relay_hub c' = drop_registration registration (drop_receiver receiver hub)
  end.
Proof.
  intros [(reg & c1 & E1 & E)|(e & E1 & ->)]%conn_bind_inv;
    apply register_identity_inv in E1 as [Hh _]; [|by left].
  apply conn_bind_inv in E as [([registration receiver] & c2 & E2 & E)|(e & E2 & ->)];
    apply register_session_inv in E2 as [_ E2]; rewrite Hh in E2; [|by left].
  apply conn_bind_inv in E as [(u & c3 & E3 & E)|(e & E3 & ->)]; unfold or_drop in E3;
    destruct (send_message _ env c2) as [[u'|e'] c4] eqn:E4; simplify_eq;
    pose proof (kept shared _ _ _ _ _ (keeps_send_message _) E4) as Hs;
    unfold shared in Hs; injection Hs as _ _ Hhub _.
  - unfold mret, ConnM_ret in E. simplify_eq. by rewrite Hhub.
  - right. exists registration, receiver, (relay_hub c2). simpl. by rewrite Hhub.
Qed.

Lemma register_Ok user hub registration receiver hub' :
  register user hub = (Ok (registration, receiver), hub') →
  user ∉ active_identities hub ∧ registered_user registration = user ∧
  active_identities hub' = {[user]} ∪ active_identities hub ∧
  ∀ u i t, listed (connections hub') u i t ↔
    (u = user ∧ i = connection_id registration ∧ t = receiver) ∨
    (¬ (u = user ∧ i = connection_id registration) ∧ listed (connections hub) u i t).
Proof.
  unfold register, reserve_identity. case_decide as Hu; [done|].
  unfold insert_connection. intros E. simplify_eq/=. split_and!; [done..|].
  intros u i t. apply listed_insert.
Qed.

(** Registering and dropping the session again. *)
Lemma dropped_session user hub registration receiver hub' :
  (∀ u i t, listed (connections hub) u i t → u ∈ active_identities hub) →
  register user hub = (Ok (registration, receiver), hub') →
  let hub2 := drop_registration registration (drop_receiver receiver hub') in
  active_identities hub2 = active_identities hub ∧
  ∀ u i t, listed (connections hub2) u i t ↔ listed (connections hub) u i t.
Proof.
  intros Hl (Hu & Hr & Ha & Hc)%register_Ok hub2. subst hub2. simpl. rewrite Hr, Ha.
  split; [set_solver|]. intros u i t. rewrite listed_remove. simpl. rewrite Hc. split.
  - naive_solver.
  - intros Hin. pose proof (Hl _ _ _ Hin). assert (u ≠ user) by congruence. naive_solver.
Qed.
End pieces.

(** ** Theorems *)

(** C13: a session is established only for an identity that proved itself. When
    [authenticate] returns a session for a user, the peer presented a valid Ed25519 key
    and a signature, verified with that key, of the transcript of this very challenge,
    user and key; the database holds this key as the user's identity; the user had no
    other session; and the hub has registered this one. *)
Theorem sessions_need_a_signature `{Postcard} `{Sha256} `{Ed25519} env c user registration receiver c' :
  authenticate env c = (Ok (Some (user, registration, receiver)), c') →
  ∃ key,
    signed user key env ∧
    identities (relay_db c') !! user = Some (public_key_bytes key) ∧
    (user ∉ active_identities (relay_hub c)) ∧
    register user (relay_hub c) = (Ok (registration, receiver), relay_hub c').
Proof.
  intros [[_ Hne]|(u & key & enrollment & c1 & Hsig & Hs & E)]%authenticate_cases;
    [by destruct (Hne (user, registration, receiver))|].
  unfold shared in Hs. injection Hs as Hdb Hm Hhub _. apply finish_authentication_hub in E as Hreg.
  rewrite Hhub in Hreg. destruct Hreg as [-> Hreg]. exists key. split_and!; [done| | |done].
  - apply finish_authentication_inv in E as [(rr & m' & Eop & [[a ->]|Hne])|[_ Hne]];
      [|by destruct (Hne (u, registration, receiver))..]. destruct a.
    + apply register_New in Eop as (t & row & _ & _ & _ & _ & ->). simpl. by rewrite lookup_insert_eq.
    + pose proof (register_Existing _ _ _ _ _ _ _ _ Eop) as Hid.
      by apply register_outcome in Eop as [->|[? _]].
  - by apply register_Ok in Hreg as [? _].
Qed.

(** A peer that does not get a session leaves nothing in the hub. Whatever goes wrong
    in [authenticate], refusal, I/O error, timeout or cancellation at any await, the
    active identities and the listed connections are those from before; and the
    database changed only if a signature was verified, and then only by registering
    that identity. *)
Theorem refused_peers_leave_nothing `{Postcard} `{Sha256} `{Ed25519} env c r c' :
  (∀ u i t, listed (connections (relay_hub c)) u i t → u ∈ active_identities (relay_hub c)) →
  authenticate env c = (r, c') → (∀ a, r ≠ Ok (Some a)) →
  active_identities (relay_hub c') = active_identities (relay_hub c) ∧
  (∀ u i t, listed (connections (relay_hub c')) u i t ↔ listed (connections (relay_hub c)) u i t) ∧
  (relay_db c' = relay_db c ∨
   ∃ user key enrollment, signed user key env ∧
     registered (now (storage_env env)) user key enrollment (relay_db c) (relay_db c')).
Proof.
  intros Hl [[Hs _]|(u & key & enrollment & c1 & Hsig & Hs & E)]%authenticate_cases Hne;
    unfold shared in Hs; injection Hs as Hdb Hm Hhub _; [rewrite Hdb, Hhub; split_and!; auto|].
  apply finish_authentication_hub in E as Hh. rewrite Hhub in Hh.
  apply finish_authentication_inv in E as Hd. rewrite Hdb in Hd.
  assert (relay_hub c' = relay_hub c ∨ ∃ registration receiver hub,
    register u (relay_hub c) = (Ok (registration, receiver), hub) ∧
    relay_hub c' = drop_registration registration (drop_receiver receiver hub)) as Hh'.
  { destruct r as [[a|]|e]; [by destruct (Hne a)|done|done]. }
  rewrite assoc by apply _. split.
  - destruct Hh' as [->|(registration & receiver & hub1 & Hreg & ->)]; [done|].
    by apply (dropped_session u (relay_hub c)).
  - destruct Hd as [(rr & m' & Eop & _)|[? _]]; [|by left].
    apply register_outcome in Eop as [?|[_ ?]]; [by left|right; eauto].
Qed.

(** ** A handshake that goes well *)

(** A transport that delivers and takes everything. *)
Definition ready (c : Conn) : Prop := faultless (input c) ∧ fails_after (output c) = None.

(** The frames of messages in a row. *)
Definition client_frames `{Postcard} (ms : list ClientMessage.t) : list byte :=
  ms ≫= λ m, frame_bytes (put c_client_message m).
Definition relay_frames `{Postcard} (ms : list RelayMessage.t) : list byte :=
  ms ≫= λ m, frame_bytes (put c_relay_message m).

Lemma conn_bind_run {A B} (m : ConnM A) (k : A → ConnM B) env c a c1 :
  m env c = (Ok a, c1) → (m ≫= k) env c = k a env c1.
Proof. intros E. unfold mbind, ConnM_bind. by rewrite E. Qed.

Section forward.
Context `{Postcard} `{Sha256} `{Ed25519}.
Context (env : ConnEnv) (calm : ∀ n, cancelled env n = None).
#[local] Set Default Proof Using "Type*".

Lemma read_runs m rest c :
  ready c → contents (input c) = client_frames [m] ++ rest →
  len (put c_client_message m) ≤ MAX_PAYLOAD →
  ∃ c', read_handshake_frame env c = (Ok (Some (put c_client_message m)), c') ∧
    ready c' ∧ contents (input c') = rest ∧ output c' = output c ∧ shared c' = shared c.
Proof.
  intros [Hf Ho] Hc Hl. unfold client_frames in Hc. rewrite bind_singleton in Hc.
  destruct (read_frame_bytes (put c_client_message m) rest (input c)) as (s & Hr & Hs & Hf');
    [unfold MAX_PAYLOAD, MAX_FRAME_SIZE in *; lia|done|done|].
  unfold read_handshake_frame, await_io. rewrite calm. simpl. rewrite Hr. simpl.
  eexists. split; [done|]. simpl. by split_and!.
Qed.

Lemma decode_runs m c :
  valid c_client_message m → len (put c_client_message m) ≤ MAX_PAYLOAD →
  decode_client (put c_client_message m) env c = (Ok m, c).
Proof.
  intros Hv Hl. unfold decode_client, lift_conn.
  by rewrite (decode_encode_message c_client_message m) by (done || by apply encode_message_fits).
Qed.

Lemma send_runs m c :
  ready c → len (put c_relay_message m) ≤ MAX_PAYLOAD →
  ∃ c', send_message m env c = (Ok tt, c') ∧ ready c' ∧ input c' = input c ∧
    written (output c') = written (output c) ++ relay_frames [m] ∧ shared c' = shared c.
Proof.
  intros [Hf Ho] Hl. unfold send_message, encode_relay. rewrite encode_message_fits by done.
  rewrite (conn_bind_run _ _ env c (put c_relay_message m) c) by done.
  unfold send_frame, await_io. rewrite calm. change (output (next_await c)) with (output c).
  rewrite write_frame_ok by first [done|unfold MAX_PAYLOAD, MAX_FRAME_SIZE in *; lia].
  eexists. split; [done|]. unfold relay_frames. rewrite bind_singleton.
  by split_and!.
Qed.

(** The messages of a handshake are small. *)
Lemma small_hello : len (put c_client_message (ClientMessage.ClientHello PROTOCOL_VERSION)) ≤ MAX_PAYLOAD ∧
  len (put c_relay_message (RelayMessage.ServerHello PROTOCOL_VERSION)) ≤ MAX_PAYLOAD.
Proof.
  cbn [put c_client_message c_relay_message c_tagged put_client_message put_relay_message].
  unfold serialize_tagged. rewrite !len_cons.
  pose proof (len_put_small W16 PROTOCOL_VERSION 1). unfold PROTOCOL_VERSION, MAX_PAYLOAD in *.
  unfold c_u16. lia.
Qed.

Lemma small_identify user key enrollment :
  len (put c_client_message (ClientMessage.ClientIdentify user key enrollment)) ≤ MAX_PAYLOAD.
Proof.
  cbn [put c_client_message c_tagged put_client_message].
  unfold serialize_tagged. rewrite len_cons, !len_app, len_put_user.
  assert (len (put c_public_key key) = 32) as -> by exact (len_vec (public_key_bytes key)).
  assert (len (put (c_option (c_array 32)) enrollment) ≤ 33).
  { cbn [put c_option]. destruct enrollment as [t|]; unfold put_option;
      rewrite ?len_app, option_tag_length; [|lia]. cbn [put c_array]. rewrite len_vec. lia. }
  unfold MAX_PAYLOAD. lia.
Qed.

Lemma small_fixed user challenge signature :
  len (put c_relay_message (RelayMessage.ServerIdentifyAccepted user)) ≤ MAX_PAYLOAD ∧
  len (put c_relay_message (RelayMessage.ServerAuthenticationChallenge challenge)) ≤ MAX_PAYLOAD ∧
  len (put c_client_message (ClientMessage.ClientAuthenticationResponse signature)) ≤ MAX_PAYLOAD.
Proof.
  cbn [put c_client_message c_relay_message c_tagged put_client_message put_relay_message].
  unfold serialize_tagged. rewrite !len_cons, len_put_user, len_put_signature.
  assert (len (put c_challenge challenge) = 32) as -> by exact (len_vec (challenge_bytes challenge)).
  unfold MAX_PAYLOAD. lia.
Qed.

Lemma hello_runs c :
  ready c → ∃ c',
    receive_hello (put c_client_message (ClientMessage.ClientHello PROTOCOL_VERSION)) env c = (Ok tt, c') ∧
    ready c' ∧ input c' = input c ∧ shared c' = shared c ∧
    written (output c') = written (output c) ++ relay_frames [RelayMessage.ServerHello PROTOCOL_VERSION].
Proof.
  intros Hr. destruct small_hello as [Hs1 Hs2]. unfold receive_hello.
  erewrite conn_bind_run by (by apply decode_runs). cbv beta iota. rewrite decide_False by auto.
  destruct (send_runs _ c Hr Hs2) as (c' & -> & ? & ? & ? & ?). eauto 10.
Qed.

Lemma identify_runs user key enrollment c :
  key_from_bytes (public_key_bytes key) = true →
  receive_identify (put c_client_message (ClientMessage.ClientIdentify user key enrollment)) env c =
    (Ok (user, key, enrollment), c).
Proof.
  intros Hk. unfold receive_identify.
  assert (valid c_client_message (ClientMessage.ClientIdentify user key enrollment))
    by (split_and!; [done|done|by destruct enrollment]).
  erewrite conn_bind_run by (apply decode_runs; [done|apply small_identify]).
  cbv beta iota. by rewrite Hk.
Qed.

Lemma signature_runs user key generated transcript signature c :
  authentication_transcript PROTOCOL_VERSION user key (MkChallenge generated) = Some transcript →
  verify_strict (public_key_bytes key) transcript (signature_bytes signature) = true →
  receive_signature user key (MkChallenge generated)
    (put c_client_message (ClientMessage.ClientAuthenticationResponse signature)) env c = (Ok tt, c).
Proof.
  intros Ht Hv. destruct (small_fixed user (MkChallenge generated) signature) as (_ & _ & Hs3).
  unfold receive_signature.
  erewrite conn_bind_run by (by apply decode_runs). cbv beta iota. unfold verify_authentication_signature. by rewrite Ht, Hv.
Qed.

Lemma finish_runs user key enrollment reg db' m' c :
  ready c → worker env = Answers →
  register_enrolled_identity user key enrollment (storage_env env) (relay_db c) (storage_metrics c) =
    (Ok reg, db', m') →
  user ∉ active_identities (relay_hub c) →
  ∃ registration receiver c',
    finish_authentication user key enrollment env c = (Ok (Some (user, registration, receiver)), c') ∧
    input c' = input c ∧ relay_db c' = db' ∧
    written (output c') = written (output c) ++ relay_frames [RelayMessage.ServerIdentifyAccepted user].
Proof.
  intros [Hr1 Hr2] Hw Hreg Hu. unfold finish_authentication.
  rewrite (conn_bind_run _ _ env c reg (next_await (set_storage db' m' c))); cycle 1.
  { unfold register_identity. rewrite (conn_bind_run _ _ env c (Ok (Ok reg)) (next_await (set_storage db' m' c)));
      [done|]. unfold worker_execute, run_command. rewrite Hw, Hreg. by rewrite calm. }
  set (c1 := next_await (set_storage db' m' c)).
  destruct (insert_connection user (set_active (λ s, {[user]} ∪ s) (relay_hub c)))
    as [[registration receiver] hub1] eqn:Ei.
  rewrite (conn_bind_run _ _ env c1 (registration, receiver) (set_hub hub1 c1)); cycle 1.
  { unfold register_session, register, reserve_identity. subst c1. cbn [relay_hub next_await set_storage].
    rewrite decide_False by done. by rewrite Ei. }
  destruct (small_fixed user (MkChallenge (vreplicate 32 x00)) (MkSignature (vreplicate 64 x00)))
    as (Hs1 & _ & _).
  destruct (send_runs (RelayMessage.ServerIdentifyAccepted user) (set_hub hub1 c1)) as
    (c2 & Hs & _ & Hi & Hwr & Hsh); [done|done|].
  exists registration, receiver, c2. split_and!; [|by rewrite Hi| |by rewrite Hwr].
  - erewrite conn_bind_run; [done|]. unfold or_drop. by rewrite Hs.
  - unfold shared in Hsh. by injection Hsh.
Qed.
End forward.

(** A client that follows the protocol is let in. When the relay is not interrupted,
    its worker answers and the transport works, a peer that sends [ClientHello] of this
    version, [ClientIdentify] with a valid key, and a signature that verifies for the
    challenge it was sent, whose identity the database knows or can enroll and which
    has no other session, gets its session: it is sent exactly [ServerHello], the
    challenge and [ServerIdentifyAccepted], and the relay has read exactly its three
    frames. *)
Lemma client_accepted `{Postcard} `{Sha256} `{Ed25519} env c user key enrollment
    generated transcript signature rest reg db' m' :
  (∀ n, cancelled env n = None) → worker env = Answers → challenge_bytes_of env = Some generated →
  ready c →
  contents (input c) = client_frames [ClientMessage.ClientHello PROTOCOL_VERSION;
    ClientMessage.ClientIdentify user key enrollment;
    ClientMessage.ClientAuthenticationResponse signature] ++ rest →
  key_from_bytes (public_key_bytes key) = true →
  authentication_transcript PROTOCOL_VERSION user key (MkChallenge generated) = Some transcript →
  verify_strict (public_key_bytes key) transcript (signature_bytes signature) = true →
  register_enrolled_identity user key enrollment (storage_env env) (relay_db c) (storage_metrics c) =
    (Ok reg, db', m') →
  user ∉ active_identities (relay_hub c) →
  ∃ registration receiver c',
    authenticate env c = (Ok (Some (user, registration, receiver)), c') ∧
    contents (input c') = rest ∧ relay_db c' = db' ∧
    written (output c') = written (output c) ++ relay_frames
      [RelayMessage.ServerHello PROTOCOL_VERSION;
       RelayMessage.ServerAuthenticationChallenge (MkChallenge generated);
       RelayMessage.ServerIdentifyAccepted user].
Proof.
  intros Hcalm Hw Hg Hready Hin Hk Ht Hv Hreg Hu.
  destruct (small_fixed user (MkChallenge generated) signature) as (_ & Hch & Hsg).
  assert (∀ m ms, client_frames (m :: ms) = client_frames [m] ++ client_frames ms) as Hcons
    by (intros; unfold client_frames; by rewrite bind_cons, bind_singleton).
  rewrite (Hcons (ClientMessage.ClientHello _)), <- (assoc_L (++)) in Hin.
  rewrite (Hcons (ClientMessage.ClientIdentify _ _ _)), <- (assoc_L (++)) in Hin.
  destruct (read_runs env Hcalm _ _ c Hready Hin) as (c1 & E1 & R1 & I1 & O1 & S1);
    [apply small_hello|].
  destruct (hello_runs env Hcalm c1 R1) as (c2 & E2 & R2 & I2 & S2 & O2). rewrite <- I2 in I1.
  destruct (read_runs env Hcalm _ _ c2 R2 I1) as (c3 & E3 & R3 & I3 & O3 & S3);
    [apply small_identify|].
  destruct (send_runs env Hcalm (RelayMessage.ServerAuthenticationChallenge (MkChallenge generated)) c3 R3)
    as (c4 & E4 & R4 & I4 & O4 & S4); [done|]. rewrite <- I4 in I3.
  destruct (read_runs env Hcalm _ _ c4 R4 I3) as (c5 & E5 & R5 & I5 & O5 & S5); [done|].
  assert (shared c5 = shared c) as Hsh by congruence. unfold shared in Hsh. injection Hsh as Hd Hm Hh _.
  destruct (finish_runs env Hcalm user key enrollment reg db' m' c5)
    as (registration & receiver & c' & E6 & I6 & D6 & O6); [done|done|by rewrite Hd, Hm|by rewrite Hh|].
  exists registration, receiver, c'. split_and!; [|by rewrite I6|done|].
  - unfold authenticate. erewrite conn_bind_run by exact E1. cbn [or_disconnected].
    erewrite conn_bind_run by exact E2. erewrite conn_bind_run by exact E3. cbn [or_disconnected].
    erewrite conn_bind_run by by apply identify_runs. cbv beta iota zeta.
    rewrite (conn_bind_run _ _ env c3 (Some generated) c3) by (unfold ask_conn; by rewrite Hg).
    erewrite conn_bind_run by done. erewrite conn_bind_run by exact E4.
    erewrite conn_bind_run by exact E5. cbn [or_disconnected].
    erewrite conn_bind_run by by eapply signature_runs. exact E6.
  - rewrite O6, O5, O4, O3, O2, O1, <- !(assoc_L (++)). f_equal.
    unfold relay_frames. by rewrite <- !bind_app.
Qed.

(** ** A concrete handshake

    A signature scheme in which a signature is the key twice over. *)
Definition demo_ed25519 : Ed25519 :=
  {| key_from_bytes _ := true;
     verify_strict key _ signature :=
       bool_decide (vec_to_list signature = vec_to_list key ++ vec_to_list key) |}.

Definition alice_signature : Ed25519SignatureBytes :=
  MkSignature (public_key_bytes alice_key +++ public_key_bytes alice_key).

Definition demo_conn_env : ConnEnv :=
  MkConnEnv default_runtime_limits demo_limits demo_env Answers 0 (Some (vreplicate 32 x5c))
    (λ _, None).

Definition alice_hello : list ClientMessage.t :=
  [ClientMessage.ClientHello PROTOCOL_VERSION;
   ClientMessage.ClientIdentify alice alice_key None;
   ClientMessage.ClientAuthenticationResponse alice_signature].

Definition demo_conn : Conn :=
  MkConn (push_back (client_frames alice_hello) []) (Writer [] None) db_enrolled demo_metrics
    default_hub ∅ 0 0 0 0.

Lemma sessions_need_a_signature_witness :
  ∃ key, @signed demo_ed25519 alice key demo_conn_env ∧
    identities db_enrolled !! alice = Some (public_key_bytes key).
Proof.
  destruct (@authenticate _ _ demo_ed25519 demo_conn_env demo_conn) as [r c'] eqn:E.
  assert (r = Ok (Some (alice, MkRegistration alice 0, 0%nat)) ∧ relay_db c' = db_enrolled) as [-> Hdb].
  { pose proof (f_equal fst E) as E1. pose proof (f_equal (λ p, relay_db p.2) E) as E2.
    cbv beta in E2. change (relay_db (r, c').2) with (relay_db c') in E2. clear E.
    split; [symmetry; vm_compute in E1; exact E1|]. rewrite <- E2. vm_compute. reflexivity. }
  destruct (@sessions_need_a_signature _ _ demo_ed25519 _ _ _ _ _ _ E) as (key & Hs & Hid & _).
  rewrite Hdb in Hid. exists key. exact (conj Hs Hid).
Defined.

(** A peer that hangs up after its first frame. *)
Definition short_conn : Conn :=
  MkConn (push_back (client_frames (take 1 alice_hello)) []) (Writer [] None) db_enrolled demo_metrics
    default_hub ∅ 0 0 0 0.

Lemma refused_peers_leave_nothing_witness :
  active_identities (relay_hub (@authenticate _ _ demo_ed25519 demo_conn_env short_conn).2) = ∅.
Proof.
  destruct (@authenticate _ _ demo_ed25519 demo_conn_env short_conn) as [r c'] eqn:E.
  assert (r = Ok None) as -> by (apply (f_equal fst) in E; vm_compute in E; by symmetry).
  apply (@refused_peers_leave_nothing _ _ demo_ed25519 _ _ _ _) in E as [Ha _];
    [exact Ha| |intros a; discriminate].
  intros u i t (uc & Hl & _). discriminate Hl.
Defined.
