(* ===== verification/RelayServe.v ===== *)
(** * Properties of sessions

    What the reader task makes of the bytes of a client, and what the session loop
    answers. *)
From S2P Require Import Crypto Prelude Bytes Text Postcard PostcardRef Protocol Wire Identifiers.
From S2P Require Import Transcripts Framing RelayHub RelayStorage RelayLimits RelayRate.
From S2P Require Import RelayDelivery RelaySpec Enrollment RelayConnection RelayInvariant Sizes.
From S2P Require Import RelayRun RelayHistory RelayDemo EnrollmentProps RelaySessions.
From S2P Require Import RelayConnectionProps RelayHub.

Section reader.
Context `{Postcard} `{Sha256} `{Ed25519}.

Lemma read_first_byte b rest s :
  faultless s → contents s = b :: rest →
  ∃ s', read 1 s = (Ok [b], s') ∧ faultless (Chunk b [] :: s') ∧
    contents (Chunk b [] :: s') = b :: rest.
Proof.
  intros Hf Hc. destruct s as [|[b' l|k] s]; [done| |by inversion Hf].
  rewrite contents_cons_chunk in Hc. injection Hc as -> Hc. inversion Hf as [|? ? _ Hf']; subst.
  cbn [read]. cbn [take drop]. eexists. split; [done|]. split.
  - constructor; [done|]. by apply faultless_push_back.
  - rewrite contents_cons_chunk, contents_push_back. done.
Qed.

Lemma read_inbound_message m rest s :
  faultless s → contents s = frame_bytes (put c_client_message m) ++ rest →
  valid c_client_message m → len (put c_client_message m) ≤ MAX_PAYLOAD →
  ∃ s', read_inbound s = (Message m, s') ∧ faultless s' ∧ contents s' = rest.
Proof.
  intros Hf Hc Hv Hl.
  assert (∃ b l, frame_bytes (put c_client_message m) ++ rest = b :: l) as (b & l & Hb).
  { unfold frame_bytes. pose proof (length_be_bytes 4 (len (put c_client_message m))).
    destruct (be_bytes 4 _) as [|b l]; [done|]. eexists _, _. done. }
  rewrite Hb in Hc. destruct (read_first_byte b l s Hf Hc) as (s1 & Hr & Hf1 & Hc1).
  rewrite <- Hb in Hc1.
  destruct (read_frame_bytes (put c_client_message m) rest (Chunk b [] :: s1)) as (s2 & Hr2 & Hc2 & Hf2);
    [unfold MAX_PAYLOAD, MAX_FRAME_SIZE in *; lia|done|done|].
  exists s2. split; [|done]. unfold read_inbound. rewrite Hr, Hr2. cbn [from_option id].
  by rewrite (decode_encode_message c_client_message m) by (done || by apply encode_message_fits).
Qed.
End reader.

(** The reader task hands the session exactly what the client sent. When the bytes of
    the connection are the frames of some messages, cut into chunks in any way, and then
    the end of the stream, the events are those messages in order and then
    [Disconnected]. *)
Theorem inbound_messages_arrive `{Postcard} ms s fuel :
  faultless s → contents s = client_frames ms →
  Forall (λ m, valid c_client_message m ∧ len (put c_client_message m) ≤ MAX_PAYLOAD) ms →
  (length ms < fuel)%nat →
  read_inbound_with_budget fuel s = Some ((Message <$> ms) ++ [Disconnected]).
Proof.
  intros Hf Hc Hms Hfuel. revert s fuel Hf Hc Hfuel.
  induction Hms as [|m ms [Hv Hl] Hms IH]; intros s fuel Hf Hc Hfuel;
    (destruct fuel as [|fuel]; [simpl in Hfuel; lia|]); cbn [read_inbound_with_budget].
  - destruct s as [|[b l|k] s]; [done|by rewrite contents_cons_chunk in Hc|by inversion Hf].
  - unfold client_frames in Hc. rewrite bind_cons in Hc.
    destruct (read_inbound_message m _ s Hf Hc Hv Hl) as (s' & -> & Hf' & Hc').
    rewrite (IH s' fuel Hf' Hc') by (simpl in Hfuel; lia). done.
Qed.

Lemma inbound_messages_arrive_witness :
  read_inbound_with_budget 4 (push_back (client_frames alice_hello) []) =
  Some ((Message <$> alice_hello) ++ [Disconnected]).
Proof.
  apply inbound_messages_arrive.
  - vm_compute. repeat constructor.
  - vm_compute. reflexivity.
  - repeat constructor; vm_compute; done.
  - simpl. lia.
Defined.

(** ** What a step of a session writes *)

Section serving.
Context `{Postcard} `{Sha256} `{Ed25519}.

Lemma write_all_Ok l w w' : write_all l w = (Ok tt, w') → written w' = written w ++ l.
Proof. unfold write_all. intros E. repeat case_match; by simplify_eq/=. Qed.

Lemma write_frame_Ok w l w' :
  write_frame w l = (Ok tt, w') → written w' = written w ++ frame_bytes l.
Proof.
  unfold write_frame. intros E. case_decide; [done|]. case_decide; [done|].
  destruct (write_all (be_bytes 4 _) w) as [[[]|] w1] eqn:E1; [|done].
  destruct (write_all l w1) as [[[]|] w2] eqn:E2; [|done].
  assert (written w' = written w2) as ->
    by (unfold flush in E; repeat case_match; by simplify_eq).
  apply write_all_Ok in E1, E2. unfold frame_bytes. by rewrite E2, E1, (assoc_L (++)).
Qed.

Lemma send_frame_Ok l env c c' :
  send_frame l env c = (Ok tt, c') →
  written (output c') = written (output c) ++ frame_bytes l ∧ shared c' = shared c.
Proof.
  intros E. split; [|by eapply kept; [apply keeps_send_frame|exact E]].
  unfold send_frame, await_io in E. case_match; [done|].
  destruct (write_frame _ l) as [[[]|k] w] eqn:Ew; [|done]. apply write_frame_Ok in Ew.
  simplify_eq. exact Ew.
Qed.

Lemma send_message_Ok m env c c' :
  send_message m env c = (Ok tt, c') →
  written (output c') = written (output c) ++ relay_frames [m] ∧ shared c' = shared c.
Proof.
  intros [(l & c1 & E1 & E)|(e & _ & ?)]%conn_bind_inv; [|done].
  unfold encode_relay, lift_conn in E1. injection E1 as E1 <-.
  apply map_err_Ok, encode_message_Ok in E1 as [-> _]. apply send_frame_Ok in E.
  unfold relay_frames. by rewrite bind_singleton.
Qed.

Lemma or_break_inv {A} (m : ConnM A) env c r c' :
  or_break m env c = (r, c') →
  (∃ a, r = Ok (Some a) ∧ m env c = (Ok a, c')) ∨ (r = Ok None ∧ m env c = (Err Cancelled, c')) ∨
  (∃ e, r = Err e ∧ m env c = (Err e, c')).
Proof. unfold or_break. destruct (m env c) as [[a|[]] c1]; intros; simplify_eq; eauto 10. Qed.

(** Sending the answer under [select!]. *)
Lemma send_or_break_true (m : RelayMessage.t) env c c' :
  (encoded ← encode_relay m; sent ← or_break (send_frame encoded);
   mret (match sent with Some _ => true | None => false end)) env c = (Ok true, c') →
  written (output c') = written (output c) ++ relay_frames [m] ∧ shared c' = shared c.
Proof.
  intros [(l & c1 & E1 & E)|(e & _ & ?)]%conn_bind_inv; [|done].
  apply conn_bind_inv in E as [(sent & c2 & E2 & E)|(e & _ & ?)]; [|done].
  unfold mret, ConnM_ret in E. injection E as E <-.
  apply or_break_inv in E2 as [([] & [= ->] & E2)|[[[= ->] _]|(e & ? & _)]]; [|done|done].
  apply (send_message_Ok m env). unfold send_message. by erewrite conn_bind_run by exact E1.
Qed.

(** The outcome of a request that was answered, whatever happened behind it. *)
Definition answers_request (user : UserId) (id : MessageId) (request : Request.t) (env : ConnEnv)
    (c c' : Conn) (response : Response.t) : Prop :=
  let admitted := (rate_admit (config env) (instant env) user (rates c)).1 in
  let delivery := deliver (storage_limits env) user id request (storage_env env) (relay_db c)
                    (storage_metrics c) in
  (admitted = false ∧ response = Response.Rejected Rejection.Overloaded ∧ relay_db c' = relay_db c) ∨
  (admitted = true ∧
    ((∃ m, delivery = (Ok response, relay_db c', m)) ∨
     (∃ e m, delivery = (Err e, relay_db c', m) ∧ response = Response.Rejected Rejection.Internal) ∨
     (response = Response.Rejected Rejection.Overloaded ∧ worker env ≠ Answers ∧
       (relay_db c' = relay_db c ∨ ∃ r m, delivery = (r, relay_db c', m))))).

Lemma worker_deliver_inv user id request limits env c out c' :
  worker_execute (deliver limits user id request) env c = (Ok out, c') →
  relay_hub c' = relay_hub c ∧ output c' = output c ∧
  match out with
  | Ok r => ∃ m, deliver limits user id request (storage_env env) (relay_db c) (storage_metrics c) =
                   (r, relay_db c', m)
  | Err _ => worker env ≠ Answers ∧
      (relay_db c' = relay_db c ∨
       ∃ r m, deliver limits user id request (storage_env env) (relay_db c) (storage_metrics c) =
                (r, relay_db c', m))
  end.
Proof.
  unfold worker_execute, run_command. intros E.
  destruct (deliver _ _ _ _ _ _ _) as [[a db] m] eqn:Eop.
  destruct (worker env) as [| | |[]]; simpl in E; simplify_eq/=; try case_match; simplify_eq/=; eauto 10.
Qed.

Lemma announce_inv response env c r c' :
  announce response env c = (r, c') →
  r = Ok tt ∧ relay_db c' = relay_db c ∧ output c' = output c ∧
  relay_hub c' = match response with
                 | Response.AppendAccepted _ =>
                     notify (elements (active_identities (relay_hub c))) RelayMessage.DeliveryChanged
                       (relay_hub c)
                 | _ => relay_hub c
                 end.
Proof. destruct response; intros E; unfold announce, modify, mret, ConnM_ret in E; by simplify_eq. Qed.

Lemma response_of_inv request out env c r c' :
  response_of request out env c = (r, c') →
  relay_db c' = relay_db c ∧ output c' = output c ∧ relay_hub c' = relay_hub c ∧
  r = Ok (match out with
          | Ok (Ok response) => response
          | Ok (Err _) => Response.Rejected Rejection.Internal
          | Err _ => Response.Rejected Rejection.Overloaded
          end).
Proof.
  destruct out as [[response|e]|k]; unfold response_of; [by intros [= <- <-]| |by intros [= <- <-]].
  destruct (is_recovery request); by intros [= <- <-].
Qed.

Lemma serve_delivery_true user id request env c c' :
  serve_delivery user id request env c = (Ok true, c') →
  ∃ response,
    answers_request user id request env c c' response ∧
    written (output c') = written (output c) ++ relay_frames [RelayMessage.Delivery id response] ∧
    relay_hub c' = match response with
                   | Response.AppendAccepted _ =>
                       notify (elements (active_identities (relay_hub c)))
                         RelayMessage.DeliveryChanged (relay_hub c)
                   | _ => relay_hub c
                   end.
Proof.
  intros [(b & c1 & E1 & E)|(e & _ & ?)]%conn_bind_inv; [|done].
  unfold admit_session_request in E1. destruct (rate_admit _ _ _ _) as [admitted rates1] eqn:Er.
  injection E1 as <- <-. unfold answers_request. rewrite Er. destruct admitted; cbn [negb] in E.
  - apply conn_bind_inv in E as [(limits & c2 & E2 & E)|(e & _ & ?)]; [|done].
    unfold ask_conn in E2. injection E2 as <- <-.
    apply conn_bind_inv in E as [(out & c3 & E3 & E)|(e & _ & ?)]; [|done].
    apply or_break_inv in E3 as [(o & [= ->] & E3)|[[[= ->] _]|(e & ? & _)]]; [|done|done].
    apply worker_deliver_inv in E3 as (Hh & Ho & Hd).
    apply conn_bind_inv in E as [(response & c4 & E4 & E)|(e & _ & ?)]; [|done].
    apply response_of_inv in E4 as (D4 & O4 & H4 & [= ->]).
    apply conn_bind_inv in E as [(u & c5 & E5 & E)|(e & _ & ?)]; [|done].
    apply announce_inv in E5 as (_ & D5 & O5 & H5).
    apply send_or_break_true in E as [Hw Hs]. unfold shared in Hs. injection Hs as D6 _ H6 _.
    eexists. split; [|split; [by rewrite Hw, O5, O4, Ho|by rewrite H6, H5, H4, Hh]].
    right. split; [done|]. rewrite D6, D5, D4.
    destruct o as [[response|e]|k]; cbn [relay_db set_rates storage_metrics] in Hd; eauto.
    destruct Hd. eauto 6.
  - apply conn_bind_inv in E as [(u & c2 & E2 & E)|(e & _ & ?)]; [|done].
    unfold modify in E2. injection E2 as <- <-.
    apply conn_bind_inv in E as [([] & c3 & E3 & E)|(e & _ & ?)]; [|done].
    unfold mret, ConnM_ret in E. injection E as <-. unfold uninterrupted in E3.
    apply send_message_Ok in E3 as [Hw Hs]. unfold shared in Hs. injection Hs as D _ Hh _.
    eexists. split; [left; split_and!; [done|done|by rewrite D]|]. by rewrite Hw, Hh.
Qed.
End serving.

(** ** Whole sessions *)

(** The request a branch of the [select!] brings. *)
Definition requested (selected : Selected) : option MessageId :=
  match selected with
  | OnInbound (Some (Message (ClientMessage.Delivery id _))) => Some id
  | _ => None
  end.

(** Only [DeliveryChanged] is ever queued. *)
Definition only_changes (hub : ConnectionHub) : Prop :=
  Forall (λ ch, Forall (eq RelayMessage.DeliveryChanged) (queue ch)) (channels hub).

(** Messages come out of the decoder. *)
Definition decoded `{Postcard} (selected : Selected) : Prop :=
  match selected with OnInbound (Some (Message m)) => valid c_client_message m | _ => True end.

Lemma only_changes_notify_one s chs chs' failure :
  Forall (λ ch, Forall (eq RelayMessage.DeliveryChanged) (queue ch)) chs →
  notify_one RelayMessage.DeliveryChanged s chs = (chs', failure) →
  Forall (λ ch, Forall (eq RelayMessage.DeliveryChanged) (queue ch)) chs'.
Proof.
  intros Hc. unfold notify_one. destruct (chs !! s) as [ch|] eqn:Es; [|by intros [= <- _]].
  pose proof (Forall_lookup_1 _ _ _ _ Hc Es) as Hq. cbn beta in Hq.
  assert (∀ ch', try_send RelayMessage.DeliveryChanged ch = Some ch' →
    Forall (eq RelayMessage.DeliveryChanged) (queue ch')) as Hsend.
  { unfold try_send. intros ch' E. case_match; [done|]. case_decide; [done|]. injection E as <-.
    simpl. apply Forall_app. split; [done|by constructor]. }
  destruct (true && bool_decide (capacity ch < _)); [by intros [= <- _]|].
  destruct (negb (receiver_alive ch) || _); [by intros [= <- _]|].
  destruct (try_send _ ch) as [ch'|]; [|by intros [= <- _]].
  intros [= <- _]. apply Forall_insert; [done|by apply Hsend].
Qed.

Lemma only_changes_notify recipients hub :
  only_changes hub → only_changes (notify recipients RelayMessage.DeliveryChanged hub).
Proof.
  unfold only_changes, notify. intros Hc.
  generalize (notify_targets recipients hub). intros targets.
  destruct (notify_all _ targets (channels hub)) as [chs failed] eqn:E. simpl.
  revert chs failed E. revert Hc. generalize (channels hub).
  induction targets as [|[[u i] s] targets IH]; intros chs0 Hc chs failed E; [by injection E as <- _|].
  simpl in E. destruct (notify_one _ s chs0) as [chs1 b] eqn:E1.
  destruct (notify_all _ targets chs1) as [chs2 f2] eqn:E2. injection E as <- _.
  eapply IH; [|exact E2]. by eapply only_changes_notify_one.
Qed.

Section sessions.
Context `{Postcard} `{Sha256} `{Ed25519}.

(** What one turn of the loop that goes on has done. *)
Record turn (limits : StorageLimits) (selected : Selected) (c c' : Conn) : Prop := {
  turn_answers : ∃ answers, written (output c') = written (output c) ++ relay_frames answers ∧
    omap RelayMessage.request_id_of answers = option_list (requested selected);
  turn_db : rtc (relay_step limits) (relay_db c) (relay_db c');
  turn_hub : only_changes (relay_hub c') ∧
    active_identities (relay_hub c') = active_identities (relay_hub c) ∧
    ∀ u i t, listed (connections (relay_hub c')) u i t → listed (connections (relay_hub c)) u i t;
}.

Lemma notify_hub recipients m hub :
  active_identities (notify recipients m hub) = active_identities hub ∧
  ∀ u i t, listed (connections (notify recipients m hub)) u i t → listed (connections hub) u i t.
Proof.
  unfold notify. destruct (notify_all _ _ _) as [chs failed]. simpl. split; [done|].
  by intros u i t [? _]%listed_evict.
Qed.

Lemma answers_step user id request env c c' response :
  valid c_request request → answers_request user id request env c c' response →
  rtc (relay_step (storage_limits env)) (relay_db c) (relay_db c').
Proof.
  intros Hv [(_ & _ & ->)|(_ & [(m & E)|[(e & m & E & _)|(_ & _ & [->|(r & m & E)])]])]; try done;
    apply rtc_once; by eapply deliver_step.
Qed.

Lemma session_turn user receiver selected env c c' :
  decoded selected → only_changes (relay_hub c) →
  session_step user receiver selected env c = (Ok true, c') →
  turn (storage_limits env) selected c c'.
Proof.
  intros Hdec Hq E. destruct selected as [|[[m| |e]|]|]; try done.
  - destruct m as [v|u k t|sg|id request].
    4: { destruct Hdec as [_ Hv]. apply serve_delivery_true in E as (response & Ha & Hw & Hh).
         split.
         - exists [RelayMessage.Delivery id response]. by split.
         - by eapply answers_step.
         - rewrite Hh. destruct response; try done. split; [by apply only_changes_notify|apply notify_hub]. }
    all: apply conn_bind_inv in E as [([] & c1 & E1 & E)|(e & _ & ?)]; [|done];
      unfold mret, ConnM_ret in E; injection E as <-; unfold uninterrupted in E1;
      apply send_message_Ok in E1 as [Hw Hs]; unfold shared in Hs; injection Hs as D _ Hh _;
      (split; [eexists; split; [exact Hw|done]|by rewrite D|by rewrite Hh]).
  - cbn [session_step] in E. destruct (recv receiver (relay_hub c)) as [r hub1] eqn:Er.
    unfold recv in Er. destruct (channels (relay_hub c) !! receiver) as [[[|m q] alive]|] eqn:Es;
      try (destruct (has_sender receiver (relay_hub c)); simplify_eq;
           split; [exists []; by rewrite app_nil_r|done|done]).
    injection Er as <- <-. apply send_or_break_true in E as [Hw Hs].
    pose proof (Forall_lookup_1 _ _ _ _ Hq Es) as Hm. cbn beta in Hm.
    apply Forall_cons in Hm as [<- Hm]. unfold shared in Hs. injection Hs as D _ Hh _. split.
    + exists [RelayMessage.DeliveryChanged]. by split.
    + by rewrite D.
    + rewrite Hh. split_and!; [by apply Forall_insert|done|done].
Qed.
End sessions.

Section whole.
Context `{Postcard} `{Sha256} `{Ed25519}.

Lemma serve_turns limits user receiver script c r c' :
  Forall (λ x, storage_limits x.1 = limits ∧ decoded x.2) script →
  only_changes (relay_hub c) → serve user receiver script c = (r, c') → r = None →
  ∃ answers, written (output c') = written (output c) ++ relay_frames answers ∧
    omap RelayMessage.request_id_of answers = omap requested script.*2 ∧
    rtc (relay_step limits) (relay_db c) (relay_db c') ∧ only_changes (relay_hub c').
Proof.
  intros Hs. revert c. induction Hs as [|[env selected] script [Hl Hd] Hs IH]; intros c Hq E ->.
  { injection E as <-. exists []. by rewrite app_nil_r. }
  cbn [serve] in E. destruct (session_step _ _ _ env c) as [[[]|e] c1] eqn:E1; [|done|done].
  cbn [fst snd] in Hl, Hd.
  apply session_turn in E1 as [(a1 & W1 & I1) D1 (Q1 & _)]; [|done|done]. rewrite Hl in D1.
  destruct (IH c1 Q1 E eq_refl) as (a2 & W2 & I2 & D2 & Q2).
  exists (a1 ++ a2). split_and!; [| |by etrans|done].
  - rewrite W2, W1. unfold relay_frames. by rewrite bind_app, (assoc_L (++)).
  - rewrite omap_app, I1, I2. cbn. by destruct (requested selected).
Qed.
End whole.

(** C32: a session answers every request once, in order, and under its own id. While the
    loop goes on, the frames it has written are messages whose request ids are those of
    the deliveries it received, in the order received; besides them it writes only
    notices and protocol errors, which answer no request. The database has gone through
    steps of the relay only, so every invariant of the database holds behind any session. *)
Theorem sessions_answer_in_order `{Postcard} `{Sha256} `{Ed25519} limits user receiver script c c' :
  Forall (λ x, storage_limits x.1 = limits ∧ decoded x.2) script →
  only_changes (relay_hub c) → serve user receiver script c = (None, c') →
  ∃ answers, written (output c') = written (output c) ++ relay_frames answers ∧
    omap RelayMessage.request_id_of answers = omap requested script.*2 ∧
    rtc (relay_step limits) (relay_db c) (relay_db c').
Proof.
  intros Hs Hq E. destruct (serve_turns limits user receiver script c None c' Hs Hq E eq_refl)
    as (answers & ? & ? & ? & _). eauto.
Qed.

(** An answer says what happened. A request that was answered was either refused by
    the rate limit, with [Overloaded] and an untouched database; or ran, and the answer is
    the response of [deliver] for this user and this id, or [Internal] when storage
    failed; or the worker did not take it or lost its result, and the answer is
    [Overloaded]. Exactly an accepted append is announced to the active identities. *)
Theorem answers_are_outcomes `{Postcard} `{Sha256} `{Ed25519} user id request env c c' :
  serve_delivery user id request env c = (Ok true, c') →
  ∃ response,
    answers_request user id request env c c' response ∧
    written (output c') = written (output c) ++ relay_frames [RelayMessage.Delivery id response] ∧
    relay_hub c' = match response with
                   | Response.AppendAccepted _ =>
                       notify (elements (active_identities (relay_hub c)))
                         RelayMessage.DeliveryChanged (relay_hub c)
                   | _ => relay_hub c
                   end.
Proof. apply serve_delivery_true. Qed.

(** ** The end of a session *)

Definition active_of (c : Conn) : gset UserId := active_identities (relay_hub c).

Section ending.
Context `{Postcard} `{Sha256} `{Ed25519}.

Lemma keeps_active {A} (m : ConnM A) : keeps shared m → keeps active_of m.
Proof. intros Hm env c. specialize (Hm env c). unfold shared in Hm. unfold active_of. by injection Hm as _ _ -> _. Qed.

Lemma keeps_active_worker {A} (operation : Env → RelayDb → Metrics → A * RelayDb * Metrics) :
  keeps active_of (worker_execute operation).
Proof.
  intros env c. destruct (worker_execute operation env c) as [r c'] eqn:E.
  apply worker_execute_inv in E as (Hh & _). unfold active_of. simpl. by rewrite Hh.
Qed.

Lemma keeps_active_announce response : keeps active_of (announce response).
Proof.
  intros env c. destruct (announce response env c) as [r c'] eqn:E.
  apply announce_inv in E as (_ & _ & _ & Hh). unfold active_of. simpl. rewrite Hh.
  destruct response; try done. apply notify_hub.
Qed.

Lemma keeps_active_response request out : keeps active_of (response_of request out).
Proof.
  intros env c. destruct (response_of request out env c) as [r c'] eqn:E.
  apply response_of_inv in E as (_ & _ & Hh & _). unfold active_of. simpl. by rewrite Hh.
Qed.

Lemma keeps_active_admit user : keeps active_of (admit_session_request user).
Proof. intros env c. unfold admit_session_request. by destruct (rate_admit _ _ _ _). Qed.

Hint Resolve keeps_active_worker keeps_active_announce keeps_active_response keeps_active_admit : keeps.

Lemma keeps_active_send l : keeps active_of (send_frame l).
Proof. apply keeps_active, keeps_send_frame. Qed.
Lemma keeps_active_message m : keeps active_of (send_message m).
Proof. apply keeps_active, keeps_send_message. Qed.
Hint Resolve keeps_active_send keeps_active_message : keeps.

Lemma keeps_active_step user receiver selected : keeps active_of (session_step user receiver selected).
Proof.
  destruct selected as [|[[m| |e]|]|]; cbn [session_step]; try apply keeps_ret; try apply keeps_raise.
  - unfold serve_delivery, send_protocol_error, send_request_error, encode_relay. solve_keeps. all: try done.
  - intros env c. destruct (recv receiver (relay_hub c)) as [r hub1] eqn:Er.
    assert (active_identities hub1 = active_identities (relay_hub c)) as Ha.
    { unfold recv in Er. repeat case_match; by simplify_eq. }
    destruct r; [|done|done]. transitivity (active_of (set_hub hub1 c)); [|done].
    match goal with |- active_of (?k env _).2 = _ => assert (keeps active_of k) as Hk end.
    { unfold encode_relay. solve_keeps. }
    apply Hk.
Qed.

Lemma serve_active user receiver script c : active_of (serve user receiver script c).2 = active_of c.
Proof.
  revert c. induction script as [|[env selected] script IH]; intros c; [done|]. cbn [serve].
  pose proof (keeps_active_step user receiver selected env c) as Hk.
  destruct (session_step _ _ _ env c) as [[[]|e] c1]; simpl in *; [by rewrite IH|done|done].
Qed.

Lemma refused_active env c r c' :
  authenticate env c = (r, c') → (∀ a, r ≠ Ok (Some a)) → active_of c' = active_of c.
Proof.
  intros [[Hs _]|(u & key & enrollment & c1 & Hsig & Hs & E)]%authenticate_cases Hne;
    unfold shared in Hs; injection Hs as _ _ Hhub _; unfold active_of; [by rewrite Hhub|].
  apply finish_authentication_hub in E. rewrite Hhub in E.
  destruct r as [[a|]|e]; [by destruct (Hne a)|..];
    (destruct E as [->|(registration & receiver & hub1 & Hreg & ->)]; [done|];
     apply register_Ok in Hreg as (Hu & Hr & Ha & _); simpl; rewrite Hr, Ha; set_solver).
Qed.
End ending.

(** [handle_connection], however it ends. *)
Lemma handled_clean `{Postcard} `{Sha256} `{Ed25519} env by_shutdown script c r c' :
  handle_connection env by_shutdown script c = (Some r, c') →
  active_identities (relay_hub c') = active_identities (relay_hub c) ∧
  ∀ user registration receiver c1 t,
    authenticate env c = (Ok (Some (user, registration, receiver)), c1) →
    ¬ listed (connections (relay_hub c')) user (connection_id registration) t.
Proof.
  unfold handle_connection. destruct (authenticate env c) as [ra ca] eqn:Ea.
  destruct ra as [[[[user registration] receiver]|]|e]; cycle 1.
  { intros [= _ <-]. split; [|done]. by apply (refused_active env c _ _ Ea). }
  { pose proof (refused_active env c _ _ Ea) as Ha. intros E.
    assert (ca = c') as <- by (destruct e; by injection E). split; [by apply Ha|done]. }
  pose proof (serve_active user receiver script ca) as Hs.
  destruct (serve user receiver script ca) as [[r'|] c2]; [|done]. intros [= _ <-].
  assert (registered_user registration = user ∧ user ∉ active_identities (relay_hub c) ∧
    active_identities (relay_hub ca) = {[user]} ∪ active_identities (relay_hub c)) as (Hr & Hu & Hact).
  { apply authenticate_cases in Ea as [[_ Hne]|(u & key & t & c3 & _ & Hsh & E)];
      [by destruct (Hne (user, registration, receiver))|].
    apply finish_authentication_hub in E as [-> E]. unfold shared in Hsh. injection Hsh as _ _ Hh _.
    rewrite Hh in E. by apply register_Ok in E as (? & ? & ? & _). }
  unfold active_of in Hs. simpl in Hs. simpl. rewrite Hr, Hs, Hact. split; [set_solver|].
  intros user' registration' receiver' c1 t [= -> -> -> ->]. rewrite listed_remove. naive_solver.
Qed.

(** Told to stop, the task of a connection ends wherever it waits: for its payload permit
    and for TLS, in the handshake, at the [select!] of the session, and where it executes a
    request or writes. This is [RelayAdmission.on_shutdown], for the programs themselves. *)
Lemma told_to_stop `{Postcard} `{Sha256} `{Ed25519} tls env script c c' user receiver :
  connection_task ShutDown tls env true script c = (Some Silent, c) ∧
  connection_task (Finished (Ok tt)) ShutDown env true script c = (Some Silent, c) ∧
  (authenticate env c = (Err Cancelled, c') →
    connection_task (Finished (Ok tt)) (Finished (Ok tt)) env true script c = (Some Silent, c')) ∧
  serve user receiver ((env, OnShutdown) :: script) c = (Some (Ok tt), c) ∧
  (∀ A (m : ConnM A), m env c = (Err Cancelled, c') → or_break m env c = (Ok None, c')).
Proof.
  split_and!; try done.
  - intros E. cbn [connection_task]. unfold handle_connection. by rewrite E.
  - intros A m E. unfold or_break. by rewrite E.
Qed.

(** C33: a connection that is over leaves no trace among the sessions. However its task
    ends, waiting for memory or for TLS, by refusal, error, shutdown, deadline or
    disconnection, the active identities are those from before it, so that the user may
    connect again; the connection it had registered is no longer listed; and a task that
    never got as far as [handle_connection] has written nothing and changed neither the
    database nor the hub. *)
Theorem connections_end_clean `{Postcard} `{Sha256} `{Ed25519} permit tls env by_shutdown script c report c' :
  connection_task permit tls env by_shutdown script c = (Some report, c') →
  active_identities (relay_hub c') = active_identities (relay_hub c) ∧
  (∀ user registration receiver c1 t, permit = Finished (Ok tt) → tls = Finished (Ok tt) →
    authenticate env c = (Ok (Some (user, registration, receiver)), c1) →
    ¬ listed (connections (relay_hub c')) user (connection_id registration) t) ∧
  (permit ≠ Finished (Ok tt) ∨ tls ≠ Finished (Ok tt) → output c' = output c ∧ shared c' = shared c).
Proof.
  unfold connection_task. destruct permit as [[[]|[]]| |]; try (intros [= _ <-]; by split_and!).
  destruct tls as [[[]|k]| |]; try (intros [= _ <-]; by split_and!).
  destruct (handle_connection _ _ _ c) as [[[u|e]|] c1] eqn:E; [| |done]; intros [= _ <-];
    apply handled_clean in E as [Ha Hl]; (split_and!; [done| |by intros [[]|[]]]); eauto.
Qed.

(** ** A concrete session *)

Definition session_conn : Conn :=
  MkConn [] (Writer [] None) db_enrolled demo_metrics
    (MkHub {[alice]} 1 {[alice := {[0 := 0%nat]}]} [MkChannel [] true]) ∅ 0 0 0 0.

Definition alice_script : list (ConnEnv * Selected) :=
  [(demo_conn_env, OnInbound (Some (Message (ClientMessage.Delivery (attempt x01) create_cave))));
   (demo_conn_env, OnInbound (Some (Message (ClientMessage.ClientHello 9))));
   (demo_conn_env, OnInbound (Some (Message (ClientMessage.Delivery (attempt x02)
                     (Request.AppendRoomOperation add_bob)))));
   (demo_conn_env, OnOutbound)].

Lemma sessions_answer_in_order_witness :
  ∃ answers, written (output (@serve _ _ alice 0%nat alice_script session_conn).2) = relay_frames answers ∧
    omap RelayMessage.request_id_of answers = [attempt x01; attempt x02].
Proof.
  destruct (@serve _ _ alice 0%nat alice_script session_conn) as [r c'] eqn:E.
  assert (r = None) as -> by (apply (f_equal fst) in E; vm_compute in E; exact (eq_sym E)).
  destruct (@sessions_answer_in_order _ _ demo_ed25519 demo_limits alice 0%nat alice_script session_conn c')
    as (answers & Hw & Hi & _).
  - repeat constructor; try exact create_cave_valid; try (exact add_bob_valid). vm_compute. discriminate.
  - repeat constructor.
  - exact E.
  - exists answers. exact (conj Hw Hi).
Defined.

Lemma answers_are_outcomes_witness :
  ∃ response, written (output (serve_delivery alice (attempt x01) create_cave demo_conn_env session_conn).2) =
    relay_frames [RelayMessage.Delivery (attempt x01) response].
Proof.
  destruct (serve_delivery alice (attempt x01) create_cave demo_conn_env session_conn) as [r c'] eqn:E.
  assert (r = Ok true) as -> by (apply (f_equal fst) in E; vm_compute in E; exact (eq_sym E)).
  destruct (@answers_are_outcomes _ _ demo_ed25519 _ _ _ _ _ _ E) as (response & _ & Hw & _).
  exists response. exact Hw.
Defined.

(** Alice connects, creates a room and hangs up. *)
Definition alice_visit : list (ConnEnv * Selected) :=
  take 1 alice_script ++ [(demo_conn_env, OnInbound (Some Disconnected))].

Lemma connections_end_clean_witness :
  active_identities (relay_hub (@connection_task _ _ demo_ed25519 (Finished (Ok tt)) (Finished (Ok tt))
    demo_conn_env false alice_visit demo_conn).2) = ∅.
Proof.
  destruct (@connection_task _ _ demo_ed25519 (Finished (Ok tt)) (Finished (Ok tt)) demo_conn_env false alice_visit demo_conn)
    as [r c'] eqn:E.
  assert (r = Some Silent) as -> by (apply (f_equal fst) in E; vm_compute in E; exact (eq_sym E)).
  exact (proj1 (@connections_end_clean _ _ demo_ed25519 _ _ _ _ _ _ _ _ E)).
Defined.
