(* ===== verification/TlsIdentity.v ===== *)
(** * The relay's TLS identity

    [tls::load_or_generate_identity] of src/crates/grotto-relay/src/lib.rs: the certificate
    and the key in two private files, made on the first start. Certificates are made by the
    rcgen crate, and PEM text and configurations are read by rustls: the class [TlsLibrary]. *)
From S2P Require Import Prelude Bytes Text Identifiers Transcripts Framing PrivateFiles.

Class TlsLibrary := {
  (** Certificate and key in PEM and the certificate in DER, from random bits. *)
  generate_simple_self_signed : list byte → list str → option (list byte * list byte * list byte);
  pem_certs : list byte → option (list (list byte));
  pem_private_key : list byte → option (option (list byte));
  with_single_cert : list (list byte) → list byte → bool;
}.

Inductive TlsError :=
| TlsIo (k : ErrorKind)
| IncompleteIdentity
| GenerationFailed
| BadCertificatePem
| NoCertificates
| FingerprintPanic
| BadKeyPem
| NoPrivateKey
| BadConfiguration.

(** What the acceptor is built from, and the fingerprint. *)
Record TlsIdentity := MkTlsIdentity { tls_certs : list (list byte); tls_key : list byte; tls_fingerprint : str }.

Definition TlsM (A : Type) : Type := Os → Files → result TlsError A * Files.

#[global] Instance TlsM_ret : MRet TlsM := λ A a os fs, (Ok a, fs).
#[global] Instance TlsM_bind : MBind TlsM := λ A B f m os fs,
  match m os fs with
  | (Ok a, fs) => f a os fs
  | (Err e, fs) => (Err e, fs)
  end.
Definition on_files {A} (m : FileM A) : TlsM A := λ os fs,
  match m os fs with
  | (Ok a, fs) => (Ok a, fs)
  | (Err k, fs) => (Err (TlsIo k), fs)
  end.
Definition from_tls {A} (r : result TlsError A) : TlsM A := λ _ fs, (r, fs).

(** ** The files *)

(** [Path::try_exists] follows links. *)
Definition try_exists (path : Path) : FileM bool :=
  p ← environment (λ os, resolve os path);
  r ← outcome (symlink_metadata p);
  match r with
  | Ok n => mret (match kind n with Symlink leads_somewhere => leads_somewhere | _ => true end)
  | Err NotFound => mret false
  | Err k => io_error k
  end.

Definition sync_all : FileM () := syscall (λ _ fs, (Ok tt, fs)).

(** [create_new], [write_all] and [sync_all]; a write that fails leaves what it wrote. *)
Definition write_with_mode (path : Path) (contents : list byte) (permissions : Z) : FileM () :=
  p ← environment (λ os, resolve os path);
  short ← (λ os fs, (Ok (write_fails os (calls fs)), fs));
  let contents' := match short with Some n => take n contents | None => contents end in
  create_node p (λ os, MkNode (Regular contents') (euid os) (masked os permissions));;
  match short with Some _ => io_error OtherKind | None => sync_all end.

(** [O_NOFOLLOW]; directories and special files open, and are refused afterwards. *)
Definition open_existing (p : list fname) : FileM () :=
  n ← symlink_metadata p;
  if is_link n then io_error OtherKind else mret tt.

Definition contents_of (n : Node) : list byte := match kind n with Regular l => l | _ => [] end.

Definition read_private (path : Path) : FileM (list byte) :=
  p ← environment (λ os, resolve os path);
  open_existing p;;
  metadata ← symlink_metadata p;
  private ← environment (λ os, private_file os metadata);
  if negb private then io_error PermissionDenied
  else if decide (len (contents_of metadata) > 64 * 1024) then io_error InvalidData
  else
    read ← symlink_metadata p;
    let l := take (Z.to_nat (64 * 1024 + 1)) (contents_of read) in
    if decide (len l > 64 * 1024) then io_error InvalidData else mret l.

Section tls.
Context `{Sha256} `{TlsLibrary}.

Definition generate_self_signed (bits : list byte) : result TlsError (list byte * list byte * list byte) :=
  ok_or GenerationFailed
    (generate_simple_self_signed bits [lit "localhost"; lit "127.0.0.1"; lit "::1"]).

Definition load_from_pem (cert_pem key_pem : list byte) : result TlsError TlsIdentity :=
  certs ← ok_or BadCertificatePem (pem_certs cert_pem);
  first ← ok_or NoCertificates (head certs);
  fingerprint ← ok_or FingerprintPanic (cert_fingerprint_sha256_hex first);
  key ← ok_or BadKeyPem (pem_private_key key_pem);
  key ← ok_or NoPrivateKey key;
  if with_single_cert certs key then Ok (MkTlsIdentity certs key fingerprint) else Err BadConfiguration.

Definition generate_at (cert_path key_path : Path) (bits : list byte) : TlsM () :=
  pems ← from_tls (generate_self_signed bits);
  on_files (write_with_mode cert_path pems.1.1 0x180);;
  on_files (write_with_mode key_path pems.1.2 0x180).

Definition load_or_generate_at (cert_path key_path : Path) (bits : list byte) : TlsM TlsIdentity :=
  on_files (ensure_parent cert_path);;
  on_files (ensure_parent key_path);;
  cert_exists ← on_files (try_exists cert_path);
  key_exists ← on_files (try_exists key_path);
  (if bool_decide (cert_exists ≠ key_exists) then from_tls (Err IncompleteIdentity) else mret tt);;
  (if (cert_exists : bool) then mret tt else generate_at cert_path key_path bits);;
  cert_pem ← on_files (read_private cert_path);
  key_pem ← on_files (read_private key_path);
  from_tls (load_from_pem cert_pem key_pem).
End tls.

(** ** Default places *)

Definition default_directory (vars : PathVars) : result ErrorKind Path :=
  ok_or NotFound (data_directory vars (lit "grotto-relay")).

Definition load_or_generate_identity `{Sha256} `{TlsLibrary} (vars : PathVars) (bits : list byte) : TlsM TlsIdentity :=
  cert_path ← from_tls (match path_or (vars "GROTTO_TLS_CERT_PATH") (default_directory vars) (lit "grotto-tls-cert.pem") with
                        | Ok p => Ok p | Err k => Err (TlsIo k) end);
  key_path ← from_tls (match path_or (vars "GROTTO_TLS_KEY_PATH") (default_directory vars) (lit "grotto-tls-key.pem") with
                       | Ok p => Ok p | Err k => Err (TlsIo k) end);
  load_or_generate_at cert_path key_path bits.
