(* ===== verification/TlsIdentityProps.v ===== *)
(** * The relay's TLS identity is kept

    What [load_or_generate_at] reads, writes and refuses to replace. *)
From S2P Require Import Prelude Bytes Text Identifiers Transcripts Framing PrivateFiles PrivateFilesProps TlsIdentity.

(** ** The way to a file stays as it is *)

Lemma tree_suffix fs p q : tree fs → q `suffix_of` p → is_Some (nodes fs !! p) → is_Some (nodes fs !! q).
Proof.
  intros Ht [k ->]. induction k as [|x k IH]; [done|]. simpl. intros Hp. apply IH. by apply (Ht x).
Qed.
Lemma way_stays P os fs fs' q : tree fs → is_Some (nodes fs !! q) → only_adds os fs fs' →
  on_the_way P fs q → on_the_way P fs' q.
Proof.
  intros Ht Hq Ha Hp p n Hs En. destruct (tree_suffix fs q p Ht Hs Hq) as [m Em].
  rewrite (lookup_weaken _ _ _ _ Em (adds_kept _ _ _ Ha)) in En. injection En as <-. by apply (Hp p).
Qed.
Lemma place_stays os fs fs' q : tree fs → private_place os fs q → only_adds os fs fs' → private_place os fs' q.
Proof.
  intros Ht [Hp (d & Ed & Hd)] Ha. split; [by eapply way_stays; [..|done]|]. exists d. split; [|done].
  by eapply lookup_weaken; [|apply Ha].
Qed.

(** ** Directories *)

(** [ensure_parent] makes directories and nothing else. *)
Definition only_dirs (fs fs' : Files) : Prop :=
  nodes fs ⊆ nodes fs' ∧ ∀ p n, nodes fs !! p = None → nodes fs' !! p = Some n → is_dir n = true.

#[global] Instance only_dirs_preorder : PreOrder only_dirs.
Proof.
  split; [intros fs; split; [done|congruence]|]. intros f1 f2 f3 [K1 N1] [K2 N2]. split; [by etrans|].
  intros p n E1 E3. destruct (nodes f2 !! p) as [n2|] eqn:E2; [|eauto].
  rewrite (lookup_weaken _ _ _ _ E2 K2) in E3. injection E3 as <-. eauto.
Qed.
Definition making {A} (m : FileM A) : Prop := ∀ os fs, only_dirs fs (m os fs).2.

Lemma making_looks {A} (m : FileM A) : looks m → making m.
Proof. intros Hm os fs. destruct (Hm os fs) as [E _]. split; rewrite E; [done|congruence]. Qed.
Lemma making_bind {A B} (m : FileM A) (k : A → FileM B) : making m → (∀ a, making (k a)) → making (m ≫= k).
Proof.
  intros Hm Hk os fs. unfold mbind, FileM_bind. specialize (Hm os fs).
  destruct (m os fs) as [[a|e] fs1]; [|done]. etrans; [exact Hm|apply Hk].
Qed.
Lemma making_mkdir p : making (outcome (mkdir p)).
Proof.
  intros os fs. rewrite outcome_state. unfold mkdir. set (new := λ os, MkNode Directory _ _).
  destruct (create_node_cases p new os fs) as [[[E _] _]|(_ & En & _ & E & _)]; unfold only_dirs; rewrite E; [split; [done|congruence]|].
  split; [by apply insert_subseteq|]. intros p' n Ep'. destruct (decide (p = p')) as [<-|].
  - rewrite lookup_insert, decide_True by done. by intros [= <-].
  - rewrite lookup_insert_ne by done. congruence.
Qed.
#[export] Hint Resolve making_mkdir : files.
#[export] Hint Extern 5 (making _) => apply making_looks : files.
Ltac making := repeat first
  [ progress intros
  | lazymatch goal with
    | |- making (_ ≫= _) => apply making_bind
    | |- making (match ?x with _ => _ end) => destruct x
    | |- _ => solve [auto with files]
    end ].
Lemma making_create_dir_all p : making (create_dir_all p).
Proof. induction p; cbn [create_dir_all]; making. Qed.
#[export] Hint Resolve making_create_dir_all : files.
Lemma making_ensure_parent p : making (ensure_parent p).
Proof. unfold ensure_parent. making. Qed.
Lemma ensure_parent_dirs p os fs r fs' : ensure_parent p os fs = (r, fs') → only_dirs fs fs'.
Proof. intros E. pose proof (making_ensure_parent p os fs) as Hm. by rewrite E in Hm. Qed.

(** ** Reading and writing *)

Section steps.
Context (os : Os) (b : bool) (x : fname) (q : list fname).
Abbreviation path := (MkPath b (x :: q)).
Abbreviation dir := (resolve os (MkPath b q)).
Abbreviation place := (x :: dir).

Lemma metadata_Ok p fs n fs' : symlink_metadata p os fs = (Ok n, fs') → same fs fs' ∧ node_at os fs p = Ok n.
Proof. intros [Hs [Hn|[f ?]]]%metadata_inv; [|done]. split; [done|]. by rewrite Hn. Qed.
Lemma node_in fs n : private_place os fs dir → node_at os fs place = Ok n → nodes fs !! place = Some n.
Proof.
  intros [Hp _]. rewrite node_at_below by by apply on_the_way_dirs. by destruct (nodes fs !! place); intros [= <-].
Qed.
Lemma place_same fs fs' : same fs fs' → private_place os fs dir → private_place os fs' dir.
Proof. intros Hs [Hp (d & Ed & Hd)]. split; [by eapply on_the_way_same|]. exists d. destruct Hs as [-> _]. done. Qed.

Lemma try_exists_Ok fs e fs' : private_place os fs dir → try_exists path os fs = (Ok e, fs') →
  same fs fs' ∧ (nodes fs !! place = None → e = false) ∧
  (∀ n, nodes fs !! place = Some n → is_link n = false → e = true).
Proof.
  intros Hp E. unfold try_exists in E. apply file_bind_Ok in E as (p & fs1 & [= <- <-] & E).
  rewrite resolve_file in E. apply file_bind_Ok in E as (r & fs2 & [Hs Hr]%outcome_Ok%metadata_inv & E).
  rewrite node_at_below in Hr by apply on_the_way_dirs, Hp.
  assert (fs' = fs2) as -> by (destruct r as [n|[]]; try done; by injection E). split; [done|]. split.
  - intros En. rewrite En in Hr. simpl in Hr. destruct Hr as [->|[[] ->]]; [|done..]. by injection E.
  - intros n En Hn. rewrite En in Hr. simpl in Hr. destruct Hr as [->|[[] ->]]; [|done..]. injection E as <-.
    unfold is_link in Hn. by destruct (kind n).
Qed.

Lemma read_private_Ok fs l fs' : private_place os fs dir → read_private path os fs = (Ok l, fs') →
  same fs fs' ∧ ∃ n, nodes fs !! place = Some n ∧ kind n = Regular l ∧ private_file os n = true.
Proof.
  intros Hp E. unfold read_private in E. apply file_bind_Ok in E as (p & fs1 & [= <- <-] & E). rewrite resolve_file in E.
  apply file_bind_Ok in E as (u & fs2 & E1 & E). unfold open_existing in E1.
  apply file_bind_Ok in E1 as (n1 & fs3 & [Hs3 _]%metadata_Ok & E1). case_match; [done|]. injection E1 as _ <-.
  apply file_bind_Ok in E as (n & fs4 & [Hs4 Hn]%metadata_Ok & E). apply file_bind_Ok in E as (pr & fs5 & [= <- <-] & E).
  destruct (private_file os n) eqn:Hpriv; simpl in E; [|done]. case_decide; [done|].
  apply file_bind_Ok in E as (n2 & fs6 & [Hs6 Hn2]%metadata_Ok & E). case_decide; [done|]. injection E as <- <-.
  pose proof (place_same _ _ Hs3 Hp) as Hp3. pose proof (place_same _ _ Hs4 Hp3) as Hp4.
  apply node_in in Hn; [|done]. apply node_in in Hn2; [|done]. destruct Hs3 as [E3 L3], Hs4 as [E4 L4], Hs6 as [E6 L6].
  rewrite E4 in Hn2. rewrite Hn in Hn2. injection Hn2 as <-. split; [split; congruence|]. exists n.
  split_and!; [congruence| |done]. unfold private_file, is_file, contents_of in *.
  destruct (kind n) as [l0| | |]; try done. f_equal. symmetry. apply take_ge. unfold len in *. lia.
Qed.
End steps.

Lemma only_adding_try_exists p : only_adding (try_exists p).
Proof. unfold try_exists. files. Qed.
Lemma only_adding_write p l : only_adding (write_with_mode p l 0x180).
Proof.
  unfold write_with_mode. apply only_adding_bind; [files|intros place].
  apply only_adding_bind; [by intros os fs|intros short]. apply only_adding_bind.
  - apply only_adding_create. intros os. by apply new_private.
  - intros _. destruct short; [files|]. apply looks_adding. intros os fs. unfold sync_all, syscall. by case_match.
Qed.
Lemma only_adding_read p : only_adding (read_private p).
Proof. unfold read_private, open_existing. files. Qed.

(** ** Programs with TLS errors *)

Definition tls_adding {A} (m : TlsM A) : Prop := ∀ os fs, only_adds os fs (m os fs).2.

Lemma tls_adding_bind {A B} (m : TlsM A) (k : A → TlsM B) : tls_adding m → (∀ a, tls_adding (k a)) → tls_adding (m ≫= k).
Proof.
  intros Hm Hk os fs. unfold mbind, TlsM_bind. specialize (Hm os fs).
  destruct (m os fs) as [[a|e] fs1]; [|done]. etrans; [exact Hm|apply Hk].
Qed.
Lemma tls_adding_files {A} (m : FileM A) : only_adding m → tls_adding (on_files m).
Proof. intros Hm os fs. unfold on_files. specialize (Hm os fs). by destruct (m os fs) as [[a|k] fs1]. Qed.
Lemma tls_adding_pure {A} (r : result TlsError A) : tls_adding (from_tls r).
Proof. by intros os fs. Qed.
#[export] Hint Resolve tls_adding_files tls_adding_pure only_adding_try_exists only_adding_write only_adding_read
  only_adding_ensure_parent : files.

Lemma tls_bind_Ok {A B} (m : TlsM A) (k : A → TlsM B) os fs b fs' :
  (m ≫= k) os fs = (Ok b, fs') → ∃ a fs1, m os fs = (Ok a, fs1) ∧ k a os fs1 = (Ok b, fs').
Proof. unfold mbind, TlsM_bind. destruct (m os fs) as [[a|e] fs1]; [eauto|done]. Qed.
Lemma on_files_Ok {A} (m : FileM A) os fs a fs' : on_files m os fs = (Ok a, fs') → m os fs = (Ok a, fs').
Proof. unfold on_files. destruct (m os fs) as [[a'|k] fs1]; [|done]. by intros [= <- <-]. Qed.

Section tls.
Context `{Sha256} `{TlsLibrary}.

Lemma tls_adding_generate cert key bits : tls_adding (generate_at cert key bits).
Proof.
  unfold generate_at. repeat (apply tls_adding_bind; [auto with files|intros ?]). auto with files.
Qed.
Lemma tls_adding_load cert key bits : tls_adding (load_or_generate_at cert key bits).
Proof.
  unfold load_or_generate_at. do 4 (apply tls_adding_bind; [auto with files|intros ?]).
  apply tls_adding_bind; [case_match; [auto with files|by intros os fs]|intros ?].
  apply tls_adding_bind; [case_match; [by intros os fs|apply tls_adding_generate]|intros ?].
  do 2 (apply tls_adding_bind; [auto with files|intros ?]). auto with files.
Qed.

(** An identity as two private files hold it. *)
Definition stored_at (os : Os) (fs : Files) (cert key : list fname) (id : TlsIdentity) : Prop :=
  ∃ nc lc nk lk, nodes fs !! cert = Some nc ∧ kind nc = Regular lc ∧ private_file os nc = true ∧
    nodes fs !! key = Some nk ∧ kind nk = Regular lk ∧ private_file os nk = true ∧ load_from_pem lc lk = Ok id.

Lemma load_Ok bc xc qc bk xk qk bits os fs id fs' : tree fs →
  load_or_generate_at (MkPath bc (xc :: qc)) (MkPath bk (xk :: qk)) bits os fs = (Ok id, fs') →
  stored_at os fs' (xc :: resolve os (MkPath bc qc)) (xk :: resolve os (MkPath bk qk)) id ∧
  ∃ fs1, only_adds os fs fs1 ∧ only_dirs fs fs1 ∧ private_place os fs1 (resolve os (MkPath bc qc)) ∧
    private_place os fs1 (resolve os (MkPath bk qk)) ∧ only_adds os fs1 fs' ∧
    ∃ e, (∀ n, nodes fs1 !! (xc :: resolve os (MkPath bc qc)) = Some n → is_link n = false → e = true) ∧
      (nodes fs1 !! (xc :: resolve os (MkPath bc qc)) = None → e = false) ∧
      (∀ n, nodes fs1 !! (xk :: resolve os (MkPath bk qk)) = Some n → is_link n = false → e = true) ∧
      (nodes fs1 !! (xk :: resolve os (MkPath bk qk)) = None → e = false) ∧ (e = true → same fs1 fs').
Proof.
  intros Ht E. unfold load_or_generate_at in E.
  apply tls_bind_Ok in E as (u1 & f1 & E1%on_files_Ok & E). pose proof (ensure_parent_dirs _ _ _ _ _ E1) as D1.
  apply tls_bind_Ok in E as (u2 & f2 & E2%on_files_Ok & E). pose proof (ensure_parent_dirs _ _ _ _ _ E2) as D2.
  apply ensure_parent_Ok in E1 as [Hc A1], E2 as [Hk A2].
  unfold parent_or_here in Hc, Hk. cbn [names is_absolute] in Hc, Hk.
  assert (tree f1) as T1 by by apply A1. assert (tree f2) as T2 by by apply A2.
  apply (place_stays _ _ f2) in Hc; [|done..].
  apply tls_bind_Ok in E as (e1 & f3 & E3%on_files_Ok & E).
  destruct (try_exists_Ok _ _ _ _ _ _ _ Hc E3) as (S3 & Hn3 & Hs3).
  pose proof (place_same _ _ _ _ _ S3 Hk) as Hk3. pose proof (place_same _ _ _ _ _ S3 Hc) as Hc3.
  apply tls_bind_Ok in E as (e2 & f4 & E4%on_files_Ok & E).
  destruct (try_exists_Ok _ _ _ _ _ _ _ Hk3 E4) as (S4 & Hn4 & Hs4).
  apply tls_bind_Ok in E as (u5 & f5 & E5 & E). case_bool_decide as He; [done|]. injection E5 as _ <-.
  assert (e2 = e1) as -> by (destruct e1, e2; naive_solver).
  assert (same f2 f4) as S24 by by etrans. assert (tree f4) as T4 by (apply (same_adds os) in S24; by apply S24).
  pose proof (place_same _ _ _ _ _ S4 Hk3) as Hk4. pose proof (place_same _ _ _ _ _ S4 Hc3) as Hc4.
  apply tls_bind_Ok in E as (u6 & f6 & E6 & E).
  assert (only_adds os f4 f6 ∧ (e1 = true → f6 = f4)) as [A6 Hsame].
  { destruct e1; [by injection E6 as _ <-|]. split; [|done].
    pose proof (tls_adding_generate (MkPath bc (xc :: qc)) (MkPath bk (xk :: qk)) bits os f4) as Ha. by rewrite E6 in Ha. }
  apply (place_stays _ _ f6) in Hk4, Hc4; [|done..].
  apply tls_bind_Ok in E as (lc & f7 & E7%on_files_Ok & E).
  destruct (read_private_Ok _ _ _ _ _ _ _ Hc4 E7) as (S7 & nc & Enc & Kc & Pc).
  apply (place_same _ _ _ _ _ S7) in Hk4.
  apply tls_bind_Ok in E as (lk & f8 & E8%on_files_Ok & E).
  destruct (read_private_Ok _ _ _ _ _ _ _ Hk4 E8) as (S8 & nk & Enk & Kk & Pk).
  injection E as E <-. assert (same f6 f8) as S68 by by etrans. split.
  { exists nc, lc, nk, lk. destruct S7 as [N7 _], S8 as [N8 _]. split_and!; try done; congruence. }
  exists f2. split_and!; [by etrans|by etrans|done|done| |].
  { etrans; [by apply same_adds|]. etrans; [done|]. by apply same_adds. }
  exists e1. destruct S3 as [N3 _]. rewrite N3 in Hn4, Hs4. split_and!; try done.
  intros ->. rewrite Hsame in S68 by done. by etrans.
Qed.

(** Of the two files, both or neither have existed. *)
Lemma load_Ok_both bc xc qc bk xk qk bits os fs id fs' : tree fs →
  load_or_generate_at (MkPath bc (xc :: qc)) (MkPath bk (xk :: qk)) bits os fs = (Ok id, fs') →
  is_Some (nodes fs !! (xc :: resolve os (MkPath bc qc))) ↔ is_Some (nodes fs !! (xk :: resolve os (MkPath bk qk))).
Proof.
  intros Ht E. destruct (load_Ok _ _ _ _ _ _ _ _ _ _ _ Ht E) as
    [(nc & lc & nk & lk & Ec & Kc & _ & Ek & Kk & _) (fs1 & A1 & D1 & _ & _ & A2 & e & C1 & _ & K1 & _ & Hsame)].
  assert (∀ p n l, nodes fs' !! p = Some n → kind n = Regular l → is_Some (nodes fs1 !! p) → is_Some (nodes fs !! p)) as Hback.
  { intros p n l En Kn [m Em]. rewrite (lookup_weaken _ _ _ _ Em (adds_kept _ _ _ A2)) in En. injection En as ->.
    destruct (nodes fs !! p) eqn:Ep; [by eexists|]. pose proof (proj2 D1 _ _ Ep Em) as Hd. unfold is_dir in Hd. by rewrite Kn in Hd. }
  assert (∀ p n l, nodes fs' !! p = Some n → kind n = Regular l → is_Some (nodes fs !! p) →
            (∀ n, nodes fs1 !! p = Some n → is_link n = false → e = true) → e = true) as Hyes.
  { intros p n l En Kn [m Em] He. pose proof (lookup_weaken _ _ _ _ Em (proj1 D1)) as Em1.
    apply (He m Em1). rewrite (lookup_weaken _ _ _ _ Em1 (adds_kept _ _ _ A2)) in En. injection En as ->.
    unfold is_link. by rewrite Kn. }
  split; intros Hs.
  - destruct (Hsame (Hyes _ _ _ Ec Kc Hs C1)) as [Es _]. apply (Hback _ _ _ Ek Kk). rewrite <- Es. by eexists.
  - destruct (Hsame (Hyes _ _ _ Ek Kk Hs K1)) as [Es _]. apply (Hback _ _ _ Ec Kc). rewrite <- Es. by eexists.
Qed.
End tls.

(** C27: the relay's certificate and key are made once and never replaced. Whatever fails,
    [load_or_generate_at] changes no file that exists, and where only one of the two
    exists it refuses. When it succeeds, both are private files that hold the identity it
    returns; and whenever they are still there at a later start, that start finds the
    same identity, so the same fingerprint, or fails. *)
Theorem tls_identity_is_kept `{Sha256} `{TlsLibrary} bc xc qc bk xk qk bits os fs r fs' : tree fs →
  let cert := MkPath bc (xc :: qc) in let key := MkPath bk (xk :: qk) in
  load_or_generate_at cert key bits os fs = (r, fs') →
  only_adds os fs fs' ∧
  ∀ id, r = Ok id →
    (is_Some (nodes fs !! resolve os cert) ↔ is_Some (nodes fs !! resolve os key)) ∧
    stored_at os fs' (resolve os cert) (resolve os key) id ∧
    ∀ os2 bits2 fs2 id2 fs2', working_directory os2 = working_directory os → tree fs2 → nodes fs' ⊆ nodes fs2 →
      load_or_generate_at cert key bits2 os2 fs2 = (Ok id2, fs2') → id2 = id.
Proof.
  intros Ht cert key E. split; [pose proof (tls_adding_load cert key bits os fs) as Ha; by rewrite E in Ha|].
  intros id ->. unfold cert, key in *. rewrite !resolve_file.
  split; [by eapply load_Ok_both|]. pose proof (load_Ok _ _ _ _ _ _ _ _ _ _ _ Ht E) as [Hst _]. split; [done|].
  intros os2 bits2 fs2 id2 fs2' Hw Ht2 Hsub E2.
  assert (∀ p, resolve os2 p = resolve os p) as Hr by (intros p; unfold resolve; by rewrite Hw).
  pose proof (tls_adding_load (MkPath bc (xc :: qc)) (MkPath bk (xk :: qk)) bits2 os2 fs2) as Ha. rewrite E2 in Ha.
  pose proof (load_Ok _ _ _ _ _ _ _ _ _ _ _ Ht2 E2) as [(nc2 & lc2 & nk2 & lk2 & Ec2 & Kc2 & _ & Ek2 & Kk2 & _ & L2) _].
  destruct Hst as (nc & lc & nk & lk & Ec & Kc & _ & Ek & Kk & _ & L). rewrite !Hr in *.
  assert (nodes fs' ⊆ nodes fs2') as Hall by (etrans; [exact Hsub|apply Ha]).
  rewrite (lookup_weaken _ _ _ _ Ec Hall) in Ec2. rewrite (lookup_weaken _ _ _ _ Ek Hall) in Ek2. congruence.
Qed.

(** A first start in a fresh home directory. *)
#[local] Instance demo_tls : TlsLibrary := {|
  generate_simple_self_signed _ _ := Some ([x01], [x02], [x03]);
  pem_certs l := if decide (l = [x01]) then Some [[x03]] else None;
  pem_private_key l := if decide (l = [x02]) then Some (Some [x04]) else None;
  with_single_cert _ _ := true;
|}.
#[local] Instance demo_digest : Sha256 := λ _, vreplicate 32 x5a.
Definition cert_file : Path := MkPath true (utf8 (lit "cert.pem") :: utf8 (lit "grotto-relay") :: home).
Definition key_file : Path := MkPath true (utf8 (lit "key.pem") :: utf8 (lit "grotto-relay") :: home).
Definition first_start : result TlsError TlsIdentity * Files := load_or_generate_at cert_file key_file [] home_os home_files.

Lemma home_tree : tree home_files.
Proof.
  intros x q. simpl. destruct (decide (q = home)) as [->|]; [vm_compute; by eexists|].
  destruct (decide (q = tail home)) as [->|]; [vm_compute; by eexists|].
  destruct (decide (q = [])) as [->|]; [vm_compute; by eexists|]. intros [m Hm]. exfalso. unfold home_files in Hm. simpl in Hm.
  rewrite !lookup_insert_Some, lookup_singleton_Some in Hm. unfold home in *. simpl in *. naive_solver.
Qed.

Lemma tls_identity_is_kept_witness :
  first_start.1 = Ok (MkTlsIdentity [[x03]] [x04] (ascii_str (hex_string (vreplicate 32 x5a)))) ∧
  stored_at home_os first_start.2 (names cert_file) (names key_file)
    (MkTlsIdentity [[x03]] [x04] (ascii_str (hex_string (vreplicate 32 x5a)))) ∧
  (load_or_generate_at cert_file key_file [] home_os first_start.2).1 = first_start.1.
Proof.
  assert (first_start.1 = Ok (MkTlsIdentity [[x03]] [x04] (ascii_str (hex_string (vreplicate 32 x5a))))) as E
    by (vm_compute; reflexivity).
  split; [exact E|]. split; [|vm_compute; reflexivity].
  exact (proj1 (proj2 (proj2 (tls_identity_is_kept _ _ _ _ _ _ _ _ _ _ _ home_tree (pair_of_fst first_start _ E)) _ eq_refl))).
Defined.
