(* ===== verification/RelayProcess.v ===== *)
(** * The relay's process

    [RelayState::open] (src/crates/grotto-relay/src/storage.rs) and [run]
    (src/crates/grotto-relay/src/lib.rs) up to the loop that accepts connections: the command
    line, the limits, the database file, enrollment tokens, and the TLS identity. *)
From S2P Require Import Prelude Bytes Text Postcard Protocol Identifiers Transcripts Framing PrivateFiles TlsIdentity.
From S2P Require Import RelayStorage RelayLimits Enrollment.

(** ** [RelayState::open] *)

(** [opens]: SQLite opens the file, and its first statements succeed. *)
Definition open_with_limits (path : Path) (limits : StorageLimits) (opens : bool) (os : Os) (fs : Files) (file : DbFile)
    : result StorageError (DbFile * StorageLimits) * Files :=
  match open_locked path os fs with
  | (Err k, fs) => (Err (File k), fs)
  | (Ok _, fs) =>
      if negb opens then (Err Database, fs)
      else (match initialize file with Ok file => Ok (file, limits) | Err e => Err e end, fs)
  end.

Definition open_relay (vars : Vars) (path : Path) (opens : bool) (os : Os) (fs : Files) (file : DbFile)
    : result StorageError (DbFile * StorageLimits) * Files :=
  match storage_limits_environment vars with
  | Err e => (Err e, fs)
  | Ok limits => open_with_limits path limits opens os fs file
  end.

(** ** [run] *)

Inductive RelayFailure :=
| StorageFailed (e : StorageError)
| IoFailed (k : ErrorKind)
| BadUserId
| BadFingerprint
| UsageFailed
| TlsFailed (e : TlsError).

(** What the relay comes to: it has shown its usage or a token, or it serves. *)
Inductive Started :=
| ShowedUsage
| IssuedToken (token : str)
| Serves (config : RuntimeLimits) (limits : StorageLimits) (tls : TlsIdentity).

(** The process: its [OnceLock] of limits, its files, and the database they hold. *)
Record RelayProcess := MkRelayProcess {
  cell : option RuntimeLimits;
  files : Files;
  database : DbFile;
}.

(** What [run] meets: variables, the database's first statements, the environment of the
    token, whether the worker's thread and the listener start, and random bits. *)
Record RelayWorld := MkRelayWorld {
  variables : Vars;
  path_variables : PathVars;
  process_os : Os;
  database_opens : bool;
  token_env : Env;
  metrics_then : Metrics;
  thread_starts : option ErrorKind;
  binds : option ErrorKind;
  certificate_bits : list byte;
}.

Section run.
Context `{Sha256} `{TlsLibrary}.

Definition enroll (user fingerprint : str) (w : RelayWorld) (p : RelayProcess) : result RelayFailure Started * RelayProcess :=
  match id_from_str user with
  | Err _ => (Err BadUserId, p)
  | Ok user =>
      match parse_fingerprint_hex fingerprint with
      | Err _ => (Err BadFingerprint, p)
      | Ok fingerprint =>
          let '(r, db, _) := issue_enrollment (MkUserId user) fingerprint (token_env w) (tables (database p)) (metrics_then w) in
          (match r with Ok token => Ok (IssuedToken token) | Err e => Err (StorageFailed e) end,
           MkRelayProcess (cell p) (files p)
             (MkDbFile (user_version (database p)) (application_id (database p)) (schema_objects (database p)) db))
      end
  end.

Definition prepare (limits : StorageLimits) (w : RelayWorld) (p : RelayProcess) : result RelayFailure Started * RelayProcess :=
  let '(config, cell) := runtime (cell p) in
  match thread_starts w, binds w with
  | Some k, _ => (Err (IoFailed k), MkRelayProcess cell (files p) (database p))
  | None, Some k => (Err (IoFailed k), MkRelayProcess cell (files p) (database p))
  | None, None =>
      let '(r, fs) := load_or_generate_identity (path_variables w) (certificate_bits w) (process_os w) (files p) in
      (match r with Ok tls => Ok (Serves config limits tls) | Err e => Err (TlsFailed e) end,
       MkRelayProcess cell fs (database p))
  end.

Definition run (arguments : list str) (w : RelayWorld) (p : RelayProcess) : result RelayFailure Started * RelayProcess :=
  if decide (arguments = [lit "--help"]) then (Ok ShowedUsage, p) else
  match configure (variables w) (cell p) with
  | (Err e, cell) => (Err (StorageFailed e), MkRelayProcess cell (files p) (database p))
  | (Ok _, cell) =>
      match path_or (path_variables w "GROTTO_DATABASE_PATH") (default_directory (path_variables w)) (lit "relay.db") with
      | Err k => (Err (IoFailed k), MkRelayProcess cell (files p) (database p))
      | Ok path =>
          match open_relay (variables w) path (database_opens w) (process_os w) (files p) (database p) with
          | (Err e, fs) => (Err (StorageFailed e), MkRelayProcess cell fs (database p))
          | (Ok (file, limits), fs) =>
              let p := MkRelayProcess cell fs file in
              match arguments with
              | [option; user; fingerprint] =>
                  if decide (option = lit "--enroll") then enroll user fingerprint w p else (Err UsageFailed, p)
              | [] => prepare limits w p
              | _ => (Err UsageFailed, p)
              end
          end
      end
  end.
End run.
