(* ===== verification/RelayProcessProps.v ===== *)
(** * How the relay starts

    The relay serves only with its lock on a private database of its own format and with
    a stored TLS identity; and a start changes nothing it should not. *)
From S2P Require Import Prelude Bytes Text Postcard Protocol Identifiers Transcripts Framing PrivateFiles PrivateFilesProps.
From S2P Require Import TlsIdentity TlsIdentityProps RelayStorage RelayLimits Enrollment EnrollmentProps RelayDemo RelayProcess.

(** A database in the relay's format: as it was, or new. *)
Definition initialized (file file' : DbFile) : Prop :=
  user_version file' = 9 ∧ application_id file' = 0x4752523a ∧
  (file' = file ∨ user_version file = 0 ∧ application_id file = 0 ∧ schema_objects file = 0 ∧ tables file' = empty_db).

Lemma initialize_Ok file file' : initialize file = Ok file' → initialized file file'.
Proof.
  unfold initialize, initialized. destruct (_ && _) eqn:E1.
  - intros [= <-]. apply andb_true_iff in E1 as [E1%Z.eqb_eq E2%Z.eqb_eq]. auto.
  - destruct (_ || _) eqn:E2; [done|]. intros [= <-]. simpl. apply orb_false_iff in E2 as [[E2 E3]%orb_false_iff E4].
    apply negb_false_iff, Z.eqb_eq in E2, E3, E4. split_and!; auto.
Qed.

(** A path that is given by its variable is not used where the default cannot be named. *)
Lemma overrides_need_a_home vars path n :
  vars "XDG_DATA_HOME" = None → vars "HOME" = None → path_or (Some path) (default_directory vars) n = Err NotFound.
Proof. intros E1 E2. unfold default_directory, data_directory. by rewrite E1, E2. Qed.

Section run.
Context `{Sha256} `{TlsLibrary}.

Lemma tls_adding_identity vars bits : tls_adding (load_or_generate_identity vars bits).
Proof.
  unfold load_or_generate_identity. do 2 (apply tls_adding_bind; [apply tls_adding_pure|intros ?]). apply tls_adding_load.
Qed.

Lemma open_relay_adds vars path opens os fs file : only_adds os fs (open_relay vars path opens os fs file).2.
Proof.
  unfold open_relay, open_with_limits. destruct (storage_limits_environment vars); [|done].
  pose proof (only_adding_open_locked path os fs) as Ha. destruct (open_locked path os fs) as [[p|k] fs1]; [|done].
  by destruct opens.
Qed.
Lemma open_relay_Ok vars path opens os fs file file' limits fs' :
  open_relay vars path opens os fs file = (Ok (file', limits), fs') →
  (∃ p, open_locked path os fs = (Ok p, fs')) ∧ initialized file file' ∧ storage_limits_environment vars = Ok limits.
Proof.
  unfold open_relay, open_with_limits. destruct (storage_limits_environment vars) as [l|]; [|done].
  destruct (open_locked path os fs) as [[p|k] fs1]; [|done]. destruct opens; [|done]. simpl.
  destruct (initialize file) as [f|] eqn:E; [|done]. intros [= <- <- <-]. apply initialize_Ok in E. eauto.
Qed.

Lemma open_locked_locks path os fs place fs' : open_locked path os fs = (Ok place, fs') → place ∈ locked fs'.
Proof.
  unfold open_locked. intros E. do 7 (apply file_bind_Ok in E as (? & ? & _ & E)).
  apply file_bind_Ok in E as (r & fs1 & E1%outcome_Ok & E). destruct r; [|done]. injection E as <- <-.
  unfold try_lock, syscall in E1.
  case_match; [done|]. case_decide; [done|]. injection E1 as _ <-. simpl. set_solver.
Qed.

Lemma enroll_spec user fingerprint w p r p' : enroll user fingerprint w p = (r, p') →
  files p' = files p ∧
  ((∃ e, r = Err e) ∧ database p' = database p ∨
   ∃ id digest (raw : bytes 32), id_from_str user = Ok id ∧ parse_fingerprint_hex fingerprint = Ok digest ∧
     r = Ok (IssuedToken (ascii_str (hex_string raw))) ∧
     tables (database p') = set_tokens <[sha256 (vec_to_list raw) :=
       MkTokenRow (MkUserId id) digest (now (token_env w) + 86400) false]> (tables (database p))).
Proof.
  unfold enroll. destruct (id_from_str user) as [id|]; [|intros [= <- <-]; eauto].
  destruct (parse_fingerprint_hex fingerprint) as [digest|]; [|intros [= <- <-]; eauto].
  destruct (issue_enrollment _ _ _ _ _) as [[r0 db] m] eqn:E. intros [= <- <-]. split; [done|].
  apply issue_outcome in E as [[-> [e ->]]|(raw & _ & -> & _ & ->)]; [left|right; naive_solver].
  split; [eauto|]. by destruct (database p).
Qed.

Lemma prepare_spec limits w p r p' : prepare limits w p = (r, p') →
  database p' = database p ∧ only_adds (process_os w) (files p) (files p') ∧
  (∀ t, r ≠ Ok (IssuedToken t)) ∧
  ∀ config l tls, r = Ok (Serves config l tls) → l = limits ∧ config = default default_runtime_limits (cell p) ∧
    load_or_generate_identity (path_variables w) (certificate_bits w) (process_os w) (files p) = (Ok tls, files p').
Proof.
  unfold prepare, runtime. destruct (thread_starts w); [by intros [= <- <-]|]. destruct (binds w); [by intros [= <- <-]|].
  pose proof (tls_adding_identity (path_variables w) (certificate_bits w) (process_os w) (files p)) as Ha.
  destruct (load_or_generate_identity _ _ _ _) as [[tls|e] fs]; intros [= <- <-]; split_and!; try done.
  by intros config l tls' [= <- <- <-].
Qed.

Lemma identity_Ok vars bits os fs tls fs' : load_or_generate_identity vars bits os fs = (Ok tls, fs') →
  ∃ cert key, path_or (vars "GROTTO_TLS_CERT_PATH") (default_directory vars) (lit "grotto-tls-cert.pem") = Ok cert ∧
    path_or (vars "GROTTO_TLS_KEY_PATH") (default_directory vars) (lit "grotto-tls-key.pem") = Ok key ∧
    load_or_generate_at cert key bits os fs = (Ok tls, fs').
Proof.
  unfold load_or_generate_identity. intros (cert & fs1 & E1 & (key & fs2 & E2 & E)%tls_bind_Ok)%tls_bind_Ok.
  unfold from_tls in E1, E2. destruct (path_or _ _ (lit "grotto-tls-cert.pem")); [|done].
  destruct (path_or _ _ (lit "grotto-tls-key.pem")); [|done]. injection E1 as <- <-. injection E2 as <- <-. eauto.
Qed.
End run.

(** C28: the relay starts safely. Whatever fails, a start changes no file that exists, and
    of the database only what it is asked to: it stays as it was, a blank one is set up, or
    one enrollment token is added to it. The relay serves only with a database in its own
    format whose private file it has locked, with the limits that its variables give, and
    with the TLS identity of its files; it shows a token only when asked for one, and that
    token is then stored for that user and that key, for a day. *)
Theorem relay_starts_safely `{Sha256} `{TlsLibrary} arguments w p r p' : run arguments w p = (r, p') →
  let os := process_os w in
  only_adds os (files p) (files p') ∧
  (database p' = database p ∨ initialized (database p) (database p') ∨
   ∃ token, r = Ok (IssuedToken token)) ∧
  (∀ config limits tls, r = Ok (Serves config limits tls) →
     arguments = [] ∧ initialized (database p) (database p') ∧
     storage_limits_environment (variables w) = Ok limits ∧
     (cell p = None → configured_limits (variables w) = Ok config) ∧
     (∃ path place fs1, path_or (path_variables w "GROTTO_DATABASE_PATH") (default_directory (path_variables w)) (lit "relay.db") = Ok path ∧
        open_locked path os (files p) = (Ok place, fs1) ∧ place ∈ locked (files p')) ∧
     ∃ cert key fs1, path_or (path_variables w "GROTTO_TLS_CERT_PATH") (default_directory (path_variables w)) (lit "grotto-tls-cert.pem") = Ok cert ∧
       path_or (path_variables w "GROTTO_TLS_KEY_PATH") (default_directory (path_variables w)) (lit "grotto-tls-key.pem") = Ok key ∧
       load_or_generate_at cert key (certificate_bits w) os fs1 = (Ok tls, files p')) ∧
  (∀ token, r = Ok (IssuedToken token) → ∃ user fingerprint id digest (raw : bytes 32) file,
     arguments = [lit "--enroll"; user; fingerprint] ∧ id_from_str user = Ok id ∧
     parse_fingerprint_hex fingerprint = Ok digest ∧ token = ascii_str (hex_string raw) ∧
     initialized (database p) file ∧
     tables (database p') = set_tokens <[sha256 (vec_to_list raw) :=
       MkTokenRow (MkUserId id) digest (now (token_env w) + 86400) false]> (tables file)).
Proof.
  intros E os. unfold run in E. case_decide; [by injection E as <- <-; split_and!; auto|].
  assert (∀ e cell fs, only_adds os (files p) fs → (r, p') = (Err e, MkRelayProcess cell fs (database p)) →
    only_adds os (files p) (files p') ∧ database p' = database p ∧ ∃ e, r = Err e) as Hfail by (intros; naive_solver).
  destruct (configure (variables w) (cell p)) as [[u|e] c] eqn:Ec; [|edestruct Hfail as (? & ? & ? & ->); [..|naive_solver]; done].
  destruct (path_or _ _ _) as [path|k] eqn:Ep; [|edestruct Hfail as (? & ? & ? & ->); [..|naive_solver]; done].
  pose proof (open_relay_adds (variables w) path (database_opens w) os (files p) (database p)) as Ha. fold os in E.
  destruct (open_relay _ _ _ _ _ _) as [[[file limits]|e] fs] eqn:Eo; simpl in Ha;
    [|edestruct Hfail as (? & ? & ? & ->); [..|naive_solver]; done].
  apply open_relay_Ok in Eo as ([place El] & Hi & Hlim).
  assert ((Err UsageFailed, MkRelayProcess c fs file) = (r, p') →
    only_adds os (files p) (files p') ∧ initialized (database p) (database p') ∧ r = Err UsageFailed) as Husage by naive_solver.
  destruct arguments as [|option [|user [|fingerprint [|more rest]]]];
    try (destruct (Husage E) as (? & ? & ->); by split_and!; auto).
  - apply prepare_spec in E as (Hdb & Ha' & Hno & Hserves). simpl in *. fold os in Ha', Hserves.
    split_and!; [by etrans|rewrite Hdb; auto| |by intros token ->; destruct (Hno token)].
    intros config l tls ->. destruct (Hserves _ _ _ eq_refl) as (-> & -> & Et). apply identity_Ok in Et as (cert & key & ? & ? & Et).
    split_and!; [done|by rewrite Hdb|done| | |by eauto 10].
    + intros Hnone. unfold configure in Ec. rewrite Hnone in Ec. destruct (configured_limits _); [|done]. by injection Ec as <- <-.
    + exists path, place, fs. split_and!; [done|done|]. apply (adds_locks _ _ _ Ha'). by eapply open_locked_locks.
  - case_decide as Ho; [|destruct (Husage E) as (? & ? & ->); by split_and!; auto]. subst option.
    apply enroll_spec in E as [Hf Hr]. simpl in *. rewrite Hf.
    destruct Hr as [[[e ->] Hdb]|(id & digest & raw & Hid & Hdig & -> & Hdb)]; (split_and!; [done| |done|]).
    + rewrite Hdb. auto.
    + done.
    + eauto.
    + intros token [= <-]. by exists user, fingerprint, id, digest, raw, file.
Qed.

(** A relay's first start in a fresh home directory, and a token for Alice. *)
#[local] Existing Instance demo_tls.
Definition relay_world : RelayWorld :=
  MkRelayWorld (λ _, None) (λ name, if decide (name = "HOME") then Some (MkPath true home) else None) home_os true
    demo_env demo_metrics None None [].
Definition blank_process : RelayProcess := MkRelayProcess None home_files (MkDbFile 0 0 0 empty_db).
Definition enroll_arguments : list str :=
  [lit "--enroll"; lit "11111111111111111111111111111111"; ascii_str (hex_string (vreplicate 32 xaa))].

Lemma relay_starts_safely_witness :
  (∃ tls, (run [] relay_world blank_process).1 = Ok (Serves default_runtime_limits default_storage_limits tls)) ∧
  (let '(r, p') := run enroll_arguments relay_world blank_process in
   ∃ raw : bytes 32, r = Ok (IssuedToken (ascii_str (hex_string raw))) ∧
     enrollment_tokens (tables (database p')) !! sha256 (vec_to_list raw) =
       Some (MkTokenRow (MkUserId (vreplicate 16 x11)) (vreplicate 32 xaa) (now demo_env + 86400) false)).
Proof.
  split; [eexists; vm_compute; reflexivity|].
  destruct (run enroll_arguments relay_world blank_process) as [r p'] eqn:E.
  assert (match (run enroll_arguments relay_world blank_process).1 with Ok (IssuedToken _) => true | _ => false end = true) as Er
    by (vm_compute; reflexivity).
  rewrite E in Er. simpl in Er. destruct r as [[|token|config limits tls]|e]; [discriminate Er| |discriminate Er|discriminate Er].
  destruct (relay_starts_safely _ _ _ _ _ E) as (_ & _ & _ & H).
  destruct (H token eq_refl) as (user & fingerprint & id & digest & raw & file & Ea & Eid & Ed & -> & _ & Et).
  clear E Er H. exists raw. split; [reflexivity|]. rewrite Et. clear Et.
  assert (user = lit "11111111111111111111111111111111" ∧ fingerprint = ascii_str (hex_string (vreplicate 32 xaa))) as [Eu Ef].
  { unfold enroll_arguments in Ea. split; congruence. }
  clear Ea. rewrite Eu in Eid. rewrite Ef in Ed. clear Eu Ef.
  assert (id_from_str (lit "11111111111111111111111111111111") = Ok (vreplicate 16 x11)) as E1 by (vm_compute; reflexivity).
  assert (parse_fingerprint_hex (ascii_str (hex_string (vreplicate 32 xaa))) = Ok (vreplicate 32 xaa)) as E2 by (vm_compute; reflexivity).
  assert (id = vreplicate 16 x11) as -> by congruence. assert (digest = vreplicate 32 xaa) as -> by congruence.
  unfold set_tokens. cbn [enrollment_tokens]. rewrite lookup_insert, decide_True by reflexivity. reflexivity.
Defined.
