(* ===== verification/RelayLoop.v ===== *)
(** * The relay's accept loop and its shutdown

    The signal handlers (src/crates/grotto-relay/src/shutdown.rs) and the rest of [run]
    (src/crates/grotto-relay/src/lib.rs), from [Signals::install] on: the loop that accepts
    connections, their tasks, and the end after a signal. What [run] does before is
    [RelayProcess.run]; what the tasks count is [RelayAdmission]; what the task of one
    connection does is [RelayConnection.connection_task]. *)
From S2P Require Import Prelude Bytes Protocol Framing RelayStorage RelayLimits RelayAdmission.

(** ** [Signals] *)

(** The handlers a process has for a signal: [request_stop], or any other. *)
Inductive Handler := RequestStop | OtherHandler (action : Z).

(** [STOP], and the handlers of SIGINT and SIGTERM. *)
Record SignalState := MkSignalState { stop : bool; on_int : Handler; on_term : Handler }.

Record Signals := MkSignals { old_int : Handler; old_term : Handler }.

Definition set_stop (b : bool) (s : SignalState) : SignalState := MkSignalState b (on_int s) (on_term s).

(** What the kernel does when a signal arrives and [request_stop] handles it. *)
Definition request_stop (s : SignalState) : SignalState := set_stop true s.

(** [int_fails], [term_fails]: [sigaction] refuses; putting a handler back that it has
    returned before does not fail. *)
Definition install (int_fails term_fails : option ErrorKind) (s : SignalState)
    : result ErrorKind Signals * SignalState :=
  let s := set_stop false s in
  match int_fails with
  | Some k => (Err k, s)
  | None =>
      let '(old_int, s) := (on_int s, MkSignalState (stop s) RequestStop (on_term s)) in
      match term_fails with
      | Some k => (Err k, MkSignalState (stop s) old_int (on_term s))
      | None =>
          let '(old_term, s) := (on_term s, MkSignalState (stop s) (on_int s) RequestStop) in
          (Ok (MkSignals old_int old_term), s)
      end
  end.

Definition requested (s : SignalState) : bool := stop s.

(** [Drop for Signals]. *)
Definition drop_signals (signals : Signals) (s : SignalState) : SignalState :=
  MkSignalState (stop s) (old_int signals) (old_term signals).

(** ** The loop *)

(** [draining] is behind the loop, [shutdown_sent] is the value of the watch channel that
    every task listens to, and [ended] counts the tasks of the [JoinSet] that are over and
    not joined. *)
Record RelayLoop := MkLoop {
  signal_state : SignalState;
  admission : Admission;
  ended : nat;
  draining : bool;
  shutdown_sent : bool;
  returned : bool;
}.

(** The branches of the [select!], and what [accept] returns; [poisoned] is the lock of
    the pending handshakes. *)
Inductive LoopEvent :=
| OnAccept (accepted : result ErrorKind IpAddr) (poisoned : bool)
| OnMetricsTick
| OnShutdownTick
| OnJoined.

Definition set_admission a l := MkLoop (signal_state l) a (ended l) (draining l) (shutdown_sent l) (returned l).
Definition set_ended n l := MkLoop (signal_state l) (admission l) n (draining l) (shutdown_sent l) (returned l).
Definition set_signals f l := MkLoop (f (signal_state l)) (admission l) (ended l) (draining l) (shutdown_sent l) (returned l).

(** The [break], and the [shutdown_sender.send(true)] that follows it. *)
Definition stop_accepting l := MkLoop (signal_state l) (admission l) (ended l) true (shutdown_sent l) (returned l).
Definition send_shutdown l := MkLoop (signal_state l) (admission l) (ended l) (draining l) true (returned l).

(** [sessions.is_empty()]. *)
Definition no_sessions (l : RelayLoop) : bool :=
  bool_decide (tasks (admission l) = []) && bool_decide (ended l = 0%nat).

(** One turn of the loop; [None] is a branch that is not ready. *)
Definition loop_turn (config : RuntimeLimits) (event : LoopEvent) (l : RelayLoop) : option RelayLoop :=
  match event with
  | OnAccept (Err _) _ => Some l
  | OnAccept (Ok ip) poisoned =>
      Some (match accept config poisoned ip (admission l) with
            | Some a => set_admission a l
            | None => l
            end)
  | OnMetricsTick => Some l
  | OnShutdownTick => Some (if requested (signal_state l) then send_shutdown (stop_accepting l) else l)
  | OnJoined =>
      if no_sessions l then None
      else match ended l with S n => Some (set_ended n l) | O => None end
  end.

(** [while sessions.join_next().await.is_some() {}], and the return, where [signals] is
    dropped; [None] waits. *)
Definition drain_turn (signals : Signals) (l : RelayLoop) : option RelayLoop :=
  match ended l with
  | S n => Some (set_ended n l)
  | O =>
      if no_sessions l
      then Some (MkLoop (drop_signals signals (signal_state l)) (admission l) (ended l) (draining l) (shutdown_sent l) true)
      else None
  end.

Definition listening (config : RuntimeLimits) (s : SignalState) : RelayLoop := MkLoop s (idle config) 0 false false false.

(** What the relay does whatever its peers do: a task sees the shutdown or finishes a
    write, a task ends for that, [run] joins what has ended and returns. *)
Inductive own_step (signals : Signals) (l : RelayLoop) : RelayLoop → Prop :=
| own_task a :
    task_alone (shutdown_sent l) (admission l) a → own_step signals l (set_admission a l)
| own_end a :
    task_end (leaves_alone (shutdown_sent l)) (admission l) a →
    own_step signals l (set_ended (S (ended l)) (set_admission a l))
| own_drain l' :
    draining l = true → returned l = false → drain_turn signals l = Some l' → own_step signals l l'.

(** Signals arrive, the loop takes turns, tasks go on with their peers, handshakes fail,
    and the relay's own steps. *)
Inductive loop_step (config : RuntimeLimits) (signals : Signals) (l : RelayLoop) : RelayLoop → Prop :=
| step_signal :
    on_int (signal_state l) = RequestStop ∨ on_term (signal_state l) = RequestStop →
    loop_step config signals l (set_signals request_stop l)
| step_turn event l' :
    draining l = false → loop_turn config event l = Some l' → loop_step config signals l l'
| step_task a :
    task_step (admission l) a → loop_step config signals l (set_admission a l)
| step_handshake_ends a :
    task_end handshake_ends (admission l) a →
    loop_step config signals l (set_ended (S (ended l)) (set_admission a l))
| step_own l' : own_step signals l l' → loop_step config signals l l'.
