(* ===== verification/RelayLoopProps.v ===== *)
(** * Properties of the relay's accept loop

    It serves until it is told to stop, within its limits, and then ends when its last
    connection has. *)
From S2P Require Import Prelude Bytes Protocol Framing RelayStorage RelayLimits RelayAdmission RelayLoop.

Section loop.
Context (config : RuntimeLimits) (signals : Signals).
#[local] Set Default Proof Using "Type".

(** What holds while the loop and the draining run. *)
Record loop_inv (l : RelayLoop) : Prop := {
  loop_admits : admits config (admission l);
  loop_handlers : returned l = false → on_int (signal_state l) = RequestStop ∧ on_term (signal_state l) = RequestStop;
  loop_stopped : draining l = true → stop (signal_state l) = true ∧ shutdown_sent l = true;
  loop_returned : returned l = true →
    draining l = true ∧ tasks (admission l) = [] ∧ ended l = 0%nat ∧
    on_int (signal_state l) = old_int signals ∧ on_term (signal_state l) = old_term signals;
}.

Lemma no_sessions_true l : no_sessions l = true ↔ tasks (admission l) = [] ∧ ended l = 0%nat.
Proof. unfold no_sessions. by rewrite andb_true_iff, !bool_decide_eq_true. Qed.

(** ** The work that is left *)

(** Own steps of one task until it is joined, and of the whole relay until it returns. *)
Definition task_work (t : Task) : Z :=
  match task_point t with
  | AtPermit | AtTls | AtAuthenticate | AtClosing => 2
  | AtSelect | AtExecute | AtAnswer | AtNotify => 3
  | AtPlainWrite => 4
  end.

Definition work (l : RelayLoop) : Z :=
  total_of task_work (tasks (admission l)) + Z.of_nat (ended l) + (if returned l then 0 else 1).

Lemma task_work_bounds t : 2 ≤ task_work t ≤ 4.
Proof. unfold task_work. destruct (task_point t); lia. Qed.

Lemma work_nonneg l : 0 ≤ work l.
Proof.
  unfold work. assert (0 ≤ total_of task_work (tasks (admission l))).
  { apply total_of_nonneg. intros t. pose proof (task_work_bounds t). lia. }
  destruct (returned l); lia.
Qed.

Lemma work_bound l : work l ≤ 4 * len (tasks (admission l)) + Z.of_nat (ended l) + 1.
Proof.
  unfold work. assert (total_of task_work (tasks (admission l)) ≤ 4 * len (tasks (admission l))).
  { induction (tasks (admission l)) as [|t ts IH]; [done|]. rewrite total_of_cons, len_cons.
    pose proof (task_work_bounds t). lia. }
  destruct (returned l); lia.
Qed.

(** A task that goes on stays one task; on its own it gets closer to its end. *)
Lemma task_step_len a a' : task_step a a' → len (tasks a') = len (tasks a).
Proof. destruct 1 as [l t t' r E|l ip counts r E|]; simpl; rewrite ?E; autorewrite with grotto; lia. Qed.

Lemma task_end_len leaves a a' : task_end leaves a a' → len (tasks a) = len (tasks a') + 1.
Proof. destruct 1 as [l t counts r E]; simpl; rewrite E; autorewrite with grotto; lia. Qed.

Lemma task_end_work leaves a a' : task_end leaves a a' →
  total_of task_work (tasks a') + 2 ≤ total_of task_work (tasks a).
Proof.
  destruct 1 as [l t counts r E]; simpl. rewrite E, !total_of_app, total_of_cons.
  pose proof (task_work_bounds t). lia.
Qed.

Lemma task_alone_replaces shutdown a a' : task_alone shutdown a a' →
  ∃ l t t' r, tasks a = l ++ t :: r ∧ tasks a' = l ++ t' :: r ∧ task_work t' < task_work t.
Proof.
  destruct 1 as [l t r E _ Hpt|l t r written E Hpt].
  - exists l, t, (closing t), r. split_and!; [done|by destruct (_ && _)|].
    unfold task_work, closing. simpl. by destruct (task_point t).
  - eexists l, t, _, r. split_and!; [done|done|]. unfold task_work. rewrite Hpt. by destruct written.
Qed.

Lemma task_alone_len shutdown a a' : task_alone shutdown a a' → len (tasks a') = len (tasks a).
Proof. intros (l & t & t' & r & -> & -> & _)%task_alone_replaces. autorewrite with grotto. lia. Qed.

Lemma task_alone_work shutdown a a' : task_alone shutdown a a' →
  total_of task_work (tasks a') < total_of task_work (tasks a).
Proof. intros (l & t & t' & r & -> & -> & H)%task_alone_replaces. rewrite !total_of_app, !total_of_cons. lia. Qed.

Lemma own_step_work l l' : own_step signals l l' → work l' < work l.
Proof.
  unfold work. destruct 1 as [a E|a E|l' _ Hnr E]; simpl.
  - apply task_alone_work in E. lia.
  - apply task_end_work in E. lia.
  - unfold drain_turn in E. destruct (ended l) as [|n] eqn:En.
    + destruct (no_sessions l); [|done]. injection E as <-. simpl. rewrite Hnr, ?En. lia.
    + injection E as <-. simpl. rewrite ?En. lia.
Qed.

Lemma own_steps_work n l l' : nsteps (own_step signals) n l l' → Z.of_nat n + work l' ≤ work l.
Proof. induction 1 as [|n l1 l2 l3 Hs _ IH]; [lia|]. apply own_step_work in Hs. lia. Qed.

(** ** The invariant *)

Lemma loop_turn_inv event l l' :
  loop_inv l → draining l = false → loop_turn config event l = Some l' → loop_inv l'.
Proof.
  intros [Ha Hh Hs Hr] Hd. assert (returned l = false) as Hnr.
  { destruct (returned l); [|done]. destruct (Hr eq_refl). congruence. }
  destruct event as [[ip|k] poisoned| | |]; cbn [loop_turn].
  - intros [= <-]. destruct (accept config poisoned ip (admission l)) as [a|] eqn:E; [|done].
    split; simpl; [|done|done|by rewrite Hnr]. eapply rtc_r; [exact Ha|]. by eapply admit_accept.
  - by intros [= <-].
  - by intros [= <-].
  - intros [= <-]. destruct (requested _) eqn:E; [|done]. split; simpl; [done|done|done|by rewrite Hnr].
  - destruct (no_sessions l); [done|]. destruct (ended l) as [|n]; [done|]. intros [= <-].
    split; simpl; [done|done|done|by rewrite Hnr].
Qed.

(** Tasks change the admission only; behind the return there are none. *)
Lemma with_admission a n l :
  loop_inv l → admission_step config (admission l) a → (returned l = true → tasks a = [] ∧ n = 0%nat) →
  loop_inv (set_ended n (set_admission a l)).
Proof.
  intros [Ha Hh Hs Hr] Hstep Hret. split; simpl; [by eapply rtc_r|done|done|].
  intros E. destruct (Hr E) as (? & _ & _ & ? & ?), (Hret E) as [? ?]. by split_and!.
Qed.

Lemma len_zero {A} (l : list A) : len l = 0 → l = [].
Proof. destruct l; [done|]. rewrite len_cons. pose proof (len_nonneg l). lia. Qed.

Lemma ended_inv leaves a l :
  loop_inv l → task_end leaves (admission l) a → admission_step config (admission l) a →
  loop_inv (set_ended (S (ended l)) (set_admission a l)).
Proof.
  intros Hl E Hs. apply with_admission; [done|done|]. intros Hret.
  destruct (loop_returned _ Hl Hret) as (_ & Ht & _). apply task_end_len in E. rewrite Ht, len_nil in E.
  pose proof (len_nonneg (tasks a)). lia.
Qed.

Lemma same_len_inv a l :
  loop_inv l → len (tasks a) = len (tasks (admission l)) → admission_step config (admission l) a →
  loop_inv (set_admission a l).
Proof.
  intros Hl E Hs. apply (with_admission a (ended l)); [done|done|]. intros Hret.
  destruct (loop_returned _ Hl Hret) as (_ & Ht & He & _). rewrite Ht in E. by apply len_zero in E.
Qed.

Lemma drain_turn_inv l l' :
  loop_inv l → draining l = true → returned l = false → drain_turn signals l = Some l' → loop_inv l'.
Proof.
  intros [Ha Hh Hs Hr] Hd Hnr. unfold drain_turn. destruct (ended l) as [|n] eqn:En.
  - destruct (no_sessions l) eqn:E; [|done]. intros [= <-]. apply no_sessions_true in E as [Ht _].
    split; simpl; [done|done|by intros _; apply Hs|intros _; by split_and!].
  - intros [= <-]. split; simpl; [done|done|done|by rewrite Hnr].
Qed.

Lemma own_step_inv l l' : loop_inv l → own_step signals l l' → loop_inv l'.
Proof.
  intros Hl [a E|a E|l2 Hd Hnr E].
  - apply same_len_inv; [done|by eapply task_alone_len|by eapply admit_alone].
  - eapply ended_inv; [done|exact E|by eapply admit_leaves].
  - by eapply drain_turn_inv.
Qed.

Lemma loop_step_inv l l' : loop_inv l → loop_step config signals l l' → loop_inv l'.
Proof.
  intros Hl Hs. destruct Hs as [Hsig|event l' Hd E|a E|a E|l' Hs].
  - destruct Hl as [Ha Hh Hst Hr]. split; simpl; [done|done| |done]. intros Hd. split; [done|by apply Hst].
  - by eapply loop_turn_inv.
  - apply same_len_inv; [done|by apply task_step_len|by apply admit_step].
  - eapply ended_inv; [done|exact E|by apply admit_fails].
  - by eapply own_step_inv.
Qed.

(** Draining goes on, and no connection is added. *)
Lemma drain_monotone l l' : draining l = true → loop_step config signals l l' →
  draining l' = true ∧ len (tasks (admission l')) + Z.of_nat (ended l') ≤ len (tasks (admission l)) + Z.of_nat (ended l).
Proof.
  intros Hd Hs. destruct Hs as [Hsig|event l' Hd' E|a E|a E|l' [a E|a E|l2 _ Hnr E]]; simpl.
  - done.
  - congruence.
  - by apply task_step_len in E as ->.
  - apply task_end_len in E. split; [done|lia].
  - by apply task_alone_len in E as ->.
  - apply task_end_len in E. split; [done|lia].
  - unfold drain_turn in E. destruct (ended l) as [|n] eqn:En.
    + destruct (no_sessions l); [|done]. injection E as <-. simpl. by split; [|lia].
    + injection E as <-. simpl. split; [done|lia].
Qed.
End loop.

(** ** Nobody has to be waited for *)

Section configured.
Context (vars : Vars) (config : RuntimeLimits) (Hconf : configured_limits vars = Ok config) (signals : Signals).
#[local] Set Default Proof Using "Type*".

(** A task that is told to stop always has a step of its own. *)
Lemma task_goes_on t : on_shutdown (task_point t) = Some Breaks ∨ task_point t = AtPlainWrite ∨
  leaves_alone true (task_point t) = true.
Proof. destruct t as [? [] ? ? ?]; auto. Qed.

Lemma own_step_left l : loop_inv config signals l → draining l = true → returned l = false →
  ∃ l', own_step signals l l'.
Proof.
  intros Hl Hd Hret. destruct (loop_stopped _ _ _ Hl Hd) as [_ Hsent].
  destruct (tasks (admission l)) as [|t ts] eqn:Ht.
  - destruct (drain_turn signals l) as [l'|] eqn:E; [exists l'; by apply own_drain|].
    unfold drain_turn in E. destruct (ended l) as [|n] eqn:He; [|done].
    by rewrite (proj2 (no_sessions_true l)) in E.
  - destruct (task_goes_on t) as [Hpt|[Hpt|Hpt]].
    + eexists. apply own_task, (alone_breaks _ _ [] t ts); done.
    + eexists. apply own_task, (alone_written _ _ [] t ts true); done.
    + destruct (admission_limits_hold vars config _ Hconf (loop_admits _ _ _ Hl)) as (_ & _ & _ & _ & _ & _ & Hdrop & _).
      destruct (Hdrop t) as [counts Hc]; [rewrite Ht; left|].
      eexists. apply own_end, (task_ends _ _ [] t counts ts); [done|by rewrite Hsent|done].
Qed.

(** On its own a draining relay ends, after no more steps than there is work. *)
Lemma own_steps_end l n l' : loop_inv config signals l → draining l = true → nsteps (own_step signals) n l l' →
  Z.of_nat n ≤ work l ∧ (returned l' = true ∨ ∃ l'', own_step signals l' l'').
Proof.
  intros Hl Hd Hs. split; [pose proof (own_steps_work _ _ _ _ Hs); pose proof (work_nonneg l'); lia|].
  assert (loop_inv config signals l' ∧ draining l' = true) as [Hl' Hd'].
  { induction Hs as [|n l1 l2 l3 Hs _ IH]; [done|]. apply IH; [by eapply own_step_inv|].
    by eapply (drain_monotone config signals l1 l2), step_own. }
  destruct (returned l') eqn:E; [by left|right]. by apply own_step_left.
Qed.
End configured.

(** C35: the relay serves until it is told to stop, within its limits, and then ends in
    good order. From the moment the signal handlers are installed, whatever connections,
    errors, signals and endings arrive and in whatever order, the connections and what
    they reserve are within the configured capacity. While it serves, a failed accept
    changes nothing; a connection for which there is room gets its task; and the next
    shutdown tick after a signal, and no other event, ends the serving. From then on
    there are never more connections than there were, and the relay needs nobody to get
    to its end: however far it has come, as long as it has not returned it has a step of
    its own to take (a task takes the shutdown branch of its await, finishes or times out
    a write, or ends, or an ended task is joined, or [run] returns), and without steps
    that peers cause in between it takes at most four for each connection, one for each
    ended task and one to return. Nothing is said of the time when peers keep sending,
    where [select!] may choose their messages before the shutdown. When it returns, no
    connection is left, all capacity is back but the memory of commands that the worker
    was left with, and the signal handlers are those from before. *)
Theorem relay_serves_until_stopped vars config before signals s l :
  configured_limits vars = Ok config → install None None before = (Ok signals, s) →
  rtc (loop_step config signals) (listening config s) l →
  within_capacity config (admission l) ∧
  (draining l = false →
    (∀ k poisoned, loop_turn config (OnAccept (Err k) poisoned) l = Some l) ∧
    (∀ ip, len (tasks (admission l)) < connections config → total_of handshake (tasks (admission l)) < handshakes config →
       total_of (handshake_from ip) (tasks (admission l)) < handshakes_per_ip config →
       ∃ a, loop_turn config (OnAccept (Ok ip) false) l = Some (set_admission a l) ∧
            tasks a = tasks (admission l) ++ [MkTask ip AtPermit false false false]) ∧
    ∀ event l', loop_turn config event l = Some l' →
      draining l' = true ↔ event = OnShutdownTick ∧ stop (signal_state l) = true) ∧
  (draining l = true →
    stop (signal_state l) = true ∧
    (∀ l', loop_step config signals l l' →
       draining l' = true ∧
       len (tasks (admission l')) + Z.of_nat (ended l') ≤ len (tasks (admission l)) + Z.of_nat (ended l)) ∧
    ∀ n l', nsteps (own_step signals) n l l' →
      Z.of_nat n ≤ 4 * len (tasks (admission l)) + Z.of_nat (ended l) + 1 ∧
      (returned l' = true ∨ ∃ l'', own_step signals l' l'')) ∧
  (returned l = true →
    ended l = 0%nat ∧
    admission l = MkAdmission (connections config) ∅
      (payload_bytes config - PAYLOAD_PERMITS * in_worker (admission l)) (in_worker (admission l)) [] ∧
    on_int (signal_state l) = on_int before ∧ on_term (signal_state l) = on_term before).
Proof.
  intros Hconf [= <- <-] Hsteps. set (signals := MkSignals _ _) in *.
  assert (loop_inv config signals l) as Hl.
  { eapply (rtc_ind_r (loop_inv config signals)); [|intros; by eapply loop_step_inv|exact Hsteps].
    split; try done. apply rtc_refl. }
  pose proof (admission_limits_hold vars config _ Hconf (loop_admits _ _ l Hl)) as Hcap.
  split_and!; [done| | |].
  - intros Hd. split_and!; [done| |].
    + intros ip H1 H2 H3. edestruct (accept_room config ip (admission l)) as (a & E & Et); [|done..|].
      { eapply admits_inv; [done|apply Hl]. }
      exists a. by rewrite <- Et; cbn [loop_turn]; rewrite E.
    + intros event l' E. destruct event as [[ip|k] p| | |]; cbn [loop_turn] in E.
      * injection E as <-. destruct (accept _ _ _ _); simpl; rewrite Hd; naive_solver.
      * injection E as <-. rewrite Hd. naive_solver.
      * injection E as <-. rewrite Hd. naive_solver.
      * injection E as <-. unfold requested. destruct (stop (signal_state l)); simpl; rewrite ?Hd; naive_solver.
      * destruct (no_sessions l); [done|]. destruct (ended l); [done|]. injection E as <-. simpl. rewrite Hd. naive_solver.
  - intros Hd. split_and!; [by apply Hl|by intros l' Hs; eapply drain_monotone|].
    intros n l' Hs. destruct (own_steps_end vars config Hconf signals l n l' Hl Hd Hs) as [Hn ?].
    split; [|done]. pose proof (work_bound l). lia.
  - intros Hr. destruct (loop_returned _ _ l Hl Hr) as (_ & Ht & He & Hi & Hm).
    split_and!; [done|by apply Hcap|done|done].
Qed.

(** One connection; a signal; the connection is still there when the relay stops, and
    after three steps it is gone and the relay has returned. *)
Definition before_relay : SignalState := MkSignalState true (OtherHandler 0) (OtherHandler 0).
Definition demo_signals : Signals := MkSignals (OtherHandler 0) (OtherHandler 0).
Definition one_task : Admission :=
  default (idle default_runtime_limits) (accept default_runtime_limits false loopback (idle default_runtime_limits)).
Definition serving_loop : RelayLoop :=
  set_admission one_task (listening default_runtime_limits (MkSignalState false RequestStop RequestStop)).
Definition stopping_loop : RelayLoop := send_shutdown (stop_accepting (set_signals request_stop serving_loop)).

Lemma relay_serves_until_stopped_witness :
  within_capacity default_runtime_limits (admission stopping_loop) ∧
  ∀ n l', nsteps (own_step demo_signals) n stopping_loop l' →
    Z.of_nat n ≤ 5 ∧ (returned l' = true ∨ ∃ l'', own_step demo_signals l' l'').
Proof.
  destruct (relay_serves_until_stopped (λ _, None) default_runtime_limits before_relay demo_signals
    (MkSignalState false RequestStop RequestStop) stopping_loop) as (Hcap & _ & Hdrain & _).
  - vm_compute. reflexivity.
  - reflexivity.
  - apply (rtc_l _ _ serving_loop).
    { apply (step_turn _ _ _ (OnAccept (Ok loopback) false)); [reflexivity|]. vm_compute. reflexivity. }
    apply (rtc_l _ _ (set_signals request_stop serving_loop)); [apply step_signal; left; reflexivity|].
    apply rtc_once, (step_turn _ _ _ OnShutdownTick); reflexivity.
  - split; [exact Hcap|]. exact (proj2 (proj2 (Hdrain eq_refl))).
Defined.
