(* ===== verification/ClientCommands.v ===== *)
(** * The client's command line

    [UserCommand], [parse_command], [parse_room_id] and [terminal_safe] of
    src/crates/grotto-client/src/lib.rs. What the parser accepts is compared with the
    syntax that [command_usage] gives. *)
From S2P Require Import Prelude Bytes Text Protocol Identifiers WireProps.

Module UserCommand.
Inductive t :=
| SetFetchGrant (requester : UserId) (allowed : bool)
| ContactExport
| ContactImport (card fingerprint : str)
| ListContacts
| CreateRoom (name : str)
| PublishKeyPackages (count : nat)
| AddToRoom (room : RoomId) (user : UserId)
| ListRooms
| SendRoomMessage (room : RoomId) (body : list byte)
| FetchRoomHistory (room : RoomId) (before_sequence : option Z)
| SyncWelcomes.
End UserCommand.

(** The texts [parse_command] fails with. *)
Inductive CommandError :=
| Usage
| ImportUsage
| CannotCreateRoom (e : RoomNameError.t)
| InvalidRoomId (e : ParseIdError.t)
| InvalidUserId (e : ParseIdError.t)
| InvalidContact
| InvalidSequence
| EmptyMessage
| MessageTooLong
| PublishCount.

(** [str::parse] into an identifier. *)
Definition parse_room (text : str) : result CommandError RoomId :=
  match id_from_str text with Ok id => Ok (MkRoomId id) | Err e => Err (InvalidRoomId e) end.
Definition parse_user (text : str) : result CommandError UserId :=
  match id_from_str text with Ok id => Ok (MkUserId id) | Err e => Err (InvalidUserId e) end.

(** [arguments.is_empty() || arguments.starts_with(char::is_whitespace)]. *)
Definition separated (arguments : str) : bool :=
  match arguments with [] => true | c :: _ => is_whitespace c end.

Definition parse_import (arguments : str) : result CommandError UserCommand.t :=
  match split_whitespace arguments with
  | [card; fingerprint] => Ok (UserCommand.ContactImport card fingerprint)
  | _ => Err ImportUsage
  end.

Definition parse_create (name : str) : result CommandError UserCommand.t :=
  if negb (separated name) then Err Usage
  else match normalize_room_name name with
       | Ok name => Ok (UserCommand.CreateRoom name)
       | Err e => Err (CannotCreateRoom e)
       end.

Definition parse_send (arguments : str) : result CommandError UserCommand.t :=
  if negb (separated arguments) then Err Usage
  else
    let '(word, rest) := span_nonspace (trim_start arguments) in
    match rest with
    | [] => Err Usage
    | _ =>
        room ← parse_room word;
        let body := utf8 (trim_start rest) in
        if decide (body = []) then Err EmptyMessage
        else if decide (len body > MAX_MESSAGE_BODY_BYTES) then Err MessageTooLong
        else Ok (UserCommand.SendRoomMessage room body)
    end.

Definition parse_publish (arguments : str) : result CommandError UserCommand.t :=
  if negb (separated arguments) then Err Usage
  else
    let arguments := trim arguments in
    count ← (if decide (arguments = []) then Ok 5
             else ok_or Usage (from_str_radix 10 u64_max (utf8 arguments)));
    if (count =? 0) || (64 <? count) then Err PublishCount
    else Ok (UserCommand.PublishKeyPackages (Z.to_nat count)).

Definition parse_grant (allowed : bool) (arguments : str) : result CommandError UserCommand.t :=
  match id_from_str (trim arguments) with
  | Ok id => Ok (UserCommand.SetFetchGrant (MkUserId id) allowed)
  | Err _ => Err InvalidContact
  end.

(** [parse_room_id(&mut parts)] and what is left of [parts]. *)
Definition parse_room_id (parts : list str) : result CommandError (RoomId * list str) :=
  match parts with
  | [] => Err Usage
  | text :: parts => room ← parse_room text; Ok (room, parts)
  end.

Definition parse_add (parts : list str) : result CommandError UserCommand.t :=
  '(room, parts) ← parse_room_id parts;
  match parts with
  | [] => Err Usage
  | text :: parts =>
      user ← parse_user text;
      if decide (parts = []) then Ok (UserCommand.AddToRoom room user) else Err Usage
  end.

Definition parse_history (parts : list str) : result CommandError UserCommand.t :=
  '(room, parts) ← parse_room_id parts;
  match parts with
  | [] => Ok (UserCommand.FetchRoomHistory room None)
  | text :: parts =>
      before ← ok_or InvalidSequence (from_str_radix 10 u64_max (utf8 text));
      if decide (parts = []) then Ok (UserCommand.FetchRoomHistory room (Some before)) else Err Usage
  end.

Definition parse_parts (parts : list str) : result CommandError UserCommand.t :=
  match parts with
  | [] => Err Usage
  | word :: parts =>
      if decide (word = lit "/add") then parse_add parts
      else if decide (word = lit "/history") then parse_history parts
      else Err Usage
  end.

(** The commands with a prefix of their own, in the order they are tried. *)
Definition parse_prefixed (input : str) : option (result CommandError UserCommand.t) :=
  if decide (input = lit "/contact export") then Some (Ok UserCommand.ContactExport)
  else if decide (input = lit "/contacts") then Some (Ok UserCommand.ListContacts)
  else match strip_prefix (lit "/contact import ") input with
  | Some arguments => Some (parse_import arguments)
  | None =>
  match strip_prefix (lit "/create") input with
  | Some name => Some (parse_create name)
  | None =>
  match strip_prefix (lit "/send") input with
  | Some arguments => Some (parse_send arguments)
  | None =>
  match strip_prefix (lit "/publish") input with
  | Some arguments => Some (parse_publish arguments)
  | None =>
  if decide (input = lit "/rooms") then Some (Ok UserCommand.ListRooms)
  else if decide (input = lit "/welcomes") then Some (Ok UserCommand.SyncWelcomes)
  else match strip_prefix (lit "/contact grant ") input with
  | Some arguments => Some (parse_grant true arguments)
  | None => parse_grant false <$> strip_prefix (lit "/contact revoke ") input
  end end end end end.

Definition parse_command (input : str) : result CommandError (option UserCommand.t) :=
  let input := trim input in
  if decide (input = []) then Ok None
  else Some <$> default (parse_parts (split_whitespace input)) (parse_prefixed input).

Definition terminal_safe (text : str) : str :=
  (λ c, if is_control c then replacement_character else c) <$> text.

Example send_command : parse_command (lit " /send 44444444444444444444444444444444  hi there ") =
  Ok (Some (UserCommand.SendRoomMessage (MkRoomId (vreplicate 16 x44)) (utf8 (lit "hi there")))).
Proof. vm_compute. reflexivity. Qed.
Example create_command : parse_command (lit "/created x") = Err Usage.
Proof. vm_compute. reflexivity. Qed.

(** ** The syntax of [command_usage] *)

(** A number in decimal; twenty digits hold any [u64]. *)
Fixpoint digits (fuel : nat) (z : Z) : list byte :=
  match fuel with
  | O => []
  | S fuel => if z <? 10 then [z2b (48 + z)] else digits fuel (z / 10) ++ [z2b (48 + z `mod` 10)]
  end.
Definition decimal (z : Z) : str := ascii_str (digits 20 z).

Definition print_command (c : UserCommand.t) : str :=
  match c with
  | UserCommand.SetFetchGrant user true => lit "/contact grant " ++ id_to_string (user_bytes user)
  | UserCommand.SetFetchGrant user false => lit "/contact revoke " ++ id_to_string (user_bytes user)
  | UserCommand.ContactExport => lit "/contact export"
  | UserCommand.ContactImport card fingerprint => lit "/contact import " ++ card ++ lit " " ++ fingerprint
  | UserCommand.ListContacts => lit "/contacts"
  | UserCommand.CreateRoom name => lit "/create " ++ name
  | UserCommand.PublishKeyPackages count => lit "/publish " ++ decimal (Z.of_nat count)
  | UserCommand.AddToRoom room user =>
      lit "/add " ++ id_to_string (room_bytes room) ++ lit " " ++ id_to_string (user_bytes user)
  | UserCommand.ListRooms => lit "/rooms"
  | UserCommand.SendRoomMessage room body =>
      lit "/send " ++ id_to_string (room_bytes room) ++ lit " " ++ default [] (from_utf8 body)
  | UserCommand.FetchRoomHistory room None => lit "/history " ++ id_to_string (room_bytes room)
  | UserCommand.FetchRoomHistory room (Some n) =>
      lit "/history " ++ id_to_string (room_bytes room) ++ lit " " ++ decimal n
  | UserCommand.SyncWelcomes => lit "/welcomes"
  end.

Definition word (s : str) : Prop := s ≠ [] ∧ Forall (λ c, is_whitespace c = false) s.

(** What a user can ask for. *)
Definition sensible (c : UserCommand.t) : Prop :=
  match c with
  | UserCommand.ContactImport card fingerprint => word card ∧ word fingerprint
  | UserCommand.CreateRoom name => normalize_room_name name = Ok name
  | UserCommand.PublishKeyPackages count => (1 ≤ count ≤ 64)%nat
  | UserCommand.SendRoomMessage _ body =>
      ∃ s, body = utf8 s ∧ s ≠ [] ∧ trim s = s ∧ len body ≤ MAX_MESSAGE_BODY_BYTES
  | UserCommand.FetchRoomHistory _ (Some n) => 0 ≤ n ≤ u64_max
  | _ => True
  end.

(** ** Strings *)

Lemma strip_prefix_app p s : strip_prefix p (p ++ s) = Some s.
Proof. induction p as [|a p IH]; [done|]. simpl. by rewrite decide_True. Qed.
Lemma strip_prefix_Some p s r : strip_prefix p s = Some r → s = p ++ r.
Proof.
  revert s. induction p as [|a p IH]; intros s E; [by injection E as <-|].
  destruct s as [|b s]; [done|]. simpl in E. case_decide; [|done]. subst. simpl. f_equal. by apply IH.
Qed.

(** Two literals that differ where both go on. *)
Fixpoint clash (p q : str) : bool :=
  match p, q with
  | a :: p, b :: q => if decide (a = b) then clash p q else true
  | _, _ => false
  end.
Lemma strip_prefix_clash p q s : clash p q = true → strip_prefix p (q ++ s) = None.
Proof.
  revert q. induction p as [|a p IH]; intros [|b q]; try done. simpl. case_decide; [|done]. apply IH.
Qed.
Lemma clash_ne p q s : clash p q = true → q ++ s ≠ p.
Proof.
  revert q. induction p as [|a p IH]; intros [|b q]; try done. simpl. case_decide as E; [|congruence].
  intros Hc [= _ Hq]. by eapply IH.
Qed.

Lemma span_word w c r : Forall (λ c, is_whitespace c = false) w → is_whitespace c = true →
  span_nonspace (w ++ c :: r) = (w, c :: r).
Proof. intros Hw Hc. induction Hw as [|a w Ha Hw IH]; simpl; [by rewrite Hc|]. by rewrite Ha, IH. Qed.
Lemma span_Some s w r : span_nonspace s = (w, r) → s = w ++ r ∧ Forall (λ c, is_whitespace c = false) w ∧
  match r with [] => True | c :: _ => is_whitespace c = true end.
Proof.
  revert w. induction s as [|a s IH]; intros w; simpl; [intros [= <- <-]; by split_and!|].
  destruct (is_whitespace a) eqn:Ea; [intros [= <- <-]; by split_and!|].
  destruct (span_nonspace s) as [w' r'] eqn:E. intros [= <- <-].
  destruct (IH w' eq_refl) as (-> & Hw & Hr). split_and!; [done|by constructor|done].
Qed.

Lemma split_words_run acc w s : Forall (λ c, is_whitespace c = false) w →
  split_words acc (w ++ s) = split_words (acc ++ w) s.
Proof.
  intros Hw. revert acc. induction Hw as [|a w Ha Hw IH]; intros acc; simpl; [by rewrite app_nil_r|].
  rewrite Ha, IH. by rewrite <- (assoc_L (++)).
Qed.
Lemma split_word w : word w → split_whitespace w = [w].
Proof.
  intros [Hne Hw]. unfold split_whitespace. rewrite <- (app_nil_r w) at 1. rewrite split_words_run by done.
  simpl. by destruct w.
Qed.
Lemma split_word_space w c s : word w → is_whitespace c = true →
  split_whitespace (w ++ c :: s) = w :: split_whitespace s.
Proof.
  intros [Hne Hw] Hc. unfold split_whitespace. rewrite split_words_run by done. simpl. rewrite Hc. by destruct w.
Qed.
Lemma split_words_all s : ∀ acc, Forall (λ c, is_whitespace c = false) acc → Forall word (split_words acc s).
Proof.
  induction s as [|a s IH]; intros acc Hacc; simpl.
  - destruct acc; [done|]. constructor; [by split|constructor].
  - destruct (is_whitespace a) eqn:Ea.
    + destruct acc; [by apply IH|]. constructor; [by split|]. by apply IH.
    + apply IH. apply Forall_app. split; [done|]. by constructor.
Qed.
Lemma split_whitespace_words s : Forall word (split_whitespace s).
Proof. by apply split_words_all. Qed.

(** The last character decides what [trim_end] does. *)
Lemma trim_end_id s : (∀ p c, s = p ++ [c] → is_whitespace c = false) → trim_end s = s.
Proof.
  intros Hs. unfold trim_end. destruct s as [|c s _] using rev_ind; [done|].
  rewrite rev_unit. cbn [trim_start]. rewrite (Hs s c eq_refl). by rewrite <- rev_unit, rev_involutive.
Qed.
Lemma trim_last s p c : trim s = p ++ [c] → is_whitespace c = false.
Proof.
  unfold trim, trim_end. intros E. pose proof (trim_start_head (rev (trim_start s))) as Hh.
  apply (f_equal (@rev char)) in E. rewrite rev_involutive, rev_unit in E. by rewrite E in Hh.
Qed.
Lemma trim_id s : match s with [] => True | c :: _ => is_whitespace c = false end →
  (∀ p c, s = p ++ [c] → is_whitespace c = false) → trim s = s.
Proof. intros Hh Hl. unfold trim. rewrite trim_start_id by done. by apply trim_end_id. Qed.
(** A suffix of a trimmed text that starts with no space. *)
Lemma trim_suffix s p t : trim s = p ++ t → trim_start t = t → trim t = t.
Proof.
  intros E Ht. apply trim_id.
  - rewrite <- Ht. apply trim_start_head.
  - intros q c ->. apply (trim_last s (p ++ q)). by rewrite E, (assoc_L (++)).
Qed.

(** ** Decimal numbers *)

Lemma radix_digits_app radix max l l' : ∀ acc,
  radix_digits radix max acc (l ++ l') = radix_digits radix max acc l ≫= λ a, radix_digits radix max a l'.
Proof.
  induction l as [|b l IH]; intros acc; [done|]. simpl. destruct (to_digit radix b); [|done]. simpl.
  case_match; [apply IH|done].
Qed.

Lemma to_digit_decimal d : 0 ≤ d < 10 → to_digit 10 (z2b (48 + d)) = Some d ∧ b2z (z2b (48 + d)) = 48 + d.
Proof.
  intros Hd. assert (d = 0 ∨ d = 1 ∨ d = 2 ∨ d = 3 ∨ d = 4 ∨ d = 5 ∨ d = 6 ∨ d = 7 ∨ d = 8 ∨ d = 9) as Hc by lia.
  by repeat destruct Hc as [->|Hc]; [vm_compute..|subst; vm_compute].
Qed.

Lemma digits_spec fuel max : ∀ z, 0 ≤ z < 10 ^ Z.of_nat fuel → z ≤ max →
  radix_digits 10 max 0 (digits fuel z) = Some z ∧ ((0 < fuel)%nat → digits fuel z ≠ []) ∧
  Forall (λ b, 48 ≤ b2z b < 58) (digits fuel z).
Proof.
  induction fuel as [|fuel IH]; intros z Hz Hm; cbn [digits].
  { simpl in Hz. assert (z = 0) as -> by lia. split_and!; [done|lia|done]. }
  destruct (z <? 10) eqn:E; [apply Z.ltb_lt in E|apply Z.ltb_ge in E].
  - destruct (to_digit_decimal z) as [Hd Hb]; [lia|]. cbn [radix_digits]. rewrite Hd. cbn [mbind option_bind].
    rewrite (proj2 (Z.leb_le _ max)) by lia. split_and!; [f_equal; lia|done|]. constructor; [lia|done].
  - rewrite Nat2Z.inj_succ, Z.pow_succ_r in Hz by lia.
    assert (0 ≤ z / 10 < 10 ^ Z.of_nat fuel) by (split; [apply Z.div_pos; lia|apply Z.div_lt_upper_bound; lia]).
    assert (z / 10 ≤ max) by (transitivity z; [apply Z.div_le_upper_bound; lia|done]).
    destruct (IH (z / 10)) as (Hr & _ & Hf); [done..|].
    pose proof (Z.mod_pos_bound z 10). destruct (to_digit_decimal (z `mod` 10)) as [Hd Hb]; [lia|].
    rewrite radix_digits_app, Hr. cbn [mbind option_bind radix_digits]. rewrite Hd. cbn [mbind option_bind].
    replace (z / 10 * 10 + z `mod` 10) with z by (rewrite (Z.div_mod z 10) at 1; lia).
    rewrite (proj2 (Z.leb_le z max)) by lia. split_and!; [done| |].
    + intros _ [_ ?]%app_nil. done.
    + apply Forall_app. split; [done|]. constructor; [lia|done].
Qed.

(** What starts with a digit is read by the digit loop. *)
Lemma from_str_radix_digits radix max b l : 48 ≤ b2z b → from_str_radix radix max (b :: l) = radix_digits radix max 0 (b :: l).
Proof. intros Hb. destruct b; try done; exfalso; revert Hb; vm_compute; congruence. Qed.

Lemma decimal_spec z : 0 ≤ z ≤ u64_max →
  from_str_radix 10 u64_max (utf8 (decimal z)) = Some z ∧ word (decimal z).
Proof.
  intros Hz. destruct (digits_spec 20 u64_max z) as (Hr & Hne & Hf);
    [change (Z.of_nat 20) with 20; unfold u64_max in *; lia|lia|].
  assert (Forall (λ b, b2z b < 128) (digits 20 z)) as Ha by (eapply Forall_impl; [exact Hf|simpl; lia]).
  destruct (utf8_ascii_str _ Ha) as [Hu _]. unfold decimal. rewrite Hu.
  specialize (Hne ltac:(lia)). destruct (digits 20 z) as [|b l] eqn:E; [done|]. inversion Hf as [|? ? Hb Hl]; subst.
  split; [rewrite from_str_radix_digits by lia; done|]. split.
  - intros En. rewrite En in Hu. done.
  - clear -Hf. induction Hf as [|c k Hc _ IH]; [constructor|]. unfold ascii_str in *. cbn [omap list_omap].
    destruct (char_from_u32 (b2z c)) as [x|] eqn:Ex; [|done]. constructor; [|done].
    unfold char_from_u32 in Ex. case_match; [|done]. injection Ex as <-. unfold is_whitespace. simpl.
    rewrite !orb_false_iff, !andb_false_iff, !Z.leb_gt, !Z.eqb_neq. lia.
Qed.

(** ** Printed commands *)

(** A text whose last character is no space. *)
Definition solid (s : str) : Prop := s ≠ [] ∧ ∀ p c, s = p ++ [c] → is_whitespace c = false.

Lemma solid_app p s : solid s → solid (p ++ s).
Proof.
  intros [Hne Hs]. split; [by intros [_ ?]%app_nil|]. intros q c E.
  destruct s as [|x s _] using rev_ind; [done|]. rewrite (assoc_L (++)) in E.
  apply app_inj_2 in E as [_ [= <-]]; [|done]. by eapply Hs.
Qed.
Lemma solid_word w : word w → solid w.
Proof.
  intros [Hne Hw]. split; [done|]. intros p c ->. apply Forall_app in Hw as [_ Hw]. by inversion Hw.
Qed.
Lemma solid_trimmed s : s ≠ [] → trim s = s → solid s.
Proof. intros Hne Ht. split; [done|]. intros p c E. apply (trim_last s p). congruence. Qed.
Lemma trim_solid c p s : is_whitespace c = false → solid s → trim (c :: p ++ s) = c :: p ++ s.
Proof. intros Hc Hs. apply trim_id; [done|]. apply (solid_app (c :: p)) in Hs as [_ Hs]. exact Hs. Qed.

Lemma word_id {n} (id : bytes (S n)) : word (id_to_string id).
Proof.
  split; [|apply hex_text_no_space]. intros E. pose proof (str_len_hex_text id) as Hl.
  unfold id_to_string in E. rewrite E in Hl. rewrite len_vec in Hl. change (str_len []) with 0 in Hl. lia.
Qed.
Lemma parse_printed_id (id : bytes 16) : id_from_str (id_to_string id) = Ok id.
Proof.
  destruct (utf8_hex_text id) as [Hu Ha]. unfold id_from_str, id_to_string. rewrite str_len_hex_text, len_vec.
  rewrite decide_False by lia. rewrite Ha, Hu. cbn [negb].
  by rewrite <- (app_nil_r (hex_string id)), parse_pairs_hex_string.
Qed.
Lemma trim_word w : word w → trim w = w.
Proof.
  intros Hw. destruct (solid_word w Hw) as [_ Hs]. apply trim_id; [|done].
  destruct Hw as [_ Hw]. by destruct Hw.
Qed.
Lemma trim_space_word s : trim s = s → trim (lit " " ++ s) = s.
Proof. intros Hs. unfold trim at 1. change (trim_start (lit " " ++ s)) with (trim_start s). exact Hs. Qed.
Lemma trimmed_start s : trim s = s → trim_start s = s.
Proof. intros Hs. apply trim_start_id. pose proof (trim_head s) as Hh. by rewrite Hs in Hh. Qed.

Lemma parse_command_solid q s : match q with [] => False | c :: _ => is_whitespace c = false end → solid s →
  parse_command (q ++ s) = Some <$> default (parse_parts (split_whitespace (q ++ s))) (parse_prefixed (q ++ s)).
Proof.
  intros Hq Hs. destruct q as [|c q]; [done|]. unfold parse_command. rewrite <- app_comm_cons, trim_solid by done.
  by rewrite decide_False.
Qed.

(** The prefixes that come before the one at hand do not match. *)
Ltac skip_prefixes :=
  rewrite ?decide_False by (apply clash_ne; reflexivity);
  repeat (rewrite strip_prefix_clash by reflexivity; rewrite ?decide_False by (apply clash_ne; reflexivity)).

Lemma printed_grant user b : parse_command (print_command (UserCommand.SetFetchGrant user b)) =
  Ok (Some (UserCommand.SetFetchGrant user b)).
Proof.
  destruct user as [id]. pose proof (word_id id) as Hw. destruct b; cbn [print_command user_bytes room_bytes].
  all: rewrite parse_command_solid by (first [reflexivity|by apply solid_word]).
  all: unfold parse_prefixed; skip_prefixes; rewrite strip_prefix_app; cbn [default fmap option_fmap option_map].
  all: unfold parse_grant; rewrite (trim_word _ Hw), parse_printed_id; done.
Qed.

Lemma printed_import card fp : word card → word fp →
  parse_command (print_command (UserCommand.ContactImport card fp)) = Ok (Some (UserCommand.ContactImport card fp)).
Proof.
  intros Hc Hf. cbn [print_command user_bytes room_bytes].
  rewrite parse_command_solid by (first [reflexivity|by do 2 apply solid_app; apply solid_word]).
  unfold parse_prefixed; skip_prefixes. rewrite strip_prefix_app. cbn [default]. unfold parse_import.
  change (lit " " ++ fp) with (Char 32 I :: fp). rewrite split_word_space by done. by rewrite split_word.
Qed.

Lemma printed_create name : normalize_room_name name = Ok name →
  parse_command (print_command (UserCommand.CreateRoom name)) = Ok (Some (UserCommand.CreateRoom name)).
Proof.
  intros Hn. assert (name ≠ [] ∧ trim name = name) as [Hne Ht].
  { unfold normalize_room_name in Hn. repeat case_decide; try done. destruct (existsb _ _); [done|].
    injection Hn as E. rewrite E in *. done. }
  cbn [print_command user_bytes room_bytes]. rewrite parse_command_solid by (first [reflexivity|by apply solid_trimmed]).
  change (lit "/create " ++ name) with (lit "/create" ++ (lit " " ++ name)).
  unfold parse_prefixed; skip_prefixes. rewrite strip_prefix_app. cbn [default]. unfold parse_create.
  change (separated (lit " " ++ name)) with true. cbn [negb].
  assert (normalize_room_name (lit " " ++ name) = normalize_room_name name) as ->.
  { unfold normalize_room_name. by rewrite trim_space_word, Ht. }
  by rewrite Hn.
Qed.

Lemma printed_publish n : (1 ≤ n ≤ 64)%nat →
  parse_command (print_command (UserCommand.PublishKeyPackages n)) = Ok (Some (UserCommand.PublishKeyPackages n)).
Proof.
  intros Hn. destruct (decimal_spec (Z.of_nat n)) as [Hd Hw]; [unfold u64_max; lia|].
  cbn [print_command user_bytes room_bytes]. rewrite parse_command_solid by (first [reflexivity|by apply solid_word]).
  change (lit "/publish " ++ decimal (Z.of_nat n)) with (lit "/publish" ++ (lit " " ++ decimal (Z.of_nat n))).
  unfold parse_prefixed; skip_prefixes. rewrite strip_prefix_app. cbn [default]. unfold parse_publish.
  change (separated (lit " " ++ decimal (Z.of_nat n))) with true. cbn [negb].
  rewrite trim_space_word by by apply trim_word. rewrite decide_False by apply Hw. rewrite Hd.
  cbn [ok_or mbind result_bind].
  destruct (Z.eqb_spec (Z.of_nat n) 0); [lia|]. destruct (Z.ltb_spec 64 (Z.of_nat n)); [lia|]. simpl.
  by rewrite Nat2Z.id.
Qed.

Lemma printed_send room s : s ≠ [] → trim s = s → len (utf8 s) ≤ MAX_MESSAGE_BODY_BYTES →
  parse_command (print_command (UserCommand.SendRoomMessage room (utf8 s))) =
    Ok (Some (UserCommand.SendRoomMessage room (utf8 s))).
Proof.
  intros Hne Ht Hl. destruct room as [id]. pose proof (word_id id) as Hw. cbn [print_command user_bytes room_bytes].
  rewrite from_utf8_utf8. change (default [] (Some s)) with s.
  rewrite parse_command_solid by (first [reflexivity|by do 2 apply solid_app; apply solid_trimmed]).
  set (text := id_to_string id ++ lit " " ++ s). change (lit "/send " ++ text) with (lit "/send" ++ (lit " " ++ text)).
  unfold parse_prefixed; skip_prefixes. rewrite strip_prefix_app. cbn [default]. unfold parse_send.
  change (separated (lit " " ++ text)) with true. cbn [negb].
  change (trim_start (lit " " ++ text)) with (trim_start text).
  rewrite (trim_start_id text) by (unfold text; destruct Hw as [? Hw]; by destruct Hw).
  unfold text. change (lit " " ++ s) with (Char 32 I :: s). rewrite span_word by (first [done|apply Hw]).
  unfold parse_room. rewrite parse_printed_id. cbn [mbind result_bind].
  change (trim_start (Char 32 I :: s)) with (trim_start s). rewrite trimmed_start by done.
  rewrite decide_False; [rewrite decide_False by lia; done|]. intros E. apply Hne, utf8_inj. exact E.
Qed.

(** The commands that are split into words. *)
Lemma parse_parts_printed q s : match q with [] => False | c :: _ => is_whitespace c = false end → solid s →
  parse_prefixed (q ++ s) = None → parse_command (q ++ s) = Some <$> parse_parts (split_whitespace (q ++ s)).
Proof. intros Hq Hs Hp. rewrite parse_command_solid by done. by rewrite Hp. Qed.

Lemma word_literal s : bool_decide (s ≠ [] ∧ Forall (λ c, is_whitespace c = false) s) = true → word s.
Proof. by intros ?%bool_decide_eq_true. Qed.

Lemma printed_add room user : parse_command (print_command (UserCommand.AddToRoom room user)) =
  Ok (Some (UserCommand.AddToRoom room user)).
Proof.
  destruct room as [r], user as [u]. pose proof (word_id r) as Hr. pose proof (word_id u) as Hu.
  cbn [print_command user_bytes room_bytes]. rewrite parse_parts_printed; [|reflexivity|by do 2 apply solid_app; apply solid_word|].
  - change (lit "/add " ++ id_to_string r ++ lit " " ++ id_to_string u)
      with (lit "/add" ++ Char 32 I :: (id_to_string r ++ Char 32 I :: id_to_string u)).
    rewrite (split_word_space (lit "/add")) by (first [done|apply word_literal; vm_compute; reflexivity]).
    rewrite split_word_space, split_word by done. unfold parse_parts. rewrite decide_True by done.
    unfold parse_add, parse_room_id, parse_room, parse_user. rewrite parse_printed_id. cbn [mbind result_bind].
    by rewrite parse_printed_id.
  - unfold parse_prefixed; skip_prefixes. done.
Qed.

Lemma printed_history room before : sensible (UserCommand.FetchRoomHistory room before) →
  parse_command (print_command (UserCommand.FetchRoomHistory room before)) =
    Ok (Some (UserCommand.FetchRoomHistory room before)).
Proof.
  intros Hs. destruct room as [r]. pose proof (word_id r) as Hr.
  assert (word (lit "/history")) as Hh by (apply word_literal; vm_compute; reflexivity).
  destruct before as [n|]; cbn [print_command user_bytes room_bytes].
  - destruct (decimal_spec n Hs) as [Hd Hw].
    rewrite parse_parts_printed; [|reflexivity|by do 2 apply solid_app; apply solid_word|].
    + change (lit "/history " ++ id_to_string r ++ lit " " ++ decimal n)
        with (lit "/history" ++ Char 32 I :: (id_to_string r ++ Char 32 I :: decimal n)).
      rewrite !split_word_space, split_word by done. unfold parse_parts. rewrite decide_False, decide_True by done.
      unfold parse_history, parse_room_id, parse_room. rewrite parse_printed_id. cbn [mbind result_bind].
      by rewrite Hd.
    + unfold parse_prefixed; skip_prefixes. done.
  - rewrite parse_parts_printed; [|reflexivity|by apply solid_word|].
    + change (lit "/history " ++ id_to_string r) with (lit "/history" ++ Char 32 I :: id_to_string r).
      rewrite split_word_space, split_word by done. unfold parse_parts. rewrite decide_False, decide_True by done.
      unfold parse_history, parse_room_id, parse_room. rewrite parse_printed_id. done.
    + unfold parse_prefixed; skip_prefixes. done.
Qed.

Lemma parse_print c : sensible c → parse_command (print_command c) = Ok (Some c).
Proof.
  destruct c; intros Hs.
  - apply printed_grant.
  - vm_compute. reflexivity.
  - by apply printed_import; apply Hs.
  - vm_compute. reflexivity.
  - by apply printed_create.
  - by apply printed_publish.
  - apply printed_add.
  - vm_compute. reflexivity.
  - destruct Hs as (s & -> & ? & ? & ?). by apply printed_send.
  - by apply printed_history.
  - vm_compute. reflexivity.
Qed.

(** ** Parsed commands *)

Lemma radix_digits_bound radix max l : ∀ acc z, acc ≤ max → radix_digits radix max acc l = Some z → z ≤ max.
Proof.
  induction l as [|b l IH]; intros acc z Ha; simpl; [by intros [= <-]|].
  intros (d & _ & E)%bind_Some. destruct (Z.leb_spec (acc * radix + d) max); [|done]. by eapply IH.
Qed.
Lemma from_str_radix_bound radix max l z : 0 ≤ radix → 0 ≤ max → from_str_radix radix max l = Some z → 0 ≤ z ≤ max.
Proof.
  intros Hr Hm E. split; [by apply (from_str_radix_nonneg radix max l)|].
  unfold from_str_radix in E. repeat case_match; try done; by eapply (radix_digits_bound _ _ _ 0).
Qed.

Lemma bind_Ok {E A B} (r : result E A) (k : A → result E B) b : r ≫= k = Ok b → ∃ a, r = Ok a ∧ k a = Ok b.
Proof. destruct r; [eauto|done]. Qed.

Lemma import_sensible s c : parse_import s = Ok c → sensible c.
Proof.
  unfold parse_import. pose proof (split_whitespace_words s) as Hw.
  destruct (split_whitespace s) as [|card [|fp [|]]]; try done. intros [= <-].
  inversion_clear Hw as [|? ? Hc Hw']. inversion_clear Hw' as [|? ? Hf _]. by split.
Qed.
Lemma create_sensible s c : parse_create s = Ok c → sensible c.
Proof.
  unfold parse_create. destruct (separated s); [|done]. destruct (normalize_room_name s) as [n|] eqn:E; [|done].
  intros [= <-]. unfold normalize_room_name in E. repeat case_decide; try done.
  destruct (existsb is_control (trim s)) eqn:Ec; [done|]. injection E as <-.
  unfold sensible, normalize_room_name. by rewrite trim_idemp, !decide_False, Ec.
Qed.
Lemma send_sensible s p t c : trim s = p ++ t → parse_send t = Ok c → sensible c.
Proof.
  unfold parse_send. intros Et. destruct (separated t); [|done]. cbn [negb].
  destruct (span_nonspace (trim_start t)) as [w r] eqn:Es. apply span_Some in Es as (Es & _ & _).
  destruct r as [|x r]; [done|]. intros (room & _ & E)%bind_Ok. case_decide as Hne; [done|].
  case_decide as Hl; [done|]. injection E as <-. exists (trim_start (x :: r)). split_and!; [done| | |apply Z.nlt_ge; intros Hgt; by apply Hl, Z.lt_gt].
  - intros E. by rewrite E in Hne.
  - destruct (trim_start_suffix t) as (q & Hq & _). destruct (trim_start_suffix (x :: r)) as (q' & Hq' & _).
    apply (trim_suffix s (p ++ q ++ w ++ q')); [|apply trim_start_idemp].
    rewrite Et, Hq, Es, Hq' at 1. by rewrite <- !(assoc_L (++)), <- Hq'.
Qed.
Lemma publish_sensible s c : parse_publish s = Ok c → sensible c.
Proof.
  unfold parse_publish. destruct (separated s); [|done]. cbn [negb]. intros (n & En & E)%bind_Ok.
  assert (0 ≤ n) as Hn.
  { case_decide; [injection En as <-; lia|]. destruct (from_str_radix _ _ _) eqn:Ef; [|done]. injection En as <-.
    apply from_str_radix_bound in Ef; unfold u64_max; lia. }
  destruct (Z.eqb_spec n 0); [done|]. destruct (Z.ltb_spec 64 n); [done|]. injection E as <-. simpl. lia.
Qed.
Lemma history_sensible parts c : parse_history parts = Ok c → sensible c.
Proof.
  unfold parse_history. intros ([room rest] & _ & E)%bind_Ok. destruct rest as [|text rest]; [by injection E as <-|].
  apply bind_Ok in E as (n & En & E). case_decide; [|done]. injection E as <-.
  destruct (from_str_radix _ _ _) eqn:Ef; [|done]. injection En as <-. simpl.
  by apply from_str_radix_bound in Ef; unfold u64_max in *; [|lia..].
Qed.
Lemma parts_sensible parts c : parse_parts parts = Ok c → sensible c.
Proof.
  unfold parse_parts. destruct parts as [|w parts]; [done|]. repeat case_decide; [| |done].
  - unfold parse_add. intros ([room rest] & _ & E)%bind_Ok. destruct rest as [|text rest]; [done|].
    apply bind_Ok in E as (u & _ & E). case_decide; [|done]. by injection E as <-.
  - apply history_sensible.
Qed.
Lemma prefixed_sensible s c : parse_prefixed (trim s) = Some (Ok c) → sensible c.
Proof.
  assert (∀ b t, parse_grant b t = Ok c → sensible c) as Hg.
  { intros b t. unfold parse_grant. destruct (id_from_str _); [|done]. by intros [= <-]. }
  unfold parse_prefixed. do 2 (case_decide; [by intros [= <-]|]).
  destruct (strip_prefix (lit "/contact import ") _) as [t|]; [intros [= E]; by eapply import_sensible|].
  destruct (strip_prefix (lit "/create") _) as [t|]; [intros [= E]; by eapply create_sensible|].
  destruct (strip_prefix (lit "/send") _) as [t|] eqn:Es.
  { intros [= E]. apply strip_prefix_Some in Es. by eapply send_sensible. }
  destruct (strip_prefix (lit "/publish") _) as [t|]; [intros [= E]; by eapply publish_sensible|].
  do 2 (case_decide; [by intros [= <-]|]).
  destruct (strip_prefix (lit "/contact grant ") _) as [t|]; [intros [= E]; by eapply Hg|].
  destruct (strip_prefix (lit "/contact revoke ") _) as [t|]; [intros [= E]; by eapply Hg|done].
Qed.

Lemma parse_sensible input c : parse_command input = Ok (Some c) → sensible c.
Proof.
  unfold parse_command. case_decide; [done|]. destruct (parse_prefixed (trim input)) as [[d|e]|] eqn:E; simpl; try done.
  - intros [= ->]. by eapply prefixed_sensible.
  - destruct (parse_parts _) eqn:Ep; [|done]. intros [= ->]. by eapply parts_sensible.
Qed.

Lemma trim_start_app s q : trim_start (s ++ q) =
  match trim_start s with [] => trim_start q | _ => trim_start s ++ q end.
Proof. induction s as [|c s IH]; simpl; [done|]. by destruct (is_whitespace c). Qed.
Lemma trim_start_blank q : forallb is_whitespace q = true → trim_start q = [].
Proof. intros Hq. rewrite <- (app_nil_r q). by rewrite trim_start_space. Qed.
Lemma trim_surrounded p s q : forallb is_whitespace p = true → forallb is_whitespace q = true →
  trim (p ++ s ++ q) = trim s.
Proof.
  intros Hp Hq. unfold trim. rewrite trim_start_space, trim_start_app by done.
  destruct (trim_start s) as [|c t] eqn:E; [by rewrite trim_start_blank|].
  unfold trim_end. by rewrite rev_app_distr, trim_start_space by (by rewrite forallb_rev).
Qed.

(** C29: the commands a user can give are exactly the sensible ones. Whatever line is
    typed, a command that is parsed from it has a normalised room name, one to 64
    packages, a non-empty message of text within the protocol's limit, words for a card
    and its fingerprint, and a sequence that is a [u64]; and each such command is parsed
    from the line that the usage text gives for it, white space around it being
    ignored. *)
Theorem commands_are_sensible c :
  (∀ input, parse_command input = Ok (Some c) → sensible c) ∧
  (sensible c → ∀ p q, forallb is_whitespace p = true → forallb is_whitespace q = true →
     parse_command (p ++ print_command c ++ q) = Ok (Some c)).
Proof.
  split; [intros input; apply parse_sensible|]. intros Hc p q Hp Hq. rewrite <- (parse_print c Hc).
  unfold parse_command. by rewrite trim_surrounded.
Qed.

Lemma commands_are_sensible_witness :
  sensible (UserCommand.CreateRoom (lit "Cave")) ∧
  parse_command (lit "  /create Cave ") = Ok (Some (UserCommand.CreateRoom (lit "Cave"))).
Proof.
  assert (sensible (UserCommand.CreateRoom (lit "Cave"))) as Hs by (vm_compute; reflexivity).
  split; [exact Hs|].
  exact (proj2 (commands_are_sensible (UserCommand.CreateRoom (lit "Cave"))) Hs (lit "  ") (lit " ") eq_refl eq_refl).
Defined.
