(* ===== verification/ClientStore.v ===== *)
(** * The client's store

    The tables, transactions and operations of [ClientStore]
    (src/crates/grotto-client/src/store.rs). As for the relay, SQLite is not part of the
    program: each statement is a function of the tables with the violations and
    conversions that make it fail, and any statement may fail besides, as [sql_fails]
    decides. A failed statement has no effect and leaves an open transaction open. *)
From S2P Require Import Prelude Bytes Text Protocol Identifiers.

(** ** Tables

    A BLOB column that only ever holds an identifier has the identifier's type. A table
    read in rowid order is the list of its rows in that order; its rows carry the rowid
    where a query mentions it. *)

(** The [state] columns of [delivery_inbox], [welcome_inbox] and [processing]. *)
Inductive ProcessingState := Received | Blocked | Applied | Rejected.

#[global] Instance ProcessingState_eq_dec : EqDecision ProcessingState.
Proof. solve_decision. Defined.

Record InboxRow := MkInboxRow {
  inbox_event : MessageId; inbox_room : RoomId; inbox_sequence : Z;
  inbox_record : list byte; inbox_state : ProcessingState }.

Record WelcomeInboxRow := MkWelcomeInboxRow {
  inbox_cursor : Z; welcome_bytes : list byte; welcome_state : ProcessingState }.

Record IntentRow := MkIntentRow {
  intent_id : MessageId; intent_room : RoomId; intent_target : option UserId;
  intent_plaintext : option (list byte); intent_package : option (list byte);
  intent_attempt : option MessageId }.

Record ContactRow := MkContactRow { contact_mls_key : list byte; contact_card : list byte }.

Record PackageRow := MkPackageRow {
  package_bytes : list byte; init_key : list byte; leaf_key : list byte;
  expiration : list byte }.

Record HistoryRow := MkHistoryRow {
  history_rowid : Z; history_message : MessageId; history_room : RoomId;
  history_sequence : Z; history_author : UserId; history_plaintext : list byte }.

Record MessageRow := MkMessageRow {
  message_room : RoomId; message_sequence : Z; message_sender : UserId;
  message_body : list byte }.

Record OutboxRow := MkOutboxRow {
  outbox_rowid : Z; outbox_request : MessageId; outbox_kind : str;
  outbox_message : list byte }.

(** [cursors], [inbox], [welcomes], [intents], [contacts] and [history_rows] are
    [delivery_cursors], [delivery_inbox], [welcome_inbox], [delivery_intents],
    [verified_contacts] and [authenticated_history]; [welcome_position] is the
    [welcome_cursor] of the one row of [delivery_meta]. *)
Record ClientDb := MkClientDb {
  cursors : gmap RoomId Z;
  inbox : list InboxRow;
  welcomes : list WelcomeInboxRow;
  welcome_position : option Z;
  intents : list IntentRow;
  contacts : gmap UserId ContactRow;
  transport_identity : option (UserId * bytes 32);
  mls_groups : gmap (list byte) (list byte);
  mls_epochs : gmap (list byte * bytes 8) (list byte);
  mls_packages : gmap (list byte) PackageRow;
  history_rows : list HistoryRow;
  processing : gmap MessageId ProcessingState;
  messages : gmap MessageId MessageRow;
  outbox : list OutboxRow;
  pending_acks : list (MessageId * RoomId);
  mls_identity : option (list byte * list byte);
  local_rooms : gmap RoomId (str * str);
  pending_welcome_acks : list (MessageId * RoomId);
}.

(** Record updates, one per table. *)
Definition set_cursors f d := MkClientDb (f (cursors d)) (inbox d) (welcomes d) (welcome_position d) (intents d) (contacts d) (transport_identity d) (mls_groups d) (mls_epochs d) (mls_packages d) (history_rows d) (processing d) (messages d) (outbox d) (pending_acks d) (mls_identity d) (local_rooms d) (pending_welcome_acks d).
Definition set_inbox f d := MkClientDb (cursors d) (f (inbox d)) (welcomes d) (welcome_position d) (intents d) (contacts d) (transport_identity d) (mls_groups d) (mls_epochs d) (mls_packages d) (history_rows d) (processing d) (messages d) (outbox d) (pending_acks d) (mls_identity d) (local_rooms d) (pending_welcome_acks d).
Definition set_welcomes f d := MkClientDb (cursors d) (inbox d) (f (welcomes d)) (welcome_position d) (intents d) (contacts d) (transport_identity d) (mls_groups d) (mls_epochs d) (mls_packages d) (history_rows d) (processing d) (messages d) (outbox d) (pending_acks d) (mls_identity d) (local_rooms d) (pending_welcome_acks d).
Definition set_welcome_position f d := MkClientDb (cursors d) (inbox d) (welcomes d) (f (welcome_position d)) (intents d) (contacts d) (transport_identity d) (mls_groups d) (mls_epochs d) (mls_packages d) (history_rows d) (processing d) (messages d) (outbox d) (pending_acks d) (mls_identity d) (local_rooms d) (pending_welcome_acks d).
Definition set_intents f d := MkClientDb (cursors d) (inbox d) (welcomes d) (welcome_position d) (f (intents d)) (contacts d) (transport_identity d) (mls_groups d) (mls_epochs d) (mls_packages d) (history_rows d) (processing d) (messages d) (outbox d) (pending_acks d) (mls_identity d) (local_rooms d) (pending_welcome_acks d).
Definition set_contacts f d := MkClientDb (cursors d) (inbox d) (welcomes d) (welcome_position d) (intents d) (f (contacts d)) (transport_identity d) (mls_groups d) (mls_epochs d) (mls_packages d) (history_rows d) (processing d) (messages d) (outbox d) (pending_acks d) (mls_identity d) (local_rooms d) (pending_welcome_acks d).
Definition set_transport_identity f d := MkClientDb (cursors d) (inbox d) (welcomes d) (welcome_position d) (intents d) (contacts d) (f (transport_identity d)) (mls_groups d) (mls_epochs d) (mls_packages d) (history_rows d) (processing d) (messages d) (outbox d) (pending_acks d) (mls_identity d) (local_rooms d) (pending_welcome_acks d).
Definition set_mls_groups f d := MkClientDb (cursors d) (inbox d) (welcomes d) (welcome_position d) (intents d) (contacts d) (transport_identity d) (f (mls_groups d)) (mls_epochs d) (mls_packages d) (history_rows d) (processing d) (messages d) (outbox d) (pending_acks d) (mls_identity d) (local_rooms d) (pending_welcome_acks d).
Definition set_mls_epochs f d := MkClientDb (cursors d) (inbox d) (welcomes d) (welcome_position d) (intents d) (contacts d) (transport_identity d) (mls_groups d) (f (mls_epochs d)) (mls_packages d) (history_rows d) (processing d) (messages d) (outbox d) (pending_acks d) (mls_identity d) (local_rooms d) (pending_welcome_acks d).
Definition set_mls_packages f d := MkClientDb (cursors d) (inbox d) (welcomes d) (welcome_position d) (intents d) (contacts d) (transport_identity d) (mls_groups d) (mls_epochs d) (f (mls_packages d)) (history_rows d) (processing d) (messages d) (outbox d) (pending_acks d) (mls_identity d) (local_rooms d) (pending_welcome_acks d).
Definition set_history_rows f d := MkClientDb (cursors d) (inbox d) (welcomes d) (welcome_position d) (intents d) (contacts d) (transport_identity d) (mls_groups d) (mls_epochs d) (mls_packages d) (f (history_rows d)) (processing d) (messages d) (outbox d) (pending_acks d) (mls_identity d) (local_rooms d) (pending_welcome_acks d).
Definition set_processing f d := MkClientDb (cursors d) (inbox d) (welcomes d) (welcome_position d) (intents d) (contacts d) (transport_identity d) (mls_groups d) (mls_epochs d) (mls_packages d) (history_rows d) (f (processing d)) (messages d) (outbox d) (pending_acks d) (mls_identity d) (local_rooms d) (pending_welcome_acks d).
Definition set_messages f d := MkClientDb (cursors d) (inbox d) (welcomes d) (welcome_position d) (intents d) (contacts d) (transport_identity d) (mls_groups d) (mls_epochs d) (mls_packages d) (history_rows d) (processing d) (f (messages d)) (outbox d) (pending_acks d) (mls_identity d) (local_rooms d) (pending_welcome_acks d).
Definition set_outbox f d := MkClientDb (cursors d) (inbox d) (welcomes d) (welcome_position d) (intents d) (contacts d) (transport_identity d) (mls_groups d) (mls_epochs d) (mls_packages d) (history_rows d) (processing d) (messages d) (f (outbox d)) (pending_acks d) (mls_identity d) (local_rooms d) (pending_welcome_acks d).
Definition set_pending_acks f d := MkClientDb (cursors d) (inbox d) (welcomes d) (welcome_position d) (intents d) (contacts d) (transport_identity d) (mls_groups d) (mls_epochs d) (mls_packages d) (history_rows d) (processing d) (messages d) (outbox d) (f (pending_acks d)) (mls_identity d) (local_rooms d) (pending_welcome_acks d).
Definition set_mls_identity f d := MkClientDb (cursors d) (inbox d) (welcomes d) (welcome_position d) (intents d) (contacts d) (transport_identity d) (mls_groups d) (mls_epochs d) (mls_packages d) (history_rows d) (processing d) (messages d) (outbox d) (pending_acks d) (f (mls_identity d)) (local_rooms d) (pending_welcome_acks d).
Definition set_local_rooms f d := MkClientDb (cursors d) (inbox d) (welcomes d) (welcome_position d) (intents d) (contacts d) (transport_identity d) (mls_groups d) (mls_epochs d) (mls_packages d) (history_rows d) (processing d) (messages d) (outbox d) (pending_acks d) (mls_identity d) (f (local_rooms d)) (pending_welcome_acks d).
Definition set_pending_welcome_acks f d := MkClientDb (cursors d) (inbox d) (welcomes d) (welcome_position d) (intents d) (contacts d) (transport_identity d) (mls_groups d) (mls_epochs d) (mls_packages d) (history_rows d) (processing d) (messages d) (outbox d) (pending_acks d) (mls_identity d) (local_rooms d) (f (pending_welcome_acks d)).

(** ** [StoredRoomMessage], [AuthenticatedMessage], [OutboxEntry] *)

Record StoredRoomMessage := MkStoredRoomMessage {
  message_id : MessageId; room_id : RoomId; sequence : Z; sender_id : UserId;
  epoch : Z; content_type : MlsContentType.t; body : list byte }.

Record AuthenticatedMessage := MkAuthenticatedMessage {
  authenticated_id : MessageId; authenticated_room : RoomId; authenticated_sequence : Z;
  author : UserId; plaintext : list byte }.

Record OutboxEntry := MkOutboxEntry {
  request_id : MessageId; kind : str; message : list byte }.

(** ** Errors *)

Inductive StoreError :=
| Quota
| Database
| Io
| LockPoisoned
| InvalidData (what : string)
| UnsupportedSchema (version : Z).

#[global] Instance StoreError_eq_dec : EqDecision StoreError.
Proof. solve_decision. Defined.

(** ** [initialize] *)

Definition SCHEMA_VERSION : Z := 9.
Definition APPLICATION_ID : Z := 0x4752433a.
Definition MAX_ACK_CHUNK : Z := 100.

(** The tables after the schema batch, with the row it inserts into [delivery_meta]. *)
Definition fresh_db : ClientDb :=
  MkClientDb ∅ [] [] (Some 0) [] ∅ None ∅ ∅ ∅ [] ∅ ∅ [] [] None ∅ [].

Record StoreFile := MkStoreFile {
  file_version : Z; file_application : Z; file_objects : Z; file_tables : ClientDb }.

(** [initialize], when its statements succeed: 18 tables and one named index make up the
    schema. *)
Definition initialize_store (file : StoreFile) : result StoreError StoreFile :=
  if (file_version file =? SCHEMA_VERSION) && (file_application file =? APPLICATION_ID) then Ok file
  else if negb (file_version file =? 0) || negb (file_application file =? 0)
          || negb (file_objects file =? 0)
  then Err (UnsupportedSchema (file_version file))
  else Ok (MkStoreFile SCHEMA_VERSION APPLICATION_ID 19 fresh_db).

(** [GROTTO_CLIENT_STORAGE_BYTES] in [ClientStore::open]. *)
Definition new_data_limit_of (variable : option str) : result StoreError Z :=
  limit ← match variable with
          | None => Ok (1024 * 1024 * 1024)
          | Some text => ok_or (InvalidData "invalid client storage budget")
                           (from_str_radix 10 u64_max (utf8 text))
          end;
  if (limit <? 128 * 1024) || (i64_max - 64 * 1024 * 1024 <? limit)
  then Err (InvalidData "client storage budget out of range")
  else Ok limit.

(** ** The store and its monad *)

(** What a run meets outside the program: the running thread, whether a panic poisoned
    the connection's mutex, which statements fail, the pragmas the quota asks for,
    randomness, the random bits of the MLS library, which of the statements it runs
    through its callbacks fail, and which network operations take too long. Each is
    asked for at a point of the run. *)
Record World := MkWorld {
  thread : nat;
  mutex_poisoned : bool;
  sql_fails : nat → bool;
  page_size : nat → Z;
  page_count : nat → Z;
  random16 : nat → option (bytes 16);
  random32 : nat → option (bytes 32);
  entropy : nat → list byte;
  callback_fails : nat → nat → bool;
  elapses : nat → bool;
}.

(** [db] is what the connection sees; while a transaction is open, [saved] is what
    ROLLBACK, or the next start after a crash, goes back to. *)
Record Store := MkStore {
  db : ClientDb;
  saved : option ClientDb;
  owner : option nat;
  poisoned : bool;
  ticks : nat;
  new_data_limit : Z;
}.

(** What a restart finds. *)
Definition durable (s : Store) : ClientDb := default (db s) (saved s).

Definition tick s := MkStore (db s) (saved s) (owner s) (poisoned s) (S (ticks s)) (new_data_limit s).
Definition with_db d s := MkStore d (saved s) (owner s) (poisoned s) (ticks s) (new_data_limit s).
Definition with_saved o s := MkStore (db s) o (owner s) (poisoned s) (ticks s) (new_data_limit s).
Definition with_owner o s := MkStore (db s) (saved s) o (poisoned s) (ticks s) (new_data_limit s).
Definition with_poison s := MkStore (db s) (saved s) (owner s) true (ticks s) (new_data_limit s).

Definition StoreM (A : Type) : Type := World → Store → result StoreError A * Store.

#[global] Instance StoreM_ret : MRet StoreM := λ A a w s, (Ok a, s).
#[global] Instance StoreM_bind : MBind StoreM := λ A B f m w s,
  match m w s with
  | (Ok a, s) => f a w s
  | (Err e, s) => (Err e, s)
  end.

Definition throw {A} (e : StoreError) : StoreM A := λ _ s, (Err e, s).
Definition from_result {A} (r : result StoreError A) : StoreM A := λ _ s, (r, s).
Definition when (b : bool) (m : StoreM ()) : StoreM () := if b then m else mret tt.
(** Something the world decides at this point of the run. *)
Definition observe {A} (f : World → nat → A) : StoreM A := λ w s, (Ok (f w (ticks s)), tick s).

(** One SQL statement; [None] is one that SQLite or rusqlite refuses. *)
Definition sql {A} (f : ClientDb → option (A * ClientDb)) : StoreM A := λ w s,
  if sql_fails w (ticks s) then (Err Database, tick s)
  else match f (db s) with
       | Some (a, d) => (Ok a, with_db d (tick s))
       | None => (Err Database, tick s)
       end.
Definition select {A} (f : ClientDb → A) : StoreM A := sql (λ d, Some (f d, d)).
Definition update (f : ClientDb → option ClientDb) : StoreM () := sql (λ d, d ← f d; Some (tt, d)).

(** ** [lock], [lock_provider], [transaction] *)

Definition lock : StoreM () := λ w s,
  if poisoned s || mutex_poisoned w then (Err LockPoisoned, s)
  else match owner s with
       | Some id => if decide (id = thread w) then (Ok tt, s)
                    else (Err (InvalidData "transaction belongs to another worker"), s)
       | None => (Ok tt, s)
       end.

Definition lock_provider : StoreM () := λ w s,
  if poisoned s || mutex_poisoned w then (Err LockPoisoned, s) else (Ok tt, s).

(** BEGIN IMMEDIATE fails inside a transaction, COMMIT and ROLLBACK outside one. *)
Definition execute_begin : StoreM () := λ w s,
  if sql_fails w (ticks s) then (Err Database, tick s)
  else match saved s with
       | Some _ => (Err Database, tick s)
       | None => (Ok tt, with_saved (Some (db s)) (tick s))
       end.
Definition execute_commit : StoreM () := λ w s,
  if sql_fails w (ticks s) then (Err Database, tick s)
  else match saved s with
       | None => (Err Database, tick s)
       | Some _ => (Ok tt, with_saved None (tick s))
       end.
Definition execute_rollback : StoreM () := λ w s,
  if sql_fails w (ticks s) then (Err Database, tick s)
  else match saved s with
       | None => (Err Database, tick s)
       | Some d => (Ok tt, with_saved None (with_db d (tick s)))
       end.
Definition set_owner (f : World → option nat) : StoreM () := λ w s, (Ok tt, with_owner (f w) s).

Definition open_transaction : StoreM () :=
  lock;;
  (λ w s, match owner s with
          | Some _ => (Err (InvalidData "nested client transaction"), s)
          | None => (Ok tt, s)
          end) ;;
  execute_begin;;
  set_owner (λ w, Some (thread w)).

(** [ClientTransaction::commit]; the guard is dropped either way. *)
Definition commit_transaction : StoreM () :=
  lock;; execute_commit;; set_owner (λ _, None).

(** [ClientTransaction::drop] of a guard that is not done. *)
Definition drop_transaction (w : World) (s : Store) : Store :=
  match lock w s with
  | (Err _, s) => s
  | (Ok _, s) =>
      match execute_rollback w s with
      | (Err _, s) => with_poison s
      | (Ok _, s) => with_owner None s
      end
  end.

(** [let tx = store.transaction()?; body; tx.commit()?]. *)
Definition in_transaction {A} (body : StoreM A) : StoreM A := λ w s,
  match open_transaction w s with
  | (Err e, s) => (Err e, s)
  | (Ok _, s) =>
      match (a ← body; commit_transaction;; mret a) w s with
      | (Ok a, s) => (Ok a, s)
      | (Err e, s) => (Err e, drop_transaction w s)
      end
  end.

(** ** Parameters, keys and orders *)

(** A [u64] as a parameter: rusqlite refuses what an [i64] cannot hold. *)
Definition u64_param (z : Z) : option Z := if decide (z ≤ i64_max) then Some z else None.

(** The greatest rowid of a table, plus one. *)
Definition next_rowid (l : list Z) : Z := 1 + foldr Z.max 0 l.

Definition outbox_le (a b : OutboxRow) : Prop := outbox_rowid a ≤ outbox_rowid b.
(** [ORDER BY sequence DESC,rowid DESC]. *)
Definition latest_first (a b : HistoryRow) : Prop :=
  history_sequence b < history_sequence a ∨
  (history_sequence a = history_sequence b ∧ history_rowid b ≤ history_rowid a).
(** [ORDER BY name]: SQLite compares the UTF-8 bytes. *)
Definition name_le (a b : RoomId * (str * str)) : Prop :=
  bytes_leb (utf8 a.2.1) (utf8 b.2.1) = true.

#[global] Instance outbox_le_dec a b : Decision (outbox_le a b).
Proof. unfold outbox_le. apply _. Defined.
#[global] Instance latest_first_dec a b : Decision (latest_first a b).
Proof. unfold latest_first. apply _. Defined.
#[global] Instance name_le_dec a b : Decision (name_le a b).
Proof. unfold name_le. apply _. Defined.

(** ** Admission *)

(** A PRAGMA that is read as a number: a statement, and the world's answer. *)
Definition pragma (f : World → nat → Z) : StoreM Z := select (λ _, tt);; observe f.

Definition limit : StoreM Z := λ _ s, (Ok (new_data_limit s), s).

Definition admit_new_data (bytes : Z) : StoreM () :=
  lock;;
  size ← pragma page_size;
  pages ← pragma page_count;
  limit ← limit;
  when (limit <? saturating_add
                   (saturating_add (saturating_mul pages size) (saturating_mul bytes 3)) (64 * 1024))
    (throw Quota).

(** ** The transport identity *)

(** [ClientIdentity]: the signing key is [SigningKey::from_bytes] of the seed. *)
Record ClientIdentity := MkIdentity { user_id : UserId; seed : bytes 32 }.

Definition identity_body : StoreM ClientIdentity :=
  lock;;
  existing ← select transport_identity;
  match existing with
  | Some (id, seed) => mret (MkIdentity id seed)
  | None =>
      id ← observe random16;
      id ← from_result (ok_or (InvalidData "identity randomness failed") id);
      seed ← observe random32;
      seed ← from_result (ok_or (InvalidData "identity randomness failed") seed);
      update (λ d, match transport_identity d with
                   | Some _ => None
                   | None => Some (set_transport_identity (λ _, Some (MkUserId id, seed)) d)
                   end);;
      mret (MkIdentity (MkUserId id) seed)
  end.

Definition identity : StoreM ClientIdentity := in_transaction identity_body.

(** ** Messages *)

(** PRIMARY KEY and the index [messages_for_history], unique where [sequence > 0];
    [None] is a violation. The optional row is one the statement replaces. *)
Definition position_free (id : MessageId) (room : RoomId) (sequence : Z) (d : ClientDb) : bool :=
  bool_decide (sequence ≤ 0) ||
  forallb (λ m, bool_decide (m.1 = id) ||
                negb (bool_decide (message_room m.2 = room ∧ message_sequence m.2 = sequence)))
    (map_to_list (messages d)).

Definition message_row (m : StoredRoomMessage) (sequence : Z) : MessageRow :=
  MkMessageRow (room_id m) sequence (sender_id m) (body m).

Definition insert_message (m : StoredRoomMessage) (sequence : Z) (d : ClientDb) : option ClientDb :=
  match messages d !! message_id m with
  | Some _ => None
  | None => if position_free (message_id m) (room_id m) sequence d
            then Some (set_messages <[message_id m := message_row m sequence]> d) else None
  end.

Definition message_sequence_param (m : StoredRoomMessage) : result StoreError Z :=
  ok_or (InvalidData "message sequence out of range") (u64_param (sequence m)).

Definition store_message (m : StoredRoomMessage) : StoreM bool :=
  lock;;
  existing ← select (λ d, messages d !! message_id m);
  match existing with
  | Some row =>
      if bool_decide (message_room row = room_id m) && (message_sequence row =? sequence m)
         && bool_decide (message_sender row = sender_id m) && bool_decide (message_body row = body m)
      then mret false
      else throw (InvalidData "received event ID reused with different envelope")
  | None =>
      n ← from_result (message_sequence_param m);
      update (insert_message m n);;
      mret true
  end.

(** [ON CONFLICT(message_id) DO UPDATE SET sequence, body]. *)
Definition upsert_message (m : StoredRoomMessage) (sequence : Z) (d : ClientDb) : option ClientDb :=
  match messages d !! message_id m with
  | None => insert_message m sequence d
  | Some row =>
      if position_free (message_id m) (message_room row) sequence d
      then Some (set_messages
             <[message_id m := MkMessageRow (message_room row) sequence (message_sender row) (body m)]> d)
      else None
  end.

Definition refresh_message (m : StoredRoomMessage) : StoreM () :=
  lock;;
  n ← from_result (message_sequence_param m);
  update (upsert_message m n).

(** ** The outbox *)

Definition outbox_row (id : MessageId) (d : ClientDb) : option OutboxRow :=
  head (filter (λ r, outbox_request r = id) (outbox d)).

Definition insert_outbox (id : MessageId) (kind : str) (message : list byte) (d : ClientDb)
    : ClientDb :=
  match outbox_row id d with
  | Some _ => d
  | None => set_outbox (λ l, l ++ [MkOutboxRow (next_rowid (outbox_rowid <$> l)) id kind message]) d
  end.

Definition save_outbox (id : MessageId) (kind : str) (message : list byte) : StoreM () :=
  lock;;
  existing ← select (outbox_row id);
  when (match existing with
        | Some r => negb (bool_decide (outbox_kind r = kind)) || negb (bool_decide (outbox_message r = message))
        | None => false
        end) (throw (InvalidData "attempt ID reused with different payload"));;
  update (λ d, Some (insert_outbox id kind message d)).

Definition delete_outbox (id : MessageId) (d : ClientDb) : ClientDb :=
  set_outbox (filter (λ r, outbox_request r ≠ id)) d.

Definition remove_outbox (id : MessageId) : StoreM () :=
  lock;; update (λ d, Some (delete_outbox id d)).

Definition entry_of (r : OutboxRow) : OutboxEntry :=
  MkOutboxEntry (outbox_request r) (outbox_kind r) (outbox_message r).

Definition find_outbox (id : MessageId) : StoreM (option OutboxEntry) :=
  lock;; select (λ d, entry_of <$> outbox_row id d).

(** The loop of [outbox_page]: stepping the cursor is a statement that may fail. *)
Fixpoint outbox_entries (rows : list OutboxRow) (bytes : Z) (entries : list (Z * OutboxEntry))
    : StoreM (list (Z * OutboxEntry)) :=
  match rows with
  | [] => mret entries
  | row :: rows =>
      select (λ _, tt);;
      if negb (bool_decide (entries = [])) && (768 * 1024 <? bytes + len (outbox_message row))
      then mret entries
      else outbox_entries rows (bytes + len (outbox_message row))
             (entries ++ [(outbox_rowid row, entry_of row)])
  end.

Definition select_outbox (after : Z) (d : ClientDb) : list OutboxRow :=
  take 100 (merge_sort outbox_le (filter (λ r, after < outbox_rowid r) (outbox d))).

Definition outbox_page (after : Z) : StoreM (list (Z * OutboxEntry)) :=
  lock;;
  rows ← select (select_outbox after);
  outbox_entries rows 0 [].

(** ** Processing states *)

(** CHECK(state IN ('received','blocked','applied','rejected')). *)
Definition processing_state (text : str) : option ProcessingState :=
  if decide (text = lit "received") then Some Received
  else if decide (text = lit "blocked") then Some Blocked
  else if decide (text = lit "applied") then Some Applied
  else if decide (text = lit "rejected") then Some Rejected
  else None.

Definition set_processing_state (id : MessageId) (state : str) : StoreM () :=
  lock;;
  update (λ d, st ← processing_state state; Some (set_processing <[id := st]> d)).

Definition is_settled (id : MessageId) : StoreM bool :=
  lock;;
  select (λ d, bool_decide (processing d !! id = Some Applied ∨ processing d !! id = Some Rejected)).

(** ** Authenticated history *)

Definition insert_history (id : MessageId) (room : RoomId) (sequence : Z) (author : UserId)
    (plaintext : list byte) (d : ClientDb) : ClientDb :=
  if decide (id ∈ history_message <$> history_rows d)
  then set_history_rows (fmap (λ r,
         if decide (history_message r = id)
         then MkHistoryRow (history_rowid r) id (history_room r) sequence (history_author r) (history_plaintext r)
         else r)) d
  else set_history_rows (λ l, l ++ [MkHistoryRow (next_rowid (history_rowid <$> l)) id room sequence author plaintext]) d.

Definition record_plaintext (m : StoredRoomMessage) (author : UserId) (plaintext : list byte) : StoreM () :=
  lock;;
  update (λ d, n ← u64_param (sequence m);
               Some (insert_history (message_id m) (room_id m) n author plaintext d)).

(** [?2 IS NULL OR sequence<?2]. *)
Definition is_before (before : option Z) (n : Z) : bool :=
  match before with None => true | Some b => n <? b end.

Definition select_history (room : RoomId) (before : option Z) (d : ClientDb) : list HistoryRow :=
  take 100 (merge_sort latest_first
    (filter (λ r, history_room r = room ∧ is_before before (history_sequence r) = true) (history_rows d))).

(** [for row in rows]: one step of the cursor per row. *)
Fixpoint collect_rows {A} (rows : list A) : StoreM (list A) :=
  match rows with
  | [] => mret []
  | row :: rows => select (λ _, tt);; rows ← collect_rows rows; mret (row :: rows)
  end.

Definition authenticated_of (room : RoomId) (r : HistoryRow) : AuthenticatedMessage :=
  MkAuthenticatedMessage (history_message r) room (history_sequence r) (history_author r)
    (history_plaintext r).

Definition history (room : RoomId) (before : option Z) : StoreM (list AuthenticatedMessage) :=
  lock;;
  rows ← sql (λ d, before ← match before with None => Some None | Some b => Some <$> u64_param b end;
                   Some (select_history room before d, d));
  rows ← collect_rows rows;
  mret (rev (authenticated_of room <$> rows)).

(** ** Acknowledgements *)

(** [INSERT OR IGNORE] keeps the row there is. *)
Definition insert_ignore (x : MessageId * RoomId) (l : list (MessageId * RoomId)) :=
  if decide (x.1 ∈ l.*1) then l else l ++ [x].

Fixpoint for_each {A} (f : A → StoreM ()) (l : list A) : StoreM () :=
  match l with [] => mret tt | a :: l => f a;; for_each f l end.

Definition record_pending_acks (ids : list (MessageId * RoomId)) : StoreM () :=
  lock;; for_each (λ x, update (λ d, Some (set_pending_acks (insert_ignore x) d))) ids.
Definition clear_pending_acks (ids : list MessageId) : StoreM () :=
  lock;; for_each (λ id, update (λ d, Some (set_pending_acks (filter (λ x, x.1 ≠ id)) d))) ids.
Definition load_pending_acks : StoreM (list (MessageId * RoomId)) :=
  lock;; rows ← select pending_acks; collect_rows rows.

Definition record_pending_welcome_acks (ids : list (MessageId * RoomId)) : StoreM () :=
  lock;; for_each (λ x, update (λ d, Some (set_pending_welcome_acks (insert_ignore x) d))) ids.
Definition clear_pending_welcome_acks (ids : list MessageId) : StoreM () :=
  lock;; for_each (λ id, update (λ d, Some (set_pending_welcome_acks (filter (λ x, x.1 ≠ id)) d))) ids.
Definition load_pending_welcome_acks : StoreM (list (MessageId * RoomId)) :=
  lock;; rows ← select pending_welcome_acks; collect_rows rows.

(** ** The MLS identity and the rooms *)

Definition save_mls_identity (public secret : list byte) : StoreM () :=
  lock;;
  existing ← select mls_identity;
  when (match existing with
        | Some keys => negb (bool_decide (keys = (public, secret)))
        | None => false
        end) (throw (InvalidData "MLS identity replacement is unsupported"));;
  update (λ d, Some (set_mls_identity (λ o, Some (default (public, secret) o)) d)).

Definition load_mls_identity : StoreM (option (list byte * list byte)) :=
  lock;; select mls_identity.

Definition write_room (room : RoomId) (name origin : str) (d : ClientDb) : ClientDb :=
  set_local_rooms (λ m, <[room := (name, default origin (snd <$> m !! room))]> m) d.

Definition upsert_room (room : RoomId) (name origin : str) : StoreM () :=
  name ← from_result (map_err (InvalidData "invalid room name") (normalize_room_name name));
  lock;;
  update (λ d, Some (write_room room name origin d)).

Definition list_rooms : StoreM (list (RoomId * (str * str))) :=
  lock;; rows ← select (λ d, merge_sort name_le (map_to_list (local_rooms d))); collect_rows rows.

Definition room_name (room : RoomId) : StoreM (option str) :=
  lock;; select (λ d, fst <$> local_rooms d !! room).
