(* ===== verification/ClientContacts.v ===== *)
(** * Verified contacts

    Contact cards and the identity provider of src/crates/grotto-client/src/contacts.rs. *)
From S2P Require Import Prelude Bytes Text Protocol Identifiers Transcripts Crypto ClientStore.

(** ** Cards *)

Definition CONTACT_DOMAIN : list byte := bytes_lit "GROTTO-CONTACT-V1" ++ [x00].
Definition CARD_BYTES : nat := 145.

Record ContactCard := MkContactCard {
  card_user : UserId; transport_key : bytes 32; mls_key : bytes 32; card_signature : bytes 64 }.

#[global] Instance ContactCard_eq_dec : EqDecision ContactCard.
Proof. solve_decision. Defined.

Definition card_transcript (user : UserId) (transport_key mls_key : bytes 32) : list byte :=
  CONTACT_DOMAIN ++ user_bytes user ++ transport_key ++ mls_key.

Definition card_bytes (card : ContactCard) : list byte :=
  [x01] ++ user_bytes (card_user card) ++ transport_key card ++ mls_key card ++ card_signature card.

Definition card_encode (card : ContactCard) : str := ascii_str (hex_string (card_bytes card)).

(** [bytes[a..b].try_into().unwrap()] of the card's array. *)
Definition field (n : nat) (a : nat) (l : list byte) : option (bytes n) := to_array n (take n (drop a l)).

Definition card_fields (l : list byte) : option ContactCard :=
  user ← field 16 1 l;
  transport ← field 32 17 l;
  mls ← field 32 49 l;
  signature ← field 64 81 l;
  Some (MkContactCard (MkUserId user) transport mls signature).

Section cards.
Context `{Sha256} `{Ed25519}.

Definition card_fingerprint (card : ContactCard) : option str :=
  cert_fingerprint_sha256_hex (card_bytes card).

Definition card_signed (card : ContactCard) : bool :=
  key_from_bytes (transport_key card) &&
  verify_strict (transport_key card)
    (card_transcript (card_user card) (transport_key card) (mls_key card)) (card_signature card).

Definition card_parse (text : str) : result StoreError ContactCard :=
  if negb (str_len text =? 2 * Z.of_nat CARD_BYTES) || negb (is_ascii text)
  then Err (InvalidData "invalid contact card size")
  else
    bytes ← ok_or (InvalidData "invalid contact encoding") (parse_pairs CARD_BYTES (utf8 text));
    if negb (bool_decide (head (vec_to_list bytes) = Some x01))
    then Err (InvalidData "unsupported contact card version")
    else
      card ← ok_or (InvalidData "unwrap of a card field") (card_fields bytes);
      if card_signed card then Ok card else Err (InvalidData "invalid contact signature").

(** [INSERT INTO verified_contacts ... ON CONFLICT(user_id) DO NOTHING], with the CHECKs
    on the lengths of the key and of the card. *)
Definition insert_contact (card : ContactCard) (d : ClientDb) : option ClientDb :=
  if decide (length (card_bytes card) = CARD_BYTES) then
    Some (match contacts d !! card_user card with
          | Some _ => d
          | None => set_contacts <[card_user card := MkContactRow (mls_key card) (card_bytes card)]> d
          end)
  else None.

(** [parse_fingerprint_hex(&self.fingerprint()).unwrap()]: a panic would be [None]. *)
Definition own_fingerprint (card : ContactCard) : option (bytes 32) :=
  text ← card_fingerprint card;
  match parse_fingerprint_hex text with Ok digest => Some digest | Err _ => None end.

Definition card_import (card : ContactCard) (independent_fingerprint : str) : StoreM () :=
  given ← from_result (map_err (InvalidData "invalid fingerprint")
                        (parse_fingerprint_hex independent_fingerprint));
  own ← from_result (ok_or (InvalidData "unwrap of the fingerprint") (own_fingerprint card));
  when (negb (bool_decide (given = own)))
    (throw (InvalidData "independent contact fingerprint does not match"));;
  from_result (card_parse (card_encode card));;
  lock;;
  existing ← select (λ d, contact_card <$> contacts d !! card_user card);
  match existing with
  | Some old => when (negb (bool_decide (old = card_bytes card)))
                  (throw (InvalidData "contact keys changed; pin preserved"))
  | None =>
      admit_new_data (Z.of_nat CARD_BYTES);;
      lock;;
      update (insert_contact card)
  end.

Definition card_own `{!Ed25519Signer} : StoreM ContactCard :=
  id ← identity;
  keys ← load_mls_identity;
  keys ← from_result (ok_or (InvalidData "MLS identity missing") keys);
  mls ← from_result (ok_or (InvalidData "invalid MLS public key") (to_array 32 keys.1));
  let transport := verifying_key (seed id) in
  mret (MkContactCard (user_id id) transport mls
          (sign (seed id) (card_transcript (user_id id) transport mls))).
End cards.

(** ** [VerifiedIdentityProvider] *)

(** The parts of [mls_rs]'s [SigningIdentity] the program looks at. *)
Inductive Credential := Basic (identifier : list byte) | OtherCredential.

#[global] Instance Credential_eq_dec : EqDecision Credential.
Proof. solve_decision. Defined.

Record SigningIdentity := MkSigningIdentity { credential : Credential; signature_key : list byte }.

#[global] Instance SigningIdentity_eq_dec : EqDecision SigningIdentity.
Proof. solve_decision. Defined.

(** What [verify] decides of a table of contacts. *)
Definition pinned (who : SigningIdentity) (pins : gmap UserId ContactRow) : result StoreError (list byte) :=
  match credential who with
  | OtherCredential => Err (InvalidData "non-basic credential")
  | Basic identifier =>
      user ← ok_or (InvalidData "MLS credential must be a Grotto UserId") (to_array 16 identifier);
      match pins !! MkUserId user with
      | None => Err (InvalidData "unverified group member")
      | Some row => if decide (contact_mls_key row = signature_key who) then Ok (vec_to_list user)
                    else Err (InvalidData "MLS signing key differs from verified contact")
      end
  end.

Definition verify_identity (who : SigningIdentity) : StoreM (list byte) :=
  match credential who with
  | OtherCredential => throw (InvalidData "non-basic credential")
  | Basic identifier =>
      from_result (ok_or (InvalidData "MLS credential must be a Grotto UserId") (to_array 16 identifier));;
      lock_provider;;
      pins ← select contacts;
      from_result (pinned who pins)
  end.

Definition validate_member (who : SigningIdentity) : StoreM () := verify_identity who;; mret tt.
Definition validate_external_sender : StoreM () :=
  throw (InvalidData "external MLS senders are unsupported").
Definition valid_successor (predecessor successor : SigningIdentity) : StoreM bool :=
  verify_identity predecessor;;
  verify_identity successor;;
  mret (bool_decide (predecessor = successor)).
