(* ===== verification/ClientMls.v ===== *)
(** * MLS sessions and their storage

    [MlsStorage] (src/crates/grotto-client/src/mls_storage.rs) and [MlsSession]
    (src/crates/grotto-client/src/mls_session.rs). The MLS protocol is the [mls-rs]
    crate's: the class [Mls] holds the operations the program calls, which see the
    program's storage and identity provider through [Providers]. *)
From S2P Require Import Prelude Bytes Text Protocol Transcripts Framing Crypto ClientStore ClientContacts.

(** ** [MlsStorage] *)

Module MlsStorage.

(** [connection.is_autocommit()]. *)
Definition require_transaction : StoreM () := λ _ s,
  match saved s with
  | None => (Err (InvalidData "MLS write requires an application transaction"), s)
  | Some _ => (Ok tt, s)
  end.

Definition state (group : list byte) : StoreM (option (list byte)) :=
  lock_provider;; select (λ d, mls_groups d !! group).

Definition epoch_key (epoch : Z) : bytes 8 := default (vreplicate 8 x00) (to_array 8 (be_bytes 8 epoch)).

Definition epoch (group : list byte) (epoch : Z) : StoreM (option (list byte)) :=
  lock_provider;; select (λ d, mls_epochs d !! (group, epoch_key epoch)).

Definition write_epochs (group : list byte) : list (Z * list byte) → StoreM () :=
  for_each (λ r, update (λ d, Some (set_mls_epochs <[(group, epoch_key r.1) := r.2]> d))).

Definition write (group data : list byte) (inserts updates : list (Z * list byte)) : StoreM () :=
  lock_provider;;
  require_transaction;;
  update (λ d, Some (set_mls_groups <[group := data]> d));;
  write_epochs group (inserts ++ updates).

(** [MAX(epoch)] compares the big-endian keys. *)
Definition max_key (l : list (bytes 8)) : option (bytes 8) :=
  foldr (λ (k : bytes 8) (m : option (bytes 8)),
           match m with
           | None => Some k
           | Some m => Some (if bytes_ltb (vec_to_list m) (vec_to_list k) then k else m)
           end) None l.

Definition max_epoch_id (group : list byte) : StoreM (option Z) :=
  lock_provider;;
  key ← select (λ d, max_key ((filter (λ k, k.1 = group) (map_to_list (mls_epochs d)).*1).*2));
  mret ((λ k : bytes 8, from_be_bytes k) <$> key).

Definition delete (id : list byte) : StoreM () :=
  lock_provider;;
  require_transaction;;
  update (λ d, Some (set_mls_packages (base.delete id) d)).

(** [KeyPackageData]. *)
Record KeyPackageData := MkKeyPackageData {
  key_package_bytes : list byte; package_init_key : list byte; leaf_node_key : list byte;
  package_expiration : Z }.

Definition package_row (pkg : KeyPackageData) : PackageRow :=
  MkPackageRow (key_package_bytes pkg) (package_init_key pkg) (leaf_node_key pkg)
    (be_bytes 8 (package_expiration pkg)).

Definition insert (id : list byte) (pkg : KeyPackageData) : StoreM () :=
  lock_provider;;
  require_transaction;;
  update (λ d, match mls_packages d !! id with
               | Some _ => None
               | None => Some (set_mls_packages <[id := package_row pkg]> d)
               end).

Definition get (id : list byte) : StoreM (option KeyPackageData) :=
  lock_provider;;
  row ← select (λ d, mls_packages d !! id);
  match row with
  | None => mret None
  | Some row =>
      until ← from_result (ok_or (InvalidData "invalid package expiration") (to_array 8 (expiration row)));
      mret (Some (MkKeyPackageData (package_bytes row) (init_key row) (leaf_key row)
                    (from_be_bytes (vec_to_list until))))
  end.
End MlsStorage.

(** ** The MLS library *)

(** The program as the library sees it: the [n]-th question of one library call. *)
Record Providers := MkProviders {
  ask_identity : nat → SigningIdentity → result StoreError (list byte);
  ask_epoch : nat → list byte → Z → result StoreError (option (list byte));
  ask_max_epoch : nat → list byte → result StoreError (option Z);
  ask_package : nat → list byte → result StoreError (option MlsStorage.KeyPackageData);
}.

(** What the library writes through the storage providers. *)
Inductive StorageCall :=
| WriteGroup (group data : list byte) (inserts updates : list (Z * list byte))
| DeletePackage (id : list byte)
| InsertPackage (id : list byte) (pkg : MlsStorage.KeyPackageData).

Inductive ReceivedMessage :=
| ApplicationMessage (sender_index : Z) (authenticated_data data : list byte)
| CommitMessage (is_external : bool) (committer : Z) (authenticated_data : list byte)
| OtherMessage.

Inductive MlsError := IdentityProviderError | GroupStorageError | OtherMlsError.

(** The functions of [mls-rs] the program calls. Those that work on a group return the
    group they leave behind, after an error too; [list byte] comes first where the
    library draws random bits. *)
Class Mls := {
  Group : Type;
  MlsMessage : Type;
  message_from_bytes : list byte → option MlsMessage;
  message_to_bytes : MlsMessage → option (list byte);
  message_epoch : MlsMessage → option Z;
  as_key_package : MlsMessage → option SigningIdentity;
  group_id : Group → list byte;
  group_epoch : Group → Z;
  has_pending_commit : Group → bool;
  roster : Group → list (Z * SigningIdentity);
  group_from_snapshot : list byte → option Group;
  write_to_storage : Group → list StorageCall * Group;
  create_group_with_id : list byte → Providers → list byte → option Group;
  join_group : list byte → Providers → MlsMessage → option Group;
  generate_key_package : list byte → option (MlsMessage * list StorageCall);
  encrypt_application_message : list byte → Group → list byte → list byte → option MlsMessage * Group;
  commit_add : list byte → Providers → Group → list byte → MlsMessage →
    option (MlsMessage * list MlsMessage) * Group;
  apply_pending_commit : Providers → Group → bool * Group;
  clear_pending_commit : Group → Group;
  process_incoming_message : Providers → Group → MlsMessage → result MlsError ReceivedMessage * Group;
}.

(** ** [to_wire], [from_wire] of src/crates/grotto-mls/src/lib.rs *)

Definition to_wire `{Mls} (m : MlsMessage) : option (list byte) := message_to_bytes m.

(** Only the bytes that the message itself serialises to are accepted. *)
Definition from_wire `{Mls} (l : list byte) : option MlsMessage :=
  m ← message_from_bytes l;
  again ← to_wire m;
  if decide (again = l) then Some m else None.

(** ** The client's state and errors *)

Inductive ProcessingFault := FaultBlocked | FaultRejected.

(** The boxed errors of the service. [Refused] carries a text. *)
Inductive ClientError :=
| StoreFailed (e : StoreError)
| Fault (f : ProcessingFault)
| MlsFailed
| Refused (what : string)
| EncodeFailed
| DecodeFailed
| SignatureFailed
| RandomFailed
| IoFailed (k : ErrorKind)
| Elapsed
| ProtocolFailed (e : ProtocolError.t)
| OutOfFuel.

(** What arrives on the reader task's channel: the frame of a message, the error that
    ends the reader, or nothing within the time that the reader or the service waits. *)
Inductive Incoming := Arrived (frame : list byte) | ReaderFailed (k : ErrorKind) | Late.

(** What the service shows on the terminal, before rendering. *)
Inductive Line :=
| ContactLine (card fingerprint : str)
| ContactVerified
| ContactListed (user : UserId) (fingerprint : str)
| RoomLine (room : RoomId) (name : str)
| MessageLine (room : RoomId) (sequence : Z) (author : UserId) (plaintext : list byte)
| RoomCreatedLine (name : str) (room : RoomId)
| PublishedLine (count : Z)
| GrantLine
| JoinedLine (name : str) (room : RoomId)
| ConflictLine (room : RoomId)
| RetryLine
| RejectedLine (reason : Rejection.t)
| BlockedLine (room : RoomId)
| UnauthenticatedLine (event : MessageId).

Section session.
Context `{Mls}.

Record Client := MkClient {
  store : Store;
  groups : gmap RoomId Group;
  output : writer;
  incoming : list Incoming;
  terminal : list Line;
  blocked_rooms : Z;
  commit_conflicts : Z;
  recovery_failures : Z;
}.

Definition set_store f c := MkClient (f (store c)) (groups c) (output c) (incoming c) (terminal c) (blocked_rooms c) (commit_conflicts c) (recovery_failures c).
Definition set_groups f c := MkClient (store c) (f (groups c)) (output c) (incoming c) (terminal c) (blocked_rooms c) (commit_conflicts c) (recovery_failures c).
Definition set_output o c := MkClient (store c) (groups c) o (incoming c) (terminal c) (blocked_rooms c) (commit_conflicts c) (recovery_failures c).
Definition set_incoming i c := MkClient (store c) (groups c) (output c) i (terminal c) (blocked_rooms c) (commit_conflicts c) (recovery_failures c).
Definition show_line l c := MkClient (store c) (groups c) (output c) (incoming c) (terminal c ++ [l]) (blocked_rooms c) (commit_conflicts c) (recovery_failures c).
Definition count_blocked c := MkClient (store c) (groups c) (output c) (incoming c) (terminal c) (wrapping_add64 (blocked_rooms c) 1) (commit_conflicts c) (recovery_failures c).
Definition count_conflict c := MkClient (store c) (groups c) (output c) (incoming c) (terminal c) (blocked_rooms c) (wrapping_add64 (commit_conflicts c) 1) (recovery_failures c).
Definition count_failure c := MkClient (store c) (groups c) (output c) (incoming c) (terminal c) (blocked_rooms c) (commit_conflicts c) (wrapping_add64 (recovery_failures c) 1).

Definition ClientM (A : Type) : Type := World → Client → result ClientError A * Client.

#[global] Instance ClientM_ret : MRet ClientM := λ A a w c, (Ok a, c).
#[global] Instance ClientM_bind : MBind ClientM := λ A B f m w c,
  match m w c with
  | (Ok a, c) => f a w c
  | (Err e, c) => (Err e, c)
  end.

Definition fail {A} (e : ClientError) : ClientM A := λ _ c, (Err e, c).
Definition refuse {A} (what : string) : ClientM A := fail (Refused what).
Definition lift {A} (r : result ClientError A) : ClientM A := λ _ c, (r, c).
Definition guard (b : bool) (e : ClientError) : ClientM () := if b then mret tt else fail e.
Definition modify (f : Client → Client) : ClientM () := λ _ c, (Ok tt, f c).
Definition gets {A} (f : Client → A) : ClientM A := λ _ c, (Ok (f c), c).
Definition show (l : Line) : ClientM () := modify (show_line l).

(** A store operation and the error it boxes. *)
Definition on_store {A} (m : StoreM A) : ClientM A := λ w c,
  let '(r, s) := m w (store c) in
  (match r with Ok a => Ok a | Err e => Err (StoreFailed e) end, set_store (λ _, s) c).
(** [.map_err(|_| e)]. *)
Definition or_error {A} (e : ClientError) (m : ClientM A) : ClientM A := λ w c,
  match m w c with
  | (Ok a, c) => (Ok a, c)
  | (Err _, c) => (Err e, c)
  end.
(** The result of an operation as a value. *)
Definition attempt {A} (m : ClientM A) : ClientM (result ClientError A) := λ w c,
  let '(r, c) := m w c in (Ok r, c).

Fixpoint each {A} (f : A → ClientM ()) (l : list A) : ClientM () :=
  match l with [] => mret tt | a :: l => f a;; each f l end.

(** ** [MlsSession] *)

(** What one library call finds behind its callbacks. *)
Definition callback_world (w : World) (s : Store) (n : nat) : World :=
  MkWorld (thread w) (mutex_poisoned w) (λ _, callback_fails w (ticks s) n) (page_size w)
    (page_count w) (random16 w) (random32 w) (entropy w) (callback_fails w) (elapses w).

Definition providers (w : World) (s : Store) : Providers := {|
  ask_identity n who := (verify_identity who (callback_world w s n) s).1;
  ask_epoch n group epoch := (MlsStorage.epoch group epoch (callback_world w s n) s).1;
  ask_max_epoch n group := (MlsStorage.max_epoch_id group (callback_world w s n) s).1;
  ask_package n id := (MlsStorage.get id (callback_world w s n) s).1;
|}.

(** A library call, with its random bits and callbacks. *)
Definition call_mls {A} (f : list byte → Providers → A) : ClientM A := λ w c,
  (Ok (f (entropy w (ticks (store c))) (providers w (store c))), set_store tick c).

Definition storage_call (call : StorageCall) : StoreM () :=
  match call with
  | WriteGroup group data inserts updates => MlsStorage.write group data inserts updates
  | DeletePackage id => MlsStorage.delete id
  | InsertPackage id pkg => MlsStorage.insert id pkg
  end.

Definition clear_groups : Client → Client := set_groups (λ _, ∅).
Definition put_group (room : RoomId) (g : Group) : ClientM () := modify (set_groups <[room := g]>).

Definition atomic {A} (operation : ClientM A) : ClientM A := λ w c,
  match on_store open_transaction w c with
  | (Err e, c) => (Err e, c)
  | (Ok _, c) =>
      match (a ← operation; on_store commit_transaction;; mret a) w c with
      | (Ok a, c) => (Ok a, c)
      | (Err e, c) => (Err e, clear_groups (set_store (drop_transaction w) c))
      end
  end.

(** [provider.identity(..)] for the members of a group. *)
Definition verify_roster (g : Group) (e : ClientError) : ClientM () :=
  each (λ m, or_error e (on_store (verify_identity m.2);; mret tt)) (roster g).

(** [Client::load_group]: the stored state, decoded. *)
Definition load_group (id : list byte) : ClientM Group :=
  data ← on_store (MlsStorage.state id);
  lift (ok_or MlsFailed (data ≫= group_from_snapshot)).

Definition group_mut (room : RoomId) : ClientM Group :=
  cached ← gets (λ c, groups c !! room);
  match cached with
  | Some g => mret g
  | None =>
      n ← gets (λ c, size (groups c));
      (if (8 <=? n)%nat then modify clear_groups else mret tt);;
      g ← or_error (Refused "no local MLS group for room") (load_group (room_bytes room));
      verify_roster g (Refused "stored group contains an unverified or changed member");;
      put_group room g;;
      mret g
  end.

Definition has_group (room : RoomId) : ClientM bool :=
  r ← attempt (group_mut room);
  mret (is_ok r).

Definition persist (room : RoomId) : ClientM () :=
  g ← group_mut room;
  let '(calls, g) := write_to_storage g in
  put_group room g;;
  or_error MlsFailed (on_store (for_each storage_call calls)).

Definition create_group (room : RoomId) : ClientM Z :=
  existing ← attempt (group_mut room);
  match existing with
  | Ok g => mret (group_epoch g)
  | Err _ =>
      g ← call_mls (λ bits p, create_group_with_id bits p (room_bytes room));
      g ← lift (ok_or MlsFailed g);
      put_group room g;;
      persist room;;
      mret (group_epoch g)
  end.

Definition contains_user (room : RoomId) (user : UserId) : ClientM bool :=
  g ← group_mut room;
  mret (existsb (λ m, bool_decide (credential m.2 = Basic (user_bytes user))) (roster g)).

Definition current_epoch (room : RoomId) : ClientM Z :=
  g ← group_mut room; mret (group_epoch g).

Definition wire_bytes (m : MlsMessage) : ClientM (list byte) := lift (ok_or MlsFailed (to_wire m)).
Definition wire_message (l : list byte) : ClientM MlsMessage := lift (ok_or MlsFailed (from_wire l)).

Definition encrypt_bound (room : RoomId) (plaintext aad : list byte) : ClientM (Z * list byte) :=
  g ← group_mut room;
  guard (negb (has_pending_commit g)) (Refused "room has an unresolved commit");;
  r ← call_mls (λ bits _, encrypt_application_message bits g plaintext aad);
  put_group room r.2;;
  m ← lift (ok_or MlsFailed r.1);
  bytes ← wire_bytes m;
  persist room;;
  mret (group_epoch g, bytes).

Definition build_pending_add (room : RoomId) (package aad : list byte)
    : ClientM (Z * list byte * list byte) :=
  package ← wire_message package;
  g ← group_mut room;
  guard (negb (has_pending_commit g)) (Refused "room has an unresolved commit");;
  r ← call_mls (λ bits p, commit_add bits p g aad package);
  put_group room r.2;;
  commit ← lift (ok_or MlsFailed r.1);
  body ← wire_bytes commit.1;
  welcome ← lift (ok_or (Refused "missing Welcome") (head commit.2));
  welcome ← wire_bytes welcome;
  persist room;;
  mret (group_epoch g, body, welcome).

Definition discard_pending (room : RoomId) : ClientM () :=
  g ← group_mut room;
  put_group room (clear_pending_commit g);;
  persist room.

Definition apply_accepted_commit (room : RoomId) : ClientM () :=
  g ← group_mut room;
  r ← call_mls (λ _ p, apply_pending_commit p g);
  put_group room r.2;;
  guard r.1 MlsFailed;;
  persist room.
End session.

Arguments Client {_}.
Arguments ClientM {_} A.

Module Processed.
Inductive t :=
| Application (plaintext author : list byte)
| Commit (epoch : Z)
| Proposal (epoch : Z)
| Ignored.
End Processed.

Section processing.
Context `{Mls}.

Definition rejected : ClientError := Fault FaultRejected.
Definition blocked : ClientError := Fault FaultBlocked.

(** The errors of [process_incoming_message] as faults. *)
Definition fault_of (e : MlsError) : ClientError :=
  match e with
  | IdentityProviderError => blocked
  | GroupStorageError => MlsFailed
  | OtherMlsError => rejected
  end.

(** The sender, its authenticated data and the outcome, when the message is of the
    class its envelope names. *)
Definition classify (event : Event.t) (g : Group) (m : ReceivedMessage)
    : option (Z * list byte * Processed.t) :=
  match m, Append.content_type (Event.operation event) with
  | ApplicationMessage sender aad data, MlsContentType.Application =>
      Some (sender, aad, Processed.Application data (user_bytes (Event.sender event)))
  | CommitMessage false sender aad, MlsContentType.Commit =>
      Some (sender, aad, Processed.Commit (group_epoch g))
  | _, _ => None
  end.

Definition with_author (author : list byte) (p : Processed.t) : Processed.t :=
  match p with
  | Processed.Application plaintext _ => Processed.Application plaintext author
  | p => p
  end.

(** The identity at a leaf index. *)
Definition identity_at (index : Z) (members : list (Z * SigningIdentity)) : option SigningIdentity :=
  (list_to_map (rev members) : gmap Z SigningIdentity) !! index.

Definition basic_identifier (who : SigningIdentity) : option (list byte) :=
  match credential who with Basic identifier => Some identifier | OtherCredential => None end.

Definition process_bound (event : Event.t) : ClientM Processed.t :=
  let operation := Event.operation event in
  let room := Append.room operation in
  m ← lift (ok_or rejected (from_wire (Append.body operation)));
  guard (bool_decide (message_epoch m = Some (Append.epoch operation))) rejected;;
  g ← group_mut room;
  (if decide (message_epoch m = Some (group_epoch g)) then mret tt
   else fail (if decide (group_epoch g < Append.epoch operation) then blocked else rejected));;
  let identities := roster g in
  r ← call_mls (λ _ p, process_incoming_message p g m);
  put_group room r.2;;
  received ← lift (match r.1 with Ok a => Ok a | Err e => Err (fault_of e) end);
  outcome ← lift (ok_or rejected (classify event r.2 received));
  let '(sender, aad, outcome) := outcome in
  actual ← lift (ok_or rejected (identity_at sender identities ≫= basic_identifier));
  guard (bool_decide (actual = user_bytes (Event.sender event)) &&
         bool_decide (aad = event_authenticated_data room (Event.id event) (Append.parent operation)))
    rejected;;
  verify_roster r.2 blocked;;
  persist room;;
  mret (with_author actual outcome).

Definition join (room : RoomId) (welcome : list byte) : ClientM Z :=
  present ← has_group room;
  if (present : bool) then current_epoch room
  else
    welcome ← wire_message welcome;
    g ← call_mls (λ bits p, join_group bits p welcome);
    g ← lift (ok_or MlsFailed g);
    guard (bool_decide (group_id g = room_bytes room))
      (Refused "welcome is for a different group than the envelope claims");;
    verify_roster g (Refused "welcome contains an unverified or changed member");;
    put_group room g;;
    persist room;;
    mret (group_epoch g).

Fixpoint generate_key_packages (count : nat) : ClientM (list (list byte)) :=
  match count with
  | O => mret []
  | S count =>
      package ← call_mls (λ bits _, generate_key_package bits);
      package ← lift (ok_or MlsFailed package);
      or_error MlsFailed (on_store (for_each storage_call package.2));;
      bytes ← wire_bytes package.1;
      packages ← generate_key_packages count;
      mret (bytes :: packages)
  end.
End processing.
