(* ===== verification/ClientDelivery.v ===== *)
(** * The client's delivery engine

    [Wire] and [Engine] of src/crates/grotto-client/src/delivery.rs: journalling of
    requests, their completion, recovery of Welcomes and events, and the application of
    events, with every statement of every transaction. The peer is whatever the reader
    task hands over: [incoming] holds its messages, and a run that has used them up
    finds the relay disconnected. *)
From S2P Require Import Prelude Bytes Text Postcard Protocol Wire Identifiers Transcripts Framing.
From S2P Require Import Crypto ClientCommands ClientStore ClientContacts ClientMls.

(** [crate::disconnected()]. *)
Definition disconnected : ClientError := IoFailed ConnectionReset.

Section wire.
Context `{Postcard} `{Sha256} `{Ed25519Signer} `{Mls}.

(** ** [Wire] *)

Definition encode {A} (c : codec A) (a : A) : ClientM (list byte) :=
  lift (map_err EncodeFailed (encode_message c a)).
Definition decode {A} (c : codec A) (l : list byte) : ClientM A :=
  lift (map_err DecodeFailed (decode_message c l)).

Definition new_message_id : ClientM MessageId :=
  id ← on_store (observe random16);
  lift (ok_or RandomFailed (MkMessageId <$> id)).

(** [timeout(10 s, write_frame(..)).await??]. *)
Definition write_out (l : list byte) : ClientM () := λ w c,
  let '(r, o) := write_frame (output c) l in
  (match r with Ok _ => Ok tt | Err k => Err (IoFailed k) end, set_output o c).
Definition send (l : list byte) : ClientM () :=
  late ← on_store (observe elapses);
  guard (negb late) Elapsed;;
  write_out l.

(** [timeout(30 s, incoming.recv()).await?.ok_or_else(disconnected)??]; the reader task
    has decoded the frame. *)
Definition receive_message : ClientM RelayMessage.t := λ _ c,
  match incoming c with
  | [] => (Err disconnected, c)
  | Arrived frame :: rest =>
      (map_err DecodeFailed (decode_message c_relay_message frame), set_incoming rest c)
  | ReaderFailed k :: rest => (Err (IoFailed k), set_incoming rest c)
  | Late :: rest => (Err Elapsed, set_incoming rest c)
  end.

(** [read_client_frame]: a clean end before the first byte of a frame, or the frame. *)
Definition read_client_frame (s : stream) : result ErrorKind (option (list byte)) * stream :=
  match Framing.read 1 s with
  | (Ok [], s) => (Ok None, s)
  | (Err k, s) => (Err k, s)
  | (Ok (b :: _), s) => default (Err OtherKind, s) (read_frame (Chunk b [] :: s))
  end.

(** The reader task of [run]: what it sends, up to the first error. *)
Fixpoint reader_task (fuel : nat) (s : stream) : option (list Incoming) :=
  match fuel with
  | O => None
  | S fuel =>
      match read_client_frame s with
      | (Ok (Some frame), s) =>
          match decode_message c_relay_message frame with
          | Ok _ => (Arrived frame ::.) <$> reader_task fuel s
          | Err _ => Some [Arrived frame]
          end
      | (Ok None, _) => Some [ReaderFailed ConnectionReset]
      | (Err k, _) => Some [ReaderFailed k]
      end
  end.

(** The loop that waits for the answer; it uses up a message per turn. *)
Fixpoint await_response (fuel : nat) (id : MessageId) : ClientM Response.t :=
  match fuel with
  | O => fail OutOfFuel
  | S fuel =>
      m ← receive_message;
      match m with
      | RelayMessage.DeliveryChanged => await_response fuel id
      | RelayMessage.Delivery id' response =>
          if decide (id' = id) then mret response else refuse "unexpected V9 response"
      | _ => refuse "unexpected V9 response"
      end
  end.

Definition request (id : MessageId) (r : Request.t) : ClientM Response.t :=
  bytes ← encode c_client_message (ClientMessage.Delivery id r);
  send bytes;;
  fuel ← gets (λ c, S (length (incoming c)));
  await_response fuel id.

Definition is_retry (r : Response.t) : bool :=
  match r with
  | Response.Rejected (Rejection.Overloaded | Rejection.Internal) => true
  | _ => false
  end.

Fixpoint read_loop (fuel : nat) (id : MessageId) (r : Request.t) : ClientM Response.t :=
  match fuel with
  | O => fail OutOfFuel
  | S fuel =>
      response ← request id r;
      if is_retry response then read_loop fuel id r else mret response
  end.

Definition read (r : Request.t) : ClientM Response.t :=
  id ← new_message_id;
  fuel ← gets (λ c, S (length (incoming c)));
  read_loop fuel id r.

(** ** [Engine], its statements *)

Definition to_user_id (l : list byte) : result ClientError UserId :=
  ok_or (Refused "invalid stored user") (MkUserId <$> to_array 16 l).

Definition envelope (event : Event.t) : StoredRoomMessage :=
  let operation := Event.operation event in
  MkStoredRoomMessage (Event.id event) (Append.room operation) (Append.parent operation + 1)
    (Event.sender event) (Append.epoch operation) (Append.content_type operation)
    (Append.body operation).

(** A statement on the locked connection. *)
Definition run_sql {A} (m : StoreM A) : ClientM A := on_store (lock;; m).

Definition unresolved_rows (room : RoomId) (d : ClientDb) : list IntentRow :=
  filter (λ i, intent_room i = room ∧
    match intent_attempt i with
    | None => false
    | Some a => bool_decide (a ∈ outbox_request <$> outbox d) &&
                negb (bool_decide (a ∈ inbox_event <$> inbox d))
    end = true) (intents d).

Definition unresolved (room : RoomId) : ClientM bool :=
  run_sql (select (λ d, negb (bool_decide (unresolved_rows room d = [])))).

Definition cursor_of (room : RoomId) (d : ClientDb) : Z := default 0 (cursors d !! room).

Definition cursor (room : RoomId) : ClientM Z := run_sql (select (cursor_of room)).

Definition is_acknowledgement (r : Request.t) : bool :=
  match r with Request.Acknowledge _ _ => true | _ => false end.

Definition journal (id : MessageId) (r : Request.t) : ClientM () :=
  (if is_acknowledgement r then mret tt
   else bytes ← encode c_request r; on_store (admit_new_data (len bytes)));;
  bytes ← encode c_client_message (ClientMessage.Delivery id r);
  on_store (save_outbox id (lit "Delivery") bytes).

(** [bytes.iter().map(|b| format!("{b:02x}")).collect()] and [ContactCard::parse]. *)
Definition parse_stored_card (l : list byte) : ClientM ContactCard :=
  on_store (from_result (card_parse (ascii_str (hex_string l)))).

Definition require_contact (user : UserId) : ClientM ContactCard :=
  bytes ← run_sql (sql (λ d, row ← contacts d !! user; Some (contact_card row, d)));
  parse_stored_card bytes.

(** PRIMARY KEY(id) and UNIQUE(room). *)
Definition insert_intent (id : MessageId) (room : RoomId) (target : option UserId)
    (plaintext : option (list byte)) (d : ClientDb) : option ClientDb :=
  if decide (Exists (λ i, intent_id i = id ∨ intent_room i = room) (intents d)) then None
  else Some (set_intents (λ l, l ++ [MkIntentRow id room target plaintext None None]) d).

Definition intent (room : RoomId) (target : option UserId) (plaintext : option (list byte)) : ClientM () :=
  on_store (admit_new_data (match plaintext with None => 16 | Some l => len l end));;
  present ← has_group room;
  guard present (Refused "no verified MLS group for room");;
  on_store lock;;
  id ← new_message_id;
  on_store (update (insert_intent id room target plaintext)).

Definition show_fingerprint (card : ContactCard) : ClientM str :=
  lift (ok_or (Refused "unwrap of the fingerprint") (card_fingerprint card)).

(** [ORDER BY user_id]. *)
Definition user_le (a b : UserId * ContactRow) : Prop :=
  bytes_leb (user_bytes a.1) (user_bytes b.1) = true.
#[local] Instance user_le_dec a b : Decision (user_le a b).
Proof. unfold user_le. apply _. Defined.

Definition list_contacts : ClientM () :=
  rows ← run_sql (select (λ d, merge_sort user_le (map_to_list (contacts d))));
  each (λ row,
    on_store (select (λ _, tt));;
    card ← parse_stored_card (contact_card row.2);
    fingerprint ← show_fingerprint card;
    show (ContactListed (card_user card) fingerprint)) rows.

Definition command (command : UserCommand.t) : ClientM () :=
  match command with
  | UserCommand.ContactExport =>
      card ← on_store card_own;
      fingerprint ← show_fingerprint card;
      show (ContactLine (card_encode card) fingerprint)
  | UserCommand.ContactImport card fingerprint =>
      card ← on_store (from_result (card_parse card));
      on_store (card_import card fingerprint);;
      show ContactVerified
  | UserCommand.ListContacts => list_contacts
  | UserCommand.ListRooms =>
      rooms ← on_store list_rooms;
      each (λ r, show (RoomLine r.1 r.2.1)) rooms
  | UserCommand.FetchRoomHistory room before =>
      messages ← on_store (history room before);
      each (λ m, show (MessageLine (authenticated_room m) (authenticated_sequence m) (author m)
                         (plaintext m))) messages
  | UserCommand.CreateRoom name =>
      id ← new_message_id;
      journal id (Request.CreateRoom name)
  | UserCommand.PublishKeyPackages count =>
      id ← new_message_id;
      atomic (
        packages ← generate_key_packages count;
        journal id (Request.PublishKeyPackages packages))
  | UserCommand.AddToRoom room user =>
      require_contact user;;
      intent room (Some user) None
  | UserCommand.SendRoomMessage room body => intent room None (Some body)
  | UserCommand.SyncWelcomes => mret tt
  | UserCommand.SetFetchGrant requester allowed =>
      require_contact requester;;
      id ← new_message_id;
      journal id (Request.SetFetchGrant requester allowed)
  end.

(** ** [complete] *)

(** [let tx = store.transaction()?; ..; tx.commit()?] around statements of the engine. *)
Definition transact {A} (body : ClientM A) : ClientM A := λ w c,
  match on_store open_transaction w c with
  | (Err e, c) => (Err e, c)
  | (Ok _, c) =>
      match (a ← body; on_store commit_transaction;; mret a) w c with
      | (Ok a, c) => (Ok a, c)
      | (Err e, c) => (Err e, set_store (drop_transaction w) c)
      end
  end.

(** [INSERT OR IGNORE INTO delivery_cursors VALUES(?1,0)]. *)
Definition ensure_cursor (room : RoomId) (d : ClientDb) : ClientDb :=
  set_cursors (λ m, <[room := default 0 (m !! room)]> m) d.

Definition complete_create (id : MessageId) (name : str) (room : RoomId) : ClientM () :=
  atomic (
    create_group room;;
    on_store (upsert_room room name (lit "created"));;
    run_sql (update (λ d, Some (ensure_cursor room d)));;
    on_store (remove_outbox id));;
  show (RoomCreatedLine name room).

(** [UPDATE delivery_intents SET package=?1,attempt=NULL WHERE attempt=?2 AND target=?3]
    and the number of rows it changed. *)
Definition reserved_for (id : MessageId) (recipient : UserId) (i : IntentRow) : bool :=
  bool_decide (intent_attempt i = Some id) && bool_decide (intent_target i = Some recipient).
Definition store_package (id : MessageId) (recipient : UserId) (package : list byte) (d : ClientDb)
    : Z * ClientDb :=
  (len (filter (λ i, reserved_for id recipient i = true) (intents d)),
   set_intents (fmap (λ i, if reserved_for id recipient i
     then MkIntentRow (intent_id i) (intent_room i) (intent_target i) (intent_plaintext i) (Some package) None
     else i)) d).

Definition complete_reservation (id : MessageId) (recipient : UserId) (package : list byte) : ClientM () :=
  m ← wire_message package;
  who ← lift (ok_or (Refused "response is not a KeyPackage") (as_key_package m));
  actual ← on_store (verify_identity who);
  guard (bool_decide (actual = vec_to_list (user_bytes recipient))) (Refused "KeyPackage target mismatch");;
  transact (
    changed ← run_sql (sql (λ d, Some (store_package id recipient package d)));
    guard (changed =? 1) (Refused "reservation has no matching durable target");;
    on_store (remove_outbox id)).

(** [DELETE FROM authenticated_history WHERE message_id=?1]. *)
Definition delete_history (id : MessageId) (d : ClientDb) : ClientDb :=
  set_history_rows (filter (λ r, history_message r ≠ id)) d.
(** [UPDATE delivery_intents SET attempt=NULL WHERE attempt=?1]. *)
Definition release_attempt (id : MessageId) (d : ClientDb) : ClientDb :=
  set_intents (fmap (λ i, if decide (intent_attempt i = Some id)
    then MkIntentRow (intent_id i) (intent_room i) (intent_target i) (intent_plaintext i) (intent_package i) None
    else i)) d.
(** [DELETE FROM delivery_intents WHERE attempt=?1]. *)
Definition delete_intent (id : MessageId) (d : ClientDb) : ClientDb :=
  set_intents (filter (λ i, intent_attempt i ≠ Some id)) d.

Definition is_commit (operation : Append.t) : bool :=
  bool_decide (Append.content_type operation = MlsContentType.Commit).

Definition complete_conflict (id : MessageId) (operation : Append.t) (room : RoomId) : ClientM () :=
  atomic (
    (if is_commit operation then discard_pending room else mret tt);;
    on_store (remove_outbox id);;
    run_sql (update (λ d, Some (delete_history id d)));;
    run_sql (update (λ d, Some (release_attempt id d))));;
  modify count_conflict;;
  show (ConflictLine room).

Definition complete_rejected (id : MessageId) (r : Request.t) (reason : Rejection.t) : ClientM () :=
  atomic (
    match r with
    | Request.AppendRoomOperation operation =>
        if is_commit operation then discard_pending (Append.room operation) else mret tt
    | _ => mret tt
    end;;
    run_sql (update (λ d, Some (delete_intent id d)));;
    on_store (remove_outbox id));;
  show (RejectedLine reason).

(** ** [receive] *)

Definition received_rows (id : MessageId) (room : RoomId) (sequence : Z) (d : ClientDb) : list InboxRow :=
  filter (λ r, inbox_event r = id ∨ (inbox_room r = room ∧ inbox_sequence r = sequence)) (inbox d).

(** PRIMARY KEY(event_id) and UNIQUE(room,sequence). *)
Definition insert_inbox (id : MessageId) (room : RoomId) (sequence : Z) (record : list byte) (d : ClientDb)
    : option ClientDb :=
  match received_rows id room sequence d with
  | _ :: _ => None
  | [] => Some (set_inbox (λ l, l ++ [MkInboxRow id room sequence record Received]) d)
  end.

(** [event.sequence().filter(|s| *s <= i64::MAX)]. *)
Definition event_position (event : Event.t) : option Z := n ← Event.sequence event; u64_param n.

Definition receive (event : Event.t) : ClientM () :=
  let room := Append.room (Event.operation event) in
  n ← lift (ok_or (Refused "invalid event sequence") (event_position event));
  bytes ← encode c_event event;
  existing ← run_sql (select (λ d, inbox_record <$> head (received_rows (Event.id event) room n d)));
  match existing with
  | Some record => guard (bool_decide (record = bytes)) (Refused "relay equivocated about an event")
  | None =>
      on_store (admit_new_data (len bytes));;
      run_sql (update (insert_inbox (Event.id event) room n bytes))
  end.

Definition mismatch : ClientM () := refuse "response differs from durable operation".

Definition complete (user : UserId) (id : MessageId) (r : Request.t) (response : Response.t) : ClientM () :=
  match r, response with
  | _, Response.Rejected (Rejection.Overloaded | Rejection.Quota | Rejection.Internal) => show RetryLine
  | _, Response.Rejected reason => complete_rejected id r reason
  | Request.CreateRoom name, Response.RoomCreated room => complete_create id name room
  | Request.PublishKeyPackages packages, Response.KeyPackagesPublished count =>
      if count =? len packages then on_store (remove_outbox id);; show (PublishedLine count) else mismatch
  | Request.SetFetchGrant _ _, Response.FetchGrantSet => on_store (remove_outbox id);; show GrantLine
  | Request.ReserveKeyPackage recipient, Response.KeyPackage actual package =>
      if decide (recipient = actual) then complete_reservation id recipient package else mismatch
  | Request.AppendRoomOperation operation, Response.AppendAccepted event =>
      if bool_decide (Event.id event = id) && bool_decide (Event.sender event = user)
         && bool_decide (Event.operation event = operation)
      then receive event else mismatch
  | Request.AppendRoomOperation operation, Response.HeadConflict room head =>
      if bool_decide (room = Append.room operation) && negb (head =? Append.parent operation)
      then complete_conflict id operation room else mismatch
  | Request.Acknowledge _ _, Response.Acknowledged => on_store (remove_outbox id)
  | _, _ => mismatch
  end.
End wire.
