(* ===== verification/ClientConnect.v ===== *)
(** * The client's connection

    [connect], [retryable], the delays of [run_inner] and its start-up, and the relay's
    pin file ([tls::ensure_pinned]) of src/crates/grotto-client/src/lib.rs. The TLS
    stream is a reader and a writer; time limits are failures of either. *)
From S2P Require Import Prelude Bytes Text Postcard Protocol Wire Identifiers Transcripts Framing.
From S2P Require Import Crypto PrivateFiles ClientCommands ClientStore ClientContacts ClientMls ClientDelivery.

(** ** The handshake *)

Record Socket := MkSocket { socket_in : stream; socket_out : writer }.

Definition SocketM (A : Type) : Type := Socket → result ClientError A * Socket.

#[global] Instance SocketM_ret : MRet SocketM := λ A a s, (Ok a, s).
#[global] Instance SocketM_bind : MBind SocketM := λ A B f m s,
  match m s with
  | (Ok a, s) => f a s
  | (Err e, s) => (Err e, s)
  end.

Definition quit_with {A} (e : ClientError) : SocketM A := λ s, (Err e, s).
Definition from_outcome {A} (r : result ClientError A) : SocketM A := λ s, (r, s).

Section connect.
Context `{Postcard} `{Ed25519Signer}.

Definition write_socket (l : list byte) : SocketM () := λ s,
  let '(r, o) := write_frame (socket_out s) l in
  (match r with Ok _ => Ok tt | Err k => Err (IoFailed k) end, MkSocket (socket_in s) o).

(** [read_frame(&mut socket).await?] and the end of the stream. [read_frame] has enough
    fuel on every stream. *)
Definition read_socket : SocketM (list byte) := λ s,
  let '(r, i) := default (Err OtherKind, socket_in s) (read_frame (socket_in s)) in
  (match r with
   | Ok (Some frame) => Ok frame
   | Ok None => Err disconnected
   | Err k => Err (IoFailed k)
   end, MkSocket i (socket_out s)).

(** [encode_message(&m)?] and [write_frame(&mut socket, &encoded).await?]. *)
Definition write_message (m : ClientMessage.t) : SocketM () :=
  encoded ← from_outcome (map_err EncodeFailed (encode_message c_client_message m));
  write_socket encoded.

(** A frame and [decode_message(&response)?]. *)
Definition read_message : SocketM RelayMessage.t :=
  frame ← read_socket;
  from_outcome (map_err DecodeFailed (decode_message c_relay_message frame)).

Definition exchange_hello : SocketM () :=
  write_message (ClientMessage.ClientHello PROTOCOL_VERSION);;
  response ← read_message;
  match response with
  | RelayMessage.ServerHello version =>
      if decide (version = PROTOCOL_VERSION) then mret tt else quit_with (Refused "unsupported protocol version")
  | RelayMessage.ProtocolError _ error => quit_with (ProtocolFailed error)
  | _ => quit_with (Refused "unexpected handshake message")
  end.

(** [GROTTO_ENROLLMENT_TOKEN]. *)
Definition enrollment_of (variable : option str) : result ClientError (option (bytes 32)) :=
  match variable with
  | None => Ok None
  | Some text => match parse_fingerprint_hex text with
                 | Ok token => Ok (Some token)
                 | Err _ => Err (Refused "invalid enrollment token")
                 end
  end.

Definition exchange_identity (user : UserId) (key : Ed25519PublicKeyBytes) (enrollment : option (bytes 32))
    : SocketM AuthenticationChallenge :=
  write_message (ClientMessage.ClientIdentify user key enrollment);;
  response ← read_message;
  match response with
  | RelayMessage.ServerAuthenticationChallenge challenge => mret challenge
  | RelayMessage.ProtocolError _ error => quit_with (ProtocolFailed error)
  | _ => quit_with (Refused "expected ServerAuthenticationChallenge")
  end.

Definition exchange_signature (user : UserId) (signature : Ed25519SignatureBytes) : SocketM () :=
  write_message (ClientMessage.ClientAuthenticationResponse signature);;
  response ← read_message;
  match response with
  | RelayMessage.ServerIdentifyAccepted accepted =>
      if decide (accepted = user) then mret tt else quit_with (Refused "relay acknowledged wrong user ID")
  | RelayMessage.ProtocolError _ error => quit_with (ProtocolFailed error)
  | _ => quit_with (Refused "unexpected identity response")
  end.

Definition public_key_of (id : ClientIdentity) : Ed25519PublicKeyBytes := MkPublicKey (verifying_key (seed id)).

Definition connect (id : ClientIdentity) (token : option str) : SocketM () :=
  exchange_hello;;
  enrollment ← from_outcome (enrollment_of token);
  challenge ← exchange_identity (user_id id) (public_key_of id) enrollment;
  transcript ← from_outcome (ok_or (Refused "slice lengths of the transcript")
    (authentication_transcript PROTOCOL_VERSION (user_id id) (public_key_of id) challenge));
  exchange_signature (user_id id) (MkSignature (sign (seed id) transcript)).
End connect.

(** ** Reconnecting *)

Definition retryable (e : ClientError) : bool :=
  match e with
  | Elapsed => true
  | IoFailed (ConnectionReset | ConnectionRefused | ConnectionAborted | TimedOut | BrokenPipe
              | UnexpectedEof | NotConnected) => true
  | _ => false
  end.

(** After a lost connection: the wait in milliseconds and the next delay in seconds. The
    delay starts over after a session of more than half a minute; [jitter] is a random
    byte; the sums are of [u64], where an overflow panics. *)
Definition backoff (delay elapsed_nanos : Z) (jitter : byte) : option (Z * Z) :=
  let delay := if 30 * 1000000000 <? elapsed_nanos then 1 else delay in
  let millis := delay * 1000 + b2z jitter * delay * 2 in
  if decide (millis ≤ u64_max) then Some (Z.min millis 30000, Z.min (delay * 2) 30) else None.

(** ** [run_inner] up to the first connection *)

Section startup.
Context `{Postcard} `{Sha256} `{Ed25519Signer} `{Mls}.
(** [generate_key_material] of src/crates/grotto-mls/src/lib.rs: public and secret key. *)
Variable generate_key_material : list byte → option (list byte * list byte).

Definition load_or_create_keys : ClientM (list byte * list byte) :=
  existing ← on_store load_mls_identity;
  match existing with
  | Some keys => mret keys
  | None =>
      keys ← call_mls (λ bits _, generate_key_material bits);
      keys ← lift (ok_or MlsFailed keys);
      on_store (save_mls_identity keys.1 keys.2);;
      mret keys
  end.

(** [mls_path]: the variable [GROTTO_MLS_DB_PATH] is set. *)
Definition startup (mls_path : bool) : ClientM (ClientIdentity * ContactCard) :=
  id ← on_store identity;
  load_or_create_keys;;
  (if mls_path then refuse "separate MLS databases are unsupported" else mret tt);;
  card ← on_store card_own;
  fingerprint ← show_fingerprint card;
  on_store (card_import card fingerprint);;
  mret (id, card).

(** [--contact-export] and [--contact-import]; whether the service follows. *)
Definition offline (card : ContactCard) (arguments : list str) : ClientM bool :=
  match arguments with
  | [] => mret true
  | [option] =>
      if decide (option = lit "--contact-export") then
        fingerprint ← show_fingerprint card;
        show (ContactLine (card_encode card) fingerprint);;
        mret false
      else refuse "invalid arguments"
  | [option; text; fingerprint] =>
      if decide (option = lit "--contact-import") then
        contact ← on_store (from_result (card_parse text));
        on_store (card_import contact fingerprint);;
        show ContactVerified;;
        mret false
      else refuse "invalid arguments"
  | _ => refuse "invalid arguments"
  end.
End startup.

(** ** The pin file *)

(** [str::lines]: the line feed and a carriage return before it are no part of a line. *)
Definition strip_cr (line : str) : str :=
  match rev line with
  | c :: r => if code c =? 13 then rev r else line
  | [] => line
  end.
Fixpoint lines_from (line : str) (s : str) : list str :=
  match s with
  | [] => match line with [] => [] | _ => [line] end
  | c :: s => if code c =? 10 then strip_cr line :: lines_from [] s else lines_from (line ++ [c]) s
  end.
Definition lines (s : str) : list str := lines_from [] s.

Definition newline : char := Char 10 I.

Inductive PinError := PinTooLarge | PinNotUtf8 | PinIncomplete | PinMalformed | PinMismatch | PinIo.

Definition pin_line_ok (line : str) : bool :=
  match split_whitespace line with
  | [_; pinned] => is_ok (parse_fingerprint_hex pinned)
  | _ => false
  end.

(** The pin of the first line for the address. *)
Fixpoint find_pin (addr : str) (l : list str) : option (option str) :=
  match l with
  | [] => None
  | line :: l =>
      match split_whitespace line with
      | first :: rest => if decide (first = addr) then Some (head rest) else find_pin addr l
      | [] => find_pin addr l
      end
  end.

(** What the file system can do: refuse to open or read the file, or fail after it has
    written [n] bytes. *)
Inductive PinFault := ReadFails | WriteFails (n : nat).

#[global] Instance PinFault_eq_dec : EqDecision PinFault.
Proof. solve_decision. Defined.

(** The result and the bytes of the file afterwards. *)
Definition ensure_pinned (fault : option PinFault) (file : list byte) (addr fingerprint : str)
    : result PinError bool * list byte :=
  if decide (fault = Some ReadFails) then (Err PinIo, file) else
  if decide (len file > 64 * 1024) then (Err PinTooLarge, file) else
  match from_utf8 file with
  | None => (Err PinNotUtf8, file)
  | Some existing =>
      if negb (bool_decide (existing = [])) && negb (bool_decide (last existing = Some newline))
      then (Err PinIncomplete, file)
      else if negb (forallb pin_line_ok (lines existing)) then (Err PinMalformed, file)
      else match find_pin addr (lines existing) with
      | Some (Some pinned) =>
          (if decide (pinned = fingerprint) then Ok false else Err PinMismatch, file)
      | Some None => (Err PinMismatch, file)
      | None =>
          let line := addr ++ lit " " ++ fingerprint ++ [newline] in
          if decide (str_len existing + str_len line > 64 * 1024) then (Err PinTooLarge, file)
          else match fault with
          | Some (WriteFails n) => (Err PinIo, file ++ take n (utf8 line))
          | _ => (Ok true, file ++ utf8 line)
          end
      end
  end.

(** ** The relay's certificate *)

(** [FingerprintVerifier]: its state is the certificate of the last [verify_server_cert];
    no call refuses anything. *)
Definition verify_server_cert {TlsError} (end_entity : list byte) (captured : option (list byte))
    : result TlsError (option (list byte)) := Ok (Some end_entity).
Definition verify_tls12_signature {TlsError} (message cert dss : list byte) : result TlsError unit := Ok tt.
Definition verify_tls13_signature {TlsError} (message cert dss : list byte) : result TlsError unit := Ok tt.
Definition take_captured (captured : option (list byte)) : option (list byte) * option (list byte) := (captured, None).

(** What rustls asks its verifier in the course of a handshake: about the certificate of
    the peer, and about the peer's signature over the handshake, which shows that it has
    the key of that certificate. A refusal ends the handshake. *)
Inductive VerifierCall :=
| ServerCert (end_entity : list byte)
| Tls12Signature (message cert dss : list byte)
| Tls13Signature (message cert dss : list byte).
Definition verifier_call {TlsError} (captured : option (list byte)) (call : VerifierCall)
    : result TlsError (option (list byte)) :=
  match call with
  | ServerCert end_entity => verify_server_cert end_entity captured
  | Tls12Signature message cert dss => _ ← verify_tls12_signature message cert dss; mret captured
  | Tls13Signature message cert dss => _ ← verify_tls13_signature message cert dss; mret captured
  end.
Fixpoint verifier_calls {TlsError} (captured : option (list byte)) (calls : list VerifierCall)
    : result TlsError (option (list byte)) :=
  match calls with
  | [] => mret captured
  | call :: calls => captured ← verifier_call captured call; verifier_calls captured calls
  end.

(** [address.rsplit_once(':')], without the brackets. *)
Definition bracket_char (c : char) : bool := (code c =? 91) || (code c =? 93).
Fixpoint drop_brackets (s : str) : str :=
  match s with c :: r => if bracket_char c then drop_brackets r else s | [] => [] end.
Fixpoint before_last_colon (s : str) : option str :=
  match s with
  | [] => None
  | c :: r =>
      match before_last_colon r with
      | Some h => Some (c :: h)
      | None => if code c =? 58 then Some [] else None
      end
  end.
Definition host_of (address : str) : str :=
  let host := default address (before_last_colon address) in
  rev (drop_brackets (rev (drop_brackets host))).

Inductive TlsFailure :=
| InvalidHostname
| TransportFailed (k : ErrorKind)
| NoCertificate
| CertificatePanic
| InvalidPin
| PinDiffers
| NoPinFile
| PinFailed (e : PinError).

(** The files next to the client's identity. *)
Definition default_identity_directory (vars : PathVars) : option Path := data_directory vars (lit "grotto").
Definition default_store_path (vars : PathVars) : option Path :=
  (λ directory, path_join directory (lit "client.db")) <$> default_identity_directory vars.
Definition pin_file (vars : PathVars) : option Path :=
  match vars "GROTTO_RELAY_PIN_PATH" with
  | Some path => Some path
  | None => (λ directory, path_join directory (lit "relay_pins")) <$> default_identity_directory vars
  end.

Section tls.
Context `{Sha256}.
(** [char::to_lowercase], and which hosts are names or addresses for rustls. *)
Variable lowercase_of : char → str.
Variable server_name : str → bool.

Definition to_lowercase (s : str) : str := s ≫= lowercase_of.

(** [tls::connect]: [handshake] is what the transport comes to, with the calls of the
    verifier in its course; [variable] is [GROTTO_RELAY_FINGERPRINT]; [pins] are the bytes of the pin file. *)
Definition tls_connect (variable : option str) (vars : PathVars) (relay_address : str)
    (handshake : result ErrorKind (list VerifierCall)) (fault : option PinFault) (pins : list byte)
    : result TlsFailure (str * bool) * list byte :=
  if negb (server_name (host_of relay_address)) then (Err InvalidHostname, pins) else
  match calls ← handshake; verifier_calls None calls with
  | Err k => (Err (TransportFailed k), pins)
  | Ok captured =>
      match (take_captured captured).1 with
      | None => (Err NoCertificate, pins)
      | Some presented =>
          match cert_fingerprint_sha256_hex presented with
          | None => (Err CertificatePanic, pins)
          | Some fingerprint =>
              match variable with
              | Some pinned =>
                  let pinned := to_lowercase (trim pinned) in
                  if negb (is_ok (parse_fingerprint_hex pinned)) then (Err InvalidPin, pins)
                  else if decide (pinned ≠ fingerprint) then (Err PinDiffers, pins)
                  else (Ok (fingerprint, false), pins)
              | None =>
                  match pin_file vars with
                  | None => (Err NoPinFile, pins)
                  | Some _ =>
                      let '(r, pins) := ensure_pinned fault pins relay_address fingerprint in
                      (match r with Ok newly_pinned => Ok (fingerprint, newly_pinned) | Err e => Err (PinFailed e) end, pins)
                  end
              end
          end
      end
  end.
End tls.
