(* ===== verification/ClientSync.v ===== *)
(** * The client's synchronisation

    The second half of [Engine] (src/crates/grotto-client/src/delivery.rs): building
    attempts from intents, recovering Welcomes and room events, applying events, and the
    loop of [drive]. *)
From S2P Require Import Prelude Bytes Text Postcard Protocol Wire Identifiers Transcripts Framing.
From S2P Require Import Crypto ClientCommands ClientStore ClientContacts ClientMls ClientDelivery.

Section engine.
Context `{Postcard} `{Sha256} `{Ed25519Signer} `{Mls}.
Variable user : UserId.

(** ** [finish_event] and [apply_event] *)

Definition mark_event (id : MessageId) (state : ProcessingState) (d : ClientDb) : ClientDb :=
  set_inbox (fmap (λ r, if decide (inbox_event r = id)
    then MkInboxRow (inbox_event r) (inbox_room r) (inbox_sequence r) (inbox_record r) state
    else r)) d.

(** [INSERT INTO delivery_cursors ... ON CONFLICT(room) DO UPDATE SET sequence]. *)
Definition write_cursor (room : RoomId) (sequence : Z) (d : ClientDb) : option ClientDb :=
  n ← u64_param sequence; Some (set_cursors <[room := n]> d).

Definition acknowledge_events (events : list MessageId) (welcomes : list Z) : ClientM () :=
  journal (acknowledgement_id user events welcomes) (Request.Acknowledge events welcomes).

Definition finish_event (event : Event.t) (state : ProcessingState) : ClientM () :=
  let operation := Event.operation event in
  run_sql (update (λ d, Some (mark_event (Event.id event) state d)));;
  run_sql (update (write_cursor (Append.room operation) (Append.parent operation + 1)));;
  acknowledge_events [Event.id event] [].

(** [UPDATE authenticated_history SET sequence=?1 WHERE message_id=?2]. *)
Definition settle_history (id : MessageId) (sequence : Z) (d : ClientDb) : option ClientDb :=
  n ← u64_param sequence;
  Some (set_history_rows (fmap (λ r, if decide (history_message r = id)
    then MkHistoryRow (history_rowid r) id (history_room r) n (history_author r) (history_plaintext r)
    else r)) d).

(** The own event: the exact attempt is settled. *)
Definition apply_own (event : Event.t) (own : option OutboxEntry) : ClientM () :=
  entry ← lift (ok_or (Refused "own event has no exact durable attempt") own);
  m ← decode c_client_message (message entry);
  match m with
  | ClientMessage.Delivery id (Request.AppendRoomOperation operation) =>
      guard (bool_decide (id = Event.id event) && bool_decide (operation = Event.operation event))
        (Refused "own event differs from exact attempt");;
      (if is_commit operation then apply_accepted_commit (Append.room operation) else mret tt);;
      on_store (remove_outbox (Event.id event));;
      run_sql (update (λ d, Some (delete_intent (Event.id event) d)));;
      run_sql (update (settle_history (Event.id event) (Append.parent (Event.operation event) + 1)))
  | _ => refuse "invalid own attempt"
  end.

(** Somebody else's event: what MLS authenticated is recorded. *)
Definition apply_other (event : Event.t) : ClientM (option (UserId * list byte)) :=
  processed ← process_bound event;
  match processed with
  | Processed.Application plaintext author =>
      author ← lift (to_user_id author);
      on_store (record_plaintext (envelope event) author plaintext);;
      mret (Some (author, plaintext))
  | _ => mret None
  end.

Definition apply_body (event : Event.t) (own : option OutboxEntry) : ClientM (option (UserId * list byte)) :=
  plaintext ← (if decide (Event.sender event = user) then apply_own event own;; mret None
               else apply_other event);
  finish_event event Applied;;
  mret plaintext.

(** What is shown of an applied event. *)
Definition show_applied (event : Event.t) (plaintext : option (UserId * list byte)) : ClientM () :=
  let operation := Event.operation event in
  let room := Append.room operation in
  match plaintext with
  | Some (author, plaintext) => show (MessageLine room (Append.parent operation + 1) author plaintext)
  | None =>
      if bool_decide (Event.sender event = user)
         && bool_decide (Append.content_type operation = MlsContentType.Application)
      then
        messages ← on_store (history room None);
        match find (λ m, bool_decide (authenticated_id m = Event.id event)) messages with
        | Some m => show (MessageLine room (authenticated_sequence m) user (ClientStore.plaintext m))
        | None => mret tt
        end
      else mret tt
  end.

Definition apply_event (event : Event.t) : ClientM bool :=
  let operation := Event.operation event in
  let room := Append.room operation in
  at_ ← cursor room;
  guard (at_ =? Append.parent operation) (Refused "attempted noncontiguous MLS processing");;
  own ← on_store (find_outbox (Event.id event));
  result ← attempt (atomic (apply_body event own));
  match result with
  | Ok plaintext => show_applied event plaintext;; mret true
  | Err (Fault FaultBlocked) =>
      run_sql (update (λ d, Some (mark_event (Event.id event) Blocked d)));;
      modify count_blocked;;
      show (BlockedLine room);;
      mret false
  | Err (Fault FaultRejected) =>
      transact (finish_event event Rejected);;
      show (UnauthenticatedLine (Event.id event));;
      mret true
  | Err error => fail error
  end.

(** ** [process_welcomes] *)

Definition welcome_le (a b : WelcomeInboxRow) : Prop := inbox_cursor a ≤ inbox_cursor b.
#[local] Instance welcome_le_dec a b : Decision (welcome_le a b).
Proof. unfold welcome_le. apply _. Defined.

(** [WHERE cursor>?1 AND state IN ('received','blocked') ORDER BY cursor LIMIT 1]. *)
Definition next_welcome (after : Z) (d : ClientDb) : option WelcomeInboxRow :=
  head (merge_sort welcome_le (filter (λ r, after < inbox_cursor r ∧
    (welcome_state r = Received ∨ welcome_state r = Blocked)) (welcomes d))).

Definition mark_welcome (cursor : Z) (state : ProcessingState) (d : ClientDb) : ClientDb :=
  set_welcomes (fmap (λ r, if decide (inbox_cursor r = cursor)
    then MkWelcomeInboxRow cursor (welcome_bytes r) state else r)) d.

(** The signature of the inviter, a verified contact, over this Welcome. *)
Definition verify_welcome (welcome : WelcomeDelivery.t) : ClientM () :=
  guard (negb (WelcomeDelivery.sequence welcome =? 0) && (WelcomeDelivery.sequence welcome <=? i64_max))
    (Refused "invalid Welcome boundary");;
  card ← require_contact (WelcomeDelivery.inviter welcome);
  guard (key_from_bytes (transport_key card)) SignatureFailed;;
  guard (verify_strict (transport_key card)
           (welcome_transcript user (WelcomeDelivery.room welcome) (WelcomeDelivery.event welcome)
              (WelcomeDelivery.sequence welcome)
              (WelcomeAttachment.body (WelcomeDelivery.attachment welcome)))
           (signature_bytes (WelcomeAttachment.signature (WelcomeDelivery.attachment welcome))))
    SignatureFailed.

(** [INSERT INTO delivery_cursors VALUES(?1,?2)]. *)
Definition insert_cursor (room : RoomId) (sequence : Z) (d : ClientDb) : option ClientDb :=
  n ← u64_param sequence;
  match cursors d !! room with
  | Some _ => None
  | None => Some (set_cursors <[room := n]> d)
  end.

Definition join_welcome (cursor : Z) (welcome : WelcomeDelivery.t) : ClientM () :=
  let room := WelcomeDelivery.room welcome in
  present ← has_group room;
  guard (negb present) (Refused "room already exists; refusing another Welcome boundary");;
  join room (WelcomeAttachment.body (WelcomeDelivery.attachment welcome));;
  member ← contains_user room (WelcomeDelivery.inviter welcome);
  guard member (Refused "Welcome signer is not a group member");;
  run_sql (update (insert_cursor room (WelcomeDelivery.sequence welcome)));;
  on_store (upsert_room room (WelcomeDelivery.room_name welcome) (lit "welcomed"));;
  run_sql (update (λ d, Some (mark_welcome cursor Applied d)));;
  acknowledge_events [] [cursor].

Definition block_welcome (cursor : Z) : ClientM () :=
  modify count_blocked;;
  run_sql (update (λ d, Some (mark_welcome cursor Blocked d))).

Definition process_welcome (cursor : Z) (bytes : list byte) : ClientM () :=
  welcome ← decode c_welcome_delivery bytes;
  verified ← attempt (verify_welcome welcome);
  if is_ok verified then
    result ← attempt (atomic (join_welcome cursor welcome));
    if is_ok result
    then show (JoinedLine (WelcomeDelivery.room_name welcome) (WelcomeDelivery.room welcome))
    else block_welcome cursor
  else block_welcome cursor.

Fixpoint process_loop (fuel : nat) (after : Z) : ClientM () :=
  row ← run_sql (sql (λ d, after ← u64_param after; Some (next_welcome after d, d)));
  match row with
  | None => mret tt
  | Some row =>
      match fuel with
      | O => fail OutOfFuel
      | S fuel =>
          process_welcome (inbox_cursor row) (welcome_bytes row);;
          process_loop fuel (inbox_cursor row)
      end
  end.

(** Each turn moves past a row of the table. *)
Definition process_welcomes : ClientM () :=
  fuel ← gets (λ c, length (welcomes (db (store c))));
  process_loop fuel 0.

(** ** [synchronize] *)

Definition insert_welcome_row (cursor : Z) (record : list byte) (d : ClientDb) : option ClientDb :=
  n ← u64_param cursor;
  if decide (n ∈ inbox_cursor <$> welcomes d) then None
  else Some (set_welcomes (λ l, l ++ [MkWelcomeInboxRow n record Received]) d).

Fixpoint store_welcomes (last : Z) (l : list WelcomeDelivery.t) : ClientM Z :=
  match l with
  | [] => mret last
  | welcome :: l =>
      guard (negb ((WelcomeDelivery.cursor welcome <=? last) ||
                   negb (bool_decide (WelcomeAttachment.recipient (WelcomeDelivery.attachment welcome) = user))))
        (Refused "Welcome cursor or target mismatch");;
      on_store lock;;
      bytes ← encode c_welcome_delivery welcome;
      on_store (update (insert_welcome_row (WelcomeDelivery.cursor welcome) bytes));;
      store_welcomes (WelcomeDelivery.cursor welcome) l
  end.

Definition welcome_page (cursor : Z) (l : list WelcomeDelivery.t) : ClientM () :=
  on_store (admit_new_data (foldr (λ w n,
    len (WelcomeAttachment.body (WelcomeDelivery.attachment w)) + 1024 + n) 0 l));;
  transact (
    last ← store_welcomes cursor l;
    run_sql (update (λ d, n ← u64_param last; Some (set_welcome_position (fmap (λ _, n)) d)))).

Fixpoint recover_welcomes (fuel : nat) : ClientM () :=
  match fuel with
  | O => fail OutOfFuel
  | S fuel =>
      cursor ← run_sql (sql (λ d, n ← welcome_position d; Some (n, d)));
      response ← read (Request.FetchWelcomes cursor);
      match response with
      | Response.Welcomes after_cursor l more =>
          guard (negb (negb (after_cursor =? cursor) || (more && bool_decide (l = []))))
            (Refused "invalid Welcome page cursor");;
          if bool_decide (l = []) then mret tt
          else welcome_page cursor l;;
               if more then recover_welcomes fuel else mret tt
      | _ => refuse "invalid Welcome recovery response"
      end
  end.

(** The events of a page are received, in order, before any is applied. *)
Fixpoint receive_page (room : RoomId) (expected : Z) (events : list Event.t) : ClientM () :=
  match events with
  | [] => mret tt
  | event :: events =>
      guard (bool_decide (Append.room (Event.operation event) = room)
             && (Append.parent (Event.operation event) =? expected))
        (Refused "noncontiguous room event page");;
      receive event;;
      receive_page room (expected + 1) events
  end.

(** [true] when an event is blocked. *)
Fixpoint apply_page (events : list Event.t) : ClientM bool :=
  match events with
  | [] => mret false
  | event :: events =>
      applied ← apply_event event;
      if (applied : bool) then apply_page events else mret true
  end.

Fixpoint catch_up (fuel : nat) (room : RoomId) (head : Z) : ClientM () :=
  match fuel with
  | O => fail OutOfFuel
  | S fuel =>
      at_ ← cursor room;
      if at_ <? head then
        at_ ← cursor room;
        response ← read (Request.FetchRoomEvents room at_);
        match response with
        | Response.RoomEvents room' after_sequence events _ =>
            guard (bool_decide (room' = room) && (after_sequence =? at_) && negb (bool_decide (events = [])))
              (Refused "room history omitted a required sequence");;
            receive_page room at_ events;;
            stopped ← apply_page events;
            if (stopped : bool) then mret tt else catch_up fuel room head
        | _ => refuse "invalid room recovery response"
        end
      else mret tt
  end.

Definition room_before (after_room : option RoomId) (room : RoomId) : bool :=
  match after_room with
  | None => true
  | Some r => bytes_ltb (room_bytes r) (room_bytes room)
  end.

Definition sync_room (after_room : option RoomId) (h : RoomHead.t) : ClientM () :=
  let room := RoomHead.room h in
  guard (room_before after_room room) (Refused "room index is not ordered");;
  guard (RoomHead.sequence h <=? i64_max) (Refused "invalid or regressing room head");;
  at_ ← cursor room;
  guard (at_ <=? RoomHead.sequence h) (Refused "invalid or regressing room head");;
  on_store (upsert_room room (RoomHead.name h) (lit "subscribed"));;
  pending ← unresolved room;
  if (pending : bool) then mret tt
  else
    present ← has_group room;
    if (present : bool) then
      fuel ← gets (λ c, S (length (incoming c)));
      catch_up fuel room (RoomHead.sequence h)
    else mret tt.

Fixpoint sync_rooms (after_room : option RoomId) (rooms : list RoomHead.t) : ClientM (option RoomId) :=
  match rooms with
  | [] => mret after_room
  | h :: rooms => sync_room after_room h;; sync_rooms (Some (RoomHead.room h)) rooms
  end.

Fixpoint sync_index_loop (fuel : nat) (after_room : option RoomId) : ClientM () :=
  match fuel with
  | O => fail OutOfFuel
  | S fuel =>
      response ← read (Request.SyncIndex after_room);
      match response with
      | Response.SyncIndex rooms more =>
          guard (negb (more && bool_decide (rooms = []))) (Refused "empty continuing room index");;
          after_room ← sync_rooms after_room rooms;
          if more then sync_index_loop fuel after_room else mret tt
      | _ => refuse "invalid room index response"
      end
  end.

Definition messages_left : ClientM nat := gets (λ c, S (length (incoming c))).

Definition synchronize : ClientM () :=
  fuel ← messages_left;
  recover_welcomes fuel;;
  process_welcomes;;
  fuel ← messages_left;
  sync_index_loop fuel None.

(** ** [build_attempts] *)

(** [SELECT EXISTS(SELECT 1 FROM delivery_inbox WHERE room=?1 AND sequence>?2)]. *)
Definition has_unapplied (room : RoomId) (at_ : Z) (d : ClientDb) : bool :=
  bool_decide (Exists (λ r, inbox_room r = room ∧ at_ < inbox_sequence r) (inbox d)).

Definition set_attempt (intent : MessageId) (attempt : MessageId) (d : ClientDb) : ClientDb :=
  set_intents (fmap (λ i, if decide (intent_id i = intent)
    then MkIntentRow (intent_id i) (intent_room i) (intent_target i) (intent_plaintext i) (intent_package i) (Some attempt)
    else i)) d.

Definition add_operation (seed : bytes 32) (id : MessageId) (room : RoomId) (parent : Z)
    (target : option UserId) (package : list byte) : ClientM Append.t :=
  built ← build_pending_add room package (event_authenticated_data room id parent);
  let '(epoch, body, welcome) := built in
  recipient ← lift (ok_or (Refused "add intent has no target") target);
  let signature := sign seed (welcome_transcript recipient room id (parent + 1) welcome) in
  mret (Append.Mk room parent epoch MlsContentType.Commit body
          (Some (WelcomeAttachment.Mk recipient welcome (MkSignature signature)))).

Definition send_operation (id : MessageId) (room : RoomId) (parent : Z) (plaintext : option (list byte))
    : ClientM Append.t :=
  plaintext ← lift (ok_or (Refused "send intent has no plaintext") plaintext);
  encrypted ← encrypt_bound room plaintext (event_authenticated_data room id parent);
  let operation := Append.Mk room parent encrypted.1 MlsContentType.Application encrypted.2 None in
  on_store (record_plaintext (envelope (Event.Mk id user operation)) user plaintext);;
  mret operation.

Definition attempt_request (seed : bytes 32) (id : MessageId) (parent : Z) (i : IntentRow) : ClientM Request.t :=
  match intent_target i, intent_package i with
  | Some recipient, None => mret (Request.ReserveKeyPackage recipient)
  | target, Some package =>
      operation ← add_operation seed id (intent_room i) parent target package;
      mret (Request.AppendRoomOperation operation)
  | None, None =>
      operation ← send_operation id (intent_room i) parent (intent_plaintext i);
      mret (Request.AppendRoomOperation operation)
  end.

(** [true] when an attempt was built. *)
Definition build_attempt (i : IntentRow) : ClientM bool :=
  let room := intent_room i in
  present ← has_group room;
  if (present : bool) then
    at_ ← cursor room;
    blocked ← run_sql (select (has_unapplied room at_));
    if (blocked : bool) then mret false
    else
      id ← new_message_id;
      parent ← cursor room;
      signing ← on_store identity;
      atomic (
        r ← attempt_request (seed signing) id parent i;
        journal id r;;
        run_sql (update (λ d, Some (set_attempt (intent_id i) id d))));;
      mret true
  else mret false.

Fixpoint build_all (rows : list IntentRow) (built : bool) : ClientM bool :=
  match rows with
  | [] => mret built
  | i :: rows => one ← build_attempt i; build_all rows (built || one)
  end.

Definition build_attempts : ClientM bool :=
  rows ← run_sql (select (λ d, filter (λ i, intent_attempt i = None) (intents d)));
  rows ← on_store (collect_rows rows);
  build_all rows false.

(** ** [drive] *)

Definition retry_entry (e : OutboxEntry) : ClientM () :=
  m ← decode c_client_message (message e);
  match m with
  | ClientMessage.Delivery id r =>
      guard (bool_decide (id = request_id e)) (Refused "outbox ID mismatch");;
      response ← request id r;
      complete user id r response
  | _ => refuse "unsupported old outbox protocol"
  end.

Fixpoint retry_page (after : Z) (page : list (Z * OutboxEntry)) : ClientM Z :=
  match page with
  | [] => mret after
  | (rowid, e) :: page => retry_entry e;; retry_page rowid page
  end.

Fixpoint retry_outbox (fuel : nat) (after : Z) : ClientM () :=
  page ← on_store (outbox_page after);
  match page with
  | [] => mret tt
  | _ =>
      match fuel with
      | O => fail OutOfFuel
      | S fuel => after ← retry_page after page; retry_outbox fuel after
      end
  end.

Fixpoint drive_rounds (rounds : nat) : ClientM () :=
  match rounds with
  | O => mret tt
  | S rounds =>
      fuel ← gets (λ c, length (outbox (db (store c))));
      retry_outbox fuel 0;;
      synchronize;;
      built ← build_attempts;
      if (built : bool) then drive_rounds rounds else mret tt
  end.

Definition drive_inner : ClientM () := drive_rounds 4.

Definition drive : ClientM () := λ w c,
  match drive_inner w c with
  | (Ok a, c) => (Ok a, c)
  | (Err e, c) => (Err e, count_failure c)
  end.

(** ** [run]: one turn of the select loop *)

Inductive Turn :=
| Input (line : result ErrorKind str)
| Notified
| Ticked.

(** A line of input is a command, nothing, or an error that is shown; a command that
    fails is reported and the service goes on. *)
Definition turn (t : Turn) : ClientM () :=
  match t with
  | Input (Err k) => fail (IoFailed k)
  | Input (Ok line) =>
      match parse_command line with
      | Ok (Some c) => attempt (command c);; drive
      | _ => mret tt
      end
  | Notified =>
      m ← receive_message;
      match m with
      | RelayMessage.DeliveryChanged => drive
      | _ => refuse "unexpected V9 response"
      end
  | Ticked => drive
  end.

Fixpoint run_turns (l : list Turn) : ClientM () :=
  match l with [] => mret tt | t :: l => turn t;; run_turns l end.

Definition run (l : list Turn) : ClientM () := drive;; run_turns l.
End engine.
