(* ===== verification/ClientService.v ===== *)
(** * The client's process

    [run_inner] of src/crates/grotto-client/src/lib.rs and [ClientStore::open] of
    src/crates/grotto-client/src/store.rs: the private store, start-up, the offline commands,
    and the loop that connects, serves and reconnects. The terminal's lines, the
    notifications and the timer of one session are its turns ([ClientSync]). *)
From S2P Require Import Prelude Bytes Text Postcard Protocol Wire Identifiers Transcripts Framing Crypto.
From S2P Require Import PrivateFiles ClientCommands ClientStore ClientContacts ClientMls ClientDelivery ClientConnect ClientSync.

(** One turn of the loop as its surroundings decide it: what reaching the relay gives,
    namely an error of the transport, the ten seconds that pass ([Elapsed]) or a stream;
    the turns of the session; how long all of it took; whether the input has ended by
    then; and one random byte. *)
Record Attempt := MkAttempt {
  reached : result ClientError Socket;
  session_turns : list Turn;
  elapsed_nanos : Z;
  input_ended : bool;
  jitter : option byte;
}.

Section service.
Context `{Postcard} `{Sha256} `{Ed25519Signer} `{Mls}.

(** A session on an authenticated stream: the reader's messages, an empty cache of
    groups, the process's store. *)
Definition serve_on (user : UserId) (s : Socket) (turns : list Turn) : ClientM () := λ w c,
  run user turns w
    (set_groups (λ _, ∅) (set_output (socket_out s)
      (set_incoming (default [] (reader_task (S (stream_size (socket_in s))) (socket_in s))) c))).

Definition session (id : ClientIdentity) (token : option str) (a : Attempt) : ClientM () := λ w c,
  match reached a with
  | Err e => (Err e, c)
  | Ok s =>
      match connect id token s with
      | (Err e, _) => (Err e, c)
      | (Ok _, s) => serve_on (user_id id) s (session_turns a) w c
      end
  end.

(** How the loop ends, if it does within these attempts, and the waits between them. *)
Fixpoint service (id : ClientIdentity) (token : option str) (delay : Z) (l : list Attempt) (w : World) (c : Client)
    : option (result ClientError ()) * list Z * Client :=
  match l with
  | [] => (None, [], c)
  | a :: l =>
      match session id token a w c with
      | (Ok _, c) => (Some (Ok tt), [], c)
      | (Err e, c) =>
          if negb (retryable e) then (Some (Err e), [], c)
          else if input_ended a then (Some (Ok tt), [], c)
          else match jitter a with
          | None => (Some (Err RandomFailed), [], c)
          | Some byte =>
              match backoff delay (elapsed_nanos a) byte with
              | None => (Some (Err (Refused "attempt to multiply with overflow")), [], c)
              | Some (millis, delay) =>
                  let '(r, waits, c) := service id token delay l w c in (r, millis :: waits, c)
              end
          end
      end
  end.

Variable generate_key_material : list byte → option (list byte * list byte).

(** From the identity on, with the store that is open. *)
Definition run_opened (arguments : list str) (mls_path : bool) (token : option str) (l : list Attempt)
    (w : World) (c : Client) : option (result ClientError ()) * list Z * Client :=
  match (started ← startup generate_key_material mls_path;
         going ← offline started.2 arguments;
         mret (started.1, going)) w c with
  | (Err e, c) => (Some (Err e), [], c)
  | (Ok (_, false), c) => (Some (Ok tt), [], c)
  | (Ok (id, true), c) => service id token 1 l w c
  end.

(** ** Opening the store *)

(** [opens]: SQLite opens the file, and its first statements succeed. *)
Definition open_store (budget : option str) (opens : bool) (path : Path) (os : Os) (fs : Files) (file : StoreFile)
    : result StoreError Store * Files * StoreFile :=
  match open_locked path os fs with
  | (Err _, fs) => (Err Io, fs, file)
  | (Ok _, fs) =>
      if negb opens then (Err Database, fs, file) else
      match initialize_store file with
      | Err e => (Err e, fs, file)
      | Ok file =>
          (match new_data_limit_of budget with
           | Ok limit => Ok (MkStore (file_tables file) None None false 0 limit)
           | Err e => Err e
           end, fs, file)
      end
  end.

(** Files of earlier versions next to the store; an error is a no. *)
Definition legacy_names : list str := [lit "identity.key"; lit "identity.toml"; lit "mls.db"].
Fixpoint legacy_found (parent : Path) (l : list str) : FileM bool :=
  match l with
  | [] => mret false
  | n :: l =>
      p ← environment (λ os, resolve os (path_join parent n));
      r ← outcome (symlink_metadata p);
      if is_ok r then mret true else legacy_found parent l
  end.

(** The variables and the machine that a process meets. *)
Record ProcessEnv := MkProcessEnv {
  path_variables : PathVars;
  storage_bytes : option str;
  mls_path_set : bool;
  enrollment_token : option str;
  machine : Os;
  store_opens : bool;
  world : World;
}.

(** How the process ends, its waits, and the files and the store it leaves. *)
Definition run_inner (arguments : list str) (l : list Attempt) (e : ProcessEnv) (fs : Files) (file : StoreFile)
    : option (result ClientError ()) * list Z * Files * StoreFile :=
  if decide (head arguments = Some (lit "--help")) then (Some (Ok tt), [], fs, file) else
  match default_store_path (path_variables e) with
  | None => (Some (Err (Refused "cannot locate identity directory")), [], fs, file)
  | Some default_path =>
      let store_path := default default_path (path_variables e "GROTTO_CLIENT_DB_PATH") in
      let '(legacy, fs) := match names store_path with
                           | [] => (Ok false, fs)
                           | _ :: q => legacy_found (MkPath (is_absolute store_path) q) legacy_names (machine e) fs
                           end in
      match legacy with
      | Ok false =>
          match open_store (storage_bytes e) (store_opens e) store_path (machine e) fs file with
          | (Err err, fs, file) => (Some (Err (StoreFailed err)), [], fs, file)
          | (Ok s, fs, file) =>
              let '(r, waits, c) := run_opened arguments (mls_path_set e) (enrollment_token e) l (world e)
                                      (MkClient s ∅ (Writer [] None) [] [] 0 0 0) in
              (r, waits, fs, MkStoreFile (file_version file) (file_application file) (file_objects file) (durable (store c)))
          end
      | _ => (Some (Err (Refused "legacy client state found")), [], fs, file)
      end
  end.
End service.
