(* ===== verification/ClientTx.v ===== *)
(** * Reasoning about the client's programs

    Programs over the store and over the client as relations between the state before
    and after, whatever the world does: what a program keeps, how that composes, and
    what the transactions of the store and [MlsSession::atomic] make of it. *)
From S2P Require Import Prelude Bytes Text Postcard Protocol Wire Identifiers Transcripts Framing.
From S2P Require Import Crypto ClientCommands ClientStore ClientContacts ClientMls ClientDelivery ClientSync.

(** ** Programs that stay within a relation *)

(** Whatever happens, the state after is related to the state before. *)
Definition stays {A} (T : relation Store) (m : StoreM A) : Prop := ∀ w s, T s (m w s).2.
Definition along `{Mls} {A} (T : relation Client) (m : ClientM A) : Prop := ∀ w c, T c (m w c).2.

Section stays.
Context (T : relation Store) `{!PreOrder T}.

Lemma stays_ret {A} (a : A) : stays T (mret a).
Proof using All. intros w s. done. Qed.
Lemma stays_bind {A B} (m : StoreM A) (k : A → StoreM B) :
  stays T m → (∀ a, stays T (k a)) → stays T (m ≫= k).
Proof using All.
  intros Hm Hk w s. specialize (Hm w s). unfold mbind, StoreM_bind.
  destruct (m w s) as [[a|e] s1]; [|done]. etrans; [exact Hm|apply Hk].
Qed.
Lemma stays_throw {A} e : stays T (throw e : StoreM A).
Proof using All. intros w s. done. Qed.
Lemma stays_result {A} (r : result StoreError A) : stays T (from_result r).
Proof using All. intros w s. done. Qed.
Lemma stays_when b m : stays T m → stays T (when b m).
Proof using All. intros Hm w s. destruct b; [apply Hm|]. done. Qed.
Lemma stays_lock : stays T lock.
Proof using All. intros w s. unfold lock. by case_matches. Qed.
Lemma stays_lock_provider : stays T lock_provider.
Proof using All. intros w s. unfold lock_provider. by case_matches. Qed.
Lemma stays_limit : stays T limit.
Proof using All. intros w s. done. Qed.
Lemma stays_for_each {A} (f : A → StoreM ()) l : (∀ a, stays T (f a)) → stays T (for_each f l).
Proof using All.
  intros Hf. induction l as [|a l IH]; [apply stays_ret|]. simpl. by apply stays_bind.
Qed.
End stays.

Section along.
Context `{Mls} (T : relation Client) `{!PreOrder T}.

Lemma along_ret {A} (a : A) : along T (mret a).
Proof using All. intros w c. done. Qed.
Lemma along_bind {A B} (m : ClientM A) (k : A → ClientM B) :
  along T m → (∀ a, along T (k a)) → along T (m ≫= k).
Proof using All.
  intros Hm Hk w c. specialize (Hm w c). unfold mbind, ClientM_bind.
  destruct (m w c) as [[a|e] c1]; [|done]. etrans; [exact Hm|apply Hk].
Qed.
Lemma along_fail {A} e : along T (fail e : ClientM A).
Proof using All. intros w c. done. Qed.
Lemma along_refuse {A} e : along T (refuse e : ClientM A).
Proof using All. intros w c. done. Qed.
Lemma along_lift {A} (r : result ClientError A) : along T (lift r).
Proof using All. intros w c. done. Qed.
Lemma along_guard b e : along T (guard b e).
Proof using All. intros w c. by destruct b. Qed.
Lemma along_gets {A} (f : Client → A) : along T (gets f).
Proof using All. intros w c. done. Qed.
Lemma along_modify f : (∀ c, T c (f c)) → along T (modify f).
Proof using All. intros Hf w c. apply Hf. Qed.
Lemma along_or_error {A} e (m : ClientM A) : along T m → along T (or_error e m).
Proof using All. intros Hm w c. specialize (Hm w c). unfold or_error. by destruct (m w c) as [[a|e'] c']. Qed.
Lemma along_attempt {A} (m : ClientM A) : along T m → along T (attempt m).
Proof using All. intros Hm w c. specialize (Hm w c). unfold attempt. by destruct (m w c) as [r c']. Qed.
Lemma along_each {A} (f : A → ClientM ()) l : (∀ a, along T (f a)) → along T (each f l).
Proof using All.
  intros Hf. induction l as [|a l IH]; [apply along_ret|]. simpl. by apply along_bind.
Qed.
End along.

Lemma along_on_store `{Mls} {A} (S : relation Store) (T : relation Client) (m : StoreM A) :
  (∀ c s, S (store c) s → T c (set_store (λ _, s) c)) → stays S m → along T (on_store m).
Proof.
  intros HT Hm w c. specialize (Hm w (store c)). unfold on_store.
  destruct (m w (store c)) as [r s]. by apply HT.
Qed.

(** ** What most statements leave alone *)

Definition core (d : ClientDb) :=
  (cursors d, inbox d, contacts d, transport_identity d, history_rows d, mls_identity d).

(** The connection's state and the core of its tables are as before. *)
Record still (s s' : Store) : Prop := {
  still_saved : saved s' = saved s;
  still_owner : owner s' = owner s;
  still_poisoned : poisoned s' = poisoned s;
  still_core : core (db s') = core (db s);
}.

#[global] Instance still_preorder : PreOrder still.
Proof. split; [done|]. intros s1 s2 s3 [] []. split; congruence. Qed.

(** Of a client: besides, messages have at most been taken. *)
Definition stills `{Mls} (c c' : Client) : Prop :=
  still (store c) (store c') ∧ incoming c' `suffix_of` incoming c.

#[global] Instance stills_preorder `{Mls} : PreOrder stills.
Proof. split; [by intros c|]. intros c1 c2 c3 [] []. by split; etrans. Qed.

Lemma still_tick s : still s (tick s).
Proof. done. Qed.
Lemma stays_observe {A} (f : World → nat → A) : stays still (observe f).
Proof. by intros w s. Qed.
Lemma stays_sql {A} (f : ClientDb → option (A * ClientDb)) :
  (∀ d a d', f d = Some (a, d') → core d' = core d) → stays still (sql f).
Proof.
  intros Hf w s. unfold sql. destruct (sql_fails w (ticks s)); [done|].
  destruct (f (db s)) as [[a d]|] eqn:E; [|done]. split; simpl; try done. by eapply Hf.
Qed.
Lemma stays_select {A} (f : ClientDb → A) : stays still (select f).
Proof. apply stays_sql. by intros d a d' [= _ <-]. Qed.
Lemma stays_update f : (∀ d d', f d = Some d' → core d' = core d) → stays still (update f).
Proof.
  intros Hf. apply stays_sql. intros d a d' (d1 & E & [= _ <-])%bind_Some. by apply Hf.
Qed.
Lemma stays_update_total f : (∀ d, core (f d) = core d) → stays still (update (λ d, Some (f d))).
Proof. intros Hf. apply stays_update. by intros d d' [= <-]. Qed.

Lemma along_still `{Mls} {A} (m : StoreM A) : stays still m → along stills (on_store m).
Proof. by apply along_on_store. Qed.

#[export] Hint Resolve stays_ret stays_throw stays_result stays_lock stays_lock_provider stays_limit
  stays_observe stays_select along_ret along_fail along_refuse along_lift along_guard along_gets
  still_preorder stills_preorder : grotto.

Lemma core_insert_outbox id kind message d : core (insert_outbox id kind message d) = core d.
Proof. unfold insert_outbox. by case_match. Qed.

(** Walks through a program; what is left are the statements that need an argument. *)
Ltac walk :=
  repeat first
    [ solve [auto with grotto]
    | apply along_bind; [auto with grotto| |intros ?]
    | apply stays_bind; [auto with grotto| |intros ?]
    | apply along_or_error
    | apply along_attempt
    | apply along_each; [auto with grotto|intros ?]
    | solve [apply along_modify; [apply _|done]]
    | apply stays_when; [auto with grotto|]
    | apply stays_for_each; [auto with grotto|intros ?]
    | apply along_still
    | apply stays_update_total; [intros ?; first [done | apply core_insert_outbox]]
    | case_match ].

Lemma stays_pragma f : stays still (pragma f).
Proof. unfold pragma. walk. Qed.
#[export] Hint Resolve stays_pragma : grotto.
Lemma stays_admit n : stays still (admit_new_data n).
Proof. unfold admit_new_data. walk. Qed.
Lemma stays_save_outbox id kind message : stays still (save_outbox id kind message).
Proof. unfold save_outbox. walk. Qed.
Lemma stays_remove_outbox id : stays still (remove_outbox id).
Proof. unfold remove_outbox. walk. Qed.
Lemma stays_find_outbox id : stays still (find_outbox id).
Proof. unfold find_outbox. walk. Qed.
Lemma stays_outbox_entries rows : ∀ n entries, stays still (outbox_entries rows n entries).
Proof. induction rows as [|r rows IH]; intros n entries; simpl; walk. Qed.
#[export] Hint Resolve stays_admit stays_save_outbox stays_remove_outbox stays_find_outbox
  stays_outbox_entries : grotto.
Lemma stays_outbox_page after : stays still (outbox_page after).
Proof. unfold outbox_page. walk. Qed.
Lemma stays_collect_rows {A} (rows : list A) : stays still (collect_rows rows).
Proof. induction rows as [|r rows IH]; simpl; walk. Qed.
#[export] Hint Resolve stays_outbox_page stays_collect_rows : grotto.
Lemma stays_upsert_room room name origin : stays still (upsert_room room name origin).
Proof. unfold upsert_room. walk. Qed.
Lemma stays_list_rooms : stays still list_rooms.
Proof. unfold list_rooms. walk. Qed.
Lemma stays_load_mls_identity : stays still load_mls_identity.
Proof. unfold load_mls_identity. walk. Qed.
Lemma stays_history room before : stays still (history room before).
Proof.
  unfold history. walk. all: apply stays_sql.
  all: by intros d rows d' (b & _ & [= _ <-])%bind_Some.
Qed.
Lemma stays_verify_identity who : stays still (verify_identity who).
Proof. unfold verify_identity. walk. Qed.
Lemma stays_storage_call call : stays still (storage_call call).
Proof.
  destruct call; simpl; unfold MlsStorage.write, MlsStorage.write_epochs, MlsStorage.delete,
    MlsStorage.insert; walk.
  all: try (by intros w s; unfold MlsStorage.require_transaction; case_match).
  apply stays_update. intros d d'. case_match; [done|]. by intros [= <-].
Qed.
#[export] Hint Resolve stays_upsert_room stays_list_rooms stays_load_mls_identity stays_history
  stays_verify_identity stays_storage_call : grotto.

(** ** Sessions and the quiet parts of the engine *)

Section quiet.
Context `{Postcard} `{Sha256} `{Ed25519Signer} `{Mls}.

Lemma along_call_mls {A} (f : list byte → Providers → A) : along stills (call_mls f).
Proof. by intros w c. Qed.
Lemma along_put_group room g : along stills (put_group room g).
Proof. by intros w c. Qed.
Lemma along_clear_groups : along stills (modify clear_groups).
Proof. by intros w c. Qed.
#[local] Hint Resolve along_call_mls along_put_group along_clear_groups : grotto.

Lemma along_verify_roster g e : along stills (verify_roster g e).
Proof. unfold verify_roster. walk. Qed.
Lemma along_load_group id : along stills (load_group id).
Proof. unfold load_group, MlsStorage.state. walk. Qed.
#[local] Hint Resolve along_verify_roster along_load_group : grotto.
Lemma along_group_mut room : along stills (group_mut room).
Proof. unfold group_mut. walk. Qed.
#[local] Hint Resolve along_group_mut : grotto.
Lemma along_has_group room : along stills (has_group room).
Proof. unfold has_group. walk. Qed.
Lemma along_persist room : along stills (persist room).
Proof. unfold persist. walk. Qed.
#[local] Hint Resolve along_has_group along_persist : grotto.
Lemma along_create_group room : along stills (create_group room).
Proof. unfold create_group. walk. Qed.
Lemma along_contains_user room u : along stills (contains_user room u).
Proof. unfold contains_user. walk. Qed.
Lemma along_encrypt_bound room p aad : along stills (encrypt_bound room p aad).
Proof. unfold encrypt_bound, wire_bytes. walk. Qed.
Lemma along_build_pending_add room p aad : along stills (build_pending_add room p aad).
Proof. unfold build_pending_add, wire_bytes, wire_message. walk. Qed.
Lemma along_discard_pending room : along stills (discard_pending room).
Proof. unfold discard_pending. walk. Qed.
Lemma along_apply_accepted_commit room : along stills (apply_accepted_commit room).
Proof. unfold apply_accepted_commit. walk. Qed.
Lemma along_process_bound event : along stills (process_bound event).
Proof. unfold process_bound. walk. Qed.
Lemma along_join room w : along stills (join room w).
Proof. unfold join, current_epoch, wire_message. walk. Qed.
Lemma along_generate_key_packages n : along stills (generate_key_packages n).
Proof. induction n; simpl; unfold wire_bytes; walk. Qed.

Lemma along_write_out l : along stills (write_out l).
Proof. intros w c. unfold write_out. by destruct (write_frame _ l). Qed.
#[local] Hint Resolve along_write_out : grotto.
Lemma along_receive_message : along stills receive_message.
Proof.
  intros w c. unfold receive_message.
  destruct (incoming c) as [|[] ?] eqn:E; (split; [done|]); simpl; rewrite E; first [done|by apply suffix_cons_r].
Qed.
#[local] Hint Resolve along_receive_message : grotto.
Lemma along_await fuel id : along stills (await_response fuel id).
Proof. induction fuel; simpl; walk. Qed.
#[local] Hint Resolve along_await : grotto.
Lemma along_new_message_id : along stills new_message_id.
Proof. unfold new_message_id. walk. Qed.
Lemma along_request id r : along stills (request id r).
Proof. unfold request, encode, send. walk. Qed.
#[local] Hint Resolve along_new_message_id along_request : grotto.
Lemma along_read r : along stills (read r).
Proof.
  unfold read. walk. generalize dependent a. intros id. generalize dependent a0.
  induction a0; simpl; walk.
Qed.
Lemma along_show l : along stills (show l).
Proof. by intros w c. Qed.
Lemma along_run_select {A} (f : ClientDb → A) : along stills (run_sql (select f)).
Proof. unfold run_sql. walk. Qed.
Lemma along_run_update f : (∀ d, core (f d) = core d) → along stills (run_sql (update (λ d, Some (f d)))).
Proof. intros Hf. apply along_still. walk. Qed.
#[local] Hint Resolve along_show along_run_select : grotto.
Lemma along_journal id r : along stills (journal id r).
Proof. unfold journal, encode. walk. Qed.
Lemma along_cursor room : along stills (cursor room).
Proof. unfold cursor. walk. Qed.
Lemma along_unresolved room : along stills (unresolved room).
Proof. unfold unresolved. walk. Qed.
Lemma along_require_contact u : along stills (require_contact u).
Proof.
  unfold require_contact, parse_stored_card, run_sql. walk. apply stays_sql.
  by intros d r d' (row & _ & [= _ <-])%bind_Some.
Qed.
End quiet.

#[export] Hint Resolve along_call_mls along_put_group along_group_mut along_has_group along_persist
  along_create_group along_contains_user along_encrypt_bound along_build_pending_add
  along_discard_pending along_apply_accepted_commit along_process_bound along_join
  along_generate_key_packages along_new_message_id along_request along_read along_show
  along_run_select along_journal along_cursor along_unresolved along_require_contact
  along_receive_message along_write_out : grotto.
