(* ===== verification/ClientJournal.v ===== *)
(** * The client's journal

    The invariant of the client's database, what every run keeps of it, and a small
    program logic for the engine: [triple] between transactions, [inner] inside one. *)
From S2P Require Import Prelude Bytes Text Postcard Protocol Wire Identifiers Transcripts Framing.
From S2P Require Import Crypto ClientCommands ClientStore ClientContacts ClientMls ClientDelivery ClientSync ClientTx.

(** ** What the database promises *)

Definition settled (r : InboxRow) : Prop := inbox_state r = Applied ∨ inbox_state r = Rejected.
Definition position (r : InboxRow) : RoomId * Z := (inbox_room r, inbox_sequence r).
Definition settled_at (d : ClientDb) (room : RoomId) (s : Z) : Prop :=
  ∃ r, r ∈ inbox d ∧ position r = (room, s) ∧ settled r.

(** A row holds the record of an event with its id and position. *)
Definition row_of `{Postcard} (r : InboxRow) (e : Event.t) : Prop :=
  valid c_event e ∧ encode_message c_event e = Ok (inbox_record r) ∧ inbox_event r = Event.id e ∧
  inbox_room r = Append.room (Event.operation e) ∧
  inbox_sequence r = Append.parent (Event.operation e) + 1.

Record journal_inv `{Postcard} (user : UserId) (d : ClientDb) : Prop := {
  inv_ids : NoDup (inbox_event <$> inbox d);
  inv_positions : NoDup (position <$> inbox d);
  inv_records : ∀ r, r ∈ inbox d → ∃ e, row_of r e;
  inv_settled : ∀ r, r ∈ inbox d → settled r →
    ∃ n, cursors d !! inbox_room r = Some n ∧ inbox_sequence r ≤ n;
  inv_contiguous : ∀ r n s, r ∈ inbox d → settled r → cursors d !! inbox_room r = Some n →
    inbox_sequence r ≤ s ≤ n → settled_at d (inbox_room r) s;
  inv_history : ∀ h, h ∈ history_rows d → history_author h ≠ user →
    ∃ r e, r ∈ inbox d ∧ row_of r e ∧ inbox_state r = Applied ∧
      history_message h = Event.id e ∧ history_room h = inbox_room r ∧ history_author h = Event.sender e;
}.

(** Rows that say the same of an event, and keep its state once it is settled. *)
Definition row_kept (r r' : InboxRow) : Prop :=
  inbox_event r' = inbox_event r ∧ position r' = position r ∧ inbox_record r' = inbox_record r ∧
  (settled r → inbox_state r' = inbox_state r).

(** What no operation undoes: events that are settled, and how far a room is; a cursor
    moves over settled events only. *)
Record grows (d d' : ClientDb) : Prop := {
  grows_inbox : ∀ r, r ∈ inbox d → ∃ r', r' ∈ inbox d' ∧ row_kept r r';
  grows_cursors : ∀ room n, cursors d !! room = Some n →
    ∃ n', cursors d' !! room = Some n' ∧ n ≤ n' ∧ ∀ s, n < s ≤ n' → settled_at d' room s;
  grows_contacts : contacts d ⊆ contacts d';
  grows_identity : ∀ x, transport_identity d = Some x → transport_identity d' = Some x;
  grows_mls_identity : ∀ x, mls_identity d = Some x → mls_identity d' = Some x;
}.

(** A cursor that has not moved. *)
Lemma grows_same d room n : cursors d !! room = Some n →
  ∃ n', cursors d !! room = Some n' ∧ n ≤ n' ∧ ∀ s, n < s ≤ n' → settled_at d room s.
Proof. intros E. exists n. split_and!; [done|lia|lia]. Qed.

Lemma row_kept_settled r r' : row_kept r r' → settled r → settled r'.
Proof. intros (_ & _ & _ & Hs) H. unfold settled in *. by rewrite Hs. Qed.
Lemma settled_at_kept d d' room s :
  (∀ r, r ∈ inbox d → ∃ r', r' ∈ inbox d' ∧ row_kept r r') → settled_at d room s → settled_at d' room s.
Proof.
  intros Hk (r & (r' & Hr' & Hk')%Hk & Hp & Hs). exists r'. split_and!; [done| |by eapply row_kept_settled].
  destruct Hk' as (_ & -> & _). done.
Qed.

#[global] Instance grows_preorder : PreOrder grows.
Proof.
  split.
  - intros d. split; [|by apply grows_same|done|done|done]. intros r Hr. exists r. by repeat split.
  - intros d1 d2 d3 [I1 C1 T1 X1 M1] [I2 C2 T2 X2 M2]. split.
    + intros r (r2 & Hr2 & E1 & P1 & R1 & S1)%I1. destruct (I2 _ Hr2) as (r3 & Hr3 & E2 & P2 & R2 & S2).
      exists r3. split; [done|]. split_and!; try congruence. intros Hs. unfold settled in *.
      rewrite S2; [by apply S1|]. by rewrite S1.
    + intros room n (n2 & E2 & ? & H2)%C1. apply C2 in E2 as (n3 & ? & ? & H3). exists n3. split_and!; [done|lia|].
      intros s Hs. destruct (decide (s ≤ n2)); [|by apply H3; lia]. eapply settled_at_kept; [done|]. apply H2. lia.
    + by etrans.
    + eauto.
    + eauto.
Qed.

Lemma core_fields d d' :
  core d' = core d →
  cursors d' = cursors d ∧ inbox d' = inbox d ∧ contacts d' = contacts d ∧
  transport_identity d' = transport_identity d ∧ history_rows d' = history_rows d ∧
  mls_identity d' = mls_identity d.
Proof. unfold core. by intros [= -> -> -> -> -> ->]. Qed.

Lemma grows_core d1 d2 d : core d2 = core d1 → grows d d1 → grows d d2.
Proof.
  intros (E1 & E2 & E3 & E4 & _ & E5)%core_fields [I C T X M]. unfold settled_at in *.
  split; unfold settled_at; rewrite ?E1, ?E2, ?E3, ?E4, ?E5; done.
Qed.

Lemma inv_core `{Postcard} user d d' : core d' = core d → journal_inv user d → journal_inv user d'.
Proof.
  intros (E1 & E2 & _ & _ & E3 & _)%core_fields [A B C D E F]. unfold settled_at in *.
  split; unfold settled_at; rewrite ?E1, ?E2, ?E3; done.
Qed.

Lemma fresh_db_inv `{Postcard} user : journal_inv user fresh_db.
Proof.
  split; simpl; try apply NoDup_nil_2; try (by intros ? ?%not_elem_of_nil).
  by intros ? ? ? ?%not_elem_of_nil.
Qed.

(** ** Between transactions *)

(** Either no transaction is open, or one could not be rolled back and the connection
    is closed to all further work. *)
Definition between (s : Store) : Prop :=
  (saved s = None ∧ owner s = None) ∨ (is_Some (saved s) ∧ poisoned s = true).

Section logic.
Context `{Postcard} `{Sha256} `{Ed25519Signer} `{Mls}.
Variable user : UserId.

Definition good (c : Client) : Prop :=
  between (store c) ∧ journal_inv user (durable (store c)).

(** From a good state whose durable tables satisfy [P], [m] reaches a good state, undoes
    nothing, and leaves [Q] of the tables when it returns. *)
Definition triple {A} (P : ClientDb → Prop) (m : ClientM A) (Q : A → ClientDb → Prop) : Prop :=
  ∀ w c, good c → P (durable (store c)) →
    good (m w c).2 ∧ grows (durable (store c)) (durable (store (m w c).2)) ∧
    match (m w c).1 with Ok a => Q a (durable (store (m w c).2)) | Err _ => True end.

(** Properties of tables that depend on their core only. *)
Definition core_only (P : ClientDb → Prop) : Prop := ∀ d d', core d' = core d → P d → P d'.

Lemma still_durable s s' : still s s' → between s →
  between s' ∧ core (durable s') = core (durable s).
Proof.
  intros [Hs Ho Hp Hc] Hb. unfold between, durable in *. rewrite Hs, Ho, Hp. split; [done|].
  by destruct (saved s).
Qed.

Lemma triple_still {A} P (m : ClientM A) : along stills m → core_only P → triple P m (λ _, P).
Proof.
  intros Hm HP w c [Hb Hi] Hp. specialize (Hm w c). destruct (m w c) as [r c']. destruct Hm as [Hm _]. simpl in *.
  apply still_durable in Hm as [Hb' Hc]; [|done]. split_and!.
  - split; [done|]. by eapply inv_core.
  - by eapply grows_core; [done|].
  - destruct r; [|done]. by eapply HP.
Qed.

Lemma triple_still_True {A} (m : ClientM A) : along stills m → triple (λ _, True) m (λ _ _, True).
Proof. intros Hm. by apply (triple_still (λ _, True)). Qed.

Lemma triple_bind {A B} P Q R (m : ClientM A) (k : A → ClientM B) :
  triple P m Q → (∀ a, triple (Q a) (k a) R) → triple P (m ≫= k) R.
Proof.
  intros Hm Hk w c Hg Hp. destruct (Hm w c Hg Hp) as (Hg1 & Hgr1 & Hq). unfold mbind, ClientM_bind.
  destruct (m w c) as [[a|e] c1]; simpl in *; [|done].
  destruct (Hk a w c1 Hg1 Hq) as (Hg2 & Hgr2 & Hr). split_and!; [done| |done]. by etrans.
Qed.

Lemma triple_conseq {A} (P P' : ClientDb → Prop) (Q Q' : A → ClientDb → Prop) m :
  triple P m Q → (∀ d, P' d → P d) → (∀ a d, Q a d → Q' a d) → triple P' m Q'.
Proof.
  intros Hm HP HQ w c Hg Hp. destruct (Hm w c Hg (HP _ Hp)) as (? & ? & Hq).
  split_and!; [done..|]. destruct (m w c).1; [|done]. by apply HQ.
Qed.

Lemma triple_ret {A} P (a : A) (Q : A → ClientDb → Prop) : (∀ d, P d → Q a d) → triple P (mret a) Q.
Proof. intros HQ w c Hg Hp. split_and!; [done|done|]. by apply HQ. Qed.

Lemma triple_fail {A} P e (Q : A → ClientDb → Prop) : triple P (fail e) Q.
Proof. intros w c Hg Hp. by split_and!. Qed.

Lemma triple_guard P b e : triple P (guard b e) (λ _ d, P d ∧ b = true).
Proof. intros w c Hg Hp. destruct b; by split_and!. Qed.

Lemma triple_lift {A} P (r : result ClientError A) : triple P (lift r) (λ a d, P d ∧ r = Ok a).
Proof. intros w c Hg Hp. destruct r; by split_and!. Qed.

(** Properties that growth keeps can be carried past any program. *)
Lemma triple_frame {A} (F : ClientDb → Prop) P Q (m : ClientM A) :
  (∀ d d', grows d d' → F d → F d') → triple P m Q → triple (λ d, P d ∧ F d) m (λ a d, Q a d ∧ F d).
Proof.
  intros HF Hm w c Hg [Hp Hf]. destruct (Hm w c Hg Hp) as (? & Hgr & Hq).
  split_and!; [done..|]. destruct (m w c).1; [|done]. split; [done|]. by eapply HF.
Qed.

Lemma lock_Ok w s s' u : lock w s = (Ok u, s') → s' = s ∧ poisoned s = false ∧ mutex_poisoned w = false ∧
  match owner s with Some id => id = thread w | None => True end.
Proof.
  unfold lock. destruct (poisoned s), (mutex_poisoned w); simpl; try done.
  destruct (owner s); [case_decide|]; naive_solver.
Qed.
Lemma lock_state w s : (lock w s).2 = s.
Proof. unfold lock. by case_matches. Qed.

(** A statement that keeps the invariant. *)
Lemma triple_sql {A} P (f : ClientDb → option (A * ClientDb)) (Q : A → ClientDb → Prop) :
  (∀ d a d', journal_inv user d → P d → f d = Some (a, d') → journal_inv user d' ∧ grows d d' ∧ Q a d') →
  triple P (run_sql (sql f)) Q.
Proof.
  intros Hf w c [Hb Hi] Hp. unfold run_sql, on_store, mbind, StoreM_bind.
  pose proof (lock_state w (store c)) as Hl.
  destruct (lock w (store c)) as [[u|e] s1] eqn:El; simpl in Hl; subst s1; simpl; [|by split_and!].
  apply lock_Ok in El as (_ & Hpo & _).
  destruct Hb as [[Hs Ho]|[_ ?]]; [|congruence].
  assert (durable (store c) = db (store c)) as Hd by (unfold durable; by rewrite Hs).
  rewrite Hd in *. unfold sql. destruct (sql_fails w (ticks (store c))).
  { simpl. unfold good, between, durable. simpl. rewrite Hs. simpl. split_and!; eauto. done. }
  destruct (f (db (store c))) as [[a d']|] eqn:E; simpl.
  - destruct (Hf _ _ _ Hi Hp E) as (Hi' & Hg' & Hq).
    unfold good, between, durable. simpl. rewrite Hs. simpl. split_and!; eauto.
  - unfold good, between, durable. simpl. rewrite Hs. simpl. split_and!; eauto. done.
Qed.

Lemma triple_update P f (Q : ClientDb → Prop) :
  (∀ d d', journal_inv user d → P d → f d = Some d' → journal_inv user d' ∧ grows d d' ∧ Q d') →
  triple P (run_sql (update f)) (λ _, Q).
Proof.
  intros Hf. apply triple_sql. intros d [] d' Hi Hp (d1 & E & [= <-])%bind_Some. by apply Hf.
Qed.

Lemma triple_select {A} P (f : ClientDb → A) : triple P (run_sql (select f)) (λ a d, P d ∧ f d = a).
Proof. apply triple_sql. intros d a d' Hi Hp [= <- <-]. by split_and!. Qed.

Lemma triple_cursor P room : triple P (cursor room) (λ n d, P d ∧ cursor_of room d = n).
Proof. apply triple_select. Qed.

(** ** Transactions *)

(** The connection's state is as before: what holds inside a transaction. *)
Record held (s s' : Store) : Prop := {
  held_saved : saved s' = saved s;
  held_owner : owner s' = owner s;
  held_poisoned : poisoned s' = poisoned s;
}.

#[global] Instance held_preorder : PreOrder held.
Proof. split; [done|]. intros s1 s2 s3 [] []. split; congruence. Qed.

Definition helds (c c' : Client) : Prop := held (store c) (store c').

#[global] Instance helds_preorder : PreOrder helds.
Proof. split; [by intros c|]. intros c1 c2 c3. unfold helds. apply transitivity. Qed.

Lemma still_held s s' : still s s' → held s s'.
Proof. intros []. by split. Qed.

(** [transact] and [atomic] differ in what they do after an error. *)
Definition bracket {A} (after_error : Client → Client) (m : ClientM A) : ClientM A := λ w c,
  match on_store open_transaction w c with
  | (Err e, c) => (Err e, c)
  | (Ok _, c) =>
      match (a ← m; on_store commit_transaction;; mret a) w c with
      | (Ok a, c) => (Ok a, c)
      | (Err e, c) => (Err e, after_error (set_store (drop_transaction w) c))
      end
  end.

Lemma transact_bracket {A} (m : ClientM A) : transact m = bracket id m.
Proof. done. Qed.
Lemma atomic_bracket {A} (m : ClientM A) : atomic m = bracket clear_groups m.
Proof. done. Qed.

Lemma open_Ok w s u s' : open_transaction w s = (Ok u, s') →
  poisoned s = false ∧ owner s = None ∧ saved s = None ∧ mutex_poisoned w = false ∧
  s' = MkStore (db s) (Some (db s)) (Some (thread w)) (poisoned s) (S (ticks s)) (new_data_limit s).
Proof.
  unfold open_transaction, mbind, StoreM_bind. pose proof (lock_state w s) as Hl.
  destruct (lock w s) as [[u1|e] s1] eqn:El; simpl in Hl; subst s1; [|done].
  apply lock_Ok in El as (_ & Hp & Hm & _). destruct (owner s) as [id|] eqn:Eo; [done|].
  unfold execute_begin. destruct (sql_fails w (ticks s)); [done|].
  destruct (saved s) as [d|] eqn:Es; [done|]. intros [= <- <-]. done.
Qed.

Lemma open_Err w s e s' : open_transaction w s = (Err e, s') →
  db s' = db s ∧ saved s' = saved s ∧ owner s' = owner s ∧ poisoned s' = poisoned s.
Proof.
  unfold open_transaction, mbind, StoreM_bind. pose proof (lock_state w s) as Hl.
  destruct (lock w s) as [[u1|e'] s1] eqn:El; simpl in Hl; subst s1; [|by intros [= _ <-]].
  destruct (owner s) as [id|] eqn:Eo; [by intros [= _ <-]|].
  unfold execute_begin. destruct (sql_fails w (ticks s)); [by intros [= _ <-]|].
  destruct (saved s) as [d|] eqn:Es; [by intros [= _ <-]|]. done.
Qed.

(** In an open transaction of this thread. *)
Definition inside (w : World) (d : ClientDb) (s : Store) : Prop :=
  saved s = Some d ∧ owner s = Some (thread w) ∧ poisoned s = false ∧ mutex_poisoned w = false.

Lemma lock_inside w d s : inside w d s → lock w s = (Ok tt, s).
Proof. intros (_ & Ho & Hp & Hm). unfold lock. rewrite Hp, Hm, Ho. simpl. by rewrite decide_True. Qed.

Lemma commit_inside w d s r s' : inside w d s → commit_transaction w s = (r, s') →
  (r = Ok tt ∧ saved s' = None ∧ owner s' = None ∧ db s' = db s) ∨
  (∃ e, r = Err e ∧ inside w d s').
Proof.
  intros Hin. unfold commit_transaction, mbind, StoreM_bind. rewrite (lock_inside w d s Hin).
  pose proof Hin as (Hs & Ho & Hp & Hm).
  unfold execute_commit. destruct (sql_fails w (ticks s)).
  - intros [= <- <-]. right. eexists. split; [done|]. done.
  - rewrite Hs. intros [= <- <-]. left. done.
Qed.

Lemma drop_inside w d s : inside w d s →
  between (drop_transaction w s) ∧ durable (drop_transaction w s) = d.
Proof.
  intros Hin. unfold drop_transaction. rewrite (lock_inside w d s Hin).
  destruct Hin as (Hs & Ho & Hp & Hm). unfold execute_rollback.
  destruct (sql_fails w (ticks s)); simpl.
  - unfold between, durable. simpl. rewrite Hs. split; [right; eauto|done].
  - rewrite Hs. simpl. unfold between, durable. simpl. split; [by left|done].
Qed.

(** A bracket is all or nothing. *)
Lemma bracket_cases {A} fin (m : ClientM A) w c r c' :
  along helds m → (∀ c, store (fin c) = store c) → between (store c) →
  bracket fin m w c = (r, c') →
  (∃ e, r = Err e ∧ between (store c') ∧ durable (store c') = durable (store c)) ∨
  (∃ a c0 c1, r = Ok a ∧ saved (store c) = None ∧
     db (store c0) = db (store c) ∧ groups c0 = groups c ∧ m w c0 = (Ok a, c1) ∧
     between (store c') ∧ durable (store c') = db (store c1) ∧ groups c' = groups c1).
Proof.
  intros Hm Hfin Hb E. unfold bracket in E. unfold on_store at 1 in E.
  destruct (open_transaction w (store c)) as [[u|e] s1] eqn:Eo; cycle 1.
  { left. exists (StoreFailed e). injection E as <- <-. apply open_Err in Eo as (Ed & Es & Ew & Ep).
    unfold between, durable in *. simpl. rewrite Es, Ew, Ep, Ed. done. }
  apply open_Ok in Eo as (Hp & Ho & Hs & Hmx & ->).
  set (c0 := set_store _ c) in E. assert (inside w (db (store c)) (store c0)) as Hin by done.
  assert (durable (store c) = db (store c)) as Hdc by (unfold durable; by rewrite Hs).
  unfold mbind, ClientM_bind in E. pose proof (Hm w c0) as Hh.
  destruct (m w c0) as [[a|e] c1] eqn:Em; simpl in Hh;
    (assert (inside w (db (store c)) (store c1)) as Hin1
       by (destruct Hh as [E1 E2 E3]; unfold inside in *; by rewrite E1, E2, E3)).
  - unfold on_store in E. destruct (commit_transaction w (store c1)) as [r1 s2] eqn:Ec.
    apply (commit_inside w _ _ _ _ Hin1) in Ec as [(-> & Es2 & Eo2 & Ed2)|(e & -> & Hin2)];
      injection E as <- <-.
    + right. exists a, c0, c1. split_and!; try done.
      * by left.
      * unfold durable. simpl. by rewrite Es2.
    + left. exists (StoreFailed e). rewrite Hfin. simpl. apply drop_inside in Hin2 as [? ->].
      by rewrite Hdc.
  - left. exists e. injection E as <- <-. rewrite Hfin. simpl.
    apply drop_inside in Hin1 as [? ->]. by rewrite Hdc.
Qed.

(** Inside a transaction: from tables that satisfy [P], [m] leaves [Q] when it returns. *)
Definition inner {A} (P : ClientDb → Prop) (m : ClientM A) (Q : A → ClientDb → Prop) : Prop :=
  ∀ w c a c', P (db (store c)) → m w c = (Ok a, c') → Q a (db (store c')).

Lemma triple_bracket {A} fin P (m : ClientM A) Q :
  (∀ c, store (fin c) = store c) → along helds m →
  (∀ d0, journal_inv user d0 → P d0 →
     inner (λ d, d = d0) m (λ a d, journal_inv user d ∧ grows d0 d ∧ Q a d)) →
  triple P (attempt (bracket fin m)) (λ r d, match r with Ok a => Q a d | Err _ => P d end).
Proof.
  intros Hfin Hm Hq w c [Hb Hi] Hp. unfold attempt.
  destruct (bracket fin m w c) as [r c'] eqn:E. simpl.
  apply (bracket_cases fin m w c r c' Hm Hfin Hb) in E as [(e & -> & Hb' & Hd)|(a & c0 & c1 & -> & Hs & Hdb & _ & Em & Hb' & Hd & _)].
  - unfold good. by rewrite Hd.
  - assert (durable (store c) = db (store c)) as Hdc by (unfold durable; by rewrite Hs).
    rewrite Hdc in *. rewrite <- Hdb in *.
    edestruct (Hq _ Hi Hp w c0 a c1 eq_refl Em) as (Hi' & Hg & HQ).
    unfold good. by rewrite Hd.
Qed.

Lemma triple_attempt_inv {A} P Q R (m : ClientM A) :
  triple P (attempt m) (λ r d, match r with Ok a => Q a d | Err _ => R d end) → triple P m Q.
Proof.
  intros Hm w c Hg Hp. specialize (Hm w c Hg Hp). unfold attempt in Hm.
  destruct (m w c) as [[a|e] c']; simpl in *; naive_solver.
Qed.

(** ** Inside a transaction *)

Lemma inner_bind {A B} P Q R (m : ClientM A) (k : A → ClientM B) :
  inner P m Q → (∀ a, inner (Q a) (k a) R) → inner P (m ≫= k) R.
Proof.
  intros Hm Hk w c b c' Hp. unfold mbind, ClientM_bind.
  destruct (m w c) as [[a|e] c1] eqn:E; [|done]. intros E'. eapply Hk; [|exact E']. by eapply Hm.
Qed.

Lemma inner_conseq {A} (P P' : ClientDb → Prop) (Q Q' : A → ClientDb → Prop) m :
  inner P m Q → (∀ d, P' d → P d) → (∀ a d, Q a d → Q' a d) → inner P' m Q'.
Proof. intros Hm HP HQ w c a c' Hp E. eapply HQ, Hm; [by apply HP|done]. Qed.

Lemma inner_still {A} P (m : ClientM A) : along stills m → core_only P → inner P m (λ _, P).
Proof.
  intros Hm HP w c a c' Hp E. specialize (Hm w c). rewrite E in Hm. destruct Hm as [[_ _ _ Hc] _].
  by eapply HP.
Qed.

Lemma inner_ret {A} P (a : A) (Q : A → ClientDb → Prop) : (∀ d, P d → Q a d) → inner P (mret a) Q.
Proof. intros HQ w c b c' Hp [= <- <-]. by apply HQ. Qed.

Lemma inner_guard P b e : inner P (guard b e) (λ _ d, P d ∧ b = true).
Proof. intros w c u c' Hp. destruct b; [|done]. by intros [= _ <-]. Qed.

Lemma inner_lift {A} P (r : result ClientError A) : inner P (lift r) (λ a d, P d ∧ r = Ok a).
Proof. intros w c a c' Hp [= -> <-]. done. Qed.

Lemma inner_update P f (Q : ClientDb → Prop) :
  (∀ d d', P d → f d = Some d' → Q d') → inner P (run_sql (update f)) (λ _, Q).
Proof.
  intros Hf w c [] c' Hp. unfold run_sql, on_store, mbind, StoreM_bind.
  pose proof (lock_state w (store c)) as Hl.
  destruct (lock w (store c)) as [[u|e] s1]; simpl in Hl; subst s1; [|done].
  unfold update, sql. destruct (sql_fails w (ticks (store c))); [done|].
  destruct (f (db (store c))) as [d'|] eqn:E; simpl; [|done]. intros [= <-]. simpl. by eapply Hf.
Qed.

(** *** Programs that keep the connection's state *)

Lemma along_held {A} (m : ClientM A) : along stills m → along helds m.
Proof. intros Hm w c. by apply still_held, Hm. Qed.

Lemma along_held_update f : along helds (run_sql (update f)).
Proof.
  intros w c. unfold run_sql, on_store, mbind, StoreM_bind. pose proof (lock_state w (store c)) as Hl.
  destruct (lock w (store c)) as [[u|e] s1]; simpl in Hl; subst s1; [|done].
  unfold update, sql. destruct (sql_fails w (ticks (store c))); [done|].
  by destruct (f (db (store c))).
Qed.

(** A transaction that touches nothing of the core. *)
Lemma triple_bracket_still {A} fin P (m : ClientM A) :
  (∀ c, store (fin c) = store c) → along stills m → core_only P →
  triple P (attempt (bracket fin m)) (λ _, P).
Proof.
  intros Hfin Hm HP.
  eapply triple_conseq; [apply (triple_bracket fin P m (λ _, P) Hfin)|done|by intros []].
  - by apply along_held.
  - intros d0 Hi Hp w c a c' <- E. specialize (Hm w c). rewrite E in Hm.
    destruct Hm as [[_ _ _ Hc] _]. split_and!; [by eapply inv_core|by eapply grows_core|by eapply HP].
Qed.

Lemma triple_atomic_still {A} P (m : ClientM A) :
  along stills m → core_only P → triple P (atomic m) (λ _, P).
Proof.
  intros Hm HP. rewrite atomic_bracket. eapply (triple_attempt_inv _ _ P).
  eapply triple_conseq; [by apply triple_bracket_still|done|by intros []].
Qed.

Lemma triple_transact_still {A} P (m : ClientM A) :
  along stills m → core_only P → triple P (transact m) (λ _, P).
Proof.
  intros Hm HP. rewrite transact_bracket. eapply (triple_attempt_inv _ _ P).
  eapply triple_conseq; [by apply triple_bracket_still|done|by intros []].
Qed.

(** A transaction of the store is one of the engine. *)
Lemma in_transaction_transact {A} (m : StoreM A) w c :
  on_store (in_transaction m) w c = transact (on_store m) w c.
Proof.
  unfold on_store at 1, transact, in_transaction, on_store at 1.
  destruct (open_transaction w (store c)) as [[u|e] s1]; [|done].
  unfold mbind, StoreM_bind, ClientM_bind, on_store. simpl.
  destruct (m w s1) as [[a|e] s2]; [|done]. simpl.
  by destruct (commit_transaction w s2) as [[u'|e] s3].
Qed.
End logic.

#[export] Hint Resolve held_preorder helds_preorder : grotto.
