(* ===== verification/ClientRuns.v ===== *)
(** * Runs of the client keep its journal

    Every statement and every transaction of the engine keeps the invariant of
    [ClientJournal], whatever the relay answers and whatever fails; hence every run does. *)
From S2P Require Import Prelude Bytes Text Postcard Protocol Wire Identifiers Transcripts Framing.
From S2P Require Import Crypto ClientCommands ClientStore ClientContacts ClientMls ClientDelivery ClientSync ClientTx.
From S2P Require Import ClientJournal.

(** ** Tables *)

Section tables.
Context `{Postcard}.
Variable user : UserId.

Definition has_row (e : Event.t) (d : ClientDb) : Prop := ∃ r, r ∈ inbox d ∧ row_of r e.

Definition room_of (e : Event.t) : RoomId := Append.room (Event.operation e).
Definition parent_of (e : Event.t) : Z := Append.parent (Event.operation e).

(** The event is received and the next one of its room. *)
Definition next_up (e : Event.t) (d : ClientDb) : Prop :=
  has_row e d ∧ cursor_of (room_of e) d = parent_of e.

Lemma has_row_grows e d d' : grows d d' → has_row e d → has_row e d'.
Proof.
  intros Hg (r & Hr & R0 & R1 & R2 & R3 & R4). destruct (grows_inbox _ _ Hg r Hr) as (r' & Hr' & E1 & E2 & E3 & _).
  exists r'. split; [done|]. unfold position in E2. injection E2 as E4 E5. unfold row_of. split_and!; congruence.
Qed.

Lemma has_row_core e : core_only (has_row e).
Proof. intros d d' (_ & E & _)%core_fields (r & ? & ?). exists r. by rewrite E. Qed.
Lemma next_up_core e : core_only (next_up e).
Proof.
  intros d d' E [Hr Hc]. split; [by eapply has_row_core|].
  apply core_fields in E as (E & _). unfold cursor_of in *. by rewrite E.
Qed.

(** Rows are told apart by their event and by their position. *)
Lemma row_by_event d r r' :
  journal_inv user d → r ∈ inbox d → r' ∈ inbox d → inbox_event r = inbox_event r' → r = r'.
Proof.
  intros Hi (i & Hr)%list_elem_of_lookup (j & Hr')%list_elem_of_lookup E.
  assert (i = j) as <-; [|congruence].
  eapply NoDup_lookup; [apply (inv_ids user d Hi)|rewrite list_lookup_fmap, Hr|rewrite list_lookup_fmap, Hr']; simpl;
    [done|by rewrite E].
Qed.

Lemma next_up_unsettled e d r :
  journal_inv user d → next_up e d → r ∈ inbox d → inbox_event r = Event.id e → row_of r e ∧ ¬ settled r.
Proof.
  intros Hi [(r' & Hr' & Hrow) Hc] Hr E. assert (r = r') as <-.
  { eapply row_by_event; [done..|]. destruct Hrow as (_ & _ & -> & _). done. }
  split; [done|]. intros Hs. destruct (inv_settled user d Hi r Hr Hs) as (n & Hn & Hle).
  destruct Hrow as (_ & _ & _ & E1 & E2). unfold cursor_of, room_of, parent_of in Hc.
  rewrite <- E1, Hn in Hc. simpl in Hc. lia.
Qed.

Definition marked (id : MessageId) (state : ProcessingState) (r : InboxRow) : InboxRow :=
  if decide (inbox_event r = id)
  then MkInboxRow (inbox_event r) (inbox_room r) (inbox_sequence r) (inbox_record r) state
  else r.

Lemma marked_same id state r :
  inbox_event (marked id state r) = inbox_event r ∧ position (marked id state r) = position r ∧
  inbox_record (marked id state r) = inbox_record r ∧ inbox_room (marked id state r) = inbox_room r ∧
  inbox_sequence (marked id state r) = inbox_sequence r.
Proof. unfold marked. by case_decide. Qed.

Lemma marked_row id state r e : row_of (marked id state r) e ↔ row_of r e.
Proof. unfold row_of. by destruct (marked_same id state r) as (-> & _ & -> & -> & ->). Qed.

(** Marking the rows of an unsettled event. *)
Lemma mark_kept id state (l : list InboxRow) :
  (∀ r, r ∈ l → inbox_event r = id → ¬ settled r) →
  ∀ r, r ∈ l → ∃ r', r' ∈ marked id state <$> l ∧ row_kept r r'.
Proof.
  intros Hu r Hr. exists (marked id state r). split; [by apply list_elem_of_fmap_2|].
  destruct (marked_same id state r) as (E1 & E2 & E3 & _). split_and!; [done..|].
  intros Hs. unfold marked. case_decide; [|done]. by destruct (Hu r).
Qed.

Lemma fmap_same {A B} (f : A → B) (g : A → A) (l : list A) :
  (∀ a, f (g a) = f a) → f <$> (g <$> l) = f <$> l.
Proof. intros E. rewrite <- list_fmap_compose. by apply list_fmap_ext; intros i x _; apply E. Qed.

Lemma marked_in id state (l : list InboxRow) r : r ∈ marked id state <$> l → ∃ r0, r0 ∈ l ∧ r = marked id state r0.
Proof. intros (r0 & -> & ?)%list_elem_of_fmap. eauto. Qed.

(** History rows of others come from rows of [d] or are new ones that satisfy [X]. *)
Definition history_from (X : HistoryRow → Prop) (d d' : ClientDb) : Prop :=
  ∀ h, h ∈ history_rows d' → history_author h ≠ user → X h ∨
    ∃ h0, h0 ∈ history_rows d ∧ history_message h0 = history_message h ∧
      history_room h0 = history_room h ∧ history_author h0 = history_author h.

Definition none : HistoryRow → Prop := λ _, False.

(** *** Blocked *)
Lemma mark_blocked e d :
  journal_inv user d → next_up e d →
  journal_inv user (mark_event (Event.id e) Blocked d) ∧ grows d (mark_event (Event.id e) Blocked d).
Proof.
  intros Hi Hn. pose proof (λ r Hr E, proj2 (next_up_unsettled e d r Hi Hn Hr E)) as Hu.
  assert (inbox (mark_event (Event.id e) Blocked d) = marked (Event.id e) Blocked <$> inbox d) as Ei by done.
  assert (∀ r, settled (marked (Event.id e) Blocked r) → settled r ∧ marked (Event.id e) Blocked r = r) as Hset.
  { intros r. unfold marked, settled. case_decide; simpl; [by intros [?|?]|done]. }
  split.
  - destruct Hi as [A B C D E F]. split; rewrite ?Ei; simpl.
    + rewrite fmap_same; [done|]. intros r. apply marked_same.
    + rewrite fmap_same; [done|]. intros r. apply marked_same.
    + intros r (r0 & Hr & ->)%marked_in. destruct (C r0 Hr) as [e0 ?]. exists e0. by apply marked_row.
    + intros r (r0 & Hr & ->)%marked_in [Hs ->]%Hset. by apply D.
    + intros r n s (r0 & Hr & ->)%marked_in [Hs ->]%Hset Hc Hle. destruct (E r0 n s Hr Hs Hc Hle) as (r & Hr' & Hp & Hs').
      exists r. split; [|done].
      apply list_elem_of_fmap. exists r. split; [|done]. unfold marked. case_decide; [|done]. by destruct (Hu r).
    + intros h Hh Ha. destruct (F h Hh Ha) as (r & e0 & Hr & Hrow & Hst & ? & ? & ?). exists r, e0.
      split_and!; [|done..]. apply list_elem_of_fmap. exists r. split; [|done].
      unfold marked. case_decide; [|done]. destruct (Hu r); [done..|by left].
  - split; try done; [|apply (grows_same (mark_event (Event.id e) Blocked d))]. rewrite Ei. by apply mark_kept.
Qed.

(** *** Finished *)
Lemma finish_inv e state d d' :
  journal_inv user d → next_up e d → (state = Applied ∨ state = Rejected) →
  inbox d' = marked (Event.id e) state <$> inbox d →
  cursors d' = <[room_of e := parent_of e + 1]> (cursors d) →
  history_from (λ h, state = Applied ∧ history_message h = Event.id e ∧ history_room h = room_of e ∧
                     history_author h = Event.sender e) d d' →
  journal_inv user d'.
Proof.
  intros Hi Hn Hst Ei Ec Hh. pose proof (λ r Hr E, proj2 (next_up_unsettled e d r Hi Hn Hr E)) as Hu.
  pose proof Hn as [(re & Hre & Hrow) Hcur].
  assert (∀ r, r ∈ inbox d → settled r → marked (Event.id e) state r = r) as Hsame.
  { intros r Hr Hs. unfold marked. case_decide; [|done]. by destruct (Hu r). }
  assert (marked (Event.id e) state re ∈ inbox d') as Hme by (rewrite Ei; by apply list_elem_of_fmap_2).
  assert (settled (marked (Event.id e) state re)) as Hse.
  { unfold marked. rewrite decide_True by apply Hrow. done. }
  assert (position (marked (Event.id e) state re) = (room_of e, parent_of e + 1)) as Hpe.
  { destruct (marked_same (Event.id e) state re) as (_ & -> & _). destruct Hrow as (_ & _ & _ & E1 & E2).
    unfold position, room_of, parent_of. by rewrite E1, E2. }
  assert (∀ room n, cursors d !! room = Some n → ∃ n', cursors d' !! room = Some n' ∧ n ≤ n') as Hmono.
  { intros room n Hr. rewrite Ec. destruct (decide (room = room_of e)) as [->|Hne].
    - rewrite lookup_insert_eq. eexists. split; [done|]. unfold cursor_of in Hcur. rewrite Hr in Hcur. simpl in Hcur. lia.
    - rewrite lookup_insert_ne by done. eauto with lia. }
  split.
  - rewrite Ei, fmap_same; [apply Hi|]. intros r. apply marked_same.
  - rewrite Ei, fmap_same; [apply Hi|]. intros r. apply marked_same.
  - rewrite Ei. intros r (r0 & Hr & ->)%marked_in. destruct (inv_records user d Hi r0 Hr) as [e0 ?].
    exists e0. by apply marked_row.
  - intros r Hr Hs. rewrite Ei in Hr. apply marked_in in Hr as (r0 & Hr & ->).
    destruct (decide (inbox_event r0 = Event.id e)) as [E|Hne].
    + destruct (next_up_unsettled e d r0 Hi Hn Hr E) as [(_ & _ & _ & E1 & E2) _].
      destruct (marked_same (Event.id e) state r0) as (_ & _ & _ & -> & ->). rewrite E1, E2, Ec.
      exists (parent_of e + 1). unfold room_of, parent_of. rewrite lookup_insert_eq. split; [done|lia].
    + assert (marked (Event.id e) state r0 = r0) as Er by (unfold marked; by rewrite decide_False).
      rewrite Er in *. destruct (inv_settled user d Hi r0 Hr Hs) as (n & (n' & ? & ?)%Hmono & ?).
      exists n'. split; [done|lia].
  - assert (∀ room s, settled_at d room s → settled_at d' room s) as Hold.
    { intros room s (r & Hr & Hp & Hs). exists r. split; [|done]. rewrite Ei, <- (Hsame r Hr Hs).
      by apply list_elem_of_fmap_2. }
    intros r n s Hr Hs Hc Hle. rewrite Ei in Hr. apply marked_in in Hr as (r0 & Hr & ->).
    destruct (marked_same (Event.id e) state r0) as (_ & _ & _ & E1 & E2). rewrite E1 in *. rewrite E2 in Hle.
    destruct (decide (inbox_room r0 = room_of e)) as [Er|Hne]; rewrite Ec in Hc; cycle 1.
    { rewrite lookup_insert_ne in Hc by done. apply Hold. destruct (decide (inbox_event r0 = Event.id e)) as [E|Hid].
      - destruct (next_up_unsettled e d r0 Hi Hn Hr E) as [(_ & _ & _ & E3 & _) _]. by rewrite E3 in Hne.
      - assert (marked (Event.id e) state r0 = r0) as E by (unfold marked; by rewrite decide_False). rewrite E in Hs.
        by eapply (inv_contiguous user d Hi). }
    rewrite Er, lookup_insert_eq in Hc. injection Hc as <-. rewrite Er.
    destruct (decide (s = parent_of e + 1)) as [->|]; [by eexists|].
    destruct (decide (inbox_event r0 = Event.id e)) as [E|Hid].
    { destruct (next_up_unsettled e d r0 Hi Hn Hr E) as [(_ & _ & _ & _ & E4) _]. rewrite E4 in Hle. unfold parent_of in *. lia. }
    assert (marked (Event.id e) state r0 = r0) as E by (unfold marked; by rewrite decide_False). rewrite E in Hs.
    destruct (inv_settled user d Hi r0 Hr Hs) as (m & Hm & _). unfold cursor_of in Hcur. rewrite <- Er, Hm in Hcur. simpl in Hcur.
    apply Hold. rewrite <- Er. apply (inv_contiguous user d Hi r0 m); [done..|lia].
  - intros h Hin Ha. destruct (Hh h Hin Ha) as [(-> & E1 & E2 & E3)|(h0 & Hin0 & E1 & E2 & E3)].
    + exists (marked (Event.id e) Applied re), e. split_and!; try done.
      * by apply marked_row.
      * unfold marked. by rewrite decide_True by apply Hrow.
      * destruct (marked_same (Event.id e) Applied re) as (_ & _ & _ & -> & _). rewrite E2.
        by destruct Hrow as (_ & _ & _ & -> & _).
    + destruct (inv_history user d Hi h0 Hin0) as (r & e0 & Hr & Hrow0 & Hap & ? & ? & ?); [congruence|].
      exists r, e0. split_and!; try congruence; [|done..].
      rewrite Ei, <- (Hsame r Hr) by (by left). by apply list_elem_of_fmap_2.
Qed.

Lemma finish_grows e state d d' :
  journal_inv user d → next_up e d → (state = Applied ∨ state = Rejected) →
  inbox d' = marked (Event.id e) state <$> inbox d →
  cursors d' = <[room_of e := parent_of e + 1]> (cursors d) →
  contacts d' = contacts d → transport_identity d' = transport_identity d →
  mls_identity d' = mls_identity d → grows d d'.
Proof.
  intros Hi Hn Hst Ei Ec E1 E2 E3. split; rewrite ?E1, ?E2, ?E3; try done.
  - rewrite Ei. apply mark_kept. intros r Hr E. by apply (next_up_unsettled e d r Hi Hn).
  - intros room n Hr. rewrite Ec. destruct Hn as [(re & Hre & Hrow) Hcur]. destruct (decide (room = room_of e)) as [->|Hne].
    + rewrite lookup_insert_eq. eexists. unfold cursor_of in Hcur. rewrite Hr in Hcur. simpl in Hcur.
      split_and!; [done|lia|]. intros s Hs. exists (marked (Event.id e) state re).
      destruct (marked_same (Event.id e) state re) as (_ & Hp & _). destruct Hrow as (_ & _ & E & Er & Es).
      split_and!; [rewrite Ei; by apply list_elem_of_fmap_2| |unfold marked; by rewrite decide_True].
      rewrite Hp. unfold position, room_of, parent_of in *. rewrite Er, Es. f_equal. lia.
    + rewrite lookup_insert_ne by done. exists n. split_and!; [done|lia|lia].
Qed.

(** *** Received *)
Lemma insert_inbox_inv e n record d d' :
  journal_inv user d → valid c_event e → event_position e = Some n → encode_message c_event e = Ok record →
  insert_inbox (Event.id e) (room_of e) n record d = Some d' →
  journal_inv user d' ∧ grows d d' ∧ has_row e d'.
Proof.
  intros Hi Hv En Er Ed. unfold insert_inbox in Ed.
  destruct (received_rows _ _ _ d) as [|x l] eqn:Ef; [|done]. injection Ed as <-.
  set (r := MkInboxRow (Event.id e) (room_of e) n record Received).
  assert (n = parent_of e + 1) as Hn.
  { unfold event_position, Event.sequence, checked_add, u64_param in En. by case_decide; simplify_option_eq. }
  assert (row_of r e) as Hrow by (by unfold row_of).
  assert (∀ r0, r0 ∈ inbox d → inbox_event r0 ≠ Event.id e ∧ position r0 ≠ (room_of e, n)) as Hfree.
  { intros r0 Hr0. assert (r0 ∉ received_rows (Event.id e) (room_of e) n d) as Hnot by (rewrite Ef; apply not_elem_of_nil).
    unfold received_rows in Hnot. rewrite list_elem_of_filter in Hnot. unfold position.
    split; [naive_solver|]. intros [= ? ?]. apply Hnot. auto. }
  assert (∀ r0, r0 ∈ inbox d → r0 ∈ inbox d ++ [r]) as Hsub by set_solver.
  split_and!.
  - destruct Hi as [A B C D E F]. split; simpl.
    + rewrite fmap_app. apply NoDup_app. split_and!; [done| |apply NoDup_singleton].
      intros x (r0 & -> & Hr0)%list_elem_of_fmap Hx%list_elem_of_singleton. by destruct (Hfree r0 Hr0).
    + rewrite fmap_app. apply NoDup_app. split_and!; [done| |apply NoDup_singleton].
      intros x (r0 & -> & Hr0)%list_elem_of_fmap Hx%list_elem_of_singleton. by destruct (Hfree r0 Hr0).
    + intros r0 [?| ->%list_elem_of_singleton]%elem_of_app; [by apply C|eauto].
    + intros r0 [?| ->%list_elem_of_singleton]%elem_of_app; [by apply D|]. by intros [?|?].
    + intros r0 m s [Hr0| ->%list_elem_of_singleton]%elem_of_app Hs; [|by destruct Hs].
      intros Hc Hle. destruct (E r0 m s Hr0 Hs Hc Hle) as (r1 & ? & ?). exists r1. auto.
    + intros h Hh Ha. destruct (F h Hh Ha) as (r0 & e0 & ? & ?). exists r0, e0. auto.
  - split; simpl; try done; [|apply (grows_same (set_inbox (λ l, l ++ [r]) d))].
    intros r0 Hr0. exists r0. split; [by apply Hsub|by repeat split].
  - exists r. simpl. split; [set_solver|done].
Qed.

(** *** A room's first cursor *)
Lemma new_cursor_inv room n d :
  journal_inv user d → cursors d !! room = None →
  journal_inv user (set_cursors <[room := n]> d) ∧ grows d (set_cursors <[room := n]> d).
Proof.
  intros Hi Hnone.
  assert (∀ room' m, cursors d !! room' = Some m → <[room := n]> (cursors d) !! room' = Some m) as Hkeep.
  { intros room' m Hm. rewrite lookup_insert_ne; [done|]. by intros ->; rewrite Hnone in Hm. }
  split.
  - destruct Hi as [A B C D E F]. split; simpl; try done.
    + intros r Hr (m & Hm & ?)%D; [|done]. eauto.
    + intros r m s Hr Hs Hm Hle. destruct (D r Hr Hs) as (m' & Hm' & _). eapply E; [done..| |done].
      rewrite (Hkeep _ _ Hm') in Hm. by injection Hm as ->.
  - split; simpl; try done; [|intros room' m Hm; exact (grows_same (set_cursors <[room := n]> d) room' m (Hkeep _ _ Hm))].
    intros r Hr. exists r. by repeat split.
Qed.

Lemma ensure_cursor_inv room d :
  journal_inv user d → journal_inv user (ensure_cursor room d) ∧ grows d (ensure_cursor room d).
Proof.
  intros Hi. unfold ensure_cursor. destruct (cursors d !! room) as [n|] eqn:E.
  - assert (core (set_cursors (λ m, <[room := default 0 (m !! room)]> m) d) = core d) as Hc.
    { unfold core. simpl. rewrite E. simpl. by rewrite insert_id. }
    split; [by eapply inv_core|by eapply grows_core].
  - destruct (new_cursor_inv room 0 d Hi E) as [Ha Hb].
    assert (core (set_cursors (λ m, <[room := default 0 (m !! room)]> m) d) = core (set_cursors <[room := 0]> d)) as Hc.
    { unfold core. simpl. by rewrite E. }
    split; [by eapply inv_core|by eapply grows_core].
Qed.

(** *** History *)

(** Tables that differ in their history only. *)
Record history_only (d d' : ClientDb) : Prop := {
  same_inbox : inbox d' = inbox d;
  same_cursors : cursors d' = cursors d;
  same_contacts : contacts d' = contacts d;
  same_identity : transport_identity d' = transport_identity d;
  same_mls_identity : mls_identity d' = mls_identity d;
}.

Lemma history_only_inv d d' :
  journal_inv user d → history_only d d' → history_from none d d' →
  journal_inv user d' ∧ grows d d'.
Proof.
  intros Hi [E1 E2 E3 E4 E5] Hh. split.
  - destruct Hi as [A B C D E F]. unfold settled_at in *. split; unfold settled_at; rewrite ?E1, ?E2; try done.
    intros h Hin Ha. destruct (Hh h Hin Ha) as [[]|(h0 & Hin0 & H1 & H2 & H3)].
    destruct (F h0 Hin0) as (r & e & ? & ? & ? & ? & ? & ?); [congruence|]. exists r, e.
    split_and!; congruence.
  - split; rewrite ?E3, ?E4, ?E5; try done; [|rewrite <- E2; apply grows_same].
    rewrite E1. intros r Hr. exists r. by repeat split.
Qed.

Lemma history_from_refl X d d' : history_rows d' = history_rows d → history_from X d d'.
Proof. intros E h Hh Ha. right. exists h. by rewrite <- E. Qed.

Lemma history_from_trans X d1 d2 d3 :
  history_from X d1 d2 → history_from X d2 d3 →
  (∀ h h', X h → history_message h = history_message h' → history_room h = history_room h' →
     history_author h = history_author h' → X h') → history_from X d1 d3.
Proof.
  intros H1 H2 HX h Hh Ha. destruct (H2 h Hh Ha) as [?|(h0 & Hh0 & E1 & E2 & E3)]; [by left|].
  destruct (H1 h0 Hh0) as [?|(h1 & ? & ? & ? & ?)]; [congruence|left; by eapply HX|].
  right. exists h1. split_and!; congruence.
Qed.

Lemma insert_history_from X id room n author plaintext d :
  (author ≠ user → ∀ rowid, X (MkHistoryRow rowid id room n author plaintext)) →
  history_from X d (insert_history id room n author plaintext d) ∧
  history_only d (insert_history id room n author plaintext d).
Proof.
  intros HX. unfold insert_history. case_decide; (split; [|by split]).
  - intros h Hh Ha. simpl in Hh. apply list_elem_of_fmap in Hh as (h0 & -> & Hh0). right.
    exists h0. split; [done|]. by case_decide; subst.
  - intros h [Hh| ->%list_elem_of_singleton]%elem_of_app Ha; [right; eauto|left]. by apply HX.
Qed.

Lemma settle_history_from X id n d d' :
  settle_history id n d = Some d' → history_from X d d' ∧ history_only d d'.
Proof.
  unfold settle_history. intros (m & _ & [= <-])%bind_Some. split; [|by split].
  intros h Hh Ha. simpl in Hh. apply list_elem_of_fmap in Hh as (h0 & -> & Hh0). right.
  exists h0. split; [done|]. by case_decide; subst.
Qed.

Lemma delete_history_from X id d : history_from X d (delete_history id d) ∧ history_only d (delete_history id d).
Proof.
  split; [|by split]. intros h Hh Ha. simpl in Hh. apply list_elem_of_filter in Hh as [_ Hh]. right. eauto.
Qed.

(** *** Contacts *)
Lemma insert_contact_inv `{Sha256} card d d' :
  journal_inv user d → insert_contact card d = Some d' → journal_inv user d' ∧ grows d d'.
Proof.
  intros Hi E. unfold insert_contact in E. case_decide; [|done]. injection E as <-.
  destruct (contacts d !! card_user card) eqn:Ec; [done|]. split.
  - destruct Hi as [A B C D E F]. by split.
  - split; simpl; try done; [|apply (grows_same (set_contacts <[card_user card:=MkContactRow (mls_key card) (card_bytes card)]> d))|by apply insert_subseteq]. intros r Hr. exists r. by repeat split.
Qed.
End tables.
