(* ===== verification/ClientEngine.v ===== *)
(** * The engine's programs keep the journal

    One lemma per program of the engine, in the order of their calls, in the logic of
    [ClientJournal]. *)
From S2P Require Import Prelude Bytes Text Postcard Protocol Wire Identifiers Transcripts Framing.
From S2P Require Import Crypto ClientCommands ClientStore ClientContacts ClientMls ClientDelivery ClientSync ClientTx.
From S2P Require Import ClientJournal ClientRuns.

Section engine.
Context `{Postcard} `{Sha256} `{Ed25519Signer} `{Mls}.
Variable user : UserId.

Abbreviation triple := (triple user).
Abbreviation kept m := (triple (λ _, True) m (λ _ _, True)).

(** ** Inversion of the monad *)

Lemma client_bind_Ok {A B} (m : ClientM A) (k : A → ClientM B) w c b c' :
  (m ≫= k) w c = (Ok b, c') → ∃ a c1, m w c = (Ok a, c1) ∧ k a w c1 = (Ok b, c').
Proof. unfold mbind, ClientM_bind. destruct (m w c) as [[a|e] c1]; [eauto|done]. Qed.

Lemma client_guard_Ok b e w c u c' : guard b e w c = (Ok u, c') → b = true ∧ c' = c.
Proof. destruct b; [|done]. by intros [= _ <-]. Qed.

Lemma client_lift_Ok {A} (r : result ClientError A) w c a c' : lift r w c = (Ok a, c') → r = Ok a ∧ c' = c.
Proof. by intros [= -> <-]. Qed.

(** ** Received events *)

(** What [process_bound] reports was sent by the event's sender. *)
Lemma process_bound_author event w c p a c' :
  process_bound event w c = (Ok (Processed.Application p a), c') → a = user_bytes (Event.sender event).
Proof.
  unfold process_bound. intros E.
  apply client_bind_Ok in E as (m & c1 & _ & E). apply client_bind_Ok in E as (u1 & c2 & _ & E).
  apply client_bind_Ok in E as (g & c3 & _ & E). apply client_bind_Ok in E as (u2 & c4 & _ & E).
  apply client_bind_Ok in E as (r & c5 & _ & E). apply client_bind_Ok in E as (u3 & c6 & _ & E).
  apply client_bind_Ok in E as (rcv & c7 & _ & E). apply client_bind_Ok in E as ([[sender aad] o] & c8 & _ & E).
  apply client_bind_Ok in E as (actual & c9 & _ & E). apply client_bind_Ok in E as (u4 & c10 & Hg & E).
  apply client_bind_Ok in E as (u5 & c11 & _ & E). apply client_bind_Ok in E as (u6 & c12 & _ & E).
  apply client_guard_Ok in Hg as [[->%bool_decide_eq_true _]%andb_prop _].
  injection E as E <-. by destruct o; simplify_eq/=.
Qed.

(** ** Finishing an event *)

(** Up to the finish, only the history of [d0] has changed. *)
Definition before_finish (X : HistoryRow → Prop) (d0 d : ClientDb) : Prop :=
  history_only d0 d ∧ history_from user X d0 d.

Lemma before_finish_core X d0 : core_only (before_finish X d0).
Proof.
  intros d d' (E1 & E2 & E3 & E4 & E5 & E6)%core_fields [[A B C D E] F]. split.
  - split; congruence.
  - intros h. rewrite E5. apply F.
Qed.

Lemma before_finish_refl X d : before_finish X d d.
Proof. split; [by split|by apply history_from_refl]. Qed.

(** [finish_event] at the core. *)
Definition finished (e : Event.t) (state : ProcessingState) (X : HistoryRow → Prop) (d0 d : ClientDb) : Prop :=
  inbox d = marked (Event.id e) state <$> inbox d0 ∧
  cursors d = <[room_of e := parent_of e + 1]> (cursors d0) ∧
  contacts d = contacts d0 ∧ transport_identity d = transport_identity d0 ∧
  mls_identity d = mls_identity d0 ∧ history_from user X d0 d.

Lemma finished_core e state X d0 : core_only (finished e state X d0).
Proof.
  intros d d' (E1 & E2 & E3 & E4 & E5 & E6)%core_fields (A & B & C & D & E & F).
  unfold finished, history_from. rewrite E1, E2, E3, E4, E5, E6. done.
Qed.

Lemma inner_finish_event e state X d0 :
  inner (before_finish X d0) (finish_event user e state) (λ _, finished e state X d0).
Proof.
  unfold finish_event. eapply inner_bind.
  { apply (inner_update _ _ (λ d, before_finish X d0 (set_inbox (λ _, inbox d0) d) ∧
                                inbox d = marked (Event.id e) state <$> inbox d0)).
    intros d d' [[A B C D E] F] [= <-]. split; [|by rewrite <- A]. split; [by split|done]. }
  intros ?. eapply inner_bind.
  { apply (inner_update _ _ (finished e state X d0)).
    intros d d' [[[A B C D E] F] Hin] (n & Hn & [= <-])%bind_Some.
    unfold u64_param in Hn. case_decide; [|done]. injection Hn as <-. simpl in *. unfold finished. simpl. by rewrite B. }
  intros ?. apply inner_still; [|apply finished_core]. unfold acknowledge_events. auto with grotto.
Qed.

Lemma held_finish_event e state : along helds (finish_event user e state).
Proof.
  unfold finish_event. apply along_bind; [apply _|apply along_held_update|intros ?].
  apply along_bind; [apply _|apply along_held_update|intros ?].
  apply along_held. unfold acknowledge_events. auto with grotto.
Qed.

(** A history row for an event that is being applied. *)
Definition row_for (e : Event.t) (state : ProcessingState) (h : HistoryRow) : Prop :=
  state = Applied ∧ history_message h = Event.id e ∧ history_room h = room_of e ∧
  history_author h = Event.sender e.

Lemma finished_ok e state d0 d :
  (state = Applied ∨ state = Rejected) → journal_inv user d0 → next_up e d0 →
  finished e state (row_for e state) d0 d → journal_inv user d ∧ grows d0 d.
Proof.
  intros Hst Hi Hn (A & B & C & D & E & F). split; [by eapply finish_inv|by eapply finish_grows].
Qed.

(** ** Applying an event *)

Lemma apply_own_inner e own d0 :
  inner (before_finish none d0) (apply_own e own) (λ _, before_finish none d0).
Proof.
  unfold apply_own. eapply inner_bind; [apply inner_still; [walk|apply before_finish_core]|intros entry].
  eapply inner_bind; [apply inner_still; [unfold decode; walk|apply before_finish_core]|intros m].
  destruct m as [| | |id [| | |operation| | | | |]]; try (by intros w c a c' _ ?).
  eapply inner_bind; [apply inner_still; [walk|apply before_finish_core]|intros ?].
  eapply inner_bind; [apply inner_still; [walk|apply before_finish_core]|intros ?].
  eapply inner_bind; [apply inner_still; [walk|apply before_finish_core]|intros ?].
  eapply inner_bind; [apply inner_still; [by apply along_run_update|apply before_finish_core]|intros ?].
  apply (inner_update _ _ (before_finish none d0)). intros d d' [Ho Hf] Hs.
  destruct (settle_history_from user none _ _ _ _ Hs) as [Hf' [A B C D E]]. destruct Ho. split.
  - split; congruence.
  - eapply history_from_trans; [done..|]. by intros.
Qed.

Lemma history_from_weaken X Y d d' : (∀ h, X h → Y h) → history_from user X d d' → history_from user Y d d'.
Proof. intros HXY Hh h Hin Ha. destruct (Hh h Hin Ha); naive_solver. Qed.

Lemma apply_other_inner e d0 :
  inner (before_finish none d0) (apply_other e) (λ _, before_finish (row_for e Applied) d0).
Proof.
  intros w c a c' Hb E. unfold apply_other in E. apply client_bind_Ok in E as (p & c1 & Ep & E).
  assert (before_finish none d0 (db (store c1))) as Hb1.
  { refine (inner_still _ (process_bound e) _ (before_finish_core none d0) w c p c1 Hb Ep). auto with grotto. }
  assert (before_finish (row_for e Applied) d0 (db (store c1))) as Hb1'.
  { destruct Hb1 as [? Hf]. split; [done|]. by eapply history_from_weaken, Hf. }
  destruct p as [plaintext author| | |]; try (by injection E as <- <-).
  apply process_bound_author in Ep as ->. apply client_bind_Ok in E as (u & c2 & Eu & E).
  apply client_lift_Ok in Eu as [Eu ->]. unfold to_user_id in Eu. rewrite to_array_vec in Eu. injection Eu as <-.
  apply client_bind_Ok in E as ([] & c3 & E3 & E). injection E as <- <-.
  refine (inner_update (before_finish none d0) (λ d, n ← u64_param (sequence (envelope e));
    Some (insert_history (message_id (envelope e)) (room_id (envelope e)) n _ plaintext d))
    (before_finish (row_for e Applied) d0) _ w c1 tt c3 Hb1 _); [|exact E3].
  intros d d' [[A B C D E'] Hf] (n & _ & [= <-])%bind_Some.
  destruct (insert_history_from user (row_for e Applied) (message_id (envelope e)) (room_id (envelope e)) n
              (MkUserId (user_bytes (Event.sender e))) plaintext d) as [Hf' [A' B' C' D' F']].
  { intros _ rowid. split_and!; try done. by destruct (Event.sender e). }
  split; [split; etrans; eassumption|].
  eapply history_from_trans; [by eapply history_from_weaken, Hf|exact Hf'|].
  unfold row_for. intros h h' (? & ? & ? & ?). intuition congruence.
Qed.

Lemma apply_body_inner e own d0 :
  inner (before_finish none d0) (apply_body user e own) (λ _, finished e Applied (row_for e Applied) d0).
Proof.
  unfold apply_body. eapply (inner_bind _ (λ _, before_finish (row_for e Applied) d0)).
  - case_decide; [|apply apply_other_inner]. eapply inner_bind; [apply apply_own_inner|intros ?].
    apply inner_ret. intros d [? Hf]. split; [done|]. by eapply history_from_weaken, Hf.
  - intros a. eapply inner_bind; [apply inner_finish_event|intros ?]. by apply inner_ret.
Qed.

Lemma held_apply_body e own : along helds (apply_body user e own).
Proof.
  unfold apply_body. apply along_bind; [apply _| |intros a].
  - case_decide.
    + apply along_bind; [apply _| |intros ?; apply along_ret, _]. unfold apply_own.
      apply along_bind; [apply _|apply along_held; walk|intros entry].
      apply along_bind; [apply _|apply along_held; unfold decode; walk|intros m].
      destruct m as [| | |id [| | |operation| | | | |]]; try (apply along_refuse, _).
      do 3 (apply along_bind; [apply _|apply along_held; walk|intros ?]).
      apply along_bind; [apply _|apply along_held_update|intros ?]. apply along_held_update.
    + unfold apply_other. apply along_bind; [apply _|apply along_held; auto with grotto|intros p].
      destruct p; try (apply along_ret, _). apply along_bind; [apply _|apply along_held; walk|intros ?].
      apply along_bind; [apply _| |intros ?; apply along_ret, _]. apply along_held_update.
  - apply along_bind; [apply _|apply held_finish_event|intros ?]. apply along_ret, _.
Qed.

Lemma triple_apply_atomic e own :
  triple (next_up e) (attempt (atomic (apply_body user e own)))
    (λ r d, match r with Ok _ => True | Err _ => next_up e d end).
Proof.
  rewrite atomic_bracket. apply (triple_bracket user clear_groups (next_up e) _ (λ _ _, True)); [done|apply held_apply_body|].
  intros d0 Hi Hn w c a c' <- E.
  assert (finished e Applied (row_for e Applied) (db (store c)) (db (store c'))) as Hf.
  { eapply (apply_body_inner e own _ w c); [apply before_finish_refl|done]. }
  apply finished_ok in Hf as [? ?]; auto.
Qed.

Lemma triple_finish_rejected e : triple (next_up e) (transact (finish_event user e Rejected)) (λ _ _, True).
Proof.
  rewrite transact_bracket. eapply (triple_attempt_inv user _ _ (next_up e)).
  apply triple_bracket; [done|apply held_finish_event|].
  intros d0 Hi Hn w c a c' <- E.
  assert (finished e Rejected (row_for e Rejected) (db (store c)) (db (store c'))) as Hf.
  { eapply (inner_finish_event e Rejected _ _ w c); [apply before_finish_refl|done]. }
  apply finished_ok in Hf as [? ?]; auto.
Qed.

Lemma triple_apply_event e : triple (has_row e) (apply_event user e) (λ _ _, True).
Proof.
  unfold apply_event. eapply triple_bind; [apply triple_cursor|intros n].
  eapply triple_bind; [apply triple_guard|intros ?]. simpl.
  eapply (triple_bind user _ (λ _, next_up e)).
  { eapply (triple_conseq user (next_up e) _ (λ _, next_up e));
      [apply triple_still; [walk|apply next_up_core]| |done].
    intros d [[Hr Hc] Hn]. apply Z.eqb_eq in Hn. split; [done|]. unfold room_of, parent_of. by rewrite Hc. }
  intros own. eapply triple_bind; [apply triple_apply_atomic|intros r]. destruct r as [p|er].
  - eapply triple_bind; [|intros ?; by apply triple_ret]. apply triple_still_True.
    unfold show_applied. walk.
  - destruct er as [|[]| | | | | | | | | |]; try apply triple_fail.
    + eapply triple_bind; [apply (triple_update user (next_up e) _ (λ _, True))|intros ?].
      { intros d d' Hi Hn [= <-]. split; [by apply mark_blocked|]. split; [by apply (mark_blocked user)|done]. }
      apply triple_still_True. walk.
    + eapply triple_bind; [apply triple_finish_rejected|intros ?]. apply triple_still_True. walk.
Qed.


(** ** What the relay sends is well formed *)

Definition returns {A} (m : ClientM A) (F : A → Prop) : Prop := ∀ w c a c', m w c = (Ok a, c') → F a.

Lemma triple_returns {A} P Q F (m : ClientM A) :
  triple P m Q → returns m F → triple P m (λ a d, Q a d ∧ F a).
Proof.
  intros Hm HF w c Hg Hp. destruct (Hm w c Hg Hp) as (? & ? & Hq). split_and!; [done..|].
  destruct (m w c) as [[a|e] c'] eqn:E; [|done]. split; [done|]. by eapply HF.
Qed.

Lemma triple_pure {A} P (F : Prop) Q (m : ClientM A) :
  (F → triple P m Q) → triple (λ d, P d ∧ F) m Q.
Proof. intros Hm w c Hg [Hp HF]. by apply Hm. Qed.

Lemma triple_with_inv {A} P Q (m : ClientM A) :
  triple P m Q → triple P m (λ a d, Q a d ∧ journal_inv user d).
Proof.
  intros Hm w c Hg Hp. destruct (Hm w c Hg Hp) as ([Hb Hi] & ? & Hq). split_and!; [done..|].
  by destruct (m w c).1.
Qed.

Lemma returns_bind {A B} F (m : ClientM A) (k : A → ClientM B) :
  (∀ a, returns (k a) F) → returns (m ≫= k) F.
Proof. intros Hk w c b c' (a & c1 & _ & E)%client_bind_Ok. by eapply Hk. Qed.

Lemma returns_await fuel id : returns (await_response fuel id) (valid c_response).
Proof.
  induction fuel as [|fuel IH]; [by intros w c a c'|]. cbn [await_response].
  intros w c r c' (m & c1 & Em & E)%client_bind_Ok.
  assert (valid c_relay_message m) as Hv.
  { unfold receive_message in Em. destruct (incoming c) as [|[frame| |] l]; try done.
    injection Em as Em _. apply map_err_Ok, decode_message_Ok in Em as [Hv _]. exact Hv. }
  destruct m as [| | | |id' r'|]; try done; [|by eapply IH].
  case_decide; [|done]. injection E as <- _. by destruct Hv.
Qed.

Lemma returns_request id r : returns (request id r) (valid c_response).
Proof. unfold request. do 3 (apply returns_bind; intros ?). apply returns_await. Qed.

Lemma returns_read r : returns (read r) (valid c_response).
Proof.
  unfold read. apply returns_bind; intros id. apply returns_bind; intros fuel.
  induction fuel as [|fuel IH]; [by intros w c a c'|]. cbn [read_loop].
  intros w c a c' (x & c1 & Ex & E)%client_bind_Ok. destruct (is_retry x); [by eapply IH|].
  injection E as <- _. by eapply returns_request.
Qed.

Lemma triple_request P id r : core_only P → triple P (request id r) (λ x d, P d ∧ valid c_response x).
Proof. intros HP. apply (triple_returns _ (λ _, P)); [apply triple_still; [walk|done]|apply returns_request]. Qed.
Lemma triple_read P r : core_only P → triple P (read r) (λ x d, P d ∧ valid c_response x).
Proof. intros HP. apply (triple_returns _ (λ _, P)); [apply triple_still; [walk|done]|apply returns_read]. Qed.

(** ** Receiving and completing *)

Lemma event_bytes_inj e e' l :
  valid c_event e → valid c_event e' → encode_message c_event e = Ok l → encode_message c_event e' = Ok l → e = e'.
Proof.
  intros Hv Hv' E E'. apply decode_encode_message in E; [|done]. apply decode_encode_message in E'; [|done].
  congruence.
Qed.

Lemma triple_receive e : valid c_event e → triple (λ _, True) (receive e) (λ _, has_row e).
Proof.
  intros Hv. unfold receive. eapply triple_bind; [apply triple_lift|intros n].
  eapply triple_bind; [apply triple_lift|intros record].
  eapply triple_bind; [apply triple_select|intros existing]. destruct existing as [old|].
  - eapply triple_conseq; [apply triple_with_inv, triple_guard|intros d Hd; exact Hd|].
    intros _ d [[[[[_ En] Er] Ex] ->%bool_decide_eq_true] Hi]. apply map_err_Ok in Er.
    destruct (received_rows (Event.id e) (Append.room (Event.operation e)) n d) as [|r l] eqn:Ef; [done|].
    injection Ex as Ex.
    assert (r ∈ received_rows (Event.id e) (Append.room (Event.operation e)) n d) as Hr by (rewrite Ef; by left).
    apply list_elem_of_filter in Hr as [_ Hr]. exists r. split; [done|].
    destruct (inv_records user d Hi r Hr) as (e0 & Hrow). pose proof Hrow as (Hv0 & Er0 & _).
    rewrite Ex in Er0. by rewrite (event_bytes_inj e e0 record).
  - eapply (triple_bind user _ (λ _ _, event_position e = Some n ∧ encode_message c_event e = Ok record)).
    + eapply (triple_conseq user (λ _, event_position e = Some n ∧ encode_message c_event e = Ok record));
        [apply triple_still; [walk|by intros ? ? _ ?]| |done].
      intros d [[[_ En] Er] _]. apply ok_or_Ok in En. by apply map_err_Ok in Er.
    + intros ?. apply triple_update. intros d d' Hi [En Er] Ed. by eapply insert_inbox_inv.
Qed.

Lemma kept_atomic_still {A} (m : ClientM A) : along stills m → kept (atomic m).
Proof. intros Hm. by apply (triple_atomic_still user (λ _, True)). Qed.
Lemma kept_still {A} (m : ClientM A) : along stills m → kept m.
Proof. intros Hm. by apply triple_still_True. Qed.

(** An atomic program that changes the tables in a way that keeps the journal. *)
Lemma kept_atomic {A} (m : ClientM A) :
  along helds m →
  (∀ d0, journal_inv user d0 → inner (λ d, d = d0) m (λ _ d, journal_inv user d ∧ grows d0 d)) →
  kept (atomic m).
Proof.
  intros Hh Hm. rewrite atomic_bracket. eapply (triple_attempt_inv user _ _ (λ _, True)).
  apply (triple_bracket user clear_groups (λ _, True) m (λ _ _, True)); [done..|].
  intros d0 Hi _ w c a c' E1 E2. destruct (Hm d0 Hi w c a c' E1 E2). auto.
Qed.

(** Tables as in [d0] but for what is not of the core. *)
Definition like (d0 d : ClientDb) : Prop := core d = core d0.
Lemma like_core d0 : core_only (like d0).
Proof. intros d d' E ?. unfold like in *. congruence. Qed.

Lemma inner_like {A} d0 (m : ClientM A) : along stills m → inner (like d0) m (λ _, like d0).
Proof. intros Hm. apply inner_still; [done|apply like_core]. Qed.

Lemma inner_start {A} d0 (m : ClientM A) : along stills m → inner (λ d, d = d0) m (λ _, like d0).
Proof. intros Hm. eapply inner_conseq; [by apply (inner_like d0)|by intros d ->|done]. Qed.

Lemma kept_create id name room : kept (complete_create id name room).
Proof.
  unfold complete_create. eapply triple_bind; [|intros ?; apply kept_still; walk].
  apply kept_atomic.
  - apply along_bind; [apply _|apply along_held; walk|intros ?].
    apply along_bind; [apply _|apply along_held; walk|intros ?].
    apply along_bind; [apply _|apply along_held_update|intros ?]. apply along_held. walk.
  - intros d0 Hi. eapply (inner_conseq _ _ (λ _, like (ensure_cursor room d0)));
      [|intros d Hd; exact Hd|].
    + eapply inner_bind; [apply (inner_start d0); walk|intros ?].
      eapply inner_bind; [apply inner_like; walk|intros ?].
      eapply inner_bind; [|intros ?; apply inner_like; walk].
      apply (inner_update _ _ (like (ensure_cursor room d0))). intros d d' Hd [= <-].
      unfold like, core in *. simpl. by injection Hd as -> -> -> -> -> ->.
    + intros _ d Hd. destruct (ensure_cursor_inv user room d0 Hi). split; [by eapply inv_core|by eapply grows_core].
Qed.

Lemma kept_conflict id operation room : kept (complete_conflict id operation room).
Proof.
  unfold complete_conflict. eapply triple_bind; [|intros ?; apply kept_still; walk].
  apply kept_atomic.
  - apply along_bind; [apply _|apply along_held; walk|intros ?].
    apply along_bind; [apply _|apply along_held; walk|intros ?].
    apply along_bind; [apply _|apply along_held_update|intros ?]. apply along_held_update.
  - intros d0 Hi. eapply (inner_conseq _ _ (λ _, like (delete_history id d0)));
      [|intros d Hd; exact Hd|].
    + eapply inner_bind; [apply (inner_start d0); walk|intros ?].
      eapply inner_bind; [apply inner_like; walk|intros ?].
      eapply inner_bind; [|intros ?; apply inner_like; by apply along_run_update].
      apply (inner_update _ _ (like (delete_history id d0))). intros d d' Hd [= <-].
      unfold like, core in *. simpl. by injection Hd as -> -> -> -> -> ->.
    + intros _ d Hd. destruct (delete_history_from user none id d0).
      destruct (history_only_inv user d0 (delete_history id d0)); [done..|].
      split; [by eapply inv_core|by eapply grows_core].
Qed.

Lemma kept_complete id r x : valid c_response x → kept (complete user id r x).
Proof.
  intros Hv.
  assert (∀ m : ClientM (), along stills m → kept m) as Hs by apply kept_still.
  assert (∀ reason, kept (complete_rejected id r reason)) as Hrej.
  { intros reason. unfold complete_rejected. eapply triple_bind; [|intros ?; apply kept_still; walk].
    apply kept_atomic_still. walk. }
  assert (kept mismatch) as Hmis by apply triple_fail.
  destruct x as [room|count| |event|room head|room n evs more|rooms more|n ws more|actual package| |reason];
    destruct r as [name|packages|evs'|operation| | | |recipient| ]; cbn [complete]; try exact Hmis;
    try solve [destruct reason; first [apply Hrej|apply Hs; walk]]; try solve [apply Hs; walk].
  - apply kept_create.
  - case_match; [|exact Hmis]. eapply triple_conseq; [by apply triple_receive|done|done].
  - case_match; [|exact Hmis]. apply kept_conflict.
  - case_decide; [|exact Hmis]. unfold complete_reservation.
    do 4 (eapply triple_bind; [apply kept_still; unfold wire_message; walk|intros ?]).
    apply (triple_transact_still user (λ _, True)); [|done]. walk.
    apply stays_sql. by intros d z d' [= _ <-].
Qed.

(** ** Identity, contacts and commands *)

Lemma triple_ext {A} P Q (m m' : ClientM A) : (∀ w c, m w c = m' w c) → triple P m' Q → triple P m Q.
Proof. intros E Hm w c. rewrite E. apply Hm. Qed.

Lemma on_store_bind {A B} (m : StoreM A) (k : A → StoreM B) w c :
  on_store (m ≫= k) w c = (on_store m ≫= λ a, on_store (k a)) w c.
Proof.
  unfold on_store, mbind, StoreM_bind, ClientM_bind. by destruct (m w (store c)) as [[a|e] s].
Qed.

Lemma triple_store_bind {A B} P Q R (m : StoreM A) (k : A → StoreM B) :
  triple P (on_store m) Q → (∀ a, triple (Q a) (on_store (k a)) R) → triple P (on_store (m ≫= k)) R.
Proof. intros Hm Hk. eapply triple_ext; [apply on_store_bind|]. by eapply triple_bind. Qed.

(** The identity that is returned is the one the tables hold from then on. *)
Definition is_identity (id : ClientIdentity) (d : ClientDb) : Prop :=
  transport_identity d = Some (user_id id, seed id).

Lemma identity_body_state w s r s' : identity_body w s = (r, s') →
  held s s' ∧ (core (db s') = core (db s) ∨
    transport_identity (db s) = None ∧ ∃ x, db s' = set_transport_identity (λ _, Some x) (db s)) ∧
  ∀ id, r = Ok id → is_identity id (db s').
Proof.
  unfold identity_body, is_identity, mbind, StoreM_bind. pose proof (lock_state w s) as Hl.
  destruct (lock w s) as [[u|e] s1]; simpl in Hl; subst s1; [|intros [= <- <-]; by split_and!; [|left|]].
  unfold select, sql. destruct (sql_fails w (ticks s)); [intros [= <- <-]; by split_and!; [|left|]|]. simpl.
  destruct (transport_identity (db s)) as [[id sd]|] eqn:Et.
  { intros [= <- <-]. split_and!; [done|by left|]. by intros ? [= <-]. }
  unfold observe, from_result, update, sql. simpl.
  destruct (random16 w (S (ticks s))) as [id|]; simpl; [|intros [= <- <-]; by split_and!; [|left|]].
  destruct (random32 w (S (S (ticks s)))) as [sd|]; simpl; [|intros [= <- <-]; by split_and!; [|left|]].
  destruct (sql_fails w _); [intros [= <- <-]; by split_and!; [|left|]|]. simpl. rewrite Et. simpl.
  intros [= <- <-]. split_and!; [done|right; eauto|]. by intros ? [= <-].
Qed.

Lemma triple_identity : triple (λ _, True) (on_store identity) is_identity.
Proof.
  eapply triple_ext; [apply in_transaction_transact|]. rewrite transact_bracket.
  apply (triple_attempt_inv user _ _ (λ _, True)).
  apply (triple_bracket user _ (λ _, True) _ is_identity); [done| |].
  - intros w c. unfold on_store. destruct (identity_body w (store c)) as [r s] eqn:E.
    by apply identity_body_state in E as [? _].
  - intros d0 Hi _ w c a c' <- E. unfold on_store in E.
    destruct (identity_body w (store c)) as [r s] eqn:Eb. apply identity_body_state in Eb as (_ & Hc & Hid).
    destruct r as [id|]; [|done]. injection E as <- <-. simpl.
    destruct Hc as [Hc|(Hn & x & Hx)]; [split_and!; [by eapply inv_core|by eapply grows_core|by apply Hid]|].
    specialize (Hid _ eq_refl). rewrite Hx in *. split_and!; [|split|done]; try done.
    + destruct Hi as [A1 B1 C1 D1 E1 F1]. by split.
    + intros r0 Hr0. exists r0. by repeat split.
    + simpl. eauto with lia.
    + intros y. by rewrite Hn.
Qed.
Lemma kept_identity : kept (on_store identity).
Proof. eapply triple_conseq; [apply triple_identity|done|done]. Qed.

Lemma kept_import card fp : kept (on_store (card_import card fp)).
Proof.
  unfold card_import.
  do 6 (eapply triple_store_bind; [apply kept_still; walk|intros ?]). case_match; [apply kept_still; walk|].
  eapply triple_store_bind; [apply kept_still; walk|intros ?].
  apply triple_update. intros d d' Hi _ Ed. split; [by eapply (insert_contact_inv user)|].
  split; [by eapply (insert_contact_inv user)|done].
Qed.

Lemma kept_own : kept (on_store card_own).
Proof.
  unfold card_own. eapply triple_store_bind; [apply kept_identity|intros ?]. apply kept_still. walk.
Qed.

Lemma kept_intent room target p : kept (intent room target p).
Proof.
  unfold intent. apply kept_still. walk. apply stays_update. intros d d'. unfold insert_intent.
  case_decide; [done|]. by intros [= <-].
Qed.

Lemma kept_command x : kept (command x).
Proof.
  destruct x; cbn [command]; try solve [apply kept_still; walk].
  - eapply triple_bind; [apply kept_own|intros ?]. apply kept_still. unfold show_fingerprint. walk.
  - eapply triple_bind; [apply kept_still; walk|intros ?].
    eapply triple_bind; [apply kept_import|intros ?]. apply kept_still. walk.
  - eapply triple_bind; [apply kept_still; walk|intros ?]. apply kept_atomic_still. walk.
  - eapply triple_bind; [apply kept_still; walk|intros ?]. apply kept_intent.
  - apply kept_intent.
Qed.

(** ** Welcomes *)

(** Joining writes the room's first cursor and nothing else of the core. *)
Definition joined (welcome : WelcomeDelivery.t) (d0 d : ClientDb) : Prop :=
  ∃ d1, insert_cursor (WelcomeDelivery.room welcome) (WelcomeDelivery.sequence welcome) d0 = Some d1 ∧ like d1 d.

Lemma joined_core welcome d0 : core_only (joined welcome d0).
Proof. intros d d' E (d1 & ? & ?). exists d1. split; [done|]. by eapply like_core. Qed.

Lemma join_welcome_inner cursor welcome d0 :
  inner (λ d, d = d0) (join_welcome user cursor welcome) (λ _, joined welcome d0).
Proof.
  unfold join_welcome. eapply inner_bind; [apply (inner_start d0); walk|intros ?].
  do 4 (eapply inner_bind; [apply inner_like; walk|intros ?]).
  eapply inner_bind; [apply (inner_update _ _ (joined welcome d0))|intros ?].
  { intros d d' Hd E. unfold joined, insert_cursor in *.
    destruct (u64_param _) as [n|]; [|done]. simpl in *. unfold like, core in Hd.
    injection Hd as E1 E2 E3 E4 E5 E6. rewrite <- E1. destruct (cursors d !! _); [done|].
    injection E as <-. eexists. split; [done|]. unfold like, core. simpl. congruence. }
  do 2 (eapply inner_bind; [apply inner_still; [walk|apply joined_core]|intros ?]).
  apply inner_still; [unfold acknowledge_events; walk|apply joined_core].
Qed.

Lemma held_join_welcome cursor welcome : along helds (join_welcome user cursor welcome).
Proof.
  unfold join_welcome. do 5 (apply along_bind; [apply _|apply along_held; walk|intros ?]).
  apply along_bind; [apply _|apply along_held_update|intros ?].
  do 2 (apply along_bind; [apply _|apply along_held; walk|intros ?]).
  apply along_held. unfold acknowledge_events. walk.
Qed.

Lemma joined_cursors welcome d0 d : joined welcome d0 d →
  cursors d0 !! WelcomeDelivery.room welcome = None ∧
  cursors d = <[WelcomeDelivery.room welcome := WelcomeDelivery.sequence welcome]> (cursors d0).
Proof.
  intros (d1 & E & Hl). unfold insert_cursor, u64_param in E. case_decide; [|done]. simpl in E.
  destruct (cursors d0 !! _) eqn:En; [done|]. injection E as <-. split; [done|].
  by apply core_fields in Hl as [-> _].
Qed.

Lemma kept_join cursor welcome : kept (attempt (atomic (join_welcome user cursor welcome))).
Proof.
  rewrite atomic_bracket.
  eapply triple_conseq; [apply (triple_bracket user clear_groups (λ _, True) _ (λ _ _, True))|done|done];
    [done|apply held_join_welcome|].
  intros d0 Hi _. eapply inner_conseq; [apply join_welcome_inner|intros d Hd; exact Hd|].
  intros _ d (d1 & E & Hl). unfold insert_cursor in E. destruct (u64_param _) as [n|]; [|done].
  simpl in E. destruct (cursors d0 !! _) eqn:En; [done|]. injection E as <-.
  destruct (new_cursor_inv user _ n d0 Hi En). split_and!; [by eapply inv_core|by eapply grows_core|done].
Qed.

Lemma kept_process_welcome cursor bytes : kept (process_welcome user cursor bytes).
Proof.
  unfold process_welcome. eapply triple_bind; [apply kept_still; unfold decode; walk|intros welcome].
  eapply triple_bind; [apply kept_still; unfold verify_welcome; walk|intros v].
  case_match; [|apply kept_still; unfold block_welcome; walk].
  eapply triple_bind; [apply kept_join|intros r]. case_match; apply kept_still; unfold block_welcome; walk.
Qed.

Lemma kept_process_welcomes : kept (process_welcomes user).
Proof.
  unfold process_welcomes. eapply triple_bind; [apply kept_still; walk|intros fuel].
  generalize 0 as after. induction fuel as [|fuel IH]; intros after; cbn [process_loop];
    (eapply triple_bind; [apply kept_still; walk; apply stays_sql;
       by intros d r d' (n & _ & [= _ <-])%bind_Some|intros row]);
    (destruct row as [row|]; [|apply kept_still; walk]); [apply triple_fail|].
  eapply triple_bind; [apply kept_process_welcome|intros ?]. apply IH.
Qed.

Lemma still_store_welcomes l : ∀ last, along stills (store_welcomes user last l).
Proof.
  induction l as [|x l IH]; intros last; cbn [store_welcomes]; [walk|]. unfold encode. walk.
  apply stays_update. intros d d'. unfold insert_welcome_row. intros (n & _ & E)%bind_Some.
  case_decide; [done|]. by injection E as <-.
Qed.

Lemma kept_welcome_page n l : kept (welcome_page user n l).
Proof.
  unfold welcome_page. eapply triple_bind; [apply kept_still; walk|intros ?].
  apply (triple_transact_still user (λ _, True)); [|done].
  apply along_bind; [apply _|apply still_store_welcomes|intros last].
  walk. apply stays_update. by intros d d' (z & _ & [= <-])%bind_Some.
Qed.

Lemma kept_recover_welcomes fuel : kept (recover_welcomes user fuel).
Proof.
  induction fuel as [|fuel IH]; cbn [recover_welcomes]; [apply triple_fail|].
  eapply triple_bind.
  { apply kept_still. walk. apply stays_sql. by intros d z d' (n & _ & [= _ <-])%bind_Some. }
  intros n. eapply triple_bind; [apply kept_still; walk|intros x]. destruct x; try apply triple_fail.
  eapply triple_bind; [apply kept_still; walk|intros ?]. case_match; [apply kept_still; walk|].
  eapply triple_bind; [apply kept_welcome_page|intros ?; case_match; [apply IH|apply kept_still; walk]].
Qed.

(** ** Events of rooms *)

Definition all_rows (events : list Event.t) (d : ClientDb) : Prop := Forall (λ e, has_row e d) events.

Lemma all_rows_grows events d d' : grows d d' → all_rows events d → all_rows events d'.
Proof. intros Hg Ha. eapply Forall_impl; [exact Ha|]. intros e. by apply has_row_grows. Qed.

Lemma triple_receive_page room events : ∀ expected, Forall (valid c_event) events →
  triple (λ _, True) (receive_page room expected events) (λ _, all_rows events).
Proof.
  induction events as [|e events IH]; intros expected Hv; cbn [receive_page].
  { apply triple_ret. intros d _. constructor. }
  apply Forall_cons in Hv as [He Hv].
  eapply triple_bind; [apply kept_still; walk|intros ?].
  eapply triple_bind; [by apply triple_receive|intros ?].
  eapply triple_conseq; [apply (triple_frame user (has_row e)); [intros; by eapply has_row_grows|by apply IH]|done|].
  intros _ d [Hr He']. by constructor.
Qed.

Lemma triple_apply_page events : triple (all_rows events) (apply_page user events) (λ _ _, True).
Proof.
  induction events as [|e events IH]; cbn [apply_page]; [by apply triple_ret|].
  eapply (triple_bind user _ (λ _, all_rows events)).
  - eapply triple_conseq; [apply (triple_frame user (all_rows events));
      [intros; by eapply all_rows_grows|apply triple_apply_event]| |by intros ? ? []].
    intros d Hd. by apply Forall_cons in Hd.
  - intros b. case_match; [apply IH|by apply triple_ret].
Qed.

Lemma kept_catch_up room head fuel : kept (catch_up user fuel room head).
Proof.
  induction fuel as [|fuel IH]; cbn [catch_up]; [apply triple_fail|].
  eapply triple_bind; [apply kept_still; walk|intros n]. case_match; [|apply kept_still; walk].
  eapply triple_bind; [apply kept_still; walk|intros m].
  eapply triple_bind; [by apply triple_read|intros x]. destruct x; try apply triple_fail.
  apply triple_pure. intros (_ & _ & Hv & _).
  eapply triple_bind; [apply kept_still; walk|intros ?].
  eapply triple_bind; [apply triple_receive_page|intros ?].
  { apply Hv. }
  eapply triple_bind; [apply triple_apply_page|intros b]. case_match; [apply kept_still; walk|apply IH].
Qed.

Lemma kept_sync_room after h : kept (sync_room user after h).
Proof.
  unfold sync_room. do 6 (eapply triple_bind; [apply kept_still; walk|intros ?]).
  case_match; [apply kept_still; walk|]. eapply triple_bind; [apply kept_still; walk|intros ?].
  case_match; [|apply kept_still; walk]. eapply triple_bind; [apply kept_still; walk|intros ?].
  apply kept_catch_up.
Qed.

Lemma kept_sync_rooms rooms : ∀ after, kept (sync_rooms user after rooms).
Proof.
  induction rooms as [|h rooms IH]; intros after; cbn [sync_rooms]; [by apply triple_ret|].
  eapply triple_bind; [apply kept_sync_room|intros ?]. apply IH.
Qed.

Lemma kept_synchronize : kept (synchronize user).
Proof.
  unfold synchronize, messages_left. eapply triple_bind; [apply kept_still; walk|intros ?].
  eapply triple_bind; [apply kept_recover_welcomes|intros ?].
  eapply triple_bind; [apply kept_process_welcomes|intros ?].
  eapply triple_bind; [apply kept_still; walk|intros fuel].
  generalize (@None RoomId). induction fuel as [|fuel IH]; intros after; cbn [sync_index_loop]; [apply triple_fail|].
  eapply triple_bind; [apply kept_still; walk|intros x]. destruct x; try apply triple_fail.
  eapply triple_bind; [apply kept_still; walk|intros ?].
  eapply triple_bind; [apply kept_sync_rooms|intros ?]. case_match; [apply IH|by apply triple_ret].
Qed.

(** ** Attempts *)

Lemma attempt_request_inner seed id parent i d0 :
  inner (before_finish none d0) (attempt_request user seed id parent i) (λ _, before_finish none d0).
Proof.
  unfold attempt_request.
  assert (∀ target package, inner (before_finish none d0)
    (operation ← add_operation seed id (intent_room i) parent target package;
     mret (Request.AppendRoomOperation operation)) (λ _, before_finish none d0)) as Hadd.
  { intros target package. apply inner_still; [|apply before_finish_core]. unfold add_operation. walk. }
  destruct (intent_target i), (intent_package i); try apply Hadd; [by apply inner_ret|].
  eapply (inner_bind _ (λ _, before_finish none d0)); [|intros ?; by apply inner_ret]. unfold send_operation.
  eapply inner_bind; [apply inner_still; [walk|apply before_finish_core]|intros p].
  eapply inner_bind; [apply inner_still; [walk|apply before_finish_core]|intros enc].
  eapply (inner_bind _ (λ _, before_finish none d0)); [|intros ?; by apply inner_ret].
  apply (inner_update _ _ (before_finish none d0)). intros d d' [Ho Hf] (n & _ & [= <-])%bind_Some.
  edestruct (insert_history_from user none) as [Hf' Ho']; [by intros []|].
  destruct Ho, Ho'. split; [split; etrans; eassumption|].
  eapply history_from_trans; [exact Hf|exact Hf'|]. by intros.
Qed.

Lemma held_attempt_request seed id parent i : along helds (attempt_request user seed id parent i).
Proof.
  unfold attempt_request. destruct (intent_target i), (intent_package i);
    try solve [apply along_held; unfold add_operation; walk].
  apply along_bind; [apply _| |intros ?; apply along_ret, _]. unfold send_operation.
  do 2 (apply along_bind; [apply _|apply along_held; walk|intros ?]).
  apply along_bind; [apply _|apply along_held_update|intros ?]. apply along_ret, _.
Qed.

Lemma kept_build_attempt i : kept (build_attempt user i).
Proof.
  unfold build_attempt. eapply triple_bind; [apply kept_still; walk|intros b].
  case_match; [|by apply triple_ret].
  do 2 (eapply triple_bind; [apply kept_still; walk|intros ?]). case_match; [by apply triple_ret|].
  do 2 (eapply triple_bind; [apply kept_still; walk|intros ?]).
  eapply triple_bind; [apply kept_identity|intros signing].
  eapply triple_bind; [apply kept_atomic|intros ?; by apply triple_ret].
  - apply along_bind; [apply _|apply held_attempt_request|intros r]. apply along_held. walk.
  - intros d0 Hi. eapply (inner_conseq (before_finish none d0) _ (λ _, before_finish none d0)).
    + eapply inner_bind; [apply attempt_request_inner|intros r].
      apply inner_still; [walk|apply before_finish_core].
    + intros d ->. apply before_finish_refl.
    + intros _ d [? ?]. by apply history_only_inv.
Qed.

Lemma kept_build_attempts : kept (build_attempts user).
Proof.
  unfold build_attempts. eapply triple_bind; [apply kept_still; walk|intros ?].
  eapply triple_bind; [apply kept_still; walk|intros rows]. generalize false.
  induction rows as [|i rows IH]; intros built; cbn [build_all]; [by apply triple_ret|].
  eapply triple_bind; [apply kept_build_attempt|intros ?]. apply IH.
Qed.

(** ** The service *)

Lemma kept_retry_entry e : kept (retry_entry user e).
Proof.
  unfold retry_entry. eapply triple_bind; [apply kept_still; unfold decode; walk|intros m].
  destruct m; try apply triple_fail. eapply triple_bind; [apply kept_still; walk|intros ?].
  eapply triple_bind; [by apply triple_request|intros x]. apply triple_pure. apply kept_complete.
Qed.

Lemma kept_retry_outbox fuel : ∀ after, kept (retry_outbox user fuel after).
Proof.
  assert (∀ page after, kept (retry_page user after page)) as Hpage.
  { induction page as [|[n e] page IH]; intros after; cbn [retry_page]; [by apply triple_ret|].
    eapply triple_bind; [apply kept_retry_entry|intros ?]. apply IH. }
  induction fuel as [|fuel IH]; intros after; cbn [retry_outbox];
    (eapply triple_bind; [apply kept_still; walk|intros page]); destruct page; try (by apply triple_ret).
  - apply triple_fail.
  - eapply triple_bind; [apply Hpage|intros ?]. apply IH.
Qed.

Lemma kept_drive : kept (drive user).
Proof.
  assert (∀ n, kept (drive_rounds user n)) as Hrounds.
  { induction n as [|n IH]; cbn [drive_rounds]; [by apply triple_ret|].
    eapply triple_bind; [apply kept_still; walk|intros fuel].
    eapply triple_bind; [apply kept_retry_outbox|intros ?].
    eapply triple_bind; [apply kept_synchronize|intros ?].
    eapply triple_bind; [apply kept_build_attempts|intros ?]. case_match; [apply IH|by apply triple_ret]. }
  intros w c Hg Hp. destruct (Hrounds 4%nat w c Hg Hp) as (Hg' & Hgr & _). unfold drive, drive_inner.
  destruct (drive_rounds user 4 w c) as [[a|e] c']; by split_and!.
Qed.

Lemma kept_attempt {A} (m : ClientM A) : kept m → kept (attempt m).
Proof.
  intros Hm w c Hg Hp. destruct (Hm w c Hg Hp) as (? & ? & _). unfold attempt.
  by destruct (m w c) as [r c'].
Qed.

Lemma kept_turn t : kept (turn user t).
Proof.
  destruct t as [[line|k]| |]; cbn [turn]; [destruct (parse_command line) as [[x|]|]| | |];
    try apply triple_fail; try (by apply triple_ret); try apply kept_drive.
  - eapply triple_bind; [apply kept_attempt, kept_command|intros ?]. apply kept_drive.
  - eapply triple_bind; [apply kept_still; walk|intros m]. destruct m; try apply triple_fail. apply kept_drive.
Qed.

Lemma kept_run l : kept (run user l).
Proof.
  unfold run. eapply triple_bind; [apply kept_drive|intros ?].
  induction l as [|t l IH]; cbn [run_turns]; [by apply triple_ret|].
  eapply triple_bind; [apply kept_turn|intros ?]. apply IH.
Qed.
End engine.
