(* ===== verification/ClientFollows.v ===== *)
(** * Where the events of a journal come from

    A client's inbox holds events that the relay has reported, whatever else the
    client's programs do. [P] is what is known of the events that the relay reports; the
    programs of the engine keep it of the inbox and never take a message twice. *)
From S2P Require Import Prelude Bytes Text Postcard Protocol Wire Identifiers Transcripts Framing.
From S2P Require Import Crypto ClientCommands ClientStore ClientContacts ClientMls ClientDelivery ClientSync ClientTx ClientJournal ClientRuns ClientEngine.

(** The tables and those a rollback would restore. *)
Definition both (K : ClientDb → Prop) (s : Store) : Prop := K (db s) ∧ ∀ d, saved s = Some d → K d.

Section both.
Variable K : ClientDb → Prop.

Lemma both_durable s : both K s → K (durable s).
Proof. intros [Hd Hs]. unfold durable. destruct (saved s); [by apply Hs|done]. Qed.
Lemma both_open w s : both K s → both K (open_transaction w s).2.
Proof.
  intros [Hd Hs]. destruct (open_transaction w s) as [[u|e] s'] eqn:E.
  - apply open_Ok in E as (_ & _ & _ & _ & ->). split; [done|]. by intros d [= <-].
  - apply open_Err in E as (Ed & Es & _). split; simpl; [by rewrite Ed|by rewrite Es].
Qed.
Lemma both_commit w s : both K s → both K (commit_transaction w s).2.
Proof.
  intros [Hd Hs]. unfold commit_transaction, mbind, StoreM_bind. pose proof (lock_state w s) as Hl.
  destruct (lock w s) as [[u|e] s1]; simpl in Hl; subst s1; [|done].
  unfold execute_commit. destruct (sql_fails w (ticks s)); [done|].
  by destruct (saved s) as [d|] eqn:Es; (split; simpl; rewrite ?Es).
Qed.
Lemma both_drop w s : both K s → both K (drop_transaction w s).
Proof.
  intros [Hd Hs]. unfold drop_transaction. pose proof (lock_state w s) as Hl.
  destruct (lock w s) as [[u|e] s1]; simpl in Hl; subst s1; [|done].
  unfold execute_rollback. destruct (sql_fails w (ticks s)); [done|].
  destruct (saved s) as [d|] eqn:Es; [|by split; simpl; rewrite ?Es]. split; [by apply Hs|done].
Qed.
End both.

(** ** The invariant *)

(** The events an answer reports. *)
Definition response_events (x : Response.t) : list Event.t :=
  match x with
  | Response.AppendAccepted event => [event]
  | Response.RoomEvents _ _ events _ => events
  | _ => []
  end.

Section follows.
Context `{Postcard} `{Sha256} `{Ed25519Signer} `{Mls}.
Variable P : Event.t → Prop.
Variable user : UserId.

Definition follows_db (d : ClientDb) : Prop := ∀ r, r ∈ inbox d → ∃ e, row_of r e ∧ P e.

(** A message that is still to be read reports such events only. *)
Definition told (i : Incoming) : Prop := ∀ frame id x,
  i = Arrived frame → decode_message c_relay_message frame = Ok (RelayMessage.Delivery id x) →
  Forall P (response_events x).

Definition follows (c : Client) : Prop := both follows_db (store c) ∧ Forall told (incoming c).
Definition following (c c' : Client) : Prop := follows c → follows c'.
Definition minding (s s' : Store) : Prop := both follows_db s → both follows_db s'.

#[global] Instance following_preorder : PreOrder following.
Proof. split; unfold following; [by intros c|naive_solver]. Qed.
#[global] Instance minding_preorder : PreOrder minding.
Proof. split; unfold minding; [by intros s|naive_solver]. Qed.

Lemma following_stills {A} (m : ClientM A) : along stills m → along following m.
Proof.
  intros Hm w c [[Hd Hs] Hi]. destruct (Hm w c) as [[Es _ _ Ec] [l El]]. split; [split|].
  - intros r. apply core_fields in Ec as (_ & -> & _). apply Hd.
  - by rewrite Es.
  - rewrite El in Hi. by apply Forall_app in Hi as [_ ?].
Qed.

Lemma following_on_store {A} (m : StoreM A) : stays minding m → along following (on_store m).
Proof. apply along_on_store. intros c s Hm [Hs Hi]. split; [by apply Hm|done]. Qed.

Lemma minding_still {A} (m : StoreM A) : stays still m → stays minding m.
Proof.
  intros Hm w s [Hd Hs]. destruct (Hm w s) as [Es _ _ Ec]. split; [|by rewrite Es].
  intros r. apply core_fields in Ec as (_ & -> & _). apply Hd.
Qed.
Lemma minding_update f : (∀ d d', f d = Some d' → follows_db d → follows_db d') → stays minding (update f).
Proof.
  intros Hf w s [Hd Hs]. unfold update, sql. destruct (sql_fails w (ticks s)); [done|].
  destruct (f (db s)) as [d|] eqn:E; [|done]. simpl. split; [by eapply Hf|done].
Qed.
Lemma minding_inbox f : (∀ d d', f d = Some d' → inbox d' = inbox d) → stays minding (update f).
Proof. intros Hf. apply minding_update. intros d d' E Hd r. rewrite (Hf d d' E). apply Hd. Qed.
Lemma following_update f :
  (∀ d d', f d = Some d' → follows_db d → follows_db d') → along following (run_sql (update f)).
Proof.
  intros Hf. apply following_on_store, stays_bind; [apply _|by apply stays_lock, _|]. intros ?. by apply minding_update.
Qed.
Lemma following_inbox f : (∀ d d', f d = Some d' → inbox d' = inbox d) → along following (run_sql (update f)).
Proof. intros Hf. apply following_update. intros d d' E Hd r. rewrite (Hf d d' E). apply Hd. Qed.

Lemma following_mark id state : along following (run_sql (update (λ d, Some (mark_event id state d)))).
Proof.
  apply following_update. intros d d' [= <-] Hd r. simpl.
  intros (r0 & Hr0 & ->)%(marked_in id state). destruct (Hd r0 Hr0) as (e & Hrow & He).
  exists e. by rewrite marked_row.
Qed.

(** Transactions begin, end and are rolled back between tables that follow. *)
Lemma following_bracket {A} fin (m : ClientM A) :
  (∀ c, store (fin c) = store c ∧ incoming (fin c) = incoming c) →
  along following m → along following (bracket fin m).
Proof.
  intros Hfin Hm w c [Hs Hi]. unfold bracket, on_store. pose proof (both_open follows_db w _ Hs) as Ho.
  destruct (open_transaction w (store c)) as [[u|e] s]; simpl in Ho; [|by split].
  assert (follows (set_store (λ _, s) c)) as Hf0 by by split.
  apply (Hm w) in Hf0. unfold mbind, ClientM_bind.
  assert (∀ c1, follows c1 → follows (fin (set_store (drop_transaction w) c1))) as Hdrop.
  { intros c1 [Hs1 Hi1]. destruct (Hfin (set_store (drop_transaction w) c1)) as [E1 E2]. split; [|by rewrite E2].
    rewrite E1. by apply both_drop. }
  destruct (m w (set_store (λ _, s) c)) as [[a|e] c1]; simpl in Hf0; [|by apply Hdrop].
  pose proof (both_commit follows_db w _ (proj1 Hf0)) as Hcm.
  destruct (commit_transaction w (store c1)) as [[u1|e] s1]; simpl in Hcm; [by split; [|apply Hf0]|].
  apply (Hdrop (set_store (λ _, s1) c1)). by split; [|apply Hf0].
Qed.
Lemma following_atomic {A} (m : ClientM A) : along following m → along following (atomic m).
Proof. rewrite atomic_bracket. by apply following_bracket. Qed.
Lemma following_transact {A} (m : ClientM A) : along following m → along following (transact m).
Proof. rewrite transact_bracket. by apply following_bracket. Qed.

(** A program whose result is known where the invariant holds. *)
Definition reports {A} (F : A → Prop) (m : ClientM A) : Prop := ∀ w c a c', follows c → m w c = (Ok a, c') → F a.
Lemma following_bind {A B} (F : A → Prop) (m : ClientM A) (k : A → ClientM B) :
  along following m → reports F m → (∀ a, F a → along following (k a)) → along following (m ≫= k).
Proof.
  intros Hm HF Hk w c Hc. specialize (Hm w c Hc). specialize (HF w c). unfold mbind, ClientM_bind.
  destruct (m w c) as [[a|e] c1]; [|done]. by apply Hk; [eapply HF|].
Qed.
End follows.

Create HintDb follow.
#[export] Hint Resolve following_stills following_mark : follow.
#[export] Hint Extern 0 (PreOrder _) => typeclasses eauto : follow.

(** Walks through a program of the engine. *)
Ltac follow :=
  repeat first
    [ solve [auto with follow]
    | apply following_stills; solve [walk]
    | apply following_atomic
    | apply following_transact
    | apply following_inbox; solve [by intros ? ? [= <-] | by intros ? ? (? & _ & [= <-])%bind_Some]
    | apply along_bind; [apply _| |intros ?]
    | apply along_attempt
    | apply along_or_error
    | apply along_each; [apply _|intros ?]
    | case_match ].

(** ** The engine *)

Section engine.
Context `{Postcard} `{Sha256} `{Ed25519Signer} `{Mls}.
Variable P : Event.t → Prop.
Variable user : UserId.

(** *** Answers *)

Definition known (x : Response.t) : Prop := valid c_response x ∧ Forall P (response_events x).

Lemma reports_receive_message : reports P (λ m, ∀ id x, m = RelayMessage.Delivery id x → Forall P (response_events x)) receive_message.
Proof.
  intros w c m c' [_ Hi] E id x ->. unfold receive_message in E.
  destruct (incoming c) as [|i l] eqn:El; [done|]. apply Forall_cons in Hi as [Hi _].
  destruct i as [frame| |]; [|done..]. injection E as E _. apply map_err_Ok in E. by eapply Hi.
Qed.

Lemma reports_await fuel id : reports P (λ x, Forall P (response_events x)) (await_response fuel id).
Proof.
  induction fuel as [|fuel IH]; intros w c x c' Hc E; [done|]. cbn [await_response] in E.
  apply client_bind_Ok in E as (m & c1 & Em & E).
  pose proof (following_stills P _ along_receive_message w c Hc) as Hc1. rewrite Em in Hc1.
  pose proof (reports_receive_message w c m c1 Hc Em) as Hm.
  destruct m as [| | | |id' y|]; try done; [|by eapply IH].
  case_decide; [|done]. injection E as <- _. by eapply Hm.
Qed.

Lemma reports_bind {A B} F (m : ClientM A) (k : A → ClientM B) :
  along (following P) m → (∀ a, reports P F (k a)) → reports P F (m ≫= k).
Proof.
  intros Hm Hk w c b c' Hc (a & c1 & Em & E)%client_bind_Ok. specialize (Hm w c Hc). rewrite Em in Hm.
  exact (Hk a w c1 b c' Hm E).
Qed.
Lemma reports_request id r : reports P known (request id r).
Proof.
  intros w c x c' Hc E. split; [by eapply returns_request|]. revert Hc E.
  apply (reports_bind (λ x, Forall P (response_events x))); [apply following_stills; unfold encode; walk|intros bytes].
  apply reports_bind; [apply following_stills; unfold send; walk|intros ?].
  apply reports_bind; [apply following_stills; walk|intros fuel]. apply reports_await.
Qed.
Lemma reports_read r : reports P known (read r).
Proof.
  unfold read. apply reports_bind; [apply following_stills; walk|intros id].
  apply reports_bind; [apply following_stills; walk|intros fuel].
  induction fuel as [|fuel IH]; intros w c x c' Hc E; [done|]. cbn [read_loop] in E.
  apply client_bind_Ok in E as (y & c1 & Ey & E).
  pose proof (following_stills P _ (along_request id r) w c Hc) as Hc1. rewrite Ey in Hc1.
  case_match; [exact (IH w c1 x c' Hc1 E)|]. injection E as <- _. exact (reports_request id r w c y c1 Hc Ey).
Qed.

(** *** Receiving *)

Lemma follows_insert e n record d d' :
  valid c_event e → P e → event_position e = Some n → encode_message c_event e = Ok record →
  insert_inbox (Event.id e) (room_of e) n record d = Some d' → follows_db P d → follows_db P d'.
Proof.
  intros Hv Hp En Er Ed Hd r. unfold insert_inbox in Ed. case_match; [|done]. injection Ed as <-.
  intros [?| ->%list_elem_of_singleton]%elem_of_app; [by apply Hd|]. exists e. split; [|done].
  split_and!; [done..|]. unfold event_position, Event.sequence, checked_add, u64_param in En.
  by case_decide; simplify_option_eq.
Qed.

Lemma following_lift {A B} (r : result ClientError A) (k : A → ClientM B) :
  (∀ a, r = Ok a → along (following P) (k a)) → along (following P) (lift r ≫= k).
Proof. intros Hk w c Hc. unfold mbind, ClientM_bind, lift. destruct r; [by apply Hk|done]. Qed.

Lemma following_receive e : valid c_event e → P e → along (following P) (receive e).
Proof.
  intros Hv Hp. unfold receive, encode. apply following_lift. intros n En%ok_or_Ok.
  apply following_lift. intros record Er%map_err_Ok. follow.
  apply following_update. intros d d' Ed. by eapply follows_insert.
Qed.

Lemma following_receive_page room events : ∀ n, Forall (valid c_event) events → Forall P events →
  along (following P) (receive_page room n events).
Proof.
  induction events as [|e events IH]; intros n Hv Hp; cbn [receive_page]; [follow|].
  apply Forall_cons in Hv as [He Hv], Hp as [Hpe Hp]. pose proof (following_receive e He Hpe). follow.
Qed.

(** *** Completing *)

Lemma following_create id name room : along (following P) (complete_create id name room).
Proof. unfold complete_create. follow. Qed.
Lemma following_conflict id operation room : along (following P) (complete_conflict id operation room).
Proof. unfold complete_conflict. follow. Qed.
Lemma following_rejected id r reason : along (following P) (complete_rejected id r reason).
Proof. unfold complete_rejected. follow. Qed.
Lemma following_reservation id recipient package : along (following P) (complete_reservation id recipient package).
Proof.
  unfold complete_reservation. follow. apply following_stills. apply along_still.
  apply stays_bind; [apply _|apply stays_lock, _|intros ?]. apply stays_sql. by intros d z d' [= _ <-].
Qed.
#[local] Hint Resolve following_create following_conflict following_rejected following_reservation : follow.

Lemma following_complete id r x : known x → along (following P) (complete user id r x).
Proof.
  intros [Hv Hp]. assert (∀ e, x = Response.AppendAccepted e → along (following P) (receive e)) as Hrec.
  { intros e ->. apply following_receive; [apply Hv|]. by apply Forall_cons in Hp as [? _]. }
  unfold complete, mismatch. repeat case_match; try by apply Hrec. all: follow.
Qed.

(** *** Events *)

Lemma following_finish event state : along (following P) (finish_event user event state).
Proof.
  unfold finish_event, acknowledge_events. follow.
Qed.
#[local] Hint Resolve following_finish : follow.
Lemma following_apply_own e own : along (following P) (apply_own e own).
Proof. unfold apply_own, decode. follow. Qed.
Lemma following_record m author plaintext : along (following P) (on_store (record_plaintext m author plaintext)).
Proof.
  apply following_inbox. intros d d' (n & _ & [= <-])%bind_Some. unfold insert_history. by case_decide.
Qed.
#[local] Hint Resolve following_record following_apply_own : follow.
Lemma following_apply_other e : along (following P) (apply_other e).
Proof. unfold apply_other. follow. Qed.
#[local] Hint Resolve following_apply_other : follow.
Lemma following_apply_body e own : along (following P) (apply_body user e own).
Proof. unfold apply_body. follow. Qed.
#[local] Hint Resolve following_apply_body : follow.
Lemma following_apply_event e : along (following P) (apply_event user e).
Proof. unfold apply_event, show_applied. follow. Qed.
#[local] Hint Resolve following_apply_event : follow.
Lemma following_apply_page events : along (following P) (apply_page user events).
Proof. induction events as [|e events IH]; cbn [apply_page]; follow. Qed.
#[local] Hint Resolve following_apply_page : follow.

(** *** Synchronising *)

Lemma following_join n welcome : along (following P) (join_welcome user n welcome).
Proof.
  unfold join_welcome, acknowledge_events. follow. apply following_inbox.
  intros d d' (z & _ & E)%bind_Some. case_match; [done|]. by injection E as <-.
Qed.
#[local] Hint Resolve following_join : follow.
Lemma following_process_welcome n l : along (following P) (process_welcome user n l).
Proof. unfold process_welcome, block_welcome, verify_welcome, decode. follow. Qed.
#[local] Hint Resolve following_process_welcome : follow.
Lemma following_process_loop fuel : ∀ after, along (following P) (process_loop user fuel after).
Proof.
  induction fuel as [|fuel IH]; intros after; cbn [process_loop];
    (apply along_bind; [apply _| |intros row; follow]); apply following_stills; walk; apply stays_sql;
    by intros d r d' (k & _ & [= _ <-])%bind_Some.
Qed.
#[local] Hint Resolve following_process_loop : follow.

Lemma following_welcome_page n l : along (following P) (welcome_page user n l).
Proof.
  unfold welcome_page. pose proof (λ last, following_stills P _ (still_store_welcomes user l last)). follow.
Qed.
#[local] Hint Resolve following_welcome_page : follow.
Lemma following_recover fuel : along (following P) (recover_welcomes user fuel).
Proof.
  induction fuel as [|fuel IH]; cbn [recover_welcomes]; [follow|].
  apply along_bind; [apply _| |intros n; follow]. apply following_stills. walk. apply stays_sql.
  by intros d z d' (k & _ & [= _ <-])%bind_Some.
Qed.
#[local] Hint Resolve following_recover : follow.

Lemma following_answered {A} r (k : Response.t → ClientM A) :
  (∀ x, known x → along (following P) (k x)) → along (following P) (read r ≫= k).
Proof.
  apply (following_bind P known); [apply following_stills; walk|apply reports_read].
Qed.
Lemma following_catch_up fuel room top : along (following P) (catch_up user fuel room top).
Proof.
  induction fuel as [|fuel IH]; cbn [catch_up]; [follow|].
  apply along_bind; [apply _|follow|intros n]. case_match; [|follow].
  apply along_bind; [apply _|follow|intros m]. apply following_answered. intros x [Hv Hp]. destruct x; try by follow.
  assert (Forall (valid c_event) events) as Hve by apply Hv.
  pose proof (λ n, following_receive_page room events n Hve Hp). follow.
Qed.
#[local] Hint Resolve following_catch_up : follow.
Lemma following_sync_room after h : along (following P) (sync_room user after h).
Proof. unfold sync_room. follow. Qed.
#[local] Hint Resolve following_sync_room : follow.
Lemma following_sync_rooms rooms : ∀ after, along (following P) (sync_rooms user after rooms).
Proof. induction rooms as [|h rooms IH]; intros after; cbn [sync_rooms]; follow. Qed.
#[local] Hint Resolve following_sync_rooms : follow.
Lemma following_sync_index fuel : ∀ after, along (following P) (sync_index_loop user fuel after).
Proof. induction fuel as [|fuel IH]; intros after; cbn [sync_index_loop]; follow. Qed.
#[local] Hint Resolve following_sync_index : follow.
Lemma following_synchronize : along (following P) (synchronize user).
Proof. unfold synchronize, process_welcomes, messages_left. follow. Qed.
#[local] Hint Resolve following_synchronize : follow.

(** *** Attempts and the loop *)

Lemma following_identity : along (following P) (on_store identity).
Proof.
  intros w c. unfold identity. rewrite in_transaction_transact. apply following_transact. clear w c. intros w' c' [[Hd Hs] Hi].
  unfold on_store. destruct (identity_body w' (store c')) as [r s] eqn:E. split; [|exact Hi].
  apply identity_body_state in E as ([Es _ _] & [Ec|(_ & x & Ex)] & _); (split; simpl; [|by rewrite Es]).
  - intros row. apply core_fields in Ec as (_ & -> & _). apply Hd.
  - rewrite Ex. exact Hd.
Qed.
#[local] Hint Resolve following_identity : follow.
Lemma following_send_operation id room parent plaintext :
  along (following P) (send_operation user id room parent plaintext).
Proof. unfold send_operation. follow. Qed.
#[local] Hint Resolve following_send_operation : follow.
Lemma following_attempt_request sd id parent i : along (following P) (attempt_request user sd id parent i).
Proof. unfold attempt_request, add_operation. follow. Qed.
#[local] Hint Resolve following_attempt_request : follow.
Lemma following_build_attempt i : along (following P) (build_attempt user i).
Proof. unfold build_attempt. follow. Qed.
#[local] Hint Resolve following_build_attempt : follow.
Lemma following_build_all rows : ∀ built, along (following P) (build_all user rows built).
Proof. induction rows as [|i rows IH]; intros built; cbn [build_all]; follow. Qed.
#[local] Hint Resolve following_build_all : follow.

Lemma following_own : along (following P) (on_store card_own).
Proof. intros w c. unfold card_own. rewrite on_store_bind. revert w c. follow. Qed.
Lemma following_import card fp : along (following P) (on_store (card_import card fp)).
Proof.
  apply following_on_store. unfold card_import.
  repeat first [apply stays_bind; [apply _|apply minding_still; solve [walk]|intros ?] | apply minding_still; solve [walk] | case_match].
  apply minding_inbox. intros d d'. unfold insert_contact. case_decide; [|done]. intros [= <-]. by case_match.
Qed.
#[local] Hint Resolve following_own following_import : follow.
Lemma following_intent room target plaintext : along (following P) (intent room target plaintext).
Proof.
  apply following_stills. unfold intent. walk. apply stays_update. intros d d'. unfold insert_intent.
  case_decide; [done|]. by intros [= <-].
Qed.
#[local] Hint Resolve following_intent : follow.
Lemma following_command x : along (following P) (command x).
Proof. unfold command, list_contacts, show_fingerprint. follow. Qed.

Lemma following_retry_entry e : along (following P) (retry_entry user e).
Proof.
  assert (∀ id r, along (following P) (response ← request id r; complete user id r response)) as Hc.
  { intros id r. apply (following_bind P known); [follow|apply reports_request|]. intros x. apply following_complete. }
  unfold retry_entry, decode. follow.
Qed.
#[local] Hint Resolve following_command following_retry_entry : follow.
Lemma following_retry_page page : ∀ after, along (following P) (retry_page user after page).
Proof. induction page as [|[n e] page IH]; intros after; cbn [retry_page]; follow. Qed.
#[local] Hint Resolve following_retry_page : follow.
Lemma following_retry_outbox fuel : ∀ after, along (following P) (retry_outbox user fuel after).
Proof. induction fuel as [|fuel IH]; intros after; cbn [retry_outbox]; follow. Qed.
#[local] Hint Resolve following_retry_outbox : follow.
Lemma following_rounds n : along (following P) (drive_rounds user n).
Proof. induction n as [|n IH]; cbn [drive_rounds]; unfold build_attempts; follow. Qed.
Lemma following_drive : along (following P) (drive user).
Proof.
  intros w c Hc. unfold drive. pose proof (following_rounds 4 w c Hc) as Hd. fold (drive_inner user) in Hd.
  by destruct (drive_inner user w c) as [[a|e] c1].
Qed.
#[local] Hint Resolve following_drive : follow.
Lemma following_turn t : along (following P) (turn user t).
Proof. unfold turn. follow. Qed.
#[local] Hint Resolve following_turn : follow.
Lemma following_run l : along (following P) (run user l).
Proof. unfold run. follow. induction l as [|t l IH]; cbn [run_turns]; follow. Qed.
End engine.
