(* ===== verification/ClientDemo.v ===== *)
(** * A small client

    Concrete inputs for the client: a world in which nothing fails, a digest, a
    signature scheme and an MLS library that are just good enough to run the engine, and
    Alice's client in a room with Bob. *)
From S2P Require Import Prelude Bytes Text Postcard PostcardRef Protocol Wire Identifiers Transcripts.
From S2P Require Import Framing Crypto ClientStore ClientContacts ClientMls ClientDelivery ClientSync.

(** The digest is the end of the input; a signature names its key and this digest. *)
#[export] Instance toy_sha256 : Sha256 := λ l,
  default (vreplicate 32 x00) (to_array 32 (be_bytes 32 (from_be_bytes l))).

Definition toy_sign (key : bytes 32) (message : list byte) : bytes 64 := key +++ sha256 message.

#[export] Instance toy_ed25519 : Ed25519 :=
  {| key_from_bytes _ := true; verify_strict key message s := bool_decide (s = toy_sign key message) |}.

#[export] Program Instance toy_signer : Ed25519Signer :=
  {| verifying_key seed := seed; sign := toy_sign |}.
Next Obligation. done. Qed.
Next Obligation. intros. by apply bool_decide_eq_true. Qed.

Definition alice : UserId := MkUserId (vreplicate 16 xa1).
Definition bob : UserId := MkUserId (vreplicate 16 xb0).
Definition cave : RoomId := MkRoomId (vreplicate 16 x22).
Definition alice_mls : bytes 32 := vreplicate 32 x1a.
Definition bob_mls : bytes 32 := vreplicate 32 x1b.
Definition alice_leaf : SigningIdentity := MkSigningIdentity (Basic (user_bytes alice)) alice_mls.
Definition bob_leaf : SigningIdentity := MkSigningIdentity (Basic (user_bytes bob)) bob_mls.

(** A group is its id and a byte for a pending commit; a message is its authenticated
    data and its content, in the clear, from leaf 1. *)
Definition aad_length : nat := length (event_authenticated_data cave (MkMessageId (vreplicate 16 x00)) 0).

#[export] Instance toy_mls : Mls := {|
  Group := list byte;
  MlsMessage := list byte;
  message_from_bytes := Some;
  message_to_bytes := Some;
  message_epoch _ := Some 1;
  as_key_package _ := Some bob_leaf;
  group_id g := take 16 g;
  group_epoch _ := 1;
  has_pending_commit g := bool_decide (g !! 16%nat = Some x01);
  roster _ := [(0, alice_leaf); (1, bob_leaf)];
  group_from_snapshot := Some;
  write_to_storage g := ([WriteGroup (take 16 g) g [] []], g);
  create_group_with_id _ _ id := Some id;
  join_group _ _ m := Some (take 16 m);
  generate_key_package _ := Some ([x0b], []);
  encrypt_application_message _ g plaintext aad := (Some (aad ++ plaintext), g);
  commit_add _ _ g aad package :=
    (Some (aad ++ package, [take 16 g]), if decide (16 ≤ length g)%nat then take 16 g ++ [x01] else g);
  apply_pending_commit _ g := (bool_decide (g !! 16%nat = Some x01), take 16 g);
  clear_pending_commit g := take 16 g;
  process_incoming_message _ g m := (Ok (ApplicationMessage 1 (take aad_length m) (drop aad_length m)), g);
|}.

Definition calm : World :=
  MkWorld 0 false (λ _, false) (λ _, 4096) (λ _, 32) (λ _, Some (vreplicate 16 x33))
    (λ _, Some (vreplicate 32 x07)) (λ _, []) (λ _ _, false) (λ _, false).

(** Contact cards signed by the seeds of their owners. *)
Definition card_for (user : UserId) (seed mls : bytes 32) : ContactCard :=
  MkContactCard user (verifying_key seed) mls
    (sign seed (card_transcript user (verifying_key seed) mls)).
Definition alice_seed : bytes 32 := vreplicate 32 x01.
Definition bob_seed : bytes 32 := vreplicate 32 x02.
Definition alice_card : ContactCard := card_for alice alice_seed alice_mls.
Definition bob_card : ContactCard := card_for bob bob_seed bob_mls.
Definition contact_row (card : ContactCard) : ContactRow := MkContactRow (mls_key card) (card_bytes card).

(** Alice has created the room, Bob is in it, nothing has been said. *)
Definition alice_db : ClientDb :=
  MkClientDb {[cave := 0]} [] [] (Some 0) []
    (<[alice := contact_row alice_card]> {[bob := contact_row bob_card]})
    (Some (alice, alice_seed)) {[vec_to_list (room_bytes cave) := vec_to_list (room_bytes cave)]} ∅ ∅ [] ∅ ∅ [] []
    (Some (vec_to_list alice_mls, [])) {[cave := (lit "Cave", lit "created")]} [].

Definition store_with (d : ClientDb) : Store := MkStore d None None false 0 (1024 * 1024 * 1024).
Definition client_with (d : ClientDb) (frames : list RelayMessage.t) : Client :=
  MkClient (store_with d) ∅ (Writer [] None)
    (omap (λ m, match encode_message c_relay_message m with
                | Ok l => Some (Arrived l) | Err _ => None end) frames) [] 0 0 0.

(** Bob's first message, as the relay logs it. *)
Definition hello_id : MessageId := MkMessageId (vreplicate 16 x44).
Definition bobs_hello : Event.t :=
  Event.Mk hello_id bob (Append.Mk cave 0 1 MlsContentType.Application
    (event_authenticated_data cave hello_id 0 ++ [x68; x69]) None).

Definition answer (x : Response.t) : RelayMessage.t :=
  RelayMessage.Delivery (MkMessageId (vreplicate 16 x33)) x.

(** What the relay says when Alice synchronises. *)
Definition one_message : list RelayMessage.t :=
  [answer (Response.Welcomes 0 [] false);
   RelayMessage.DeliveryChanged;
   answer (Response.SyncIndex [RoomHead.Mk cave (lit "Cave") 1] false);
   answer (Response.RoomEvents cave 0 [bobs_hello] false)].

Definition alice_client : Client := client_with alice_db one_message.
Definition alice_after : Client := (run alice [] calm alice_client).2.
