(* ===== verification/ClientEnds.v ===== *)
(** * The client's loops end

    Fuel stands for the loops of the engine. Here it is shown that it is never used up:
    loops that wait for the relay take a message per turn, and loops over a table move
    past a row per turn and meet no row they did not count. *)
From S2P Require Import Prelude Bytes Text Postcard Protocol Wire Identifiers Transcripts Framing.
From S2P Require Import Crypto ClientCommands ClientStore ClientContacts ClientMls ClientDelivery ClientSync ClientTx ClientJournal.

(** ** Costs in messages *)

Section costs.
Context `{Postcard} `{Sha256} `{Ed25519Signer} `{Mls}.

Definition waiting (c : Client) : nat := length (incoming c).

(** [m] never adds to the messages that are to come, and takes [k] when it succeeds. *)
Definition takes {A} (k : nat) (m : ClientM A) : Prop := ∀ w c,
  (waiting (m w c).2 + (if is_ok (m w c).1 then k else 0) ≤ waiting c)%nat.
(** With less than [n] messages to come, [m] does not run out of fuel. *)
Definition lasts {A} (n : nat) (m : ClientM A) : Prop := ∀ w c,
  (waiting c < n)%nat → (m w c).1 ≠ Err OutOfFuel.
(** Whatever is to come, [m] does not run out of fuel. *)
Definition ends {A} (m : ClientM A) : Prop := takes 0 m ∧ ∀ n, lasts n m.

Lemma takes_bind {A B} j k (m : ClientM A) (f : A → ClientM B) :
  takes j m → (∀ a, takes k (f a)) → takes (j + k) (m ≫= f).
Proof.
  intros Hm Hf w c. specialize (Hm w c). unfold mbind, ClientM_bind.
  destruct (m w c) as [[a|e] c1]; simpl in *; [|lia].
  specialize (Hf a w c1). destruct (f a w c1) as [[b|e] c2]; simpl in *; lia.
Qed.
Lemma takes_weaken {A} j k (m : ClientM A) : (k ≤ j)%nat → takes j m → takes k m.
Proof. intros Hjk Hm w c. specialize (Hm w c). destruct (m w c) as [[a|e] c']; simpl in *; lia. Qed.
Lemma lasts_bind {A B} n j (m : ClientM A) (f : A → ClientM B) :
  takes j m → lasts n m → (∀ a, lasts (n - j) (f a)) → lasts n (m ≫= f).
Proof.
  intros Ht Hm Hf w c Hn. specialize (Ht w c). specialize (Hm w c Hn). unfold mbind, ClientM_bind.
  destruct (m w c) as [[a|e] c1]; simpl in *; [|congruence]. apply Hf. lia.
Qed.

Lemma ends_ret {A} (a : A) : ends (mret a).
Proof. split; [intros w c; simpl; lia|done]. Qed.
Lemma finishes_bind {A B} (m : ClientM A) (f : A → ClientM B) :
  ends m → (∀ a, ends (f a)) → ends (m ≫= f).
Proof.
  intros [Ht Hl] Hf. split.
  - apply (takes_bind 0 0); [done|]. apply Hf.
  - intros n. eapply lasts_bind; [done..|]. intros a. rewrite Nat.sub_0_r. apply Hf.
Qed.
Lemma ends_fail {A} e : e ≠ OutOfFuel → ends (fail e : ClientM A).
Proof. intros He. split; [intros w c; simpl; lia|]. intros n w c _. simpl. congruence. Qed.
Lemma ends_refuse {A} e : ends (refuse e : ClientM A).
Proof. by apply ends_fail. Qed.
Lemma ends_lift {A} (r : result ClientError A) : r ≠ Err OutOfFuel → ends (lift r).
Proof. intros Hr. split; [intros w c; simpl; destruct r; simpl; lia|]. by intros n w c _. Qed.
Lemma ends_lift_ok_or {A} e (o : option A) : e ≠ OutOfFuel → ends (lift (ok_or e o)).
Proof. intros He. apply ends_lift. destruct o; simpl; congruence. Qed.
Lemma ends_lift_map_err {E A} e (r : result E A) : e ≠ OutOfFuel → ends (lift (map_err e r)).
Proof. intros He. apply ends_lift. destruct r; simpl; congruence. Qed.
Lemma ends_guard b e : e ≠ OutOfFuel → ends (guard b e).
Proof. intros He. destruct b; [apply ends_ret|by apply ends_fail]. Qed.
Lemma ends_gets {A} (f : Client → A) : ends (gets f).
Proof. split; [intros w c; simpl; lia|done]. Qed.
Lemma ends_modify f : (∀ c, incoming (f c) = incoming c) → ends (modify f).
Proof. intros Hf. split; [intros w c; unfold waiting; simpl; rewrite Hf; lia|done]. Qed.
Lemma ends_on_store {A} (m : StoreM A) : ends (on_store m).
Proof.
  split; intros; intros w c; unfold on_store; destruct (m w (store c)) as [[a|e] s]; unfold waiting; simpl; try lia.
  - done.
  - congruence.
Qed.
Lemma ends_call_mls {A} (f : list byte → Providers → A) : ends (call_mls f).
Proof. split; [intros w c; unfold waiting; simpl; lia|done]. Qed.
Lemma ends_or_error {A} e (m : ClientM A) : e ≠ OutOfFuel → ends m → ends (or_error e m).
Proof.
  intros He [Ht Hl]. split.
  - intros w c. specialize (Ht w c). unfold or_error. by destruct (m w c) as [[a|e'] c'].
  - intros n w c Hn. unfold or_error. destruct (m w c) as [[a|e'] c']; simpl; congruence.
Qed.
(** The error of an attempt that is raised again is not [OutOfFuel] either. *)
Lemma ends_attempt {A B} (m : ClientM A) (f : result ClientError A → ClientM B) :
  ends m → (∀ r, r ≠ Err OutOfFuel → ends (f r)) → ends (attempt m ≫= f).
Proof.
  intros [Ht Hl] Hf. split.
  - intros w c. specialize (Ht w c). specialize (Hl (S (waiting c)) w c). unfold mbind, ClientM_bind, attempt.
    destruct (m w c) as [r c1]; simpl in *. destruct (Hf r) as [Ht' _]; [apply Hl; lia|].
    specialize (Ht' w c1). destruct (is_ok (f r w c1).1), (is_ok r); lia.
  - intros n w c Hn. specialize (Hl n w c Hn). unfold mbind, ClientM_bind, attempt.
    destruct (m w c) as [r c1]; simpl in *. destruct (Hf r Hl) as [_ Hl']. apply (Hl' (S (waiting c1))). lia.
Qed.
Lemma ends_each {A} (f : A → ClientM ()) l : (∀ a, ends (f a)) → ends (each f l).
Proof. intros Hf. induction l as [|a l IH]; [apply ends_ret|]. simpl. by apply finishes_bind. Qed.
Lemma ends_bracket {A} (fin : World → Client → Client) (m : ClientM A) :
  (∀ w c, incoming (fin w c) = incoming c) → ends m →
  ends (λ w c, match on_store open_transaction w c with
               | (Err e, c) => (Err e, c)
               | (Ok _, c) =>
                   match (a ← m; on_store commit_transaction;; mret a) w c with
                   | (Ok a, c) => (Ok a, c)
                   | (Err e, c) => (Err e, fin w c)
                   end
               end).
Proof.
  intros Hfin Hm. assert (ends (a ← m; on_store commit_transaction;; mret a)) as [Ht Hl].
  { apply finishes_bind; [done|]. intros a. apply finishes_bind; [apply ends_on_store|]. intros ?. apply ends_ret. }
  destruct (ends_on_store open_transaction) as [Ht0 Hl0]. split; intros; intros w c; [|intros Hn].
  - specialize (Ht0 w c). destruct (on_store open_transaction w c) as [[u|e] c1]; [|exact Ht0].
    specialize (Ht w c1). unfold waiting in *.
    destruct ((a ← m; on_store commit_transaction;; mret a) w c1) as [[a|e] c2]; simpl in *; [lia|].
    rewrite Hfin. lia.
  - specialize (Hl0 (S (waiting c)) w c). destruct (on_store open_transaction w c) as [[u|e] c1].
    + specialize (Hl (S (waiting c1)) w c1).
      destruct ((a ← m; on_store commit_transaction;; mret a) w c1) as [[a|e] c2]; simpl in *; [done|].
      intros [= ->]. apply Hl; [lia|done].
    + intros [= ->]. apply Hl0; [lia|done].
Qed.
Lemma ends_atomic {A} (m : ClientM A) : ends m → ends (atomic m).
Proof. by apply (ends_bracket (λ w c, clear_groups (set_store (drop_transaction w) c))). Qed.
Lemma ends_transact {A} (m : ClientM A) : ends m → ends (transact m).
Proof. by apply (ends_bracket (λ w c, set_store (drop_transaction w) c)). Qed.
End costs.

#[export] Hint Resolve ends_ret ends_refuse ends_gets ends_on_store ends_call_mls : grotto.
#[export] Hint Extern 1 (ends (fail _)) => apply ends_fail; discriminate : grotto.
#[export] Hint Extern 1 (ends (guard _ _)) => apply ends_guard; discriminate : grotto.
#[export] Hint Extern 1 (ends (lift (ok_or _ _))) => apply ends_lift_ok_or; discriminate : grotto.
#[export] Hint Extern 1 (ends (lift (map_err _ _))) => apply ends_lift_map_err; discriminate : grotto.
#[export] Hint Extern 1 (ends (modify _)) => apply ends_modify; reflexivity : grotto.

(** Walks through a program without loops of its own. *)
Ltac pace_step :=
  lazymatch goal with
  | |- ends (atomic _) => apply ends_atomic
  | |- ends (transact _) => apply ends_transact
  | |- ends (each _ _) => apply ends_each; intros ?
  | |- ends (or_error _ _) => apply ends_or_error; [discriminate|]
  | |- ends (attempt _ ≫= _) => apply ends_attempt; [|intros ? ?]
  | |- ends (_ ≫= _) => apply finishes_bind; [|intros ?]
  end.
Ltac pace := repeat first [ solve [auto with grotto] | pace_step | case_match ].

(** ** Programs without loops *)

Section programs.
Context `{Postcard} `{Sha256} `{Ed25519Signer} `{Mls}.
Variable user : UserId.

Lemma ends_verify_roster g e : e ≠ OutOfFuel → ends (verify_roster g e).
Proof. intros He. apply ends_each. intros m. apply ends_or_error; [done|]. pace. Qed.
#[local] Hint Extern 1 (ends (verify_roster _ _)) => apply ends_verify_roster; discriminate : grotto.
#[local] Hint Extern 1 (ends (wire_message _)) => apply ends_lift_ok_or; discriminate : grotto.
#[local] Hint Extern 1 (ends (wire_bytes _)) => apply ends_lift_ok_or; discriminate : grotto.
#[local] Hint Extern 1 (ends (encode _ _)) => apply ends_lift_map_err; discriminate : grotto.
#[local] Hint Extern 1 (ends (decode _ _)) => apply ends_lift_map_err; discriminate : grotto.
#[local] Hint Extern 1 (ends (run_sql _)) => apply ends_on_store : grotto.
#[local] Hint Extern 1 (ends (show _)) => apply ends_modify; reflexivity : grotto.
#[local] Hint Extern 1 (ends (put_group _ _)) => apply ends_modify; reflexivity : grotto.
#[local] Hint Extern 1 (ends (cursor _)) => apply ends_on_store : grotto.
#[local] Hint Extern 1 (ends (unresolved _)) => apply ends_on_store : grotto.
#[local] Hint Extern 1 (ends (parse_stored_card _)) => apply ends_on_store : grotto.
#[local] Hint Extern 1 (ends (show_fingerprint _)) => apply ends_lift_ok_or; discriminate : grotto.

Lemma ends_group_mut room : ends (group_mut room).
Proof. unfold group_mut, load_group. pace. Qed.
#[local] Hint Resolve ends_group_mut : grotto.
Lemma ends_has_group room : ends (has_group room).
Proof. unfold has_group. pace. Qed.
Lemma ends_persist room : ends (persist room).
Proof. unfold persist. pace. Qed.
#[local] Hint Resolve ends_has_group ends_persist : grotto.
Lemma ends_create_group room : ends (create_group room).
Proof. unfold create_group. pace. Qed.
Lemma ends_contains_user room u : ends (contains_user room u).
Proof. unfold contains_user. pace. Qed.
Lemma ends_encrypt_bound room p aad : ends (encrypt_bound room p aad).
Proof. unfold encrypt_bound. pace. Qed.
Lemma ends_build_pending_add room p aad : ends (build_pending_add room p aad).
Proof. unfold build_pending_add. pace. Qed.
Lemma ends_discard_pending room : ends (discard_pending room).
Proof. unfold discard_pending. pace. Qed.
Lemma ends_apply_accepted_commit room : ends (apply_accepted_commit room).
Proof. unfold apply_accepted_commit. pace. Qed.
Lemma ends_process_bound event : ends (process_bound event).
Proof.
  assert (∀ e, fault_of e ≠ OutOfFuel) as Hf by (by intros []).
  unfold process_bound. pace; apply ends_lift; [done|]. intros [= E]. by apply Hf in E.
Qed.
Lemma ends_join room w : ends (join room w).
Proof. unfold join, current_epoch. pace. Qed.
Lemma ends_generate_key_packages n : ends (generate_key_packages n).
Proof. induction n; simpl; pace. Qed.
#[local] Hint Resolve ends_create_group ends_contains_user ends_encrypt_bound ends_build_pending_add
  ends_discard_pending ends_apply_accepted_commit ends_process_bound ends_join ends_generate_key_packages : grotto.

Lemma ends_new_message_id : ends new_message_id.
Proof. unfold new_message_id. pace. Qed.
Lemma ends_journal id r : ends (journal id r).
Proof. unfold journal. pace. Qed.
Lemma ends_require_contact u : ends (require_contact u).
Proof. unfold require_contact. pace. Qed.
#[local] Hint Resolve ends_new_message_id ends_journal ends_require_contact : grotto.
Lemma ends_command cmd : ends (command cmd).
Proof. unfold command, list_contacts, intent. pace. Qed.
Lemma ends_receive e : ends (receive e).
Proof. unfold receive. pace. Qed.
#[local] Hint Resolve ends_receive : grotto.
Lemma ends_complete id r x : ends (complete user id r x).
Proof.
  unfold complete, complete_create, complete_reservation, complete_conflict, complete_rejected, mismatch. pace.
Qed.
Lemma ends_finish_event e s : ends (finish_event user e s).
Proof. unfold finish_event, acknowledge_events. pace. Qed.
#[local] Hint Resolve ends_finish_event : grotto.
Lemma ends_apply_event e : ends (apply_event user e).
Proof.
  unfold apply_event. do 3 (apply finishes_bind; [solve [pace]|intros ?]).
  apply ends_attempt; [unfold apply_body, apply_own, apply_other, to_user_id; pace|intros r Hr].
  destruct r as [x|[]]; try (by apply ends_fail); unfold show_applied; pace.
Qed.
Lemma ends_process_welcome n l : ends (process_welcome user n l).
Proof. unfold process_welcome, verify_welcome, join_welcome, block_welcome, acknowledge_events. pace. Qed.
Lemma ends_welcome_page n l : ends (welcome_page user n l).
Proof.
  unfold welcome_page. pace. generalize n. induction l as [|x l IH]; intros last; simpl; pace.
Qed.
Lemma ends_receive_page room events : ∀ n, ends (receive_page room n events).
Proof. induction events as [|e events IH]; intros n; simpl; pace. Qed.
Lemma ends_build_attempts : ends (build_attempts user).
Proof.
  unfold build_attempts. pace. generalize false. induction a0 as [|i rows IH]; intros b; simpl; [pace|].
  apply finishes_bind; [|intros ?; apply IH].
  unfold build_attempt, attempt_request, add_operation, send_operation. pace.
Qed.
#[local] Hint Resolve ends_apply_event : grotto.
Lemma ends_apply_page events : ends (apply_page user events).
Proof. induction events as [|e events IH]; simpl; pace. Qed.
End programs.

(** ** Loops that wait for the relay *)

Section waits.
Context `{Postcard} `{Sha256} `{Ed25519Signer} `{Mls}.
Variable user : UserId.

(** A loop that gets one more than the messages to come as its fuel. *)
Lemma lasts_messages {A} (f : nat → ClientM A) :
  (∀ n, lasts n (f n)) → ∀ n, lasts n (messages_left ≫= f).
Proof. intros Hf n w c _. apply (Hf (S (waiting c))). unfold waiting. lia. Qed.

Lemma takes_messages {A} k (f : nat → ClientM A) :
  (∀ n, takes k (f n)) → takes k (messages_left ≫= f).
Proof. intros Hf. by apply (takes_bind 0 k); [apply ends_gets|]. Qed.

Lemma takes_receive_message : takes 1 receive_message.
Proof.
  intros w c. unfold receive_message, waiting.
  destruct (incoming c) as [|[frame|k|] rest] eqn:E; simpl; rewrite ?E; simpl; try lia.
  destruct (decode_message c_relay_message frame); simpl; lia.
Qed.
Lemma lasts_receive_message n : lasts n receive_message.
Proof.
  intros w c _. unfold receive_message. destruct (incoming c) as [|[frame|k|] rest]; simpl; try done.
  by destruct (decode_message c_relay_message frame).
Qed.

Lemma takes_fail {A} k e : takes k (fail e : ClientM A).
Proof. intros w c. simpl. lia. Qed.
Lemma takes_refuse {A} k e : takes k (refuse e : ClientM A).
Proof. apply takes_fail. Qed.

Lemma takes_await fuel id : takes 1 (await_response fuel id).
Proof.
  induction fuel as [|fuel IH]; simpl; [apply takes_fail|].
  apply (takes_bind 1 0); [apply takes_receive_message|]. intros m.
  destruct m; try apply takes_refuse; [|apply (takes_weaken 1); [lia|done]].
  case_decide; [apply ends_ret|apply takes_refuse].
Qed.
Lemma lasts_await fuel id : lasts fuel (await_response fuel id).
Proof.
  induction fuel as [|fuel IH]; simpl; [intros w c; lia|].
  apply (lasts_bind _ 1); [apply takes_receive_message|apply lasts_receive_message|]. intros m.
  rewrite Nat.sub_succ, Nat.sub_0_r. destruct m; try (by apply ends_refuse); [|done].
  case_decide; [apply ends_ret|apply ends_refuse].
Qed.

Lemma ends_send l : ends (send l).
Proof.
  unfold send. pace. split; [|intros n]; intros w c; unfold write_out, waiting; destruct (write_frame _ l) as [[u|k] o];
    simpl; try lia; done.
Qed.

Lemma takes_request id r : takes 1 (request id r).
Proof.
  unfold request. apply (takes_bind 0 1); [by apply ends_lift_map_err|intros bytes].
  apply (takes_bind 0 1); [apply ends_send|intros ?]. apply takes_messages. intros n. apply takes_await.
Qed.
Lemma lasts_request id r n : lasts n (request id r).
Proof.
  unfold request. apply (lasts_bind _ 0); [by apply ends_lift_map_err..|intros bytes].
  apply (lasts_bind _ 0); [apply ends_send..|intros ?]. apply lasts_messages. intros m. apply lasts_await.
Qed.

Lemma takes_read_loop fuel id r : takes 1 (read_loop fuel id r).
Proof.
  induction fuel as [|fuel IH]; simpl; [apply takes_fail|].
  apply (takes_bind 1 0); [apply takes_request|]. intros x.
  destruct (is_retry x); [apply (takes_weaken 1); [lia|done]|apply ends_ret].
Qed.
Lemma lasts_read_loop fuel id r : lasts fuel (read_loop fuel id r).
Proof.
  induction fuel as [|fuel IH]; simpl; [intros w c; lia|].
  apply (lasts_bind _ 1); [apply takes_request|apply lasts_request|]. intros x.
  rewrite Nat.sub_succ, Nat.sub_0_r. destruct (is_retry x); [done|apply ends_ret].
Qed.

Lemma takes_read r : takes 1 (read r).
Proof.
  unfold read. apply (takes_bind 0 1); [apply ends_new_message_id|intros id]. apply takes_messages.
  intros n. apply takes_read_loop.
Qed.
Lemma lasts_read r n : lasts n (read r).
Proof.
  unfold read. apply (lasts_bind _ 0); [apply ends_new_message_id..|intros id]. apply lasts_messages.
  intros m. apply lasts_read_loop.
Qed.

(** A turn of a loop: it reads an answer and goes on with less fuel. *)
Lemma takes_turn {A} r (k : Response.t → ClientM A) : (∀ x, takes 0 (k x)) → takes 0 (read r ≫= k).
Proof. intros Hk. apply (takes_weaken 1); [lia|]. by apply (takes_bind 1 0), Hk; apply takes_read. Qed.
Lemma lasts_turn {A} n r (k : Response.t → ClientM A) : (∀ x, lasts n (k x)) → lasts (S n) (read r ≫= k).
Proof.
  intros Hk. apply (lasts_bind _ 1); [apply takes_read|apply lasts_read|]. intros x.
  rewrite Nat.sub_succ, Nat.sub_0_r. apply Hk.
Qed.

(** What precedes a turn. *)
Lemma bounded_bind {A B} n (m : ClientM A) (k : A → ClientM B) :
  ends m → (∀ a, takes 0 (k a) ∧ lasts n (k a)) → takes 0 (m ≫= k) ∧ lasts n (m ≫= k).
Proof.
  intros [Ht Hl] Hk. split; [apply (takes_bind 0 0); [done|]; apply Hk|].
  eapply lasts_bind; [done..|]. intros a. rewrite Nat.sub_0_r. apply Hk.
Qed.
Lemma bounded_then {A B} n (m : ClientM A) (k : A → ClientM B) :
  takes 0 m ∧ lasts n m → (∀ a, ends (k a)) → takes 0 (m ≫= k) ∧ lasts n (m ≫= k).
Proof.
  intros [Ht Hl] Hk. split; [apply (takes_bind 0 0); [done|]; apply Hk|].
  eapply lasts_bind; [done..|]. intros a. apply Hk.
Qed.
Lemma bounded_ends {A} n (m : ClientM A) : ends m → takes 0 m ∧ lasts n m.
Proof. intros []. done. Qed.
Lemma bounded_turn {A} n r (k : Response.t → ClientM A) :
  (∀ x, takes 0 (k x) ∧ lasts n (k x)) → takes 0 (read r ≫= k) ∧ lasts (S n) (read r ≫= k).
Proof. intros Hk. split; [apply takes_turn|apply lasts_turn]; apply Hk. Qed.
Lemma ends_messages {A} (f : nat → ClientM A) :
  (∀ n, takes 0 (f n) ∧ lasts n (f n)) → ends (messages_left ≫= f).
Proof. intros Hf. split; [apply takes_messages|apply lasts_messages]; apply Hf. Qed.

Lemma out_of_fuel {A} : takes 0 (fail OutOfFuel : ClientM A) ∧ lasts 0 (fail OutOfFuel : ClientM A).
Proof. split; [apply takes_fail|]. intros w c. lia. Qed.

Lemma bounded_recover fuel : takes 0 (recover_welcomes user fuel) ∧ lasts fuel (recover_welcomes user fuel).
Proof.
  induction fuel as [|fuel IH]; simpl; [apply out_of_fuel|].
  apply bounded_bind; [apply ends_on_store|intros n]. apply bounded_turn. intros x.
  destruct x; try apply bounded_ends, ends_refuse.
  apply bounded_bind; [by apply ends_guard|intros ?]. case_match; [apply bounded_ends, ends_ret|].
  apply bounded_bind; [apply ends_welcome_page|intros ?]. by destruct more; [|apply bounded_ends, ends_ret].
Qed.

Lemma bounded_catch_up fuel room top :
  takes 0 (catch_up user fuel room top) ∧ lasts fuel (catch_up user fuel room top).
Proof.
  induction fuel as [|fuel IH]; simpl; [apply out_of_fuel|].
  apply bounded_bind; [apply ends_on_store|intros n]. case_match; [|apply bounded_ends, ends_ret].
  apply bounded_bind; [apply ends_on_store|intros m]. apply bounded_turn. intros x.
  destruct x; try apply bounded_ends, ends_refuse.
  apply bounded_bind; [by apply ends_guard|intros ?].
  apply bounded_bind; [apply ends_receive_page|intros ?].
  apply bounded_bind; [apply ends_apply_page|intros stopped].
  by destruct stopped; [apply bounded_ends, ends_ret|].
Qed.

Lemma ends_sync_room after h : ends (sync_room user after h).
Proof.
  unfold sync_room. do 2 (apply finishes_bind; [by apply ends_guard|intros ?]).
  apply finishes_bind; [apply ends_on_store|intros n]. apply finishes_bind; [by apply ends_guard|intros ?].
  do 2 (apply finishes_bind; [apply ends_on_store|intros ?]). case_match; [apply ends_ret|].
  apply finishes_bind; [apply ends_has_group|intros present]. destruct present; [|apply ends_ret].
  apply ends_messages. intros m. apply bounded_catch_up.
Qed.
Lemma ends_sync_rooms rooms : ∀ after, ends (sync_rooms user after rooms).
Proof.
  induction rooms as [|h rooms IH]; intros after; simpl; [apply ends_ret|].
  apply finishes_bind; [apply ends_sync_room|]. intros ?. apply IH.
Qed.
Lemma bounded_sync_index fuel : ∀ after,
  takes 0 (sync_index_loop user fuel after) ∧ lasts fuel (sync_index_loop user fuel after).
Proof.
  induction fuel as [|fuel IH]; intros after; simpl; [apply out_of_fuel|].
  apply bounded_turn. intros x. destruct x; try apply bounded_ends, ends_refuse.
  apply bounded_bind; [by apply ends_guard|intros ?].
  apply bounded_bind; [apply ends_sync_rooms|intros next]. by destruct more; [|apply bounded_ends, ends_ret].
Qed.
End waits.

(** ** Loops over a table *)

(** A relation between tables that the MLS tables and the list of rooms are no part of. *)
Class Frame (R : relation ClientDb) := {
  frame_preorder :: PreOrder R;
  frame_rooms f d : R d (set_local_rooms f d);
  frame_groups f d : R d (set_mls_groups f d);
  frame_epochs f d : R d (set_mls_epochs f d);
  frame_packages f d : R d (set_mls_packages f d);
}.

(** The tables are related and an open transaction stays open. *)
Definition rows (R : relation ClientDb) (s s' : Store) : Prop := saved s' = saved s ∧ R (db s) (db s').
Definition tables `{Mls} (R : relation ClientDb) (c c' : Client) : Prop := rows R (store c) (store c').
(** The tables are related. *)
Definition turned `{Mls} (R : relation ClientDb) (c c' : Client) : Prop := R (db (store c)) (db (store c')).

Section frames.
Context `{Postcard} `{Sha256} `{Ed25519Signer} `{Mls} (R : relation ClientDb) `{!Frame R}.
#[local] Set Default Proof Using "Type*".

#[global] Instance rows_preorder : PreOrder (rows R).
Proof. split; [done|]. intros s1 s2 s3 [? ?] [? ?]. split; [congruence|by etrans]. Qed.
#[global] Instance tables_preorder : PreOrder (tables R).
Proof. split; [by intros c; unfold tables|]. intros c1 c2 c3. unfold tables. apply transitivity. Qed.
#[global] Instance turned_preorder : PreOrder (turned R).
Proof. split; [by intros c; unfold turned|]. intros c1 c2 c3. unfold turned. apply transitivity. Qed.

Lemma rows_observe {A} (f : World → nat → A) : stays (rows R) (observe f).
Proof. by intros w s. Qed.
Lemma rows_sql {A} (f : ClientDb → option (A * ClientDb)) :
  (∀ d a d', f d = Some (a, d') → R d d') → stays (rows R) (sql f).
Proof.
  intros Hf w s. unfold sql. destruct (sql_fails w (ticks s)); [done|].
  destruct (f (db s)) as [[a d]|] eqn:E; [|done]. split; [done|]. simpl. by eapply Hf.
Qed.
Lemma rows_select {A} (f : ClientDb → A) : stays (rows R) (select f).
Proof. apply rows_sql. by intros d a d' [= _ <-]. Qed.
Lemma rows_update f : (∀ d d', f d = Some d' → R d d') → stays (rows R) (update f).
Proof. intros Hf. apply rows_sql. intros d a d' (d1 & E & [= _ <-])%bind_Some. by apply Hf. Qed.
Lemma rows_update_total f : (∀ d, R d (f d)) → stays (rows R) (update (λ d, Some (f d))).
Proof. intros Hf. apply rows_update. by intros d d' [= <-]. Qed.
Lemma tables_on_store {A} (m : StoreM A) : stays (rows R) m → along (tables R) (on_store m).
Proof. apply along_on_store. done. Qed.
Lemma tables_turned {A} (m : ClientM A) : along (tables R) m → along (turned R) m.
Proof. intros Hm w c. apply Hm. Qed.
Lemma tables_modify f : (∀ c, store (f c) = store c) → along (tables R) (modify f).
Proof. intros Hf w c. unfold tables. simpl. by rewrite Hf. Qed.
Lemma tables_call_mls {A} (f : list byte → Providers → A) : along (tables R) (call_mls f).
Proof. by intros w c. Qed.

(** Dropping an open transaction leaves the tables or goes back to the saved ones. *)
Lemma drop_rows w s : db (drop_transaction w s) = db s ∨ saved s = Some (db (drop_transaction w s)).
Proof.
  unfold drop_transaction. pose proof (lock_state w s) as Hl.
  destruct (lock w s) as [[u|e] s1]; simpl in Hl; subst s1; [|by left].
  unfold execute_rollback. destruct (sql_fails w (ticks s)); [by left|].
  destruct (saved s) as [d|] eqn:Es; [by right|by left].
Qed.
Lemma commit_rows w s : db (commit_transaction w s).2 = db s ∧
  (is_ok (commit_transaction w s).1 = true ∨ saved (commit_transaction w s).2 = saved s).
Proof.
  unfold commit_transaction, mbind, StoreM_bind. pose proof (lock_state w s) as Hl.
  destruct (lock w s) as [[u|e] s1]; simpl in Hl; subst s1; [|by split; [|right]].
  unfold execute_commit. destruct (sql_fails w (ticks s)); [by split; [|right]|].
  destruct (saved s) eqn:Es; simpl; rewrite ?Es; auto.
Qed.

(** A transaction whose body stays in the relation does, whether it commits or not. *)
Lemma turned_bracket {A} (fin : Client → Client) (m : ClientM A) :
  (∀ c, store (fin c) = store c) → along (tables R) m → along (turned R) (bracket fin m).
Proof.
  intros Hfin Hm w c. unfold bracket, turned. unfold on_store at 1.
  destruct (open_transaction w (store c)) as [[u|e] s1] eqn:Eo; cycle 1.
  { apply open_Err in Eo as (Ed & _). simpl. by rewrite Ed. }
  apply open_Ok in Eo as (_ & _ & _ & _ & ->). set (c0 := set_store _ c).
  assert (saved (store c0) = Some (db (store c)) ∧ db (store c0) = db (store c)) as [Hs0 Hd0] by done.
  destruct (Hm w c0) as [Hs HR]. rewrite Hs0 in Hs. rewrite Hd0 in HR. unfold mbind, ClientM_bind.
  destruct (m w c0) as [[a|e] c1]; simpl in Hs, HR.
  - unfold on_store. destruct (commit_rows w (store c1)) as [Hd Hc].
    destruct (commit_transaction w (store c1)) as [[u1|e] s2]; simpl in *; [by rewrite Hd|].
    destruct Hc as [?|Hc]; [done|]. rewrite Hfin. simpl.
    destruct (drop_rows w s2) as [->|Hd2]; [by rewrite Hd|].
    rewrite Hc, Hs in Hd2. injection Hd2 as <-. done.
  - simpl. rewrite Hfin. simpl. destruct (drop_rows w (store c1)) as [->|Hd2]; [done|].
    rewrite Hs in Hd2. injection Hd2 as <-. done.
Qed.
Lemma turned_atomic {A} (m : ClientM A) : along (tables R) m → along (turned R) (atomic m).
Proof. by apply (turned_bracket clear_groups). Qed.
Lemma turned_transact {A} (m : ClientM A) : along (tables R) m → along (turned R) (transact m).
Proof. by apply (turned_bracket id). Qed.
End frames.

#[export] Hint Resolve rows_preorder tables_preorder turned_preorder rows_observe rows_select
  tables_call_mls : grotto.

Ltac framed := first [apply frame_rooms | apply frame_groups | apply frame_epochs | apply frame_packages].

(** Walks through the statements of a program. *)
Ltac sweep :=
  repeat first
    [ solve [auto with grotto]
    | apply along_bind; [auto with grotto| |intros ?]
    | apply stays_bind; [auto with grotto| |intros ?]
    | apply along_or_error
    | apply along_attempt
    | apply along_each; [auto with grotto|intros ?]
    | solve [apply tables_modify; [apply _|done]]
    | apply stays_when; [auto with grotto|]
    | apply stays_for_each; [auto with grotto|intros ?]
    | apply tables_on_store
    | apply rows_update_total; [apply _|intros ?; framed]
    | case_match ].

Section framed.
Context `{Postcard} `{Sha256} `{Ed25519Signer} `{Mls} (R : relation ClientDb) `{!Frame R}.
#[local] Set Default Proof Using "Type*".

Lemma rows_admit n : stays (rows R) (admit_new_data n).
Proof. unfold admit_new_data, pragma. sweep. Qed.
Lemma rows_upsert_room room name origin : stays (rows R) (upsert_room room name origin).
Proof. unfold upsert_room, write_room. sweep. Qed.
Lemma rows_verify_identity who : stays (rows R) (verify_identity who).
Proof. unfold verify_identity. sweep. Qed.
Lemma rows_storage_call call : stays (rows R) (storage_call call).
Proof.
  destruct call; simpl; unfold MlsStorage.write, MlsStorage.write_epochs, MlsStorage.delete,
    MlsStorage.insert; sweep.
  all: try (by intros w s; unfold MlsStorage.require_transaction; case_match).
  apply rows_update; [apply _|]. intros d d'. case_match; [done|]. intros [= <-]. framed.
Qed.
#[local] Hint Resolve rows_admit rows_upsert_room rows_verify_identity rows_storage_call : grotto.
Lemma tables_group_mut room : along (tables R) (group_mut room).
Proof. unfold group_mut, verify_roster, load_group, MlsStorage.state, put_group. sweep. Qed.
#[local] Hint Resolve tables_group_mut : grotto.
Lemma tables_has_group room : along (tables R) (has_group room).
Proof. unfold has_group. sweep. Qed.
Lemma tables_persist room : along (tables R) (persist room).
Proof. unfold persist, put_group. sweep. Qed.
#[local] Hint Resolve tables_has_group tables_persist : grotto.
Lemma tables_create_group room : along (tables R) (create_group room).
Proof. unfold create_group, put_group. sweep. Qed.
Lemma tables_contains_user room u : along (tables R) (contains_user room u).
Proof. unfold contains_user. sweep. Qed.
Lemma tables_discard_pending room : along (tables R) (discard_pending room).
Proof. unfold discard_pending, put_group. sweep. Qed.
Lemma tables_join room w : along (tables R) (join room w).
Proof. unfold join, current_epoch, wire_message, verify_roster, put_group. sweep. Qed.
Lemma tables_require_contact u : along (tables R) (require_contact u).
Proof.
  unfold require_contact, parse_stored_card, run_sql. sweep. apply rows_sql; [apply _|].
  by intros d r d' (row & _ & [= _ <-])%bind_Some.
Qed.
Lemma tables_write_out l : along (tables R) (write_out l).
Proof. intros w c. unfold write_out. by destruct (write_frame _ l). Qed.
Lemma tables_receive_message : along (tables R) receive_message.
Proof. intros w c. unfold receive_message. by destruct (incoming c) as [|[] ?]. Qed.
#[local] Hint Resolve tables_write_out tables_receive_message : grotto.
Lemma tables_request id r : along (tables R) (request id r).
Proof.
  unfold request, encode, send. sweep. induction a1; simpl; sweep.
Qed.
End framed.

#[export] Hint Resolve rows_admit rows_upsert_room rows_verify_identity tables_group_mut tables_has_group
  tables_persist tables_create_group tables_contains_user tables_discard_pending tables_join
  tables_require_contact tables_request : grotto.

(** The rows of [welcome_inbox] keep their cursors; the outbox loses rows at most. *)
Definition same_welcomes (d d' : ClientDb) : Prop := inbox_cursor <$> welcomes d' = inbox_cursor <$> welcomes d.
Definition fewer_attempts (d d' : ClientDb) : Prop := outbox d' `sublist_of` outbox d.

#[global] Instance same_welcomes_frame : Frame same_welcomes.
Proof. split; [|done..]. split; [done|]. intros d1 d2 d3. unfold same_welcomes. congruence. Qed.
#[global] Instance fewer_attempts_frame : Frame fewer_attempts.
Proof.
  split; [|intros; unfold fewer_attempts; simpl; done..].
  split; [intros d; unfold fewer_attempts; done|]. intros d1 d2 d3. unfold fewer_attempts. by intros ? ?; etrans.
Qed.
#[export] Hint Resolve same_welcomes_frame fewer_attempts_frame : grotto.

Section tables.
Context `{Postcard} `{Sha256} `{Ed25519Signer} `{Mls}.
Variable user : UserId.
#[local] Set Default Proof Using "Type*".

(** What a statement that succeeded did. *)
Lemma run_sql_Ok {A} (f : ClientDb → option (A * ClientDb)) w c a c' :
  run_sql (sql f) w c = (Ok a, c') → f (db (store c)) = Some (a, db (store c')).
Proof.
  unfold run_sql, on_store, mbind, StoreM_bind. pose proof (lock_state w (store c)) as Hl.
  destruct (lock w (store c)) as [[u|e] s1]; simpl in Hl; subst s1; [|done].
  unfold sql. destruct (sql_fails w (ticks (store c))); [done|].
  destruct (f (db (store c))) as [[b d]|]; [|done]. by intros [= -> <-].
Qed.

Lemma welcomes_journal id r : along (tables same_welcomes) (journal id r).
Proof.
  unfold journal, encode, save_outbox. sweep. apply rows_update_total; [apply _|].
  intros d. unfold insert_outbox. by case_match.
Qed.
Lemma welcomes_mark n state d : same_welcomes d (mark_welcome n state d).
Proof.
  unfold same_welcomes, mark_welcome. simpl. rewrite <- list_fmap_compose. apply list_fmap_ext.
  intros i r _. simpl. by case_decide; subst.
Qed.
#[local] Hint Resolve welcomes_journal : grotto.
Lemma turned_process_welcome n l : along (turned same_welcomes) (process_welcome user n l).
Proof.
  unfold process_welcome.
  assert (along (turned same_welcomes) (block_welcome n)) as Hb.
  { apply tables_turned; [apply _|]. unfold block_welcome, run_sql. sweep.
    apply rows_update_total; [apply _|]. intros d. apply welcomes_mark. }
  apply along_bind; [apply _|apply tables_turned; [apply _|]; unfold decode; sweep|intros x].
  apply along_bind; [apply _|apply tables_turned; [apply _|]; unfold verify_welcome; sweep|intros v].
  case_match; [|done]. apply along_bind; [apply _| |intros y; case_match; [|done]].
  - apply along_attempt, turned_atomic; [apply _..|].
    unfold join_welcome, acknowledge_events, run_sql. sweep.
    + apply rows_update; [apply _|]. intros d d' (k & _ & E)%bind_Some. case_match; [done|]. by injection E as <-.
    + apply rows_update_total; [apply _|]. intros d. apply welcomes_mark.
  - apply tables_turned; [apply _|]. unfold show. sweep.
Qed.

(** The Welcomes after a cursor. *)
Definition ahead (after : Z) (d : ClientDb) : nat :=
  length (filter (λ n, after < n) (inbox_cursor <$> welcomes d)).

Lemma filter_shorter {A} (P Q : A → Prop) `{!∀ x, Decision (P x), !∀ x, Decision (Q x)} l x :
  (∀ y, Q y → P y) → x ∈ l → P x → ¬ Q x → (length (filter Q l) < length (filter P l))%nat.
Proof.
  intros HQP Hx Px Qx. induction l as [|y l IH]; [by apply not_elem_of_nil in Hx|].
  assert (length (filter Q l) ≤ length (filter P l))%nat as Hle.
  { clear -HQP. induction l as [|z l IH]; [done|]. rewrite !filter_cons.
    repeat case_decide; simpl; [lia|naive_solver|lia|lia]. }
  rewrite !filter_cons. apply elem_of_cons in Hx as [<-|Hx].
  - rewrite (decide_True (P := P x)), (decide_False (P := Q x)) by done. simpl. lia.
  - specialize (IH Hx). repeat case_decide; simpl; [lia|naive_solver|lia|lia].
Qed.

Lemma next_welcome_ahead after d row :
  next_welcome after d = Some row → (ahead (inbox_cursor row) d < ahead after d)%nat.
Proof.
  unfold next_welcome. intros Hh. assert (row ∈ welcomes d ∧ after < inbox_cursor row) as [Hin Hlt].
  { apply head_Some_elem_of in Hh. rewrite merge_sort_Permutation in Hh.
    apply list_elem_of_filter in Hh as [[? _] ?]. done. }
  apply (filter_shorter _ _ _ (inbox_cursor row)); [lia| |done|lia].
  by apply list_elem_of_fmap_2.
Qed.

Lemma u64_param_Some z n : u64_param z = Some n → n = z ∧ z ≤ i64_max.
Proof. unfold u64_param. case_decide; naive_solver. Qed.

Lemma ends_Err {A} (m : ClientM A) w c e c' : ends m → m w c = (Err e, c') → e ≠ OutOfFuel.
Proof. intros [_ Hl] E ->. specialize (Hl (S (waiting c)) w c). rewrite E in Hl. apply Hl; [lia|done]. Qed.

Lemma process_loop_lasts fuel : ∀ after w c,
  (ahead after (db (store c)) ≤ fuel)%nat → (process_loop user fuel after w c).1 ≠ Err OutOfFuel.
Proof.
  induction fuel as [|fuel IH]; intros after w c Hf; simpl; unfold mbind at 1, ClientM_bind.
  all: destruct (run_sql _ w c) as [[row|e] c1] eqn:E;
    [|apply ends_Err in E; [simpl; congruence|apply ends_on_store]].
  all: apply run_sql_Ok in E as (k & [-> _]%u64_param_Some & [= <- Hd])%bind_Some.
  all: destruct (next_welcome after (db (store c))) as [row|] eqn:En; [|done]; apply next_welcome_ahead in En.
  { lia. }
  unfold mbind, ClientM_bind. pose proof (turned_process_welcome (inbox_cursor row) (welcome_bytes row) w c1) as Ht.
  destruct (process_welcome user _ _ w c1) as [[u|e] c2] eqn:Ep;
    [|apply ends_Err in Ep; [simpl; congruence|apply ends_process_welcome]].
  apply IH. unfold turned, same_welcomes in Ht. simpl in Ht. unfold ahead in *. rewrite Ht, <- Hd. lia.
Qed.
Lemma takes_process_loop fuel : ∀ after, takes 0 (process_loop user fuel after).
Proof.
  induction fuel as [|fuel IH]; intros after; simpl;
    (apply (takes_bind 0 0); [apply ends_on_store|intros [row|]; [|apply ends_ret]]); [apply takes_fail|].
  apply (takes_bind 0 0); [apply ends_process_welcome|]. intros ?. apply IH.
Qed.
Lemma ends_process_welcomes : ends (process_welcomes user).
Proof.
  split; [apply (takes_bind 0 0); [apply ends_gets|]; intros n; apply takes_process_loop|].
  intros n w c _. apply process_loop_lasts. unfold ahead. simpl. etrans; [apply length_filter|]. by rewrite length_fmap.
Qed.
Lemma ends_synchronize : ends (synchronize user).
Proof.
  unfold synchronize. apply ends_messages. intros n. apply bounded_then; [apply bounded_recover|intros ?].
  apply finishes_bind; [apply ends_process_welcomes|intros ?]. apply ends_messages. intros m. apply bounded_sync_index.
Qed.

(** *** Retries *)

Lemma attempts_remove id : along (tables fewer_attempts) (on_store (remove_outbox id)).
Proof.
  unfold remove_outbox. sweep. apply rows_update_total; [apply _|]. intros d. apply sublist_filter.
Qed.
Lemma attempts_update f : (∀ d, outbox (f d) = outbox d) →
  along (tables fewer_attempts) (run_sql (update (λ d, Some (f d)))).
Proof.
  intros Hf. unfold run_sql. sweep. apply rows_update_total; [apply _|]. intros d. unfold fewer_attempts. by rewrite Hf.
Qed.
Lemma attempts_show l : along (turned fewer_attempts) (show l).
Proof. apply tables_turned; [apply _|]. unfold show. sweep. Qed.
#[local] Hint Resolve attempts_remove attempts_show : grotto.
#[local] Hint Extern 1 (along (tables fewer_attempts) (run_sql (update _))) =>
  apply attempts_update; reflexivity : grotto.

Lemma turned_receive e : along (turned fewer_attempts) (receive e).
Proof.
  apply tables_turned; [apply _|]. unfold receive, encode, run_sql. sweep.
  apply rows_update; [apply _|]. intros d d'. unfold insert_inbox. case_match; [|done].
  intros [= <-]. by unfold fewer_attempts.
Qed.
Lemma turned_complete_create id name room : along (turned fewer_attempts) (complete_create id name room).
Proof.
  unfold complete_create. apply along_bind; [apply _| |intros ?; apply attempts_show].
  apply turned_atomic; [apply _|]. sweep.
Qed.
Lemma turned_complete_reservation id u package : along (turned fewer_attempts) (complete_reservation id u package).
Proof.
  unfold complete_reservation, wire_message.
  do 4 (apply along_bind; [apply _|apply tables_turned; [apply _|]; sweep|intros ?]).
  apply turned_transact; [apply _|]. unfold run_sql. sweep. apply rows_sql; [apply _|]. intros d n d' [= _ <-].
  by unfold fewer_attempts.
Qed.
Lemma turned_complete_conflict id operation room : along (turned fewer_attempts) (complete_conflict id operation room).
Proof.
  unfold complete_conflict. apply along_bind; [apply _| |intros ?].
  - apply turned_atomic; [apply _|]. sweep.
  - apply along_bind; [apply _| |intros ?; apply attempts_show]. apply tables_turned; [apply _|]. sweep.
Qed.
Lemma turned_complete_rejected id r reason : along (turned fewer_attempts) (complete_rejected id r reason).
Proof.
  unfold complete_rejected. apply along_bind; [apply _| |intros ?; apply attempts_show].
  apply turned_atomic; [apply _|]. sweep.
Qed.
Lemma turned_remove id : along (turned fewer_attempts) (on_store (remove_outbox id)).
Proof. apply tables_turned; [apply _|]. auto with grotto. Qed.
Lemma turned_complete id r x : along (turned fewer_attempts) (complete user id r x).
Proof.
  assert (along (turned fewer_attempts) mismatch) as Hm by (by intros w c; unfold turned).
  unfold complete. repeat case_match; subst;
    lazymatch goal with
    | |- along _ mismatch => exact Hm
    | |- along _ (show _) => apply attempts_show
    | |- along _ (receive _) => apply turned_receive
    | |- along _ (complete_create _ _ _) => apply turned_complete_create
    | |- along _ (complete_reservation _ _ _) => apply turned_complete_reservation
    | |- along _ (complete_conflict _ _ _) => apply turned_complete_conflict
    | |- along _ (complete_rejected _ _ _) => apply turned_complete_rejected
    | |- along _ (on_store _) => apply turned_remove
    | |- along _ (_ ≫= _) => apply along_bind; [apply _|apply turned_remove|intros ?; apply attempts_show]
    end.
Qed.
Lemma turned_retry_entry e : along (turned fewer_attempts) (retry_entry user e).
Proof.
  unfold retry_entry. apply along_bind; [apply _|apply tables_turned; [apply _|]; unfold decode; sweep|intros m].
  destruct m; try (apply tables_turned; [apply _|]; apply along_refuse, _).
  apply along_bind; [apply _|apply tables_turned; [apply _|]; sweep|intros ?].
  apply along_bind; [apply _|apply tables_turned; [apply _|]; sweep|intros x]. apply turned_complete.
Qed.
Lemma ends_retry_entry e : ends (retry_entry user e).
Proof.
  unfold retry_entry. apply finishes_bind; [by apply ends_lift_map_err|intros m]. destruct m; try apply ends_refuse.
  apply finishes_bind; [by apply ends_guard|intros ?]. apply finishes_bind; [|intros x; apply ends_complete].
  split; [apply (takes_weaken 1); [lia|apply takes_request]|intros n; apply lasts_request].
Qed.
Lemma turned_retry_page page : ∀ after, along (turned fewer_attempts) (retry_page user after page).
Proof.
  induction page as [|[rowid e] page IH]; intros after; simpl; [apply along_ret, _|].
  apply along_bind; [apply _|apply turned_retry_entry|intros ?; apply IH].
Qed.
Lemma ends_retry_page page : ∀ after, ends (retry_page user after page).
Proof.
  induction page as [|[rowid e] page IH]; intros after; simpl; [apply ends_ret|].
  apply finishes_bind; [apply ends_retry_entry|intros ?; apply IH].
Qed.
Lemma retry_page_last page : ∀ after w c n c',
  retry_page user after page w c = (Ok n, c') → n = after ∧ page = [] ∨ n ∈ page.*1.
Proof.
  induction page as [|[rowid e] page IH]; intros after w c n c' E; simpl in E; [injection E as <- _; by left|].
  right. unfold mbind, ClientM_bind in E. destruct (retry_entry user e w c) as [[u|x] c1]; [|done].
  apply IH in E as [[-> _]|Hn]; [by left|by right].
Qed.

(** The rows of the outbox after a rowid. *)
Definition later (after : Z) (d : ClientDb) : nat := length (filter (λ r, after < outbox_rowid r) (outbox d)).

Lemma outbox_entries_Ok rows : ∀ n entries w s page s',
  outbox_entries rows n entries w s = (Ok page, s') →
  db s' = db s ∧ ∀ k, k ∈ page.*1 → k ∈ entries.*1 ∨ k ∈ outbox_rowid <$> rows.
Proof.
  induction rows as [|r rows IH]; intros n entries w s page s' E; simpl in E.
  { injection E as -> <-. auto. }
  unfold mbind, StoreM_bind in E. unfold select, sql in E.
  destruct (sql_fails w (ticks s)); [done|]. simpl in E.
  case_match; [injection E as -> <-; auto|]. apply IH in E as [Hd Hk]. split; [done|].
  intros k [Hin|Hin]%Hk; [|rewrite fmap_cons; right; by right].
  rewrite fmap_app in Hin. apply elem_of_app in Hin as [?|Hin]; [by left|]. right.
  apply list_elem_of_singleton in Hin as ->. rewrite fmap_cons. by left.
Qed.

Lemma outbox_page_Ok after w c page c' :
  on_store (outbox_page after) w c = (Ok page, c') →
  db (store c') = db (store c) ∧
  ∀ k, k ∈ page.*1 → after < k ∧ k ∈ outbox_rowid <$> outbox (db (store c)).
Proof.
  unfold on_store, outbox_page, mbind, StoreM_bind. pose proof (lock_state w (store c)) as Hl.
  destruct (lock w (store c)) as [[u|e] s1]; simpl in Hl; subst s1; [|done].
  unfold select at 1, sql. destruct (sql_fails w (ticks (store c))); [done|]. cbn [mbind option_bind].
  destruct (outbox_entries _ _ _ _ _) as [[l|e] s] eqn:E; [|done]. intros [= -> <-].
  apply outbox_entries_Ok in E as [Hd Hk]. split; [done|]. intros k [Hin|Hin]%Hk; [by apply not_elem_of_nil in Hin|].
  apply list_elem_of_fmap in Hin as (r & -> & Hr). apply elem_of_take in Hr as (i & Hr & _).
  apply list_elem_of_lookup_2 in Hr. rewrite merge_sort_Permutation in Hr.
  apply list_elem_of_filter in Hr as [? ?]. split; [done|]. by apply list_elem_of_fmap_2.
Qed.

Lemma later_fewer n d d' : fewer_attempts d d' → (later n d' ≤ later n d)%nat.
Proof.
  unfold fewer_attempts, later. induction 1; rewrite ?filter_cons; repeat case_decide; simpl; lia.
Qed.

Lemma later_next after k d : after < k → k ∈ outbox_rowid <$> outbox d → (later k d < later after d)%nat.
Proof.
  intros Hlt (r & -> & Hr)%list_elem_of_fmap. apply (filter_shorter _ _ _ r); [|done|done|]; lia.
Qed.

Lemma retry_outbox_lasts fuel : ∀ after w c,
  (later after (db (store c)) ≤ fuel)%nat → (retry_outbox user fuel after w c).1 ≠ Err OutOfFuel.
Proof.
  induction fuel as [|fuel IH]; intros after w c Hf; simpl; unfold mbind at 1, ClientM_bind.
  all: destruct (on_store (outbox_page after) w c) as [[page|e] c1] eqn:E;
    [|apply ends_Err in E; [simpl; congruence|apply ends_on_store]].
  all: apply outbox_page_Ok in E as [Hd Hk]; destruct page as [|p page]; [done|].
  { destruct (Hk p.1) as [Hlt Hin]; [by left|]. pose proof (later_next _ _ _ Hlt Hin). lia. }
  unfold mbind, ClientM_bind. pose proof (turned_retry_page (p :: page) after w c1) as Ht.
  destruct (retry_page user after (p :: page) w c1) as [[n|e] c2] eqn:Ep;
    [|apply ends_Err in Ep; [simpl; congruence|apply ends_retry_page]].
  apply IH. apply later_fewer with (n := n) in Ht. simpl in Ht.
  apply retry_page_last in Ep as [[_ ?]|Hn]; [done|]. destruct (Hk n Hn) as [Hlt Hin].
  pose proof (later_next _ _ _ Hlt Hin). rewrite Hd in Ht. lia.
Qed.
Lemma takes_retry_outbox fuel : ∀ after, takes 0 (retry_outbox user fuel after).
Proof.
  induction fuel as [|fuel IH]; intros after; simpl;
    (apply (takes_bind 0 0); [apply ends_on_store|intros [|p page]; [apply ends_ret|]]); [apply takes_fail|].
  apply (takes_bind 0 0); [apply ends_retry_page|]. intros ?. apply IH.
Qed.

Lemma ends_counted {A B} (f : Client → nat) (m : nat → ClientM A) (k : A → ClientM B) :
  (∀ n, takes 0 (m n)) → (∀ w c, (m (f c) w c).1 ≠ Err OutOfFuel) → (∀ a, ends (k a)) →
  ends (n ← gets f; m n ≫= k).
Proof.
  intros Ht Hl Hk. split.
  - apply (takes_bind 0 0); [apply ends_gets|]. intros n. apply (takes_bind 0 0); [apply Ht|]. apply Hk.
  - intros n w c _. unfold mbind, ClientM_bind. simpl. specialize (Hl w c).
    destruct (m (f c) w c) as [[a|e] c1]; [|simpl in *; congruence].
    destruct (Hk a) as [_ Hl']. apply (Hl' (S (waiting c1))). lia.
Qed.

Lemma ends_drive : ends (drive user).
Proof.
  assert (∀ n, ends (drive_rounds user n)) as Hd.
  { induction n as [|n IH]; simpl; [apply ends_ret|].
    apply ends_counted; [intros m; apply takes_retry_outbox| |intros ?].
    - intros w c. apply retry_outbox_lasts. apply length_filter.
    - apply finishes_bind; [apply ends_synchronize|intros ?]. apply finishes_bind; [apply ends_build_attempts|intros []]; [done|].
      apply ends_ret. }
  destruct (Hd 4%nat) as [Ht Hl]. split; intros; intros w c; unfold drive, drive_inner.
  - specialize (Ht w c). by destruct (drive_rounds user 4 w c) as [[u|e] c'].
  - intros Hn. specialize (Hl _ w c Hn). destruct (drive_rounds user 4 w c) as [[u|e] c']; [done|]. simpl in *. congruence.
Qed.

Lemma ends_turn t : ends (turn user t).
Proof.
  unfold turn. destruct t as [[line|k]| |]; [destruct (parse_command line) as [[cmd|]|]| | |];
    try apply ends_ret; [| | |apply ends_drive].
  - apply ends_attempt; [apply ends_command|intros r Hr; apply ends_drive].
  - by apply ends_fail.
  - apply finishes_bind.
    + split; [apply (takes_weaken 1); [lia|apply takes_receive_message]|apply lasts_receive_message].
    + intros m. destruct m; try apply ends_refuse. apply ends_drive.
Qed.
Lemma ends_run turns : ends (run user turns).
Proof.
  unfold run. apply finishes_bind; [apply ends_drive|intros ?].
  induction turns as [|t turns IH]; simpl; [apply ends_ret|]. apply finishes_bind; [apply ends_turn|done].
Qed.
End tables.

(** ** The reader task *)

Lemma read_header_size fuel : ∀ header s header' s',
  read_header fuel header s = Some (HeaderFull header', s') →
  (length header < 4)%nat → (stream_size s' < stream_size s)%nat.
Proof.
  induction fuel as [|fuel IH]; intros header s header' s' E Hh; cbn [read_header] in E;
    rewrite decide_False in E by lia; [done|].
  destruct (4 - length header)%nat as [|n] eqn:En; [lia|].
  destruct (Framing.read (S n) s) as [r s1] eqn:Er. pose proof (read_size _ _ _ _ Er) as [Hs|(-> & -> & ->)]; cycle 1.
  { by case_decide. }
  destruct r as [[|b l]|k]; [by case_decide| |].
  - destruct (decide (length (header ++ b :: l) < 4)%nat) as [Hl|Hl]; [apply IH in E; [lia|done]|].
    destruct fuel; cbn [read_header] in E; rewrite decide_True in E by lia; injection E as _ <-; lia.
  - destruct k; try done. apply IH in E; lia.
Qed.

Lemma read_exact_size n got s r s' : read_exact n got s = (r, s') → (stream_size s' ≤ stream_size s)%nat.
Proof.
  revert got. induction s as [|[b l|k] s IH]; intros got; cbn [read_exact]; case_decide; try (by intros [= _ <-]).
  - case_decide.
    + intros [= _ <-]. rewrite stream_size_push_back, length_drop. simpl. lia.
    + intros E%IH. simpl. lia.
  - intros [= _ <-]. simpl. lia.
Qed.

Lemma read_frame_size s payload s' :
  read_frame s = Some (Ok (Some payload), s') → (stream_size s' < stream_size s)%nat.
Proof.
  unfold read_frame. intros ([h s1] & Eh & E)%bind_Some. destruct h as [header| |k]; try done.
  apply read_header_size in Eh; [|simpl; lia]. case_decide; [done|].
  destruct (read_exact _ _ _) as [[l|k] s2] eqn:Ex; [|done]. injection E as _ <-.
  apply read_exact_size in Ex. lia.
Qed.

Lemma read_client_frame_size s frame s' :
  read_client_frame s = (Ok (Some frame), s') → (stream_size s' < stream_size s)%nat.
Proof.
  unfold read_client_frame. destruct s as [|[b l|k] s]; simpl; [done| |done].
  intros E. destruct (read_frame (Chunk b [] :: push_back (drop 0 l) s)) as [x|] eqn:Ef; simpl in E; [|done]. subst x.
  apply read_frame_size in Ef. simpl in Ef. rewrite stream_size_push_back in Ef. simpl in *.
  rewrite drop_0 in Ef. lia.
Qed.

(** The reader task hands something over from every stream: its last item is the error
    or the end that stopped it. *)
Lemma reader_task_total `{Postcard} fuel : ∀ s, (stream_size s < fuel)%nat → is_Some (reader_task fuel s).
Proof.
  induction fuel as [|fuel IH]; intros s Hs; [lia|]. simpl.
  destruct (read_client_frame s) as [[[frame|]|k] s'] eqn:E; [|by eauto..].
  apply read_client_frame_size in E. destruct (decode_message c_relay_message frame); [|by eauto].
  destruct (IH s') as [l ->]; [lia|]. by eauto.
Qed.
