(* ===== verification/ClientCache.v ===== *)
(** * The groups a client keeps in memory

    [MlsSession] (src/crates/grotto-client/src/mls_session.rs) caches the groups it has
    loaded, changes them in memory and then persists them. This file gives the
    interface of the library that this relies on, the invariant that the cached groups
    are the stored ones, and a logic in which the session's programs break and restore
    it. *)
From S2P Require Import Prelude Bytes Text Postcard Protocol Wire Identifiers Transcripts Framing.
From S2P Require Import Crypto ClientCommands ClientStore ClientContacts ClientMls ClientDelivery ClientSync ClientTx ClientJournal ClientRuns ClientEngine ClientFollows ClientEnds.

(** ** What the library promises *)

Definition group_write (call : StorageCall) : option (list byte * list byte) :=
  match call with WriteGroup id data _ _ => Some (id, data) | _ => None end.

(** A group keeps its identifier, and what [write_to_storage] stores under it, in one
    write, is what the group in memory is loaded from. *)
Class MlsLaws `{Mls} := {
  write_keeps g : group_id (write_to_storage g).2 = group_id g;
  write_stores g : ∃ data,
    omap group_write (write_to_storage g).1 = [(group_id g, data)] ∧
    group_from_snapshot data = Some (write_to_storage g).2;
  create_names bits p room g :
    create_group_with_id bits p (room_bytes room) = Some g → group_id g = room_bytes room;
  encrypt_keeps bits g plaintext aad : group_id (encrypt_application_message bits g plaintext aad).2 = group_id g;
  add_keeps bits p g aad package : group_id (commit_add bits p g aad package).2 = group_id g;
  apply_keeps p g : group_id (apply_pending_commit p g).2 = group_id g;
  clear_keeps g : group_id (clear_pending_commit g) = group_id g;
  process_keeps p g m : group_id (process_incoming_message p g m).2 = group_id g;
  package_writes bits m calls : generate_key_package bits = Some (m, calls) → omap group_write calls = [];
}.

(** ** The invariant *)

Section invariant.
Context `{Mls}.

(** Stored groups are stored under their identifiers. *)
Definition fits (id data : list byte) : Prop := ∀ g, group_from_snapshot data = Some g → group_id g = id.
Definition keyed (d : ClientDb) : Prop := map_Forall fits (mls_groups d).
Definition keyed_store : Store → Prop := both keyed.

(** The group is the one that loading it would give. *)
Definition stored (s : Store) (room : RoomId) (g : Group) : Prop :=
  group_id g = room_bytes room ∧
  ∃ data, mls_groups (db s) !! vec_to_list (room_bytes room) = Some data ∧ group_from_snapshot data = Some g.

Definition coherent (c : Client) : Prop :=
  keyed_store (store c) ∧ map_Forall (stored (store c)) (groups c).

(** As long as one group has been changed and not persisted. *)
Definition loose (room : RoomId) (c : Client) : Prop :=
  keyed_store (store c) ∧
  (∀ room' g, room' ≠ room → groups c !! room' = Some g → stored (store c) room' g) ∧
  ∃ g, groups c !! room = Some g ∧ group_id g = room_bytes room.

(** What has nothing to do with groups. *)
Definition quiet (s s' : Store) : Prop := saved s' = saved s ∧ mls_groups (db s') = mls_groups (db s).
Definition hushed (c c' : Client) : Prop := groups c' = groups c ∧ quiet (store c) (store c').

#[global] Instance quiet_equivalence : Equivalence quiet.
Proof. split; [done|by intros s1 s2 []; split|]. intros s1 s2 s3 [] []. split; congruence. Qed.
#[global] Instance hushed_equivalence : Equivalence hushed.
Proof.
  split; [done|by intros c1 c2 []; split; [|symmetry]|]. intros c1 c2 c3 [] []. split; [congruence|by etrans].
Qed.

#[global] Instance keyed_store_quiet : Proper (quiet ==> impl) keyed_store.
Proof. intros s s' [Hs Hg] [Hk Hk']. split; [unfold keyed; by rewrite Hg|]. by rewrite Hs. Qed.
#[global] Instance stored_quiet : Proper (quiet ==> eq ==> eq ==> iff) stored.
Proof. intros s s' [_ Hg] ? room <- ? g <-. unfold stored. by rewrite Hg. Qed.
#[global] Instance coherent_hushed : Proper (hushed ==> impl) coherent.
Proof.
  intros c c' [Hg Hq] [Hk Hc]. split; [by rewrite <- Hq|]. rewrite Hg. intros room g Hl.
  rewrite <- Hq. by apply Hc.
Qed.
#[global] Instance loose_hushed room : Proper (hushed ==> impl) (loose room).
Proof.
  intros c c' [Hg Hq] (Hk & Hc & Hr). split; [by rewrite <- Hq|]. rewrite Hg. split; [|done].
  intros room' g Hne Hl. rewrite <- Hq. by apply Hc.
Qed.

(** ** Programs *)

(** From [P], a result comes with [Q], and an error leaves the store sound. *)
Definition yields {A} (P : Client → Prop) (m : ClientM A) (Q : A → Client → Prop) : Prop := ∀ w c,
  P c → match m w c with (Ok a, c') => Q a c' | (Err _, c') => keyed_store (store c') end.

(** The invariant holds again, whatever the outcome. *)
Definition preserving (c c' : Client) : Prop := coherent c → coherent c'.
#[global] Instance preserving_preorder : PreOrder preserving.
Proof. split; unfold preserving; [by intros c|]. naive_solver. Qed.

Lemma yields_bind {A B} P Q R (m : ClientM A) (k : A → ClientM B) :
  yields P m Q → (∀ a, yields (Q a) (k a) R) → yields P (m ≫= k) R.
Proof.
  intros Hm Hk w c HP. specialize (Hm w c HP). unfold mbind, ClientM_bind.
  destruct (m w c) as [[a|e] c1]; [by apply Hk|done].
Qed.
Lemma yields_weaken {A} P P' Q Q' (m : ClientM A) :
  yields P m Q → (∀ c, P' c → P c) → (∀ a c, Q a c → Q' a c) → yields P' m Q'.
Proof. intros Hm HP HQ w c Hc. specialize (Hm w c (HP c Hc)). destruct (m w c) as [[a|e] c1]; auto. Qed.
Lemma yields_pure {A} P (φ : Prop) (m : ClientM A) Q :
  (φ → yields P m Q) → yields (λ c, P c ∧ φ) m Q.
Proof. intros Hm w c [HP Hφ]. by apply Hm. Qed.

Lemma yields_hushed {A} P (m : ClientM A) :
  (∀ c, P c → keyed_store (store c)) → Proper (hushed ==> impl) P → along hushed m → yields P m (λ _, P).
Proof.
  intros HP Hproper Hm w c Hc. specialize (Hm w c). destruct (m w c) as [[a|e] c1]; simpl in Hm.
  - by rewrite <- Hm.
  - destruct Hm as [_ Hq]. rewrite <- Hq. by apply HP.
Qed.
Lemma yields_coherent {A} (m : ClientM A) : along hushed m → yields coherent m (λ _, coherent).
Proof. apply yields_hushed; [by intros c []|apply _]. Qed.
Lemma yields_loose {A} room (m : ClientM A) : along hushed m → yields (loose room) m (λ _, loose room).
Proof. apply yields_hushed; [by intros c []|apply _]. Qed.
Lemma yields_preserving {A} (m : ClientM A) : along preserving m → yields coherent m (λ _, coherent).
Proof. intros Hm w c Hc. specialize (Hm w c Hc). destruct (m w c) as [[a|e] c1]; [done|apply Hm]. Qed.
Lemma preserving_hushed {A} (m : ClientM A) : along hushed m → along preserving m.
Proof. intros Hm w c Hc. by rewrite <- (Hm w c). Qed.

Lemma yields_ret {A} (a : A) P : yields P (mret a) (λ x c, P c ∧ x = a).
Proof. by intros w c Hc. Qed.
Lemma yields_lift {A} P (r : result ClientError A) :
  (∀ c, P c → keyed_store (store c)) → yields P (lift r) (λ a c, P c ∧ r = Ok a).
Proof. intros HP w c Hc. destruct r; simpl; eauto. Qed.
End invariant.

(** ** Statements *)

Section statements.
Context `{Postcard} `{Sha256} `{Ed25519Signer} `{Mls}.

Lemma quiet_observe {A} (f : World → nat → A) : stays quiet (observe f).
Proof. by intros w s. Qed.
Lemma quiet_sql {A} (f : ClientDb → option (A * ClientDb)) :
  (∀ d a d', f d = Some (a, d') → mls_groups d' = mls_groups d) → stays quiet (sql f).
Proof.
  intros Hf w s. unfold sql. destruct (sql_fails w (ticks s)); [done|].
  destruct (f (db s)) as [[a d]|] eqn:E; [|done]. split; [done|]. simpl. by eapply Hf.
Qed.
Lemma quiet_select {A} (f : ClientDb → A) : stays quiet (select f).
Proof. apply quiet_sql. by intros d a d' [= _ <-]. Qed.
Lemma quiet_update f : (∀ d d', f d = Some d' → mls_groups d' = mls_groups d) → stays quiet (update f).
Proof. intros Hf. apply quiet_sql. intros d a d' (d1 & E & [= _ <-])%bind_Some. by apply Hf. Qed.
Lemma quiet_update_total f : (∀ d, mls_groups (f d) = mls_groups d) → stays quiet (update (λ d, Some (f d))).
Proof. intros Hf. apply quiet_update. by intros d d' [= <-]. Qed.
Lemma hushed_on_store {A} (m : StoreM A) : stays quiet m → along hushed (on_store m).
Proof. apply along_on_store. done. Qed.
Lemma hushed_call_mls {A} (f : list byte → Providers → A) : along hushed (call_mls f).
Proof. by intros w c. Qed.
Lemma hushed_show l : along hushed (show l).
Proof. by intros w c. Qed.
End statements.

Create HintDb cache.
#[export] Hint Resolve quiet_observe quiet_select hushed_call_mls hushed_show stays_ret stays_throw stays_result
  stays_lock stays_lock_provider stays_limit along_ret along_fail along_refuse along_lift along_guard along_gets : cache.
#[export] Hint Extern 0 (PreOrder _) => typeclasses eauto : cache.

(** Walks through a program that leaves the groups alone. *)
Ltac hush :=
  repeat first
    [ solve [auto with cache]
    | apply along_bind; [apply _| |intros ?]
    | apply stays_bind; [apply _| |intros ?]
    | apply along_or_error
    | apply along_attempt
    | apply along_each; [apply _|intros ?]
    | solve [apply along_modify; [apply _|done]]
    | apply stays_when; [apply _|]
    | apply stays_for_each; [apply _|intros ?]
    | apply hushed_on_store
    | apply quiet_update_total; intros ?; done
    | case_match ].

Section calls.
Context `{Postcard} `{Sha256} `{Ed25519Signer} `{Mls}.

Lemma quiet_pragma f : stays quiet (pragma f).
Proof. unfold pragma. hush. Qed.
#[local] Hint Resolve quiet_pragma : cache.
Lemma quiet_admit n : stays quiet (admit_new_data n).
Proof. unfold admit_new_data. hush. Qed.
Lemma quiet_verify_identity who : stays quiet (verify_identity who).
Proof. unfold verify_identity. hush. Qed.
Lemma quiet_require_transaction : stays quiet MlsStorage.require_transaction.
Proof. intros w s. unfold MlsStorage.require_transaction. by case_match. Qed.
#[local] Hint Resolve quiet_verify_identity quiet_require_transaction : cache.
Lemma hushed_verify_roster g e : along hushed (verify_roster g e).
Proof. unfold verify_roster. hush. Qed.
Lemma hushed_load_group id : along hushed (load_group id).
Proof. unfold load_group, MlsStorage.state. hush. Qed.

(** ** What the library writes *)

Definition insert_group (m : gmap (list byte) (list byte)) (p : list byte * list byte) : gmap (list byte) (list byte) :=
  <[p.1 := p.2]> m.

(** The writes were done, or the call has failed before or behind its write. *)
Definition written_groups {A} (writes : list (list byte * list byte)) (m : StoreM A) : Prop := ∀ w s,
  saved (m w s).2 = saved s ∧
  (mls_groups (db (m w s).2) = foldl insert_group (mls_groups (db s)) writes ∨
   is_ok (m w s).1 = false ∧ ∃ n, mls_groups (db (m w s).2) = foldl insert_group (mls_groups (db s)) (take n writes)).

Lemma written_quiet {A} (m : StoreM A) : stays quiet m → written_groups [] m.
Proof. intros Hm w s. destruct (Hm w s). split; [done|by left]. Qed.
Lemma written_bind {A B} l k (m : StoreM A) (f : A → StoreM B) :
  written_groups l m → (∀ a, written_groups k (f a)) → written_groups (l ++ k) (m ≫= f).
Proof.
  intros Hm Hf w s. destruct (Hm w s) as [Hs Hg]. unfold mbind, StoreM_bind.
  destruct (m w s) as [[a|e] s1] eqn:E; simpl in *.
  - destruct Hg as [Hg|[? _]]; [|done]. destruct (Hf a w s1) as [Hs1 Hg1]. split; [congruence|].
    rewrite Hg in Hg1. rewrite foldl_app. destruct Hg1 as [Hg1|(Hn & n & Hg1)]; [by left|right].
    split; [done|]. exists (length l + n)%nat. by rewrite take_app_add, foldl_app.
  - split; [done|]. right. split; [done|]. destruct Hg as [Hg|(_ & n & Hg)].
    + exists (length l). by rewrite take_app_length.
    + exists (min n (length l)). rewrite take_app_le by lia. rewrite <- take_take, (take_ge l) by lia. done.
Qed.
Lemma written_group id data : written_groups [(id, data)] (update (λ d, Some (set_mls_groups <[id := data]> d))).
Proof.
  intros w s. unfold update, sql. destruct (sql_fails w (ticks s)); simpl; [|by split; [|left]].
  split; [done|]. right. split; [done|]. by exists 0%nat.
Qed.

Lemma written_storage_call call : written_groups (option_list (group_write call)) (storage_call call).
Proof.
  destruct call as [id data inserts updates|id|id pkg]; cbn [group_write option_list storage_call].
  - unfold MlsStorage.write. apply (written_bind [] [(id, data)]); [apply written_quiet; hush|intros _].
    apply (written_bind [] [(id, data)]); [apply written_quiet; hush|intros _].
    apply (written_bind [(id, data)] []); [apply written_group|intros _].
    apply written_quiet. unfold MlsStorage.write_epochs. hush.
  - apply written_quiet. unfold MlsStorage.delete. hush.
  - apply written_quiet. unfold MlsStorage.insert. hush. apply quiet_update.
    intros d d'. case_match; [done|]. by intros [= <-].
Qed.
Lemma written_storage_calls calls : written_groups (omap group_write calls) (for_each storage_call calls).
Proof.
  induction calls as [|call calls IH]; [apply written_quiet, stays_ret, _|].
  replace (omap group_write (call :: calls)) with (option_list (group_write call) ++ omap group_write calls)
    by (simpl; by destruct (group_write call)).
  simpl for_each. by apply written_bind; [apply written_storage_call|intros _].
Qed.

Lemma keyed_writes writes m : map_Forall fits m → Forall (λ p, fits p.1 p.2) writes →
  map_Forall fits (foldl insert_group m writes).
Proof.
  revert m. induction writes as [|[id data] writes IH]; intros m Hm Hw; [done|]. inversion_clear Hw as [|? ? Hp Hw'].
  simpl. apply IH; [|done]. by apply map_Forall_insert_2.
Qed.
End calls.

(** ** Sessions *)

Section sessions.
Context `{Postcard} `{Sha256} `{Ed25519Signer} `{MlsLaws}.
#[local] Set Default Proof Using "Type*".

Lemma hushed_bind_inv {A B} (m : ClientM A) (k : A → ClientM B) w c r c' :
  along hushed m → (m ≫= k) w c = (r, c') →
  (∃ a c1, m w c = (Ok a, c1) ∧ hushed c c1 ∧ k a w c1 = (r, c')) ∨ (∃ e, r = Err e ∧ hushed c c').
Proof.
  intros Hm. specialize (Hm w c). unfold mbind, ClientM_bind.
  destruct (m w c) as [[a|e] c1]; simpl in Hm; [by eauto 10|]. intros [= <- <-]. eauto.
Qed.

Lemma load_stored room w c g c' :
  keyed_store (store c) → load_group (room_bytes room) w c = (Ok g, c') → stored (store c) room g.
Proof.
  intros [Hk _] E. apply client_bind_Ok in E as (data & c1 & E1 & E).
  unfold lift in E. injection E as E _. destruct data as [data|]; [|done]. simpl in E.
  destruct (group_from_snapshot data) as [g'|] eqn:Eg; [|done]. injection E as ->.
  unfold on_store, MlsStorage.state in E1. destruct ((lock_provider;; _) w (store c)) as [r s] eqn:E2.
  destruct r as [d|]; [|done]. injection E1 as -> _. unfold mbind, StoreM_bind in E2.
  unfold lock_provider in E2. destruct (poisoned (store c) || _); [done|]. unfold select, sql in E2.
  destruct (sql_fails w _); [done|]. injection E2 as E2 _.
  split; [by apply (Hk _ _ E2)|]. by exists data.
Qed.

Lemma hushed_stored c c' room g : hushed c c' → stored (store c) room g ↔ stored (store c') room g.
Proof. intros [_ Hq]. by rewrite Hq. Qed.

(** A stored group may be cached. *)
Lemma put_stored c room g : coherent c → stored (store c) room g → coherent (set_groups <[room := g]> c).
Proof. intros [Hk Hc] Hg. split; [done|]. by apply map_Forall_insert_2. Qed.

(** What [group_mut] does when the group is not cached. *)
Definition fetch_group (room : RoomId) : ClientM Group :=
  g ← or_error (Refused "no local MLS group for room") (load_group (room_bytes room));
  verify_roster g (Refused "stored group contains an unverified or changed member");;
  put_group room g;;
  mret g.
Lemma group_mut_eq room w c : group_mut room w c =
  match groups c !! room with
  | Some g => (Ok g, c)
  | None => fetch_group room w (if (8 <=? size (groups c))%nat then clear_groups c else c)
  end.
Proof.
  unfold group_mut, fetch_group, gets, modify. unfold mbind, ClientM_bind. destruct (groups c !! room); [done|].
  by destruct (8 <=? size (groups c))%nat.
Qed.

Lemma fetch_group_cases room w c : coherent c →
  coherent (fetch_group room w c).2 ∧
  ∀ g c', fetch_group room w c = (Ok g, c') → groups c' !! room = Some g ∧ stored (store c') room g.
Proof.
  intros Hc. destruct (fetch_group room w c) as [r c1] eqn:E. unfold fetch_group in E. simpl.
  apply hushed_bind_inv in E as [(g & c2 & E2 & Hh2 & E)|(e & -> & Hh)];
    [|split; [by rewrite <- Hh|done]|apply along_or_error, hushed_load_group; apply _].
  assert (stored (store c2) room g) as Hg.
  { rewrite <- (hushed_stored _ _ _ _ Hh2). unfold or_error in E2.
    destruct (load_group _ w c) as [[g'|] c3] eqn:E3; [|done]. injection E2 as <- ->.
    apply load_stored in E3; [exact E3|apply Hc]. }
  rewrite Hh2 in Hc.
  apply hushed_bind_inv in E as [([] & c3 & _ & Hh3 & E)|(e & -> & Hh)];
    [|split; [by rewrite <- Hh|done]|apply hushed_verify_roster].
  rewrite Hh3 in Hc. rewrite (hushed_stored _ _ _ _ Hh3) in Hg.
  unfold put_group, modify, mbind, ClientM_bind, mret, ClientM_ret in E. injection E as <- <-.
  split; [by apply put_stored|]. intros g' c' [= <- <-]. simpl. by rewrite lookup_insert_eq.
Qed.

Lemma group_mut_cases room w c : coherent c →
  coherent (group_mut room w c).2 ∧
  ∀ g c', group_mut room w c = (Ok g, c') → groups c' !! room = Some g ∧ stored (store c') room g.
Proof.
  intros Hc. rewrite group_mut_eq. destruct (groups c !! room) as [g|] eqn:Eg.
  - split; [done|]. intros g' c' [= <- <-]. split; [done|by apply Hc].
  - apply fetch_group_cases. destruct (8 <=? _)%nat; [|done]. split; [apply Hc|apply map_Forall_empty].
Qed.

Lemma preserving_group_mut room : along preserving (group_mut room).
Proof. intros w c Hc. by apply group_mut_cases. Qed.
Lemma yields_group_mut room : yields coherent (group_mut room) (λ g c, coherent c ∧ group_id g = room_bytes room).
Proof.
  intros w c Hc. destruct (group_mut_cases room w c Hc) as [Hc' Hg].
  destruct (group_mut room w c) as [[g|e] c1]; [|apply Hc']. split; [done|]. by destruct (Hg g c1 eq_refl) as [_ []].
Qed.
Lemma preserving_has_group room : along preserving (has_group room).
Proof.
  unfold has_group. apply along_bind; [apply _| |intros r; apply along_ret, _].
  apply along_attempt, preserving_group_mut. apply _.
Qed.

(** A changed group, until it is persisted. *)
Lemma yields_put_group room g : group_id g = room_bytes room → yields coherent (put_group room g) (λ _, loose room).
Proof.
  intros Hg w c [Hk Hc]. simpl. split; [done|]. split.
  - intros room' g' Hne. cbn [groups set_groups]. rewrite lookup_insert_ne by done. by apply Hc.
  - exists g. cbn [groups set_groups]. by rewrite lookup_insert_eq.
Qed.

Lemma yields_persist room : yields (loose room) (persist room) (λ _, coherent).
Proof.
  intros w c (Hk & Hother & g & Hg & Hid). unfold persist, group_mut, gets, mbind, ClientM_bind.
  rewrite Hg. unfold mret, ClientM_ret. destruct (write_to_storage g) as [calls g'] eqn:Ew.
  destruct (write_stores g) as (data & Hw & Hd). pose proof (write_keeps g) as Hid'. rewrite Ew in Hw, Hd, Hid'.
  simpl in Hw, Hd, Hid'. unfold put_group, modify. set (c1 := set_groups _ c).
  destruct (written_storage_calls calls w (store c1)) as [Hs Hm]. rewrite Hw in Hm.
  assert (fits (group_id g) data) as Hfit by (intros g2 E; rewrite Hd in E; by injection E as <-).
  assert (keyed_store (for_each storage_call calls w (store c1)).2) as Hk1.
  { split; [|rewrite Hs; exact (proj2 Hk)]. unfold keyed. destruct Hm as [->|(_ & n & ->)]; (apply keyed_writes; [exact (proj1 Hk)|]);
      [by apply Forall_singleton|apply Forall_take; by apply Forall_singleton]. }
  unfold or_error, on_store. destruct (for_each storage_call calls w (store c1)) as [[[]|e] s] eqn:E; simpl in *; [|done].
  destruct Hm as [Hm|[? _]]; [|done]. unfold insert_group in Hm. simpl in Hm. split; [done|]. 
  intros room' g2. cbn [groups set_groups set_store c1]. destruct (decide (room' = room)) as [->|Hne].
  - rewrite lookup_insert_eq. intros [= <-]. split; [congruence|]. exists data. split; [|done].
    cbn [store set_store]. rewrite Hm, <- Hid. apply lookup_insert_eq.
  - rewrite lookup_insert_ne by done. intros Hl. destruct (Hother room' g2 Hne Hl) as (Hi & d2 & Hd2 & Hs2).
    split; [done|]. exists d2. split; [|done].
    cbn [store set_store]. rewrite Hm. simpl. rewrite lookup_insert_ne; [done|].
    rewrite Hid. intros E2%vec_to_list_inj2. apply Hne. destruct room, room'. simpl in E2. by subst.
Qed.

(** The programs of a session run in [atomic]: they may end with a group that is changed
    and not persisted only when they fail. *)
Definition restores {A} (m : ClientM A) : Prop := yields coherent m (λ _, coherent).

Lemma restores_bind {A B} (m : ClientM A) (k : A → ClientM B) :
  restores m → (∀ a, restores (k a)) → restores (m ≫= k).
Proof. apply yields_bind. Qed.
Lemma restores_group_mut {A} room (k : Group → ClientM A) :
  (∀ g, group_id g = room_bytes room → restores (k g)) → restores (group_mut room ≫= k).
Proof.
  intros Hk. eapply yields_bind; [apply yields_group_mut|]. intros g. apply yields_pure, Hk.
Qed.
Lemma loose_bind {A B} room (m : ClientM A) (k : A → ClientM B) :
  along hushed m → (∀ a, yields (loose room) (k a) (λ _, coherent)) → yields (loose room) (m ≫= k) (λ _, coherent).
Proof. intros Hm. by apply yields_bind, yields_loose. Qed.
Lemma persist_bind {A} room (k : () → ClientM A) :
  (∀ a, restores (k a)) → yields (loose room) (persist room ≫= k) (λ _, coherent).
Proof. apply yields_bind, yields_persist. Qed.

(** A library call that leaves a changed group behind. *)
Lemma restores_change {A B} room (f : list byte → Providers → A) (changed : A → Group) (k : A → ClientM B) :
  (∀ bits p, group_id (changed (f bits p)) = room_bytes room) →
  (∀ r, yields (loose room) (k r) (λ _, coherent)) →
  restores (r ← call_mls f; put_group room (changed r);; k r).
Proof.
  intros Hf Hk w c Hc. unfold mbind at 1, ClientM_bind at 1. simpl.
  eapply (yields_bind coherent); [by apply yields_put_group, Hf|intros []; apply Hk|].
  by rewrite <- (hushed_call_mls f w c).
Qed.

Ltac hold :=
  repeat first
    [ solve [auto with cache]
    | apply persist_bind; intros ?
    | apply yields_persist
    | apply loose_bind; [solve [hush]|intros ?]
    | apply restores_group_mut; intros ? ?
    | apply restores_change; [intros ? ?|intros ?]
    | apply yields_coherent; solve [hush]
    | apply restores_bind; [apply yields_coherent; solve [hush]|intros ?]
    | case_match ].

#[local] Hint Resolve hushed_verify_roster quiet_verify_identity : cache.
#[local] Hint Extern 1 (along hushed (wire_bytes _)) => apply along_lift, _ : cache.
#[local] Hint Extern 1 (along hushed (wire_message _)) => apply along_lift, _ : cache.

Lemma restores_encrypt_bound room plaintext aad : restores (encrypt_bound room plaintext aad).
Proof. unfold encrypt_bound. hold. by rewrite encrypt_keeps. Qed.
Lemma restores_build_pending_add room package aad : restores (build_pending_add room package aad).
Proof. unfold build_pending_add. hold. by rewrite add_keeps. Qed.
Lemma restores_apply_accepted_commit room : restores (apply_accepted_commit room).
Proof. unfold apply_accepted_commit. hold. by rewrite apply_keeps. Qed.

Lemma restores_put {A} room g (k : () → ClientM A) :
  group_id g = room_bytes room → (∀ a, yields (loose room) (k a) (λ _, coherent)) → restores (put_group room g ≫= k).
Proof. intros Hg. by eapply yields_bind, yields_put_group. Qed.
Lemma restores_call {A B} (f : list byte → Providers → A) (k : A → ClientM B) :
  (∀ bits p, restores (k (f bits p))) → restores (call_mls f ≫= k).
Proof.
  intros Hk w c Hc. unfold mbind, ClientM_bind. simpl. apply Hk. by rewrite <- (hushed_call_mls f w c).
Qed.
Lemma restores_lift {A B} (r : result ClientError A) (k : A → ClientM B) :
  (∀ a, r = Ok a → restores (k a)) → restores (lift r ≫= k).
Proof.
  intros Hk w c Hc. unfold mbind, ClientM_bind, lift. destruct r as [a|e]; [by apply Hk|apply Hc].
Qed.
Lemma restores_guard {A} b e (k : () → ClientM A) :
  (b = true → ∀ a, restores (k a)) → restores (guard b e ≫= k).
Proof.
  intros Hk w c Hc. unfold mbind, ClientM_bind, guard. destruct b; [by apply Hk|apply Hc].
Qed.
Lemma restores_preserving {A B} (m : ClientM A) (k : A → ClientM B) :
  along preserving m → (∀ a, restores (k a)) → restores (m ≫= k).
Proof. intros Hm. by apply restores_bind, yields_preserving. Qed.

Lemma restores_discard_pending room : restores (discard_pending room).
Proof.
  unfold discard_pending. apply restores_group_mut. intros g Hg. apply restores_put; [by rewrite clear_keeps|].
  intros _. apply yields_persist.
Qed.
Lemma restores_process_bound event : restores (process_bound event).
Proof. unfold process_bound. hold. by rewrite process_keeps. Qed.
Lemma restores_create_group room : restores (create_group room).
Proof.
  unfold create_group. apply restores_preserving; [by apply along_attempt, preserving_group_mut; apply _|].
  intros [g|e]; [hold|]. apply restores_call. intros bits p. apply restores_lift. intros g Hg.
  destruct (create_group_with_id bits p (room_bytes room)) eqn:E; [|done]. simpl in Hg. simplify_eq.
  apply restores_put; [by eapply create_names|]. intros _. hold.
Qed.
Lemma preserving_current_epoch room : along preserving (current_epoch room).
Proof. apply along_bind; [apply _|apply preserving_group_mut|intros g; apply along_ret, _]. Qed.
Lemma preserving_contains_user room user : along preserving (contains_user room user).
Proof. apply along_bind; [apply _|apply preserving_group_mut|intros g; apply along_ret, _]. Qed.
Lemma restores_join room welcome : restores (join room welcome).
Proof.
  unfold join. apply restores_preserving; [apply preserving_has_group|]. intros [].
  { apply yields_preserving, preserving_current_epoch. }
  apply restores_bind; [hold|intros m]. apply restores_call. intros bits p. apply restores_lift. intros g _.
  apply restores_guard. intros Hg%bool_decide_eq_true _.
  apply restores_bind; [hold|intros _]. apply restores_put; [done|]. intros _. hold.
Qed.
Lemma restores_generate_key_packages n : restores (generate_key_packages n).
Proof.
  induction n as [|n IH]; cbn [generate_key_packages]; [hold|]. apply restores_call. intros bits _.
  apply restores_lift. intros [m calls] E. destruct (generate_key_package bits) as [[m' calls']|] eqn:Eg; [|done].
  simpl in E. simplify_eq. apply package_writes in Eg.
  apply restores_bind; [|intros _; apply restores_bind; [hold|intros l]; apply restores_bind; [done|intros; hold]].
  apply yields_coherent, along_or_error, hushed_on_store; [apply _|]. intros w s.
  destruct (written_storage_calls calls w s) as [Hs Hm]. simpl. rewrite Eg in Hm. split; [done|].
  by destruct Hm as [->|(_ & n' & ->)]; rewrite ?take_nil.
Qed.
End sessions.

(** ** Transactions *)

Section transactions.
Context `{Postcard} `{Sha256} `{Ed25519Signer} `{Mls}.

Lemma coherent_drop w c : keyed_store (store c) → coherent (clear_groups (set_store (drop_transaction w) c)).
Proof. intros Hk. split; [by apply both_drop|apply map_Forall_empty]. Qed.

Lemma opened w c r c' : on_store open_transaction w c = (r, c') → coherent c →
  coherent c' ∧ groups c' = groups c ∧ mls_groups (db (store c')) = mls_groups (db (store c)) ∧
  (is_ok r = true → ∃ d, saved (store c') = Some d ∧ mls_groups d = mls_groups (db (store c))).
Proof.
  unfold on_store. destruct (open_transaction w (store c)) as [[u|e] s] eqn:E; intros [= <- <-] [Hk Hc].
  - apply open_Ok in E as (_ & _ & _ & _ & ->). split_and!; [|done|done|by intros _; eexists].
    split; [|exact Hc]. split; [exact (proj1 Hk)|]. intros d [= <-]. exact (proj1 Hk).
  - apply open_Err in E as (Hd & Hs & _). assert (hushed c (set_store (λ _, s) c)) as Hh.
    { split; [done|]. split; [done|]. simpl. by rewrite Hd. }
    split; [rewrite <- Hh; by split|split_and!; [done|by simpl; rewrite Hd|done]].
Qed.

Lemma committed w c r c' : on_store commit_transaction w c = (r, c') → coherent c →
  coherent c' ∧ groups c' = groups c ∧ mls_groups (db (store c')) = mls_groups (db (store c)) ∧
  (is_ok r = true ∨ saved (store c') = saved (store c)).
Proof.
  unfold on_store. pose proof (both_commit keyed w (store c)) as Hkc. destruct (commit_rows w (store c)) as [Hd Hs].
  destruct (commit_transaction w (store c)) as [[u|e] s] eqn:E; intros [= <- <-] [Hk Hc]; simpl in *;
    (split; [split; [by apply Hkc|]|split_and!; [done|by rewrite Hd|naive_solver]]);
    intros room g Hg; destruct (Hc room g Hg) as (Hi & data & Hl & Hdata); (split; [done|]); exists data; simpl;
    by rewrite Hd.
Qed.

(** Whatever a transaction of the session comes to, the cached groups are the stored
    ones: on an error, none are cached. *)
Lemma preserving_atomic {A} (m : ClientM A) : restores m → along preserving (atomic m).
Proof.
  intros Hm w c Hc. unfold atomic. destruct (on_store open_transaction w c) as [[u|e] c0] eqn:Eo;
    apply opened in Eo as (Hc0 & _); try done. specialize (Hm w c0 Hc0).
  unfold mbind, ClientM_bind. destruct (m w c0) as [[a|e] c1]; [|by apply coherent_drop].
  destruct (on_store commit_transaction w c1) as [[u1|e] c2] eqn:Ec; apply committed in Ec as (Hc2 & _); try done.
  apply coherent_drop, Hc2.
Qed.

Lemma preserving_transact {A} (m : ClientM A) : along hushed m → along preserving (transact m).
Proof.
  intros Hm w c Hc. unfold transact. destruct (on_store open_transaction w c) as [[u|e] c0] eqn:Eo;
    apply opened in Eo as (Hc0 & Hg0 & Hm0 & Hs0); try done. destruct (Hs0 eq_refl) as (d & Hsd & Hd).
  assert (∀ c1, coherent c1 → mls_groups (db (store c1)) = mls_groups d → saved (store c1) = Some d →
    coherent (set_store (drop_transaction w) c1)) as Hdrop.
  { intros c1 [Hk1 Hc1] He Hs1. split; [by apply both_drop|]. intros room g Hg.
    destruct (Hc1 room g Hg) as (Hi & data & Hl & Hdata). split; [done|]. exists data. split; [|done]. simpl.
    destruct (drop_rows w (store c1)) as [->|E]; [done|]. rewrite Hs1 in E. injection E as <-. by rewrite <- He. }
  specialize (Hm w c0). unfold mbind, ClientM_bind. destruct (m w c0) as [[a|e] c1]; simpl in Hm;
    pose proof Hm as [_ [Hs1 Hm1]]; (assert (coherent c1) as Hc1 by (by rewrite <- Hm));
    rewrite Hsd in Hs1; rewrite Hm0, <- Hd in Hm1; [|by apply Hdrop].
  destruct (on_store commit_transaction w c1) as [[u1|e] c2] eqn:Ec;
    apply committed in Ec as (Hc2 & _ & Hm2 & Hs2); try done.
  apply Hdrop; [done|congruence|]. destruct Hs2 as [?|Hs2]; [done|]. congruence.
Qed.
End transactions.

#[export] Hint Resolve hushed_verify_roster quiet_verify_identity quiet_require_transaction quiet_pragma quiet_admit
  preserving_group_mut preserving_has_group preserving_current_epoch preserving_contains_user
  restores_encrypt_bound restores_build_pending_add restores_apply_accepted_commit restores_discard_pending
  restores_process_bound restores_create_group restores_join restores_generate_key_packages : cache.

(** The body of a session's transaction. *)
Ltac settle :=
  repeat first
    [ solve [auto with cache]
    | apply yields_coherent; solve [hush]
    | apply restores_bind; [first [solve [auto with cache] | apply yields_coherent; solve [hush]]|intros ?]
    | apply restores_preserving; [solve [auto with cache]|intros ?]
    | apply restores_bind; [|intros ?]
    | case_match ].

(** A program of the engine. *)
Ltac keep :=
  repeat first
    [ solve [auto with cache]
    | apply preserving_hushed; solve [hush]
    | apply preserving_atomic
    | apply preserving_transact; solve [hush]
    | apply along_bind; [apply _| |intros ?]
    | apply along_attempt
    | apply along_or_error
    | apply along_each; [apply _|intros ?]
    | case_match ].

(** ** The engine *)

Section engine.
Context `{Postcard} `{Sha256} `{Ed25519Signer} `{MlsLaws}.
Variable user : UserId.
#[local] Set Default Proof Using "Type*".

Lemma quiet_save_outbox id kind message : stays quiet (save_outbox id kind message).
Proof. unfold save_outbox. hush. apply quiet_update_total. intros d. unfold insert_outbox. by case_match. Qed.
Lemma quiet_remove_outbox id : stays quiet (remove_outbox id).
Proof. unfold remove_outbox. hush. Qed.
Lemma quiet_find_outbox id : stays quiet (find_outbox id).
Proof. unfold find_outbox. hush. Qed.
Lemma quiet_outbox_entries rows : ∀ n entries, stays quiet (outbox_entries rows n entries).
Proof. induction rows as [|r rows IH]; intros n entries; simpl; hush. Qed.
#[local] Hint Resolve quiet_save_outbox quiet_remove_outbox quiet_find_outbox quiet_outbox_entries : cache.
Lemma quiet_outbox_page after : stays quiet (outbox_page after).
Proof. unfold outbox_page. hush. Qed.
Lemma quiet_collect_rows {A} (rows : list A) : stays quiet (collect_rows rows).
Proof. induction rows as [|r rows IH]; simpl; hush. Qed.
Lemma quiet_upsert_room room name origin : stays quiet (upsert_room room name origin).
Proof. unfold upsert_room, write_room. hush. Qed.
Lemma quiet_list_rooms : stays quiet list_rooms.
Proof. unfold list_rooms. hush; apply quiet_collect_rows. Qed.
Lemma quiet_history room before : stays quiet (history room before).
Proof.
  unfold history. hush. all: try apply quiet_collect_rows. all: apply quiet_sql.
  all: by intros d rows d' (b & _ & [= _ <-])%bind_Some.
Qed.
#[local] Hint Resolve quiet_outbox_page quiet_collect_rows quiet_upsert_room quiet_list_rooms quiet_history : cache.

Lemma hushed_write_out l : along hushed (write_out l).
Proof. intros w c. unfold write_out. by destruct (write_frame _ l). Qed.
Lemma hushed_receive_message : along hushed receive_message.
Proof. intros w c. unfold receive_message. by destruct (incoming c) as [|[] ?]. Qed.
#[local] Hint Resolve hushed_write_out hushed_receive_message : cache.
Lemma hushed_await fuel id : along hushed (await_response fuel id).
Proof. induction fuel; simpl; hush. Qed.
#[local] Hint Resolve hushed_await : cache.
Lemma hushed_request id r : along hushed (request id r).
Proof. unfold request, encode, send. hush. Qed.
#[local] Hint Resolve hushed_request : cache.
Lemma hushed_read_loop fuel id r : along hushed (read_loop fuel id r).
Proof. induction fuel; simpl; hush. Qed.
#[local] Hint Resolve hushed_read_loop : cache.
Lemma hushed_new_message_id : along hushed new_message_id.
Proof. unfold new_message_id. hush. Qed.
#[local] Hint Resolve hushed_new_message_id : cache.
Lemma hushed_read r : along hushed (read r).
Proof. unfold read. hush. Qed.
Lemma hushed_sql {A} (f : ClientDb → option (A * ClientDb)) :
  (∀ d a d', f d = Some (a, d') → mls_groups d' = mls_groups d) → along hushed (run_sql (sql f)).
Proof. intros Hf. apply hushed_on_store. hush. by apply quiet_sql. Qed.
Lemma hushed_run_update f : (∀ d d', f d = Some d' → mls_groups d' = mls_groups d) → along hushed (run_sql (update f)).
Proof. intros Hf. apply hushed_on_store. hush. by apply quiet_update. Qed.
Lemma hushed_run_total f : (∀ d, mls_groups (f d) = mls_groups d) → along hushed (run_sql (update (λ d, Some (f d)))).
Proof. intros Hf. apply hushed_run_update. by intros d d' [= <-]. Qed.
Lemma hushed_run_select {A} (f : ClientDb → A) : along hushed (run_sql (select f)).
Proof. apply hushed_sql. by intros d a d' [= _ <-]. Qed.
#[local] Hint Resolve hushed_run_select : cache.
#[local] Hint Extern 1 (along hushed (run_sql (update _))) => apply hushed_run_total; done : cache.
Lemma hushed_journal id r : along hushed (journal id r).
Proof. unfold journal, encode. hush. Qed.
Lemma hushed_cursor room : along hushed (cursor room).
Proof. unfold cursor. hush. Qed.
Lemma hushed_unresolved room : along hushed (unresolved room).
Proof. unfold unresolved. hush. Qed.
Lemma hushed_require_contact u : along hushed (require_contact u).
Proof.
  unfold require_contact, parse_stored_card. hush. apply quiet_sql.
  by intros d r d' (row & _ & [= _ <-])%bind_Some.
Qed.
#[local] Hint Resolve hushed_read hushed_journal hushed_cursor hushed_unresolved hushed_require_contact : cache.
Lemma hushed_list_contacts : along hushed list_contacts.
Proof. unfold list_contacts, parse_stored_card, show_fingerprint. hush. Qed.
Lemma hushed_card_import card fp : along hushed (on_store (card_import card fp)).
Proof.
  unfold card_import. hush. apply quiet_update. intros d d'. unfold insert_contact.
  case_decide; [|done]. intros [= <-]. by case_match.
Qed.
Lemma hushed_receive e : along hushed (receive e).
Proof.
  unfold receive, encode. hush. apply quiet_update. intros d d'. unfold insert_inbox.
  case_match; [|done]. by intros [= <-].
Qed.
#[local] Hint Resolve hushed_list_contacts hushed_card_import hushed_receive : cache.

Lemma preserving_identity : along preserving (on_store identity).
Proof.
  intros w c. unfold identity. rewrite in_transaction_transact. apply preserving_transact, hushed_on_store.
  unfold identity_body. hush. apply quiet_update. intros d d'. case_match; [done|]. by intros [= <-].
Qed.
Lemma preserving_card_own : along preserving (on_store card_own).
Proof.
  intros w c. unfold card_own. rewrite on_store_bind.
  apply along_bind; [apply _|apply preserving_identity|intros id]. apply preserving_hushed, hushed_on_store.
  unfold load_mls_identity. hush.
Qed.
#[local] Hint Resolve preserving_identity preserving_card_own : cache.

Lemma preserving_intent room target plaintext : along preserving (intent room target plaintext).
Proof.
  unfold intent. keep. apply preserving_hushed, hushed_on_store, quiet_update. intros d d'.
  unfold insert_intent. case_decide; [done|]. by intros [= <-].
Qed.
#[local] Hint Resolve preserving_intent : cache.
Lemma preserving_command cmd : along preserving (command cmd).
Proof. unfold command, show_fingerprint. keep; settle. Qed.
Lemma hushed_store_package id recipient package :
  along hushed (run_sql (sql (λ d, Some (store_package id recipient package d)))).
Proof. apply hushed_sql. by intros d a d' [= _ <-]. Qed.
#[local] Hint Resolve hushed_store_package : cache.
Lemma preserving_rejected id r reason : along preserving (complete_rejected id r reason).
Proof. unfold complete_rejected. keep; settle. Qed.
Lemma preserving_create id name room : along preserving (complete_create id name room).
Proof. unfold complete_create. keep. settle. Qed.
Lemma preserving_reservation id recipient package : along preserving (complete_reservation id recipient package).
Proof. unfold complete_reservation. keep. Qed.
Lemma preserving_conflict id operation room : along preserving (complete_conflict id operation room).
Proof. unfold complete_conflict. keep; settle. Qed.
#[local] Hint Resolve preserving_rejected preserving_create preserving_reservation preserving_conflict : cache.
Lemma preserving_complete id r response : along preserving (complete user id r response).
Proof. unfold complete, mismatch. repeat case_match; keep. Qed.
#[local] Hint Resolve preserving_command preserving_complete : cache.

Lemma quiet_write_cursor room n : stays quiet (update (write_cursor room n)).
Proof. apply quiet_update. intros d d' (k & _ & [= <-])%bind_Some. done. Qed.
Lemma quiet_record m author plaintext : stays quiet (record_plaintext m author plaintext).
Proof.
  unfold record_plaintext. hush. apply quiet_update. intros d d' (k & _ & [= <-])%bind_Some.
  unfold insert_history. by case_decide.
Qed.
Lemma quiet_settle id n : stays quiet (update (settle_history id n)).
Proof. apply quiet_update. by intros d d' (k & _ & [= <-])%bind_Some. Qed.
#[local] Hint Resolve quiet_write_cursor quiet_record quiet_settle : cache.
Lemma hushed_finish_event e state : along hushed (finish_event user e state).
Proof. unfold finish_event, acknowledge_events. hush. Qed.
#[local] Hint Resolve hushed_finish_event : cache.
Lemma restores_apply_own e own : restores (apply_own e own).
Proof. unfold apply_own, decode. settle. Qed.
Lemma restores_apply_other e : restores (apply_other e).
Proof. unfold apply_other. settle. Qed.
#[local] Hint Resolve restores_apply_own restores_apply_other : cache.
Lemma restores_apply_body e own : restores (apply_body user e own).
Proof. unfold apply_body. settle. Qed.
Lemma preserving_apply_event e : along preserving (apply_event user e).
Proof. unfold apply_event, show_applied. keep. apply restores_apply_body. Qed.
#[local] Hint Resolve preserving_apply_event : cache.

Lemma hushed_verify_welcome welcome : along hushed (verify_welcome user welcome).
Proof. unfold verify_welcome. hush. Qed.
Lemma hushed_block_welcome n : along hushed (block_welcome n).
Proof. unfold block_welcome. hush. Qed.
#[local] Hint Resolve hushed_verify_welcome hushed_block_welcome : cache.
Lemma quiet_insert_cursor room n : stays quiet (update (insert_cursor room n)).
Proof. apply quiet_update. intros d d' (k & _ & E)%bind_Some. case_match; [done|]. by injection E as <-. Qed.
#[local] Hint Resolve quiet_insert_cursor : cache.
Lemma restores_join_welcome n welcome : restores (join_welcome user n welcome).
Proof. unfold join_welcome, acknowledge_events. settle. Qed.
#[local] Hint Resolve restores_join_welcome : cache.
Lemma preserving_process_welcome n l : along preserving (process_welcome user n l).
Proof. unfold process_welcome, decode. keep. Qed.
#[local] Hint Resolve preserving_process_welcome : cache.
Lemma hushed_next_welcome after :
  along hushed (run_sql (sql (λ d, after ← u64_param after; Some (next_welcome after d, d)))).
Proof. apply hushed_sql. by intros d a d' (k & _ & [= _ <-])%bind_Some. Qed.
#[local] Hint Resolve hushed_next_welcome : cache.
Lemma preserving_process_loop fuel : ∀ after, along preserving (process_loop user fuel after).
Proof. induction fuel as [|fuel IH]; intros after; simpl; keep. Qed.
Lemma preserving_process_welcomes : along preserving (process_welcomes user).
Proof. unfold process_welcomes. keep. apply preserving_process_loop. Qed.

Lemma quiet_insert_welcome n l : stays quiet (update (insert_welcome_row n l)).
Proof. apply quiet_update. intros d d' (k & _ & E)%bind_Some. case_decide; [done|]. by injection E as <-. Qed.
#[local] Hint Resolve quiet_insert_welcome : cache.
Lemma hushed_store_welcomes l : ∀ last, along hushed (store_welcomes user last l).
Proof. induction l as [|welcome l IH]; intros last; simpl; unfold encode; hush. Qed.
Lemma hushed_welcome_position last :
  along hushed (run_sql (update (λ d, n ← u64_param last; Some (set_welcome_position (fmap (λ _, n)) d)))).
Proof. apply hushed_run_update. by intros d d' (k & _ & [= <-])%bind_Some. Qed.
Lemma hushed_welcome_cursor : along hushed (run_sql (sql (λ d, n ← welcome_position d; Some (n, d)))).
Proof. apply hushed_sql. by intros d a d' (k & _ & [= _ <-])%bind_Some. Qed.
#[local] Hint Resolve hushed_store_welcomes hushed_welcome_position hushed_welcome_cursor : cache.
Lemma preserving_welcome_page n l : along preserving (welcome_page user n l).
Proof. unfold welcome_page. keep. Qed.
#[local] Hint Resolve preserving_process_welcomes preserving_welcome_page : cache.
Lemma preserving_recover fuel : along preserving (recover_welcomes user fuel).
Proof. induction fuel as [|fuel IH]; cbn [recover_welcomes]; keep. Qed.

Lemma hushed_receive_page room events : ∀ n, along hushed (receive_page room n events).
Proof. induction events as [|e events IH]; intros n; simpl; hush. Qed.
Lemma preserving_apply_page events : along preserving (apply_page user events).
Proof. induction events as [|e events IH]; simpl; keep. Qed.
#[local] Hint Resolve preserving_recover hushed_receive_page preserving_apply_page : cache.
Lemma preserving_catch_up fuel room top : along preserving (catch_up user fuel room top).
Proof. induction fuel as [|fuel IH]; cbn [catch_up]; keep. Qed.
#[local] Hint Resolve preserving_catch_up : cache.
Lemma preserving_sync_room after h : along preserving (sync_room user after h).
Proof. unfold sync_room. keep. Qed.
#[local] Hint Resolve preserving_sync_room : cache.
Lemma preserving_sync_rooms rooms : ∀ after, along preserving (sync_rooms user after rooms).
Proof. induction rooms as [|h rooms IH]; intros after; simpl; keep. Qed.
#[local] Hint Resolve preserving_sync_rooms : cache.
Lemma preserving_sync_index fuel : ∀ after, along preserving (sync_index_loop user fuel after).
Proof. induction fuel as [|fuel IH]; intros after; cbn [sync_index_loop]; keep. Qed.
#[local] Hint Resolve preserving_sync_index : cache.
Lemma preserving_synchronize : along preserving (synchronize user).
Proof. unfold synchronize, messages_left. keep. Qed.

Lemma restores_attempt_request sd id parent i : restores (attempt_request user sd id parent i).
Proof. unfold attempt_request. repeat case_match; unfold add_operation, send_operation; settle. Qed.
#[local] Hint Resolve restores_attempt_request preserving_synchronize : cache.
Lemma preserving_build_attempt i : along preserving (build_attempt user i).
Proof. unfold build_attempt. keep. settle. Qed.
#[local] Hint Resolve preserving_build_attempt : cache.
Lemma preserving_build_all rows : ∀ built, along preserving (build_all user rows built).
Proof. induction rows as [|i rows IH]; intros built; simpl; keep. Qed.
#[local] Hint Resolve preserving_build_all : cache.
Lemma preserving_build_attempts : along preserving (build_attempts user).
Proof. unfold build_attempts. keep. Qed.
Lemma preserving_retry_page page : ∀ after, along preserving (retry_page user after page).
Proof. induction page as [|[rowid e] page IH]; intros after; simpl; unfold retry_entry, decode; keep. Qed.
#[local] Hint Resolve preserving_build_attempts preserving_retry_page : cache.
Lemma preserving_retry_outbox fuel : ∀ after, along preserving (retry_outbox user fuel after).
Proof. induction fuel as [|fuel IH]; intros after; simpl; keep. Qed.
#[local] Hint Resolve preserving_retry_outbox : cache.
Lemma preserving_rounds n : along preserving (drive_rounds user n).
Proof. induction n as [|n IH]; cbn [drive_rounds]; keep. Qed.
Lemma preserving_drive : along preserving (drive user).
Proof.
  intros w c Hc. unfold drive. pose proof (preserving_rounds 4 w c Hc) as Hd. fold (drive_inner user) in Hd.
  by destruct (drive_inner user w c) as [[a|e] c1].
Qed.
#[local] Hint Resolve preserving_drive : cache.
Lemma preserving_turn t : along preserving (turn user t).
Proof. unfold turn. keep. Qed.
#[local] Hint Resolve preserving_turn : cache.
Lemma preserving_turns l : along preserving (run_turns user l).
Proof. induction l as [|t l IH]; simpl; keep. Qed.
#[local] Hint Resolve preserving_turns : cache.
Lemma preserving_run l : along preserving (run user l).
Proof. unfold run. keep. Qed.
End engine.
