(* ===== verification/ClientProps.v ===== *)
(** * What the client guarantees

    The properties of the client's runs, of the events and Welcomes it accepts, of its
    contacts and of its retries. *)
From S2P Require Import Prelude Bytes Text Postcard PostcardRef Protocol Wire Identifiers Transcripts.
From S2P Require Import Framing Crypto ClientStore ClientContacts ClientMls ClientDelivery ClientSync.
From S2P Require Import ClientTx ClientJournal ClientRuns ClientEngine ClientEnds ClientDemo.

(** ** Runs *)

(** The client that a new process starts with, after an exit or a crash. *)
Definition restarted `{Mls} (c : Client) : Client :=
  MkClient (MkStore (durable (store c)) None None false 0 (new_data_limit (store c))) ∅
    (Writer [] None) [] [] 0 0 0.

Lemma alice_db_inv : journal_inv alice alice_db.
Proof.
  split; simpl; try apply NoDup_nil_2; try (by intros ? ?%not_elem_of_nil).
  by intros ? ? ? ?%not_elem_of_nil.
Qed.

(** Whatever the relay answers, whichever statements fail and wherever a run stops,
    the client's journal stays sound. In the durable tables each room's cursor has been
    reached one settled event after the other, no event above a cursor is settled,
    events are told apart by id and by position and keep the record under which they
    were received, and every message in the history that is not the user's own is an
    applied event of its room by its author. Cursors never move back; received events,
    settled states, verified contacts and identities are never lost or altered; and the
    same holds of what the next process finds. *)
Theorem client_runs_keep_the_journal `{Postcard} `{Sha256} `{Ed25519Signer} `{Mls} user w turns c r c' :
  good user c → run user turns w c = (r, c') →
  good user c' ∧ grows (durable (store c)) (durable (store c')) ∧ good user (restarted c').
Proof.
  intros Hg E. destruct (kept_run user turns w c Hg I) as (Hg' & Hgr & _). rewrite E in Hg', Hgr.
  split_and!; [done..|]. split; [by left|]. apply Hg'.
Qed.

Lemma client_runs_keep_the_journal_witness :
  good alice alice_client ∧
  (good alice alice_after ∧ grows alice_db (durable (store alice_after)) ∧ good alice (restarted alice_after)) ∧
  cursors (durable (store alice_after)) !! cave = Some 1.
Proof.
  assert (good alice alice_client) as Hg by (split; [by left|exact alice_db_inv]).
  split; [exact Hg|]. split; [|vm_compute; reflexivity].
  exact (client_runs_keep_the_journal alice calm [] alice_client _ _ Hg (surjective_pairing _)).
Defined.

(** C17: the client's loops end. Whatever the relay sends, however statements fail and
    whatever the tables hold, a run never uses up the fuel that stands for its loops: the
    loops that wait take at least one of the messages to come at every turn, the loops
    over the outbox and the stored Welcomes move past a row at every turn, and a run
    takes no more messages than were to come. The reader task, too, ends on every
    stream. *)
Theorem client_runs_end `{Postcard} `{Sha256} `{Ed25519Signer} `{Mls} user turns w c s :
  (run user turns w c).1 ≠ Err OutOfFuel ∧
  (length (incoming (run user turns w c).2) ≤ length (incoming c))%nat ∧
  is_Some (reader_task (S (stream_size s)) s).
Proof.
  destruct (ends_run user turns) as [Ht Hl]. split_and!.
  - apply (Hl (S (waiting c))). lia.
  - specialize (Ht w c). unfold waiting in Ht. lia.
  - apply reader_task_total. lia.
Qed.

(** ** Events *)

Section events.
Context `{Mls}.

Definition all_pinned (pins : gmap UserId ContactRow) (members : list (Z * SigningIdentity)) : Prop :=
  Forall (λ m, is_ok (pinned m.2 pins) = true) members.

Lemma verify_identity_Ok who w s a s' :
  verify_identity who w s = (Ok a, s') → pinned who (contacts (db s)) = Ok a ∧ db s' = db s.
Proof.
  unfold verify_identity. destruct (credential who) as [identifier|] eqn:Ec; [|done].
  unfold mbind, StoreM_bind, from_result. destruct (to_array 16 identifier); [|done]. simpl.
  unfold lock_provider. destruct (_ || _); [done|]. unfold select, sql.
  destruct (sql_fails w (ticks s)); [done|]. simpl. by intros [= -> <-].
Qed.

Lemma verify_roster_Ok g e w c u c' :
  verify_roster g e w c = (Ok u, c') →
  all_pinned (contacts (db (store c))) (roster g) ∧ db (store c') = db (store c).
Proof.
  unfold verify_roster, all_pinned. generalize (roster g) as l. revert c.
  intros c l. revert c. induction l as [|m l IH]; intros c E; [by injection E as _ <-|].
  cbn [each] in E. apply client_bind_Ok in E as (u1 & c1 & E1 & E).
  unfold or_error in E1. destruct ((on_store (verify_identity m.2);; mret tt) w c) as [[u2|e2] c2] eqn:E2; [|done].
  injection E1 as <- <-. apply client_bind_Ok in E2 as (a & c3 & E3 & E4). injection E4 as <- <-.
  unfold on_store in E3. destruct (verify_identity m.2 w (store c)) as [[a'|e'] s] eqn:Ev; [|done].
  injection E3 as <- <-. apply verify_identity_Ok in Ev as [Hp Hd].
  apply IH in E as [Hall Hd']. simpl in *. rewrite Hd in *. split; [|done]. constructor; [by rewrite Hp|done].
Qed.

(** What authenticates an event: the leaf that sent the message and the data it covers. *)
Definition bound_to (event : Event.t) (members : list (Z * SigningIdentity)) (sender : Z) (aad : list byte) : Prop :=
  ∃ who, identity_at sender members = Some who ∧
    credential who = Basic (user_bytes (Event.sender event)) ∧
    aad = event_authenticated_data (room_of event) (Event.id event) (parent_of event).

Lemma from_wire_canonical l m : from_wire l = Some m → to_wire m = Some l.
Proof.
  unfold from_wire. intros (m' & _ & (again & Ha & E)%bind_Some)%bind_Some. by case_decide; simplify_eq.
Qed.

Lemma process_bound_Ok event w c p c' :
  process_bound event w c = (Ok p, c') →
  ∃ m g c1 ps received g',
    from_wire (Append.body (Event.operation event)) = Some m ∧
    to_wire m = Some (Append.body (Event.operation event)) ∧
    message_epoch m = Some (Append.epoch (Event.operation event)) ∧
    group_mut (Append.room (Event.operation event)) w c = (Ok g, c1) ∧
    group_epoch g = Append.epoch (Event.operation event) ∧
    process_incoming_message ps g m = (Ok received, g') ∧
    all_pinned (contacts (db (store c))) (roster g') ∧
    match received, p with
    | ApplicationMessage sender aad data, Processed.Application plaintext author =>
        Append.content_type (Event.operation event) = MlsContentType.Application ∧
        plaintext = data ∧ author = user_bytes (Event.sender event) ∧ bound_to event (roster g) sender aad
    | CommitMessage false sender aad, Processed.Commit epoch =>
        Append.content_type (Event.operation event) = MlsContentType.Commit ∧
        epoch = group_epoch g' ∧ bound_to event (roster g) sender aad
    | _, _ => False
    end.
Proof.
  unfold process_bound. intros E.
  apply client_bind_Ok in E as (m & c1 & E1 & E). apply client_lift_Ok in E1 as [Em%ok_or_Ok ->].
  apply client_bind_Ok in E as (u1 & c2 & E1 & E). apply client_guard_Ok in E1 as [Hep%bool_decide_eq_true ->].
  apply client_bind_Ok in E as (g & c3 & Eg & E).
  apply client_bind_Ok in E as (u2 & c4 & E1 & E). case_decide as Hcur; [|done]. injection E1 as _ <-.
  apply client_bind_Ok in E as ([rr g'] & c5 & E1 & E). unfold call_mls in E1. injection E1 as Ep <-.
  apply client_bind_Ok in E as (u3 & c6 & E1 & E). injection E1 as _ <-.
  apply client_bind_Ok in E as (received & c7 & E1 & E). apply client_lift_Ok in E1 as [Er ->].
  simpl in Er. destruct rr as [rcv|er]; [|done]. injection Er as ->.
  apply client_bind_Ok in E as ([[sender aad] o] & c8 & E1 & E). apply client_lift_Ok in E1 as [Hcl%ok_or_Ok ->].
  apply client_bind_Ok in E as (actual & c9 & E1 & E). apply client_lift_Ok in E1 as [Hid%ok_or_Ok ->].
  apply client_bind_Ok in E as (u4 & c10 & E1 & E).
  apply client_guard_Ok in E1 as [[->%bool_decide_eq_true Haad%bool_decide_eq_true]%andb_prop ->].
  apply client_bind_Ok in E as (u5 & c11 & E1 & E). apply verify_roster_Ok in E1 as [Hpin _].
  apply client_bind_Ok in E as (u6 & c12 & _ & E). injection E as E _.
  assert (contacts (db (store c3)) = contacts (db (store c))) as Hct.
  { pose proof (along_group_mut (Append.room (Event.operation event)) w c) as [[_ _ _ Hc] _]. rewrite Eg in Hc.
    simpl in Hc. by apply core_fields in Hc as (_ & _ & -> & _). }
  assert (bound_to event (roster g) sender aad) as Hb.
  { apply bind_Some in Hid as (who & Hwho & Hbas). exists who. split_and!; [done| |done].
    unfold basic_identifier in Hbas. destruct (credential who); simplify_eq. done. }
  exists m, g, c3. eexists. exists received, g'.
  split_and!; [done|by apply from_wire_canonical|done|done|congruence|exact Ep| |].
  - rewrite <- Hct. exact Hpin.
  - unfold classify in Hcl. destruct received as [s a data|[] s a|]; try done;
      destruct (Append.content_type (Event.operation event)); try done; simplify_eq/=; by split_and!.
Qed.
End events.

(** C20: the client accepts an event of another member only as what that member sent, and
    only at its place. When [process_bound] succeeds, the bytes are the
    one serialisation of an MLS message of the event's epoch, which is that of the
    room's group; the library has authenticated it; the leaf that
    sent it belongs to the sender the relay names; the data it authenticates is that of
    this room, event id and position; its class is the one of the envelope; and every
    member of the group after it is a verified contact with a pinned key. What is
    recorded is the content the library decrypted, under the sender's name. *)
Theorem processed_events_are_authenticated `{Mls} event w c p c' :
  process_bound event w c = (Ok p, c') →
  ∃ m g c1 ps received g',
    from_wire (Append.body (Event.operation event)) = Some m ∧
    to_wire m = Some (Append.body (Event.operation event)) ∧
    message_epoch m = Some (Append.epoch (Event.operation event)) ∧
    group_mut (Append.room (Event.operation event)) w c = (Ok g, c1) ∧
    group_epoch g = Append.epoch (Event.operation event) ∧
    process_incoming_message ps g m = (Ok received, g') ∧
    all_pinned (contacts (db (store c))) (roster g') ∧
    match received, p with
    | ApplicationMessage sender aad data, Processed.Application plaintext author =>
        Append.content_type (Event.operation event) = MlsContentType.Application ∧
        plaintext = data ∧ author = user_bytes (Event.sender event) ∧ bound_to event (roster g) sender aad
    | CommitMessage false sender aad, Processed.Commit epoch =>
        Append.content_type (Event.operation event) = MlsContentType.Commit ∧
        epoch = group_epoch g' ∧ bound_to event (roster g) sender aad
    | _, _ => False
    end.
Proof. apply process_bound_Ok. Qed.

(** ** Welcomes *)

Section welcomes.
Context `{Postcard} `{Sha256} `{Ed25519Signer} `{Mls}.
Variable user : UserId.

(** The inviter's card, as pinned, verifies the Welcome for this user. *)
Definition signed_welcome (pins : gmap UserId ContactRow) (welcome : WelcomeDelivery.t) : Prop :=
  ∃ row card, pins !! WelcomeDelivery.inviter welcome = Some row ∧
    card_parse (ascii_str (hex_string (contact_card row))) = Ok card ∧
    key_from_bytes (transport_key card) = true ∧
    verify_strict (transport_key card)
      (welcome_transcript user (WelcomeDelivery.room welcome) (WelcomeDelivery.event welcome)
         (WelcomeDelivery.sequence welcome) (WelcomeAttachment.body (WelcomeDelivery.attachment welcome)))
      (signature_bytes (WelcomeAttachment.signature (WelcomeDelivery.attachment welcome))) = true.

Lemma verify_welcome_Ok welcome w c u c' :
  between (store c) → verify_welcome user welcome w c = (Ok u, c') →
  WelcomeDelivery.sequence welcome ≠ 0 ∧ signed_welcome (contacts (durable (store c))) welcome.
Proof.
  intros Hb E. unfold verify_welcome in E. apply client_bind_Ok in E as (u1 & c1 & E1 & E).
  apply client_guard_Ok in E1 as [[Hz _]%andb_prop ->]. apply negb_true_iff, Z.eqb_neq in Hz.
  split; [done|]. apply client_bind_Ok in E as (card & c2 & E2 & E).
  apply client_bind_Ok in E as (u2 & c3 & E3 & E). apply client_guard_Ok in E3 as [Hk ->].
  apply client_guard_Ok in E as [Hv _]. unfold require_contact in E2.
  apply client_bind_Ok in E2 as (bytes & c3 & E4 & E2). unfold run_sql, on_store, mbind, StoreM_bind in E4.
  pose proof (lock_state w (store c)) as Hl. destruct (lock w (store c)) as [[[]|e] s1] eqn:El; simpl in Hl; subst s1; [|done].
  apply lock_Ok in El as (_ & Hp & _). destruct Hb as [[Hs _]|[_ ?]]; [|congruence].
  unfold durable. rewrite Hs. simpl. unfold sql in E4. destruct (sql_fails w (ticks (store c))); [done|].
  destruct (contacts (db (store c)) !! WelcomeDelivery.inviter welcome) as [row|] eqn:Er; [|done].
  simpl in E4. injection E4 as <- _. unfold parse_stored_card, on_store, from_result in E2.
  exists row, card. split_and!; [done| |done|done].
  destruct (card_parse (ascii_str (hex_string (contact_card row)))); [|done]. by injection E2 as ->.
Qed.

Lemma still_keeps_cursors {A} (m : ClientM A) w c :
  along stills m → between (store c) →
  between (store (m w c).2) ∧ cursors (durable (store (m w c).2)) = cursors (durable (store c)) ∧
  contacts (durable (store (m w c).2)) = contacts (durable (store c)).
Proof.
  intros Hm Hb. destruct (still_durable _ _ (proj1 (Hm w c)) Hb) as [Hb' Hc]. split; [done|].
  apply core_fields in Hc as (-> & _ & -> & _). done.
Qed.

Lemma process_welcome_cursors cursor bytes w c r c' :
  between (store c) → process_welcome user cursor bytes w c = (r, c') →
  cursors (durable (store c')) = cursors (durable (store c)) ∨
  ∃ welcome, decode_message c_welcome_delivery bytes = Ok welcome ∧
    0 < WelcomeDelivery.sequence welcome ∧ signed_welcome (contacts (durable (store c))) welcome ∧
    cursors (durable (store c)) !! WelcomeDelivery.room welcome = None ∧
    cursors (durable (store c')) =
      <[WelcomeDelivery.room welcome := WelcomeDelivery.sequence welcome]> (cursors (durable (store c))).
Proof.
  intros Hb. unfold process_welcome. unfold mbind at 1, ClientM_bind, decode, lift.
  destruct (decode_message c_welcome_delivery bytes) as [welcome|] eqn:Ed; simpl; [|intros [= _ <-]; by left].
  unfold mbind at 1, ClientM_bind, attempt at 1.
  assert (along stills (verify_welcome user welcome)) as Hst by (unfold verify_welcome; walk).
  destruct (verify_welcome user welcome w c) as [v c1] eqn:Ev.
  destruct (still_keeps_cursors _ w c Hst Hb) as (Hb1 & Hc1 & _). rewrite Ev in Hb1, Hc1. simpl in Hb1, Hc1.
  assert (∀ c2 c', between (store c2) → cursors (durable (store c2)) = cursors (durable (store c)) →
    (block_welcome cursor w c2).2 = c' → cursors (durable (store c')) = cursors (durable (store c))) as Hblock.
  { intros c2 c3 Hb2 Hc2 <-. destruct (still_keeps_cursors (block_welcome cursor) w c2) as (_ & -> & _); [|done..].
    unfold block_welcome. walk. }
  destruct v as [[]|e]; simpl; [|intros E; left; eapply (Hblock c1); [done..|by rewrite E]].
  apply verify_welcome_Ok in Ev as [Hz Hsig]; [|done].
  unfold mbind at 1, ClientM_bind, attempt at 1. rewrite atomic_bracket.
  destruct (bracket clear_groups (join_welcome user cursor welcome) w c1) as [j c2] eqn:Ej.
  apply bracket_cases in Ej as [(e & -> & Hb2 & Hd2)|(a & c0 & c3 & -> & Hs & Hdb & _ & Em & Hb2 & Hd2 & _)];
    [..|apply held_join_welcome|done|done].
  - simpl. intros E. left. eapply (Hblock c2); [done|by rewrite Hd2|by rewrite E].
  - simpl. intros [= _ <-]. right. exists welcome. simpl. rewrite Hd2.
    apply (join_welcome_inner user cursor welcome (db (store c1)) w c0) in Em; [|done].
    apply joined_cursors in Em as [Hn Hcur]. unfold durable in Hc1 at 1. rewrite Hs in Hc1. simpl in Hc1.
    rewrite Hc1 in *. split_and!; try done.
    apply decode_message_Ok in Ed as [Hv _]. destruct Hv as [[[_ [Hr _]] _] _]. simpl in Hr. lia.
Qed.
End welcomes.

(** Alice's client in an open transaction. *)
Definition alice_inside : Client := (on_store open_transaction calm alice_client).2.

Lemma processed_events_are_authenticated_witness :
  (process_bound bobs_hello calm alice_inside).1 = Ok (Processed.Application [x68; x69] (user_bytes bob)) ∧
  ∃ m (g : Group) ps received g', from_wire (Append.body (Event.operation bobs_hello)) = Some m ∧
    process_incoming_message ps g m = (Ok received, g') ∧
    all_pinned (contacts (db (store alice_inside))) (roster g').
Proof.
  assert ((process_bound bobs_hello calm alice_inside).1 =
    Ok (Processed.Application [x68; x69] (user_bytes bob))) as E1 by (vm_compute; reflexivity).
  split; [exact E1|].
  pose proof (pair_of_fst _ _ E1) as E.
  destruct (processed_events_are_authenticated _ _ _ _ _ E) as (m & g & c1 & ps & rcv & g' & Hm & _ & _ & _ & _ & Hp & Ha & _).
  exact (ex_intro _ m (ex_intro _ g (ex_intro _ ps (ex_intro _ rcv (ex_intro _ g' (conj Hm (conj Hp Ha))))))).
Defined.

(** C21: a room is joined only on a verified invitation. When the processing of a stored
    Welcome gives a room a cursor, the Welcome decodes, a verified contact is its
    inviter, the transport key of that contact's pinned card verifies the signature
    over this recipient, room, event, sequence and body, the room had no cursor before,
    and history starts exactly at the signed sequence. In every other case, a failed
    signature, a failed join or a failed statement, no cursor changes. *)
Theorem welcomes_are_verified `{Postcard} `{Sha256} `{Ed25519Signer} `{Mls} user cursor bytes w c r c' :
  between (store c) → process_welcome user cursor bytes w c = (r, c') →
  cursors (durable (store c')) = cursors (durable (store c)) ∨
  ∃ welcome, decode_message c_welcome_delivery bytes = Ok welcome ∧
    0 < WelcomeDelivery.sequence welcome ∧ signed_welcome user (contacts (durable (store c))) welcome ∧
    cursors (durable (store c)) !! WelcomeDelivery.room welcome = None ∧
    cursors (durable (store c')) =
      <[WelcomeDelivery.room welcome := WelcomeDelivery.sequence welcome]> (cursors (durable (store c))).
Proof. apply process_welcome_cursors. Qed.

(** Bob invites Alice into another room. *)
Definition den : RoomId := MkRoomId (vreplicate 16 x55).
Definition den_body : list byte := room_bytes den.
Definition invitation : WelcomeDelivery.t :=
  WelcomeDelivery.Mk (lit "Den") 1 hello_id den 7 bob
    (WelcomeAttachment.Mk alice den_body
       (MkSignature (sign bob_seed (welcome_transcript alice den hello_id 7 den_body)))).
Definition invitation_bytes : list byte :=
  match encode_message c_welcome_delivery invitation with Ok l => l | Err _ => [] end.
Definition invited_db : ClientDb := set_welcomes (λ _, [MkWelcomeInboxRow 1 invitation_bytes Received]) alice_db.
Definition invited : Client := client_with invited_db [].

Lemma welcomes_are_verified_witness :
  between (store invited) ∧
  (cursors (durable (store (process_welcome alice 1 invitation_bytes calm invited).2)) = cursors invited_db ∨
   ∃ welcome, decode_message c_welcome_delivery invitation_bytes = Ok welcome ∧
     signed_welcome alice (contacts invited_db) welcome) ∧
  cursors (durable (store (process_welcome alice 1 invitation_bytes calm invited).2)) !! den = Some 7.
Proof.
  assert (between (store invited)) as Hb by (by left). split; [exact Hb|].
  split; [|vm_compute; reflexivity].
  destruct (welcomes_are_verified alice 1 invitation_bytes calm invited _ _ Hb (surjective_pairing _))
    as [E|(x & Hx & _ & Hs & _)]; [left; exact E|right; exact (ex_intro _ x (conj Hx Hs))].
Defined.

(** ** Contacts *)

Section contacts.
Context `{Sha256} `{Ed25519}.

Lemma field_at n a (v : bytes n) (l p q : list byte) :
  l = p ++ v ++ q → length p = a → field n a l = Some v.
Proof.
  intros -> <-. unfold field. rewrite drop_app_length.
  rewrite take_app_length' by (symmetry; apply length_vec_to_list). apply to_array_vec.
Qed.

Lemma card_fields_bytes card : card_fields (card_bytes card) = Some card.
Proof.
  destruct card as [[u] t m s]. unfold card_fields.
  set (l := card_bytes _). assert (l = [x01] ++ u ++ t ++ m ++ s) as El by done. clearbody l.
  rewrite (field_at 16 1 u l [x01] (t ++ m ++ s) El) by done. simpl.
  rewrite (field_at 32 17 t l ([x01] ++ u) (m ++ s)); cycle 1.
  { by rewrite El, <- !(assoc_L (++)). }
  { by rewrite length_app, length_vec_to_list. }
  simpl. rewrite (field_at 32 49 m l ([x01] ++ u ++ t) s); cycle 1.
  { by rewrite El, <- !(assoc_L (++)). }
  { by rewrite !length_app, !length_vec_to_list. }
  simpl. rewrite (field_at 64 81 s l ([x01] ++ u ++ t ++ m) []); cycle 1.
  { by rewrite El, app_nil_r, <- !(assoc_L (++)). }
  { by rewrite !length_app, !length_vec_to_list. }
  done.
Qed.

Lemma length_card_bytes card : length (card_bytes card) = CARD_BYTES.
Proof. unfold card_bytes. rewrite !length_app, !length_vec_to_list. done. Qed.

Lemma card_parse_encode card :
  card_parse (card_encode card) =
    if card_signed card then Ok card else Err (InvalidData "invalid contact signature").
Proof.
  unfold card_parse, card_encode. rewrite str_len_hex_text.
  unfold len. rewrite length_card_bytes, Z.eqb_refl.
  destruct (utf8_hex_text (card_bytes card)) as [-> ->]. cbn [negb orb].
  assert (∃ v : bytes CARD_BYTES, vec_to_list v = card_bytes card) as [v Hv].
  { destruct (proj2 (to_array_length CARD_BYTES (card_bytes card))) as [v Hv]; [apply length_card_bytes|].
    exists v. by apply to_array_Some. }
  rewrite <- (app_nil_r (hex_string (card_bytes card))), <- Hv, parse_pairs_hex_string.
  cbn [ok_or mbind result_bind]. rewrite Hv, card_fields_bytes. cbn [ok_or mbind result_bind].
  by rewrite bool_decide_eq_true_2.
Qed.

Lemma card_parse_signed text card : card_parse text = Ok card → card_signed card = true.
Proof.
  unfold card_parse. destruct (_ || _); [discriminate|].
  destruct (parse_pairs CARD_BYTES (utf8 text)) as [v|]; cbn [ok_or mbind result_bind]; [|discriminate].
  destruct (negb _); [discriminate|].
  destruct (card_fields v) as [card'|]; cbn [ok_or mbind result_bind]; [|discriminate].
  destruct (card_signed card') eqn:Es; [|discriminate]. by intros [= <-].
Qed.
End contacts.

Section imports.
Context `{Sha256} `{Ed25519}.

Lemma store_bind_Ok {A B} (m : StoreM A) (k : A → StoreM B) w s b s' :
  (m ≫= k) w s = (Ok b, s') → ∃ a s1, m w s = (Ok a, s1) ∧ k a w s1 = (Ok b, s').
Proof. unfold mbind, StoreM_bind. destruct (m w s) as [[a|e] s1]; [eauto|done]. Qed.

Lemma own_fingerprint_is card : own_fingerprint card = Some (sha256 (card_bytes card)).
Proof.
  unfold own_fingerprint, card_fingerprint, cert_fingerprint_sha256_hex.
  rewrite fingerprint_digits_hex. cbn [mbind option_bind]. by rewrite parse_fingerprint_hex_text.
Qed.

(** Statements that read leave the tables alone. *)
Definition same_db (s s' : Store) : Prop := db s' = db s.
#[local] Instance same_db_preorder : PreOrder same_db.
Proof. split; [done|]. intros s1 s2 s3. unfold same_db. congruence. Qed.

Lemma stays_same_select {A} (f : ClientDb → A) : stays same_db (select f).
Proof. intros w s. unfold select, sql. by destruct (sql_fails w (ticks s)). Qed.
Lemma stays_same_admit n : stays same_db (admit_new_data n).
Proof.
  unfold admit_new_data, pragma.
  repeat first [ apply (stays_bind same_db); [|intros ?] | apply stays_same_select | apply (stays_lock same_db)
    | apply (stays_limit same_db) | apply (stays_when same_db), (stays_throw same_db) | done ].
Qed.

Lemma stays_Ok {A} (m : StoreM A) w s a s' : stays same_db m → m w s = (Ok a, s') → db s' = db s.
Proof. intros Hm E. specialize (Hm w s). by rewrite E in Hm. Qed.

Lemma card_import_Ok card fp w s u s' :
  card_import card fp w s = (Ok u, s') →
  parse_fingerprint_hex fp = Ok (sha256 (card_bytes card)) ∧ card_signed card = true ∧
  contacts (db s) ⊆ contacts (db s') ∧
  ((∃ row, contacts (db s) !! card_user card = Some row ∧ contact_card row = card_bytes card) ∧ db s' = db s ∨
   contacts (db s) !! card_user card = None ∧
   contacts (db s') = <[card_user card := MkContactRow (mls_key card) (card_bytes card)]> (contacts (db s))).
Proof.
  unfold card_import. intros E.
  apply store_bind_Ok in E as (given & s1 & E1 & E). injection E1 as Eg <-. apply map_err_Ok in Eg.
  apply store_bind_Ok in E as (own & s1 & E1 & E). injection E1 as Eo <-.
  rewrite own_fingerprint_is in Eo. cbn [ok_or] in Eo. injection Eo as <-.
  apply store_bind_Ok in E as (u1 & s1 & E1 & E). unfold when in E1.
  destruct (bool_decide (given = sha256 (card_bytes card))) eqn:Eb; [|discriminate E1].
  cbn [negb] in E1. injection E1 as _ <-. apply bool_decide_eq_true in Eb as ->.
  apply store_bind_Ok in E as (card' & s1 & E1 & E). injection E1 as Ep <-.
  assert (card_signed card = true) as Hsig.
  { rewrite card_parse_encode in Ep. by destruct (card_signed card). }
  apply store_bind_Ok in E as (u2 & s1 & E1 & E). apply stays_Ok in E1; [|apply (stays_lock same_db)].
  apply store_bind_Ok in E as (existing & s2 & E2 & E).
  assert (existing = contact_card <$> contacts (db s) !! card_user card ∧ db s2 = db s) as [Hex Hd2].
  { unfold select, sql in E2. destruct (sql_fails w (ticks s1)); [done|]. injection E2 as <- <-.
    simpl. by rewrite E1. }
  split; [done|]. split; [done|].
  destruct (contacts (db s) !! card_user card) as [row|] eqn:Er; subst existing; cbn [fmap option_fmap option_map] in E.
  - unfold when in E. destruct (bool_decide (contact_card row = card_bytes card)) eqn:Eb; [|discriminate E].
    cbn [negb] in E. injection E as _ <-. apply bool_decide_eq_true in Eb. rewrite Hd2. split; [done|].
    left. split; [eauto|done].
  - apply store_bind_Ok in E as (u3 & s3 & E3 & E). apply stays_Ok in E3; [|apply stays_same_admit].
    apply store_bind_Ok in E as (u4 & s4 & E4 & E). apply stays_Ok in E4; [|apply (stays_lock same_db)].
    unfold update, sql in E. destruct (sql_fails w (ticks s4)); [done|].
    unfold insert_contact in E. rewrite decide_True in E by apply length_card_bytes.
    rewrite E4, E3, Hd2, Er in E. cbn [mbind option_bind] in E. injection E as _ <-. simpl.
    split; [by apply insert_subseteq|]. by right.
Qed.
End imports.

(** C22: a contact is pinned only with a signed card whose fingerprint was confirmed, and
    stays pinned. A card that its owner signed survives being printed and parsed, and
    only signed cards parse. When an import succeeds, the fingerprint the user gave is
    the digest of the card and the card is signed; either the very card was pinned
    already and nothing changed, or the user had no card and this one, with its MLS key,
    is added; a card already pinned is never replaced. *)
Theorem contacts_are_confirmed `{Sha256} `{Ed25519} card fp w s u s' :
  card_import card fp w s = (Ok u, s') →
  card_parse (card_encode card) = Ok card ∧
  (∀ text card', card_parse text = Ok card' → card_signed card' = true) ∧
  parse_fingerprint_hex fp = Ok (sha256 (card_bytes card)) ∧
  contacts (db s) ⊆ contacts (db s') ∧
  ((∃ row, contacts (db s) !! card_user card = Some row ∧ contact_card row = card_bytes card) ∧ db s' = db s ∨
   contacts (db s) !! card_user card = None ∧
   contacts (db s') = <[card_user card := MkContactRow (mls_key card) (card_bytes card)]> (contacts (db s))).
Proof.
  intros (Hfp & Hs & Hsub & Hc)%card_import_Ok. split_and!; [|apply card_parse_signed|done..].
  by rewrite card_parse_encode, Hs.
Qed.

Definition empty_store : Store := store_with fresh_db.
Definition bob_fingerprint : str := ascii_str (hex_string (sha256 (card_bytes bob_card))).

Lemma contacts_are_confirmed_witness :
  (card_import bob_card bob_fingerprint calm empty_store).1 = Ok tt ∧
  contacts (db empty_store) ⊆ contacts (db (card_import bob_card bob_fingerprint calm empty_store).2) ∧
  contacts (db (card_import bob_card bob_fingerprint calm empty_store).2) !! bob = Some (contact_row bob_card).
Proof.
  assert ((card_import bob_card bob_fingerprint calm empty_store).1 = Ok tt) as E1 by (vm_compute; reflexivity).
  split; [exact E1|]. split; [|vm_compute; reflexivity].
  exact (proj1 (proj2 (proj2 (proj2 (contacts_are_confirmed _ _ _ _ _ _ (pair_of_fst _ _ E1)))))).
Defined.

(** ** Retries *)

Section retries.
Context `{Postcard} `{Sha256} `{Ed25519Signer} `{Mls}.

Definition same_output (c c' : Client) : Prop := output c' = output c.
#[local] Instance same_output_preorder : PreOrder same_output.
Proof. split; [done|]. intros c1 c2 c3. unfold same_output. congruence. Qed.

Lemma await_output fuel id : along same_output (await_response fuel id).
Proof.
  induction fuel as [|fuel IH]; cbn [await_response]; [done|]. apply along_bind; [apply _| |intros m].
  - intros w c. unfold receive_message. by destruct (incoming c) as [|[] ?].
  - destruct m; try done. by case_decide.
Qed.

Lemma request_output id r l w c x c' :
  encode_message c_client_message (ClientMessage.Delivery id r) = Ok l → fails_after (output c) = None →
  request id r w c = (Ok x, c') → written (output c') = written (output c) ++ frame_bytes l.
Proof.
  intros El Hf E. unfold request in E. apply client_bind_Ok in E as (bytes & c1 & E1 & E).
  unfold encode in E1. rewrite El in E1. injection E1 as <- <-.
  apply client_bind_Ok in E as (u & c2 & E2 & E). unfold send in E2.
  apply client_bind_Ok in E2 as (late & c3 & E3 & E2). unfold on_store, observe in E3. injection E3 as _ <-.
  apply client_bind_Ok in E2 as (u1 & c4 & E4 & E2). apply client_guard_Ok in E4 as [_ ->].
  unfold write_out in E2. apply client_bind_Ok in E as (fuel & c5 & E5 & E). injection E5 as _ <-.
  pose proof (await_output fuel id w c2) as Ho. rewrite E in Ho. unfold same_output in Ho. simpl in Ho. rewrite Ho.
  apply encode_message_Ok in El as [_ Hl]. simpl in E2.
  rewrite (write_frame_ok (output c) l) in E2; [|unfold MAX_PAYLOAD, MAX_FRAME_SIZE in *; lia|done].
  simpl in E2. injection E2 as _ <-. done.
Qed.

Lemma outbox_row_insert id kind message d :
  match outbox_row id d with
  | Some row => insert_outbox id kind message d = d
  | None => ∃ n, outbox_row id (insert_outbox id kind message d) = Some (MkOutboxRow n id kind message)
  end.
Proof.
  unfold insert_outbox. destruct (outbox_row id d) as [row|] eqn:E; [done|].
  unfold outbox_row in *. cbn [outbox set_outbox].
  exists (next_rowid (outbox_rowid <$> outbox d)). rewrite filter_app.
  destruct (filter (λ r, outbox_request r = id) (outbox d)); [|done].
  by rewrite filter_cons_True.
Qed.

Lemma save_outbox_Ok id kind message w s u s' :
  save_outbox id kind message w s = (Ok u, s') →
  (∀ row, outbox_row id (db s) = Some row → outbox_kind row = kind ∧ outbox_message row = message ∧ db s' = db s) ∧
  ∃ row, outbox_row id (db s') = Some row ∧ outbox_kind row = kind ∧ outbox_message row = message.
Proof.
  unfold save_outbox. intros E. apply store_bind_Ok in E as (u1 & s1 & E1 & E).
  pose proof (lock_state w s) as Hl. rewrite E1 in Hl. simpl in Hl. subst s1.
  apply store_bind_Ok in E as (existing & s2 & E2 & E). unfold select, sql in E2.
  destruct (sql_fails w (ticks s)); [done|]. injection E2 as <- <-.
  apply store_bind_Ok in E as (u2 & s3 & E3 & E). unfold update, sql in E.
  pose proof (outbox_row_insert id kind message (db s)) as Hi.
  destruct (outbox_row id (db s)) as [row|] eqn:Er; unfold when in E3.
  - destruct (bool_decide (outbox_kind row = kind)) eqn:Ek; [|done].
    destruct (bool_decide (outbox_message row = message)) eqn:Em; [|done]. simpl in E3. injection E3 as _ <-.
    simpl in E. destruct (sql_fails w _); [done|]. injection E as _ <-. simpl. rewrite Hi.
    apply bool_decide_eq_true in Ek, Em.
    rewrite Er. split; [intros ? [= <-]; done|eauto].
  - simpl in E3. injection E3 as _ <-. simpl in E. destruct (sql_fails w _); [done|]. injection E as _ <-. simpl.
    split; [done|]. destruct Hi as [n ->]. eauto.
Qed.

Lemma encode_Ok {A} (cd : codec A) a w c l c' :
  encode cd a w c = (Ok l, c') → encode_message cd a = Ok l ∧ c' = c.
Proof. by intros [= El%map_err_Ok <-]. Qed.

Lemma journal_Ok id r w c u c' :
  journal id r w c = (Ok u, c') →
  ∃ l, encode_message c_client_message (ClientMessage.Delivery id r) = Ok l ∧
    (∀ row, outbox_row id (db (store c)) = Some row → outbox_message row = l) ∧
    ∃ row, outbox_row id (db (store c')) = Some row ∧ outbox_message row = l.
Proof.
  unfold journal. intros E. apply client_bind_Ok in E as (u1 & c1 & E1 & E).
  assert (db (store c1) = db (store c)) as Hd.
  { destruct (is_acknowledgement r); [by injection E1 as _ <-|].
    apply client_bind_Ok in E1 as (bytes & c2 & E2 & E1). apply encode_Ok in E2 as [_ ->].
    unfold on_store in E1. pose proof (stays_same_admit (len bytes) w (store c)) as Ha.
    destruct (admit_new_data _ _ _) as [[u2|e] s]; [|done]. injection E1 as _ <-. done. }
  apply client_bind_Ok in E as (l & c2 & E2 & E). apply encode_Ok in E2 as [El ->].
  exists l. split; [done|]. unfold on_store in E.
  destruct (save_outbox id (lit "Delivery") l w (store c1)) as [[u2|e] s] eqn:Es; [|done].
  injection E as _ <-. apply save_outbox_Ok in Es as [H1' (row & Hr & _ & Hm)]. rewrite Hd in H1'. split.
  - intros row' Hrow. by apply H1'.
  - simpl. eauto.
Qed.
End retries.

(** a retry is the request that was journalled, byte for byte. Once [journal] has
    recorded a request under an id, its row decodes to that request, every later
    transmission of the request puts exactly the row's bytes on the wire as one frame,
    and as long as the row is there no other request can be journalled under the id. *)
Theorem retries_are_exact `{Postcard} `{Sha256} `{Ed25519Signer} `{Mls} id r w c u c' :
  valid c_client_message (ClientMessage.Delivery id r) → journal id r w c = (Ok u, c') →
  ∃ row, outbox_row id (db (store c')) = Some row ∧
    decode_message c_client_message (outbox_message row) = Ok (ClientMessage.Delivery id r) ∧
    (∀ w2 c2 x c3, fails_after (output c2) = None → request id r w2 c2 = (Ok x, c3) →
       written (output c3) = written (output c2) ++ frame_bytes (outbox_message row)) ∧
    (∀ r' w2 c2 u2 c3, valid c_client_message (ClientMessage.Delivery id r') →
       outbox_row id (db (store c2)) = Some row → journal id r' w2 c2 = (Ok u2, c3) → r' = r).
Proof.
  intros Hv (l & El & _ & row & Hrow & Hm)%journal_Ok. exists row. rewrite Hm.
  pose proof (decode_encode_message _ _ _ Hv El) as Hd. split_and!; [done|done| |].
  - intros w2 c2 x c3 Hf. by apply request_output.
  - intros r' w2 c2 u2 c3 Hv' Hrow' (l' & El' & Hl' & _)%journal_Ok.
    rewrite <- (Hl' _ Hrow'), Hm in El'. apply decode_encode_message in El'; [|done]. congruence.
Qed.

Definition create_den : Request.t := Request.CreateRoom (lit "Den").

Lemma retries_are_exact_witness :
  (journal hello_id create_den calm alice_client).1 = Ok tt ∧
  ∃ row, outbox_row hello_id (db (store (journal hello_id create_den calm alice_client).2)) = Some row ∧
    decode_message c_client_message (outbox_message row) = Ok (ClientMessage.Delivery hello_id create_den).
Proof.
  assert ((journal hello_id create_den calm alice_client).1 = Ok tt) as E1 by (vm_compute; reflexivity).
  split; [exact E1|].
  assert (valid c_client_message (ClientMessage.Delivery hello_id create_den)) as Hv by (split; [done|by vm_compute]).
  destruct (retries_are_exact _ _ _ _ _ _ Hv (pair_of_fst _ _ E1)) as (row & Hr & Hd & _).
  exact (ex_intro _ row (conj Hr Hd)).
Defined.

(** ** Rejected messages *)

Section rejections.
Context `{Postcard} `{Sha256} `{Ed25519Signer} `{Mls}.

(** The statement of a successful [remove_outbox] or [update] is what happened. *)
Lemma run_update_Ok f w c u c' :
  on_store (lock;; update (λ d, Some (f d))) w c = (Ok u, c') → db (store c') = f (db (store c)).
Proof. intros E. apply (run_sql_Ok (λ d, d ← Some (f d); Some (tt, d))) in E. by injection E as _ <-. Qed.

(** A committed transaction whose body rewrites the tables by [f]. *)
Lemma atomic_update_Ok (m : ClientM ()) f w c u c' :
  (∀ w c u c', m w c = (Ok u, c') → db (store c') = f (db (store c))) → along helds m →
  between (store c) → atomic m w c = (Ok u, c') → durable (store c') = f (durable (store c)).
Proof.
  intros Hm Hh Hb E. rewrite atomic_bracket in E. apply bracket_cases in E as
    [(e & ? & _)|(a & c2 & c3 & _ & Hs & Hdb & _ & Em%Hm & _ & Hd & _)]; [done| |done..].
  rewrite Hd, Em, Hdb. unfold durable. by rewrite Hs.
Qed.

Lemma complete_rejected_Ok id operation reason w c u c' :
  is_commit operation = false → between (store c) →
  complete_rejected id (Request.AppendRoomOperation operation) reason w c = (Ok u, c') →
  durable (store c') = delete_outbox id (delete_intent id (durable (store c))).
Proof.
  intros Hc Hb E. unfold complete_rejected in E. rewrite Hc in E.
  apply client_bind_Ok in E as (u1 & c1 & E1 & E). injection E as _ <-.
  apply (atomic_update_Ok _ (λ d, delete_outbox id (delete_intent id d))) in E1; [done| |apply along_held; walk|done].
  clear. intros w c u c' E. apply client_bind_Ok in E as (u0 & c0 & [= _ <-] & E).
  apply client_bind_Ok in E as (u1 & c1 & E1%run_update_Ok & E%run_update_Ok). by rewrite E, E1.
Qed.

Lemma complete_conflict_Ok id operation room w c u c' :
  is_commit operation = false → between (store c) →
  complete_conflict id operation room w c = (Ok u, c') →
  durable (store c') = release_attempt id (delete_history id (delete_outbox id (durable (store c)))).
Proof.
  intros Hc Hb E. unfold complete_conflict in E. rewrite Hc in E.
  apply client_bind_Ok in E as (u1 & c1 & E1 & E).
  assert (store c' = store c1) as ->.
  { apply client_bind_Ok in E as (u2 & c2 & [= _ <-] & E). by injection E as _ <-. }
  apply (atomic_update_Ok _ (λ d, release_attempt id (delete_history id (delete_outbox id d)))) in E1; [done| | |done].
  - clear. intros w c u c' E. apply client_bind_Ok in E as (u0 & c0 & [= _ <-] & E).
    apply client_bind_Ok in E as (u1 & c1 & E1%run_update_Ok & E).
    apply client_bind_Ok in E as (u2 & c2 & E2%run_update_Ok & E%run_update_Ok). by rewrite E, E2, E1.
  - apply along_bind; [apply _|apply along_ret, _|intros ?].
    apply along_bind; [apply _|apply along_held; walk|intros ?].
    apply along_bind; [apply _|apply along_held_update|intros ?]. apply along_held. walk.
Qed.

Lemma delete_outbox_row id d : outbox_row id (delete_outbox id d) = None.
Proof.
  unfold outbox_row, delete_outbox. cbn [outbox set_outbox].
  induction (outbox d) as [|r l IH]; [done|]. rewrite filter_cons. case_decide; [|done].
  by rewrite filter_cons_False by tauto.
Qed.

Lemma released_attempts id d : Forall (λ i, intent_attempt i ≠ Some id) (intents (release_attempt id d)).
Proof. apply Forall_fmap, Forall_forall. intros i _. simpl. by case_decide. Qed.
End rejections.

(** C23: what becomes of a message that the relay did not log. After a temporary refusal
    the tables are as they were, so the exact retry is still there. After a head conflict
    the retry and the recorded plaintext are gone and the intent is waiting to be built
    again at the new head. After any other rejection the retry and the intent are gone
    but every row of the history is still there, so the text that the relay refused
    goes on being shown as a message of the room. *)
Theorem failed_sends_are_settled `{Postcard} `{Sha256} `{Ed25519Signer} `{Mls} user id operation response w c u c' :
  Append.content_type operation = MlsContentType.Application → between (store c) →
  complete user id (Request.AppendRoomOperation operation) response w c = (Ok u, c') →
  match response with
  | Response.Rejected (Rejection.Overloaded | Rejection.Quota | Rejection.Internal) =>
      durable (store c') = durable (store c)
  | Response.HeadConflict _ _ =>
      outbox_row id (durable (store c')) = None ∧
      Forall (λ h, history_message h ≠ id) (history_rows (durable (store c'))) ∧
      intents (durable (store c')) = intents (release_attempt id (durable (store c))) ∧
      Forall (λ i, intent_attempt i ≠ Some id) (intents (durable (store c')))
  | Response.Rejected _ =>
      outbox_row id (durable (store c')) = None ∧
      intents (durable (store c')) = filter (λ i, intent_attempt i ≠ Some id) (intents (durable (store c))) ∧
      history_rows (durable (store c')) = history_rows (durable (store c))
  | _ => True
  end.
Proof.
  intros Ht Hb E. assert (is_commit operation = false) as Hc by (unfold is_commit; by rewrite Ht).
  destruct response as [| | | |room head| | | | | |reason]; try done.
  - simpl in E. destruct (bool_decide _ && _); [|done].
    apply complete_conflict_Ok in E as ->; [|done..].
    split_and!; [apply delete_outbox_row| |done|apply released_attempts].
    apply Forall_forall. intros h Hh. by apply list_elem_of_filter in Hh as [? _].
  - destruct reason; try (injection E as _ <-; done);
      (apply complete_rejected_Ok in E as ->; [split; [apply delete_outbox_row|done]|done..]).
Qed.

(** Alice's greeting is journalled, its plaintext is in the history, and the relay says
    that she is no member of the room. *)
Definition greeting : Append.t :=
  Append.Mk cave 0 1 MlsContentType.Application (event_authenticated_data cave hello_id 0 ++ [x68; x69]) None.
Definition greeting_client : Client :=
  client_with (insert_history hello_id cave 1 alice [x68; x69]
    (insert_outbox hello_id (lit "Delivery") [x00] alice_db)) [].
Definition greeting_refused : Client :=
  (complete alice hello_id (Request.AppendRoomOperation greeting) (Response.Rejected Rejection.Unauthorized)
     calm greeting_client).2.

Lemma failed_sends_are_settled_witness :
  between (store greeting_client) ∧
  outbox_row hello_id (durable (store greeting_refused)) = None ∧
  history_rows (durable (store greeting_refused)) = [MkHistoryRow 1 hello_id cave 1 alice [x68; x69]].
Proof.
  assert (between (store greeting_client)) as Hb by (by left). split; [exact Hb|].
  assert ((complete alice hello_id (Request.AppendRoomOperation greeting)
    (Response.Rejected Rejection.Unauthorized) calm greeting_client).1 = Ok tt) as E1 by (vm_compute; reflexivity).
  destruct (failed_sends_are_settled alice hello_id greeting (Response.Rejected Rejection.Unauthorized) calm
    greeting_client tt _ eq_refl Hb (pair_of_fst _ _ E1)) as (Ho & _ & Hh).
  split; [exact Ho|]. exact (eq_trans Hh eq_refl).
Defined.
