(* ===== verification/ClientConnectProps.v ===== *)
(** * Properties of the client's connection

    What the pin file keeps, and what a TLS connection to a relay has checked and has not. *)
From S2P Require Import Prelude Bytes Text Postcard PostcardRef Protocol Wire Identifiers Transcripts Framing.
From S2P Require Import Crypto PrivateFiles ClientCommands ClientStore ClientContacts ClientMls ClientDelivery ClientConnect.

(** ** Text that grows at its end *)

Lemma utf8_prefix s : ∀ t l, utf8 t = utf8 s ++ l → ∃ r, t = s ++ r ∧ utf8 r = l.
Proof.
  induction s as [|c s IH]; intros t l E; [by exists t|].
  destruct t as [|d t].
  { pose proof (length_utf8_char c) as Hl. apply (f_equal length) in E.
    unfold utf8 in E. rewrite bind_cons, !length_app in E. simpl in E. lia. }
  unfold utf8 in E. rewrite !bind_cons in E. fold (utf8 t) (utf8 s) in E. rewrite <- (assoc_L (++)) in E.
  pose proof (utf8_next_char d (utf8 t)) as Hd. rewrite E, utf8_next_char in Hd. injection Hd as -> Hd.
  symmetry in Hd. destruct (IH t l Hd) as (r & -> & Hr). by exists r.
Qed.
Lemma from_utf8_app s l t : from_utf8 (utf8 s ++ l) = Some t → ∃ r, t = s ++ r.
Proof. intros E%from_utf8_sound. apply utf8_prefix in E as (r & -> & _). by exists r. Qed.

Definition complete_text (s : str) : Prop := s = [] ∨ last s = Some newline.

Lemma lines_from_app p t : ∀ line,
  lines_from line ((p ++ [newline]) ++ t) = lines_from line (p ++ [newline]) ++ lines t.
Proof.
  induction p as [|c p IH]; intros line; simpl; [done|]. case_match; [|apply IH]. simpl. f_equal. apply IH.
Qed.
Lemma lines_app s t : complete_text s → lines (s ++ t) = lines s ++ lines t.
Proof.
  intros [->|Hs]; [done|]. apply last_Some in Hs as [p ->]. apply lines_from_app.
Qed.

Lemma find_pin_app addr l k : find_pin addr (l ++ k) =
  match find_pin addr l with Some x => Some x | None => find_pin addr k end.
Proof. induction l as [|line l IH]; simpl; [done|].
  destruct (split_whitespace line) as [|first rest]; [done|]. by case_decide.
Qed.

(** A record as it is written. *)
Definition pin_record (addr fp : str) : str := addr ++ lit " " ++ fp ++ [newline].

Lemma lines_word w : ∀ line s, word w → lines_from line (w ++ s) = lines_from (line ++ w) s.
Proof.
  intros line s [_ Hw]. revert line. induction Hw as [|c w Hc Hw IH]; intros line; simpl; [by rewrite app_nil_r|].
  destruct (Z.eqb_spec (code c) 10) as [E|E].
  - exfalso. unfold is_whitespace in Hc. by rewrite E in Hc.
  - rewrite IH. by rewrite <- (assoc_L (++)).
Qed.
Lemma strip_cr_solid p w : word w → strip_cr (p ++ w) = p ++ w.
Proof.
  intros [Hne Hw]. destruct w as [|c w _] using rev_ind; [done|]. apply Forall_app in Hw as [_ Hw].
  inversion_clear Hw as [|? ? Hc _]. unfold strip_cr. rewrite (assoc_L (++)), rev_unit.
  destruct (Z.eqb_spec (code c) 13) as [E|]; [|done]. unfold is_whitespace in Hc. by rewrite E in Hc.
Qed.
Lemma lines_record addr fp : word addr → word fp → lines (pin_record addr fp) = [addr ++ lit " " ++ fp].
Proof.
  intros Ha Hf. unfold pin_record, lines. rewrite lines_word by done. simpl app at 1.
  change (lit " " ++ fp ++ [newline]) with (Char 32 I :: (fp ++ [newline])).
  cbn [lines_from]. change (code (Char 32 I) =? 10) with false. cbv iota.
  rewrite lines_word by done. cbn [lines_from]. change (code newline =? 10) with true. cbv iota.
  rewrite strip_cr_solid by done. by rewrite <- (assoc_L (++)).
Qed.
Lemma find_record addr fp : word addr → word fp →
  find_pin addr (lines (pin_record addr fp)) = Some (Some fp).
Proof.
  intros Ha Hf. rewrite lines_record by done. simpl find_pin.
  change (lit " " ++ fp) with (Char 32 I :: fp). rewrite split_word_space, split_word by done.
  by rewrite decide_True.
Qed.

(** ** The file *)

(** What a file promises: from now on, only this fingerprint passes for the address. *)
Definition pinned_in (file : list byte) (addr fp : str) : Prop :=
  ∃ s, from_utf8 file = Some s ∧ complete_text s ∧ find_pin addr (lines s) = Some (Some fp).

Lemma ensure_appends fault file addr fp : ∃ l, (ensure_pinned fault file addr fp).2 = file ++ l.
Proof.
  assert (∀ f : list byte, ∃ l, f = f ++ l) as Hid by (intros f; exists []; by rewrite app_nil_r).
  unfold ensure_pinned. repeat (case_match; simpl; try apply Hid); simpl; eauto.
Qed.

Lemma ensure_Ok fault file addr fp b file' : word addr → word fp →
  ensure_pinned fault file addr fp = (Ok b, file') →
  pinned_in file' addr fp ∧ (b = false ∧ file' = file ∨ b = true ∧ file' = file ++ utf8 (pin_record addr fp)).
Proof.
  intros Ha Hf. unfold ensure_pinned. do 2 (case_decide; [done|]).
  destruct (from_utf8 file) as [s|] eqn:Es; [|done].
  destruct (negb (bool_decide (s = [])) && _) eqn:Ec; [done|].
  assert (complete_text s) as Hs.
  { unfold complete_text. destruct (bool_decide (s = [])) eqn:E1; [left; by apply bool_decide_eq_true in E1|].
    simpl in Ec. apply negb_false_iff, bool_decide_eq_true in Ec. by right. }
  destruct (negb (forallb pin_line_ok (lines s))); [done|].
  destruct (find_pin addr (lines s)) as [[pinned|]|] eqn:Ef; [|done|].
  - destruct (decide (pinned = fp)) as [->|]; [|done]. intros [= <- <-]. split; [by exists s|by left].
  - destruct (decide (_ > _)%Z); [done|]. destruct fault as [[|k]|]; [done|done|]. intros [= <- <-]. split; [|by right].
    apply from_utf8_sound in Es. subst file. exists (s ++ pin_record addr fp). split_and!.
    + unfold utf8. rewrite <- bind_app. apply from_utf8_utf8.
    + right. unfold pin_record. rewrite !(assoc_L (++)). by rewrite last_snoc.
    + rewrite lines_app, find_pin_app, Ef by done. by apply find_record.
Qed.

Lemma pinned_stays file l addr fp fault fp' b file' :
  pinned_in file addr fp → ensure_pinned fault (file ++ l) addr fp' = (Ok b, file') →
  fp' = fp ∧ b = false ∧ file' = file ++ l.
Proof.
  intros (s & Es & Hs & Hp). unfold ensure_pinned. do 2 (case_decide; [done|]).
  destruct (from_utf8 (file ++ l)) as [t|] eqn:Et; [|done].
  assert (file = utf8 s) as -> by by apply from_utf8_sound in Es. apply from_utf8_app in Et as (r & ->).
  case_match; [done|]. case_match; [done|]. rewrite lines_app, find_pin_app, Hp by done.
  destruct (decide (fp = fp')) as [->|]; [|done]. by intros [= <- <-].
Qed.

(** Later calls, for any address, with any failure. *)
Definition pin_calls (calls : list (option PinFault * str * str)) (file : list byte) : list byte :=
  foldl (λ file call, (ensure_pinned call.1.1 file call.1.2 call.2).2) file calls.

Lemma pin_calls_append calls : ∀ file, ∃ l, pin_calls calls file = file ++ l.
Proof.
  induction calls as [|call calls IH]; intros file; simpl; [exists []; by rewrite app_nil_r|].
  destruct (ensure_appends call.1.1 file call.1.2 call.2) as [l El]. rewrite El.
  destruct (IH (file ++ l)) as [k Ek]. exists (l ++ k). unfold pin_calls in *. by rewrite Ek, (assoc_L (++)).
Qed.

(** What [ensure_pinned] accepts once, it accepts from then on, and nothing else. *)
Lemma pins_stay fault file addr fp b file' :
  word addr → word fp → ensure_pinned fault file addr fp = (Ok b, file') →
  (b = false ∧ file' = file ∨ b = true ∧ file' = file ++ utf8 (pin_record addr fp)) ∧
  ∀ calls, (∃ l, pin_calls calls file' = file' ++ l) ∧
    ∀ fault' fp' b' file'',
      ensure_pinned fault' (pin_calls calls file') addr fp' = (Ok b', file'') →
      fp' = fp ∧ b' = false ∧ file'' = pin_calls calls file'.
Proof.
  intros Ha Hf [Hp Hb]%ensure_Ok; [|done..]. split; [done|]. intros calls.
  destruct (pin_calls_append calls file') as [l El]. split; [by exists l|].
  intros fault' fp' b' file''. rewrite El. by apply pinned_stays.
Qed.

(** What has been pinned passes again. *)
Lemma pin_record_ok addr (digest : bytes 32) : word addr →
  forallb pin_line_ok (lines (pin_record addr (ascii_str (hex_string digest)))) = true.
Proof.
  intros Ha. rewrite lines_record by first [done|apply word_id]. cbn [forallb]. unfold pin_line_ok.
  change (lit " " ++ ?fp) with (Char 32 I :: fp). rewrite split_word_space, split_word by first [done|apply word_id].
  by rewrite parse_fingerprint_hex_text.
Qed.
Lemma complete_text_guard s : complete_text s →
  negb (bool_decide (s = [])) && negb (bool_decide (last s = Some newline)) = false.
Proof. intros [->|E]; [done|]. rewrite (bool_decide_true (last s = _)) by done. by rewrite andb_false_r. Qed.
Lemma guard_complete s :
  negb (bool_decide (s = [])) && negb (bool_decide (last s = Some newline)) = false → complete_text s.
Proof. rewrite andb_false_iff, !negb_false_iff, !bool_decide_eq_true. done. Qed.
Lemma ensure_found s addr fp : len (utf8 s) ≤ 64 * 1024 → complete_text s →
  forallb pin_line_ok (lines s) = true → find_pin addr (lines s) = Some (Some fp) →
  ensure_pinned None (utf8 s) addr fp = (Ok false, utf8 s).
Proof.
  intros Hl Hs Hok Hp. unfold ensure_pinned. rewrite decide_False by done. rewrite decide_False by lia.
  by rewrite from_utf8_utf8, complete_text_guard, Hok, Hp, decide_True.
Qed.
Lemma ensure_sizes fault file addr fp b file' : ensure_pinned fault file addr fp = (Ok b, file') →
  len file ≤ 64 * 1024 ∧ ∃ s, file = utf8 s ∧ complete_text s ∧ forallb pin_line_ok (lines s) = true ∧
    (b = true → str_len s + str_len (pin_record addr fp) ≤ 64 * 1024).
Proof.
  intros E. destruct fault as [[|n]|]; [done|..]; unfold ensure_pinned in E; rewrite decide_False in E by done;
    (destruct (decide (len file > _)) as [|Hl]; [done|]); (split; [lia|]);
    destruct (from_utf8 file) as [s|] eqn:Es; try done; exists s; apply from_utf8_sound in Es;
    (destruct (negb (bool_decide (s = [])) && _) eqn:Ec; [done|]);
    destruct (forallb pin_line_ok (lines s)); try done; cbn [negb] in E; (split; [done|]); (split; [by apply guard_complete|]);
    (split; [done|]); destruct (find_pin addr (lines s)) as [[pinned|]|];
    repeat (case_decide; try done); simplify_eq; intros; try done; unfold pin_record; lia.
Qed.
Lemma pinned_again fault file addr (digest : bytes 32) b file' :
  word addr → ensure_pinned fault file addr (ascii_str (hex_string digest)) = (Ok b, file') →
  ensure_pinned None file' addr (ascii_str (hex_string digest)) = (Ok false, file').
Proof.
  intros Ha E. pose proof E as [(t & Et & Ht & Hp) Hb]%ensure_Ok; [|done|apply word_id].
  apply from_utf8_sound in Et. apply ensure_sizes in E as (Hl & s & -> & Hs & Hok & Hlen).
  destruct Hb as [[-> ->]|[-> ->]]; [apply utf8_inj in Et as ->; by apply ensure_found|].
  replace (utf8 s ++ _) with (utf8 (s ++ pin_record addr (ascii_str (hex_string digest)))) in * by apply utf8_app.
  apply utf8_inj in Et as ->. apply ensure_found; [|done| |done].
  - rewrite utf8_app, len_app. by apply Hlen.
  - rewrite lines_app, forallb_app, Hok, pin_record_ok by done. done.
Qed.

(** ** The relay's certificate *)

(** The certificates of a handshake. *)
Definition certificate_of (call : VerifierCall) : option (list byte) :=
  match call with ServerCert cert => Some cert | _ => None end.
Definition certificates (calls : list VerifierCall) : list (list byte) := omap certificate_of calls.

Lemma verifier_calls_Ok {E} calls : ∀ captured,
  verifier_calls captured calls =@{result E _} Ok (match last (certificates calls) with Some c => Some c | None => captured end).
Proof.
  induction calls as [|call calls IH]; intros captured; [done|].
  destruct call as [cert|message cert dss|message cert dss]; simpl; rewrite IH; try done.
  unfold certificates. simpl. rewrite last_cons. by destruct (last _).
Qed.

Lemma fingerprint_hex `{Sha256} cert fp : cert_fingerprint_sha256_hex cert = Some fp → fp = ascii_str (hex_string (sha256 cert)).
Proof. unfold cert_fingerprint_sha256_hex. rewrite fingerprint_digits_hex. by intros [= <-]. Qed.
Lemma fingerprint_word `{Sha256} cert fp : cert_fingerprint_sha256_hex cert = Some fp → word fp.
Proof. intros ->%fingerprint_hex. apply word_id. Qed.

Section tls.
Context `{Sha256} (lowercase_of : char → str) (server_name : str → bool).
Abbreviation connects := (tls_connect lowercase_of server_name).

Lemma tls_connect_Ok variable vars addr handshake fault pins fp newly pins' :
  connects variable vars addr handshake fault pins = (Ok (fp, newly), pins') →
  ∃ calls cert, handshake = Ok calls ∧ last (certificates calls) = Some cert ∧ cert_fingerprint_sha256_hex cert = Some fp ∧
    server_name (host_of addr) = true ∧
    match variable with
    | Some v => is_ok (parse_fingerprint_hex (to_lowercase lowercase_of (trim v))) = true ∧
        to_lowercase lowercase_of (trim v) = fp ∧ newly = false ∧ pins' = pins
    | None => is_Some (pin_file vars) ∧ ensure_pinned fault pins addr fp = (Ok newly, pins')
    end.
Proof.
  unfold tls_connect. destruct (server_name _); simpl; [|done]. destruct handshake as [calls|]; [|done].
  cbn [mbind result_bind]. rewrite verifier_calls_Ok. simpl.
  destruct (last (certificates calls)) as [cert|] eqn:Es; [|done].
  destruct (cert_fingerprint_sha256_hex cert) as [fp'|] eqn:Ef; [|done]. destruct variable as [v|].
  - destruct (is_ok _) eqn:Hok; simpl; [|done]. destruct (decide (_ ≠ _)) as [|Hv]; [done|]. intros [= <- <- <-].
    exists calls, cert. apply dec_stable in Hv. done.
  - destruct (pin_file vars) eqn:Hp; [|done]. destruct (ensure_pinned _ _ _ _) as [[b|e] f] eqn:Ep; [|done].
    intros [= <- <- <-]. eauto 10.
Qed.
End tls.

(** C24: a client uses a connection only when the other side has shown the certificate the
    client knows. When [tls_connect] succeeds, the fingerprint is that of the certificate
    shown last in the handshake; where the user has given a
    fingerprint it is that one, and no file is touched; otherwise it is the one on record
    for the address, or the first, whose record is appended. From then on, after any calls
    for any addresses, even ones whose write breaks off anywhere, a connection to this
    address that consults the records succeeds only with this fingerprint, and leaves the
    file as it is; nothing in the file is ever changed. *)
Theorem relay_certificates_are_pinned `{Sha256} lowercase_of server_name variable vars addr handshake fault pins fp newly pins' :
  word addr → tls_connect lowercase_of server_name variable vars addr handshake fault pins = (Ok (fp, newly), pins') →
  (∃ calls cert, handshake = Ok calls ∧ last (certificates calls) = Some cert ∧ cert_fingerprint_sha256_hex cert = Some fp) ∧
  match variable with
  | Some v => to_lowercase lowercase_of (trim v) = fp ∧ newly = false ∧ pins' = pins
  | None =>
      (newly = false ∧ pins' = pins ∨ newly = true ∧ pins' = pins ++ utf8 (pin_record addr fp)) ∧
      ∀ calls, (∃ l, pin_calls calls pins' = pins' ++ l) ∧
        ∀ vars2 handshake2 fault2 fp2 newly2 pins2,
          tls_connect lowercase_of server_name None vars2 addr handshake2 fault2 (pin_calls calls pins') = (Ok (fp2, newly2), pins2) →
          fp2 = fp ∧ newly2 = false ∧ pins2 = pin_calls calls pins'
  end.
Proof.
  intros Ha (calls & cert & Eh & Ec & Ef & _ & Hv)%tls_connect_Ok. split; [eauto|]. destruct variable; [exact (proj2 Hv)|].
  destruct Hv as [_ Hv]. apply pins_stay in Hv as [Hb Hk]; [|done|by eapply fingerprint_word]. split; [done|].
  intros later. destruct (Hk later) as [Hl Hn]. split; [done|]. intros vars2 handshake2 fault2 fp2 newly2 pins2 E.
  apply tls_connect_Ok in E as (calls2 & cert2 & _ & _ & _ & _ & _ & E). eauto.
Qed.

(** A relay met for the first time, then one with another certificate at its address. *)
#[local] Instance demo_hash : Sha256 := λ l, vreplicate 32 (default x00 (head l)).
Definition relay_address : str := lit "127.0.0.1:8080".
Definition with_home (name : string) : option Path := if decide (name = "HOME") then Some (MkPath true []) else None.
Definition meet (calls : list VerifierCall) (pins : list byte) : result TlsFailure (str * bool) * list byte :=
  tls_connect (λ c, [c]) (λ _, true) None with_home relay_address (Ok calls) None pins.
Definition fingerprint_aa : str := ascii_str (hex_string (vreplicate 32 xaa)).
Definition shows (cert signature : list byte) : list VerifierCall := [ServerCert cert; Tls13Signature [x01] cert signature].

Lemma relay_certificates_are_pinned_witness :
  (meet (shows [xaa] [x02]) []).1 = Ok (fingerprint_aa, true) ∧
  (meet (shows [xaa] [x02]) (meet (shows [xaa] [x02]) []).2).1 = Ok (fingerprint_aa, false) ∧
  ∀ fp b pins, meet (shows [xbb] [x03]) (meet (shows [xaa] [x02]) []).2 = (Ok (fp, b), pins) → fp = fingerprint_aa.
Proof.
  assert ((meet (shows [xaa] [x02]) []).1 = Ok (fingerprint_aa, true)) as E by (vm_compute; reflexivity).
  split; [exact E|]. split; [vm_compute; reflexivity|]. intros fp b pins E2.
  assert (word relay_address) as Ha by (apply word_literal; vm_compute; reflexivity).
  destruct (relay_certificates_are_pinned (λ c, [c]) (λ _, true) None with_home relay_address (Ok (shows [xaa] [x02])) None []
    fingerprint_aa true _ Ha (pair_of_fst _ _ E)) as (_ & _ & Hk).
  exact (proj1 (proj2 (Hk []) with_home (Ok (shows [xbb] [x03])) None fp b pins E2)).
Defined.

(** C25: the certificate is all that is checked. A relay's certificate is public: it is the
    first thing the relay sends to anyone who connects. What shows that the peer holds the
    key of the certificate is its signature over the handshake, and the verifier accepts
    any: once a client has connected to a relay and pinned it, or has been given its
    fingerprint, every peer that shows a copy of the relay's certificate, with whatever
    signatures over whatever messages, passes as that relay, and the pins stay as they
    are. *)
Theorem handshake_signatures_are_ignored `{Sha256} lowercase_of server_name variable vars addr calls fault pins fp newly pins'
    impostor :
  word addr → tls_connect lowercase_of server_name variable vars addr (Ok calls) fault pins = (Ok (fp, newly), pins') →
  last (certificates impostor) = last (certificates calls) →
  tls_connect lowercase_of server_name variable vars addr (Ok impostor) None pins' = (Ok (fp, false), pins').
Proof.
  intros Ha (? & cert & [= <-] & Ec & Ef & Hs & Hv)%tls_connect_Ok Hi. rewrite Ec in Hi.
  unfold tls_connect. rewrite Hs. cbn [negb mbind result_bind]. rewrite verifier_calls_Ok, Hi. cbn [take_captured fst].
  rewrite Ef. destruct variable as [v|].
  - destruct Hv as (Hok & <- & -> & ->). cbv zeta. rewrite Hok. cbn [negb]. by rewrite decide_False by (by intros []).
  - destruct Hv as [[path ->] Hv]. apply fingerprint_hex in Ef as ->. by rewrite (pinned_again _ _ _ _ _ _ Ha Hv).
Qed.

(** The relay signs with its key; the impostor has only the certificate. *)
Lemma handshake_signatures_are_ignored_witness :
  meet [ServerCert [xaa]; Tls13Signature [x07] [xaa] []] (meet (shows [xaa] [x02]) []).2 =
  (Ok (fingerprint_aa, false), (meet (shows [xaa] [x02]) []).2).
Proof.
  assert ((meet (shows [xaa] [x02]) []).1 = Ok (fingerprint_aa, true)) as E by (vm_compute; reflexivity).
  assert (word relay_address) as Ha by (apply word_literal; vm_compute; reflexivity).
  exact (handshake_signatures_are_ignored (λ c, [c]) (λ _, true) None with_home relay_address (shows [xaa] [x02]) None []
    fingerprint_aa true _ [ServerCert [xaa]; Tls13Signature [x07] [xaa] []] Ha (pair_of_fst _ _ E) eq_refl).
Defined.
