(* ===== verification/ClientServiceProps.v ===== *)
(** * Properties of the client's process

    Start-up, offline commands, sessions and reconnections together keep the journal, and
    the loop that reconnects waits within its bounds. *)
From S2P Require Import Prelude Bytes Text Postcard PostcardRef Protocol Wire Identifiers Transcripts Framing Crypto.
From S2P Require Import PrivateFiles PrivateFilesProps ClientCommands ClientStore ClientContacts ClientMls ClientDelivery ClientConnect ClientSync ClientService.
From S2P Require Import ClientTx ClientJournal ClientRuns ClientEngine ClientDemo ClientProps.

(** Tables are sound when their journal is sound for the user they belong to, and for
    whoever they will belong to while they hold no identity. *)
Definition owned_by (user : UserId) (d : ClientDb) : Prop :=
  ∀ x, transport_identity d = Some x → x.1 = user.
Definition sound_tables `{Postcard} (d : ClientDb) : Prop := ∀ user, owned_by user d → journal_inv user d.

Lemma fresh_tables_sound `{Postcard} : sound_tables fresh_db.
Proof. intros user _. apply fresh_db_inv. Qed.

Section process.
Context `{Postcard} `{Sha256} `{Ed25519Signer} `{Mls}.
#[local] Set Default Proof Using "Type*".

(** Between two of the process's programs. *)
Definition process_ok (c : Client) : Prop := between (store c) ∧ sound_tables (durable (store c)).

Lemma owned_by_grows user d d' : grows d d' → owned_by user d' → owned_by user d.
Proof. intros Hg Ho x Hx. apply Ho. by apply (grows_identity _ _ Hg). Qed.

(** Programs that keep the journal of any user. *)
Definition keeps {A} (m : ClientM A) : Prop := ∀ user, triple user (λ _, True) m (λ _ _, True).

Lemma sound_user c : process_ok c → ∃ user, good user c.
Proof.
  intros [Hb Hs]. destruct (transport_identity (durable (store c))) as [[user sd]|] eqn:E.
  - exists user. split; [done|]. apply Hs. intros x. rewrite E. by intros [= <-].
  - exists (MkUserId (vreplicate 16 x00)). split; [done|]. apply Hs. intros x. by rewrite E.
Qed.

Lemma keeps_process {A} (m : ClientM A) w c :
  keeps m → process_ok c → process_ok (m w c).2 ∧ grows (durable (store c)) (durable (store (m w c).2)).
Proof.
  intros Hm Hc. destruct (sound_user c Hc) as [user Hg]. destruct (Hm user w c Hg I) as ([Hb _] & Hgr & _).
  split; [|done]. split; [done|]. intros u Hu. destruct (Hm u w c) as ([_ Hi] & _); [|done|done].
  split; [apply Hc|]. apply Hc. by eapply owned_by_grows.
Qed.

Lemma is_identity_grows id d d' : grows d d' → is_identity id d → is_identity id d'.
Proof. intros Hg. apply (grows_identity _ _ Hg). Qed.

Lemma process_good id c : process_ok c → is_identity id (durable (store c)) → good (user_id id) c.
Proof. intros [Hb Hs] Hid. split; [done|]. apply Hs. intros x. rewrite Hid. by intros [= <-]. Qed.
Lemma good_process id c : good (user_id id) c → is_identity id (durable (store c)) → process_ok c.
Proof. intros [Hb Hi] Hid. split; [done|]. intros user Hu. by rewrite <- (Hu _ Hid). Qed.

(** ** Start-up *)

Variable generate_key_material : list byte → option (list byte * list byte).

(** [save_mls_identity] holds the lock for both of its statements. *)
Lemma save_keys_relocks public secret w s :
  save_mls_identity public secret w s =
  (existing ← (lock;; select mls_identity);
   when (match existing with
         | Some keys => negb (bool_decide (keys = (public, secret)))
         | None => false
         end) (throw (InvalidData "MLS identity replacement is unsupported"));;
   lock;; update (λ d, Some (set_mls_identity (λ o, Some (default (public, secret) o)) d))) w s.
Proof.
  unfold save_mls_identity, mbind, StoreM_bind. pose proof (lock_state w s) as Hl.
  destruct (lock w s) as [[[]|e] s1] eqn:El; simpl in Hl; subst s1; [|done].
  unfold select, sql. destruct (sql_fails w (ticks s)); [done|]. simpl.
  set (s1 := with_db _ _). assert (lock w s1 = (Ok tt, s1)) as E1.
  { unfold lock in *. simpl. by case_matches; simplify_eq. }
  destruct (when _ _ w s1) as [[u|e] s2] eqn:Ew; [|done].
  assert (s2 = s1) as -> by (unfold when in Ew; case_match; [done|by injection Ew]). by rewrite E1.
Qed.

Lemma keeps_save_keys public secret : keeps (on_store (save_mls_identity public secret)).
Proof.
  intros user. eapply triple_ext.
  { intros w c. unfold on_store. rewrite save_keys_relocks. reflexivity. }
  eapply triple_store_bind; [apply kept_still; walk|intros ?].
  eapply triple_store_bind; [apply kept_still; walk|intros ?].
  apply triple_update. intros d d' [A1 B1 C1 D1 E1 F1] _ [= <-]. split_and!; [by split|split|done]; try done.
  - intros r0 Hr0. exists r0. by repeat split.
  - simpl. eauto with lia.
  - intros x Hx. simpl. by rewrite Hx.
Qed.

Lemma keeps_load_keys : keeps (load_or_create_keys generate_key_material).
Proof.
  intros user. unfold load_or_create_keys. eapply triple_bind; [apply kept_still; walk|intros [keys|]].
  - by apply triple_ret.
  - eapply triple_bind; [apply kept_still; walk|intros ?]. eapply triple_bind; [apply kept_still; walk|intros ?].
    eapply triple_bind; [apply keeps_save_keys|intros ?]. by apply triple_ret.
Qed.

Lemma keeps_startup mls_path : keeps (startup generate_key_material mls_path).
Proof.
  intros user. unfold startup.
  eapply triple_bind; [apply kept_identity|intros id]. eapply triple_bind; [apply keeps_load_keys|intros ?].
  eapply (triple_bind user _ (λ _ _, True)); [destruct mls_path; [apply triple_fail|by apply triple_ret]|intros ?].
  eapply triple_bind; [apply kept_own|intros card]. eapply triple_bind; [apply kept_still; unfold show_fingerprint; walk|intros ?].
  eapply triple_bind; [apply kept_import|intros ?]. by apply triple_ret.
Qed.

Lemma keeps_offline card arguments : keeps (offline card arguments).
Proof.
  intros user. unfold offline. destruct arguments as [|option [|text [|fingerprint [|x l]]]]; try apply triple_fail.
  - by apply triple_ret.
  - case_decide; [|apply triple_fail]. apply kept_still. unfold show_fingerprint. walk.
  - case_decide; [|apply triple_fail]. eapply triple_bind; [apply kept_still; walk|intros ?].
    eapply triple_bind; [apply kept_import|intros ?]. apply kept_still. walk.
Qed.

(** The identity that start-up returns stays that of the tables. *)
Lemma keeps_identity {A} id (m : ClientM A) user :
  keeps m → triple user (is_identity id) m (λ _, is_identity id).
Proof.
  intros Hm. eapply triple_conseq; [apply (triple_frame user (is_identity id)); [|apply Hm]|done|by intros ? ? []].
  intros d d'. apply is_identity_grows.
Qed.
Lemma startup_identity mls_path user :
  triple user (λ _, True) (startup generate_key_material mls_path) (λ r, is_identity r.1).
Proof.
  unfold startup. eapply triple_bind; [apply triple_identity|intros id].
  eapply triple_bind; [apply keeps_identity, keeps_load_keys|intros ?].
  eapply triple_bind; [apply (keeps_identity id (if mls_path then _ else _)); intros u; destruct mls_path;
                       [apply triple_fail|by apply triple_ret]|intros ?].
  eapply triple_bind; [apply keeps_identity; intros u; apply kept_own|intros card].
  eapply triple_bind; [apply keeps_identity; intros u; apply kept_still; unfold show_fingerprint; walk|intros fp].
  eapply triple_bind; [apply keeps_identity; intros u; apply kept_import|intros ?]. by apply triple_ret.
Qed.

(** Start-up fails for good: none of its errors is one to retry after. *)
Definition hard {A} (m : ClientM A) : Prop := ∀ w c e, (m w c).1 = Err e → retryable e = false.

Lemma hard_bind {A B} (m : ClientM A) (k : A → ClientM B) : hard m → (∀ a, hard (k a)) → hard (m ≫= k).
Proof.
  intros Hm Hk w c e. unfold mbind, ClientM_bind. specialize (Hm w c).
  destruct (m w c) as [[a|e1] c1]; [apply Hk|]. by intros [= <-]; apply Hm.
Qed.
Lemma hard_store {A} (m : StoreM A) : hard (on_store m).
Proof. intros w c e. unfold on_store. destruct (m w (store c)) as [[a|e1] s]; by intros [= <-]. Qed.
Lemma hard_ok_or {A} e (o : option A) : retryable e = false → hard (lift (ok_or e o)).
Proof. intros He w c e'. destruct o; by intros [= <-]. Qed.

Lemma hard_refuse {A} what : hard (A := A) (refuse what).
Proof. intros w c e. by intros [= <-]. Qed.

Ltac hards := repeat first
  [ apply hard_store | apply hard_refuse | apply hard_ok_or; reflexivity
  | lazymatch goal with
    | |- hard (_ ≫= _) => apply hard_bind; [|intros ?]
    | |- hard (match ?x with _ => _ end) => destruct x
    | |- hard _ => solve [by intros ???]
    end ].

Lemma hard_start mls_path arguments : hard (started ← startup generate_key_material mls_path;
  going ← offline started.2 arguments; mret (started.1, going)).
Proof. unfold startup, load_or_create_keys, offline, show_fingerprint. hards. Qed.

(** ** The loop *)

Lemma session_good id token a w c : good (user_id id) c →
  good (user_id id) (session id token a w c).2 ∧
  grows (durable (store c)) (durable (store (session id token a w c).2)).
Proof.
  intros Hg. unfold session. destruct (reached a) as [s|]; [|done].
  destruct (connect id token s) as [[u|e] s']; [|done]. unfold serve_on.
  set (c0 := set_groups _ _). destruct (kept_run (user_id id) (session_turns a) w c0 Hg I) as (? & ? & _). done.
Qed.

Lemma backoff_bounds delay elapsed byte : 1 ≤ delay ≤ 30 →
  ∃ millis next, backoff delay elapsed byte = Some (millis, next) ∧ 1000 ≤ millis ≤ 30000 ∧ 1 ≤ next ≤ 30.
Proof.
  intros Hd. unfold backoff. set (d := if _ <? _ then 1 else delay).
  assert (1 ≤ d ≤ 30) by (unfold d; case_match; lia). pose proof (b2z_range byte).
  rewrite decide_True by (unfold u64_max; nia). do 2 eexists. split; [done|]. nia.
Qed.

Lemma service_spec id token l : ∀ delay w c r waits c',
  1 ≤ delay ≤ 30 → good (user_id id) c → service id token delay l w c = (r, waits, c') →
  good (user_id id) c' ∧ grows (durable (store c)) (durable (store c')) ∧
  Forall (λ m, 1000 ≤ m ≤ 30000) waits ∧
  (∀ e, r = Some (Err e) → retryable e = false) ∧ (r = None → length waits = length l).
Proof.
  induction l as [|a l IH]; intros delay w c r waits c' Hd Hg E; cbn [service] in E.
  { by injection E as <- <- <-. }
  destruct (session_good id token a w c Hg) as [Hg1 Hgr1].
  destruct (session id token a w c) as [[u|e] c1]; [by injection E as <- <- <-|]. simpl in Hg1, Hgr1.
  destruct (retryable e) eqn:Er; simpl in E; [|injection E as <- <- <-; split_and!; try done; by intros ? [= <-]].
  destruct (input_ended a); [by injection E as <- <- <-|].
  destruct (jitter a) as [byte|]; [|injection E as <- <- <-; split_and!; try done; by intros ? [= <-]].
  destruct (backoff_bounds delay (elapsed_nanos a) byte Hd) as (millis & next & Eb & Hm & Hn). rewrite Eb in E.
  destruct (service id token next l w c1) as [[r1 waits1] c2] eqn:Es. injection E as <- <- <-.
  destruct (IH _ _ _ _ _ _ Hn Hg1 Es) as (? & ? & ? & ? & Hl). split_and!; [done|by etrans|by constructor|done|].
  intros E1. simpl. by rewrite Hl.
Qed.
End process.

Lemma run_opened_spec `{Postcard} `{Sha256} `{Ed25519Signer} `{Mls}
    generate_key_material arguments mls_path token l w c r waits c' :
  process_ok c → run_opened generate_key_material arguments mls_path token l w c = (r, waits, c') →
  process_ok c' ∧ grows (durable (store c)) (durable (store c')) ∧
  Forall (λ m, 1000 ≤ m ≤ 30000) waits ∧
  (∀ e, r = Some (Err e) → retryable e = false) ∧ (r = None → length waits = length l).
Proof.
  intros Hc. unfold run_opened. set (start := started ← _; _).
  assert (keeps start) as Hk.
  { intros user. eapply triple_bind; [apply keeps_startup|intros ?].
    eapply triple_bind; [apply keeps_offline|intros ?]. by apply triple_ret. }
  assert (∀ user, triple user (λ _, True) start (λ x, is_identity x.1)) as Hid.
  { intros user. eapply triple_bind; [apply startup_identity|intros started].
    eapply triple_bind; [apply keeps_identity, keeps_offline|intros ?]. by apply triple_ret. }
  destruct (keeps_process start w c Hk Hc) as [Hc1 Hgr1]. destruct (sound_user c Hc) as [user Hg].
  destruct (Hid user w c Hg I) as (_ & _ & Hid1). pose proof (hard_start generate_key_material mls_path arguments w c) as He.
  fold start in He. destruct (start w c) as [[[id []]|e] c1]; simpl in *.
  - intros E. apply service_spec in E as (Hg2 & Hgr2 & ? & ? & ?); [|lia|by apply process_good].
    split_and!; [|by etrans|done..]. apply (good_process id); [done|]. by eapply is_identity_grows.
  - by intros [= <- <- <-].
  - intros [= <- <- <-]. split_and!; try done. intros e' [= <-]. by apply He.
Qed.

(** ** The store's file *)

Definition ours (file : StoreFile) : Prop := file_version file = SCHEMA_VERSION ∧ file_application file = APPLICATION_ID.
(** A file that holds no database yet. *)
Definition empty_file (file : StoreFile) : Prop := file_version file = 0 ∧ file_application file = 0 ∧ file_objects file = 0.
Definition sound_file `{Postcard} (file : StoreFile) : Prop := ours file → sound_tables (file_tables file).

Lemma initialize_store_Ok `{Postcard} file file' : sound_file file → initialize_store file = Ok file' →
  ours file' ∧ sound_tables (file_tables file') ∧ (ours file → file' = file) ∧ (ours file ∨ empty_file file).
Proof.
  unfold sound_file, initialize_store, ours, empty_file. intros Hs. destruct (_ && _) eqn:E1.
  - intros [= <-]. apply andb_true_iff in E1 as [E1%Z.eqb_eq E2%Z.eqb_eq]. split_and!; auto.
  - destruct (_ || _) eqn:E; [done|]. intros [= <-]. split_and!; [done|done|apply fresh_tables_sound| |].
    + intros [E2%Z.eqb_eq E3%Z.eqb_eq]. by rewrite E2, E3 in E1.
    + right. reflect_bools. tauto.
Qed.

Lemma legacy_looks parent l : looks (legacy_found parent l).
Proof. induction l; cbn [legacy_found]; files. Qed.

Lemma open_store_spec `{Postcard} budget opens path os fs file r fs' file' : sound_file file →
  open_store budget opens path os fs file = (r, fs', file') →
  only_adds os fs fs' ∧ sound_file file' ∧
  (file' = file ∨ ours file' ∧ (ours file ∨ empty_file file) ∧ (ours file → file' = file)) ∧
  ∀ s, r = Ok s → ours file' ∧ db s = file_tables file' ∧ saved s = None ∧ owner s = None ∧
    (∃ p, open_locked path os fs = (Ok p, fs')).
Proof.
  intros Hs. unfold open_store. pose proof (only_adding_open_locked path os fs) as Ha.
  destruct (open_locked path os fs) as [[p|k] fs1]; [|intros [= <- <- <-]; by split_and!; auto].
  destruct opens; simpl; [|intros [= <- <- <-]; by split_and!; auto].
  destruct (initialize_store file) as [f|] eqn:Ei; [|intros [= <- <- <-]; by split_and!; auto].
  apply initialize_store_Ok in Ei as (Ho & Ht & Hf & Hold); [|done]. intros [= <- <- <-]. split_and!; [done|by intros _|auto|].
  intros s. destruct (new_data_limit_of budget); [|done]. intros [= <-]. split_and!; eauto.
Qed.

(** C18: a client's process keeps its journal from start to end: through opening its
    private store, start-up, which finds or creates the identity, the offline commands, and
    any number of sessions, lost connections and reconnections, whatever the relay, the
    network, the files and the database do. A store that is not of this version is left
    alone, unless it is empty. In one that is, received events with their settled states,
    contacts and the two identities stay (nothing is said of the other tables, whose rows
    come and go with requests and groups), a room's cursor moves on over settled events
    only, and the journal stays sound for the user it belongs to: events are told apart by
    id and by place, none above its room's cursor is settled, there is no gap from a
    settled event up to the cursor, and every message of the history that is not the
    user's own is an applied event of its room by its author. Among the other files
    nothing that exists is changed. The process ends with an error only when it is none to
    retry after; between two attempts it waits one to thirty seconds; and while it goes on
    it has retried after every lost connection. *)
Theorem client_processes_keep_the_journal `{Postcard} `{Sha256} `{Ed25519Signer} `{Mls}
    generate_key_material arguments l e fs file r waits fs' file' :
  sound_file file → run_inner generate_key_material arguments l e fs file = (r, waits, fs', file') →
  only_adds (machine e) fs fs' ∧ sound_file file' ∧
  (file' = file ∨
    ours file' ∧ (ours file ∨ empty_file file) ∧ (ours file → grows (file_tables file) (file_tables file'))) ∧
  Forall (λ m, 1000 ≤ m ≤ 30000) waits ∧
  (∀ err, r = Some (Err err) → retryable err = false) ∧ (r = None → length waits = length l).
Proof.
  intros Hs. unfold run_inner.
  assert (∀ x fs1, retryable x = false → only_adds (machine e) fs fs1 → (Some (Err x), [], fs1, file) = (r, waits, fs', file') →
    only_adds (machine e) fs fs' ∧ sound_file file' ∧ (file' = file ∨ ours file' ∧ (ours file ∨ empty_file file) ∧ (ours file → grows (file_tables file) (file_tables file'))) ∧
    Forall (λ m, 1000 ≤ m ≤ 30000) waits ∧ (∀ err, r = Some (Err err) → retryable err = false) ∧
    (r = None → length waits = length l)) as Hstop.
  { intros x fs1 Hx Ha [= <- <- <- <-]. split_and!; [done|done|by left|done|by intros ? [= <-]|done]. }
  case_decide; [intros [= <- <- <- <-]; by split_and!; auto|].
  destruct (default_store_path (path_variables e)) as [default_path|]; [|by apply Hstop].
  set (path := default default_path _).
  destruct (match names path with [] => _ | _ => _ end) as [legacy fs1] eqn:El.
  assert (only_adds (machine e) fs fs1) as Ha1.
  { apply same_adds. destruct (names path) as [|x q]; [by injection El as _ <-|].
    pose proof (legacy_looks (MkPath (is_absolute path) q) legacy_names (machine e) fs) as Hl. by rewrite El in Hl. }
  destruct legacy as [[]|]; [by apply Hstop| |by apply Hstop].
  destruct (open_store _ _ path _ fs1 file) as [[r0 fs2] file2] eqn:Eo.
  apply open_store_spec in Eo as (Ha2 & Hs2 & Hf2 & Hok); [|done]. destruct r0 as [s|err]; cycle 1.
  { intros [= <- <- <- <-]. split_and!; [by etrans|done| |done|by intros ? [= <-]|done].
    destruct Hf2 as [->|(? & ? & Hf)]; [by left|right; split_and!; [done|done|]]. by intros ->%Hf. }
  destruct (Hok s eq_refl) as (Ho & Hdb & Hsv & How & _). set (c := MkClient s _ _ _ _ _ _ _).
  assert (durable s = file_tables file2) as Hd by (unfold durable; by rewrite Hsv).
  destruct (run_opened _ _ _ _ _ _ c) as [[r1 waits1] c'] eqn:Er. intros [= <- <- <- <-].
  apply run_opened_spec in Er as ([_ Hs'] & Hgr & Hw & He & Hn); [|split; [by left|]; simpl; rewrite Hd; by apply Hs2].
  simpl in Hgr. rewrite Hd in Hgr. split_and!; [by etrans|by intros _| |done..]. right. simpl.
  split_and!; [done| |].
  - destruct Hf2 as [->|(_ & ? & _)]; [by left|done].
  - intros Ho'. destruct Hf2 as [->|(_ & _ & Hf)]; [done|]. by rewrite <- (Hf Ho').
Qed.

(** Alice's process: the relay is out of reach twice, the second time after a minute,
    and then refuses her. *)
Definition lost (elapsed : Z) : Attempt := MkAttempt (Err (IoFailed ConnectionRefused)) [] elapsed false (Some x10).
Definition refused : Attempt := MkAttempt (Err (ProtocolFailed ProtocolError.AuthenticationFailed)) [] 0 false (Some x10).
Definition alice_attempts : list Attempt := [lost 0; lost 0; lost 60000000000; refused].

Definition alice_file : StoreFile := MkStoreFile SCHEMA_VERSION APPLICATION_ID 19 alice_db.
Definition alice_process : ProcessEnv :=
  MkProcessEnv (λ name, if decide (name = "HOME") then Some (MkPath true home) else None) None false None home_os true calm.
Definition alice_run : option (result ClientError ()) * list Z * Files * StoreFile :=
  run_inner (λ _, None) [] alice_attempts alice_process home_files alice_file.

Lemma client_processes_keep_the_journal_witness :
  alice_run.1.1 = (Some (Err (ProtocolFailed ProtocolError.AuthenticationFailed)), [1032; 2064; 1032]) ∧
  sound_file alice_run.2 ∧ only_adds home_os home_files alice_run.1.2.
Proof.
  assert (sound_file alice_file) as Hs.
  { intros _ user Hu. rewrite <- (Hu (alice, alice_seed) eq_refl). exact alice_db_inv. }
  split; [vm_compute; reflexivity|]. destruct alice_run as [[[r waits] fs'] file'] eqn:E.
  destruct (client_processes_keep_the_journal _ _ _ _ _ _ _ _ _ _ Hs E) as (H1 & H2 & _).
  split; [exact H2|exact H1].
Defined.
