(* ===== verification/Handshake.v ===== *)
(** * The handshake between client and relay

    [connect] of the client (src/crates/grotto-client/src/lib.rs) against [authenticate]
    of the relay (src/crates/grotto-relay/src/lib.rs): each end's output is the other
    end's input. *)
From S2P Require Import Prelude Bytes Text Postcard PostcardRef Protocol Wire Identifiers Transcripts Framing.
From S2P Require Import Crypto ClientStore ClientMls ClientConnect ClientDemo.
From S2P Require Import RelayHub RelayStorage RelayLimits RelayRate RelayDelivery Enrollment.
From S2P Require Import RelayConnection RelayDemo EnrollmentProps RelayConnectionProps RelaySessions RelayHub.

Section ends.
Context `{Postcard} `{Ed25519Signer}.

Definition sound (s : Socket) : Prop := faultless (socket_in s) ∧ fails_after (socket_out s) = None.

Lemma socket_bind_run {A B} (m : SocketM A) (k : A → SocketM B) s a s1 : m s = (Ok a, s1) → (m ≫= k) s = k a s1.
Proof. intros E. unfold mbind, SocketM_bind. by rewrite E. Qed.

Lemma write_message_runs m s : sound s → len (put c_client_message m) ≤ MAX_PAYLOAD →
  ∃ s', write_message m s = (Ok tt, s') ∧ sound s' ∧ socket_in s' = socket_in s ∧
    written (socket_out s') = written (socket_out s) ++ client_frames [m].
Proof.
  intros [Hi Ho] Hl. unfold write_message. rewrite encode_message_fits by done.
  rewrite (socket_bind_run _ _ s (put c_client_message m) s) by done. unfold write_socket.
  rewrite write_frame_ok by first [done|unfold MAX_PAYLOAD, MAX_FRAME_SIZE in *; lia].
  eexists. split; [done|]. unfold client_frames. rewrite bind_singleton. by split_and!.
Qed.

Lemma read_message_runs m rest s : sound s → valid c_relay_message m → len (put c_relay_message m) ≤ MAX_PAYLOAD →
  contents (socket_in s) = relay_frames [m] ++ rest →
  ∃ s', read_message s = (Ok m, s') ∧ sound s' ∧ contents (socket_in s') = rest ∧ socket_out s' = socket_out s.
Proof.
  intros [Hi Ho] Hv Hl Hc. unfold relay_frames in Hc. rewrite bind_singleton in Hc.
  destruct (read_frame_bytes (put c_relay_message m) rest (socket_in s)) as (i & Hr & Hs & Hf);
    [unfold MAX_PAYLOAD, MAX_FRAME_SIZE in *; lia|done|done|].
  exists (MkSocket i (socket_out s)). split; [|by split_and!]. unfold read_message.
  rewrite (socket_bind_run _ _ s (put c_relay_message m) (MkSocket i (socket_out s)))
    by (unfold read_socket; by rewrite Hr).
  unfold from_outcome. by rewrite (decode_encode_message c_relay_message m) by (done || by apply encode_message_fits).
Qed.

(** One message each way. *)
Lemma exchange_runs {A} m r rest (k : RelayMessage.t → SocketM A) s :
  sound s → len (put c_client_message m) ≤ MAX_PAYLOAD → valid c_relay_message r →
  len (put c_relay_message r) ≤ MAX_PAYLOAD → contents (socket_in s) = relay_frames [r] ++ rest →
  ∃ s', (write_message m;; read_message ≫= k) s = k r s' ∧ sound s' ∧
    contents (socket_in s') = rest ∧ written (socket_out s') = written (socket_out s) ++ client_frames [m].
Proof.
  intros Hs Hm Hv Hr Hc. destruct (write_message_runs m s Hs Hm) as (s1 & E1 & Hs1 & Hi1 & Ho1).
  rewrite <- Hi1 in Hc. destruct (read_message_runs r rest s1 Hs1 Hv Hr Hc) as (s2 & E2 & Hs2 & Hi2 & Ho2).
  exists s2. rewrite (socket_bind_run _ _ _ _ _ E1), (socket_bind_run _ _ _ _ _ E2), Ho2. done.
Qed.

(** The messages of the two ends. *)
Definition client_says (id : ClientIdentity) (enrollment : option (bytes 32)) (transcript : list byte)
    : list ClientMessage.t :=
  [ClientMessage.ClientHello PROTOCOL_VERSION;
   ClientMessage.ClientIdentify (user_id id) (public_key_of id) enrollment;
   ClientMessage.ClientAuthenticationResponse (MkSignature (sign (seed id) transcript))].
Definition relay_says (id : ClientIdentity) (challenge : AuthenticationChallenge) : list RelayMessage.t :=
  [RelayMessage.ServerHello PROTOCOL_VERSION;
   RelayMessage.ServerAuthenticationChallenge challenge;
   RelayMessage.ServerIdentifyAccepted (user_id id)].

Lemma relay_frames_cons m ms : relay_frames (m :: ms) = relay_frames [m] ++ relay_frames ms.
Proof. unfold relay_frames. by rewrite bind_cons, bind_singleton. Qed.
Lemma client_frames_cons m ms : client_frames (m :: ms) = client_frames [m] ++ client_frames ms.
Proof. unfold client_frames. by rewrite bind_cons, bind_singleton. Qed.

(** An exchange whose answer is the expected one. *)
Ltac run_exchange m r rest :=
  match goal with
  | Hs : sound ?s |- context [read_message ≫= ?k] =>
      destruct (exchange_runs m r rest k s Hs) as (s' & E & Hs' & Hi & Ho);
      [..|exists s'; rewrite E; split_and!; [by rewrite ?decide_True|done|done|done]]; try done
  end.

Lemma exchange_hello_runs rest s :
  sound s → contents (socket_in s) = relay_frames [RelayMessage.ServerHello PROTOCOL_VERSION] ++ rest →
  ∃ s', exchange_hello s = (Ok tt, s') ∧ sound s' ∧ contents (socket_in s') = rest ∧
    written (socket_out s') = written (socket_out s) ++ client_frames [ClientMessage.ClientHello PROTOCOL_VERSION].
Proof.
  intros Hs Hc. unfold exchange_hello.
  run_exchange (ClientMessage.ClientHello PROTOCOL_VERSION) (RelayMessage.ServerHello PROTOCOL_VERSION) rest;
    apply small_hello.
Qed.
Lemma exchange_identity_runs user key enrollment challenge rest s :
  sound s → contents (socket_in s) = relay_frames [RelayMessage.ServerAuthenticationChallenge challenge] ++ rest →
  ∃ s', exchange_identity user key enrollment s = (Ok challenge, s') ∧ sound s' ∧ contents (socket_in s') = rest ∧
    written (socket_out s') = written (socket_out s) ++ client_frames [ClientMessage.ClientIdentify user key enrollment].
Proof.
  intros Hs Hc. destruct (small_fixed user challenge (MkSignature (vreplicate 64 x00))) as (_ & Hch & _).
  unfold exchange_identity.
  run_exchange (ClientMessage.ClientIdentify user key enrollment)
    (RelayMessage.ServerAuthenticationChallenge challenge) rest. apply small_identify.
Qed.
Lemma exchange_signature_runs user signature rest s :
  sound s → contents (socket_in s) = relay_frames [RelayMessage.ServerIdentifyAccepted user] ++ rest →
  ∃ s', exchange_signature user signature s = (Ok tt, s') ∧ sound s' ∧ contents (socket_in s') = rest ∧
    written (socket_out s') = written (socket_out s) ++ client_frames [ClientMessage.ClientAuthenticationResponse signature].
Proof.
  intros Hs Hc. destruct (small_fixed user (MkChallenge (vreplicate 32 x00)) signature) as (H1' & _ & H3').
  unfold exchange_signature.
  run_exchange (ClientMessage.ClientAuthenticationResponse signature) (RelayMessage.ServerIdentifyAccepted user) rest.
Qed.

Lemma connect_runs id token enrollment challenge transcript rest s :
  sound s → enrollment_of token = Ok enrollment →
  authentication_transcript PROTOCOL_VERSION (user_id id) (public_key_of id) challenge = Some transcript →
  contents (socket_in s) = relay_frames (relay_says id challenge) ++ rest →
  ∃ s', connect id token s = (Ok tt, s') ∧ sound s' ∧ contents (socket_in s') = rest ∧
    written (socket_out s') = written (socket_out s) ++ client_frames (client_says id enrollment transcript).
Proof.
  intros Hs He Ht Hc. unfold relay_says in Hc.
  rewrite (relay_frames_cons (RelayMessage.ServerHello _)), <- (assoc_L (++)) in Hc.
  rewrite (relay_frames_cons (RelayMessage.ServerAuthenticationChallenge _)), <- (assoc_L (++)) in Hc.
  destruct (exchange_hello_runs _ s Hs Hc) as (s1 & E1 & Hs1 & Hi1 & Ho1).
  destruct (exchange_identity_runs (user_id id) (public_key_of id) enrollment _ _ s1 Hs1 Hi1) as (s2 & E2 & Hs2 & Hi2 & Ho2).
  destruct (exchange_signature_runs (user_id id) (MkSignature (sign (seed id) transcript)) _ s2 Hs2 Hi2)
    as (s3 & E3 & Hs3 & Hi3 & Ho3).
  exists s3. split_and!; [|done|done|].
  - unfold connect. rewrite (socket_bind_run _ _ _ _ _ E1).
    rewrite (socket_bind_run _ _ s1 enrollment s1) by (unfold from_outcome; by rewrite He).
    rewrite (socket_bind_run _ _ _ _ _ E2).
    rewrite (socket_bind_run _ _ s2 transcript s2) by (unfold from_outcome; by rewrite Ht). done.
  - rewrite Ho3, Ho2, Ho1. unfold client_says.
    by rewrite (client_frames_cons _ [_; _]), (client_frames_cons _ [_]), !(assoc_L (++)).
Qed.
End ends.

(** C14: the two ends of the protocol understand each other. Take any identity of a client,
    with or without an enrollment token, and a relay that knows it or can enroll it, has
    no other session of it, and draws some challenge; let the transports work and cut
    their bytes as they like, and let each end receive what the other sends: the client
    [relay_says], the relay [client_says], whose last message is signed over that
    challenge. Then [authenticate] establishes the session of that user and sends exactly
    [relay_says], [connect] succeeds and sends exactly [client_says], and each end stops
    reading exactly behind the other's three messages. *)
Theorem handshake_completes `{Postcard} `{Sha256} `{Ed25519Signer} env c id token enrollment generated transcript
    reg db' m' s from_client from_relay :
  (∀ n, cancelled env n = None) → worker env = Answers → challenge_bytes_of env = Some generated →
  ready c → sound s → enrollment_of token = Ok enrollment →
  authentication_transcript PROTOCOL_VERSION (user_id id) (public_key_of id) (MkChallenge generated) = Some transcript →
  register_enrolled_identity (user_id id) (public_key_of id) enrollment (storage_env env) (relay_db c)
    (storage_metrics c) = (Ok reg, db', m') →
  user_id id ∉ active_identities (relay_hub c) →
  contents (input c) = client_frames (client_says id enrollment transcript) ++ from_client →
  contents (socket_in s) = relay_frames (relay_says id (MkChallenge generated)) ++ from_relay →
  ∃ registration receiver c' s',
    authenticate env c = (Ok (Some (user_id id, registration, receiver)), c') ∧
    contents (input c') = from_client ∧ relay_db c' = db' ∧
    written (output c') = written (output c) ++ relay_frames (relay_says id (MkChallenge generated)) ∧
    connect id token s = (Ok tt, s') ∧ contents (socket_in s') = from_relay ∧
    written (socket_out s') = written (socket_out s) ++ client_frames (client_says id enrollment transcript).
Proof.
  intros Hcalm Hw Hg Hr Hs He Ht Hreg Hu Hc Hsock.
  destruct (connect_runs id token enrollment (MkChallenge generated) transcript from_relay s)
    as (s' & E & _ & Hi & Ho); [done..|].
  edestruct (client_accepted env c (user_id id) (public_key_of id) enrollment generated transcript)
    as (registration & receiver & c' & Ea & Hin & Hdb & Hout); [done..|apply verifying_key_valid|done|apply sign_verifies| |done|].
  { done. }
  exists registration, receiver, c', s'. split_and!; [exact Ea|done|done|exact Hout|exact E|done|exact Ho].
Qed.

(** Alice, whom the relay knows, connects; her messages and the relay's arrive in one
    piece each. *)
Definition alice_identity : ClientIdentity := MkIdentity RelayDemo.alice (public_key_bytes alice_key).
Definition alice_challenge : AuthenticationChallenge := MkChallenge (vreplicate 32 x5c).
Definition alice_transcript : list byte :=
  default [] (authentication_transcript PROTOCOL_VERSION (user_id alice_identity) (public_key_of alice_identity) alice_challenge).
Definition meeting_conn : Conn :=
  MkConn (push_back (client_frames (client_says alice_identity None alice_transcript)) []) (Writer [] None)
    db_enrolled demo_metrics default_hub ∅ 0 0 0 0.
Definition meeting_socket : Socket :=
  MkSocket (push_back (relay_frames (relay_says alice_identity alice_challenge)) []) (Writer [] None).

Lemma handshake_completes_witness :
  ∃ registration receiver c' s',
    authenticate demo_conn_env meeting_conn = (Ok (Some (RelayDemo.alice, registration, receiver)), c') ∧
    connect alice_identity None meeting_socket = (Ok tt, s').
Proof.
  destruct (@handshake_completes _ demo_sha256 toy_ed25519 toy_signer demo_conn_env meeting_conn alice_identity None None
    (vreplicate 32 x5c) alice_transcript Existing db_enrolled demo_metrics meeting_socket [] [])
    as (registration & receiver & c' & s' & Ea & _ & _ & _ & Ec & _).
  - intros n. reflexivity.
  - reflexivity.
  - reflexivity.
  - split; [|reflexivity]. vm_compute. repeat constructor.
  - split; [|reflexivity]. vm_compute. repeat constructor.
  - reflexivity.
  - vm_compute. reflexivity.
  - vm_compute. reflexivity.
  - apply not_elem_of_empty.
  - vm_compute. reflexivity.
  - vm_compute. reflexivity.
  - exists registration, receiver, c', s'. exact (conj Ea Ec).
Defined.
