(* ===== verification/EndToEnd.v ===== *)
(** * A request, from the client to the relay and back

    [request] of the client (src/crates/grotto-client/src/delivery.rs) against the session
    loop and [deliver] of the relay (src/crates/grotto-relay/src/lib.rs and delivery.rs):
    what one end writes is what the other reads. *)
From S2P Require Import Prelude Bytes Text Postcard PostcardRef Protocol Wire Identifiers Transcripts Framing.
From S2P Require Import Crypto ClientStore ClientMls ClientDelivery ClientDemo.
From S2P Require Import RelayStorage RelayLimits RelayRate RelayDelivery RelaySpec Enrollment RelayConnection RelayInvariant Sizes.
From S2P Require Import RelayRun RelayHistory RelayDemo RelayProps RelayAccess EnrollmentProps RelaySessions.
From S2P Require Import RelayConnectionProps RelayServe Handshake RelayHub.

(** ** The relay's answer *)

Section answers.
Context `{Postcard} `{Sha256}.

Lemma delivery_size id response :
  len (put c_relay_message (RelayMessage.Delivery id response)) = 17 + len (put c_response response).
Proof.
  change (put c_relay_message (RelayMessage.Delivery id response))
    with (z2b 100 :: put c_message_id id ++ put c_response response).
  rewrite len_cons, len_app, len_put_message. lia.
Qed.

Lemma event_row_size row : event_row_ok row → len (event_record row) ≤ MAX_PAYLOAD - 100.
Proof.
  intros (op & Hv & Hi & Hr). rewrite Hr. cbn [event_record event_row].
  assert (valid c_event (Event.Mk (event_id row) (event_sender row) op)) as Hve by (split; [by split|done]).
  pose proof (len_put_event _ Hve) as Hl. cbn [Event.operation] in Hl.
  unfold append_invalid in Hi. apply orb_false_iff in Hi as [_ Hi]. apply bool_decide_eq_false in Hi.
  unfold welcome_len in Hl. destruct (Append.welcome op); lia.
Qed.

(** A saved answer fits a message. *)
Lemma saved_answer_fits limits db key row request response id :
  reachable limits db → delivery_requests db !! key = Some row → row_answers row request response →
  valid c_response response ∧ len (put c_relay_message (RelayMessage.Delivery id response)) ≤ MAX_PAYLOAD.
Proof.
  intros Hr Hrow Ha. rewrite delivery_size.
  destruct (journal_inv_reachable limits db Hr _ _ Hrow) as (req & resp & _ & Hv & -> & Hlen & _ & Hresp).
  destruct Ha as [[_ ->]|[_ Hdec]]; [split; [done|by vm_compute]|].
  apply decode_put_response in Hdec as ->; [|done..]. split; [done|].
  destruct resp as [room|count| |event|room head|? ? ? ?|? ?|? ? ?|recipient package| |reason]; try done.
  - change (put c_response _) with (z2b 0 :: put c_room_id room). rewrite len_cons, len_put_room. unfold MAX_PAYLOAD. lia.
  - change (put c_response _) with (z2b 1 :: put c_u64 count). rewrite len_cons. pose proof (len_put_u64 count Hv).
    unfold MAX_PAYLOAD. lia.
  - change (put c_response _) with (z2b 3 :: put c_event event). rewrite len_cons.
    destruct Hresp as (_ & -> & Hin). pose proof (log_rows db (data_log db (data_inv_reachable limits db Hr))) as Hrows.
    rewrite Forall_forall in Hrows. apply Hrows, event_row_size in Hin. cbn [event_record event_row Event.operation] in Hin. lia.
  - change (put c_response _) with (z2b 4 :: put c_room_id room ++ put c_u64 head). rewrite len_cons, len_app, len_put_room.
    destruct Hv as [_ Hh]. pose proof (len_put_u64 head Hh). unfold MAX_PAYLOAD. lia.
  - change (put c_response _) with (z2b 8 :: put c_user_id recipient ++ put c_package package).
    rewrite len_cons, len_app, len_put_user. destruct Hv as (_ & Hp & _). unfold c_package.
    rewrite len_put_bytes. pose proof (len_nonneg package). pose proof (varint_length W64 (len package) 3).
    unfold MAX_PAYLOAD. lia.
Qed.
End answers.

(** ** A turn of the session that answers *)

Section serving.
Context `{Postcard} `{Sha256} `{Ed25519}.

Lemma send_turn_runs env (Hcalm : ∀ n, cancelled env n = None) (m : RelayMessage.t) c :
  ready c → len (put c_relay_message m) ≤ MAX_PAYLOAD →
  ∃ c', (encoded ← encode_relay m; sent ← or_break (send_frame encoded);
         mret (match sent with Some _ => true | None => false end)) env c = (Ok true, c') ∧
    relay_db c' = relay_db c ∧ written (output c') = written (output c) ++ relay_frames [m].
Proof.
  intros Hr Hl. destruct (send_runs env Hcalm m c Hr Hl) as (c' & E & _ & _ & Hw & Hs).
  unfold send_message in E. apply conn_bind_inv in E as [(l & c1 & E1 & E)|(e & _ & ?)]; [|done].
  exists c'. unfold shared in Hs. injection Hs as Hdb _ _ _. split; [|done].
  erewrite conn_bind_run by exact E1. erewrite conn_bind_run by (unfold or_break; by rewrite E). done.
Qed.

Lemma serve_delivery_runs user id r env c response db' m' :
  (∀ n, cancelled env n = None) → worker env = Answers → ready c →
  (rate_admit (config env) (instant env) user (rates c)).1 = true →
  deliver (storage_limits env) user id r (storage_env env) (relay_db c) (storage_metrics c) = (Ok response, db', m') →
  len (put c_relay_message (RelayMessage.Delivery id response)) ≤ MAX_PAYLOAD →
  ∃ c', serve_delivery user id r env c = (Ok true, c') ∧ relay_db c' = db' ∧
    written (output c') = written (output c) ++ relay_frames [RelayMessage.Delivery id response].
Proof.
  intros Hcalm Hw Hr Hadmit Hd Hl. unfold serve_delivery, admit_session_request.
  destruct (rate_admit _ _ _ _) as [admitted rates'] eqn:Er. simpl in Hadmit. subst admitted.
  rewrite (conn_bind_run _ _ env c true (set_rates rates' c)) by (by rewrite Er). cbn [negb].
  rewrite (conn_bind_run _ _ env _ (storage_limits env) (set_rates rates' c)) by done.
  set (c2 := next_await (set_storage db' m' (set_rates rates' c))).
  rewrite (conn_bind_run _ _ env _ (Some (Ok (Ok response))) c2); cycle 1.
  { unfold or_break, worker_execute, run_command. rewrite Hw. cbn [relay_db storage_metrics set_rates].
    by rewrite Hd, Hcalm. }
  rewrite (conn_bind_run _ _ env _ response c2) by done.
  destruct (announce response env c2) as [u c3] eqn:Ea. pose proof (announce_inv _ _ _ _ _ Ea) as (-> & Hdb & Ho & _).
  rewrite (conn_bind_run _ _ env _ _ _ Ea).
  assert (ready c3) as Hr3.
  { split; [|rewrite Ho; apply Hr]. destruct response; injection Ea as <-; apply Hr. }
  destruct (send_turn_runs env Hcalm (RelayMessage.Delivery id response) c3 Hr3 Hl) as (c' & E & Hdb' & Hw').
  exists c'. split; [exact E|]. rewrite Hdb', Hw', Hdb, Ho. done.
Qed.
End serving.

(** ** What the client makes of the relay's frames *)

Section client.
Context `{Postcard}.

Lemma read_client_frame_runs m rest s :
  faultless s → contents s = relay_frames [m] ++ rest → len (put c_relay_message m) ≤ MAX_PAYLOAD →
  ∃ s', read_client_frame s = (Ok (Some (put c_relay_message m)), s') ∧ faultless s' ∧ contents s' = rest.
Proof.
  intros Hf Hc Hl. unfold relay_frames in Hc. rewrite bind_singleton in Hc.
  assert (∃ b l, frame_bytes (put c_relay_message m) ++ rest = b :: l) as (b & l & Hb).
  { unfold frame_bytes. pose proof (length_be_bytes 4 (len (put c_relay_message m))).
    destruct (be_bytes 4 _) as [|b l]; [done|]. eexists _, _. done. }
  rewrite Hb in Hc. destruct (read_first_byte b l s Hf Hc) as (s1 & Hr & Hf1 & Hc1). rewrite <- Hb in Hc1.
  destruct (read_frame_bytes (put c_relay_message m) rest (Chunk b [] :: s1)) as (s2 & Hr2 & Hc2 & Hf2);
    [unfold MAX_PAYLOAD, MAX_FRAME_SIZE in *; lia|done|done|].
  exists s2. split; [|done]. unfold read_client_frame. by rewrite Hr, Hr2.
Qed.

(** Messages of the relay that the wire can carry. *)
Definition carried (m : RelayMessage.t) : Prop :=
  valid c_relay_message m ∧ len (put c_relay_message m) ≤ MAX_PAYLOAD.

Lemma decode_carried m : carried m → decode_message c_relay_message (put c_relay_message m) = Ok m.
Proof. intros [Hv Hl]. apply decode_encode_message; [done|by apply encode_message_fits]. Qed.

(** The reader task passes on the messages, and then what it makes of the rest. *)
Lemma reader_task_runs ms rest : ∀ s fuel events,
  faultless s → contents s = relay_frames ms ++ rest → Forall carried ms → reader_task fuel s = Some events →
  ∃ s' fuel' events', faultless s' ∧ contents s' = rest ∧ reader_task fuel' s' = Some events' ∧
    events = (Arrived ∘ put c_relay_message <$> ms) ++ events'.
Proof.
  induction ms as [|m ms IH]; intros s fuel events Hf Hc Hms E; [by eauto 10|].
  rewrite relay_frames_cons, <- (assoc_L (++)) in Hc. inversion Hms as [|? ? Hm Hms']; subst.
  destruct fuel as [|fuel]; [done|]. cbn [reader_task] in E.
  destruct (read_client_frame_runs m _ s Hf Hc (proj2 Hm)) as (s1 & E1 & Hf1 & Hc1).
  rewrite E1, (decode_carried m Hm) in E. apply fmap_Some in E as (events1 & E2 & ->).
  destruct (IH s1 fuel events1 Hf1 Hc1 Hms' E2) as (s' & fuel' & events' & ? & ? & ? & ->).
  exists s', fuel', events'. done.
Qed.

(** Notices before the answer are passed over. *)
Lemma await_runs id response rest w : ∀ n fuel c,
  carried (RelayMessage.Delivery id response) →
  incoming c = (Arrived ∘ put c_relay_message <$> replicate n RelayMessage.DeliveryChanged ++
                 [RelayMessage.Delivery id response]) ++ rest →
  (n < fuel)%nat →
  ∃ c', await_response fuel id w c = (Ok response, c') ∧ incoming c' = rest ∧
    ClientMls.output c' = ClientMls.output c ∧ store c' = store c.
Proof.
  induction n as [|n IH]; intros fuel c Hm Hi Hfuel; (destruct fuel as [|fuel]; [lia|]);
    cbn [await_response]; unfold mbind, ClientM_bind, receive_message; rewrite Hi; cbn [replicate fmap list_fmap app compose].
  - rewrite decode_carried by done. cbn [map_err]. rewrite decide_True by done. by eexists.
  - rewrite decode_carried by (split; [done|by vm_compute]). cbn [map_err].
    destruct (IH fuel (set_incoming ((Arrived ∘ put c_relay_message <$> replicate n RelayMessage.DeliveryChanged ++
      [RelayMessage.Delivery id response]) ++ rest) c) Hm eq_refl) as (c' & E & Hr & Ho & Hs); [lia|].
    exists c'. by rewrite E.
Qed.

Lemma request_runs id r response rest w c n :
  len (put c_client_message (ClientMessage.Delivery id r)) ≤ MAX_PAYLOAD →
  carried (RelayMessage.Delivery id response) →
  elapses w (ticks (store c)) = false → fails_after (ClientMls.output c) = None →
  incoming c = (Arrived ∘ put c_relay_message <$> replicate n RelayMessage.DeliveryChanged ++
                 [RelayMessage.Delivery id response]) ++ rest →
  ∃ c', request id r w c = (Ok response, c') ∧ incoming c' = rest ∧ durable (store c') = durable (store c) ∧
    written (ClientMls.output c') = written (ClientMls.output c) ++ client_frames [ClientMessage.Delivery id r].
Proof.
  intros Hl Hm Hw Ho Hi. unfold request, encode, send, write_out, on_store, observe.
  rewrite encode_message_fits by done. unfold mbind, ClientM_bind, ClientMls.lift, ClientMls.gets, ClientMls.guard.
  cbn [map_err]. rewrite Hw. cbn [negb mret]. unfold mret, ClientM_ret.
  cbn [ClientMls.output set_store]. rewrite write_frame_ok by first [done|unfold MAX_PAYLOAD, MAX_FRAME_SIZE in *; lia].
  set (c1 := ClientMls.set_output _ _).
  destruct (await_runs id response rest w n (S (length (incoming c1))) c1 Hm) as (c' & E & Hr & Ho' & Hs).
  - exact Hi.
  - change (incoming c1) with (incoming c). rewrite Hi, length_app, length_fmap, length_app, length_replicate. lia.
  - exists c'. rewrite E, Hr, Ho', Hs. split_and!; [done|done|done|].
    unfold client_frames. rewrite bind_singleton. done.
Qed.
End client.

(** ** Both ends *)

(** C16: a durable request takes effect once, and its answer arrives. Let a relay have
    given a durable request a final answer ([is_final]: an acknowledged receipt, or for
    another durable request any answer but a transient refusal; reads, and refusals for
    overload, quota or an internal error, are not meant and are evaluated anew), and let
    that answer have been lost with its connection. The relay goes on in any way; in a
    later session of the user, in which nothing fails and the rate limit admits the
    request, the client sends the same request again. Then the relay's reader finds that request behind whatever
    cutting of the stream and stops exactly behind it; the session answers it with
    exactly the first answer, and its database stays as it is, whatever happened in
    between; and the client's [request], whose reader task finds that answer in any
    cutting of the relay's stream behind any number of notices, writes exactly the one
    frame that the relay has read, returns the first answer, and leaves what the relay
    sends next for later. *)
Theorem requests_take_effect_once `{Postcard} `{Sha256} `{Ed25519} limits db user id r env m response db1 m1
    env2 conn receiver from_client later w k n from_relay rest fuel :
  reachable limits db → valid c_request r →
  len (put c_client_message (ClientMessage.Delivery id r)) ≤ MAX_PAYLOAD →
  deliver limits user id r env db m = (Ok response, db1, m1) → is_final r response = true →
  rtc (relay_step limits) db1 (relay_db conn) →
  storage_limits env2 = limits → healthy (storage_env env2) → (∀ n, cancelled env2 n = None) →
  worker env2 = Answers → ready conn → (rate_admit (config env2) (instant env2) user (rates conn)).1 = true →
  faultless from_client → contents from_client = client_frames [ClientMessage.Delivery id r] ++ later →
  faultless from_relay →
  contents from_relay = relay_frames (replicate n RelayMessage.DeliveryChanged ++ [RelayMessage.Delivery id response]) ++ rest →
  reader_task fuel from_relay = Some (incoming k) →
  elapses w (ticks (store k)) = false → fails_after (ClientMls.output k) = None →
  ∃ from_client' conn' k' from_relay' fuel',
    read_inbound from_client = (Message (ClientMessage.Delivery id r), from_client') ∧ contents from_client' = later ∧
    session_step user receiver (OnInbound (Some (Message (ClientMessage.Delivery id r)))) env2 conn = (Ok true, conn') ∧
    relay_db conn' = relay_db conn ∧
    written (output conn') = written (output conn) ++ relay_frames [RelayMessage.Delivery id response] ∧
    request id r w k = (Ok response, k') ∧
    written (ClientMls.output k') = written (ClientMls.output k) ++ client_frames [ClientMessage.Delivery id r] ∧
    contents from_relay' = rest ∧ reader_task fuel' from_relay' = Some (incoming k').
Proof.
  intros Hr Hv Hl Hd Hfinal Hsteps <- Henv Hcalm Hw Hready Hadmit Hfc Hcc Hfr Hcr Ht Hel Hout.
  destruct (final_saved _ _ _ _ _ _ _ _ _ _ Hr Hv Hd Hfinal) as (Hlr & row & Hrow & Hans).
  assert (reachable (storage_limits env2) (relay_db conn)) as Hr2.
  { unfold reachable in *. etrans; [exact Hr|]. etrans; [|exact Hsteps]. apply rtc_once. by eapply deliver_step. }
  apply reachable_kept, kept_journal in Hsteps. eapply lookup_weaken in Hrow; [|exact Hsteps].
  destruct (saved_answer_fits _ _ _ _ _ _ id Hr2 Hrow Hans) as [Hvr Hlr2].
  assert (carried (RelayMessage.Delivery id response)) as Hm by (split; [by split|done]).
  destruct (serve_delivery_runs user id r env2 conn response (relay_db conn) (storage_metrics conn)) as (conn' & Es & Hdb & Hwr);
    [done..|by eapply deliver_from_journal|done|].
  destruct (read_inbound_message (ClientMessage.Delivery id r) later from_client) as (fc' & Ein & _ & Hlater);
    [done|unfold client_frames in Hcc; by rewrite bind_singleton in Hcc|by split|done|].
  destruct (reader_task_runs (replicate n RelayMessage.DeliveryChanged ++ [RelayMessage.Delivery id response]) rest
    from_relay fuel (incoming k)) as (fr' & fuel' & events & _ & Hrest & Ht' & Hi); [done|done| |done|].
  { apply Forall_app. split; [|by constructor]. apply Forall_replicate. split; [done|by vm_compute]. }
  destruct (request_runs id r response events w k n Hl Hm Hel Hout Hi) as (k' & Er & <- & _ & Hwk).
  exists fc', conn', k', fr', fuel'. split_and!; done.
Qed.

(** Alice has created a room; Bob has been added when she asks again. *)
Definition asked : ClientMessage.t := ClientMessage.Delivery (attempt x01) create_cave.
Definition again_conn : Conn :=
  MkConn [] (Writer [] None) db_added demo_metrics default_hub ∅ 0 0 0 0.
Definition answer_stream : stream :=
  push_back (relay_frames [RelayMessage.DeliveryChanged; RelayMessage.Delivery (attempt x01) (Response.RoomCreated cave)]) [].
Definition asking : Client := ClientMls.set_incoming (default [] (reader_task 5 answer_stream)) alice_client.

Lemma requests_take_effect_once_witness :
  ∃ conn' k',
    session_step RelayDemo.alice 0%nat (OnInbound (Some (Message asked))) demo_conn_env again_conn = (Ok true, conn') ∧
    relay_db conn' = db_added ∧
    request (attempt x01) create_cave calm asking = (Ok (Response.RoomCreated cave), k').
Proof.
  destruct (demo_deliver RelayDemo.alice (attempt x01) create_cave empty_db) as [[r db'] m'] eqn:E.
  assert (r = Ok (Response.RoomCreated cave)) as ->.
  { apply (f_equal (fst ∘ fst)) in E. vm_compute in E. by symmetry. }
  assert (db' = db_created) as -> by (unfold db_created; by rewrite E).
  destruct (requests_take_effect_once demo_limits empty_db RelayDemo.alice (attempt x01) create_cave demo_env demo_metrics
    (Response.RoomCreated cave) db_created m' demo_conn_env again_conn 0%nat (push_back (client_frames [asked]) []) []
    calm asking 1 answer_stream [] 5) as (fc & conn' & k' & fr & fuel & _ & _ & Es & Hdb & _ & Er & _).
  - apply rtc_refl.
  - apply create_cave_valid.
  - by vm_compute.
  - exact E.
  - done.
  - apply rtc_once, demo_step, add_bob_valid.
  - done.
  - apply demo_healthy.
  - done.
  - done.
  - split; [constructor|done].
  - vm_compute. reflexivity.
  - vm_compute. repeat constructor.
  - vm_compute. reflexivity.
  - vm_compute. repeat constructor.
  - vm_compute. reflexivity.
  - vm_compute. reflexivity.
  - reflexivity.
  - reflexivity.
  - exists conn', k'. exact (conj Es (conj Hdb Er)).
Defined.
