(* ===== verification/ClientCacheProps.v ===== *)
(** * The cached groups are the stored ones

    The property of [ClientCache] for the whole life of a client's process, and an MLS
    library for which it can be seen at work. *)
From S2P Require Import Prelude Bytes Text Postcard PostcardRef Protocol Wire Identifiers Transcripts Framing.
From S2P Require Import Crypto ClientCommands ClientStore ClientContacts ClientMls ClientDelivery ClientConnect ClientSync ClientService.
From S2P Require Import ClientTx ClientJournal ClientRuns ClientEngine ClientEnds ClientCache ClientDemo.
From S2P Require Import RelayConnectionProps Handshake.

Section service.
Context `{Postcard} `{Sha256} `{Ed25519Signer} `{MlsLaws}.
#[local] Set Default Proof Using "Type*".

Lemma preserving_session id token a : along preserving (session id token a).
Proof.
  intros w c Hc. unfold session. destruct (reached a) as [s|e]; [|done].
  destruct (connect id token s) as [[u|e] s']; [|done]. unfold serve_on.
  apply (preserving_run (user_id id)). split; [apply Hc|apply map_Forall_empty].
Qed.

Lemma preserving_service id token l : ∀ delay w c, coherent c → coherent (service id token delay l w c).2.
Proof.
  induction l as [|a l IH]; intros delay w c Hc; [done|]. cbn [service].
  pose proof (preserving_session id token a w c Hc) as Hs. destruct (session id token a w c) as [[u|e] c1]; [done|].
  simpl in Hs. destruct (negb (retryable e)); [done|]. destruct (input_ended a); [done|].
  destruct (jitter a) as [b|]; [|done]. destruct (backoff delay (elapsed_nanos a) b) as [[millis delay']|]; [|done].
  specialize (IH delay' w c1 Hs). by destruct (service id token delay' l w c1) as [[r waits] c2].
Qed.

(** A healthy store loads what it holds. *)
Lemma load_runs room g w c :
  stored (store c) room g → poisoned (store c) = false → mutex_poisoned w = false → (∀ n, sql_fails w n = false) →
  (load_group (room_bytes room) w c).1 = Ok g.
Proof.
  intros (_ & data & Hl & Hd) Hp Hm Hw. unfold load_group, on_store, MlsStorage.state, mbind, ClientM_bind, StoreM_bind.
  unfold lock_provider, select, sql. rewrite Hp, Hm. simpl. rewrite Hw. simpl. rewrite Hl. simpl. by rewrite Hd.
Qed.
End service.

(** C19: the groups that a client keeps in memory are the ones it has stored. Let the
    process start without groups in memory, and with groups stored under their
    identifiers, as an empty store has them. Whatever the user types, the relay
    answers, the library produces and whichever statements, commits and rollbacks fail,
    across any number of sessions and reconnections: every group in memory is that of
    its room, and when no transaction is open, a client that crashes here and starts
    again loads exactly this group, with its keys and its pending commit. So no key of a
    group is used again after a restart because a step was not saved, and none is lost
    because a step was undone. *)
Theorem cached_groups_are_stored `{Postcard} `{Sha256} `{Ed25519Signer} `{MlsLaws} id token delay l w c r waits c' :
  keyed_store (store c) → groups c = ∅ → service id token delay l w c = (r, waits, c') →
  keyed_store (store c') ∧
  ∀ room g, groups c' !! room = Some g →
    group_id g = room_bytes room ∧
    (saved (store c') = None →
      ∀ w2 c2 limit, mutex_poisoned w2 = false → (∀ n, sql_fails w2 n = false) →
        store c2 = MkStore (durable (store c')) None None false 0 limit →
        (load_group (room_bytes room) w2 c2).1 = Ok g).
Proof.
  intros Hk Hg E. assert (coherent c) as Hc by (split; [done|rewrite Hg; apply map_Forall_empty]).
  apply (preserving_service id token l delay w) in Hc. rewrite E in Hc. destruct Hc as [Hk' Hc]. split; [done|].
  intros room g Hl. specialize (Hc room g Hl). split; [apply Hc|]. intros Hs w2 c2 limit Hm Hw Hc2.
  apply load_runs; [|by rewrite Hc2|done|done]. rewrite Hc2. unfold stored, durable. simpl. by rewrite Hs.
Qed.

(** The MLS library of [ClientDemo] keeps its promises. *)
#[export] Program Instance toy_laws : MlsLaws (H := toy_mls).
Next Obligation. done. Qed.
Next Obligation. intros g. by exists g. Qed.
Next Obligation. intros bits p room g [= <-]. apply take_ge. simpl. by rewrite length_vec_to_list. Qed.
Next Obligation. done. Qed.
Next Obligation.
  intros bits p g aad package. simpl. case_decide; [|done]. rewrite take_app_le, take_take by (rewrite length_take; lia).
  f_equal. 
Qed.
Next Obligation. intros p g. simpl. by rewrite take_take. Qed.
Next Obligation. intros g. simpl. by rewrite take_take. Qed.
Next Obligation. done. Qed.
Next Obligation. by intros bits m calls [= _ <-]. Qed.

(** Alice connects, receives Bob's message, and her input ends. *)
Definition cached_identity : ClientIdentity := MkIdentity alice alice_seed.
Definition cached_socket : Socket :=
  MkSocket (push_back (relay_frames (relay_says cached_identity alice_challenge ++ one_message)) []) (Writer [] None).
Definition cached_attempt : Attempt := MkAttempt (Ok cached_socket) [] 0 true None.
Definition before_session : Client := MkClient (store_with alice_db) ∅ (Writer [] None) [] [] 0 0 0.
Definition cached_run : option (result ClientError ()) * list Z * Client :=
  service cached_identity None 1 [cached_attempt] calm before_session.

Lemma triple_eta {A B C} (x : A * B * C) : x = (x.1.1, x.1.2, x.2).
Proof. by destruct x as [[a b] c]. Qed.

Lemma cached_groups_are_stored_witness :
  groups cached_run.2 !! cave = Some (vec_to_list (room_bytes cave)) ∧
  (load_group (room_bytes cave) calm (MkClient (store_with (durable (store cached_run.2))) ∅ (Writer [] None) [] [] 0 0 0)).1 =
    Ok (vec_to_list (room_bytes cave)).
Proof.
  assert (groups cached_run.2 !! cave = Some (vec_to_list (room_bytes cave))) as Hg by (vm_compute; reflexivity).
  split; [exact Hg|].
  assert (saved (store cached_run.2) = None) as Hs by (vm_compute; reflexivity).
  assert (keyed_store (store before_session)) as Hk.
  { split; [apply map_Forall_singleton; intros g [= <-]; vm_compute; reflexivity|intros d; discriminate]. }
  assert (service cached_identity None 1 [cached_attempt] calm before_session =
    (cached_run.1.1, cached_run.1.2, cached_run.2)) as E by (etrans; [|apply triple_eta]; unfold cached_run; reflexivity).
  revert Hg Hs E. generalize cached_run.1.1 cached_run.1.2 cached_run.2. intros r waits c' Hg Hs E.
  destruct (cached_groups_are_stored cached_identity None 1 [cached_attempt] calm before_session r waits c'
    Hk eq_refl E) as [_ Hl].
  apply (proj2 (Hl cave _ Hg) Hs) with (limit := 1024 * 1024 * 1024); reflexivity.
Defined.
