(* ===== verification/Agreement.v ===== *)
(** * Members agree on what was said

    The relay's answers (src/crates/grotto-relay/src/delivery.rs) report events at their
    places in its log; a client's journal (src/crates/grotto-client/src/delivery.rs)
    holds only events it was reported. So the journals of all members are parts of one
    sequence per room. *)
From S2P Require Import Prelude Bytes Text Postcard PostcardRef Protocol Wire Identifiers Transcripts Framing.
From S2P Require Import Crypto ClientCommands ClientStore ClientContacts ClientMls ClientDelivery ClientConnect ClientSync ClientService.
From S2P Require Import ClientTx ClientJournal ClientRuns ClientEngine ClientFollows ClientDemo ClientServiceProps.
From S2P Require Import RelayStorage RelayLimits RelayDelivery RelaySpec Enrollment RelayInvariant Sizes.
From S2P Require Import RelayRun RelayHistory RelayDemo RelayProps RelayAccess RelayPaging.
From S2P Require Import RelayConnectionProps Handshake ClientCacheProps.

(** ** The relay's answers *)

Section answers.
Context `{Postcard} `{Sha256}.

(** The event is in the log of its room, behind its parent. *)
Definition logged (db : RelayDb) (e : Event.t) : Prop :=
  log_of (room_of e) db !! Z.to_nat (parent_of e) = Some (Ok e).

Lemma row_logged db room row e :
  log_inv db → row ∈ room_events room db → decode_row row = Some e → logged db e.
Proof.
  intros Hl Hin Hd. destruct (decode_row_inv room db row e Hl Hin Hd) as (_ & _ & Hs & Hr).
  apply list_elem_of_lookup in Hin as [n Hn]. pose proof (room_events_lookup room db n row Hl Hn) as Hseq.
  unfold logged, room_of. rewrite Hr. unfold Event.sequence, checked_add in Hs. case_decide; [|done].
  injection Hs as Hs. unfold log_of. rewrite list_lookup_fmap.
  replace (Z.to_nat (parent_of e)) with n by (unfold parent_of; lia). rewrite Hn. simpl. f_equal.
  unfold decode_row in Hd. by destruct (decode_message _ _) as [e'|]; simplify_eq/=.
Qed.

Lemma event_logged db user id op :
  log_inv db → valid c_append op → event_row user id op ∈ delivery_events db → logged db (Event.Mk id user op).
Proof.
  intros Hl Hv Hin. pose proof (log_rows db Hl) as Hrows. rewrite Forall_forall in Hrows.
  destruct (Hrows _ Hin) as (op' & Hv' & Hi & E). apply event_row_inj in E as (_ & _ & ->); [|done..].
  apply (row_logged db (Append.room op') (event_row user id op') _ Hl).
  - unfold room_events. by apply list_elem_of_filter.
  - unfold decode_row. by rewrite decode_event_row.
Qed.

Lemma logged_kept db db' e : history_kept db db' → logged db e → logged db' e.
Proof.
  intros Hk. unfold logged, log_of. intros (row & Hd & Hn)%list_lookup_fmap_Some.
  apply list_lookup_fmap_Some. exists row. split; [done|]. eapply prefix_lookup_Some; [done|by apply kept_logs].
Qed.

Lemma page_logged db room after events more : log_inv db →
  page_items event_record decode_row (select_events room after db) [] 0 = Some (events, more) →
  Forall (logged db) events.
Proof.
  intros Hl E. apply page_items_spec in E as (taken & rest & new & Hrows & -> & Hf & _); [|done..].
  simpl. apply Forall_forall. intros e (i & He)%list_elem_of_lookup.
  eapply Forall2_lookup_r in Hf as (row & Hrow & Hd); [|done].
  apply (row_logged db room row); [done| |done]. apply list_elem_of_lookup_2 in Hrow.
  assert (row ∈ select_events room after db) as Hin by (rewrite Hrows; set_solver).
  unfold select_events in Hin. apply subseteq_take in Hin. rewrite merge_sort_Permutation in Hin.
  apply list_elem_of_filter in Hin as [[Hr _] Hin]. unfold room_events. by apply list_elem_of_filter.
Qed.

Lemma effect_logged now user id request x db db' :
  valid c_request request → log_inv db' → effect now user id db request x db' → Forall (logged db') (response_events x).
Proof.
  intros Hv Hl Heff. destruct Heff as [|request x Hr| | | | | | |op db' _ _ _ _ _ Ha]; try by constructor.
  - destruct request, x; try done; simpl in *; try by constructor.
    destruct Hr as (_ & _ & _ & _ & Hp). by eapply page_logged.
  - apply Forall_singleton, event_logged; [done|apply Hv|]. rewrite (append_effect_events _ _ _ _ _ Ha). set_solver.
Qed.

(** Whatever it is asked, the relay reports only events at their places in its log. *)
Lemma answers_are_logged limits db user id request env m x db1 m1 :
  reachable limits db → valid c_request request → deliver limits user id request env db m = (Ok x, db1, m1) →
  Forall (logged db1) (response_events x).
Proof.
  intros Hr Hv E. assert (log_inv db1) as Hl1.
  { apply data_log, (data_inv_reachable limits). unfold reachable in *. etrans; [exact Hr|]. apply rtc_once.
    by eapply deliver_step. }
  apply deliver_outcome in E as [_ Ha].
  destruct Ha as [row _ _ ->|row Hrow _ Hd|reason _ _ ->|_ _ ->|db1 Hp]; try by constructor.
  - destruct (journal_inv_reachable limits db Hr _ _ Hrow) as (req & resp & Hvq & Hvr & -> & Hlen & _ & Hresp).
    apply decode_put_response in Hd as ->; [|done..]. destruct resp; try done; try by constructor.
    destruct Hresp as (-> & -> & Hin). apply Forall_singleton. by apply event_logged.
  - destruct Hp as [db2 _ Heff _ _ _ _ _ _|_ Heff _]; [|by eapply effect_logged].
    pose proof (save_tables_same user id request x db2) as Hs.
    assert (log_inv db2) as Hl2 by (apply (log_inv_ext _ _ (symmetry (same_events _ _ Hs))), Hl1).
    eapply Forall_impl; [by eapply effect_logged|]. intros e. unfold logged, log_of.
    by rewrite (room_events_ext _ _ _ (same_events _ _ Hs)).
Qed.

Lemma reads_keep limits db user id request env m r db1 m1 :
  is_durable request = false → deliver limits user id request env db m = (r, db1, m1) → db1 = db.
Proof.
  intros Hd E%deliver_outcome. destruct r as [x|e]; [|done]. destruct E as [_ E].
  destruct E as [| | | |db1 [| ]]; try done. congruence.
Qed.
End answers.

(** ** Clients of this relay *)

Section clients.
Context `{Postcard} `{Sha256} `{Ed25519Signer} `{Mls}.
#[local] Set Default Proof Using "Type*".

(** The relay has given this answer, to whatever request, before it came to [R]. *)
Definition relay_answered (limits : StorageLimits) (R : RelayDb) (x : Response.t) : Prop :=
  ∃ user id request env db m db1 m1, reachable limits db ∧ valid c_request request ∧
    deliver limits user id request env db m = (Ok x, db1, m1) ∧ rtc (relay_step limits) db1 R.

(** A message that is an answer is one of the relay's. *)
Definition from_relay (limits : StorageLimits) (R : RelayDb) (i : Incoming) : Prop := ∀ frame id x,
  i = Arrived frame → decode_message c_relay_message frame = Ok (RelayMessage.Delivery id x) →
  relay_answered limits R x.

(** What the reader task of an attempt's session passes on. *)
Definition heard (id : ClientIdentity) (token : option str) (a : Attempt) : list Incoming :=
  match reached a with
  | Err _ => []
  | Ok s =>
      match connect id token s with
      | (Err _, _) => []
      | (Ok _, s) => default [] (reader_task (S (stream_size (socket_in s))) (socket_in s))
      end
  end.

Lemma told_by_relay limits R i : from_relay limits R i → told (logged R) i.
Proof.
  intros Hi frame id x Ei Ed. destruct (Hi frame id x Ei Ed) as (user & rid & request & env & db & m & db1 & m1 & Hr & Hv & E & Hs).
  eapply Forall_impl; [by eapply answers_are_logged|]. intros e. by eapply logged_kept, reachable_kept.
Qed.

Lemma session_follows P id token a w c :
  Forall (told P) (heard id token a) → follows P c → follows P (session id token a w c).2.
Proof.
  unfold heard, session. intros Ht [Hs Hi]. destruct (reached a) as [s|e]; [|done].
  destruct (connect id token s) as [[u|e] s']; [|done]. by apply following_run.
Qed.
Lemma service_follows P id token l : ∀ delay w c,
  Forall (λ a, Forall (told P) (heard id token a)) l → follows P c → follows P (service id token delay l w c).2.
Proof.
  induction l as [|a l IH]; intros delay w c Hl Hc; [done|]. apply Forall_cons in Hl as [Ha Hl]. cbn [service].
  pose proof (session_follows P id token a w c Ha Hc) as Hs. destruct (session id token a w c) as [[u|e] c1]; [done|].
  simpl in Hs. destruct (negb (retryable e)); [done|]. destruct (input_ended a); [done|].
  destruct (jitter a) as [b|]; [|done]. destruct (backoff delay (elapsed_nanos a) b) as [[millis delay']|]; [|done].
  specialize (IH delay' w c1 Hl Hs). by destruct (service id token delay' l w c1) as [[r waits] c2].
Qed.

(** An event is settled at this place, and it is the one the log has there. *)
Definition has_read (R : RelayDb) (d : ClientDb) (room : RoomId) (s : Z) : Prop :=
  ∃ row e, row ∈ inbox d ∧ settled row ∧ position row = (room, s) ∧ row_of row e ∧
    log_of room R !! Z.to_nat (s - 1) = Some (Ok e).
Lemma settled_read R d room s : follows_db (logged R) d → settled_at d room s → has_read R d room s.
Proof.
  intros Hf (row & Hrow & Hp & Hset). destruct (Hf row Hrow) as (e & He & Hlog).
  exists row, e. split_and!; [done..|]. destruct He as (_ & _ & _ & Hr & Hq). unfold position in Hp.
  rewrite Hr, Hq in Hp. injection Hp as <- <-. unfold logged in Hlog. by rewrite Z.add_simpl_r.
Qed.

(** Events at the same place of the same log are the same. *)
Lemma rows_agree R row1 e1 row2 e2 :
  row_of row1 e1 → logged R e1 → row_of row2 e2 → logged R e2 → position row1 = position row2 →
  inbox_event row1 = inbox_event row2 ∧ inbox_record row1 = inbox_record row2.
Proof.
  intros (_ & E1 & -> & Hr1 & Hs1) L1 (_ & E2 & -> & Hr2 & Hs2) L2 Hp. unfold position in Hp.
  rewrite Hr1, Hr2, Hs1, Hs2 in Hp. injection Hp as Hr Hs. unfold logged, room_of, parent_of in *.
  rewrite Hr in L1. replace (Append.parent (Event.operation e1)) with (Append.parent (Event.operation e2)) in L1 by lia.
  rewrite L2 in L1. injection L1 as ->. rewrite E1 in E2. by injection E2.
Qed.
End clients.

(** C15: members agree on what was said, and in which order. Let a client's process run
    over any number of sessions, lost connections and failing statements, and let every
    answer that reaches it be one the relay gave, to anybody, before it came to the
    database [R]. Then each event in the client's journal stands in the relay's log of
    its room at its own place. A room's cursor only moves over events that are settled,
    one place after the other, and from any settled event up to the cursor there is no
    gap: what the client has read of a room is a run of the log. Every message of its
    history that is not its own is an event of the log, by the sender the log names. So
    whoever else has a journal of the same relay has the same event, byte for byte, at
    every place that both have reached. *)
Theorem members_agree `{Postcard} `{Sha256} `{Ed25519Signer} `{Mls} limits R id token delay l w c r waits c' :
  1 ≤ delay ≤ 30 → good (user_id id) c → saved (store c) = None → incoming c = [] →
  follows_db (logged R) (db (store c)) →
  Forall (λ a, Forall (from_relay limits R) (heard id token a)) l →
  service id token delay l w c = (r, waits, c') →
  let d := durable (store c') in
  follows_db (logged R) d ∧
  (∀ room n0, cursors (db (store c)) !! room = Some n0 →
    ∃ n, cursors d !! room = Some n ∧ n0 ≤ n ∧ ∀ s, n0 < s ≤ n → has_read R d room s) ∧
  (∀ row n s, row ∈ inbox d → settled row → cursors d !! inbox_room row = Some n → inbox_sequence row ≤ s ≤ n →
    has_read R d (inbox_room row) s) ∧
  (∀ h, h ∈ history_rows d → history_author h ≠ user_id id →
    ∃ e, logged R e ∧ Event.id e = history_message h ∧ room_of e = history_room h ∧ Event.sender e = history_author h) ∧
  (∀ d2 row1 row2, follows_db (logged R) d2 → row1 ∈ inbox d → row2 ∈ inbox d2 → position row1 = position row2 →
    inbox_event row1 = inbox_event row2 ∧ inbox_record row1 = inbox_record row2).
Proof.
  intros Hd Hg Hs Hin Hf Hl E. destruct (service_spec id token l delay w c r waits c' Hd Hg E) as ([_ Hi] & Hgr & _).
  assert (follows_db (logged R) (durable (store c'))) as Hf'.
  { apply both_durable. replace c' with (service id token delay l w c).2 by (by rewrite E).
    apply service_follows; [|split; [split; [done|by rewrite Hs]|by rewrite Hin]].
    eapply Forall_impl; [exact Hl|]. intros a Ha. eapply Forall_impl; [exact Ha|]. apply told_by_relay. }
  cbn zeta. split_and!; [done|..].
  - assert (durable (store c) = db (store c)) as Hdb by (unfold durable; by rewrite Hs). rewrite <- Hdb.
    intros room n0 (n & Hn & Hle & Hall)%(grows_cursors _ _ Hgr). exists n. split_and!; [done..|].
    intros s Hsn. by apply settled_read, Hall.
  - intros row n s Hrow Hset Hn Hsn. apply settled_read; [done|]. by eapply (inv_contiguous _ _ Hi).
  - intros h Hh Ha. destruct (inv_history _ _ Hi h Hh Ha) as (row & e & Hrow & He & _ & -> & -> & ->).
    destruct (Hf' row Hrow) as (e' & He' & Hlog). destruct He as (Hv & E1 & _ & Hr & _), He' as (Hv' & E2 & _).
    rewrite (event_bytes_inj e e' _ Hv Hv' E1 E2) in *. by exists e'.
  - intros d2 row1 row2 Hf2 Hr1 Hr2 Hp. destruct (Hf' row1 Hr1) as (e1 & He1 & L1), (Hf2 row2 Hr2) as (e2 & He2 & L2).
    by eapply rows_agree.
Qed.

(** Alice has joined at her own commit; Bob has spoken since, and she connects. *)
Definition bobs_words : Append.t :=
  Append.Mk cave 1 1 MlsContentType.Application (event_authenticated_data cave hello_id 1 ++ [x68; x69]) None.
Definition db_said : RelayDb := (demo_deliver bob hello_id (Request.AppendRoomOperation bobs_words) db_added).1.2.
Definition said_answers : list (Request.t * Response.t) :=
  [(Request.FetchWelcomes 0, Response.Welcomes 0 [] false);
   (Request.SyncIndex None, Response.SyncIndex [RoomHead.Mk cave (lit "Cave") 2] false);
   (Request.FetchRoomEvents cave 1, Response.RoomEvents cave 1 [Event.Mk hello_id bob bobs_words] false)].
Definition said_socket : Socket :=
  MkSocket (push_back (relay_frames (relay_says cached_identity alice_challenge ++ (answer ∘ snd <$> said_answers))) [])
    (Writer [] None).
Definition said_attempt : Attempt := MkAttempt (Ok said_socket) [] 0 true None.
Definition alice_at_one : ClientDb := set_cursors (λ _, {[cave := 1]}) alice_db.
Definition said_client : Client := MkClient (store_with alice_at_one) ∅ (Writer [] None) [] [] 0 0 0.
Definition said_run : option (result ClientError ()) * list Z * Client :=
  service cached_identity None 1 [said_attempt] calm said_client.

Lemma bobs_words_valid : valid c_append bobs_words.
Proof. repeat split; try done; try (by vm_compute); repeat constructor. Qed.

Lemma db_said_reachable : reachable demo_limits db_said.
Proof. eapply rtc_r; [exact db_added_reachable|]. apply demo_step. exact bobs_words_valid. Qed.

(** These are the relay's answers to what she asks. *)
Lemma said_answered : Forall (λ p, valid c_request p.1 ∧ is_durable p.1 = false ∧
  (deliver demo_limits alice hello_id p.1 demo_env db_said demo_metrics).1.1 = Ok p.2 ∧
  decode_message c_relay_message (put c_relay_message (answer p.2)) = Ok (answer p.2)) said_answers.
Proof.
  do 3 (apply Forall_cons; split; [split_and!; [by vm_compute|reflexivity|vm_compute; reflexivity|vm_compute; reflexivity]|]).
  constructor.
Qed.

Lemma said_from_relay : Forall (from_relay demo_limits db_said) (heard cached_identity None said_attempt).
Proof.
  assert (heard cached_identity None said_attempt =
    ((λ p, Arrived (put c_relay_message (answer p.2))) <$> said_answers) ++ [ReaderFailed ConnectionReset]) as ->
    by (vm_compute; reflexivity).
  apply Forall_app. split; [|by apply Forall_singleton]. apply Forall_fmap. eapply Forall_impl; [exact said_answered|].
  intros [request x] (Hv & Hdur & E & Ed) frame id x' Ei.
  apply (f_equal (λ i, match i with Arrived f => f | _ => frame end)) in Ei. cbn beta iota in Ei.
  rewrite <- Ei, Ed. intros [= _ <-].
  destruct (deliver demo_limits alice hello_id request demo_env db_said demo_metrics) as [[y db1] m1] eqn:Edel.
  cbn [fst snd] in E. rewrite Edel in E. cbn [fst] in E. rewrite E in Edel.
  exists alice, hello_id, request, demo_env, db_said, demo_metrics, db1, m1.
  split; [exact db_said_reachable|]. split; [exact Hv|]. split; [exact Edel|].
  rewrite (reads_keep _ _ _ _ _ _ _ _ _ _ Hdur Edel). apply rtc_refl.
Qed.

Lemma alice_at_one_inv : ClientJournal.journal_inv alice alice_at_one.
Proof.
  split; simpl; try apply NoDup_nil_2; try (by intros ? ?%not_elem_of_nil).
  by intros ? ? ? ?%not_elem_of_nil.
Qed.

Lemma said_client_good : good (user_id cached_identity) said_client.
Proof. split; [left; split; reflexivity|exact alice_at_one_inv]. Qed.

Lemma members_agree_witness :
  let d := durable (store said_run.2) in
  cursors d !! cave = Some 2 ∧ has_read db_said d cave 2.
Proof.
  assert (cursors (durable (store said_run.2)) !! cave = Some 2) as Hn by (vm_compute; reflexivity).
  split; [exact Hn|].
  assert (service cached_identity None 1 [said_attempt] calm said_client = (said_run.1.1, said_run.1.2, said_run.2)) as E
    by (etrans; [|apply triple_eta]; unfold said_run; reflexivity).
  revert Hn E. generalize said_run.1.1 said_run.1.2 said_run.2. intros r waits c' Hn E.
  assert (follows_db (logged db_said) (db (store said_client))) as Hf by (intros row []%not_elem_of_nil).
  destruct (members_agree demo_limits db_said cached_identity None 1 [said_attempt] calm said_client r waits c'
    (conj (Z.le_refl 1) (ltac:(lia) : 1 ≤ 30)) said_client_good eq_refl eq_refl Hf
    (Forall_cons_2 _ _ _ said_from_relay (Forall_nil_2 _)) E) as (_ & Hlog & _).
  destruct (Hlog cave 1) as (n & Hn2 & _ & Hall); [by vm_compute|].
  apply Hall. rewrite Hn in Hn2. injection Hn2 as <-. lia.
Defined.
